(* ===== verification/_CoqProject ===== *)
-Q . S2P
Prelude.v
Chainbase.v
Merkle.v
BlockHeaderState.v
ForkDatabase.v
BlockApply.v
BlockRun.v
ForkSwitch.v
PushBlock.v
BlockProduction.v
Names.v
Raw.v
Asset.v
Authority.v
Transactions.v
AuthorizationManager.v
ResourceLimits.v
NativeContract.v
Controller.v
Billing.v
ContractTables.v
TablesInvariant.v
TablesOrder.v
TransactionContext.v
TrxBilling.v
PushTransaction.v
PushAtomic.v
PushScheduled.v
PushOverdrawn.v
PackSize.v
ApplyContext.v
ApplyFrame.v
ApplyLimits.v
ApplyConfined.v
ApplyReceipts.v
ApplyTerminates.v
Token.v
Multisig.v
SystemState.v
SystemVoting.v
SystemStaking.v
SystemContract.v
SystemFrame.v
SystemBooks.v
SystemTrade.v
SystemAccounts.v
SystemMarket.v
SystemSolvent.v
SystemVotes.v
SystemElection.v
SystemPay.v
