(* ===== verification/Prelude.v ===== *)
(** * A verification development for the BitEOS node

    BitEOS is a blockchain node: it keeps a database of accounts, permissions and contract
    tables with nested undo sessions, receives blocks whose producers confirm one
    another until they become irreversible, checks that transactions are authorized, bills
    resources, and executes native and contract actions. This library models the parts of
    it that decide those questions and proves what they promise. Paths below are relative
    to [src/]; [chain/] stands for [libraries/chain], its headers included.

    ** How code is modelled

    Every definition translates a function, loop or structure of the source and keeps its
    name where possible. Integers are [Z] with the wrap-around of their width written out
    ([u8] to [u128], [i32], [i64]). Exceptions are values: [result A] is a value or an
    [exn], and stateful code is [St S A], a function from a state to a state and a
    result, so that the changes made before an exception are kept until something undoes
    them. Executions without defined behaviour return [undefined_behaviour]. Loops are
    structural, or carry fuel; the fuel of each loop is a bound stated beside it (the size
    of the container, the number of bits, the depth of the recursion limit), and the
    theorems on those loops are about their result, so they also show that the fuel
    suffices. Third-party code is a type class with its documented laws and an instance
    that satisfies them: boost multi-index containers ([MultiIndex], [ForkIndex],
    [MetaSet]), hashing and key recovery ([Crypto], [TrxCrypto]),
    [boost::lexical_cast] ([Lexical]), WebAssembly validation and node settings
    ([NativeEnv]), decompression ([Zlib]), the WebAssembly runtime ([Wasm]). Components are
    joined by interfaces as well: the execution of the transactions of a block
    ([Execution]), of which the theorems on blocks assume nothing, and the execution of one
    action ([Dispatch]), for which the theorems on transactions are proved and which
    [ApplyContext] implements. A contract is an arbitrary program of calls of the host, so
    that theorems on contracts hold for all of them. The program is finite: [checktime] is one
    of its calls, but that the calls of it which the runtime injects end a contract that
    would loop for ever is not part of the model.

    ** Files

    - [Prelude]: exceptions and how they are caught, the result and state monads with their weakest preconditions
      ([wp]) and framing ([keeps]), machine integers, ordered maps, sums over maps, and the
      tactics of the library.
    - [Chainbase] ([libraries/chainbase]): [generic_index] with its undo stack, sessions,
      and the database that runs them on all indices. Histories of operations refine a
      specification with whole snapshots; undo restores a session exactly, except when a
      unique key was reused, where it throws; all indices stay in step.
    - [Merkle] ([chain/merkle.cpp], [incremental_merkle.hpp]): batch and incremental trees
      compute the same root, up to the number of leaves at which the index of the batch
      loop overflows; the depth computation; canonical pairs.
    - [BlockHeaderState] ([chain/block_header_state.cpp], [block_header.cpp],
      [block_timestamp.hpp], [producer_schedule.hpp]): production, validation and
      signing of headers, confirmation counting, schedule promotion. While the schedule
      does not change, irreversibility needs confirmations by more than two thirds of distinct
      producers; accepted headers link, advance and are signed by the scheduled producer.
    - [ForkDatabase] ([chain/fork_database.cpp], [block_state.cpp]): the index of block
      states, adding, pruning, removal of branches, branch search, confirmations, and the
      signal of irreversible blocks. The announced blocks form one chain from which all
      remaining blocks descend.
    - [BlockApply] ([chain/controller.cpp]): the block handling of the controller on the fork
      database and an undo database: pending blocks, applying, committing, aborting and
      popping blocks, irreversible blocks, and the switch between forks. [undo] can fail, and
      an exhausted shared memory ([bad_alloc]) passes every handler.
    - [BlockRun]: [apply_block], with its session, scope guards and catch blocks, commits
      what a plain execution of the block gives, or restores all but the set of unapplied
      transactions.
    - [ForkSwitch]: the invariant [synced] of a controller whose head, marked blocks, undo
      sessions and reversible blocks are those of one chain, and whose database comes from
      executing its blocks. Switching forks keeps it, also when a block of the new branch is bad:
      the controller is back at its old head, if the blocks of the old branch execute again.
      The switch fails halfway when the fork point is no longer open.
    - [PushBlock]: pushing a block keeps the invariant through the announcement of an
      irreversible block, the block log included.
    - [BlockProduction]: committing a produced block that is the best one keeps the invariant;
      a block that is not leaves a head that was never applied.
    - [Names] ([chain/name.cpp]): the base-32 names and their text are in bijection.
    - [Raw] ([libraries/fc/include/fc/io/raw.hpp], [datastream.hpp]): binary
      serialization as codecs, with the laws that packing fills exactly the counted size
      and unpacking inverts it; the [signed_int] codec, which does not.
    - [Asset] ([chain/asset.cpp], [symbol.hpp], [fc/safe.hpp]): text of assets and
      symbols, checked 64-bit arithmetic.
    - [Authority] ([chain/authority.hpp], [authority_checker.hpp]): weighted
      authorities, their validation, and the recursive checker with its cache. What it
      accepts is derivable by the rules of weighted authorities, and a valid authority is
      satisfied when everything is provided.
    - [Transactions] ([chain/transaction.cpp], [action.hpp], [contract_types.hpp]):
      structures and binary forms, ids and signing digests, and key recovery with a
      cache, which is transparent unless an identifier comes with different signing digests.
    - [AuthorizationManager] ([chain/authorization_manager.cpp],
      [permission_object.hpp]): the permission hierarchy, links, the rules of native
      actions and [check_authorization], shown sound against [Authority].
    - [ResourceLimits] ([chain/resource_limits.cpp], [resource_limits_private.hpp]):
      moving averages, elastic limits, account limits and usage. What is reported as
      available is accepted when billed, pending limits keep the totals exact, and closing a block
      moves the virtual limits within their bounds.
    - [NativeContract] ([chain/besio_contract.cpp], [account_object.hpp]): the eight
      native actions with their billing, and that each keeps the permissions of accounts
      well formed.
    - [Controller] ([chain/controller.cpp], [apply_context.cpp]): genesis accounts, dispatch
      of native actions, producer authorities, checks of a transaction. All reachable
      states have well-formed permissions, where the owner permission satisfies every
      permission of its account and no other.
    - [TransactionContext] ([chain/transaction_context.cpp], [chain_config.cpp]): the limits,
      deadlines, billing and scheduling of one transaction; the clock is a sequence of
      readings.
    - [TrxBilling]: the limits are the least of what the block, the chain, the header of the
      transaction and its accounts allow, and an input transaction that passes its last checks
      can be billed.
    - [PushTransaction] ([chain/controller.cpp], [transaction_metadata.hpp],
      [transaction.cpp]): packed transactions, [push_transaction] and
      [push_scheduled_transaction] with sessions, restore points and error handlers.
    - [PushAtomic]: a pushed transaction leaves one receipt or nothing; the notification that
      each push starts is rejected, so that the recursion ends.
    - [PushScheduled]: a deferred transaction is retired with one receipt or stays.
    - [PushOverdrawn]: the last step of retiring fails for accounts above their share.
    - [PackSize]: what can be packed has a bounded size, and what unpacks as a transaction
      fits its types.
    - [ApplyContext] ([chain/apply_context.cpp], [apply_context.hpp],
      [wasm_interface.cpp], [action_receipt.hpp]): executing an action: receivers and
      notifications, native handlers and contracts, the calls of contracts that change
      state, inline and deferred actions, receipts. The depth of nested actions is a
      16-bit parameter of the chain, which bounds the recursion, and an action has no more
      receivers than there are accounts, which bounds the notifications.
    - [ApplyFrame]: relations that hold across every call of a contract hold across every
      contract; what the calls leave alone.
    - [ApplyLimits]: executing actions meets the laws that billing asks of [Dispatch].
    - [ApplyConfined]: a contract without privileges changes nothing but its tables, charges
      only accounts that agreed, and sends only what its own permission authorizes.
    - [ApplyReceipts]: the receipts of a transaction are those of the notifications and inline
      actions its contracts asked for; their order and their numbers.
    - [ApplyTerminates]: executing an action of finite contracts ends, by rules that bound neither
      notifications nor nesting.
    - [Billing]: the memory charged by the native actions against the objects the tables
      hold. In reachable states each action charges every account exactly what it adds.
    - [ContractTables] ([chain/apply_context.hpp], [apply_context.cpp],
      [contract_table_objects.hpp]): the database interface of contracts, with tables, rows,
      secondary indices over integers, the caches behind iterators and memory billing.
    - [TablesInvariant]: contracts cannot break those tables. Iterators stay valid, counts
      are exact, a contract changes only its own tables and rows are billed exactly.
    - [TablesOrder]: a loop over a table terminates and visits its rows once each in
      ascending order; moving back from the end of a removed table follows a pointer
      that is no longer valid.
    - [Token] ([contracts/besio.token]): the token contract. Balances add up to the
      supply in every reachable state, and transfers succeed exactly under their stated
      conditions.
    - [Multisig] ([contracts/besio.msig]): the multi-signature contract on the authorization
      manager. What it executes was proposed, and approvals that stand authorize it.
    - [SystemState], [SystemVoting], [SystemStaking], [SystemContract]
      ([contracts/besio.system]): the system contract. Its tables, the global state that each
      action reads first and writes last, elections and votes, the RAM market, stakes and refunds,
      rewards, the auction of names. Doubles are those of [SpecFloat]; the power function
      is a field of the class [SystemLib]. Recursion from proxy to proxy has one step for each
      voter, which [SystemVotes] shows to be enough, and a conversion two.
    - [SystemFrame], [SystemBooks], [SystemTrade]: what parts of an action leave alone, and what
      each action on stakes and RAM changes.
    - [SystemAccounts]: weights, stakes and limits are the sums of the delegations.
    - [SystemMarket]: bytes and tokens of the RAM market add up, unless RAM is paid for in RAM.
    - [SystemSolvent]: the system and the token contract together. The vaults hold what is staked,
      awaits refund or is bid, less what they draw themselves.
    - [SystemVotes]: proxies form no cycle, so every action ends.
    - [SystemElection]: the schedule has the producers with the most votes, unless deactivated ones
      have negative votes, and the auction that
      closes has the highest bid.
    - [SystemPay]: a claim is paid a fair share, where the arithmetic does not overflow.

    The components meet in several files. [BlockApply] runs on the states of [ForkDatabase],
    whose signal it subscribes to, on the header states of [BlockHeaderState], the roots of
    [Merkle] and the snapshots that [Chainbase] refines; [AuthorizationManager] calls the checker of
    [Authority] on the data [Transactions] unpacks with [Raw]; [NativeContract] runs on a
    state that joins the tables of [AuthorizationManager] and [ResourceLimits] with
    accounts; [Controller] composes the handlers into an inductive relation of reachable
    states; [TransactionContext] runs on that state with the configuration and the recorded
    transactions, [PushTransaction] adds the pending block of [ForkDatabase] and the key
    cache of [Transactions]; [ContractTables] adds tables to that state and charges through it;
    [ApplyContext] runs the handlers of [NativeContract], the calls of [ContractTables] and the
    checks of [AuthorizationManager] in a transaction of [TransactionContext], whose
    interface it implements. [SystemSolvent] runs the actions that [SystemContract] sends on
    [Token].

    ** Not modelled

    - Start-up and replay of the block log in [controller.cpp], and the signals to plugins.
    - Contracts that loop for ever, which the time limit ends.
    - Proposing a producer schedule from a contract, calls of contracts that only read the
      transaction, the console and traces of actions. The secondary indices over 256-bit keys and over floating-point numbers are further instances of
      the template [ContractTables] models; the latter need softfloat.
    - The WebAssembly runtimes, their injection and validation, and the ABI serializer.
    - The block log and other files, memory mapping and locks: operating-system I/O.
    - Plugins, wallets, the command line and appbase: sockets, timers, processes.
    - Contracts other than the token, the multi-signature and the system contract; in the last,
      printing, and the native actions it declares without a body.
    - Compression of packed transactions, elliptic curves and SHA-256: third-party code. *)
From stdpp Require Export prelude gmap list sorting.
From Stdlib Require Export ZArith Lia ZifyNat.

#[global] Open Scope Z_scope.

(** ** Exceptions

    The node reports failure by throwing C++ exceptions.  [exn] has one
    constructor per exception class that the modelled code throws, plus
    [undefined_behaviour] for executions the C++ standard gives no meaning to
    (dereferencing a null pointer or an end iterator, indexing out of range,
    division by zero).  [bad_alloc] is [boost::interprocess::bad_alloc]: the
    shared memory of the database is exhausted.  [terminated] is the end of the
    process when an exception leaves a destructor.  [undo_error] is the
    [std::logic_error] with which [undo] of the database gives up on an object it
    cannot restore, and [undo_exception] the [fc::exception] made of it. *)
Inductive exn : Set :=
| undefined_behaviour
| bad_alloc
| terminated
| undo_error
| undo_exception
| key_blacklist_exception
| contract_whitelist_exception
| contract_blacklist_exception
| action_blacklist_exception
| logic_error
| out_of_range
| runtime_error
| overflow_exception
| underflow_exception
| divide_by_zero_exception
| block_validate_exception
| unlinkable_block_exception
| wrong_producer
| producer_schedule_exception
| producer_double_confirm
| producer_not_in_schedule
| wrong_signing_key
| fork_database_exception
| fork_db_block_not_found
| rate_limiting_state_inconsistent
| resource_limit_exception
| tx_cpu_usage_exceeded
| tx_net_usage_exceeded
| block_resource_exhausted
| ram_usage_exceeded
| transaction_exception
| irrelevant_auth_exception
| permission_query_exception
| unlinkable_min_permission_action
| action_validate_exception
| tx_not_found
| unsatisfied_authorization
| tx_irrelevant_sig
| account_query_exception
| account_name_exists_exception
| missing_auth_exception
| name_type_exception
| invalid_permission
| invalid_contract_vm_type
| invalid_contract_vm_version
| set_exact_code
| wasm_exception
| asset_type_exception
| symbol_type_exception
| besio_assert_message_exception
| out_of_range_exception
| assert_exception
| action_type_exception
| tx_duplicate_sig
| expired_tx_exception
| tx_exp_too_far_exception
| tx_duplicate
| invalid_ref_block_exception
| tx_no_action
| tx_no_auths
| block_net_usage_exceeded
| block_cpu_usage_exceeded
| deadline_exception
| leeway_deadline_exception
| subjective_block_production_exception
| cfa_irrelevant_auth
| wasm_execution_error
| fork_no_such_block
| unpack_exception
| block_log_exception
| guard_exception
| inline_too_big
| unknown_transaction_compression
| invalid_table_iterator
| invalid_table_payer
| table_access_violation
| table_not_in_cache
| table_operation_not_permitted
| db_api_exception
| abi_not_found_exception
| account_name_exception
| parse_error
| database_exception
| greylist_net_usage_exceeded
| greylist_cpu_usage_exceeded
| actor_whitelist_exception
| actor_blacklist_exception
| unsupported_feature
| unknown_transaction_exception
| cfa_inside_generated_tx
| deferred_tx_duplicate
| tx_too_big
| unaccessible_api
| inline_action_too_big
| std_exception.

#[global] Instance exn_eq_dec : EqDecision exn.
Proof. solve_decision. Defined.

(** The outcome of a call: a value, or the exception it threw. *)
Inductive result (A : Type) : Type :=
| Ok (a : A)
| Throw (e : exn).
Arguments Ok {_} _.
Arguments Throw {_} _.

#[global] Instance result_ret : MRet result := fun A a => Ok a.
#[global] Instance result_bind : MBind result := fun A B f m =>
  match m with Ok a => f a | Throw e => Throw e end.
#[global] Instance result_eq_dec `{EqDecision A} : EqDecision (result A).
Proof. solve_decision. Defined.

(** [BES_ASSERT( b, e, ... )]. *)
Definition bes_assert (b : bool) (e : exn) : result unit :=
  if b then Ok tt else Throw e.

Definition is_ok {A} (r : result A) : bool :=
  match r with Ok _ => true | Throw _ => false end.

Definition of_option {A} (e : exn) (o : option A) : result A :=
  match o with Some a => Ok a | None => Throw e end.

(** ** Stateful code

    A method that mutates its object is a function from the object to the
    object it leaves behind and the outcome of the call.  The state survives a
    throw, as it does in C++: what was mutated before the throw stays
    mutated. *)
Definition St (S A : Type) : Type := S -> S * result A.

#[global] Instance St_ret S : MRet (St S) := fun A a s => (s, Ok a).
#[global] Instance St_bind S : MBind (St S) := fun A B f m s =>
  match m s with
  | (s', Ok a) => f a s'
  | (s', Throw e) => (s', Throw e)
  end.

Definition get {S} : St S S := fun s => (s, Ok s).
Definition put {S} (s : S) : St S unit := fun _ => (s, Ok tt).
Definition gets {S A} (f : S -> A) : St S A := fun s => (s, Ok (f s)).
Definition modify_st {S} (f : S -> S) : St S unit := fun s => (f s, Ok tt).
Definition lift {S A} (r : result A) : St S A := fun s => (s, r).
Definition throw {S A} (e : exn) : St S A := fun s => (s, Throw e).
Definition st_assert {S} (b : bool) (e : exn) : St S unit := lift (bes_assert b e).

(** [for( x : l ) f( x )] *)
Fixpoint for_each {S A} (f : A -> St S unit) (l : list A) : St S unit :=
  match l with
  | [] => mret tt
  | x :: l' => _ ← f x; for_each f l'
  end.

(** ** Catching exceptions

    [fc::exception] is the base of the exceptions of the code, except of those of
    the standard library and of [bad_alloc].  Undefined behaviour is no exception:
    nothing catches it. *)
Definition fc_exception (e : exn) : bool :=
  match e with
  | undefined_behaviour | bad_alloc | terminated | undo_error
  | logic_error | out_of_range | runtime_error => false
  | _ => true
  end.

(** What no handler of the block pipeline stops: every one of them that would
    catch [bad_alloc] rethrows it first. *)
Definition fatal (e : exn) : bool :=
  match e with undefined_behaviour | bad_alloc | terminated => true | _ => false end.

(** [try { m } catch( const fc::exception& e ) { h }]. *)
Definition catch_fc {S A} (m : St S A) (h : exn -> St S A) : St S A := fun s =>
  match m s with
  | (s', Throw e) => if fc_exception e then h e s' else (s', Throw e)
  | r => r
  end.

(** [FC_CAPTURE_AND_RETHROW]: [bad_alloc] and [fc::exception] pass, other exceptions
    come out as [fc::exception]. *)
Definition captured (e : exn) : exn :=
  if fc_exception e || fatal e then e
  else match e with undo_error => undo_exception | _ => std_exception end.
Definition capture_and_rethrow {S A} (m : St S A) : St S A := fun s =>
  match m s with
  | (s', Throw e) => (s', Throw (captured e))
  | r => r
  end.

(** [try { m } catch( const bad_alloc& ) { throw; } catch( const fc::exception& ) { }
    catch( ... ) { }]. *)
Definition swallow {S} (m : St S unit) : St S unit := fun s =>
  match m s with
  | (s', Throw e) => if fatal e then (s', Throw e) else (s', Ok tt)
  | (s', Ok _) => (s', Ok tt)
  end.

(** ** Fixed-width integers

    A machine integer is the [Z] it denotes; the functions below are the
    conversions to a width, which wrap around. *)
Definition u8 (z : Z) : Z := z mod 2 ^ 8.
Definition u16 (z : Z) : Z := z mod 2 ^ 16.
Definition u32 (z : Z) : Z := z mod 2 ^ 32.
Definition u64 (z : Z) : Z := z mod 2 ^ 64.
Definition u128 (z : Z) : Z := z mod 2 ^ 128.
Definition i32 (z : Z) : Z := (z + 2 ^ 31) mod 2 ^ 32 - 2 ^ 31.
Definition i64 (z : Z) : Z := (z + 2 ^ 63) mod 2 ^ 64 - 2 ^ 63.

Lemma u8_small z : 0 <= z < 2 ^ 8 -> u8 z = z.
Proof. intros; by apply Z.mod_small. Qed.
Lemma u16_small z : 0 <= z < 2 ^ 16 -> u16 z = z.
Proof. intros; by apply Z.mod_small. Qed.
Lemma u32_small z : 0 <= z < 2 ^ 32 -> u32 z = z.
Proof. intros; by apply Z.mod_small. Qed.
Lemma u64_small z : 0 <= z < 2 ^ 64 -> u64 z = z.
Proof. intros; by apply Z.mod_small. Qed.
Lemma u128_small z : 0 <= z < 2 ^ 128 -> u128 z = z.
Proof. intros; by apply Z.mod_small. Qed.
Lemma i64_small z : - 2 ^ 63 <= z < 2 ^ 63 -> i64 z = z.
Proof. intros H. unfold i64. rewrite Z.mod_small; lia. Qed.
Lemma i32_small z : - 2 ^ 31 <= z < 2 ^ 31 -> i32 z = z.
Proof. intros H. unfold i32. rewrite Z.mod_small; lia. Qed.
Lemma u8_range z : 0 <= u8 z < 2 ^ 8.
Proof. unfold u8. apply Z.mod_pos_bound. lia. Qed.
Lemma u16_range z : 0 <= u16 z < 2 ^ 16.
Proof. unfold u16. apply Z.mod_pos_bound. lia. Qed.
Lemma u32_range z : 0 <= u32 z < 2 ^ 32.
Proof. unfold u32. apply Z.mod_pos_bound. lia. Qed.
Lemma u64_range z : 0 <= u64 z < 2 ^ 64.
Proof. unfold u64. apply Z.mod_pos_bound. lia. Qed.
Lemma i64_range z : - 2 ^ 63 <= i64 z < 2 ^ 63.
Proof. unfold i64. pose proof (Z.mod_pos_bound (z + 2 ^ 63) (2 ^ 64)). lia. Qed.

Create HintDb width.
Create Rewrite HintDb width.
#[export] Hint Rewrite u8_small u16_small u32_small u64_small u128_small i64_small i32_small
  using lia : width.
#[export] Hint Resolve u8_range u16_range u32_range u64_range i64_range : width.

(** ** Bit fields *)

Lemma land_shiftl_small a b n : 0 <= n -> 0 <= a < 2 ^ n -> Z.land a (Z.shiftl b n) = 0.
Proof.
  intros Hn Ha. apply Z.bits_inj'. intros i Hi. rewrite Z.land_spec, Z.bits_0.
  destruct (decide (i < n)).
  - by rewrite Z.shiftl_spec_low, andb_false_r by done.
  - rewrite <- (Z.mod_small a (2 ^ n)) by done. rewrite Z.mod_pow2_bits_high by lia. done.
Qed.

(** A field below bit [n] and one from bit [n] on are added by [lor]. *)
Lemma lor_shiftl_add a b n : 0 <= n -> 0 <= a < 2 ^ n -> Z.lor a (Z.shiftl b n) = a + b * 2 ^ n.
Proof.
  intros Hn Ha. rewrite <- Z.shiftl_mul_pow2 by done.
  pose proof (land_shiftl_small a b n Hn Ha) as Hl.
  rewrite Z.add_nocarry_lxor by done. by rewrite <- Z.lxor_lor.
Qed.

Lemma land_pow2_mod a n : 0 <= n -> Z.land a (2 ^ n - 1) = a mod 2 ^ n.
Proof. intros. rewrite Z.sub_1_r, <- Z.ones_equiv. by apply Z.land_ones. Qed.

(** ** Tactics *)

(** Destruct the scrutinee of a [match] or [if] that blocks an equation, and
    discard the branches that cannot produce it. *)
Ltac inv_match H :=
  repeat (simplify_eq;
          match type of H with
          | context [match ?x with _ => _ end] =>
              lazymatch x with
              | context [match _ with _ => _ end] => fail
              | _ => let E := fresh "E" in destruct x eqn:E
              end
          end; try discriminate H); simplify_eq.

(** Unfold the monads, and nothing else. *)
Ltac run_monad :=
  cbn [mbind mret result_bind result_ret St_bind St_ret of_option bes_assert
       get put gets modify_st lift throw st_assert fst snd].
Tactic Notation "run_monad" "in" hyp(H) :=
  cbn [mbind mret result_bind result_ret St_bind St_ret of_option bes_assert
       get put gets modify_st lift throw st_assert fst snd] in H.

(** The same by full unfolding, where a call in the middle blocks [cbn]. *)
Ltac run_st :=
  lazy beta iota delta [mbind mret result_bind result_ret St_bind St_ret of_option bes_assert
       get put gets modify_st lift throw st_assert fst snd].
Tactic Notation "run_st" "in" hyp(H) :=
  lazy beta iota delta [mbind mret result_bind result_ret St_bind St_ret of_option bes_assert
       get put gets modify_st lift throw st_assert fst snd] in H.

(** Turn boolean comparisons into propositions. *)
Ltac bool_to_prop :=
  repeat match goal with
  | H : (_ =? _) = true |- _ => apply Z.eqb_eq in H
  | H : (_ =? _) = false |- _ => apply Z.eqb_neq in H
  | H : (_ <? _) = true |- _ => apply Z.ltb_lt in H
  | H : (_ <? _) = false |- _ => apply Z.ltb_ge in H
  | H : (_ <=? _) = true |- _ => apply Z.leb_le in H
  | H : (_ <=? _) = false |- _ => apply Z.leb_gt in H
  | H : bool_decide _ = true |- _ => apply bool_decide_eq_true in H
  | H : bool_decide _ = false |- _ => apply bool_decide_eq_false in H
  | H : negb _ = true |- _ => apply negb_true_iff in H
  | H : negb _ = false |- _ => apply negb_false_iff in H
  | H : _ && _ = true |- _ => apply andb_true_iff in H as [? ?]
  | H : _ || _ = false |- _ => apply orb_false_iff in H as [? ?]
  end.

(** ** Monad laws and inversion principles *)

#[global] Instance Ok_inj {A} : Inj (=) (=) (@Ok A).
Proof. by intros x y [= ->]. Qed.

Lemma result_bind_ok {A B} (m : result A) (f : A -> result B) b :
  (m ≫= f) = Ok b <-> exists a, m = Ok a /\ f a = Ok b.
Proof. destruct m; simpl; naive_solver. Qed.
Tactic Notation "bind_ok" hyp(H) "as" simple_intropattern(p) :=
  rewrite result_bind_ok in H; destruct H as p.

Lemma of_option_ok {A} e (o : option A) a : of_option e o = Ok a <-> o = Some a.
Proof. destruct o; simpl; naive_solver. Qed.
Lemma bes_assert_ok b e u : bes_assert b e = Ok u <-> b = true.
Proof. destruct b, u; simpl; naive_solver. Qed.

Lemma St_bind_ok {S A B} (m : St S A) (f : A -> St S B) s s' b :
  (m ≫= f) s = (s', Ok b) <-> exists a s1, m s = (s1, Ok a) /\ f a s1 = (s', Ok b).
Proof. unfold mbind, St_bind. destruct (m s) as [s1 [a|e]]; naive_solver. Qed.

Lemma St_bind_run {S A B} (m : St S A) (f : A -> St S B) s s1 a : m s = (s1, Ok a) -> (m ≫= f) s = f a s1.
Proof. unfold mbind, St_bind. by intros ->. Qed.

Lemma for_each_app {S A} (f : A -> St S unit) l1 l2 s :
  for_each f (l1 ++ l2) s = (_ ← for_each f l1; for_each f l2) s.
Proof.
  revert s; induction l1 as [|x l1 IH]; intros s; [done|].
  cbn. unfold mbind, St_bind in *. destruct (f x s) as [s1 [[]|e]]; [|done]. apply IH.
Qed.

(** The loop rule of [for_each]: an invariant indexed by the elements still
    to be visited, kept by each successful iteration, holds at the end. *)
Lemma for_each_inv {S A} (f : A -> St S unit) (I : list A -> S -> Prop) l s s' :
  (forall x l' s1 s2, I (x :: l') s1 -> f x s1 = (s2, Ok tt) -> I l' s2) ->
  I l s -> for_each f l s = (s', Ok tt) -> I [] s'.
Proof.
  intros Hstep. revert s; induction l as [|x l IH]; intros s HI; cbn.
  { unfold mret, St_ret. naive_solver. }
  rewrite St_bind_ok. intros ([] & s1 & Hf & Hrest). eapply IH; eauto.
Qed.

(** The total form: when every iteration succeeds and keeps the invariant, the
    loop succeeds. *)
Lemma for_each_total {S A} (f : A -> St S unit) (I : list A -> S -> Prop) l s :
  (forall x l' s1, I (x :: l') s1 -> exists s2, f x s1 = (s2, Ok tt) /\ I l' s2) ->
  I l s -> exists s', for_each f l s = (s', Ok tt) /\ I [] s'.
Proof.
  intros Hstep. revert s; induction l as [|x l IH]; intros s HI; cbn.
  { eexists; split; [done|done]. }
  destruct (Hstep _ _ _ HI) as (s2 & Hf & HI2).
  destruct (IH _ HI2) as (s' & Hl & HI'). exists s'; split; [|done].
  unfold mbind, St_bind. by rewrite Hf.
Qed.

(** ** Postconditions

    [wp m Q s]: when [m] returns from [s], the value and the state left satisfy [Q]. *)
Definition wp {S A} (m : St S A) (Q : A -> S -> Prop) (s : S) : Prop :=
  match m s with
  | (s', Ok a) => Q a s'
  | (_, Throw _) => True
  end.

Section wp.
Context {S : Type}.
Implicit Types s : S.

Lemma wp_ret {A} (a : A) (Q : A -> S -> Prop) s : Q a s -> wp (mret a) Q s.
Proof. done. Qed.
Lemma wp_bind {A B} (m : St S A) (k : A -> St S B) Q s :
  wp m (fun a s' => wp (k a) Q s') s -> wp (m ≫= k) Q s.
Proof. unfold wp, mbind, St_bind. by destruct (m s) as [s' [a|e]]. Qed.
Lemma wp_get Q s : Q s s -> wp get Q s.
Proof. done. Qed.
Lemma wp_modify (f : S -> S) Q s : Q tt (f s) -> wp (modify_st f) Q s.
Proof. done. Qed.
Lemma wp_lift {A} (r : result A) Q s : (forall a, r = Ok a -> Q a s) -> wp (lift r) Q s.
Proof. unfold wp, lift. destruct r; auto. Qed.
Lemma wp_assert b e Q s : (b = true -> Q tt s) -> wp (st_assert b e) Q s.
Proof. unfold wp, st_assert, lift, bes_assert. destruct b; auto. Qed.
Lemma wp_throw {A} e (Q : A -> S -> Prop) s : wp (throw e) Q s.
Proof. done. Qed.
Lemma wp_mono {A} (m : St S A) (Q1 Q2 : A -> S -> Prop) s :
  wp m Q1 s -> (forall a s', Q1 a s' -> Q2 a s') -> wp m Q2 s.
Proof. unfold wp. destruct (m s) as [s' [a|e]]; auto. Qed.
Lemma wp_ok {A} (m : St S A) (Q : A -> S -> Prop) s s' a : wp m Q s -> m s = (s', Ok a) -> Q a s'.
Proof. intros Hw Hm. unfold wp in Hw. by rewrite Hm in Hw. Qed.
Lemma wp_run {A} (m : St S A) (Q : A -> S -> Prop) s :
  (forall s' a, m s = (s', Ok a) -> Q a s') -> wp m Q s.
Proof. unfold wp. destruct (m s) as [s' [a|e]]; auto. Qed.
End wp.

(** One step through a handler. *)
Ltac wp_step :=
  lazymatch goal with
  | |- wp (_ ≫= _) _ _ => apply wp_bind
  | |- wp (mret _) _ _ => apply wp_ret
  | |- wp get _ _ => apply wp_get
  | |- wp (modify_st _) _ _ => apply wp_modify
  | |- wp (throw _) _ _ => apply wp_throw
  | |- wp (st_assert _ _) _ _ => apply wp_assert; intros ?
  | |- wp (lift _) _ _ => apply wp_lift; intros ? ?
  | |- wp (if ?b then _ else _) _ _ => let E := fresh "E" in destruct b eqn:E
  | |- wp (match ?x with _ => _ end) _ _ => let E := fresh "E" in destruct x eqn:E
  | |- wp (let '(_, _) := ?x in _) _ _ => let E := fresh "E" in destruct x eqn:E
  end; cbv beta.

(** [wpe E m Q s]: the same, and an exception that [m] throws satisfies [E]. *)
Definition wpe {S A} (E : exn -> Prop) (m : St S A) (Q : A -> S -> Prop) (s : S) : Prop :=
  match m s with
  | (s', Ok a) => Q a s'
  | (_, Throw e) => E e
  end.

Section wpe.
Context {S : Type} (E : exn -> Prop).
Implicit Types s : S.

Lemma wpe_ret {A} (a : A) (Q : A -> S -> Prop) s : Q a s -> wpe E (mret a) Q s.
Proof. done. Qed.
Lemma wpe_bind {A B} (m : St S A) (k : A -> St S B) Q s :
  wpe E m (fun a s' => wpe E (k a) Q s') s -> wpe E (m ≫= k) Q s.
Proof. unfold wpe, mbind, St_bind. by destruct (m s) as [s' [a|e]]. Qed.
Lemma wpe_get Q s : Q s s -> wpe E get Q s.
Proof. done. Qed.
Lemma wpe_modify (f : S -> S) Q s : Q tt (f s) -> wpe E (modify_st f) Q s.
Proof. done. Qed.
Lemma wpe_throw {A} e (Q : A -> S -> Prop) s : E e -> wpe E (throw e) Q s.
Proof. done. Qed.
Lemma wpe_lift {A} (r : result A) Q s :
  (forall a, r = Ok a -> Q a s) -> (forall e, r = Throw e -> E e) -> wpe E (lift r) Q s.
Proof. unfold wpe, lift. destruct r; auto. Qed.
Lemma wpe_of_option {A} (o : option A) e Q s :
  (forall a, o = Some a -> Q a s) -> (o = None -> E e) -> wpe E (lift (of_option e o)) Q s.
Proof. unfold wpe, lift. destruct o; cbn; auto. Qed.
Lemma wpe_assert b e Q s : (b = true -> Q tt s) -> E e -> wpe E (st_assert b e) Q s.
Proof. unfold wpe, st_assert, lift, bes_assert. destruct b; auto. Qed.
Lemma wpe_mono {A} (m : St S A) (Q1 Q2 : A -> S -> Prop) s :
  wpe E m Q1 s -> (forall a s', Q1 a s' -> Q2 a s') -> wpe E m Q2 s.
Proof. unfold wpe. destruct (m s) as [s' [a|e]]; auto. Qed.
Lemma wpe_weaken {A} (E' : exn -> Prop) (m : St S A) (Q : A -> S -> Prop) s :
  (forall e, E e -> E' e) -> wpe E m Q s -> wpe E' m Q s.
Proof. unfold wpe. destruct (m s) as [s' [a|e]]; auto. Qed.
Lemma wpe_wp {A} (m : St S A) (Q : A -> S -> Prop) s : wpe E m Q s -> wp m Q s.
Proof. unfold wpe, wp. by destruct (m s) as [s' [a|e]]. Qed.
Lemma wpe_ok {A} (m : St S A) (Q : A -> S -> Prop) s s' a : wpe E m Q s -> m s = (s', Ok a) -> Q a s'.
Proof. intros Hw Hm. unfold wpe in Hw. by rewrite Hm in Hw. Qed.
End wpe.

(** One step, where the exceptions on the way are allowed by computation. *)
Ltac wpe_step :=
  lazymatch goal with
  | |- wpe _ (_ ≫= _) _ _ => apply wpe_bind
  | |- wpe _ (mret _) _ _ => apply wpe_ret
  | |- wpe _ get _ _ => apply wpe_get
  | |- wpe _ (modify_st _) _ _ => apply wpe_modify
  | |- wpe _ (st_assert _ _) _ _ => apply wpe_assert; [intros ?|try done]
  | |- wpe _ (if ?b then _ else _) _ _ => let E := fresh "E" in destruct b eqn:E
  | |- wpe _ (match ?x with _ => _ end) _ _ => let E := fresh "E" in destruct x eqn:E
  end; cbv beta.

(** [keeps f m]: [m] does not change the part [f] of the state, whether it throws or
    not. *)
Definition keeps {S A T} (f : S -> T) (m : St S A) : Prop := forall s, f (m s).1 = f s.

Section keeps.
Context {S T : Type} (f : S -> T).
Lemma keeps_ret {A} (a : A) : keeps f (mret a).
Proof. done. Qed.
Lemma keeps_get : keeps f get.
Proof. done. Qed.
Lemma keeps_lift {A} (r : result A) : keeps f (lift r).
Proof. done. Qed.
Lemma keeps_assert b e : keeps f (st_assert b e).
Proof. done. Qed.
Lemma keeps_throw {A} e : keeps f (@throw S A e).
Proof. done. Qed.
Lemma keeps_modify g : (forall s, f (g s) = f s) -> keeps f (modify_st g).
Proof. intros Hg s. apply Hg. Qed.
Lemma keeps_bind {A B} (m : St S A) (k : A -> St S B) :
  keeps f m -> (forall a, keeps f (k a)) -> keeps f (m ≫= k).
Proof.
  intros Hm Hk s. unfold mbind, St_bind. specialize (Hm s). destruct (m s) as [s' [a|e]]; [|done].
  cbn in Hm. by rewrite (Hk a s').
Qed.
Lemma keeps_for_each {A} (g : A -> St S unit) l : (forall a, keeps f (g a)) -> keeps f (for_each g l).
Proof. intros Hg. induction l as [|a l IH]; [done|]. cbn. apply keeps_bind; auto. Qed.
Lemma wp_keeps {A} (m : St S A) (Q : A -> S -> Prop) s :
  keeps f m -> (forall a s', f s' = f s -> Q a s') -> wp m Q s.
Proof.
  intros Hm HQ. unfold wp. specialize (Hm s). destruct (m s) as [s' [a|e]]; [|done]. by apply HQ.
Qed.
End keeps.

Create HintDb keeps.
#[export] Hint Resolve keeps_ret keeps_get keeps_lift keeps_assert keeps_throw keeps_for_each : keeps.
Ltac keeps_step :=
  repeat first [solve [eauto with keeps] | apply keeps_bind; intros | apply keeps_for_each; intros
               | apply keeps_modify; intros; reflexivity
               | match goal with
                 | |- keeps _ (if ?b then _ else _) => destruct b
                 | |- keeps _ (match ?x with _ => _ end) => destruct x
                 end].

(** ** Steps along a preorder *)
Definition moves {S A} (R : S -> S -> Prop) (m : St S A) : Prop := forall s, R s (m s).1.

Section moves.
Context {S : Type} (R : S -> S -> Prop) `{!PreOrder R}.
Lemma moves_ret {A} (a : A) : moves R (mret a).
Proof. intros s. cbn. reflexivity. Qed.
Lemma moves_get : moves R get.
Proof. intros s. cbn. reflexivity. Qed.
Lemma moves_gets {A} (f : S -> A) : moves R (gets f).
Proof. intros s. cbn. reflexivity. Qed.
Lemma moves_lift {A} (r : result A) : moves R (lift r).
Proof. intros s. cbn. reflexivity. Qed.
Lemma moves_assert b e : moves R (st_assert b e).
Proof. intros s. cbn. reflexivity. Qed.
Lemma moves_throw {A} e : moves R (@throw S A e).
Proof. intros s. cbn. reflexivity. Qed.
Lemma moves_bind {A B} (m : St S A) (k : A -> St S B) :
  moves R m -> (forall a, moves R (k a)) -> moves R (m ≫= k).
Proof.
  intros Hm Hk s. unfold mbind, St_bind. specialize (Hm s). destruct (m s) as [s' [a|e]]; [|done].
  etransitivity; [exact Hm|apply Hk].
Qed.
Lemma moves_for_each {A} (f : A -> St S unit) l : (forall a, moves R (f a)) -> moves R (for_each f l).
Proof. intros Hf. induction l as [|a l IH]; [apply moves_ret|]. cbn [for_each]. by apply moves_bind. Qed.
Lemma moves_capture {A} (m : St S A) : moves R m -> moves R (capture_and_rethrow m).
Proof. intros Hm s. specialize (Hm s). unfold capture_and_rethrow. by destruct (m s) as [s' [a|e]]. Qed.
(** A step may depend on the state. *)
Lemma moves_here {A} (m : St S A) : (forall s, exists m', m s = m' s /\ moves R m') -> moves R m.
Proof. intros Hm s. destruct (Hm s) as (m' & -> & Hm'). apply Hm'. Qed.
End moves.

#[export] Instance keeps_preorder {S T} (f : S -> T) : PreOrder (fun s s' => f s' = f s).
Proof. split; [by intros s|]. intros s t u -> ->. done. Qed.
Lemma moves_keeps {S A T} (f : S -> T) (m : St S A) : keeps f m <-> moves (fun s s' => f s' = f s) m.
Proof. done. Qed.

Create HintDb moves discriminated.
#[export] Hint Resolve moves_ret moves_get moves_gets moves_lift moves_assert moves_throw moves_capture : moves.
Ltac moves_step :=
  repeat first [solve [eauto with moves] | apply moves_bind; [first [done|apply _]| |intros ?]
               | apply moves_for_each; [first [done|apply _]|intros ?]
               | apply moves_capture
               | match goal with
                 | |- moves _ (if ?b then _ else _) => destruct b
                 | |- moves _ (match ?x with _ => _ end) => destruct x
                 | |- moves _ (let '(_, _) := ?x in _) => destruct x
                 end].

(** ** Sums over maps *)
Definition map_sum `{Countable K} {A} (f : K -> A -> Z) (m : gmap K A) : Z :=
  map_fold (fun k a t => f k a + t) 0 m.

Section map_sum.
Context `{Countable K} {A : Type} (f : K -> A -> Z).
Implicit Types m : gmap K A.

Lemma map_sum_insert m k a : m !! k = None -> map_sum f (<[k := a]> m) = f k a + map_sum f m.
Proof. intros Hk. unfold map_sum. rewrite map_fold_insert_L; [done| |done]. intros. lia. Qed.
Lemma map_sum_delete m k a : m !! k = Some a -> map_sum f m = f k a + map_sum f (delete k m).
Proof.
  intros Hk. rewrite <- (map_sum_insert (delete k m) k a) by apply lookup_delete_eq.
  by rewrite insert_delete_id.
Qed.
Lemma map_sum_update m k a a' : m !! k = Some a ->
  map_sum f (<[k := a']> m) = map_sum f m - f k a + f k a'.
Proof.
  intros Hk. rewrite (map_sum_delete m k a Hk), <- (insert_delete_eq m k).
  rewrite map_sum_insert by apply lookup_delete_eq. lia.
Qed.
Lemma map_sum_nonneg m : (forall k a, 0 <= f k a) -> 0 <= map_sum f m.
Proof.
  intros Hf. induction m as [|k a m Hk IH] using map_ind; [done|]. rewrite map_sum_insert by done.
  specialize (Hf k a). lia.
Qed.
Lemma map_sum_nonneg_in m : (forall k a, m !! k = Some a -> 0 <= f k a) -> 0 <= map_sum f m.
Proof.
  induction m as [|k a m Hk IH] using map_ind; intros Hf; [done|]. rewrite map_sum_insert by done.
  pose proof (Hf k a (lookup_insert_eq _ _ _)). assert (0 <= map_sum f m); [|lia].
  apply IH. intros k' a' Hk'. apply Hf. rewrite lookup_insert_ne; [done|congruence].
Qed.
(** An element is at most the sum. *)
Lemma map_sum_elem_le m k a : (forall k a, m !! k = Some a -> 0 <= f k a) -> m !! k = Some a ->
  f k a <= map_sum f m.
Proof.
  intros Hf Hk. rewrite (map_sum_delete m k a Hk). assert (0 <= map_sum f (delete k m)); [|lia].
  apply map_sum_nonneg_in. intros k' a' [_ Hk']%lookup_delete_Some. by apply Hf.
Qed.
Lemma map_sum_zero m : (forall k a, m !! k = Some a -> f k a = 0) -> map_sum f m = 0.
Proof.
  induction m as [|k a m Hk IH] using map_ind; intros Hf; [done|]. rewrite map_sum_insert by done.
  rewrite IH.
  - rewrite (Hf k a); [done|apply lookup_insert_eq].
  - intros k' a' Hk'. apply Hf. rewrite lookup_insert_ne; [done|congruence].
Qed.
End map_sum.

(** ** Ordered associative containers

    [std::map], [flat_map] and [boost::interprocess::map] keyed by integers are
    [gmap]s; [asc_items] lists one in the order its iterators visit it. *)
Definition key_le {A} (p q : Z * A) : Prop := p.1 <= q.1.
#[global] Instance key_le_dec {A} : RelDecision (@key_le A).
Proof. intros p q. unfold key_le. apply _. Defined.
#[global] Instance key_le_total {A} : Total (@key_le A).
Proof. intros p q. unfold key_le. lia. Qed.
#[global] Instance key_le_trans {A} : Transitive (@key_le A).
Proof. intros p q r. unfold key_le. lia. Qed.

Definition asc_items {A} (m : gmap Z A) : list (Z * A) :=
  merge_sort key_le (map_to_list m).

Definition asc_elements (s : gset Z) : list Z := merge_sort Z.le (elements s).

Lemma asc_items_perm {A} (m : gmap Z A) : asc_items m ≡ₚ map_to_list m.
Proof. apply merge_sort_Permutation. Qed.

Lemma elem_of_asc_items {A} (m : gmap Z A) k v : (k, v) ∈ asc_items m <-> m !! k = Some v.
Proof. rewrite asc_items_perm. apply elem_of_map_to_list. Qed.

Lemma NoDup_asc_items {A} (m : gmap Z A) : NoDup (asc_items m).*1.
Proof. rewrite asc_items_perm. apply NoDup_fst_map_to_list. Qed.

Lemma elem_of_asc_elements (s : gset Z) x : x ∈ asc_elements s <-> x ∈ s.
Proof. unfold asc_elements. rewrite merge_sort_Permutation. apply elem_of_elements. Qed.

Lemma NoDup_asc_elements (s : gset Z) : NoDup (asc_elements s).
Proof. unfold asc_elements. rewrite merge_sort_Permutation. apply NoDup_elements. Qed.

(** ** Lists *)

Lemma list_last_split {A} (l : list A) :
  l <> [] -> exists l' x, l = l' ++ [x].
Proof. intros. destruct (exists_last H) as (l' & x & ->). eauto. Qed.

Lemma filter_ext_in {A} (P Q : A -> Prop) `{!forall x, Decision (P x)} `{!forall x, Decision (Q x)} (l : list A) :
  (forall x, x ∈ l -> P x <-> Q x) -> filter P l = filter Q l.
Proof.
  induction l as [|x l IH]; intros Hl; [done|]. rewrite !filter_cons.
  rewrite IH by (intros y Hy; apply Hl; by right).
  destruct (Hl x ltac:(by left)). repeat case_decide; naive_solver.
Qed.

Lemma filter_all {A} (P : A -> Prop) `{!forall x, Decision (P x)} (l : list A) :
  (forall x, x ∈ l -> P x) -> filter P l = l.
Proof.
  intros Hl. rewrite (filter_ext_in P (fun _ => True)) by naive_solver.
  induction l; [done|]. rewrite filter_cons, decide_True by done. f_equal. apply IHl.
  intros; apply Hl. by right.
Qed.

Lemma StronglySorted_weaken {A} (R S : A -> A -> Prop) l :
  (forall a b, R a b -> S a b) -> StronglySorted R l -> StronglySorted S l.
Proof.
  intros HRS Hl. induction Hl as [|a l Hl IH Hall]; constructor; [done|].
  eapply Forall_impl; [exact Hall|]. apply HRS.
Qed.

Lemma StronglySorted_filter {A} (R : A -> A -> Prop) (P : A -> Prop)
    `{!forall x, Decision (P x)} (l : list A) :
  StronglySorted R l -> StronglySorted R (filter P l).
Proof.
  induction 1 as [|a l Hl IH Hall]; [constructor|]. rewrite filter_cons. case_decide; [|done].
  constructor; [done|]. rewrite Forall_forall in Hall |- *.
  intros x [_ Hx]%list_elem_of_filter. by apply Hall.
Qed.
