(* ===== verification/Chainbase.v ===== *)
(** * Chainbase: the undo-capable object database

    Model of [libraries/chainbase/include/chainbase/chainbase.hpp] and
    [libraries/chainbase/src/chainbase.cpp]: one [generic_index] per object type,
    its stack of undo states, the sessions opened on it, and the [database] that
    keeps the indices in step.

    The specification is a store with a stack of snapshots ([Spec]); the
    refinement theorems say that the undo states, which record only differences,
    implement it. *)
From S2P Require Import Prelude.

(** ** The container underneath

    [generic_index] stores its objects in a [boost::multi_index_container] whose
    first index is ordered and unique on the object's id; further indices may
    be unique too.  The container is third-party code, so it is an interface
    here: [MultiIndex] has the operations chainbase calls, [MultiIndexLaws] what
    their documentation promises. *)
Class MultiIndex (V C : Type) := {
  mi_id : V -> Z;
  mi_empty : C;
  mi_find : C -> Z -> option V;
  mi_emplace : C -> V -> option C;
  mi_modify : C -> Z -> V -> C * bool;
  mi_erase : C -> Z -> C;
}.

Class MultiIndexLaws (V C : Type) `{MultiIndex V C} := {
  (** two objects that may not be in the container together, because a unique
      index other than the one on the id gives them equal keys *)
  mi_clash : V -> V -> Prop;
  mi_find_id c i v : mi_find c i = Some v -> mi_id v = i;
  mi_find_empty i : mi_find mi_empty i = None;
  mi_emplace_fresh c v c' : mi_emplace c v = Some c' -> mi_find c (mi_id v) = None;
  mi_emplace_find c v c' i : mi_emplace c v = Some c' ->
    mi_find c' i = if decide (i = mi_id v) then Some v else mi_find c i;
  mi_emplace_ok c v : mi_find c (mi_id v) = None ->
    (forall i w, mi_find c i = Some w -> ~ mi_clash v w) -> is_Some (mi_emplace c v);
  mi_modify_true c i v c' j : mi_id v = i -> mi_modify c i v = (c', true) ->
    mi_find c' j = if decide (j = i) then Some v else mi_find c j;
  mi_modify_false c i v c' j : mi_id v = i -> mi_modify c i v = (c', false) ->
    mi_find c' j = if decide (j = i) then None else mi_find c j;
  mi_modify_ok c i v : mi_id v = i -> is_Some (mi_find c i) ->
    (forall j w, j <> i -> mi_find c j = Some w -> ~ mi_clash v w) ->
    (mi_modify c i v).2 = true;
  mi_erase_find c i j : mi_find (mi_erase c i) j = if decide (j = i) then None else mi_find c j;
}.

(** ** generic_index *)
Section generic_index.
Context {V C : Type} `{MI : MultiIndex V C}.

(** [undo_state]: what one session changed, relative to the state when it
    started. *)
Record undo_state := UndoState {
  old_values : gmap Z V;
  removed_values : gmap Z V;
  new_ids : gset Z;
  old_next_id : Z;
  us_revision : Z
}.

(** The deque [_stack] is a list whose head is the back of the deque (the
    newest state) and whose last element is the front (the oldest). *)
Record generic_index := GenericIndex {
  stack : list undo_state;
  revision : Z;
  next_id : Z;
  indices : C
}.

Definition index_init : generic_index := GenericIndex [] 0 0 mi_empty.

Definition set_indices (c : C) (g : generic_index) : generic_index :=
  GenericIndex (stack g) (revision g) (next_id g) c.
Definition set_back (u : undo_state) (g : generic_index) : generic_index :=
  GenericIndex (u :: tail (stack g)) (revision g) (next_id g) (indices g).

Definition enabled (g : generic_index) : bool :=
  match stack g with [] => false | _ => true end.

Definition on_modify_state (v : V) (head : undo_state) : undo_state :=
  if decide (mi_id v ∈ new_ids head) then head
  else match old_values head !! mi_id v with
  | Some _ => head
  | None => UndoState (<[mi_id v := v]> (old_values head)) (removed_values head)
              (new_ids head) (old_next_id head) (us_revision head)
  end.

Definition on_modify (v : V) (g : generic_index) : generic_index :=
  match stack g with
  | [] => g
  | head :: _ => set_back (on_modify_state v head) g
  end.

(** [emplace] of a [std::map]: a key that is present keeps its value. *)
Definition map_emplace {A} (k : Z) (a : A) (m : gmap Z A) : gmap Z A :=
  match m !! k with Some _ => m | None => <[k := a]> m end.

Definition on_remove_state (v : V) (head : undo_state) : undo_state :=
  if decide (mi_id v ∈ new_ids head) then
    UndoState (old_values head) (removed_values head) (new_ids head ∖ {[mi_id v]})
      (old_next_id head) (us_revision head)
  else match old_values head !! mi_id v with
  | Some w =>
      UndoState (delete (mi_id v) (old_values head))
        (map_emplace (mi_id v) w (removed_values head))
        (new_ids head) (old_next_id head) (us_revision head)
  | None =>
      match removed_values head !! mi_id v with
      | Some _ => head
      | None =>
          UndoState (old_values head) (map_emplace (mi_id v) v (removed_values head))
            (new_ids head) (old_next_id head) (us_revision head)
      end
  end.

Definition on_remove (v : V) (g : generic_index) : generic_index :=
  match stack g with
  | [] => g
  | head :: _ => set_back (on_remove_state v head) g
  end.

Definition on_create_state (v : V) (head : undo_state) : undo_state :=
  UndoState (old_values head) (removed_values head) ({[mi_id v]} ∪ new_ids head)
    (old_next_id head) (us_revision head).

Definition on_create (v : V) (g : generic_index) : generic_index :=
  match stack g with
  | [] => g
  | head :: _ => set_back (on_create_state v head) g
  end.

(** [emplace( c )]: the constructor [c] sees an object that already carries its
    new id, hence is a function of the id. *)
Definition emplace (c : Z -> V) : St generic_index V := fun g =>
  let v := c (next_id g) in
  match mi_emplace (indices g) v with
  | None => (g, Throw logic_error)
  | Some idx =>
      (on_create v (GenericIndex (stack g) (revision g) (next_id g + 1) idx), Ok v)
  end.

(** [modify( obj, m )] and [remove( obj )]: the reference [obj] is the id of an
    object of the container. *)
Definition modify (i : Z) (m : V -> V) : St generic_index unit := fun g =>
  match mi_find (indices g) i with
  | None => (g, Throw undefined_behaviour)
  | Some obj =>
      let g := on_modify obj g in
      let '(idx, ok) := mi_modify (indices g) i (m obj) in
      (set_indices idx g, if ok then Ok tt else Throw logic_error)
  end.

Definition remove (i : Z) : St generic_index unit := fun g =>
  match mi_find (indices g) i with
  | None => (g, Throw undefined_behaviour)
  | Some obj =>
      let g := on_remove obj g in
      (set_indices (mi_erase (indices g) i) g, Ok tt)
  end.

Definition find (i : Z) (g : generic_index) : option V := mi_find (indices g) i.

Definition get_object (i : Z) (g : generic_index) : result V :=
  of_option out_of_range (find i g).

Definition remove_object (i : Z) : St generic_index unit := fun g =>
  match find i g with
  | None => (g, Throw out_of_range)
  | Some v => remove (mi_id v) g
  end.

Definition set_revision (r : Z) : St generic_index unit := fun g =>
  match stack g with
  | [] => (GenericIndex [] (i64 r) (next_id g) (indices g), Ok tt)
  | _ => (g, Throw logic_error)
  end.

(** The three loops of [undo]. *)
Definition undo_old_value (item : Z * V) : St C unit := fun c =>
  match mi_find c (mi_id item.2) with
  | None => (c, Throw undefined_behaviour)
  | Some _ =>
      let '(c', ok) := mi_modify c (mi_id item.2) item.2 in
      (c', if ok then Ok tt else Throw logic_error)
  end.

Definition undo_new_id (i : Z) : St C unit := fun c =>
  match mi_find c i with
  | None => (c, Throw undefined_behaviour)
  | Some _ => (mi_erase c i, Ok tt)
  end.

Definition undo_removed (item : Z * V) : St C unit := fun c =>
  match mi_emplace c item.2 with
  | None => (c, Throw logic_error)
  | Some c' => (c', Ok tt)
  end.

Definition on_indices {A} (m : St C A) : St generic_index A := fun g =>
  let '(c, r) := m (indices g) in (set_indices c g, r).

Definition undo : St generic_index unit := fun g =>
  match stack g with
  | [] => (g, Ok tt)
  | head :: rest =>
      (_ ← on_indices (for_each undo_old_value (asc_items (old_values head)));
       _ ← on_indices (for_each undo_new_id (asc_elements (new_ids head)));
       _ ← modify_st (fun g => GenericIndex (stack g) (revision g) (old_next_id head) (indices g));
       _ ← on_indices (for_each undo_removed (asc_items (removed_values head)));
       modify_st (fun g => GenericIndex rest (revision g - 1) (next_id g) (indices g))) g
  end.

(** The three loops of [squash], over the states of the newest session. *)
Definition squash_old_value (prev : undo_state) (item : Z * V) : undo_state :=
  let i := mi_id item.2 in
  if decide (i ∈ new_ids prev) then prev
  else match old_values prev !! i with
  | Some _ => prev
  | None => UndoState (map_emplace item.1 item.2 (old_values prev)) (removed_values prev)
              (new_ids prev) (old_next_id prev) (us_revision prev)
  end.

Definition squash_new_id (prev : undo_state) (i : Z) : undo_state :=
  UndoState (old_values prev) (removed_values prev) ({[i]} ∪ new_ids prev)
    (old_next_id prev) (us_revision prev).

Definition squash_removed (prev : undo_state) (obj : Z * V) : undo_state :=
  let i := mi_id obj.2 in
  if decide (i ∈ new_ids prev) then
    UndoState (old_values prev) (removed_values prev) (new_ids prev ∖ {[i]})
      (old_next_id prev) (us_revision prev)
  else match old_values prev !! i with
  | Some w => UndoState (delete i (old_values prev)) (map_emplace i w (removed_values prev))
                (new_ids prev) (old_next_id prev) (us_revision prev)
  | None => UndoState (old_values prev) (map_emplace obj.1 obj.2 (removed_values prev))
              (new_ids prev) (old_next_id prev) (us_revision prev)
  end.

Definition squash_states (state prev : undo_state) : undo_state :=
  let prev := foldl squash_old_value prev (asc_items (old_values state)) in
  let prev := foldl squash_new_id prev (asc_elements (new_ids state)) in
  foldl squash_removed prev (asc_items (removed_values state)).

Definition squash (g : generic_index) : generic_index :=
  match stack g with
  | [] => g
  | [_] => GenericIndex [] (revision g) (next_id g) (indices g)
  | state :: prev :: rest =>
      GenericIndex (squash_states state prev :: rest) (revision g - 1) (next_id g) (indices g)
  end.

(** [commit]: pop the front of the deque while its revision is old enough. *)
Fixpoint commit_stack (r : Z) (oldest_first : list undo_state) : list undo_state :=
  match oldest_first with
  | [] => []
  | u :: l => if us_revision u <=? r then commit_stack r l else u :: l
  end.

Definition commit (r : Z) (g : generic_index) : generic_index :=
  GenericIndex (rev (commit_stack r (rev (stack g)))) (revision g) (next_id g) (indices g).

(** [undo_all] runs [undo] while the stack is not empty; each iteration that
    returns pops one state, so the length of the stack bounds the iterations. *)
Fixpoint undo_all_fuel (fuel : nat) : St generic_index unit := fun g =>
  match fuel with
  | O => (g, Ok tt)
  | S fuel => if enabled g then (_ ← undo; undo_all_fuel fuel) g else (g, Ok tt)
  end.

Definition undo_all : St generic_index unit := fun g => undo_all_fuel (length (stack g)) g.

(** ** Sessions *)
Record index_session := IndexSession { s_apply : bool; s_revision : Z }.

Definition new_session (r : Z) : index_session :=
  IndexSession (negb (r =? -1)) r.

Definition start_undo_session (en : bool) : St generic_index index_session := fun g =>
  if en then
    let r := revision g + 1 in
    (GenericIndex (UndoState ∅ ∅ ∅ (next_id g) r :: stack g) r (next_id g) (indices g),
     Ok (new_session r))
  else (g, Ok (new_session (-1))).

(** The move constructor: the new session takes over [_apply] and its
    [_revision] keeps the in-class initialiser. The first component is the new
    session, the second what is left of the old one. *)
Definition move_session (s : index_session) : index_session * index_session :=
  (IndexSession (s_apply s) 0, IndexSession false (s_revision s)).

Definition session_push (s : index_session) : index_session :=
  IndexSession false (s_revision s).

Definition session_squash (s : index_session) (g : generic_index) : index_session * generic_index :=
  (IndexSession false (s_revision s), if s_apply s then squash g else g).

Definition session_undo (s : index_session) : St generic_index index_session :=
  if s_apply s then _ ← undo; mret (IndexSession false (s_revision s))
  else mret (IndexSession false (s_revision s)).

(** The destructor undoes what was neither pushed nor squashed. *)
Definition session_destroy (s : index_session) : St generic_index unit :=
  if s_apply s then undo else mret tt.

End generic_index.
Arguments undo_state : clear implicits.
Arguments generic_index : clear implicits.

(** ** Specification: a store with a stack of snapshots *)
Section Spec.
Context {V : Type}.

Record spec := Spec {
  sp_cur : gmap Z V;
  sp_next : Z;
  sp_snaps : list (gmap Z V * Z);
  sp_rev : Z
}.

Definition spec_init : spec := Spec ∅ 0 [] 0.

Definition spec_create (c : Z -> V) (s : spec) : spec :=
  Spec (<[sp_next s := c (sp_next s)]> (sp_cur s)) (sp_next s + 1) (sp_snaps s) (sp_rev s).
Definition spec_modify (i : Z) (f : V -> V) (s : spec) : spec :=
  Spec (alter f i (sp_cur s)) (sp_next s) (sp_snaps s) (sp_rev s).
Definition spec_remove (i : Z) (s : spec) : spec :=
  Spec (delete i (sp_cur s)) (sp_next s) (sp_snaps s) (sp_rev s).
Definition spec_start (s : spec) : spec :=
  Spec (sp_cur s) (sp_next s) ((sp_cur s, sp_next s) :: sp_snaps s) (sp_rev s + 1).
Definition spec_undo (s : spec) : spec :=
  match sp_snaps s with
  | [] => s
  | (b, bn) :: bs => Spec b bn bs (sp_rev s - 1)
  end.
Definition spec_squash (s : spec) : spec :=
  match sp_snaps s with
  | [] => s
  | [_] => Spec (sp_cur s) (sp_next s) [] (sp_rev s)
  | _ :: bs => Spec (sp_cur s) (sp_next s) bs (sp_rev s - 1)
  end.
Definition spec_commit (r : Z) (s : spec) : spec :=
  Spec (sp_cur s) (sp_next s) (take (Z.to_nat (sp_rev s - r)) (sp_snaps s)) (sp_rev s).
Definition spec_undo_all (s : spec) : spec :=
  match last (sp_snaps s) with
  | None => s
  | Some (b, bn) => Spec b bn [] (sp_rev s - Z.of_nat (length (sp_snaps s)))
  end.

End Spec.
Arguments spec : clear implicits.

(** ** Refinement *)
Section refinement.
Context {V C : Type} `{MIL : MultiIndexLaws V C}.
Implicit Types (m b : gmap Z V) (c : C) (u : undo_state V) (g : generic_index V C) (s : spec V).

Definition models c m : Prop := forall i, mi_find c i = m !! i.

(** Ids are below the next id and agree with the object's id field. *)
Definition bounded m (n : Z) : Prop := forall i v, m !! i = Some v -> i < n /\ mi_id v = i.

(** [u] describes how the snapshot [b] (next id [bn]) became [m] (next id [n]). *)
Record repr u b (bn : Z) m (n : Z) : Prop := {
  r_old i v : old_values u !! i = Some v -> b !! i = Some v /\ is_Some (m !! i);
  r_rem i v : removed_values u !! i = Some v -> b !! i = Some v /\ m !! i = None;
  r_new i : i ∈ new_ids u -> is_Some (m !! i) /\ bn <= i;
  r_nop i : old_values u !! i = None -> removed_values u !! i = None -> i ∉ new_ids u ->
            m !! i = b !! i;
  r_next : old_next_id u = bn;
  r_le : bn <= n
}.

Fixpoint stack_repr (us : list (undo_state V)) (bs : list (gmap Z V * Z)) m (n r : Z) : Prop :=
  match us, bs with
  | [], [] => True
  | u :: us, (b, bn) :: bs =>
      repr u b bn m n /\ bounded b bn /\ us_revision u = r /\ stack_repr us bs b bn (r - 1)
  | _, _ => False
  end.

Record refines g s : Prop := {
  rf_cur : models (indices g) (sp_cur s);
  rf_next : next_id g = sp_next s;
  rf_rev : revision g = sp_rev s;
  rf_bounded : bounded (sp_cur s) (sp_next s);
  rf_stack : stack_repr (stack g) (sp_snaps s) (sp_cur s) (sp_next s) (sp_rev s)
}.

Lemma refines_init : refines index_init spec_init.
Proof.
  split; [|done|done| |done].
  - intros i. cbn. by rewrite mi_find_empty, lookup_empty.
  - intros i v. cbn. by rewrite lookup_empty.
Qed.

(** What a record of a change looks like when the changed state is the head
    state of the stack. *)
Lemma bounded_insert m n i v : bounded m n -> i < n -> mi_id v = i -> bounded (<[i := v]> m) n.
Proof. intros Hb ?? j w. rewrite lookup_insert. case_decide; [by intros [= <-]; subst|apply Hb]. Qed.
Lemma bounded_delete m n i : bounded m n -> bounded (delete i m) n.
Proof. intros Hb j w. rewrite lookup_delete. case_decide; [done|apply Hb]. Qed.
Lemma bounded_mono m n n' : bounded m n -> n <= n' -> bounded m n'.
Proof. intros Hb ? i v [??]%Hb. split; [lia|done]. Qed.

Lemma repr_fresh u b bn m n j :
  repr u b bn m n -> bounded b bn -> j ∈ new_ids u -> b !! j = None.
Proof.
  intros Hr Hb Hj. destruct (b !! j) eqn:E; [|done].
  apply Hb in E as [? _]. apply (r_new _ _ _ _ _ Hr) in Hj as [_ ?]. lia.
Qed.

Lemma repr_create u b bn m n v :
  repr u b bn m n -> bounded b bn -> bounded m n -> mi_id v = n ->
  repr (on_create_state v u) b bn (<[n := v]> m) (n + 1).
Proof.
  intros Hr Hb Hm Hid. destruct Hr as [Hold Hrem Hnew Hnop Hnx Hle].
  assert (m !! n = None) as Hmn.
  { destruct (m !! n) eqn:E; [|done]. apply Hm in E. lia. }
  assert (b !! n = None) as Hbn.
  { destruct (b !! n) eqn:E; [|done]. apply Hb in E. lia. }
  split; cbn; rewrite ?Hid.
  - intros i w Hi. rewrite lookup_insert. case_decide; naive_solver.
  - intros i w Hi. rewrite lookup_insert. case_decide; naive_solver.
  - intros i [->%elem_of_singleton|Hi]%elem_of_union.
    + rewrite lookup_insert_eq. split; [eauto|lia].
    + apply Hnew in Hi as [??]. rewrite lookup_insert. case_decide; eauto.
  - intros i ?? [Hi1 Hi2]%not_elem_of_union. apply not_elem_of_singleton in Hi1.
    rewrite lookup_insert_ne by congruence. by apply Hnop.
  - done.
  - lia.
Qed.

(** Overwriting an object that the head state already accounts for. *)
Lemma repr_touch u b bn m n k w :
  repr u b bn m n -> is_Some (m !! k) -> k ∈ new_ids u \/ is_Some (old_values u !! k) ->
  repr u b bn (<[k := w]> m) n.
Proof.
  intros [Hold Hrem Hnew Hnop Hnx Hle] Hk Hacc. split; [| | | |done|done].
  - intros i x [??]%Hold. rewrite lookup_insert. case_decide; eauto.
  - intros i x [? Hi]%Hrem. rewrite lookup_insert_ne; [done|].
    intros ->. rewrite Hi in Hk. by destruct Hk.
  - intros i [??]%Hnew. rewrite lookup_insert. case_decide; eauto.
  - intros i Ho ? Hn. rewrite lookup_insert_ne; [by apply Hnop|].
    intros ->. destruct Hacc as [|[? ?]]; congruence.
Qed.

(** Recording the current value of an object that was untouched. *)
Lemma repr_record u b bn m n k v :
  repr u b bn m n -> old_values u !! k = None -> k ∉ new_ids u -> m !! k = Some v ->
  repr (UndoState (<[k := v]> (old_values u)) (removed_values u) (new_ids u)
          (old_next_id u) (us_revision u)) b bn m n.
Proof.
  intros [Hold Hrem Hnew Hnop Hnx Hle] Ho Hn Hm. split; cbn; [|done|done| |done|done].
  - intros i x. rewrite lookup_insert. case_decide as Hi; [|apply Hold].
    subst i. intros [= <-]. split; [|eauto]. rewrite <- Hm. symmetry.
    apply Hnop; [done| |done]. destruct (removed_values u !! k) eqn:E; [|done].
    apply Hrem in E as [_ ?]. congruence.
  - intros i. rewrite lookup_insert. case_decide; [done|apply Hnop].
Qed.

Lemma repr_modify u b bn m n v w :
  repr u b bn m n -> m !! mi_id v = Some v ->
  repr (on_modify_state v u) b bn (<[mi_id v := w]> m) n.
Proof.
  intros Hr Hv. assert (is_Some (m !! mi_id v)) as Hs by eauto. unfold on_modify_state.
  case_decide; [|destruct (old_values u !! mi_id v) eqn:Ho]; [by apply repr_touch; auto..|].
  apply repr_touch; [by apply repr_record|done|cbn]. right. rewrite lookup_insert_eq. eauto.
Qed.

Lemma repr_remove u b bn m n v :
  repr u b bn m n -> bounded b bn -> m !! mi_id v = Some v ->
  repr (on_remove_state v u) b bn (delete (mi_id v) m) n.
Proof.
  intros Hr Hb Hv. pose proof (fun j => repr_fresh _ _ _ _ _ j Hr Hb) as Hfr.
  destruct Hr as [Hold Hrem Hnew Hnop Hnx Hle]. unfold on_remove_state.
  assert (removed_values u !! mi_id v = None) as Hnr.
  { destruct (removed_values u !! mi_id v) eqn:E; [|done]. apply Hrem in E as [_ ?]. congruence. }
  unfold map_emplace. rewrite Hnr.
  case_decide as Hin; [|destruct (old_values u !! mi_id v) as [x|] eqn:Ho].
  - split; cbn; [| | | |done|done].
    + intros i x Hx. pose proof (Hold i x Hx) as [? ?]. rewrite lookup_delete_ne; [done|].
      intros <-. rewrite Hfr in * by done. congruence.
    + intros i x [??]%Hrem. rewrite lookup_delete. case_decide; done.
    + intros i [[??]%Hnew ?%not_elem_of_singleton]%elem_of_difference.
      by rewrite lookup_delete_ne by done.
    + intros i ?? Hi. rewrite lookup_delete. case_decide; [subst; by rewrite Hfr|].
      apply Hnop; [done..|]. set_solver.
  - split; cbn; [| | | |done|done].
    + intros i y. rewrite lookup_delete. case_decide; [done|]. intros [??]%Hold.
      by rewrite lookup_delete_ne by done.
    + intros i y. rewrite lookup_insert, lookup_delete.
      case_decide; [intros [= <-]; subst; split; [by apply Hold|done]|apply Hrem].
    + intros i Hi. rewrite lookup_delete_ne; [by apply Hnew|congruence].
    + intros i. rewrite lookup_insert, !lookup_delete. case_decide; [done|apply Hnop].
  - assert (b !! mi_id v = Some v) by (rewrite <- Hnop; done).
    split; cbn; [| | | |done|done].
    + intros i y Hi. rewrite lookup_delete_ne; [by apply Hold|congruence].
    + intros i y. rewrite lookup_insert, lookup_delete.
      case_decide; [intros [= <-]; by subst|apply Hrem].
    + intros i Hi. rewrite lookup_delete_ne; [by apply Hnew|congruence].
    + intros i ?. rewrite lookup_insert, lookup_delete. case_decide; [done|by apply Hnop].
Qed.

(** What an undo state says about one id: its old value, its removed value,
    whether it is new. *)
Definition slot : Type := option V * option V * bool.
Definition slot_of u (i : Z) : slot :=
  (old_values u !! i, removed_values u !! i, bool_decide (i ∈ new_ids u)).

Definition slot_ok (bn i : Z) (s : slot) (bi mi : option V) : Prop :=
  match s with
  | (Some v, None, false) => bi = Some v /\ is_Some mi
  | (None, Some v, false) => bi = Some v /\ mi = None
  | (None, None, true) => is_Some mi /\ bn <= i
  | (None, None, false) => mi = bi
  | _ => False
  end.

Lemma repr_slots u b bn m n :
  bounded b bn ->
  repr u b bn m n <->
  (forall i, slot_ok bn i (slot_of u i) (b !! i) (m !! i)) /\ old_next_id u = bn /\ bn <= n.
Proof.
  intros Hb. split.
  - intros Hr. split; [|by destruct Hr]. intros i.
    pose proof (repr_fresh _ _ _ _ _ i Hr Hb) as Hfr. destruct Hr as [Ho Hrm Hn Hnop ??].
    specialize (Ho i). specialize (Hrm i). specialize (Hn i). specialize (Hnop i).
    unfold slot_of, slot_ok. case_bool_decide as Hin;
      (destruct (old_values u !! i) as [v|]; [destruct (Ho v eq_refl) as [Hb1 Hm1]|]);
      (destruct (removed_values u !! i) as [w|]; [destruct (Hrm w eq_refl) as [Hb2 Hm2]|]);
      try rewrite Hfr in * by done; try rewrite Hm2 in *; auto; try done.
  - intros (Hs & ? & ?).
    assert (Hsi : forall i, slot_ok bn i (slot_of u i) (b !! i) (m !! i)) by done.
    split; [intros i v Hi|intros i v Hi|intros i Hi|intros i Ho Hr Hn|done|done];
      specialize (Hsi i); unfold slot_of, slot_ok in Hsi.
    + rewrite Hi in Hsi. destruct (removed_values u !! i); [done|]; by destruct (bool_decide (i ∈ new_ids u)).
    + rewrite Hi in Hsi. destruct (old_values u !! i); [done|]; by destruct (bool_decide (i ∈ new_ids u)).
    + rewrite bool_decide_eq_true_2 in Hsi by done.
      destruct (old_values u !! i), (removed_values u !! i); done.
    + by rewrite Ho, Hr, bool_decide_eq_false_2 in Hsi by done.
Qed.

(** A fold whose steps act on distinct ids acts pointwise. *)
Lemma foldl_slot {A} (f : undo_state V -> A -> undo_state V) (key : A -> Z)
    (h : A -> slot -> slot) l u i :
  NoDup (key <$> l) ->
  (forall u x j, x ∈ l -> slot_of (f u x) j = if decide (j = key x) then h x (slot_of u j) else slot_of u j) ->
  (forall x, x ∈ l -> key x = i -> slot_of (foldl f u l) i = h x (slot_of u i)) /\
  (i ∉ key <$> l -> slot_of (foldl f u l) i = slot_of u i).
Proof.
  revert u. induction l as [|y l IH]; intros u Hnd Hf.
  { split; [by intros x ?%elem_of_nil|done]. }
  rewrite fmap_cons in *. apply NoDup_cons in Hnd as [Hny Hnd].
  destruct (IH (f u y) Hnd) as [IH1 IH2]; [intros; apply Hf; by right|].
  pose proof (Hf u y i ltac:(left)) as Hfy. cbn. split.
  - intros x [->|Hx]%elem_of_cons Hk.
    + rewrite IH2 by (by subst i). rewrite Hfy. by rewrite decide_True by done.
    + rewrite (IH1 x Hx Hk), Hfy, decide_False; [done|].
      intros ->. apply Hny. rewrite <- Hk. by apply list_elem_of_fmap_2.
  - intros [? ?]%not_elem_of_cons. rewrite IH2 by done. rewrite Hfy. by rewrite decide_False by done.
Qed.

Definition slot_old (x : Z * V) (s : slot) : slot :=
  match s with (None, r, false) => (Some x.2, r, false) | _ => s end.
Definition slot_new (s : slot) : slot := (s.1, true).
Definition emp (r : option V) (v : V) : option V := match r with Some _ => r | None => Some v end.
Definition slot_rem (x : Z * V) (s : slot) : slot :=
  match s with
  | (o, r, true) => (o, r, false)
  | (Some v, r, false) => (None, emp r v, false)
  | (None, r, false) => (None, emp r x.2, false)
  end.

Lemma map_emplace_lookup k v (m : gmap Z V) j :
  map_emplace k v m !! j = if decide (j = k) then emp (m !! k) v else m !! j.
Proof.
  unfold map_emplace, emp. destruct (m !! k) eqn:E; case_decide; simplify_map_eq; done.
Qed.

Lemma squash_old_value_slot u x j : mi_id x.2 = x.1 ->
  slot_of (squash_old_value u x) j
  = if decide (j = x.1) then slot_old x (slot_of u j) else slot_of u j.
Proof.
  intros Hid. unfold squash_old_value, slot_of, slot_old. rewrite Hid.
  repeat case_decide; subst; repeat case_bool_decide; try done;
    destruct (old_values u !! x.1) eqn:E; cbn; rewrite ?map_emplace_lookup; repeat case_decide;
    try done; rewrite ?E; try done; try case_bool_decide; done.
Qed.

Lemma squash_new_id_slot u i j :
  slot_of (squash_new_id u i) j = if decide (j = i) then slot_new (slot_of u j) else slot_of u j.
Proof.
  unfold squash_new_id, slot_of, slot_new. cbn. case_decide; f_equal.
  - apply bool_decide_eq_true_2. set_solver.
  - apply bool_decide_ext. set_solver.
Qed.

Lemma squash_removed_slot u x j : mi_id x.2 = x.1 ->
  slot_of (squash_removed u x) j
  = if decide (j = x.1) then slot_rem x (slot_of u j) else slot_of u j.
Proof.
  intros Hid. unfold squash_removed, slot_of, slot_rem. rewrite Hid.
  destruct (decide (j = x.1)) as [->|Hj].
  - case_decide as Hin; [|destruct (old_values u !! x.1) eqn:E]; cbn.
    + rewrite (bool_decide_eq_true_2 (x.1 ∈ new_ids u)) by done.
      rewrite bool_decide_eq_false_2 by set_solver. by destruct (old_values u !! x.1).
    + by rewrite bool_decide_eq_false_2, lookup_delete_eq, map_emplace_lookup, decide_True by done.
    + by rewrite E, bool_decide_eq_false_2, map_emplace_lookup, decide_True by done.
  - case_decide as Hin; [|destruct (old_values u !! x.1) eqn:E]; cbn.
    + f_equal. apply bool_decide_ext. set_solver.
    + by rewrite lookup_delete_ne, map_emplace_lookup, decide_False by done.
    + by rewrite map_emplace_lookup, decide_False by done.
Qed.

Definition slot_compose (i : Z) (s2 s1 : slot) : slot :=
  let '(o, r, n) := s2 in
  let s := match o with Some v => slot_old (i, v) s1 | None => s1 end in
  let s := if (n : bool) then slot_new s else s in
  match r with Some w => slot_rem (i, w) s | None => s end.

(** Folding over the items of a map, pointwise. *)
Lemma foldl_items_slot (f : undo_state V -> Z * V -> undo_state V) h (m : gmap Z V) u i :
  (forall u x j, m !! x.1 = Some x.2 ->
     slot_of (f u x) j = if decide (j = x.1) then h x (slot_of u j) else slot_of u j) ->
  slot_of (foldl f u (asc_items m)) i
  = match m !! i with Some v => h (i, v) (slot_of u i) | None => slot_of u i end.
Proof.
  intros Hf. destruct (foldl_slot f fst h (asc_items m) u i) as [H1 H2].
  { apply NoDup_asc_items. }
  { intros u' [k v] j Hin%elem_of_asc_items. by apply Hf. }
  destruct (m !! i) as [v|] eqn:E.
  - apply (H1 (i, v)); [by apply elem_of_asc_items|done].
  - apply H2. intros ([k v] & -> & Hin%elem_of_asc_items)%list_elem_of_fmap. cbn in *. congruence.
Qed.

Lemma squash_states_slot u2 u1 i :
  (forall j v, old_values u2 !! j = Some v -> mi_id v = j) ->
  (forall j v, removed_values u2 !! j = Some v -> mi_id v = j) ->
  slot_of (squash_states u2 u1) i = slot_compose i (slot_of u2 i) (slot_of u1 i).
Proof.
  intros Ho Hr. unfold squash_states.
  rewrite (foldl_items_slot _ slot_rem) by (intros; apply squash_removed_slot; auto).
  set (p1 := foldl squash_old_value u1 _).
  assert (slot_of (foldl squash_new_id p1 (asc_elements (new_ids u2))) i
          = if bool_decide (i ∈ new_ids u2) then slot_new (slot_of p1 i) else slot_of p1 i) as ->.
  { destruct (foldl_slot squash_new_id id (fun _ => slot_new) (asc_elements (new_ids u2)) p1 i)
      as [H1 H2]; [rewrite list_fmap_id; apply NoDup_asc_elements|intros; apply squash_new_id_slot|].
    rewrite list_fmap_id in H2. case_bool_decide.
    - by apply (H1 i); [apply elem_of_asc_elements|].
    - apply H2. by rewrite elem_of_asc_elements. }
  unfold p1. rewrite (foldl_items_slot _ slot_old) by (intros; apply squash_old_value_slot; auto).
  done.
Qed.

Lemma squash_old_next u2 u1 : old_next_id (squash_states u2 u1) = old_next_id u1
  /\ us_revision (squash_states u2 u1) = us_revision u1.
Proof.
  unfold squash_states.
  assert (Hf : forall {A} (f : undo_state V -> A -> undo_state V) l u,
    (forall u x, old_next_id (f u x) = old_next_id u /\ us_revision (f u x) = us_revision u) ->
    old_next_id (foldl f u l) = old_next_id u /\ us_revision (foldl f u l) = us_revision u).
  { intros A f l. induction l as [|x l IH]; intros u Hfx; [done|]. cbn.
    destruct (IH (f u x) Hfx) as [-> ->]. apply Hfx. }
  match goal with |- context [foldl squash_removed ?u ?l] =>
    destruct (Hf _ squash_removed l u) as [-> ->] end.
  { intros u x. unfold squash_removed. case_decide; [done|]. by destruct (_ !! _). }
  match goal with |- context [foldl squash_new_id ?u ?l] =>
    destruct (Hf _ squash_new_id l u) as [-> ->]; [done|] end.
  apply Hf. intros u x. unfold squash_old_value. case_decide; [done|]. by destruct (_ !! _).
Qed.

Lemma repr_squash u1 u2 b1 n1 b2 n2 m n :
  repr u1 b1 n1 b2 n2 -> repr u2 b2 n2 m n -> bounded b1 n1 -> bounded b2 n2 ->
  repr (squash_states u2 u1) b1 n1 m n.
Proof.
  intros Hr1 Hr2 Hb1 Hb2.
  assert (Ho : forall j v, old_values u2 !! j = Some v -> mi_id v = j).
  { intros j v [[_ ?]%Hb2 _]%(r_old _ _ _ _ _ Hr2). done. }
  assert (Hr : forall j v, removed_values u2 !! j = Some v -> mi_id v = j).
  { intros j v [[_ ?]%Hb2 _]%(r_rem _ _ _ _ _ Hr2). done. }
  apply repr_slots in Hr1 as (Hs1 & Hn1 & Hle1); [|done].
  apply repr_slots in Hr2 as (Hs2 & Hn2 & Hle2); [|done].
  apply repr_slots; [done|]. split; [|split; [by rewrite (proj1 (squash_old_next _ _))|lia]].
  intros i. rewrite squash_states_slot by done. specialize (Hs1 i). specialize (Hs2 i).
  assert (n1 <= i -> b1 !! i = None) as Hfr1.
  { intros. destruct (b1 !! i) eqn:E; [|done]. apply Hb1 in E. lia. }
  assert (n2 <= i -> b2 !! i = None) as Hfr2.
  { intros. destruct (b2 !! i) eqn:E; [|done]. apply Hb2 in E. lia. }
  destruct (slot_of u1 i) as [[[v1|] [w1|]] []], (slot_of u2 i) as [[[v2|] [w2|]] []];
    cbn in *; try done; destruct_and?; simplify_eq; try (by split; eauto);
    repeat match goal with H : is_Some _ |- _ => destruct H as [? ?] end;
    try rewrite Hfr1 in * by lia; try rewrite Hfr2 in * by done; simplify_eq; eauto;
    try congruence; try (split; [congruence || eauto|lia || eauto]).
  all: rewrite Hs2; eauto.
Qed.

(** Loops over the container whose iterations touch distinct ids. *)
Lemma for_each_find {A} (f : A -> St C unit) (key : A -> Z) (val : A -> option V) l c c' j :
  NoDup (key <$> l) ->
  (forall x c1 c2 j, x ∈ l -> f x c1 = (c2, Ok tt) ->
     mi_find c2 j = if decide (j = key x) then val x else mi_find c1 j) ->
  for_each f l c = (c', Ok tt) ->
  (forall x, x ∈ l -> key x = j -> mi_find c' j = val x) /\
  (j ∉ key <$> l -> mi_find c' j = mi_find c j).
Proof.
  revert c. induction l as [|y l IH]; intros c Hnd Hf; cbn.
  { intros [= ->]. split; [by intros x ?%elem_of_nil|done]. }
  rewrite St_bind_ok. intros ([] & c1 & Hy & Hl).
  apply NoDup_cons in Hnd as [Hny Hnd].
  destruct (IH c1 Hnd) as [IH1 IH2]; [intros; eapply Hf; eauto; by right|done|].
  pose proof (Hf y c c1 j ltac:(left) Hy) as Hfy. split.
  - intros x [->|Hx]%elem_of_cons Hk.
    + rewrite IH2 by (by subst j). rewrite Hfy. by rewrite decide_True by done.
    + by apply IH1.
  - intros [? ?]%not_elem_of_cons. rewrite IH2 by done. rewrite Hfy. by rewrite decide_False by done.
Qed.

Lemma for_each_items_find (f : Z * V -> St C unit) (val : V -> option V) (mm : gmap Z V) c c' j :
  (forall x c1 c2 j, mm !! x.1 = Some x.2 -> f x c1 = (c2, Ok tt) ->
     mi_find c2 j = if decide (j = x.1) then val x.2 else mi_find c1 j) ->
  for_each f (asc_items mm) c = (c', Ok tt) ->
  mi_find c' j = match mm !! j with Some v => val v | None => mi_find c j end.
Proof.
  intros Hf Hl. destruct (for_each_find f fst (fun x => val x.2) (asc_items mm) c c' j) as [H1 H2];
    [apply NoDup_asc_items|intros [??] ??? ?%elem_of_asc_items; by apply Hf|done|].
  destruct (mm !! j) as [v|] eqn:E.
  - apply (H1 (j, v)); [by apply elem_of_asc_items|done].
  - apply H2. intros ([k v] & -> & Hin%elem_of_asc_items)%list_elem_of_fmap. cbn in *. congruence.
Qed.

Lemma for_each_ids_find (f : Z -> St C unit) (ids : gset Z) c c' j :
  (forall i c1 c2 j, i ∈ ids -> f i c1 = (c2, Ok tt) ->
     mi_find c2 j = if decide (j = i) then None else mi_find c1 j) ->
  for_each f (asc_elements ids) c = (c', Ok tt) ->
  mi_find c' j = if decide (j ∈ ids) then None else mi_find c j.
Proof.
  intros Hf Hl. destruct (for_each_find f id (fun _ => None) (asc_elements ids) c c' j) as [H1 H2];
    [rewrite list_fmap_id; apply NoDup_asc_elements
    |intros ???? ?%elem_of_asc_elements; by apply Hf|done|].
  rewrite list_fmap_id in H2. case_decide.
  - by apply (H1 j); [apply elem_of_asc_elements|].
  - apply H2. by rewrite elem_of_asc_elements.
Qed.

Lemma undo_old_value_find x c1 c2 j : undo_old_value x c1 = (c2, Ok tt) ->
  mi_find c2 j = if decide (j = mi_id x.2) then Some x.2 else mi_find c1 j.
Proof.
  unfold undo_old_value. destruct (mi_find c1 _) eqn:E; [|done].
  destruct (mi_modify c1 _ _) as [c' []] eqn:Em; [|done]. intros [= <-].
  by eapply mi_modify_true.
Qed.

Lemma undo_new_id_find i c1 c2 j : undo_new_id i c1 = (c2, Ok tt) ->
  mi_find c2 j = if decide (j = i) then None else mi_find c1 j.
Proof.
  unfold undo_new_id. destruct (mi_find c1 _) eqn:E; [|done]. intros [= <-]. apply mi_erase_find.
Qed.

Lemma undo_removed_find x c1 c2 j : undo_removed x c1 = (c2, Ok tt) ->
  mi_find c2 j = if decide (j = mi_id x.2) then Some x.2 else mi_find c1 j.
Proof.
  unfold undo_removed. destruct (mi_emplace c1 _) eqn:E; [|done]. intros [= <-].
  by eapply mi_emplace_find.
Qed.

Lemma on_indices_ok {A} (mm : St C A) g g' a :
  on_indices mm g = (g', Ok a) <-> exists c, mm (indices g) = (c, Ok a) /\ g' = set_indices c g.
Proof. unfold on_indices. destruct (mm (indices g)) as [c r]. naive_solver. Qed.

(** An [undo] that returns ran its three loops to the end. *)
Lemma undo_ok u us g g' :
  stack g = u :: us -> undo g = (g', Ok tt) ->
  exists c1 c2 c3,
    for_each undo_old_value (asc_items (old_values u)) (indices g) = (c1, Ok tt) /\
    for_each undo_new_id (asc_elements (new_ids u)) c1 = (c2, Ok tt) /\
    for_each undo_removed (asc_items (removed_values u)) c2 = (c3, Ok tt) /\
    g' = GenericIndex us (revision g - 1) (old_next_id u) c3.
Proof.
  intros Hs. unfold undo. rewrite Hs.
  rewrite St_bind_ok. intros ([] & g1 & (c1 & H1 & ->)%on_indices_ok & Hg).
  rewrite St_bind_ok in Hg. destruct Hg as ([] & g2 & (c2 & H2 & ->)%on_indices_ok & Hg).
  rewrite St_bind_ok in Hg. destruct Hg as ([] & g3 & [= <-] & Hg).
  rewrite St_bind_ok in Hg. destruct Hg as ([] & g4 & (c3 & H3 & ->)%on_indices_ok & [= <-]).
  exists c1, c2, c3. done.
Qed.

Lemma undo_loops_find u b bn m n c c1 c2 c3 j :
  repr u b bn m n -> bounded b bn -> models c m ->
  for_each undo_old_value (asc_items (old_values u)) c = (c1, Ok tt) ->
  for_each undo_new_id (asc_elements (new_ids u)) c1 = (c2, Ok tt) ->
  for_each undo_removed (asc_items (removed_values u)) c2 = (c3, Ok tt) ->
  mi_find c3 j = b !! j.
Proof.
  intros Hr Hb Hc H1 H2 H3.
  assert (Ho : forall i v, old_values u !! i = Some v -> mi_id v = i).
  { intros i v [[_ ?]%Hb _]%(r_old _ _ _ _ _ Hr). done. }
  assert (Hrm : forall i v, removed_values u !! i = Some v -> mi_id v = i).
  { intros i v [[_ ?]%Hb _]%(r_rem _ _ _ _ _ Hr). done. }
  rewrite (for_each_items_find undo_removed Some (removed_values u) c2 c3); [|..|done].
  2:{ intros x ??? Hx%Hrm Hf%(undo_removed_find _ _ _ j0). by rewrite Hf, Hx. }
  rewrite (for_each_ids_find undo_new_id (new_ids u) c1 c2); [|..|done].
  2:{ intros; by eapply undo_new_id_find. }
  rewrite (for_each_items_find undo_old_value Some (old_values u) c c1); [|..|done].
  2:{ intros x ??? Hx%Ho Hf%(undo_old_value_find _ _ _ j0). by rewrite Hf, Hx. }
  rewrite Hc. apply repr_slots in Hr as [Hs _]; [|done]. specialize (Hs j).
  assert (bn <= j -> b !! j = None).
  { intros. destruct (b !! j) eqn:E; [|done]. apply Hb in E. lia. }
  unfold slot_of in Hs. case_decide as Hin;
    [rewrite bool_decide_eq_true_2 in Hs by done|rewrite bool_decide_eq_false_2 in Hs by done];
    destruct (old_values u !! j), (removed_values u !! j); cbn in Hs;
    destruct_and?; try done; symmetry; auto.
Qed.

Lemma refines_undo g g' s : refines g s -> undo g = (g', Ok tt) -> refines g' (spec_undo s).
Proof.
  intros [Hc Hn Hrv Hb Hst] Hu. unfold spec_undo.
  destruct (stack g) as [|u us] eqn:Es, (sp_snaps s) as [|[b bn] bs] eqn:Eb; try done.
  { unfold undo in Hu. rewrite Es in Hu. injection Hu as <-. split; try done. by rewrite Es, Eb. }
  destruct Hst as (Hr & Hbb & Hur & Hst).
  destruct (undo_ok u us g g' Es Hu) as (c1 & c2 & c3 & H1 & H2 & H3 & ->).
  split; cbn; [|by destruct Hr|by rewrite Hrv|done|done].
  intros j. by eapply undo_loops_find.
Qed.

(** Objects of the two states with different ids never compete for a unique
    key. *)
Definition keys_compatible b m : Prop := forall i j v w,
  i <> j -> b !! i = Some v \/ m !! i = Some v -> b !! j = Some w \/ m !! j = Some w ->
  ~ mi_clash v w.

Definition drawn_from b m c : Prop :=
  forall i v, mi_find c i = Some v -> b !! i = Some v \/ m !! i = Some v.

Lemma undo_old_loop_total b m c (old : gmap Z V) :
  keys_compatible b m -> drawn_from b m c -> (forall i, is_Some (mi_find c i) <-> is_Some (m !! i)) ->
  (forall i v, old !! i = Some v -> b !! i = Some v /\ is_Some (m !! i) /\ mi_id v = i) ->
  exists c', for_each undo_old_value (asc_items old) c = (c', Ok tt) /\
    drawn_from b m c' /\ (forall i, is_Some (mi_find c' i) <-> is_Some (m !! i)).
Proof.
  intros Hk Hd Hdom Hold.
  destruct (for_each_total undo_old_value (fun l c =>
    (forall x, x ∈ l -> old !! x.1 = Some x.2) /\ drawn_from b m c /\
    (forall i, is_Some (mi_find c i) <-> is_Some (m !! i))) (asc_items old) c)
    as (c' & Hl & _ & ? & ?); [| |by eauto].
  - clear c Hd Hdom. intros x l c (Hl & Hd & Hdom).
    destruct (Hold x.1 x.2) as (Hb & Hm & Hid); [apply Hl; by left|].
    assert (is_Some (mi_find c (mi_id x.2))) as [y Hy] by (rewrite Hid; by apply Hdom).
    assert ((mi_modify c (mi_id x.2) x.2).2 = true) as Hok.
    { apply mi_modify_ok; [done|eauto|]. rewrite Hid. intros j w Hj Hw%Hd.
      eapply Hk; [|left; exact Hb|exact Hw]. done. }
    destruct (mi_modify c (mi_id x.2) x.2) as [c' ok] eqn:Em. cbn in Hok. subst ok.
    assert (Hst : undo_old_value x c = (c', Ok tt)) by (unfold undo_old_value; by rewrite Hy, Em).
    exists c'. split; [done|]. pose proof (fun j => undo_old_value_find x c c' j Hst) as Hf.
    rewrite Hid in Hf. split; [intros; apply Hl; by right|]. split.
    + intros i v. rewrite Hf. case_decide; [|apply Hd]. subst. intros [= <-]. by left.
    + intros i. rewrite Hf. case_decide; [|apply Hdom]. subst. split; eauto.
  - split; [|done]. intros [k v]. cbn. apply elem_of_asc_items.
Qed.

Lemma undo_new_loop_total b m c (ids : gset Z) :
  drawn_from b m c -> (forall i, is_Some (mi_find c i) -> is_Some (m !! i)) ->
  (forall i, i ∈ ids -> is_Some (mi_find c i)) ->
  exists c', for_each undo_new_id (asc_elements ids) c = (c', Ok tt) /\
    drawn_from b m c' /\ (forall i, is_Some (mi_find c' i) -> is_Some (m !! i)).
Proof.
  intros Hd Hdom Hids.
  destruct (for_each_total undo_new_id (fun l c =>
    NoDup l /\ (forall i, i ∈ l -> is_Some (mi_find c i)) /\ drawn_from b m c /\
    (forall i, is_Some (mi_find c i) -> is_Some (m !! i))) (asc_elements ids) c)
    as (c' & Hl & _ & _ & ? & ?); [| |by eauto].
  - clear c Hd Hdom Hids. intros i l c (Hnd & Hin & Hd & Hdom).
    destruct (Hin i ltac:(left)) as [y Hy]. apply NoDup_cons in Hnd as [Hni Hnd].
    assert (Hst : undo_new_id i c = (mi_erase c i, Ok tt)) by (unfold undo_new_id; by rewrite Hy).
    exists (mi_erase c i). split; [done|]. split; [done|].
    repeat split; intros j *; rewrite ?mi_erase_find.
    + intros Hj. rewrite decide_False by congruence. apply Hin. by right.
    + case_decide; [done|apply Hd].
    + case_decide; [by intros []|apply Hdom].
  - split; [apply NoDup_asc_elements|]. split; [|done]. intros i ?%elem_of_asc_elements. auto.
Qed.

Lemma undo_removed_loop_total b m c (rem : gmap Z V) :
  keys_compatible b m -> drawn_from b m c ->
  (forall i v, rem !! i = Some v -> b !! i = Some v /\ mi_find c i = None /\ mi_id v = i) ->
  exists c', for_each undo_removed (asc_items rem) c = (c', Ok tt).
Proof.
  intros Hk Hd Hrem.
  destruct (for_each_total undo_removed (fun l c =>
    NoDup l.*1 /\ (forall x, x ∈ l -> rem !! x.1 = Some x.2 /\ mi_find c x.1 = None) /\
    drawn_from b m c) (asc_items rem) c) as (c' & Hl & _); [| |by eauto].
  - intros x l c0 (Hnd & Hin & Hd0). destruct (Hin x ltac:(left)) as [Hx Hxn].
    destruct (Hrem _ _ Hx) as (Hb & _ & Hid). apply NoDup_cons in Hnd as [Hnx Hnd].
    destruct (mi_emplace_ok c0 x.2) as [c' Hc'].
    { by rewrite Hid. }
    { intros j w Hw. apply Hd0 in Hw as Hw'. eapply Hk; [|left; exact Hb|exact Hw'].
      intros <-. congruence. }
    assert (Hst : undo_removed x c0 = (c', Ok tt)) by (unfold undo_removed; by rewrite Hc').
    exists c'. split; [done|]. pose proof (fun j => undo_removed_find x c0 c' j Hst) as Hf.
    rewrite Hid in Hf. split; [done|]. split.
    + intros y Hy. destruct (Hin y ltac:(by right)). rewrite Hf, decide_False; [done|].
      intros Heq. apply Hnx. rewrite <- Heq. by apply list_elem_of_fmap_2.
    + intros i v. rewrite Hf. case_decide; [|apply Hd0]. subst. intros [= <-]. by left.
  - split; [apply NoDup_asc_items|]. split; [|done]. intros [k v] Hkv%elem_of_asc_items.
    split; [done|]. by apply Hrem in Hkv as (? & ? & ?).
Qed.

Lemma undo_total g s u us b bn bs :
  refines g s -> stack g = u :: us -> sp_snaps s = (b, bn) :: bs ->
  keys_compatible b (sp_cur s) -> exists g', undo g = (g', Ok tt).
Proof.
  intros [Hc Hn Hrv Hm Hst] Es Eb Hk. rewrite Es, Eb in Hst. destruct Hst as (Hr & Hb & _ & _).
  destruct (undo_old_loop_total b (sp_cur s) (indices g) (old_values u)) as (c1 & H1 & Hd1 & Hdom1).
  { done. }
  { intros i v. rewrite Hc. auto. }
  { intros i. by rewrite Hc. }
  { intros i v Hi. apply (r_old _ _ _ _ _ Hr) in Hi as [Hi ?].
    pose proof (Hb _ _ Hi) as [_ ?]. done. }
  destruct (undo_new_loop_total b (sp_cur s) c1 (new_ids u)) as (c2 & H2 & Hd2 & Hdom2).
  { done. }
  { intros i. apply Hdom1. }
  { intros i [? _]%(r_new _ _ _ _ _ Hr). by apply Hdom1. }
  destruct (undo_removed_loop_total b (sp_cur s) c2 (removed_values u)) as (c3 & H3); [done..| |].
  { intros i v Hi. apply (r_rem _ _ _ _ _ Hr) in Hi as [Hi Hnone]. split; [done|].
    split; [|by apply Hb in Hi as [_ ?]].
    apply eq_None_not_Some. intros [? Hs]%Hdom2. by rewrite Hnone in Hs. }
  unfold undo. rewrite Es. unfold mbind, St_bind, on_indices, modify_st.
  rewrite H1. cbn. rewrite H2. cbn. rewrite H3. eauto.
Qed.

(** *** The other operations *)
Lemma refines_emplace (con : Z -> V) g g' s v :
  refines g s -> (forall i, mi_id (con i) = i) -> emplace con g = (g', Ok v) ->
  refines g' (spec_create con s) /\ v = con (next_id g).
Proof.
  intros [Hc Hn Hrv Hb Hst] Hcid. unfold emplace.
  destruct (mi_emplace (indices g) _) as [idx|] eqn:E; [|done]. intros [= <- <-].
  split; [|done]. rewrite Hn in *.
  assert (Hidx : models idx (<[sp_next s := con (sp_next s)]> (sp_cur s))).
  { intros i. rewrite (mi_emplace_find _ _ _ _ E), lookup_insert, Hcid, Hc.
    repeat case_decide; congruence. }
  assert (Hb' : bounded (<[sp_next s := con (sp_next s)]> (sp_cur s)) (sp_next s + 1)).
  { apply bounded_insert; [eapply bounded_mono; [done|lia]|lia|by rewrite Hcid]. }
  unfold on_create. destruct (stack g) as [|u us] eqn:Es; cbn.
  - by split; cbn.
  - split; cbn; try done. destruct (sp_snaps s) as [|[b bn] bs]; [done|].
    destruct Hst as (Hr & Hbb & Hur & Hst). split_and!; try done.
    by apply repr_create.
Qed.

Lemma refines_modify i f g g' s :
  refines g s -> (forall v, mi_id (f v) = mi_id v) -> modify i f g = (g', Ok tt) ->
  refines g' (spec_modify i f s) /\ is_Some (sp_cur s !! i).
Proof.
  intros [Hc Hn Hrv Hb Hst] Hf. unfold modify.
  destruct (mi_find (indices g) i) as [v|] eqn:E; [|done].
  rewrite Hc in E. pose proof (Hb _ _ E) as [Hlt Hid].
  assert (indices (on_modify v g) = indices g) as ->
    by (unfold on_modify; by destruct (stack g)).
  destruct (mi_modify _ _ _) as [idx []] eqn:Em; intros [= <-]. split; [|eauto].
  assert (sp_cur (spec_modify i f s) = <[i := f v]> (sp_cur s)) as Hcur.
  { cbn. apply map_eq. intros j. rewrite lookup_alter, lookup_insert.
    case_decide; [subst; by rewrite E|done]. }
  assert (next_id (on_modify v g) = next_id g /\ revision (on_modify v g) = revision g) as [Hn1 Hr1]
    by (unfold on_modify; by destruct (stack g)).
  split; rewrite ?Hcur; cbn.
  - intros j. rewrite (mi_modify_true _ _ _ _ j ltac:(by rewrite Hf) Em), lookup_insert, Hc.
    repeat case_decide; congruence.
  - congruence.
  - congruence.
  - apply bounded_insert; [done|done|by rewrite Hf].
  - unfold on_modify. destruct (stack g) as [|u us] eqn:Es; [by rewrite Es|cbn].
    destruct (sp_snaps s) as [|[b bn] bs]; [done|]. rewrite Es. cbn.
    destruct Hst as (Hr & Hbb & Hur & Hst). split_and!; try done.
    + rewrite <- Hid. apply repr_modify; [done|by rewrite Hid].
    + unfold on_modify_state. case_decide; [done|]. by destruct (old_values u !! mi_id v).
Qed.

Lemma refines_remove i g g' s :
  refines g s -> remove i g = (g', Ok tt) ->
  refines g' (spec_remove i s) /\ is_Some (sp_cur s !! i).
Proof.
  intros [Hc Hn Hrv Hb Hst]. unfold remove.
  destruct (mi_find (indices g) i) as [v|] eqn:E; [|done]. intros [= <-].
  rewrite Hc in E. pose proof (Hb _ _ E) as [Hlt Hid]. split; [|eauto].
  assert (next_id (on_remove v g) = next_id g /\ revision (on_remove v g) = revision g
          /\ indices (on_remove v g) = indices g) as (Hn1 & Hr1 & Hi1)
    by (unfold on_remove; by destruct (stack g)).
  split; cbn.
  - intros j. rewrite mi_erase_find, lookup_delete, Hi1, Hc. repeat case_decide; congruence.
  - congruence.
  - congruence.
  - by apply bounded_delete.
  - unfold on_remove. destruct (stack g) as [|u us] eqn:Es; [by rewrite Es; destruct (sp_snaps s)|cbn].
    destruct (sp_snaps s) as [|[b bn] bs]; [done|]. rewrite Es. cbn.
    destruct Hst as (Hr & Hbb & Hur & Hst). split_and!; try done.
    + rewrite <- Hid. apply repr_remove; [done|done|by rewrite Hid].
    + unfold on_remove_state. case_decide; [done|]. destruct (old_values u !! _); [done|].
      by destruct (removed_values u !! _).
Qed.

Lemma refines_start g g' s ss :
  refines g s -> start_undo_session true g = (g', Ok ss) -> refines g' (spec_start s).
Proof.
  intros [Hc Hn Hrv Hb Hst]. unfold start_undo_session. intros [= <- _].
  split; cbn; rewrite ?Hrv; try done.
  split_and!; try done. by replace (_ + 1 - 1) with (sp_rev s) by lia.
Qed.

Lemma refines_squash g s : refines g s -> refines (squash g) (spec_squash s).
Proof.
  intros [Hc Hn Hrv Hb Hst]. unfold squash, spec_squash.
  destruct (stack g) as [|u2 [|u1 us]] eqn:Es, (sp_snaps s) as [|[b2 n2] [|[b1 n1] bs]] eqn:Eb;
    cbn in Hst; try (by destruct_and?).
  - split; cbn; try done. by rewrite Es, Eb.
  - destruct Hst as (Hr2 & Hb2 & Hv2 & Hr1 & Hb1 & Hv1 & Hst).
    split; cbn; try done; [congruence|]. split_and!; try done.
    + by eapply repr_squash.
    + by rewrite (proj2 (squash_old_next _ _)).
Qed.

(** The revisions of the last [k] sessions, newest first. *)
Definition revs (r : Z) (k : nat) : list Z := (fun i => r - Z.of_nat i) <$> seq 0 k.

Lemma revs_S r k : revs r (S k) = r :: revs (r - 1) k.
Proof.
  unfold revs. cbn. f_equal; [lia|]. rewrite <- fmap_S_seq, <- list_fmap_compose.
  apply list_fmap_ext. intros ? i _. cbn. lia.
Qed.

(** The stack is committed to [r'] by dropping its oldest states: those at
    distance [r - r'] or more from the newest. *)
Lemma commit_stack_take (us : list (undo_state V)) r r' :
  us_revision <$> us = revs r (length us) ->
  rev (commit_stack r' (rev us)) = take (Z.to_nat (r - r')) us.
Proof.
  revert r. induction us as [|u us IH]; intros r Hst; [by rewrite take_nil|].
  cbn [length] in Hst. rewrite revs_S in Hst. injection Hst as Hu Hst.
  specialize (IH _ Hst). cbn [rev].
  assert (Happ : forall l, commit_stack r' (l ++ [u])
    = match commit_stack r' l with [] => commit_stack r' [u] | l' => l' ++ [u] end).
  { intros l. induction l as [|x l IHl]; [done|].
    cbn [app commit_stack]. destruct (_ <=? _); done. }
  rewrite Happ. destruct (commit_stack r' (rev us)) as [|x l] eqn:E.
  - cbn. rewrite Hu. destruct (r <=? r') eqn:Hle; bool_to_prop.
    + by rewrite (Z2Nat.nonpos (r - r')) by lia.
    + replace (Z.to_nat (r - r')) with (S (Z.to_nat (r - 1 - r'))) by lia. cbn. by rewrite <- IH.
  - rewrite rev_app_distr. cbn. cbn in IH. rewrite IH.
    assert (1 <= r - 1 - r').
    { destruct (decide (1 <= r - 1 - r')); [done|]. rewrite Z2Nat.nonpos in IH by lia.
      cbn in IH. by destruct (rev l). }
    by replace (Z.to_nat (r - r')) with (S (Z.to_nat (r - 1 - r'))) by lia.
Qed.

Lemma stack_repr_revs us bs m n r : stack_repr us bs m n r -> us_revision <$> us = revs r (length us).
Proof.
  revert bs m n r. induction us as [|u us IH]; intros [|[b bn] bs] m n r Hst; try done.
  destruct Hst as (_ & _ & Hu & Hst). cbn [length]. rewrite revs_S. cbn.
  f_equal; [done|]. by eapply IH.
Qed.

Lemma stack_repr_take k us bs m n r :
  stack_repr us bs m n r -> stack_repr (take k us) (take k bs) m n r.
Proof.
  revert k bs m n r. induction us as [|u us IH]; intros k [|[b bn] bs] m n r Hst; try done.
  - by rewrite !take_nil.
  - destruct k; [done|]. cbn. destruct Hst as (? & ? & ? & ?). split_and!; try done. by apply IH.
Qed.

Lemma refines_commit r g s : refines g s -> refines (commit r g) (spec_commit r s).
Proof.
  intros [Hc Hn Hrv Hb Hst]. split; cbn; try done.
  rewrite (commit_stack_take _ _ _ (stack_repr_revs _ _ _ _ _ Hst)). by apply stack_repr_take.
Qed.

Lemma stack_repr_length us bs m n r : stack_repr us bs m n r -> length us = length bs.
Proof.
  revert bs m n r. induction us as [|u us IH]; intros [|[b bn] bs] m n r Hst; try done.
  destruct Hst as (_ & _ & _ & Hst). cbn. f_equal. by eapply IH.
Qed.

Lemma refines_length g s : refines g s -> length (stack g) = length (sp_snaps s).
Proof. intros [????]. by eapply stack_repr_length. Qed.

Lemma spec_undo_all_step s b bn bs :
  sp_snaps s = (b, bn) :: bs -> spec_undo_all (spec_undo s) = spec_undo_all s.
Proof.
  intros E. unfold spec_undo_all, spec_undo. rewrite E. cbn [sp_snaps sp_rev].
  destruct bs as [|x bs]; [cbn; by f_equal; lia|]. rewrite (last_cons_cons (b, bn) x bs).
  destruct (last (x :: bs)) as [[b' bn']|] eqn:El; [cbn; f_equal; lia|].
  by apply last_None in El.
Qed.

Lemma refines_undo_all g g' s :
  refines g s -> undo_all g = (g', Ok tt) -> refines g' (spec_undo_all s).
Proof.
  unfold undo_all. remember (length (stack g)) as k eqn:Hk. symmetry in Hk.
  revert g s Hk. induction k as [|k IH]; intros g s Hk Hr.
  - cbn. intros [= <-]. rewrite (refines_length _ _ Hr) in Hk. unfold spec_undo_all.
    by destruct (sp_snaps s).
  - cbn. unfold enabled. destruct (stack g) as [|u us] eqn:Es; [done|].
    rewrite St_bind_ok. intros ([] & g1 & Hu & Hrest).
    pose proof (refines_length _ _ Hr) as Hlen. rewrite Es in Hlen.
    destruct (sp_snaps s) as [|[b bn] bs] eqn:Eb; [done|].
    rewrite <- (spec_undo_all_step s b bn bs Eb).
    eapply IH; [|by eapply refines_undo|done].
    destruct (undo_ok _ _ _ _ Es Hu) as (? & ? & ? & _ & _ & _ & ->). cbn in *. congruence.
Qed.

(** *** Histories of operations *)
Inductive op :=
| OpCreate (con : Z -> V)
| OpModify (i : Z) (f : V -> V)
| OpRemove (i : Z)
| OpStart
| OpUndo
| OpSquash
| OpCommit (r : Z)
| OpUndoAll.

Definition run_op (o : op) : St (generic_index V C) unit :=
  match o with
  | OpCreate con => _ ← emplace con; mret tt
  | OpModify i f => modify i f
  | OpRemove i => remove i
  | OpStart => _ ← start_undo_session true; mret tt
  | OpUndo => undo
  | OpSquash => modify_st squash
  | OpCommit r => modify_st (commit r)
  | OpUndoAll => undo_all
  end.

Definition spec_op (o : op) : spec V -> spec V :=
  match o with
  | OpCreate con => spec_create con
  | OpModify i f => spec_modify i f
  | OpRemove i => spec_remove i
  | OpStart => spec_start
  | OpUndo => spec_undo
  | OpSquash => spec_squash
  | OpCommit r => spec_commit r
  | OpUndoAll => spec_undo_all
  end.

(** Constructors and modifiers passed by the callers leave the id alone. *)
Definition wf_op (o : op) : Prop :=
  match o with
  | OpCreate con => forall i, mi_id (con i) = i
  | OpModify _ f => forall v, mi_id (f v) = mi_id v
  | _ => True
  end.

Lemma refines_op o g g' s :
  refines g s -> wf_op o -> run_op o g = (g', Ok tt) -> refines g' (spec_op o s).
Proof.
  intros Hr Hwf. destruct o; cbn [run_op spec_op].
  - rewrite St_bind_ok. intros (v & g1 & He & [= <-]). by eapply refines_emplace.
  - intros He. by eapply refines_modify.
  - intros He. by eapply refines_remove.
  - rewrite St_bind_ok. intros (v & g1 & He & [= <-]). by eapply refines_start.
  - by apply refines_undo.
  - intros [= <-]. by apply refines_squash.
  - intros [= <-]. by apply refines_commit.
  - by apply refines_undo_all.
Qed.

End refinement.
Arguments revs : simpl never.

(** ** database

    The database holds its indices behind the virtual interface
    [abstract_index]; an index of any object type packs its types and its
    container with its state. *)
Record any_index := AnyIndex {
  ai_type_id : Z;
  ai_V : Type;
  ai_C : Type;
  ai_mi : MultiIndex ai_V ai_C;
  ai_index : generic_index ai_V ai_C
}.

Definition ai_set (a : any_index) (g : generic_index (ai_V a) (ai_C a)) : any_index :=
  AnyIndex (ai_type_id a) (ai_V a) (ai_C a) (ai_mi a) g.

Definition ai_start_undo_session (en : bool) (a : any_index) : any_index * result index_session :=
  let '(g, r) := @start_undo_session _ _ en (ai_index a) in
  (* session_impl is move-constructed from the session of the index *)
  (ai_set a g, s ← r; mret (fst (move_session s))).
Definition ai_undo (a : any_index) : any_index * result unit :=
  let '(g, r) := @undo _ _ (ai_mi a) (ai_index a) in (ai_set a g, r).
Definition ai_squash (a : any_index) : any_index :=
  ai_set a (@squash _ _ (ai_mi a) (ai_index a)).
Definition ai_commit (r : Z) (a : any_index) : any_index := ai_set a (commit r (ai_index a)).
Definition ai_undo_all (a : any_index) : any_index * result unit :=
  let '(g, r) := @undo_all _ _ (ai_mi a) (ai_index a) in (ai_set a g, r).
Definition ai_set_revision (r : Z) (a : any_index) : any_index * result unit :=
  let '(g, r) := @set_revision _ _ r (ai_index a) in (ai_set a g, r).
Definition ai_revision (a : any_index) : Z := revision (ai_index a).

(** [_index_list], in the order the indices were added. *)
Definition database := list any_index.

(** [for( auto& item : _index_list ) item->f()] *)
Fixpoint each_index {A} (f : any_index -> any_index * result A) (l : database)
    : database * result (list A) :=
  match l with
  | [] => ([], Ok [])
  | a :: l =>
      match f a with
      | (a', Throw e) => (a' :: l, Throw e)
      | (a', Ok x) =>
          match each_index f l with
          | (l', Throw e) => (a' :: l', Throw e)
          | (l', Ok xs) => (a' :: l', Ok (x :: xs))
          end
      end
  end.

Definition db_add_index (a : any_index) : St database unit := fun db =>
  if bool_decide (Exists (fun b => ai_type_id b = ai_type_id a) db) then (db, Throw logic_error)
  else (db ++ [a], Ok tt).

Definition db_revision (db : database) : Z :=
  match db with [] => -1 | a :: _ => ai_revision a end.

Definition db_undo : St database unit := fun db =>
  let '(db, r) := each_index ai_undo db in (db, _ ← r; mret tt).
Definition db_squash (db : database) : database := ai_squash <$> db.
Definition db_commit (r : Z) (db : database) : database := ai_commit r <$> db.
Definition db_undo_all : St database unit := fun db =>
  let '(db, r) := each_index ai_undo_all db in (db, _ ← r; mret tt).
Definition db_set_revision (rv : Z) : St database unit := fun db =>
  let '(db, r) := each_index (ai_set_revision rv) db in (db, _ ← r; mret tt).

(** [database::session] *)
Record db_session := DbSession { ds_sessions : list index_session; ds_revision : Z }.

Definition db_start_undo_session (en : bool) : St database db_session := fun db =>
  if en then
    let '(db, r) := each_index (ai_start_undo_session en) db in
    (db, ss ← r;
         mret (DbSession ss (match ss with [] => -1 | s :: _ => s_revision s end)))
  else (db, Ok (DbSession [] (-1))).

Definition db_session_push (s : db_session) : db_session := DbSession [] (ds_revision s).

Definition ai_session_squash (s : index_session) (a : any_index) : any_index :=
  ai_set a (@session_squash _ _ (ai_mi a) s (ai_index a)).2.
Definition ai_session_undo (s : index_session) (a : any_index) : any_index * result unit :=
  let '(g, r) := @session_undo _ _ (ai_mi a) s (ai_index a) in (ai_set a g, _ ← r; mret tt).

(** The sub-sessions are those of the indices, in order. *)
Fixpoint db_squash_sessions (ss : list index_session) (db : database) : database :=
  match ss, db with
  | s :: ss, a :: db => ai_session_squash s a :: db_squash_sessions ss db
  | _, _ => db
  end.
Fixpoint db_undo_sessions (ss : list index_session) : St database unit := fun db =>
  match ss, db with
  | s :: ss, a :: db =>
      match ai_session_undo s a with
      | (a', Throw e) => (a' :: db, Throw e)
      | (a', Ok _) => let '(db', r) := db_undo_sessions ss db in (a' :: db', r)
      end
  | _, _ => (db, Ok tt)
  end.

Definition db_session_squash (s : db_session) (db : database) : db_session * database :=
  (DbSession [] (ds_revision s), db_squash_sessions (ds_sessions s) db).
Definition db_session_undo (s : db_session) : St database db_session := fun db =>
  let '(db', r) := db_undo_sessions (ds_sessions s) db in
  (db', _ ← r; mret (DbSession [] (ds_revision s))).

(** Every index is at revision [r] and holds the undo states of the last [k]
    revisions. *)
Definition at_revision (r : Z) (k : nat) (a : any_index) : Prop :=
  ai_revision a = r /\
  us_revision <$> stack (ai_index a) = revs r k.
Definition lockstep (r : Z) (k : nat) (db : database) : Prop := Forall (at_revision r k) db.

(** *** Effect of the operations on the revisions of one index *)
Lemma at_revision_length r k a : at_revision r k a -> length (stack (ai_index a)) = k.
Proof.
  intros [_ H]. apply (f_equal length) in H. unfold revs in H.
  by rewrite !length_fmap, length_seq in H.
Qed.

Lemma at_revision_start r k a a' s :
  at_revision r k a -> ai_start_undo_session true a = (a', Ok s) -> at_revision (r + 1) (S k) a'.
Proof.
  intros [Hr Hs] [= <- _]. split; cbn; [by rewrite <- Hr|].
  rewrite revs_S. unfold ai_revision in Hr. rewrite Hr. f_equal.
  by replace (r + 1 - 1) with r by lia.
Qed.

Lemma at_revision_undo r k a a' :
  at_revision r (S k) a -> ai_undo a = (a', Ok tt) -> at_revision (r - 1) k a'.
Proof.
  intros Ha. pose proof (at_revision_length _ _ _ Ha) as Hl. destruct Ha as [Hr Hs].
  destruct (stack (ai_index a)) as [|u us] eqn:E; [done|].
  unfold ai_undo. destruct (undo (ai_index a)) as [g res] eqn:Eu. intros [= <- ->].
  destruct (undo_ok u us _ _ E Eu) as (c1 & c2 & c3 & _ & _ & _ & ->).
  rewrite revs_S in Hs. injection Hs as _ Hs. split; cbn; [|done].
  unfold ai_revision in Hr. by rewrite Hr.
Qed.

Lemma at_revision_squash r k a :
  at_revision r (S (S k)) a -> at_revision (r - 1) (S k) (ai_squash a).
Proof.
  intros Ha. pose proof (at_revision_length _ _ _ Ha) as Hl. destruct Ha as [Hr Hs].
  unfold ai_squash, squash, at_revision, ai_revision in *. cbn in *.
  destruct (stack (ai_index a)) as [|u [|u1 us]] eqn:E; [done..|]. cbn in *.
  rewrite !revs_S in *. injection Hs as Hu Hu1 Hs.
  rewrite (proj2 (squash_old_next _ _)), Hr, Hu1, Hs. done.
Qed.

Lemma at_revision_squash_last r a : at_revision r 1 a -> at_revision r 0 (ai_squash a).
Proof.
  intros Ha. pose proof (at_revision_length _ _ _ Ha) as Hl. destruct Ha as [Hr Hs].
  unfold ai_squash, squash, at_revision, ai_revision in *. cbn in *.
  destruct (stack (ai_index a)) as [|u [|u1 us]] eqn:E; done.
Qed.

Lemma revs_take r k j : take j (revs r k) = revs r (min j k).
Proof. unfold revs. by rewrite <- fmap_take, take_seq. Qed.

Lemma at_revision_commit r k r' a :
  at_revision r k a -> at_revision r (min (Z.to_nat (r - r')) k) (ai_commit r' a).
Proof.
  intros Ha. pose proof (at_revision_length _ _ _ Ha) as Hl. destruct Ha as [Hr Hs].
  split; cbn; [done|]. rewrite (commit_stack_take _ r) by (by rewrite Hl).
  rewrite fmap_take, Hs. apply revs_take.
Qed.

(** Edits of the objects of one index, whether they return or throw, keep its
    revisions. *)
Definition is_edit {V} (o : @op V) : bool :=
  match o with OpCreate _ | OpModify _ _ | OpRemove _ => true | _ => false end.

Lemma edit_revisions {V C} `{MultiIndex V C} (o : op) (g g' : generic_index V C) r :
  is_edit o = true -> run_op o g = (g', r) ->
  revision g' = revision g /\ us_revision <$> stack g' = us_revision <$> stack g
  /\ tail (stack g') = tail (stack g).
Proof.
  destruct o; try done; intros _; cbn.
  - unfold mbind, St_bind, emplace. destruct (mi_emplace _ _); [|by intros [= <- <-]].
    intros [= <- <-]. unfold on_create. cbn. by destruct (stack g) eqn:E; rewrite ?E.
  - unfold modify. destruct (mi_find _ _) as [v|]; [|by intros [= <- <-]].
    destruct (mi_modify _ _ _) as [c ok]. intros [= <- <-]. cbn. unfold on_modify.
    destruct (stack g) as [|u us] eqn:E; cbn; rewrite ?E; [done|]. split_and!; try done. cbn. f_equal.
    unfold on_modify_state. case_decide; [done|]. by destruct (old_values u !! mi_id v).
  - unfold remove. destruct (mi_find _ _) as [v|]; [|by intros [= <- <-]].
    intros [= <- <-]. cbn. unfold on_remove.
    destruct (stack g) as [|u us] eqn:E; cbn; rewrite ?E; [done|]. split_and!; try done. cbn. f_equal.
    unfold on_remove_state. case_decide; [done|]. destruct (old_values u !! mi_id v); [done|].
    by destruct (removed_values u !! mi_id v).
Qed.

(** *** The indices of a database stay in step *)
Lemma each_index_ok {A} (f : any_index -> any_index * result A) db db' xs :
  each_index f db = (db', Ok xs) -> Forall2 (fun a a' => exists x, f a = (a', Ok x)) db db'.
Proof.
  revert db' xs. induction db as [|a db IH]; intros db' xs; cbn; [by intros [= <- _]; constructor|].
  destruct (f a) as [a' [x|e]] eqn:E; [|done].
  destruct (each_index f db) as [l' [ys|e]] eqn:El; [|done].
  intros [= <- _]. constructor; eauto.
Qed.

Lemma lockstep_each {A} (f : any_index -> any_index * result A) r k r' k' db db' xs :
  (forall a a' x, at_revision r k a -> f a = (a', Ok x) -> at_revision r' k' a') ->
  lockstep r k db -> each_index f db = (db', Ok xs) -> lockstep r' k' db'.
Proof.
  intros Hf Hl He%each_index_ok. unfold lockstep in *.
  induction He as [|a a' db db' [x Hx] He IH]; [constructor|].
  apply Forall_cons in Hl as [Ha Hl]. constructor; eauto.
Qed.

Lemma at_revision_undo_all r k a a' :
  at_revision r k a -> ai_undo_all a = (a', Ok tt) -> at_revision (r - Z.of_nat k) 0 a'.
Proof.
  intros Ha. pose proof (at_revision_length _ _ _ Ha) as Hl.
  unfold ai_undo_all, undo_all. rewrite Hl. clear Hl.
  destruct (undo_all_fuel k (ai_index a)) as [g res] eqn:Eu. intros [= <- ->].
  revert r a g Ha Eu. induction k as [|k IH]; intros r a g Ha; cbn.
  - intros [= <-]. replace (r - Z.of_nat 0) with r by lia. by destruct a.
  - pose proof (at_revision_length _ _ _ Ha) as Hl. unfold enabled.
    destruct (stack (ai_index a)) eqn:Es; [done|]. rewrite St_bind_ok. intros ([] & g1 & Hu & Hg).
    replace (r - Z.of_nat (S k)) with (r - 1 - Z.of_nat k) by lia.
    apply (IH (r - 1) (ai_set a g1)); [|done].
    eapply at_revision_undo; [done|]. unfold ai_undo. by rewrite Hu.
Qed.

Lemma lockstep_undo r k db db' :
  lockstep r k db -> db_undo db = (db', Ok tt) -> exists r' k', lockstep r' k' db'.
Proof.
  intros Hl. unfold db_undo. destruct (each_index ai_undo db) as [l [xs|e]] eqn:E; [|done].
  intros [= <-]. destruct k as [|k].
  - exists r, 0%nat. eapply lockstep_each; [|exact Hl|exact E].
    intros a a' [] Ha Hu. pose proof (at_revision_length _ _ _ Ha) as Hlen.
    unfold ai_undo, undo in Hu. destruct (stack (ai_index a)) eqn:Es; [|done].
    injection Hu as <-. by destruct a.
  - exists (r - 1), k. eapply lockstep_each; [|exact Hl|exact E].
    intros a a' []. apply at_revision_undo.
Qed.

Lemma lockstep_squash r k db : lockstep r k db -> exists r' k', lockstep r' k' (db_squash db).
Proof.
  intros Hl. destruct k as [|[|k]].
  - exists r, 0%nat. apply Forall_fmap. eapply Forall_impl; [exact Hl|].
    intros a Ha. pose proof (at_revision_length _ _ _ Ha) as Hlen. cbn.
    unfold ai_squash, squash. destruct (stack (ai_index a)) eqn:Es; [|done]. by destruct a.
  - exists r, 0%nat. apply Forall_fmap. eapply Forall_impl; [exact Hl|].
    intros a. apply at_revision_squash_last.
  - exists (r - 1), (S k). apply Forall_fmap. eapply Forall_impl; [exact Hl|].
    intros a. apply at_revision_squash.
Qed.

(** One call on a database: a session is opened, undone, squashed or committed
    on all indices, all sessions are undone, or one index is edited. *)
Inductive db_step : database -> database -> Prop :=
| step_start db db' s : db_start_undo_session true db = (db', Ok s) -> db_step db db'
| step_undo db db' : db_undo db = (db', Ok tt) -> db_step db db'
| step_squash db : db_step db (db_squash db)
| step_commit r db : db_step db (db_commit r db)
| step_undo_all db db' : db_undo_all db = (db', Ok tt) -> db_step db db'
| step_edit l1 a l2 o g res :
    is_edit o = true -> @run_op _ _ (ai_mi a) o (ai_index a) = (g, res) ->
    db_step (l1 ++ a :: l2) (l1 ++ ai_set a g :: l2).

Lemma lockstep_step db db' r k : lockstep r k db -> db_step db db' -> exists r' k', lockstep r' k' db'.
Proof.
  intros Hl Hs. destruct Hs as [db db' s H|db db' H|db|r' db|db db' H|l1 a l2 o g res Ho H].
  - unfold db_start_undo_session in H.
    destruct (each_index _ db) as [l [xs|e]] eqn:E; [|done]. injection H as <- _.
    exists (r + 1), (S k). eapply lockstep_each; [|exact Hl|exact E]. intros. by eapply at_revision_start.
  - by eapply lockstep_undo.
  - by eapply lockstep_squash.
  - eexists r, _. apply Forall_fmap. eapply Forall_impl; [exact Hl|]. intros a. apply at_revision_commit.
  - unfold db_undo_all in H. destruct (each_index ai_undo_all db) as [l [xs|e]] eqn:E; [|done].
    injection H as <-. exists (r - Z.of_nat k), 0%nat. eapply lockstep_each; [|exact Hl|exact E].
    intros b b' []. apply at_revision_undo_all.
  - exists r, k. apply Forall_app in Hl as [H1 [[Ha1 Ha2] H2]%Forall_cons]. apply Forall_app.
    split; [done|]. constructor; [|done].
    destruct (edit_revisions (H := ai_mi a) o _ _ _ Ho H) as (Hr & Hst & _).
    split; [unfold ai_revision in *; cbn; congruence|cbn; congruence].
Qed.

(** ** A container

    Objects with an id and one more unique key, in a finite map: an instance of
    the interface, on which the definitions above compute. *)
Record keyed := Keyed { k_id : Z; k_key : Z; k_val : Z }.

(** Another object of the container has the key of [v]. *)
Definition key_taken (c : gmap Z (Z * Z)) (v : keyed) : bool :=
  existsb (fun p => negb (p.1 =? k_id v) && (p.2.1 =? k_key v)) (map_to_list c).

#[export] Instance keyed_index : MultiIndex keyed (gmap Z (Z * Z)) := {
  mi_id := k_id;
  mi_empty := ∅;
  mi_find c i := (fun p => Keyed i p.1 p.2) <$> c !! i;
  mi_emplace c v :=
    match c !! k_id v with
    | Some _ => None
    | None => if key_taken c v then None else Some (<[k_id v := (k_key v, k_val v)]> c)
    end;
  mi_modify c i v :=
    if key_taken c v then (delete i c, false) else (<[i := (k_key v, k_val v)]> c, true);
  mi_erase c i := delete i c
}.

Lemma key_taken_false c v :
  (forall i w, i <> k_id v -> mi_find c i = Some w -> k_key v <> k_key w) -> key_taken c v = false.
Proof.
  intros Hno. apply not_true_iff_false. intros ([i [k x]] & Hin & Hk)%existsb_exists. bool_to_prop.
  apply list_elem_of_In, elem_of_map_to_list in Hin. cbn in *.
  apply (Hno i (Keyed i k x)); [done|by rewrite Hin|done].
Qed.

#[export] Program Instance keyed_laws : MultiIndexLaws keyed (gmap Z (Z * Z)) := {
  mi_clash v w := k_key v = k_key w
}.
Next Obligation. intros c i v. cbn. destruct (c !! i); [by intros [= <-]|done]. Qed.
Next Obligation. intros i. cbn. by rewrite lookup_empty. Qed.
Next Obligation. intros c v c'. cbn. by destruct (c !! k_id v). Qed.
Next Obligation.
  intros c [vi vk vx] c' i. cbn. destruct (c !! vi); [done|].
  destruct (key_taken _ _); [done|]. intros [= <-]. rewrite lookup_insert.
  repeat case_decide; naive_solver.
Qed.
Next Obligation.
  intros c v. cbn. destruct (c !! k_id v); [done|]. intros _ Hno.
  rewrite key_taken_false; [eauto|]. intros i w _ Hw Hk. by apply (Hno i w).
Qed.
Next Obligation.
  intros c i [vi vk vx] c' j. cbn. intros <-. destruct (key_taken _ _); [done|]. intros [= <-].
  rewrite lookup_insert. repeat case_decide; naive_solver.
Qed.
Next Obligation.
  intros c i v c' j. cbn. intros <-. destruct (key_taken _ _); [|done]. intros [= <-].
  rewrite lookup_delete. repeat case_decide; naive_solver.
Qed.
Next Obligation.
  intros c i v. cbn. intros <- _ Hno. rewrite key_taken_false; [done|]. intros j w ? Hw Hk.
  by apply (Hno j w).
Qed.
Next Obligation.
  intros c i j. cbn. rewrite lookup_delete. repeat case_decide; naive_solver.
Qed.

(** ** Properties *)

(** C6 [index_history_refines]: run any sequence of creations, modifications,
    removals, session starts, undos, squashes, commits and undo_alls on a fresh
    index; if no call throws, the index holds exactly the objects, the next id,
    the revision and the number of undo states that the snapshot store of [Spec]
    computes for the same sequence. The undo states record only differences;
    this is what makes them equivalent to full copies of the state. The store follows
    the code where a single undo state is squashed: the state is dropped and the
    revision stays, while the comment on [squash] says that the call always reduces
    the revision. *)
Theorem index_history_refines {V C} `{MultiIndexLaws V C} (ops : list op) (g : generic_index V C) :
  Forall wf_op ops -> for_each run_op ops index_init = (g, Ok tt) ->
  let s := foldl (fun s o => spec_op o s) spec_init ops in
  (forall i, find i g = sp_cur s !! i) /\ next_id g = sp_next s /\ revision g = sp_rev s /\
  length (stack g) = length (sp_snaps s).
Proof.
  intros Hwf Hrun. cbn.
  assert (refines g (foldl (fun s o => spec_op o s) spec_init ops)) as Hr.
  { revert Hwf Hrun. generalize (@index_init V C _), (@spec_init V), (refines_init (C := C)).
    induction ops as [|o ops IH]; intros g0 s0 Hr0 Hwf; cbn; [by intros [= ->]|].
    rewrite St_bind_ok. intros ([] & g1 & Ho & Hrest). apply Forall_cons in Hwf as [Hw Hwf].
    eapply IH; [by eapply refines_op|done|done]. }
  pose proof (refines_length _ _ Hr). by destruct Hr as [Hc ????].
Qed.

Definition bump (d : Z) (v : keyed) : keyed := Keyed (k_id v) (k_key v) (k_val v + d).
Definition rekey (k : Z) (v : keyed) : keyed := Keyed (k_id v) k (k_val v).
Definition sample_history : list (@op keyed) :=
  [OpCreate (fun i => Keyed i 10 0); OpStart; OpModify 0 (bump 5);
   OpCreate (fun i => Keyed i 11 7); OpStart; OpRemove 0; OpCreate (fun i => Keyed i 12 8);
   OpSquash; OpUndo].

Lemma index_history_refines_witness :
  exists g : generic_index keyed (gmap Z (Z * Z)),
    for_each run_op sample_history index_init = (g, Ok tt) /\ find 0 g = Some (Keyed 0 10 0) /\
    next_id g = 1.
Proof.
  eexists. split; [vm_compute; reflexivity|].
  destruct (index_history_refines sample_history
    (for_each run_op sample_history (index_init (C := gmap Z (Z * Z)))).1)
    as (Hf & Hn & _ & _).
  - repeat constructor.
  - vm_compute. reflexivity.
  - split; [exact (Hf 0)|exact Hn].
Defined.

(** No object of one state competes with an object of the other, or of the same
    state, for a unique key. *)
Definition index_compatible {V C} `{MultiIndexLaws V C} (g g' : generic_index V C) : Prop :=
  forall i j v w, i <> j -> find i g = Some v \/ find i g' = Some v ->
    find j g = Some w \/ find j g' = Some w -> ~ mi_clash v w.

Lemma run_edits {V C} `{MultiIndexLaws V C} (body : list op) (g g' : generic_index V C) s :
  Forall wf_op body -> Forall (fun o => is_edit o = true) body -> refines g s ->
  for_each run_op body g = (g', Ok tt) ->
  tail (stack g') = tail (stack g) /\ length (stack g') = length (stack g) /\
  revision g' = revision g /\
  exists s', refines g' s' /\ sp_snaps s' = sp_snaps s /\ sp_rev s' = sp_rev s.
Proof.
  revert g s. induction body as [|o body IH]; intros g s Hwf Hed Hr; cbn.
  { intros [= <-]. split_and!; try done. exists s. done. }
  rewrite St_bind_ok. intros ([] & g1 & Ho & Hrest).
  apply Forall_cons in Hwf as [Hw Hwf]. apply Forall_cons in Hed as [He Hed].
  destruct (edit_revisions o g g1 _ He Ho) as (Hrev & Hrs & Htl).
  apply (f_equal length) in Hrs. rewrite !length_fmap in Hrs.
  destruct (IH g1 (spec_op o s) Hwf Hed) as (? & ? & ? & s' & ? & Hsn & Hsr);
    [by eapply refines_op|done|].
  split_and!; try congruence. exists s'. rewrite Hsn, Hsr. by destruct o.
Qed.

(** C38 [undo_restores_session]: in any state an index can reach, open a session,
    create, modify and remove objects at will, and call [undo]: if the objects
    before and after do not compete for the unique keys of the container, [undo]
    returns without throwing and the index is exactly as it was, objects, next
    id, revision and older undo states. *)
Theorem undo_restores_session {V C} `{MultiIndexLaws V C} (h body : list op)
    (g g1 : generic_index V C) :
  Forall wf_op h -> Forall wf_op body -> Forall (fun o => is_edit o = true) body ->
  for_each run_op h index_init = (g, Ok tt) ->
  for_each run_op (OpStart :: body) g = (g1, Ok tt) ->
  index_compatible g g1 ->
  exists g2, undo g1 = (g2, Ok tt) /\ (forall i, find i g2 = find i g) /\
    next_id g2 = next_id g /\ revision g2 = revision g /\ stack g2 = stack g.
Proof.
  intros Hwfh Hwfb Hed Hh Hb Hcomp.
  assert (exists s, refines g s) as [s Hr].
  { revert Hwfh Hh. generalize (@index_init V C _), (@spec_init V), (refines_init (C := C)).
    induction h as [|o h IH]; intros g0 s0 Hr0 Hwf; cbn; [intros [= ->]; eauto|].
    rewrite St_bind_ok. intros ([] & g0' & Ho & Hrest). apply Forall_cons in Hwf as [Hw Hwf].
    eapply IH; [by eapply refines_op|done|done]. }
  cbn in Hb. rewrite !St_bind_ok in Hb. destruct Hb as ([] & g0 & Hst & Hb).
  rewrite St_bind_ok in Hst. destruct Hst as (ss & g0' & Hst & [= ->]).
  pose proof (refines_start _ _ _ _ Hr Hst) as Hr0.
  destruct (run_edits body g0 g1 (spec_start s) Hwfb Hed Hr0 Hb)
    as (Htl & Hlen & Hrv & s1 & Hr1 & Hsn & Hrv1).
  injection Hst as <- _. cbn in *.
  destruct (stack g1) as [|u us] eqn:Es; [done|].
  destruct (undo_total g1 s1 u us (sp_cur s) (sp_next s) (sp_snaps s)) as [g2 Hu]; [done..| |].
  { intros i j v w Hij Hv Hw.
    rewrite <- !(rf_cur _ _ Hr), <- !(rf_cur _ _ Hr1) in *. by eapply (Hcomp i j). }
  exists g2. split; [done|]. pose proof (refines_undo _ _ _ Hr1 Hu) as [Hc2 Hn2 Hr2 _ _].
  unfold spec_undo in *. rewrite Hsn in *. cbn in *.
  destruct (undo_ok u us _ _ Es Hu) as (c1 & c2 & c3 & _ & _ & _ & ->). cbn in *.
  split_and!; [|by rewrite (rf_next _ _ Hr)|rewrite (rf_rev _ _ Hr); lia|done].
  intros i. unfold find. by rewrite Hc2, (rf_cur _ _ Hr).
Qed.

Lemma undo_restores_session_witness :
  exists g1 g2 : generic_index keyed (gmap Z (Z * Z)),
    for_each run_op [OpCreate (fun i => Keyed i 10 0); OpStart; OpModify 0 (bump 5);
      OpCreate (fun i => Keyed i 11 7); OpRemove 0] index_init = (g1, Ok tt) /\
    undo g1 = (g2, Ok tt) /\ find 0 g2 = Some (Keyed 0 10 0).
Proof.
  set (run l g := (for_each run_op l g : generic_index keyed (gmap Z (Z * Z)) * _).1).
  set (g := run [OpCreate (fun i => Keyed i 10 0)] index_init).
  set (body := [OpModify 0 (bump 5); OpCreate (fun i => Keyed i 11 7); OpRemove 0]).
  set (g1 := run (OpStart :: body) g).
  destruct (undo_restores_session [OpCreate (fun i => Keyed i 10 0)] body g g1)
    as (g2 & Hu & Hf & _).
  - repeat constructor.
  - repeat constructor.
  - repeat constructor.
  - vm_compute. reflexivity.
  - vm_compute. reflexivity.
  - assert (Hg : forall i v, find i g = Some v -> i = 0 /\ k_key v = 10).
    { intros i v. unfold find.
      replace (indices g) with ({[0 := (10, 0)]} : gmap Z (Z * Z)) by (vm_compute; reflexivity).
      unfold mi_find, keyed_index. rewrite lookup_singleton. case_decide; [by intros [= <-]|done]. }
    assert (Hg1 : forall i v, find i g1 = Some v -> i = 1 /\ k_key v = 11).
    { intros i v. unfold find.
      replace (indices g1) with ({[1 := (11, 7)]} : gmap Z (Z * Z)) by (vm_compute; reflexivity).
      unfold mi_find, keyed_index. rewrite lookup_singleton. case_decide; [by intros [= <-]|done]. }
    intros i j v w Hij [[-> Hv]%Hg|[-> Hv]%Hg1] [[-> Hw]%Hg|[-> Hw]%Hg1]; cbn; congruence || lia.
  - exists g1, g2. split; [vm_compute; reflexivity|]. split; [done|].
    rewrite Hf. vm_compute. reflexivity.
Defined.

(** [db_indices_in_step]: start from indices that are all at one revision
    with no undo state, and call the database in any way that returns (open,
    undo, squash, commit or undo all sessions, edit one index): all indices are
    again at one revision and hold undo states for the same, consecutive,
    revisions. So one revision number identifies the state of the whole
    database, as [database::revision] assumes when it asks the first index. *)
Theorem db_indices_in_step r db db' :
  lockstep r 0 db -> rtc db_step db db' -> exists r' k', lockstep r' k' db'.
Proof.
  intros Hl Hs. cut (exists r' k', lockstep r' k' db); [|eauto].
  clear Hl. induction Hs as [db|db1 db2 db3 Hs _ IH]; intros (r' & k & Hl); [eauto|].
  apply IH. by eapply lockstep_step.
Qed.

Definition two_indices : database :=
  [AnyIndex 1 keyed _ keyed_index index_init; AnyIndex 2 keyed _ keyed_index index_init].

Lemma db_indices_in_step_witness :
  exists db', rtc db_step two_indices db' /\ exists r k, lockstep r k db'.
Proof.
  exists (db_start_undo_session true two_indices).1.
  assert (rtc db_step two_indices (db_start_undo_session true two_indices).1) as Hs.
  { eapply rtc_once, step_start. vm_compute. reflexivity. }
  split; [exact Hs|]. apply (db_indices_in_step 0 two_indices); [|exact Hs].
  repeat constructor.
Defined.

(** The compatibility condition of
    [undo_restores_session] cannot be dropped. Within one session give object 0
    another value of a unique key and let a new object take the old value. Every
    call returns, but [undo] restores old values before it erases new objects, so
    it throws, and the container has by then dropped object 0. *)
Theorem undo_throws_on_reused_key :
  exists g1 g2 : generic_index keyed (gmap Z (Z * Z)),
    for_each run_op [OpCreate (fun i => Keyed i 10 0); OpStart; OpModify 0 (rekey 20);
      OpCreate (fun i => Keyed i 10 1)] index_init = (g1, Ok tt) /\
    undo g1 = (g2, Throw logic_error) /\ is_Some (find 0 g1) /\ find 0 g2 = None /\
    length (stack g2) = 1%nat.
Proof. do 2 eexists. repeat split; try (vm_compute; reflexivity). eexists. vm_compute. reflexivity. Qed.

(** A session opened on a database with at least
    one index reports revision 0, whatever the revision the database moves to:
    the sub-sessions reach the session by the move constructor of
    [generic_index::session], which does not copy [_revision]. *)
Theorem db_session_revision_lost a (db : database) :
  exists db' ss, db_start_undo_session true (a :: db) = (db', Ok (DbSession ss 0)) /\
    db_revision db' = db_revision (a :: db) + 1.
Proof.
  assert (exists l ss, each_index (ai_start_undo_session true) db = (l, Ok ss)) as (l & ss & E).
  { induction db as [|b db IH]; [by eexists _, _|].
    destruct IH as (l & ss & E). cbn. rewrite E. by eexists _, _. }
  unfold db_start_undo_session. cbn. rewrite E. by eexists _, _.
Qed.

(** Squashing the only session empties the stack and keeps the revision number,
    where squashing onto an older session lowers it. *)
Lemma squash_only_session {V C} `{MultiIndex V C} (g : generic_index V C) u :
  stack g = [u] -> revision (squash g) = revision g /\ stack (squash g) = [].
Proof. intros E. unfold squash. by rewrite E. Qed.
