(* ===== verification/Merkle.v ===== *)
(** * Merkle trees

    Model of [libraries/chain/merkle.cpp] (the root of a list of digests, computed
    level by level in place) and of
    [libraries/chain/include/besio/chain/incremental_merkle.hpp] (a tree that
    grows by appending and keeps only the nodes it needs).  The main theorem says
    that the two compute the same root for every sequence of leaves. *)
From S2P Require Import Prelude.

(** [fc::sha256] as its array [_hash] of four 64-bit words. *)
Record digest := Digest { hash0 : Z; hash1 : Z; hash2 : Z; hash3 : Z }.
#[global] Instance digest_eq_dec : EqDecision digest.
Proof. solve_decision. Defined.

Definition digest_nil : digest := Digest 0 0 0 0.

Definition make_canonical_left (val : digest) : digest :=
  Digest (Z.land (hash0 val) 0xFFFFFFFFFFFFFF7F) (hash1 val) (hash2 val) (hash3 val).
Definition make_canonical_right (val : digest) : digest :=
  Digest (Z.lor (hash0 val) 0x0000000000000080) (hash1 val) (hash2 val) (hash3 val).
Definition is_canonical_left (val : digest) : bool :=
  Z.land (hash0 val) 0x0000000000000080 =? 0.
Definition is_canonical_right (val : digest) : bool :=
  negb (Z.land (hash0 val) 0x0000000000000080 =? 0).
Definition make_canonical_pair (l r : digest) : digest * digest :=
  (make_canonical_left l, make_canonical_right r).

(** ** Bit tricks *)
Definition next_power_of_2 (value : Z) : Z :=
  let value := u64 (value - 1) in
  let value := Z.lor value (Z.shiftr value 1) in
  let value := Z.lor value (Z.shiftr value 2) in
  let value := Z.lor value (Z.shiftr value 4) in
  let value := Z.lor value (Z.shiftr value 8) in
  let value := Z.lor value (Z.shiftr value 16) in
  let value := Z.lor value (Z.shiftr value 32) in
  u64 (value + 1).

Definition clz_power_2 (value : Z) : Z :=
  let test mask lz d := if Z.land value mask =? 0 then lz else lz - d in
  let lz := 64 in
  let lz := if value =? 0 then lz else lz - 1 in
  let lz := test 0x00000000FFFFFFFF lz 32 in
  let lz := test 0x0000FFFF0000FFFF lz 16 in
  let lz := test 0x00FF00FF00FF00FF lz 8 in
  let lz := test 0x0F0F0F0F0F0F0F0F lz 4 in
  let lz := test 0x3333333333333333 lz 2 in
  test 0x5555555555555555 lz 1.

Definition calcluate_max_depth (node_count : Z) : Z :=
  if node_count =? 0 then 0 else clz_power_2 (next_power_of_2 node_count) + 1.

Section merkle.
(** [digest_type::hash] of a pair of digests. *)
Variable hash : digest * digest -> digest.

(** ** merkle *)
(** [ids[i]] where [i] is an expression of type [int]: undefined behaviour when
    the expression overflows or the index is out of range. *)
Definition at_ (ids : list digest) (i : nat) : result digest :=
  if Z.of_nat i <? 2 ^ 31 then of_option undefined_behaviour (ids !! i)
  else Throw undefined_behaviour.

(** [for( int i = 0; i < ids.size() / 2; i++ ) ids[i] = hash( pair( ids[2i], ids[2i+1] ) )],
    with [k] iterations left. *)
Fixpoint merkle_level (k i : nat) (ids : list digest) : result (list digest) :=
  match k with
  | O => Ok ids
  | S k =>
      l ← at_ ids (2 * i);
      r ← at_ ids (2 * i + 1);
      merkle_level k (S i) (<[i := hash (make_canonical_pair l r)]> ids)
  end.

(** One iteration of the outer loop. *)
Definition merkle_step (ids : list digest) : result (list digest) :=
  ids ← (if Nat.odd (length ids)
         then b ← of_option undefined_behaviour (last ids); mret (ids ++ [b])
         else mret ids);
  ids' ← merkle_level (length ids / 2) 0 ids;
  mret (take (length ids / 2) ids').

Fixpoint merkle_loop (fuel : nat) (ids : list digest) : result digest :=
  match fuel with
  | O => Throw undefined_behaviour
  | S fuel =>
      if (1 <? length ids)%nat then ids ← merkle_step ids; merkle_loop fuel ids
      else of_option undefined_behaviour (head ids)
  end.

(** The list halves (rounding up) in every iteration, so its length bounds
    the number of iterations. *)
Definition merkle (ids : list digest) : result digest :=
  match ids with [] => Ok digest_nil | _ => merkle_loop (S (length ids)) ids end.

(** ** incremental_merkle_impl *)
Record incremental_merkle := IncrementalMerkle {
  node_count : Z;
  active_nodes : list digest
}.

Definition incremental_init : incremental_merkle := IncrementalMerkle 0 [].

(** The loop of [append]: [current_depth] counts down, [active] is what
    [active_iter] has not read yet. *)
Fixpoint append_loop (current_depth : nat) (index : Z) (top : digest) (partial : bool)
    (active updated : list digest) : result (digest * list digest) :=
  match current_depth with
  | O => Ok (top, updated)
  | S depth =>
      if Z.land index 1 =? 0 then
        append_loop depth (Z.shiftr index 1) (hash (make_canonical_pair top top)) true active
          (if partial then updated else updated ++ [top])
      else
        match active with
        | [] => Throw undefined_behaviour
        | left_value :: active =>
            append_loop depth (Z.shiftr index 1) (hash (make_canonical_pair left_value top))
              partial active (if partial then updated ++ [left_value] else updated)
        end
  end.

Definition append (t : incremental_merkle) (d : digest) : result (incremental_merkle * digest) :=
  let max_depth := calcluate_max_depth (u64 (node_count t + 1)) in
  '(top, updated) ← append_loop (Z.to_nat (max_depth - 1)) (node_count t) d false
                      (active_nodes t) [];
  let updated := updated ++ [top] in
  root ← of_option undefined_behaviour (last updated);
  mret (IncrementalMerkle (u64 (node_count t + 1)) updated, root).

Definition get_root (t : incremental_merkle) : result digest :=
  if 0 <? node_count t then of_option undefined_behaviour (last (active_nodes t))
  else Ok digest_nil.

Fixpoint append_all (t : incremental_merkle) (leaves : list digest) : result incremental_merkle :=
  match leaves with
  | [] => Ok t
  | d :: leaves => '(t, _) ← append t d; append_all t leaves
  end.

End merkle.

(** ** The bit tricks compute a logarithm *)

(** Bit [i] of [y] says whether one of the [w] bits of [x] from [i] on is set. *)
Definition smeared (w : Z) (x y : Z) : Prop := forall i, 0 <= i ->
  Z.testbit y i = true <-> exists d, 0 <= d < w /\ Z.testbit x (i + d) = true.

Lemma smeared_1 x : smeared 1 x x.
Proof.
  intros i Hi. split.
  - intros H. exists 0. by rewrite Z.add_0_r.
  - intros (d & ? & H). by replace d with 0 in H by lia; rewrite Z.add_0_r in H.
Qed.

Lemma smeared_double w x y : 0 < w -> smeared w x y -> smeared (2 * w) x (Z.lor y (Z.shiftr y w)).
Proof.
  intros Hw Hs i Hi. rewrite Z.lor_spec, Z.shiftr_spec, orb_true_iff by lia.
  rewrite (Hs i), (Hs (i + w)) by lia. split.
  - intros [(d & ? & ?)|(d & ? & ?)]; [exists d|exists (w + d)]; split; try lia; [done|].
    by rewrite Z.add_assoc.
  - intros (d & ? & H). destruct (decide (d < w)); [left; exists d; split; [lia|done]|].
    right. exists (d - w). split; [lia|]. by replace (i + w + (d - w)) with (i + d) by lia.
Qed.

Lemma smeared_ones x y : 0 < x < 2 ^ 64 -> smeared 64 x y -> 0 <= y -> y = Z.ones (Z.log2 x + 1).
Proof.
  intros Hx Hs Hy. assert (0 <= Z.log2 x < 64).
  { split; [apply Z.log2_nonneg|]. apply Z.log2_lt_pow2; lia. }
  apply Z.bits_inj'. intros i Hi. apply eq_true_iff_eq. rewrite (Hs i Hi).
  destruct (decide (i <= Z.log2 x)).
  - rewrite Z.ones_spec_low by lia. split; [done|]. intros _. exists (Z.log2 x - i). split; [lia|].
    replace (i + (Z.log2 x - i)) with (Z.log2 x) by lia. apply Z.bit_log2. lia.
  - rewrite Z.ones_spec_high by lia. split; [|done]. intros (d & ? & Hd).
    rewrite Z.bits_above_log2 in Hd by lia. done.
Qed.

Lemma lor_shiftr_nonneg y k : 0 <= y -> 0 <= Z.lor y (Z.shiftr y k).
Proof. intros. apply Z.lor_nonneg. split; [done|]. by apply Z.shiftr_nonneg. Qed.

Lemma next_power_of_2_correct v : 1 <= v <= 2 ^ 63 -> next_power_of_2 v = 2 ^ Z.log2_up v.
Proof.
  intros Hv. unfold next_power_of_2. rewrite (u64_small (v - 1)) by lia.
  destruct (decide (v = 1)) as [->|Hv1]; [done|].
  match goal with |- u64 (?y + 1) = _ => assert (y = Z.ones (Z.log2 (v - 1) + 1)) as -> end.
  { apply smeared_ones; [lia| |].
    - do 6 (match goal with |- smeared ?w _ (Z.lor _ (Z.shiftr _ ?k)) =>
        change w with (2 * k); apply smeared_double; [lia|] end). apply smeared_1.
    - repeat apply lor_shiftr_nonneg. lia. }
  rewrite Z.log2_up_eqn by lia. rewrite <- Z.sub_1_r, Z.ones_equiv, <- Z.add_1_r.
  assert (Z.log2 (v - 1) < 63) by (apply Z.log2_lt_pow2; lia).
  pose proof (Z.log2_nonneg (v - 1)).
  assert (0 < 2 ^ (Z.log2 (v - 1) + 1) <= 2 ^ 63).
  { split; [apply Z.pow_pos_nonneg; lia|]. apply Z.pow_le_mono_r; lia. }
  rewrite u64_small; lia.
Qed.

Lemma clz_power_2_correct k : 0 <= k < 64 -> clz_power_2 (2 ^ k) = k.
Proof.
  intros Hk. assert (forallb (fun k => clz_power_2 (2 ^ k) =? k) (seqZ 0 64) = true) as H
    by (vm_compute; reflexivity).
  rewrite forallb_forall in H. apply Z.eqb_eq, H, list_elem_of_In, elem_of_seqZ. lia.
Qed.

Lemma calcluate_max_depth_correct n :
  1 <= n <= 2 ^ 63 -> calcluate_max_depth n = Z.log2_up n + 1.
Proof.
  intros Hn. unfold calcluate_max_depth. rewrite (proj2 (Z.eqb_neq n 0)) by lia.
  rewrite next_power_of_2_correct, clz_power_2_correct; try lia. split; [apply Z.log2_up_nonneg|].
  destruct (decide (n = 1)) as [->|]; [done|]. rewrite Z.log2_up_eqn by lia.
  assert (Z.log2 (Z.pred n) < 63) by (apply Z.log2_lt_pow2; lia). lia.
Qed.

(** ** Levels of the tree *)
Section levels.
Variable hash : digest * digest -> digest.
Implicit Types (l ids : list digest).

Definition node (a b : digest) : digest := hash (make_canonical_pair a b).

(** The level above [l]: neighbours are paired, a last node without a
    neighbour is paired with itself. *)
Fixpoint pair_up (l : list digest) : list digest :=
  match l with
  | a :: b :: l => node a b :: pair_up l
  | [a] => [node a a]
  | [] => []
  end.

Fixpoint level (k : nat) (l : list digest) : list digest :=
  match k with O => l | S k => pair_up (level k l) end.

Lemma list_pair_ind (P : list digest -> Prop) :
  P [] -> (forall a, P [a]) -> (forall a b l, P l -> P (a :: b :: l)) -> forall l, P l.
Proof.
  intros H0 H1 H2. fix IH 1. intros [|a [|b l]]; [done|apply H1|]. apply H2, IH.
Qed.

Lemma pair_up_length l : length (pair_up l) = ((length l + 1) / 2)%nat.
Proof.
  induction l as [| |a b l IH] using list_pair_ind; [done..|]. cbn [pair_up length]. rewrite IH.
  replace (S (S (length l)) + 1)%nat with (length l + 1 + 1 * 2)%nat by lia.
  rewrite Nat.div_add by lia. lia.
Qed.

Lemma pair_up_lookup l i a b :
  l !! (2 * i)%nat = Some a -> l !! (2 * i + 1)%nat = Some b -> pair_up l !! i = Some (node a b).
Proof.
  revert i. induction l as [|x|x y l IH] using list_pair_ind; intros i; [done| |].
  - destruct i; cbn; [done|]. replace (i + S (i + 0))%nat with (S (2 * i)) by lia. done.
  - destruct i; cbn [pair_up lookup list_lookup]; [by intros [= ->] [= ->]|].
    replace (2 * S i)%nat with (S (S (2 * i))) by lia.
    replace (S (S (2 * i)) + 1)%nat with (S (S (2 * i + 1))) by lia. apply IH.
Qed.

Lemma pair_up_lookup_last l i a :
  l !! (2 * i)%nat = Some a -> length l = (2 * i + 1)%nat -> pair_up l !! i = Some (node a a).
Proof.
  revert i. induction l as [|x|x y l IH] using list_pair_ind; intros i; [done| |].
  - destruct i; cbn; [by intros [= ->]|lia].
  - destruct i; [cbn; lia|]. cbn [pair_up lookup list_lookup length].
    replace (2 * S i)%nat with (S (S (2 * i))) by lia. intros. apply IH; [done|lia].
Qed.

Lemma pair_up_odd l b : Nat.odd (length l) = true -> last l = Some b -> pair_up (l ++ [b]) = pair_up l.
Proof.
  induction l as [|x|x y l IH] using list_pair_ind; [done|by intros _ [= ->]|].
  intros Ho Hl. cbn [app pair_up]. f_equal. apply IH; [done|].
  destruct l; [done|]. by rewrite <- Hl.
Qed.

(** The in-place loop reads each pair before it overwrites it; the indices fit an
    [int] as long as there are at most 2^31 nodes. *)
Lemma merkle_level_lookup k i ids :
  (2 * (i + k) <= length ids)%nat -> Z.of_nat (length ids) <= 2 ^ 31 ->
  exists ids', merkle_level hash k i ids = Ok ids' /\ length ids' = length ids /\
    (forall j, (j < i)%nat -> ids' !! j = ids !! j) /\
    (forall j a b, (i <= j < i + k)%nat -> ids !! (2 * j)%nat = Some a ->
       ids !! (2 * j + 1)%nat = Some b -> ids' !! j = Some (node a b)).
Proof.
  revert i ids. induction k as [|k IH]; intros i ids Hlen Hint.
  { exists ids. cbn. split_and!; try done. intros; lia. }
  destruct (lookup_lt_is_Some_2 ids (2 * i)) as [a Ha]; [lia|].
  destruct (lookup_lt_is_Some_2 ids (2 * i + 1)) as [b Hb]; [lia|].
  destruct (IH (S i) (<[i := node a b]> ids)) as (ids' & He & Hl & Hlo & Hhi).
  { rewrite length_insert. lia. }
  { by rewrite length_insert. }
  exists ids'. split.
  { cbn [merkle_level]. unfold at_. rewrite !(proj2 (Z.ltb_lt _ _)) by lia. rewrite Ha, Hb. exact He. }
  rewrite length_insert in Hl. split; [done|]. split.
  - intros j Hj. rewrite Hlo by lia. apply list_lookup_insert_ne. lia.
  - intros j x y Hj Hx Hy. destruct (decide (j = i)) as [->|].
    + rewrite Hlo by lia. rewrite list_lookup_insert_eq by lia. congruence.
    + apply Hhi; [lia|..]; rewrite list_lookup_insert_ne by lia; done.
Qed.

Lemma merkle_level_even ids : Nat.odd (length ids) = false -> Z.of_nat (length ids) <= 2 ^ 31 ->
  exists ids', merkle_level hash (length ids / 2) 0 ids = Ok ids' /\
    take (length ids / 2) ids' = pair_up ids.
Proof.
  intros He Hint. assert (length ids = 2 * (length ids / 2))%nat as Hn.
  { rewrite <- Nat.negb_even, negb_false_iff in He. apply Nat.even_spec in He as [m Hm].
    rewrite Hm, Nat.mul_comm, Nat.div_mul; lia. }
  destruct (merkle_level_lookup (length ids / 2) 0 ids) as (ids' & Hm & Hl & _ & Hhi); [lia|done|].
  exists ids'. split; [done|]. apply list_eq_same_length with (length ids / 2)%nat.
  { rewrite pair_up_length. lia. }
  { rewrite length_take. lia. }
  intros j x y Hj. rewrite lookup_take_lt by lia.
  destruct (lookup_lt_is_Some_2 ids (2 * j)) as [a Ha]; [lia|].
  destruct (lookup_lt_is_Some_2 ids (2 * j + 1)) as [b Hb]; [lia|].
  rewrite (Hhi j a b), (pair_up_lookup _ _ a b) by (done || lia). intros; congruence.
Qed.

Lemma merkle_step_pair_up ids :
  Z.of_nat (length ids) <= 2 ^ 31 -> merkle_step hash ids = Ok (pair_up ids).
Proof.
  intros Hint.
  unfold merkle_step. destruct (Nat.odd (length ids)) eqn:Ho; run_monad.
  - destruct (last ids) as [b|] eqn:Hb; [|apply last_None in Hb; by subst]. run_monad.
    destruct (merkle_level_even (ids ++ [b])) as (ids' & Hm & Ht).
    { rewrite length_app, Nat.odd_add, Ho. done. }
    { rewrite length_app. cbn [length]. destruct (decide (Z.of_nat (length ids) = 2 ^ 31)) as [E|]; [|lia].
      apply Nat.odd_spec in Ho as [q Hq]. lia. }
    rewrite Hm. run_monad. rewrite Ht. by rewrite pair_up_odd.
  - destruct (merkle_level_even ids Ho Hint) as (ids' & Hm & Ht). rewrite Hm. run_monad. by rewrite Ht.
Qed.

Lemma level_length k l : length (level k l) = ((length l + 2 ^ k - 1) / 2 ^ k)%nat.
Proof.
  induction k as [|k IH]; cbn [level]; [cbn [Nat.pow]; rewrite Nat.div_1_r; lia|].
  rewrite pair_up_length, IH. cbn [Nat.pow].
  assert (0 < 2 ^ k)%nat by (apply Nat.neq_0_lt_0, Nat.pow_nonzero; lia).
  rewrite <- Nat.div_add by lia. rewrite Nat.Div0.div_div. f_equal; lia.
Qed.

(** The loop of [merkle] climbs to the first level with a single node. *)
Lemma merkle_loop_level fuel l k d :
  level k l = [d] -> (forall j, (j < k)%nat -> (1 < length (level j l))%nat) -> (k < fuel)%nat ->
  Z.of_nat (length l) <= 2 ^ 31 -> merkle_loop hash fuel l = Ok d.
Proof.
  revert l k. induction fuel as [|fuel IH]; intros l k Hk Hj Hf Hint; [lia|].
  cbn [merkle_loop]. destruct k as [|k].
  - cbn in Hk. subst l. done.
  - specialize (Hj 0%nat ltac:(lia)) as H0. cbn in H0. rewrite (proj2 (Nat.ltb_lt 1 (length l)) H0).
    rewrite merkle_step_pair_up by done. run_monad.
    assert (Hsh : forall j, level j (pair_up l) = level (S j) l).
    { intros j. induction j as [|j IHj]; [done|]. cbn [level]. by rewrite IHj. }
    apply (IH _ k); [by rewrite Hsh| |lia|rewrite pair_up_length; lia].
    intros j Hjk. rewrite Hsh. apply Hj. lia.
Qed.

(** A node all of whose leaves are present does not change when leaves are
    appended. *)
Lemma level_app k l l' i :
  ((i + 1) * 2 ^ k <= length l)%nat -> level k (l ++ l') !! i = level k l !! i.
Proof.
  revert i. induction k as [|k IH]; intros i Hi; cbn [Nat.pow] in Hi.
  - cbn. rewrite lookup_app_l by lia. done.
  - cbn [level].
    assert (Hlt : forall j, (j < 2 * i + 2)%nat -> is_Some (level k l !! j)).
    { intros j Hj. apply lookup_lt_is_Some. rewrite level_length.
      assert (0 < 2 ^ k)%nat by (apply Nat.neq_0_lt_0, Nat.pow_nonzero; lia).
      apply Nat.div_le_lower_bound; [lia|]. nia. }
    destruct (Hlt (2 * i)%nat) as [a Ha]; [lia|].
    destruct (Hlt (2 * i + 1)%nat) as [b Hb]; [lia|].
    rewrite (pair_up_lookup (level k l) i a b Ha Hb).
    apply pair_up_lookup; rewrite IH; try done; nia.
Qed.

(** ** Appending *)

(** The root of the rightmost complete subtree of height [k], when the number of
    leaves has bit [k] set. *)
Definition peak l (k : nat) : option digest :=
  let i := (length l / 2 ^ k)%nat in
  if Nat.odd i then level k l !! (i - 1)%nat else None.

Lemma pow2_pos k : (0 < 2 ^ k)%nat.
Proof. apply Nat.neq_0_lt_0, Nat.pow_nonzero. lia. Qed.

Lemma div_pow2_S n k : (n / 2 ^ S k = n / 2 ^ k / 2)%nat.
Proof. cbn [Nat.pow]. rewrite Nat.Div0.div_div. f_equal. lia. Qed.

(** Carry of [n + 1] into bit [k]. *)
Lemma succ_div n P : (0 < P)%nat ->
  ((n + 1) / P = if (n + 1) mod P =? 0 then n / P + 1 else n / P)%nat.
Proof.
  intros HP. pose proof (Nat.div_mod_eq n P). pose proof (Nat.mod_upper_bound n P ltac:(lia)).
  destruct (decide (n mod P = P - 1)%nat) as [He|Hne].
  - assert (n + 1 = P * (n / P + 1) + 0)%nat as E by nia.
    rewrite E at 2. rewrite (Nat.mul_comm P), Nat.add_0_r, Nat.Div0.mod_mul. cbn.
    symmetry. apply (Nat.div_unique _ _ _ 0); lia.
  - assert (n + 1 = P * (n / P) + (n mod P + 1))%nat as E by lia.
    assert ((n + 1) mod P = n mod P + 1)%nat as -> by (symmetry; eapply Nat.mod_unique; [|exact E]; lia).
    rewrite (proj2 (Nat.eqb_neq _ 0)) by lia. symmetry. eapply Nat.div_unique; [|exact E]. lia.
Qed.

Lemma succ_mod_double n P : (0 < P)%nat ->
  (((n + 1) mod (2 * P) =? 0) = Nat.odd (n / P) && ((n + 1) mod P =? 0))%nat.
Proof.
  intros HP. pose proof (succ_div n P HP) as Hd.
  pose proof (Nat.div_mod_eq (n + 1) P). pose proof (Nat.mod_upper_bound (n + 1) P ltac:(lia)).
  assert ((n + 1) mod (2 * P) = (n + 1) mod P + P * ((n + 1) / P mod 2))%nat as ->.
  { rewrite (Nat.mul_comm 2 P). apply Nat.Div0.mod_mul_r. }
  destruct ((n + 1) mod P =? 0)%nat eqn:E.
  - apply Nat.eqb_eq in E. rewrite E, andb_true_r, Hd.
    rewrite <- (Nat.negb_even (n / P)). destruct (Nat.even (n / P)) eqn:Ev.
    + apply Nat.even_spec in Ev as [q ->]. cbn [negb]. apply Nat.eqb_neq.
      replace ((2 * q + 1) mod 2)%nat with 1%nat by lia. lia.
    + rewrite <- Nat.negb_odd, negb_false_iff in Ev. apply Nat.odd_spec in Ev as [q ->].
      cbn [negb]. apply Nat.eqb_eq. replace ((2 * q + 1 + 1) mod 2)%nat with 0%nat by lia. lia.
  - apply Nat.eqb_neq in E. rewrite andb_false_r. apply Nat.eqb_neq. lia.
Qed.

Lemma land_1_of_nat n : (Z.land (Z.of_nat n) 1 =? 0) = Nat.even n.
Proof.
  rewrite (Z.land_ones _ 1) by lia. change (2 ^ 1) with 2.
  apply eq_true_iff_eq. rewrite Z.eqb_eq, Nat.even_spec. unfold Nat.Even. split.
  - intros H. exists (n / 2)%nat. lia.
  - intros [q ->]. lia.
Qed.

Lemma shiftr_1_of_nat n : Z.shiftr (Z.of_nat n) 1 = Z.of_nat (n / 2).
Proof. rewrite Z.shiftr_div_pow2 by lia. change (2 ^ 1) with 2. lia. Qed.

Section append.
Variables (l : list digest) (d : digest).
Let n := length l.
Let l' := l ++ [d].

Lemma level_snoc_length k : length (level k l') = (n / 2 ^ k + 1)%nat.
Proof.
  rewrite level_length. unfold l'. rewrite length_app. cbn [length].
  replace (length l + 1 + 2 ^ k - 1)%nat with (n + 1 * 2 ^ k)%nat by (unfold n; lia).
  apply Nat.div_add. pose proof (pow2_pos k). lia.
Qed.

Lemma level_snoc_even k top : Nat.even (n / 2 ^ k) = true ->
  level k l' !! (n / 2 ^ k)%nat = Some top ->
  level (S k) l' !! (n / 2 ^ S k)%nat = Some (node top top).
Proof.
  intros [q Hq]%Nat.even_spec Htop. rewrite div_pow2_S, Hq.
  replace (2 * q / 2)%nat with q by lia. cbn [level]. apply pair_up_lookup_last.
  - by rewrite <- Hq.
  - by rewrite level_snoc_length, Hq.
Qed.

Lemma level_snoc_odd k left_value top : Nat.odd (n / 2 ^ k) = true ->
  level k l !! (n / 2 ^ k - 1)%nat = Some left_value -> level k l' !! (n / 2 ^ k)%nat = Some top ->
  level (S k) l' !! (n / 2 ^ S k)%nat = Some (node left_value top).
Proof.
  intros [q Hq]%Nat.odd_spec Hleft Htop. rewrite div_pow2_S, Hq in *.
  replace ((2 * q + 1) / 2)%nat with q by lia. cbn [level].
  apply pair_up_lookup; [|done]. rewrite <- Hleft. replace (2 * q + 1 - 1)%nat with (2 * q)%nat by lia.
  apply level_app. pose proof (Nat.Div0.mul_div_le n (2 ^ k)) as Hle. rewrite Hq in Hle.
  fold n. nia.
Qed.

Lemma peak_some k : Nat.odd (n / 2 ^ k) = true ->
  exists x, peak l k = Some x /\ level k l !! (n / 2 ^ k - 1)%nat = Some x.
Proof.
  intros Ho. destruct (lookup_lt_is_Some_2 (level k l) (n / 2 ^ k - 1)%nat) as [x Hx].
  { rewrite level_length. fold n. pose proof (pow2_pos k).
    apply Nat.odd_spec in Ho as [q Hq]. apply Nat.div_le_lower_bound; [lia|].
    pose proof (Nat.Div0.mul_div_le n (2 ^ k)). rewrite Hq in *. nia. }
  exists x. unfold peak. fold n. by rewrite Ho.
Qed.

Lemma peak_even k : Nat.even (n / 2 ^ k) = true -> peak l k = None.
Proof. intros He. unfold peak. fold n. by rewrite <- Nat.negb_even, He. Qed.

(** The peaks of the extended list, in terms of the carry. *)
Lemma peak_snoc k : peak l' k =
  if ((n + 1) mod 2 ^ k =? 0)%nat
  then if Nat.even (n / 2 ^ k) then level k l' !! (n / 2 ^ k)%nat else None
  else if Nat.even (n / 2 ^ k) then None else peak l k.
Proof.
  unfold peak. assert (length l' = n + 1)%nat as -> by (unfold l'; rewrite length_app; done).
  fold n. rewrite (succ_div n (2 ^ k)) by apply pow2_pos.
  destruct ((n + 1) mod 2 ^ k =? 0)%nat.
  - rewrite Nat.odd_add, Nat.odd_1, xorb_true_r, Nat.negb_odd.
    destruct (Nat.even _); [|done]. f_equal. lia.
  - rewrite <- Nat.negb_even. destruct (Nat.even (n / 2 ^ k)) eqn:E; cbn; [done|].
    rewrite <- Nat.negb_odd, negb_false_iff in E. apply Nat.odd_spec in E as [q Hq].
    pose proof (Nat.Div0.mul_div_le n (2 ^ k)) as Hle. apply level_app. rewrite Hq in *. fold n. nia.
Qed.

(** The loop of [append] climbs along the new leaf. *)
Lemma append_loop_climbs extra j k top partial active updated :
  (k + j <= 64)%nat ->
  level k l' !! (n / 2 ^ k)%nat = Some top ->
  partial = negb ((n + 1) mod 2 ^ k =? 0)%nat ->
  active = omap (peak l) (seq k (64 - k)) ++ extra ->
  updated = omap (peak l') (seq 0 k) ->
  exists top', append_loop hash j (Z.of_nat (n / 2 ^ k)) top partial active updated
    = Ok (top', omap (peak l') (seq 0 (k + j))) /\
    level (k + j) l' !! (n / 2 ^ (k + j))%nat = Some top'.
Proof.
  revert k top partial active updated.
  induction j as [|j IH]; intros k top partial active updated Hk Htop Hpart Hact Hupd.
  { rewrite Nat.add_0_r. exists top. cbn. by subst. }
  assert (omap (peak l') (seq 0 (S k)) = updated ++ omap (peak l') [k]) as Hupd'.
  { rewrite seq_S, omap_app. by rewrite Hupd. }
  assert (seq k (64 - k) = k :: seq (S k) (64 - S k)) as Hseq.
  { replace (64 - k)%nat with (S (64 - S k)) by lia. done. }
  rewrite Hseq in Hact. cbn [append_loop].
  rewrite land_1_of_nat, shiftr_1_of_nat, <- div_pow2_S.
  pose proof (succ_mod_double n (2 ^ k) (pow2_pos k)) as Hdbl.
  change (2 * 2 ^ k)%nat with (2 ^ S k)%nat in Hdbl.
  replace (k + S j)%nat with (S k + j)%nat by lia.
  destruct (Nat.even (n / 2 ^ k)) eqn:He.
  - apply IH; [lia|by apply level_snoc_even| | |].
    + rewrite Hdbl, <- Nat.negb_even, He. done.
    + rewrite Hact. cbn [omap list_omap]. by rewrite peak_even.
    + rewrite Hupd'. cbn [omap list_omap]. rewrite peak_snoc, He, Hpart.
      destruct ((n + 1) mod 2 ^ k =? 0)%nat; cbn; [by rewrite Htop|by rewrite app_nil_r].
  - assert (Nat.odd (n / 2 ^ k) = true) as Ho by (rewrite <- Nat.negb_even, He; done).
    destruct (peak_some k Ho) as (x & Hpk & Hx). rewrite Hact. cbn [omap list_omap app].
    rewrite Hpk. cbn [app].
    apply IH; [lia|by apply level_snoc_odd| |done|].
    + by rewrite Hdbl, Ho, Hpart.
    + rewrite Hupd'. cbn [omap list_omap]. rewrite peak_snoc, He, Hpart, Hpk.
      destruct ((n + 1) mod 2 ^ k =? 0)%nat; cbn; [by rewrite app_nil_r|done].
Qed.

End append.

(** The depth the loop climbs to: the least one whose level is a single node. *)
Definition depth (m : nat) : nat := Z.to_nat (Z.log2_up (Z.of_nat m)).

Lemma depth_spec m : (0 < m)%nat ->
  (m <= 2 ^ depth m)%nat /\ forall k, (k < depth m)%nat -> (2 ^ k < m)%nat.
Proof.
  intros Hm. unfold depth. pose proof (Z.log2_up_nonneg (Z.of_nat m)).
  destruct (decide (m = 1)%nat) as [->|]; [split; [done|intros; change (Z.to_nat (Z.log2_up (Z.of_nat 1))) with 0%nat in *; lia]|].
  destruct (Z.log2_up_spec (Z.of_nat m)) as [Hlo Hhi]; [lia|]. split.
  - apply Nat2Z.inj_le. by rewrite Nat2Z.inj_pow, Z2Nat.id.
  - intros k Hk. apply Nat2Z.inj_lt. rewrite Nat2Z.inj_pow. eapply Z.le_lt_trans; [|exact Hlo].
    apply Z.pow_le_mono_r; lia.
Qed.

Lemma depth_bound m : (0 < m)%nat -> Z.of_nat m <= 2 ^ 63 -> (depth m <= 63)%nat.
Proof.
  intros Hm Hle. unfold depth. destruct (decide (m = 1)%nat) as [->|]; [change (Z.to_nat (Z.log2_up (Z.of_nat 1))) with 0%nat; lia|].
  apply Z2Nat.inj_le with (m := 63); [apply Z.log2_up_nonneg|lia|].
  apply Z.log2_up_le_pow2; lia.
Qed.

Lemma merkle_depth l r : Z.of_nat (length l) <= 2 ^ 31 ->
  level (depth (length l)) l !! 0%nat = Some r -> merkle hash l = Ok r.
Proof.
  intros Hint Hr. destruct l as [|x l0] eqn:El; [done|]. rewrite <- El in *.
  assert (0 < length l)%nat as Hl by (rewrite El; cbn; lia).
  destruct (depth_spec _ Hl) as [Hup Hlo].
  assert (merkle hash l = merkle_loop hash (S (length l)) l) as -> by (by rewrite El).
  apply (merkle_loop_level _ _ (depth (length l))).
  - assert (length (level (depth (length l)) l) = 1)%nat as H1.
    { rewrite level_length. pose proof (pow2_pos (depth (length l))).
      symmetry. apply (Nat.div_unique _ _ _ (length l - 1)); lia. }
    destruct (level _ l) as [|y [|]]; try done. by injection Hr as ->.
  - intros j Hj. rewrite level_length. specialize (Hlo j Hj). pose proof (pow2_pos j).
    apply (Nat.lt_le_trans _ 2); [lia|]. apply Nat.div_le_lower_bound; lia.
  - apply Nat.lt_succ_r. destruct (decide (depth (length l) <= length l)%nat); [done|].
    specialize (Hlo (length l) ltac:(lia)). pose proof (Nat.pow_gt_lin_r 2 (length l) ltac:(lia)). lia.
  - done.
Qed.

Record tree_of l (t : incremental_merkle) : Prop := {
  tree_count : node_count t = Z.of_nat (length l);
  tree_active : exists extra, active_nodes t = omap (peak l) (seq 0 64) ++ extra;
  tree_root : exists r, get_root t = Ok r /\
    (Z.of_nat (length l) <= 2 ^ 31 -> merkle hash l = Ok r)
}.

Lemma omap_none {A B} (f : A -> option B) xs : (forall x, x ∈ xs -> f x = None) -> omap f xs = [].
Proof.
  induction xs as [|x xs IH]; intros H; [done|]. cbn. rewrite H by left.
  apply IH. intros. apply H. by right.
Qed.

Lemma tree_of_nil : tree_of [] incremental_init.
Proof.
  split; [done| |by exists digest_nil].
  exists []. rewrite app_nil_r. symmetry. apply omap_none. intros k _. unfold peak. cbn [length].
  by rewrite Nat.Div0.div_0_l.
Qed.

(** Above the depth of the new tree there is at most one peak, its root. *)
Lemma peaks_above l top : l <> [] -> Z.of_nat (length l) <= 2 ^ 63 ->
  level (depth (length l)) l !! 0%nat = Some top ->
  omap (peak l) (seq (depth (length l)) (64 - depth (length l)))
  = if decide (length l = 2 ^ depth (length l))%nat then [top] else [].
Proof.
  intros Hnil Hle Htop. assert (0 < length l)%nat as Hl by (destruct l; [done|cbn; lia]).
  destruct (depth_spec _ Hl) as [Hup Hlo]. pose proof (depth_bound _ Hl Hle).
  replace (64 - depth (length l))%nat with (S (63 - depth (length l))) by lia.
  cbn [seq omap list_omap]. rewrite (omap_none _ (seq (S _) _)).
  2:{ intros k Hk%elem_of_seq. unfold peak. rewrite Nat.div_small; [done|].
      eapply Nat.le_lt_trans; [exact Hup|]. apply Nat.pow_lt_mono_r; lia. }
  unfold peak. case_decide as He.
  - assert (length l / 2 ^ depth (length l) = 1)%nat as ->.
    { symmetry. apply (Nat.div_unique _ _ _ 0); [apply pow2_pos|lia]. }
    change (Nat.odd 1) with true. rewrite Nat.sub_diag. by rewrite Htop.
  - rewrite Nat.div_small by lia. done.
Qed.

Lemma append_tree l t d : tree_of l t -> Z.of_nat (length l) < 2 ^ 63 ->
  exists t' r, append hash t d = Ok (t', r) /\ tree_of (l ++ [d]) t'.
Proof.
  intros [Hc (extra & Hact) _] Hlt.
  assert (length (l ++ [d]) = length l + 1)%nat as Hlen by (by rewrite length_app).
  assert (0 < length (l ++ [d]))%nat as Hpos by lia.
  set (D := depth (length (l ++ [d]))).
  assert (Z.to_nat (calcluate_max_depth (u64 (node_count t + 1)) - 1) = D) as HD.
  { rewrite Hc, u64_small, calcluate_max_depth_correct by lia. unfold D, depth. rewrite Hlen.
    replace (Z.of_nat (length l + 1)) with (Z.of_nat (length l) + 1) by lia. f_equal. lia. }
  destruct (depth_spec _ Hpos) as [Hup _]. fold D in Hup.
  pose proof (depth_bound _ Hpos ltac:(rewrite Hlen; lia)) as HDb. fold D in HDb.
  destruct (append_loop_climbs l d extra D 0 d false (active_nodes t) []) as (top & Hloop & Htop);
    [lia| |done|done|done|].
  { cbn [Nat.pow level]. rewrite Nat.div_1_r.
    rewrite lookup_app_r by lia. by rewrite Nat.sub_diag. }
  cbn [Nat.add] in *. rewrite (Nat.div_small (length l) (2 ^ D)) in Htop by lia.
  rewrite Nat.pow_0_r, Nat.div_1_r in Hloop.
  pose proof (fun Hint => merkle_depth (l ++ [d]) top Hint Htop) as Hroot.
  unfold append. rewrite HD, Hc, Hloop. run_monad. rewrite last_snoc. run_monad.
  do 2 eexists. split; [done|]. rewrite u64_small by lia. split; cbn [node_count active_nodes].
  - lia.
  - pose proof (peaks_above (l ++ [d]) top ltac:(by destruct l) ltac:(rewrite Hlen; lia) Htop) as Hab.
    fold D in Hab. pose proof (seq_app D (64 - D) 0) as Hseq.
    replace (D + (64 - D))%nat with 64%nat in Hseq by lia.
    rewrite Hseq, omap_app. cbn [Nat.add]. rewrite Hab. case_decide.
    + exists []. by rewrite app_nil_r.
    + exists [top]. by rewrite app_nil_r.
  - exists top. split; [|done]. unfold get_root. cbn [node_count active_nodes].
    rewrite (proj2 (Z.ltb_lt _ _)) by lia. by rewrite last_snoc.
Qed.

Lemma append_all_tree leaves l t : tree_of l t -> Z.of_nat (length l + length leaves) <= 2 ^ 63 ->
  exists t', append_all hash t leaves = Ok t' /\ tree_of (l ++ leaves) t'.
Proof.
  revert l t. induction leaves as [|d leaves IH]; intros l t Ht Hlen.
  { exists t. by rewrite app_nil_r. }
  cbn [length] in Hlen.
  destruct (append_tree l t d Ht ltac:(lia)) as (t1 & r & Ha & Ht1).
  destruct (IH (l ++ [d]) t1 Ht1) as (t2 & Ha2 & Ht2); [rewrite length_app; cbn; lia|].
  exists t2. cbn [append_all]. rewrite Ha. run_monad. rewrite Ha2.
  by rewrite <- app_assoc in Ht2.
Qed.

End levels.

(** ** Properties *)

(** C16 [incremental_root_is_merkle]: appending leaves one by one to an empty
    incremental tree, for every hash function and every list of at most 2^63
    leaves, never reads past its active nodes and counts the leaves; the root it
    reports is the root [merkle] computes from the whole list as long as there are
    at most 2^31 leaves, the largest number for which the [int] index of the loop
    of [merkle] does not overflow. *)
Theorem incremental_root_is_merkle hash leaves :
  Z.of_nat (length leaves) <= 2 ^ 63 ->
  exists t r, append_all hash incremental_init leaves = Ok t /\
    node_count t = Z.of_nat (length leaves) /\ get_root t = Ok r /\
    (Z.of_nat (length leaves) <= 2 ^ 31 -> merkle hash leaves = Ok r).
Proof.
  intros Hlen. destruct (append_all_tree hash leaves [] incremental_init) as (t & Ha & Ht);
    [apply tree_of_nil|cbn; lia|].
  destruct (tree_root _ _ _ Ht) as (r & Hr & Hm). exists t, r.
  pose proof (tree_count _ _ _ Ht). done.
Qed.

Definition sample_hash (p : digest * digest) : digest :=
  Digest (u64 (3 * hash0 p.1 + 5 * hash0 p.2 + 1)) (u64 (hash1 p.1 + 7 * hash1 p.2)) 0 0.
Definition sample_leaves : list digest := (fun i => Digest i (i * i) 0 0) <$> seqZ 1 7.

Lemma incremental_root_is_merkle_witness :
  exists t r, append_all sample_hash incremental_init sample_leaves = Ok t /\
    get_root t = Ok r /\ merkle sample_hash sample_leaves = Ok r.
Proof.
  destruct (incremental_root_is_merkle sample_hash sample_leaves) as (t & r & Ha & _ & Hr & Hm).
  - vm_compute. discriminate.
  - exists t, r. split; [exact Ha|]. split; [exact Hr|]. apply Hm. vm_compute. discriminate.
Defined.

(** The shifts of [next_power_of_2] round up to a power of
    two, the masks of [clz_power_2] recover its exponent (the number of trailing
    zeros), and the depth is one more than the rounded-up binary logarithm. *)
Theorem max_depth_is_log n :
  1 <= n <= 2 ^ 63 ->
  next_power_of_2 n = 2 ^ Z.log2_up n /\ clz_power_2 (next_power_of_2 n) = Z.log2_up n /\
  calcluate_max_depth n = Z.log2_up n + 1.
Proof.
  intros Hn. pose proof (calcluate_max_depth_correct n Hn) as Hd.
  split; [by apply next_power_of_2_correct|]. split; [|done].
  unfold calcluate_max_depth in Hd. rewrite (proj2 (Z.eqb_neq n 0)) in Hd by lia. lia.
Qed.

Lemma max_depth_is_log_witness : next_power_of_2 1000 = 1024 /\ calcluate_max_depth 1000 = 11.
Proof.
  destruct (max_depth_is_log 1000) as (H1 & _ & H2); [lia|].
  split; [exact H1|exact H2].
Defined.

(** Of a canonical pair the left digest is marked left
    and the right one right, whatever the digests, so a proof path needs no
    side information; re-marking changes nothing. *)
Theorem canonical_pair_sides l r :
  is_canonical_left (make_canonical_pair l r).1 = true /\
  is_canonical_right (make_canonical_pair l r).2 = true /\
  make_canonical_left (make_canonical_pair l r).1 = (make_canonical_pair l r).1 /\
  make_canonical_right (make_canonical_pair l r).2 = (make_canonical_pair l r).2 /\
  (make_canonical_pair l r).1 <> (make_canonical_pair l r).2.
Proof.
  assert (Hl : Z.land (Z.land (hash0 l) 0xFFFFFFFFFFFFFF7F) 128 = 0).
  { by rewrite <- Z.land_assoc, Z.land_0_r. }
  assert (Hr : Z.land (Z.lor (hash0 r) 128) 128 <> 0).
  { rewrite Z.land_lor_distr_l. intros H. apply Z.lor_eq_0_iff in H as [_ H]. done. }
  split_and!; cbn.
  - unfold is_canonical_left. cbn. by rewrite Hl.
  - unfold is_canonical_right. cbn. by rewrite (proj2 (Z.eqb_neq _ _)).
  - unfold make_canonical_left. cbn. f_equal. by rewrite <- Z.land_assoc.
  - unfold make_canonical_right. cbn. f_equal. by rewrite <- Z.lor_assoc.
  - intros H. apply (f_equal hash0) in H. cbn in H. rewrite H in Hl. done.
Qed.
