(* ===== verification/BlockHeaderState.v ===== *)
(** * Block headers and DPOS finality

    Model of [block_timestamp.hpp], [producer_schedule.hpp], [block_header.hpp],
    [block_header.cpp], [block_header_state.hpp] and [block_header_state.cpp] under
    [libraries/chain]: slots, producer schedules, block ids, and the state a node
    keeps per block to validate the next header and to decide which blocks are
    irreversible. *)
From S2P Require Import Prelude Merkle.

(** ** block_timestamp *)
Module Timestamp.

Definition block_interval_ms : Z := 500.
Definition block_timestamp_epoch : Z := 946684800000.

(** A [block_timestamp] is its slot; a [time_point] is its count of
    microseconds. *)
Definition slot_maximum : Z := 0xffff.

Definition slot_next (slot : Z) : result Z :=
  _ ← bes_assert (1 <=? u32 (2 ^ 32 - 1 - slot)) overflow_exception;
  mret (u32 (slot + 1)).

Definition to_time_point (slot : Z) : Z :=
  let msec := i64 (slot * block_interval_ms) in
  let msec := i64 (u64 (msec + block_timestamp_epoch)) in
  i64 (msec * 1000).

Definition set_time_point (t : Z) : Z :=
  let msec_since_epoch := Z.quot t 1000 in
  u32 (u64 (msec_since_epoch - block_timestamp_epoch) / block_interval_ms).

Definition set_time_point_sec (sec : Z) : Z :=
  u32 (u64 (u64 (sec * 1000) - block_timestamp_epoch) / block_interval_ms).

End Timestamp.

(** ** Names of external types

    Public keys and signatures are only compared and recovered, so they are
    numbers; 0 is the default-constructed key. *)
Abbreviation account_name := Z (only parsing).
Definition public_key := Z.
Definition signature := Z.
Definition no_key : public_key := 0.

(** ** Producer schedules *)
Record producer_key := ProducerKey { producer_name : account_name; block_signing_key : public_key }.
(** [config::max_producers]. *)
Definition max_producers : nat := 125.

Record producer_schedule := ProducerSchedule { version : Z; producers : list producer_key }.

#[global] Instance producer_key_eq_dec : EqDecision producer_key.
Proof. solve_decision. Defined.
#[global] Instance producer_schedule_eq_dec : EqDecision producer_schedule.
Proof. solve_decision. Defined.

Fixpoint find_producer_key (ps : list producer_key) (p : account_name) : public_key :=
  match ps with
  | [] => no_key
  | i :: ps => if producer_name i =? p then block_signing_key i else find_producer_key ps p
  end.
Definition get_producer_key (s : producer_schedule) (p : account_name) : public_key :=
  find_producer_key (producers s) p.

(** ** Block headers *)
Record block_header := BlockHeader {
  timestamp : Z;
  producer : account_name;
  confirmed : Z;
  previous : digest;
  transaction_mroot : digest;
  action_mroot : digest;
  schedule_version : Z;
  new_producers : option producer_schedule;
  header_extensions : list (Z * list Z)
}.

Record signed_block_header := SignedBlockHeader {
  sb_header : block_header;
  producer_signature : signature
}.

Record header_confirmation := HeaderConfirmation {
  hc_block_id : digest;
  hc_producer : account_name;
  hc_signature : signature
}.

Definition header_default : block_header :=
  BlockHeader 0 0 1 digest_nil digest_nil digest_nil 0 None [].
Definition signed_header_default : signed_block_header := SignedBlockHeader header_default 0.

Definition endian_reverse_u32 (x : Z) : Z :=
  Z.lor (Z.lor (Z.lor (Z.land (Z.shiftr x 24) 255)
                      (Z.shiftl (Z.land (Z.shiftr x 16) 255) 8))
               (Z.shiftl (Z.land (Z.shiftr x 8) 255) 16))
        (Z.shiftl (Z.land x 255) 24).

(** The word [_hash[0]] is narrowed to 32 bits by the call. *)
Definition num_from_id (id : digest) : Z := endian_reverse_u32 (u32 (hash0 id)).
Definition header_block_num (h : block_header) : Z := u32 (num_from_id (previous h) + 1).

(** ** Hashing and signature recovery

    SHA-256 over the packed bytes of a header, a schedule or a pair of digests,
    and the recovery of the key from a signature, which throws on a malformed
    signature. *)
Class Crypto := {
  hash_header : block_header -> digest;
  hash_schedule : producer_schedule -> digest;
  hash_pair : digest * digest -> digest;
  recover_key : signature -> digest -> result public_key
}.

Section header_state.
Context `{Crypto}.

Definition header_id (h : block_header) : digest :=
  let d := hash_header h in
  let w := Z.land (hash0 d) 0xffffffff00000000 in
  Digest (u64 (w + endian_reverse_u32 (header_block_num h))) (hash1 d) (hash2 d) (hash3 d).

(** ** block_header_state *)
Definition producer_repetitions : Z := 12.
Definition maximum_tracked_dpos_confirmations : nat := 1024.

Record block_header_state := BlockHeaderState {
  id : digest;
  block_num : Z;
  header : signed_block_header;
  dpos_proposed_irreversible_blocknum : Z;
  dpos_irreversible_blocknum : Z;
  bft_irreversible_blocknum : Z;
  pending_schedule_lib_num : Z;
  pending_schedule_hash : digest;
  pending_schedule : producer_schedule;
  active_schedule : producer_schedule;
  blockroot_merkle : incremental_merkle;
  producer_to_last_produced : gmap Z Z;
  producer_to_last_implied_irb : gmap Z Z;
  signing_key : public_key;
  confirm_count : list Z;
  confirmations : list header_confirmation
}.

Definition is_active_producer (s : block_header_state) (n : account_name) : bool :=
  bool_decide (is_Some (producer_to_last_produced s !! n)).

Definition has_pending_producers (s : block_header_state) : bool :=
  negb (Z.of_nat (length (producers (pending_schedule s))) =? 0).

Definition get_scheduled_producer (s : block_header_state) (slot : Z) : result producer_key :=
  let m := Z.of_nat (length (producers (active_schedule s))) * producer_repetitions in
  if m =? 0 then Throw undefined_behaviour
  else of_option undefined_behaviour
         (producers (active_schedule s) !! Z.to_nat (slot mod m / producer_repetitions)).

(** [std::sort] of the implied irreversible block numbers, and the element a
    third of the way in. *)
Definition implied_irbs (m : gmap Z Z) : list Z := (asc_items m).*2.
Definition calc_dpos_last_irreversible (m : gmap Z Z) : Z :=
  let blocknums := merge_sort Z.le (implied_irbs m) in
  match blocknums with
  | [] => 0
  | _ => default 0 (blocknums !! ((length blocknums - 1) / 3)%nat)
  end.

Definition required_confs (s : block_header_state) : Z :=
  u32 (Z.of_nat (length (producers (active_schedule s))) * 2 / 3) + 1.

(** The window of confirmation counts: append, or shift out the oldest. *)
Definition grow_confirm_count (s : block_header_state) : list Z :=
  let cc := confirm_count s in
  if (length cc <? maximum_tracked_dpos_confirmations)%nat
  then cc ++ [u8 (required_confs s)]
  else drop 1 cc ++ [u8 (required_confs s)].

Definition generate_next (s : block_header_state) (when : Z) : result block_header_state :=
  when ← (if negb (when =? 0) then
            _ ← bes_assert (timestamp (sb_header (header s)) <? when) block_validate_exception;
            mret when
          else mret (u32 (timestamp (sb_header (header s)) + 1)));
  prokey ← get_scheduled_producer s when;
  let num := u32 (block_num s + 1) in
  '(bm, _) ← append hash_pair (blockroot_merkle s) (id s);
  _ ← get_root bm;
  let irb := <[producer_name prokey := dpos_proposed_irreversible_blocknum s]>
               (producer_to_last_implied_irb s) in
  mret {|
    id := digest_nil;
    block_num := num;
    header := SignedBlockHeader
      (BlockHeader when (producer_name prokey) (confirmed header_default) (id s) digest_nil
         digest_nil (version (active_schedule s)) None []) 0;
    dpos_proposed_irreversible_blocknum := dpos_proposed_irreversible_blocknum s;
    dpos_irreversible_blocknum := calc_dpos_last_irreversible irb;
    bft_irreversible_blocknum := bft_irreversible_blocknum s;
    pending_schedule_lib_num := pending_schedule_lib_num s;
    pending_schedule_hash := pending_schedule_hash s;
    pending_schedule := pending_schedule s;
    active_schedule := active_schedule s;
    blockroot_merkle := bm;
    producer_to_last_produced := <[producer_name prokey := num]> (producer_to_last_produced s);
    producer_to_last_implied_irb := irb;
    signing_key := block_signing_key prokey;
    confirm_count := grow_confirm_count s;
    confirmations := []
  |}.

(** The maps of a promoted schedule: producers that were tracked keep their
    number, the others start at the last irreversible block. *)
Definition carry_over (lib : Z) (old : gmap Z Z) (ps : list producer_key) : gmap Z Z :=
  foldl (fun m pro => <[producer_name pro := default lib (old !! producer_name pro)]> m) ∅ ps.

Definition maybe_promote_pending (s : block_header_state) : block_header_state * bool :=
  if negb (Z.of_nat (length (producers (pending_schedule s))) =? 0) &&
     (pending_schedule_lib_num s <=? dpos_irreversible_blocknum s) then
    let active := pending_schedule s in
    let lib := dpos_irreversible_blocknum s in
    ({| id := id s; block_num := block_num s; header := header s;
        dpos_proposed_irreversible_blocknum := dpos_proposed_irreversible_blocknum s;
        dpos_irreversible_blocknum := lib;
        bft_irreversible_blocknum := bft_irreversible_blocknum s;
        pending_schedule_lib_num := pending_schedule_lib_num s;
        pending_schedule_hash := pending_schedule_hash s;
        (* moved from: the vector is left empty *)
        pending_schedule := ProducerSchedule (version (pending_schedule s)) [];
        active_schedule := active;
        blockroot_merkle := blockroot_merkle s;
        producer_to_last_produced :=
          <[producer (sb_header (header s)) := block_num s]>
            (carry_over lib (producer_to_last_produced s) (producers active));
        producer_to_last_implied_irb :=
          carry_over lib (producer_to_last_implied_irb s) (producers active);
        signing_key := signing_key s; confirm_count := confirm_count s;
        confirmations := confirmations s |}, true)
  else (s, false).

Definition with_header (hd : signed_block_header) (s : block_header_state) : block_header_state :=
  {| id := id s; block_num := block_num s; header := hd;
     dpos_proposed_irreversible_blocknum := dpos_proposed_irreversible_blocknum s;
     dpos_irreversible_blocknum := dpos_irreversible_blocknum s;
     bft_irreversible_blocknum := bft_irreversible_blocknum s;
     pending_schedule_lib_num := pending_schedule_lib_num s;
     pending_schedule_hash := pending_schedule_hash s;
     pending_schedule := pending_schedule s; active_schedule := active_schedule s;
     blockroot_merkle := blockroot_merkle s;
     producer_to_last_produced := producer_to_last_produced s;
     producer_to_last_implied_irb := producer_to_last_implied_irb s;
     signing_key := signing_key s; confirm_count := confirm_count s;
     confirmations := confirmations s |}.

Definition with_id (i : digest) (s : block_header_state) : block_header_state :=
  {| id := i; block_num := block_num s; header := header s;
     dpos_proposed_irreversible_blocknum := dpos_proposed_irreversible_blocknum s;
     dpos_irreversible_blocknum := dpos_irreversible_blocknum s;
     bft_irreversible_blocknum := bft_irreversible_blocknum s;
     pending_schedule_lib_num := pending_schedule_lib_num s;
     pending_schedule_hash := pending_schedule_hash s;
     pending_schedule := pending_schedule s; active_schedule := active_schedule s;
     blockroot_merkle := blockroot_merkle s;
     producer_to_last_produced := producer_to_last_produced s;
     producer_to_last_implied_irb := producer_to_last_implied_irb s;
     signing_key := signing_key s; confirm_count := confirm_count s;
     confirmations := confirmations s |}.

Definition with_pending (h : digest) (p : producer_schedule) (lib_num : Z)
    (s : block_header_state) : block_header_state :=
  {| id := id s; block_num := block_num s; header := header s;
     dpos_proposed_irreversible_blocknum := dpos_proposed_irreversible_blocknum s;
     dpos_irreversible_blocknum := dpos_irreversible_blocknum s;
     bft_irreversible_blocknum := bft_irreversible_blocknum s;
     pending_schedule_lib_num := lib_num; pending_schedule_hash := h;
     pending_schedule := p; active_schedule := active_schedule s;
     blockroot_merkle := blockroot_merkle s;
     producer_to_last_produced := producer_to_last_produced s;
     producer_to_last_implied_irb := producer_to_last_implied_irb s;
     signing_key := signing_key s; confirm_count := confirm_count s;
     confirmations := confirmations s |}.

Definition with_confirm (proposed : Z) (cc : list Z) (s : block_header_state)
    : block_header_state :=
  {| id := id s; block_num := block_num s; header := header s;
     dpos_proposed_irreversible_blocknum := proposed;
     dpos_irreversible_blocknum := dpos_irreversible_blocknum s;
     bft_irreversible_blocknum := bft_irreversible_blocknum s;
     pending_schedule_lib_num := pending_schedule_lib_num s;
     pending_schedule_hash := pending_schedule_hash s;
     pending_schedule := pending_schedule s; active_schedule := active_schedule s;
     blockroot_merkle := blockroot_merkle s;
     producer_to_last_produced := producer_to_last_produced s;
     producer_to_last_implied_irb := producer_to_last_implied_irb s;
     signing_key := signing_key s; confirm_count := cc; confirmations := confirmations s |}.

Definition with_confirmations (cs : list header_confirmation) (s : block_header_state)
    : block_header_state :=
  {| id := id s; block_num := block_num s; header := header s;
     dpos_proposed_irreversible_blocknum := dpos_proposed_irreversible_blocknum s;
     dpos_irreversible_blocknum := dpos_irreversible_blocknum s;
     bft_irreversible_blocknum := bft_irreversible_blocknum s;
     pending_schedule_lib_num := pending_schedule_lib_num s;
     pending_schedule_hash := pending_schedule_hash s;
     pending_schedule := pending_schedule s; active_schedule := active_schedule s;
     blockroot_merkle := blockroot_merkle s;
     producer_to_last_produced := producer_to_last_produced s;
     producer_to_last_implied_irb := producer_to_last_implied_irb s;
     signing_key := signing_key s; confirm_count := confirm_count s; confirmations := cs |}.

Definition with_bft (b : Z) (s : block_header_state) : block_header_state :=
  {| id := id s; block_num := block_num s; header := header s;
     dpos_proposed_irreversible_blocknum := dpos_proposed_irreversible_blocknum s;
     dpos_irreversible_blocknum := dpos_irreversible_blocknum s;
     bft_irreversible_blocknum := b;
     pending_schedule_lib_num := pending_schedule_lib_num s;
     pending_schedule_hash := pending_schedule_hash s;
     pending_schedule := pending_schedule s; active_schedule := active_schedule s;
     blockroot_merkle := blockroot_merkle s;
     producer_to_last_produced := producer_to_last_produced s;
     producer_to_last_implied_irb := producer_to_last_implied_irb s;
     signing_key := signing_key s; confirm_count := confirm_count s;
     confirmations := confirmations s |}.

Definition set_header_new_producers (p : producer_schedule) (hd : signed_block_header)
    : signed_block_header :=
  let h := sb_header hd in
  SignedBlockHeader (BlockHeader (timestamp h) (producer h) (confirmed h) (previous h)
    (transaction_mroot h) (action_mroot h) (schedule_version h) (Some p) (header_extensions h))
    (producer_signature hd).
Definition set_header_confirmed (c : Z) (hd : signed_block_header) : signed_block_header :=
  let h := sb_header hd in
  SignedBlockHeader (BlockHeader (timestamp h) (producer h) c (previous h)
    (transaction_mroot h) (action_mroot h) (schedule_version h) (new_producers h)
    (header_extensions h)) (producer_signature hd).
Definition set_header_roots (am tm : digest) (sig : signature) (hd : signed_block_header)
    : signed_block_header :=
  let h := sb_header hd in
  SignedBlockHeader (BlockHeader (timestamp h) (producer h) (confirmed h) (previous h)
    tm am (schedule_version h) (new_producers h) (header_extensions h)) sig.

Definition set_new_producers (pending : producer_schedule) (s : block_header_state)
    : result block_header_state :=
  _ ← bes_assert (version pending =? u32 (version (active_schedule s) + 1))
        producer_schedule_exception;
  _ ← bes_assert (Z.of_nat (length (producers (pending_schedule s))) =? 0)
        producer_schedule_exception;
  mret (with_pending (hash_schedule pending) pending (block_num s)
          (with_header (set_header_new_producers pending (header s)) s)).

(** The loop of [set_confirmed]: [k] is [i + 1], [cc] the confirmation counts.
    Returns the counts left, and the number of the block whose count reached
    zero. *)
Fixpoint confirm_loop (num : Z) (k : nat) (blocks_to_confirm : Z) (cc : list Z)
    : list Z * option Z :=
  match k with
  | O => (cc, None)
  | S i =>
      if blocks_to_confirm =? 0 then (cc, None) else
      let c := u8 (default 0 (cc !! i) - 1) in
      let cc := <[i := c]> cc in
      if c =? 0 then
        (drop (S i) cc, Some (u32 (num - Z.of_nat (length cc - 1 - i))))
      else confirm_loop num i (blocks_to_confirm - 1) cc
  end.

Definition set_confirmed (num_prev_blocks : Z) (s : block_header_state) : block_header_state :=
  let s := with_header (set_header_confirmed num_prev_blocks (header s)) s in
  match confirm_loop (block_num s) (length (confirm_count s)) (num_prev_blocks + 1)
          (confirm_count s) with
  | (cc, None) => with_confirm (dpos_proposed_irreversible_blocknum s) cc s
  | (cc, Some n) => with_confirm n cc s
  end.

Definition sig_digest (s : block_header_state) : result digest :=
  root ← get_root (blockroot_merkle s);
  let header_bmroot := hash_pair (hash_header (sb_header (header s)), root) in
  mret (hash_pair (header_bmroot, pending_schedule_hash s)).

Definition signee (s : block_header_state) : result public_key :=
  d ← sig_digest s; recover_key (producer_signature (header s)) d.

(** The signature is stored before it is checked. *)
Definition sign (signer : digest -> signature) : St block_header_state unit :=
  s ← get;
  d ← lift (sig_digest s);
  let sg := signer d in
  _ ← put (with_header (SignedBlockHeader (sb_header (header s)) sg) s);
  k ← lift (recover_key sg d);
  st_assert (signing_key s =? k) wrong_signing_key.

Definition next (s : block_header_state) (h : signed_block_header) (trust : bool)
    : result block_header_state :=
  let hh := sb_header h in
  _ ← bes_assert (negb (timestamp hh =? 0)) block_validate_exception;
  _ ← bes_assert (Z.of_nat (length (header_extensions hh)) =? 0) block_validate_exception;
  _ ← bes_assert (timestamp (sb_header (header s)) <? timestamp hh) block_validate_exception;
  _ ← bes_assert (bool_decide (previous hh = id s)) unlinkable_block_exception;
  r ← generate_next s (timestamp hh);
  _ ← bes_assert (producer (sb_header (header r)) =? producer hh) wrong_producer;
  _ ← bes_assert (schedule_version (sb_header (header r)) =? schedule_version hh)
        producer_schedule_exception;
  _ ← (match producer_to_last_produced s !! producer hh with
       | Some last => bes_assert (last <? u32 (block_num r - confirmed hh)) producer_double_confirm
       | None => mret tt
       end);
  let r := set_confirmed (confirmed hh) r in
  let '(r, was_pending_promoted) := maybe_promote_pending r in
  r ← (match new_producers hh with
       | Some np =>
           _ ← bes_assert (negb was_pending_promoted) producer_schedule_exception;
           set_new_producers np r
       | None => mret r
       end);
  let r := with_header (set_header_roots (action_mroot hh) (transaction_mroot hh)
             (producer_signature h) (header r)) r in
  let r := with_id (header_id (sb_header (header r))) r in
  _ ← (if trust then mret tt else
         k ← signee r; bes_assert (signing_key r =? k) wrong_signing_key);
  mret r.

Definition add_confirmation (conf : header_confirmation) (s : block_header_state)
    : result block_header_state :=
  _ ← bes_assert (forallb (fun c => negb (hc_producer c =? hc_producer conf)) (confirmations s))
        producer_double_confirm;
  let key := get_producer_key (active_schedule s) (hc_producer conf) in
  _ ← bes_assert (negb (key =? no_key)) producer_not_in_schedule;
  d ← sig_digest s;
  signer ← recover_key (hc_signature conf) d;
  _ ← bes_assert (signer =? key) wrong_signing_key;
  mret (with_confirmations (confirmations s ++ [conf]) s).

End header_state.

(** ** Byte order and block ids *)
Lemma endian_reverse_u32_bytes b0 b1 b2 b3 :
  0 <= b0 < 256 -> 0 <= b1 < 256 -> 0 <= b2 < 256 -> 0 <= b3 < 256 ->
  endian_reverse_u32 (b0 + b1 * 2 ^ 8 + b2 * 2 ^ 16 + b3 * 2 ^ 24)
  = b3 + b2 * 2 ^ 8 + b1 * 2 ^ 16 + b0 * 2 ^ 24.
Proof.
  intros. unfold endian_reverse_u32. change 255 with (2 ^ 8 - 1).
  rewrite !land_pow2_mod, !Z.shiftr_div_pow2 by lia.
  set (x := b0 + b1 * 2 ^ 8 + b2 * 2 ^ 16 + b3 * 2 ^ 24).
  assert (x mod 2 ^ 8 = b0) as -> by lia.
  assert (x / 2 ^ 8 mod 2 ^ 8 = b1) as -> by lia.
  assert (x / 2 ^ 16 mod 2 ^ 8 = b2) as -> by lia.
  assert (x / 2 ^ 24 mod 2 ^ 8 = b3) as -> by lia.
  rewrite (lor_shiftl_add b3 b2 8) by lia.
  rewrite (lor_shiftl_add (b3 + b2 * 2 ^ 8) b1 16) by lia.
  by rewrite (lor_shiftl_add (b3 + b2 * 2 ^ 8 + b1 * 2 ^ 16) b0 24) by lia.
Qed.

Lemma u32_bytes x : 0 <= x < 2 ^ 32 -> exists b0 b1 b2 b3,
  (0 <= b0 < 256 /\ 0 <= b1 < 256 /\ 0 <= b2 < 256 /\ 0 <= b3 < 256) /\
  x = b0 + b1 * 2 ^ 8 + b2 * 2 ^ 16 + b3 * 2 ^ 24.
Proof.
  intros. exists (x mod 256), (x / 2 ^ 8 mod 256), (x / 2 ^ 16 mod 256), (x / 2 ^ 24). lia.
Qed.

Lemma endian_reverse_u32_range x : 0 <= x < 2 ^ 32 -> 0 <= endian_reverse_u32 x < 2 ^ 32.
Proof.
  intros (b0 & b1 & b2 & b3 & (?&?&?&?) & ->)%u32_bytes. rewrite endian_reverse_u32_bytes; lia.
Qed.

Lemma endian_reverse_u32_involutive x :
  0 <= x < 2 ^ 32 -> endian_reverse_u32 (endian_reverse_u32 x) = x.
Proof.
  intros (b0 & b1 & b2 & b3 & (?&?&?&?) & ->)%u32_bytes.
  by rewrite !endian_reverse_u32_bytes by done.
Qed.

Lemma header_id_num `{Crypto} h :
  0 <= hash0 (hash_header h) < 2 ^ 64 -> num_from_id (header_id h) = header_block_num h.
Proof.
  intros Hh. unfold num_from_id, header_id. cbn [hash0].
  pose proof (u32_range (num_from_id (previous h) + 1)) as Hn. fold (header_block_num h) in Hn.
  pose proof (endian_reverse_u32_range _ Hn) as Hr.
  assert (Z.land (hash0 (hash_header h)) 0xffffffff00000000
          = hash0 (hash_header h) / 2 ^ 32 * 2 ^ 32) as ->.
  { rewrite <- Z.shiftr_div_pow2, <- Z.shiftl_mul_pow2 by lia.
    rewrite <- Z.ldiff_ones_r by lia.
    apply Z.bits_inj'. intros i Hi. rewrite Z.land_spec, Z.ldiff_spec.
    change 0xffffffff00000000 with (Z.shiftl (Z.ones 32) 32).
    rewrite Z.shiftl_spec by done. destruct (decide (i < 32)).
    - rewrite (Z.testbit_neg_r (Z.ones 32)), Z.ones_spec_low by lia. by rewrite !andb_false_r.
    - rewrite (Z.ones_spec_high 32 i) by lia. destruct (decide (i < 64)).
      + rewrite Z.ones_spec_low by lia. done.
      + rewrite <- (Z.mod_small (hash0 (hash_header h)) (2 ^ 64)) by done.
        rewrite Z.mod_pow2_bits_high by lia. done. }
  rewrite u64_small by lia. replace (u32 (_ + _)) with (endian_reverse_u32 (header_block_num h)).
  - by apply endian_reverse_u32_involutive.
  - unfold u32. rewrite Z.add_comm, Z.mod_add, Z.mod_small by lia. done.
Qed.

(** ** Order statistics of the implied irreversible numbers *)
Definition count_below (x : Z) (l : list Z) : nat := length (filter (fun v => v < x) l).

Lemma count_below_perm x l1 l2 : l1 ≡ₚ l2 -> count_below x l1 = count_below x l2.
Proof. intros Hp. unfold count_below. by rewrite Hp. Qed.

#[global] Instance count_below_proper x : Proper ((≡ₚ) ==> (=)) (count_below x).
Proof. intros ???. by apply count_below_perm. Qed.

Lemma count_below_cons x a l :
  count_below x (a :: l) = Nat.add (if decide (a < x) then 1%nat else 0%nat) (count_below x l).
Proof. unfold count_below. rewrite filter_cons. by case_decide. Qed.

Lemma count_below_ge x a l : x <= a -> Forall (Z.le a) l -> count_below x l = 0%nat.
Proof.
  intros Hx Hl. induction Hl as [|b l Hb Hl IH]; [done|].
  rewrite count_below_cons, decide_False by lia. done.
Qed.

(** In a sorted list the [k]-th element is at least [x] when at most [k] elements
    are below [x]. *)
Lemma sorted_nth_count l k v x :
  StronglySorted Z.le l -> l !! k = Some v -> x <= v <-> (count_below x l <= k)%nat.
Proof.
  intros Hs. revert k. induction Hs as [|a l Hs IH Hall]; intros k Hk; [done|].
  rewrite count_below_cons. destruct k as [|k].
  - injection Hk as ->. split.
    + intros Hx. rewrite decide_False, (count_below_ge x v l) by lia || done. done.
    + case_decide; lia.
  - cbn in Hk. case_decide as Ha.
    + rewrite (IH k Hk). lia.
    + rewrite (count_below_ge x a l) by lia || done.
      assert (a <= v). { rewrite Forall_forall in Hall. apply Hall, list_elem_of_lookup. eauto. }
      split; lia.
Qed.

Lemma implied_irbs_perm m : implied_irbs m ≡ₚ (map_to_list m).*2.
Proof. unfold implied_irbs. by rewrite asc_items_perm. Qed.

Lemma implied_irbs_length m : length (implied_irbs m) = size m.
Proof. rewrite implied_irbs_perm, length_fmap. apply length_map_to_list. Qed.

Lemma calc_dpos_spec m x : m <> ∅ ->
  x <= calc_dpos_last_irreversible m <->
  (count_below x (implied_irbs m) <= (size m - 1) / 3)%nat.
Proof.
  intros Hne. unfold calc_dpos_last_irreversible.
  assert (size m <> 0%nat) as Hsz by (by rewrite map_size_non_empty_iff).
  pose proof (merge_sort_Permutation Z.le (implied_irbs m)) as Hp.
  pose proof (StronglySorted_merge_sort Z.le (implied_irbs m)) as Hs.
  set (l := merge_sort Z.le (implied_irbs m)) in *.
  assert (length l = size m) as Hlen by (by rewrite Hp, implied_irbs_length).
  destruct (lookup_lt_is_Some_2 l ((length l - 1) / 3)%nat) as [v Hv]; [lia|].
  destruct l as [|a l'] eqn:El; [cbn in Hlen; lia|]. rewrite <- El in *. rewrite Hv. cbn [default].
  rewrite (sorted_nth_count l _ v x Hs Hv), Hlen. by rewrite (count_below_perm x _ _ Hp).
Qed.

Lemma calc_dpos_mono m p w0 w :
  m !! p = Some w0 -> w0 <= w ->
  calc_dpos_last_irreversible m <= calc_dpos_last_irreversible (<[p := w]> m).
Proof.
  intros Hp Hw. assert (Hne : m <> ∅) by (intros ->; by rewrite lookup_empty in Hp).
  apply calc_dpos_spec; [apply insert_non_empty|].
  assert (size (<[p := w]> m) = size m) as -> by (apply map_size_insert_Some; eauto).
  pose proof (proj1 (calc_dpos_spec m _ Hne) (Z.le_refl _)) as Hc.
  etrans; [|exact Hc]. set (x := calc_dpos_last_irreversible m).
  rewrite !implied_irbs_perm.
  assert (map_to_list (<[p := w]> m) ≡ₚ (p, w) :: map_to_list (delete p m)) as ->.
  { rewrite <- insert_delete_eq. apply map_to_list_insert. apply lookup_delete_eq. }
  assert (map_to_list m ≡ₚ (p, w0) :: map_to_list (delete p m)) as ->.
  { symmetry. by apply map_to_list_delete. }
  rewrite !fmap_cons, !count_below_cons. cbn [snd]. repeat case_decide; lia.
Qed.

(** ** What an accepted header satisfies *)
Section facts.
Context `{Crypto}.
Implicit Types (s r : block_header_state).

Record generated s (when : Z) (g : block_header_state) (pk : producer_key) : Prop := {
  gn_sched : get_scheduled_producer s when = Ok pk;
  gn_num : block_num g = u32 (block_num s + 1);
  gn_header : sb_header (header g) =
    BlockHeader when (producer_name pk) 1 (id s) digest_nil digest_nil
      (version (active_schedule s)) None [];
  gn_proposed : dpos_proposed_irreversible_blocknum g = dpos_proposed_irreversible_blocknum s;
  gn_irb : producer_to_last_implied_irb g =
    <[producer_name pk := dpos_proposed_irreversible_blocknum s]> (producer_to_last_implied_irb s);
  gn_lib : dpos_irreversible_blocknum g =
    calc_dpos_last_irreversible (producer_to_last_implied_irb g);
  gn_last : producer_to_last_produced g =
    <[producer_name pk := block_num g]> (producer_to_last_produced s);
  gn_active : active_schedule g = active_schedule s;
  gn_pending : pending_schedule g = pending_schedule s;
  gn_key : signing_key g = block_signing_key pk;
  gn_confirm : confirm_count g = grow_confirm_count s
}.

Lemma generate_next_inv s when g :
  generate_next s when = Ok g -> when <> 0 ->
  timestamp (sb_header (header s)) < when /\ exists pk, generated s when g pk.
Proof.
  intros Hg Hw. unfold generate_next in Hg. rewrite (proj2 (Z.eqb_neq when 0)) in Hg by done.
  cbn [negb] in Hg. bind_ok Hg as (w & Hw1 & Hg).
  bind_ok Hw1 as ([] & Ht%bes_assert_ok & [= <-]).
  bool_to_prop. split; [done|].
  bind_ok Hg as (pk & Hpk & Hg).
  bind_ok Hg as ([bm d] & Hbm & Hg).
  bind_ok Hg as (root & _ & [= <-]).
  exists pk. by split.
Qed.

Record accepted s (h : signed_block_header) (trust : bool) r
    (g r1 r2 : block_header_state) (promoted : bool) : Prop := {
  ac_time : timestamp (sb_header (header s)) < timestamp (sb_header h);
  ac_nonzero : timestamp (sb_header h) <> 0;
  ac_ext : header_extensions (sb_header h) = [];
  ac_link : previous (sb_header h) = id s;
  ac_gen : generate_next s (timestamp (sb_header h)) = Ok g;
  ac_producer : producer (sb_header (header g)) = producer (sb_header h);
  ac_version : schedule_version (sb_header (header g)) = schedule_version (sb_header h);
  ac_double : forall last, producer_to_last_produced s !! producer (sb_header h) = Some last ->
    last < u32 (block_num g - confirmed (sb_header h));
  ac_promote : maybe_promote_pending (set_confirmed (confirmed (sb_header h)) g) = (r1, promoted);
  ac_new : match new_producers (sb_header h) with
           | Some np => promoted = false /\ set_new_producers np r1 = Ok r2
           | None => r2 = r1
           end;
  ac_result : r = let hd := set_header_roots (action_mroot (sb_header h))
                    (transaction_mroot (sb_header h)) (producer_signature h) (header r2) in
                  with_id (header_id (sb_header hd)) (with_header hd r2);
  ac_signed : trust = false -> signee r = Ok (signing_key r)
}.

Lemma next_inv s h trust r :
  next s h trust = Ok r -> exists g r1 r2 promoted, accepted s h trust r g r1 r2 promoted.
Proof.
  intros Hn. unfold next in Hn.
  bind_ok Hn as ([] & H1%bes_assert_ok & Hn).
  bind_ok Hn as ([] & H2%bes_assert_ok & Hn).
  bind_ok Hn as ([] & H3%bes_assert_ok & Hn).
  bind_ok Hn as ([] & H4%bes_assert_ok & Hn).
  bind_ok Hn as (g & Hg & Hn).
  bind_ok Hn as ([] & H5%bes_assert_ok & Hn).
  bind_ok Hn as ([] & H6%bes_assert_ok & Hn).
  bind_ok Hn as ([] & H7 & Hn).
  destruct (maybe_promote_pending _) as [r1 promoted] eqn:Hp.
  bind_ok Hn as (r2 & H8 & Hn).
  bind_ok Hn as ([] & H9 & Hr).
  apply (inj Ok) in Hr.
  bool_to_prop. exists g, r1, r2, promoted.
  split; try done.
  - destruct (header_extensions _); [done|]. cbn in *. lia.
  - intros last Hl. rewrite Hl in H7. apply bes_assert_ok in H7. by bool_to_prop.
  - destruct (new_producers _) as [np|]; [|by injection H8].
    bind_ok H8 as ([] & H8%bes_assert_ok & H8'). by bool_to_prop.
  - intros ->. bind_ok H9 as (k & Hk & H9%bes_assert_ok).
    bool_to_prop. subst r k. exact Hk.
Qed.

(** ** The window of confirmation counts *)

(** Entry [j] of the window is about block [num - (length - 1 - j)]. *)
Lemma confirm_loop_spec num k n cc cc' o :
  (k <= length cc)%nat -> confirm_loop num k n cc = (cc', o) ->
  match o with
  | None => length cc' = length cc
  | Some b => exists i, (i < k)%nat /\ length cc' = (length cc - 1 - i)%nat /\
                b = u32 (num - Z.of_nat (length cc'))
  end.
Proof.
  revert n cc. induction k as [|i IH]; intros n cc Hk; cbn; [by intros [= <- <-]|].
  destruct (n =? 0); [by intros [= <- <-]|].
  destruct (u8 _ =? 0) eqn:E.
  - intros [= <- <-]. exists i. rewrite length_drop, length_insert. split_and!; [lia..|].
    do 2 f_equal. lia.
  - intros Hl. specialize (IH (n - 1) (<[i := u8 (default 0 (cc !! i) - 1)]> cc)).
    rewrite length_insert in IH. specialize (IH ltac:(lia) Hl). destruct o as [b|]; [|done].
    destruct IH as (i' & ? & ? & ?). exists i'. split_and!; try done. lia.
Qed.

(** The proposed irreversible block is older than every block of the window. *)
Definition window_ok s : Prop :=
  0 <= dpos_proposed_irreversible_blocknum s /\
  dpos_proposed_irreversible_blocknum s + Z.of_nat (length (confirm_count s)) <= block_num s.

(** Every implied irreversible number is at most the proposed one. *)
Definition irbs_ok s : Prop := forall p b, producer_to_last_implied_irb s !! p = Some b ->
  0 <= b <= dpos_proposed_irreversible_blocknum s.

Lemma grow_length s : (length (grow_confirm_count s) <= length (confirm_count s) + 1)%nat.
Proof.
  unfold grow_confirm_count. destruct (_ <? _)%nat; rewrite length_app, ?length_drop; cbn; lia.
Qed.

Lemma set_confirmed_proposed c g :
  0 <= block_num g < 2 ^ 32 -> window_ok g ->
  window_ok (set_confirmed c g) /\
  dpos_proposed_irreversible_blocknum g <= dpos_proposed_irreversible_blocknum (set_confirmed c g).
Proof.
  intros Hb [H0 Hw]. unfold set_confirmed, window_ok. cbn [block_num with_header confirm_count].
  destruct (confirm_loop _ _ _ _) as [cc o] eqn:E.
  apply confirm_loop_spec in E; [|done]. destruct o as [b|].
  - destruct E as (i & Hi & Hl & ->). cbn. rewrite u32_small by lia. lia.
  - cbn. rewrite E. lia.
Qed.
End facts.

(** ** Confirmation counting along a chain of headers *)
Section chain.
Context `{Crypto}.
Implicit Types (s r : block_header_state).

Lemma confirm_loop_counts num k n cc cc' o :
  (k <= length cc)%nat -> 0 <= n -> Forall (fun c => 0 < c < 256) cc ->
  confirm_loop num k n cc = (cc', o) ->
  match o with
  | None => length cc' = length cc /\ forall j c, cc !! j = Some c ->
      exists c', cc' !! j = Some c' /\ 0 < c' /\
        c' = c - (if decide (Z.of_nat k - n <= Z.of_nat j < Z.of_nat k) then 1 else 0)
  | Some b => exists i, (i < k)%nat /\ Z.of_nat k - n <= Z.of_nat i /\ cc !! i = Some 1 /\
      b = u32 (num - Z.of_nat (length cc - 1 - i)) /\ length cc' = (length cc - 1 - i)%nat /\
      forall j c, (i < j)%nat -> cc !! j = Some c ->
        exists c', cc' !! (j - S i)%nat = Some c' /\ 0 < c' /\
          c' = c - (if decide (Z.of_nat j < Z.of_nat k) then 1 else 0)
  end.
Proof.
  revert n cc. induction k as [|i IH]; intros n cc Hk Hn Hcc; cbn -[Z.of_nat].
  { intros [= <- <-]. split; [done|]. intros j c Hj. exists c.
    rewrite Forall_lookup in Hcc. specialize (Hcc _ _ Hj). cbn beta in Hcc.
    rewrite decide_False by lia. split_and!; lia || done. }
  destruct (n =? 0) eqn:En.
  { intros [= <- <-]. split; [done|]. intros j c Hj. exists c.
    rewrite Forall_lookup in Hcc. specialize (Hcc _ _ Hj). cbn beta in Hcc.
    rewrite decide_False by lia. split_and!; lia || done. }
  destruct (lookup_lt_is_Some_2 cc i) as [v Hv]; [lia|]. rewrite Hv. cbn [default].
  pose proof (proj1 (Forall_lookup _ _) Hcc _ _ Hv) as Hvr. cbn beta in Hvr.
  unfold u8. rewrite (Z.mod_small (v - 1)) by lia. bool_to_prop.
  destruct (v - 1 =? 0) eqn:Ez; bool_to_prop.
  - intros [= <- <-]. exists i. rewrite length_drop, length_insert.
    assert (v = 1) as -> by lia. split_and!; try lia || done.
    intros j c Hij Hj. exists c. rewrite lookup_drop.
    replace (S i + (j - S i))%nat with j by lia. rewrite list_lookup_insert_ne by lia.
    rewrite Forall_lookup in Hcc. specialize (Hcc _ _ Hj). cbn beta in Hcc.
    rewrite decide_False by lia. split_and!; lia || done.
  - intros Hl. apply IH in Hl; [|rewrite length_insert; lia|lia|by apply Forall_insert; [|lia]].
    rewrite length_insert in Hl. destruct o as [b|].
    + destruct Hl as (i' & Hi' & Hn' & Hone & Hb & Hlen & Hrest).
      rewrite list_lookup_insert_ne in Hone by lia. exists i'. split_and!; try lia || done.
      intros j c Hij Hj. destruct (decide (j = i)) as [->|Hne].
      * destruct (Hrest i (v - 1)) as (c' & ? & ? & ?);
          [lia|apply list_lookup_insert_eq; lia|]. exists c'.
        assert (c = v) as -> by congruence.
        rewrite decide_True by lia. rewrite decide_False in * by lia. split_and!; lia || done.
      * destruct (Hrest j c) as (c' & ? & ? & Hc'); [lia|by rewrite list_lookup_insert_ne|].
        exists c'. split_and!; [done..|]. rewrite Hc'.
        destruct (decide (Z.of_nat j < Z.of_nat i)), (decide (Z.of_nat j < Z.of_nat (S i))); lia.
    + destruct Hl as [Hlen Hrest]. split; [done|]. intros j c Hj.
      destruct (decide (j = i)) as [->|Hne].
      * destruct (Hrest i (v - 1)) as (c' & ? & ? & ?); [apply list_lookup_insert_eq; lia|].
        exists c'. assert (c = v) as -> by congruence.
        rewrite decide_True by lia. rewrite decide_False in * by lia. split_and!; lia || done.
      * destruct (Hrest j c) as (c' & ? & ? & Hc'); [by rewrite list_lookup_insert_ne|].
        exists c'. split_and!; [done..|]. rewrite Hc'.
        destruct (decide (Z.of_nat i - (n - 1) <= Z.of_nat j < Z.of_nat i)),
          (decide (Z.of_nat (S i) - n <= Z.of_nat j < Z.of_nat (S i))); lia.
Qed.

(** One accepted block: its number, its producer, and how many of its predecessors it
    confirms. [set_confirmed] also counts the block itself ("confirm the head block
    too"), so the range that [confirm_loop] and [next] work with is
    [number - confirmed .. number]; the comment on [block_header::confirmed] excludes
    the block itself and says that a producer cannot confirm it. *)
Record entry := Entry { e_num : Z; e_producer : account_name; e_confirmed : Z }.
Definition confirms (e : entry) (b : Z) : Prop := e_num e - e_confirmed e <= b <= e_num e.
#[local] Instance confirms_dec e b : Decision (confirms e b).
Proof. unfold confirms. apply _. Defined.
Definition confirmers (H' : list entry) (b : Z) : list entry := filter (fun e => confirms e b) H'.

(** Accepted headers, newest first, with no change of schedule and no header that
    claims to confirm blocks before the first one. *)
Inductive chain (s0 : block_header_state) : list entry -> block_header_state -> Prop :=
| chain_nil : chain s0 [] s0
| chain_next es s h trust r :
    chain s0 es s -> next s h trust = Ok r ->
    new_producers (sb_header h) = None ->
    0 <= confirmed (sb_header h) <= block_num s -> block_num s + 1 < 2 ^ 32 ->
    chain s0 (Entry (block_num r) (producer (sb_header h)) (confirmed (sb_header h)) :: es) r.

(** More than two thirds of the active producers, each through a block of their
    own, confirmed block [b]. *)
Definition quorum (s0 : block_header_state) (es : list entry) (b : Z) : Prop :=
  exists ps : list account_name, NoDup ps /\
    3 * Z.of_nat (length ps) > 2 * Z.of_nat (length (producers (active_schedule s0))) /\
    forall p, p ∈ ps -> (exists pk, pk ∈ producers (active_schedule s0) /\ producer_name pk = p) /\
      exists e, e ∈ es /\ e_producer e = p /\ confirms e b.

(** What a chain maintains: each open count is the number of confirmations still
    missing, and a producer confirms every block at most once. *)
Record chain_inv s0 (es : list entry) r : Prop := {
  ci_active : active_schedule r = active_schedule s0;
  ci_pending : producers (pending_schedule r) = [];
  ci_range : block_num s0 <= block_num r < 2 ^ 32;
  ci_window : Z.of_nat (length (confirm_count r)) <= block_num r;
  ci_counts : forall j c, confirm_count r !! j = Some c -> 0 < c /\
    c = required_confs s0 - Z.of_nat (length (confirmers es
          (block_num r - Z.of_nat (length (confirm_count r) - 1 - j))));
  ci_below : forall e, e ∈ es -> e_num e <= block_num r;
  ci_last : forall e, e ∈ es ->
    exists l, producer_to_last_produced r !! e_producer e = Some l /\ e_num e <= l;
  ci_sched : forall e, e ∈ es -> exists pk, pk ∈ producers (active_schedule s0) /\
    producer_name pk = e_producer e;
  ci_once : forall b, NoDup (e_producer <$> confirmers es b);
  ci_proposed : dpos_proposed_irreversible_blocknum r = dpos_proposed_irreversible_blocknum s0 \/
    quorum s0 es (dpos_proposed_irreversible_blocknum r)
}.

Lemma confirmers_cons e es b :
  confirmers (e :: es) b = if decide (confirms e b) then e :: confirmers es b else confirmers es b.
Proof. unfold confirmers. rewrite filter_cons. by case_decide. Qed.

Lemma quorum_weaken s0 es e b : quorum s0 es b -> quorum s0 (e :: es) b.
Proof.
  intros (ps & Hnd & Hlen & Hps). exists ps. split_and!; [done..|].
  intros p Hp. destruct (Hps p Hp) as [? (e' & ? & ?)]. split; [done|].
  exists e'. split; [by right|done].
Qed.

Lemma confirmers_quorum s0 es b :
  (forall e, e ∈ es -> exists pk, pk ∈ producers (active_schedule s0) /\
     producer_name pk = e_producer e) ->
  NoDup (e_producer <$> confirmers es b) ->
  3 * Z.of_nat (length (confirmers es b)) > 2 * Z.of_nat (length (producers (active_schedule s0))) ->
  quorum s0 es b.
Proof.
  intros Hs Hnd Hlen. exists (e_producer <$> confirmers es b). rewrite length_fmap.
  split_and!; [done..|]. intros p (e & -> & [He1 He2]%list_elem_of_filter)%list_elem_of_fmap.
  split; [by apply Hs|]. by exists e.
Qed.

Lemma get_scheduled_in s t pk :
  get_scheduled_producer s t = Ok pk -> pk ∈ producers (active_schedule s).
Proof.
  unfold get_scheduled_producer. destruct (_ =? 0); [done|].
  destruct (_ !! _) as [pk'|] eqn:E; [|done]. cbn. intros [= <-].
  apply list_elem_of_lookup. eauto.
Qed.

(** The step without a schedule change: the new state is the generated one with
    the confirmations of the header counted. *)
Lemma next_same_schedule s h trust r :
  next s h trust = Ok r -> new_producers (sb_header h) = None ->
  producers (pending_schedule s) = [] ->
  exists g pk, generated s (timestamp (sb_header h)) g pk /\
    producer_name pk = producer (sb_header h) /\
    (forall last, producer_to_last_produced s !! producer (sb_header h) = Some last ->
       last < u32 (block_num g - confirmed (sb_header h))) /\
    active_schedule r = active_schedule g /\ pending_schedule r = pending_schedule g /\
    block_num r = block_num g /\ producer_to_last_produced r = producer_to_last_produced g /\
    producer_to_last_implied_irb r = producer_to_last_implied_irb g /\
    dpos_irreversible_blocknum r = dpos_irreversible_blocknum g /\
    (confirm_count r, dpos_proposed_irreversible_blocknum r) =
      match confirm_loop (block_num g) (length (confirm_count g))
              (confirmed (sb_header h) + 1) (confirm_count g) with
      | (cc, None) => (cc, dpos_proposed_irreversible_blocknum g)
      | (cc, Some n) => (cc, n)
      end.
Proof.
  intros (g & r1 & r2 & pr & Ha)%next_inv Hnp Hpend. destruct Ha.
  destruct (generate_next_inv _ _ _ ac_gen0 ac_nonzero0) as (_ & pk & Hg). exists g, pk.
  split; [done|]. destruct Hg. rewrite Hnp in ac_new0. subst r2.
  unfold maybe_promote_pending, set_confirmed in ac_promote0.
  rewrite gn_header0 in ac_producer0. cbn in ac_producer0.
  cbn [block_num with_header confirm_count] in ac_promote0.
  destruct (confirm_loop _ _ _ _) as [cc [n|]];
    cbn in ac_promote0; rewrite gn_pending0, Hpend in ac_promote0; cbn in ac_promote0;
    injection ac_promote0 as <- <-; subst r; cbn; split_and!; done.
Qed.

Lemma required_confs_range s :
  (length (producers (active_schedule s)) <= max_producers)%nat -> 0 < required_confs s < 256.
Proof.
  unfold required_confs, max_producers. intros Hl. rewrite u32_small; lia.
Qed.

Lemma confirmers_future es b : (forall e, e ∈ es -> e_num e < b) -> confirmers es b = [].
Proof.
  intros Hlt. unfold confirmers. destruct (filter _ es) as [|e l] eqn:E; [done|].
  assert (e ∈ filter (fun e => confirms e b) es) as [Hc He]%list_elem_of_filter
    by (rewrite E; by left).
  specialize (Hlt e He). unfold confirms in Hc. lia.
Qed.

Lemma grown_counts s0 es s :
  (length (producers (active_schedule s0)) <= max_producers)%nat -> chain_inv s0 es s ->
  forall j c, grow_confirm_count s !! j = Some c -> 0 < c < 256 /\
    c = required_confs s0 - Z.of_nat (length (confirmers es
          (block_num s + 1 - Z.of_nat (length (grow_confirm_count s) - 1 - j)))).
Proof.
  intros Hmax Hi j c Hj. pose proof (required_confs_range s0 Hmax) as Hreq.
  assert (required_confs s = required_confs s0) as Hrs
    by (unfold required_confs; by rewrite (ci_active _ _ _ Hi)).
  set (old := if (length (confirm_count s) <? maximum_tracked_dpos_confirmations)%nat
              then confirm_count s else drop 1 (confirm_count s)).
  assert (Hg : grow_confirm_count s = old ++ [u8 (required_confs s)])
    by (unfold grow_confirm_count, old; by destruct (_ <? _)%nat).
  rewrite Hg in Hj |- *. rewrite length_app. cbn [length].
  apply lookup_app_Some in Hj as [Hj|[Hlen Hj]].
  - pose proof (lookup_lt_Some _ _ _ Hj) as Hlt.
    assert (exists j', confirm_count s !! j' = Some c /\
      (length (confirm_count s) - 1 - j' = length old - 1 - j)%nat) as (j' & Hj' & Hjj).
    { unfold old in *. destruct (_ <? _)%nat; [by exists j|].
      rewrite lookup_drop in Hj. rewrite length_drop in Hlt |- *. exists (1 + j)%nat.
      split; [done|lia]. }
    destruct (ci_counts _ _ _ Hi j' c Hj') as [Hpos Hc]. rewrite Hjj in Hc.
    replace (block_num s + 1 - Z.of_nat (length old + 1 - 1 - j))
      with (block_num s - Z.of_nat (length old - 1 - j)) by lia. split; [|done]. lia.
  - apply list_lookup_singleton_Some in Hj as [Hj <-]. rewrite Hrs. unfold u8.
    rewrite Z.mod_small by lia. rewrite confirmers_future; [cbn; lia|].
    intros e He. pose proof (ci_below _ _ _ Hi e He). lia.
Qed.

(** One pass of the loop counts the confirmations of one more block. *)
Lemma confirm_loop_confirmers req es (p : account_name) num cf cc cc' o :
  0 <= cf -> Z.of_nat (length cc) <= num < 2 ^ 32 ->
  (forall j c, cc !! j = Some c -> 0 < c < 256 /\
     c = req - Z.of_nat (length (confirmers es (num - Z.of_nat (length cc - 1 - j))))) ->
  confirm_loop num (length cc) (cf + 1) cc = (cc', o) ->
  (length cc' <= length cc)%nat /\
  (forall j c, cc' !! j = Some c -> 0 < c /\
     c = req - Z.of_nat (length (confirmers (Entry num p cf :: es)
           (num - Z.of_nat (length cc' - 1 - j))))) /\
  (forall b, o = Some b -> Z.of_nat (length (confirmers (Entry num p cf :: es) b)) = req).
Proof.
  intros Hcf Hnum Hcc Hl. apply confirm_loop_counts in Hl; [|lia..|].
  2:{ apply Forall_lookup. intros j c Hj. by apply Hcc in Hj as [? _]. }
  destruct o as [b|].
  - destruct Hl as (i & Hi & Hin & Hone & -> & Hlen & Hrest). split; [lia|]. split.
    + intros j c' Hj. pose proof (lookup_lt_Some _ _ _ Hj).
      destruct (lookup_lt_is_Some_2 cc (S i + j)) as [c Hc]; [lia|].
      destruct (Hrest (S i + j)%nat c) as (c'' & Hc'' & Hpos & Hv); [lia|done|].
      replace (S i + j - S i)%nat with j in Hc'' by lia. simplify_eq.
      split; [done|]. destruct (Hcc _ _ Hc) as [_ ->]. rewrite Hlen.
      replace (length cc - 1 - (S i + j))%nat with (length cc - 1 - i - 1 - j)%nat by lia.
      rewrite confirmers_cons, !decide_True by (unfold confirms; cbn; lia). cbn. lia.
    + intros b [= <-]. destruct (Hcc _ _ Hone) as [_ Hc]. rewrite u32_small by lia.
      rewrite confirmers_cons, decide_True by (unfold confirms; cbn; lia). cbn. lia.
  - destruct Hl as [Hlen Hrest]. split; [lia|]. split; [|done]. rewrite Hlen.
    intros j c' Hj. pose proof (lookup_lt_Some _ _ _ Hj).
    destruct (lookup_lt_is_Some_2 cc j) as [c Hc]; [lia|].
    destruct (Hrest j c Hc) as (c'' & Hc'' & Hpos & Hv). simplify_eq. split; [done|].
    destruct (Hcc _ _ Hc) as [_ ->]. rewrite confirmers_cons. unfold confirms. cbn [e_num e_confirmed].
    destruct (decide (Z.of_nat (length cc) - (cf + 1) <= Z.of_nat j < Z.of_nat (length cc)));
      destruct (decide (_ <= num - Z.of_nat (length cc - 1 - j) <= num)); cbn; lia.
Qed.

Lemma chain_inv_next s0 es s h trust r :
  (length (producers (active_schedule s0)) <= max_producers)%nat ->
  0 <= block_num s0 ->
  chain_inv s0 es s -> next s h trust = Ok r -> new_producers (sb_header h) = None ->
  0 <= confirmed (sb_header h) <= block_num s -> block_num s + 1 < 2 ^ 32 ->
  chain_inv s0 (Entry (block_num r) (producer (sb_header h)) (confirmed (sb_header h)) :: es) r.
Proof.
  intros Hmax H0 Hi Hn Hnp Hcf Hlt.
  destruct (next_same_schedule _ _ _ _ Hn Hnp (ci_pending _ _ _ Hi))
    as (g & pk & Hg & Hp & Hdbl & Ha & Hpe & Hb & Hlp & _ & _ & Hcc).
  pose proof (grown_counts _ _ _ Hmax Hi) as Hgc.
  pose proof (grow_length s) as Hgl. pose proof (required_confs_range s0 Hmax) as Hreq.
  destruct Hg, Hi. rewrite (u32_small (block_num s + 1)) in gn_num0 by lia.
  rewrite gn_num0 in *. rewrite Hb. rewrite gn_confirm0 in Hcc.
  rewrite (u32_small (block_num s + 1 - confirmed (sb_header h))) in Hdbl by lia.
  assert (Hsch : pk ∈ producers (active_schedule s0))
    by (rewrite <- ci_active0; by eapply get_scheduled_in).
  assert (Hlast : producer_to_last_produced r !! producer (sb_header h) = Some (block_num s + 1))
    by (rewrite Hlp, gn_last0, Hp; apply lookup_insert_eq).
  destruct (confirm_loop _ _ _ _) as [cc' o] eqn:El.
  apply (confirm_loop_confirmers (required_confs s0) es (producer (sb_header h))) in El;
    [|lia..|exact Hgc].
  destruct El as (Hlen & Hc & Ho).
  assert (confirm_count r = cc') as Hcr by (destruct o; congruence).
  set (e0 := Entry (block_num s + 1) (producer (sb_header h)) (confirmed (sb_header h))) in *.
  assert (Hsched : forall e, e ∈ e0 :: es -> exists pk, pk ∈ producers (active_schedule s0) /\
    producer_name pk = e_producer e)
    by (intros e [->|He]%elem_of_cons; [by exists pk|by apply ci_sched0]).
  assert (Honce : forall b, NoDup (e_producer <$> confirmers (e0 :: es) b)).
  { intros b. rewrite confirmers_cons. case_decide as Hc0; [|done].
    cbn. apply NoDup_cons. split; [|done].
    intros (e & He & [Hce Hin]%list_elem_of_filter)%list_elem_of_fmap.
    destruct (ci_last0 e Hin) as (l & Hl & Hle). rewrite <- He in Hl. apply Hdbl in Hl.
    unfold confirms in *. cbn in Hc0. lia. }
  split; rewrite ?Hb, ?Hcr; try done; try lia.
  - congruence.
  - congruence.
  - intros e [->|He]%elem_of_cons; [done|]. apply ci_below0 in He. lia.
  - intros e [->|He]%elem_of_cons; [by exists (block_num s + 1)|].
    destruct (decide (e_producer e = producer (sb_header h))) as [->|Hne].
    + exists (block_num s + 1). apply ci_below0 in He. split; [done|lia].
    + rewrite Hlp, gn_last0, Hp, lookup_insert_ne by done. by apply ci_last0.
  - destruct o as [b|]; injection Hcc as _ ->.
    + right. apply confirmers_quorum; [done..|]. rewrite (Ho b eq_refl).
      unfold required_confs in *. rewrite u32_small by (unfold max_producers in *; lia). lia.
    + rewrite gn_proposed0. destruct ci_proposed0 as [?|?]; [by left|].
      right. by apply quorum_weaken.
Qed.
End chain.

(** ** Irreversible block numbers *)
Lemma count_below_map x (m : gmap Z Z) :
  count_below x (implied_irbs m) = size (filter (fun kv => kv.2 < x) m).
Proof.
  rewrite implied_irbs_perm, <- length_map_to_list, map_filter_alt. unfold count_below.
  rewrite map_to_list_to_map.
  2:{ pose proof (NoDup_fst_map_to_list m) as Hnd. eapply sublist_NoDup; [exact Hnd|].
      apply fmap_sublist, sublist_filter. }
  generalize (map_to_list m). intros l.
  induction l as [|[k v] l IH]; [done|]. rewrite fmap_cons, !filter_cons. cbn [snd].
  case_decide; cbn; by rewrite IH.
Qed.

Lemma calc_dpos_two_thirds m x : m <> ∅ ->
  x <= calc_dpos_last_irreversible m <->
  3 * Z.of_nat (size (filter (fun kv => kv.2 < x) m)) < Z.of_nat (size m).
Proof.
  intros Hne. rewrite calc_dpos_spec, count_below_map by done.
  assert (size m <> 0%nat) by (by rewrite map_size_non_empty_iff). lia.
Qed.

Lemma filter_below_empty (m : gmap Z Z) x :
  (forall p b, m !! p = Some b -> x <= b) -> filter (fun kv => kv.2 < x) m = ∅.
Proof.
  intros Hm. apply map_empty. intros p. apply map_lookup_filter_None. right.
  intros b Hb ?. cbn in *. specialize (Hm p b Hb). lia.
Qed.

Lemma calc_dpos_lower m x :
  m <> ∅ -> (forall p b, m !! p = Some b -> x <= b) -> x <= calc_dpos_last_irreversible m.
Proof.
  intros Hne Hm. apply calc_dpos_two_thirds; [done|]. rewrite filter_below_empty by done.
  rewrite map_size_empty. assert (size m <> 0%nat) by (by rewrite map_size_non_empty_iff). lia.
Qed.

Lemma calc_dpos_upper m w :
  0 <= w -> (forall p b, m !! p = Some b -> b <= w) -> calc_dpos_last_irreversible m <= w.
Proof.
  intros Hw Hm. destruct (decide (m = ∅)) as [->|Hne]; [done|].
  destruct (decide (calc_dpos_last_irreversible m <= w)) as [|Hgt]; [done|].
  assert (w + 1 <= calc_dpos_last_irreversible m) as Hc by lia.
  apply calc_dpos_two_thirds in Hc; [|done]. rewrite map_filter_id in Hc; [lia|].
  intros p b Hp. cbn. specialize (Hm p b Hp). lia.
Qed.

(** A producer that moves its number to the largest one never moves the
    irreversible number back, tracked before or not. *)
Lemma calc_dpos_insert m p w :
  0 <= w -> (forall q b, m !! q = Some b -> 0 <= b <= w) ->
  calc_dpos_last_irreversible m <= calc_dpos_last_irreversible (<[p := w]> m).
Proof.
  intros Hw Hm. destruct (m !! p) as [w0|] eqn:Hp.
  { apply calc_dpos_mono with w0; [done|]. by apply Hm in Hp as [_ ?]. }
  destruct (decide (m = ∅)) as [->|Hne].
  { apply calc_dpos_lower; [apply insert_non_empty|]. intros q b.
    rewrite lookup_insert_Some, lookup_empty. by intros [[_ <-]|[_ ?]]. }
  assert (calc_dpos_last_irreversible m <= w) as Hc
    by (apply calc_dpos_upper; [done|]; intros q b Hq; by apply Hm in Hq as [_ ?]).
  apply calc_dpos_two_thirds; [apply insert_non_empty|].
  rewrite map_filter_insert_False by (cbn; lia). rewrite delete_id by done.
  rewrite map_size_insert_None by done.
  pose proof (proj1 (calc_dpos_two_thirds m _ Hne) (Z.le_refl _)). lia.
Qed.

Lemma carry_over_lookup lib old ps p b :
  carry_over lib old ps !! p = Some b -> b = lib \/ old !! p = Some b.
Proof.
  unfold carry_over. assert (forall m, (forall q c, m !! q = Some c -> c = lib \/ old !! q = Some c) ->
    foldl (fun (m : gmap Z Z) pro => <[producer_name pro := default lib (old !! producer_name pro)]> m)
      m ps !! p = Some b -> b = lib \/ old !! p = Some b) as Hg.
  2:{ apply Hg. intros q c. by rewrite lookup_empty. }
  induction ps as [|pro ps IH]; intros m Hm; cbn; [apply Hm|].
  apply IH. intros q c. rewrite lookup_insert_Some.
  intros [[<- <-]|[_ Hq]]; [|by apply Hm].
  destruct (old !! producer_name pro) eqn:E; cbn; [by right|by left].
Qed.

Section irreversibility.
Context `{Crypto}.
Implicit Types (s r : block_header_state).

(** The order between the irreversible, the proposed and the open blocks. *)
Record irr_ok s : Prop := {
  io_window : window_ok s;
  io_irbs : irbs_ok s;
  io_lib : 0 <= dpos_irreversible_blocknum s <= dpos_proposed_irreversible_blocknum s
}.

Lemma generated_irr_ok s when g pk :
  generated s when g pk -> 0 <= block_num s -> block_num s + 1 < 2 ^ 32 -> irr_ok s -> irr_ok g.
Proof.
  intros Hg H0 Hlt [[Hp Hw] Hi Hl]. destruct Hg.
  assert (irbs_ok g).
  { intros p b. rewrite gn_irb0, gn_proposed0, lookup_insert_Some.
    intros [[_ <-]|[_ Hb]]; [lia|by apply Hi in Hb]. }
  split; [|done|].
  - split; [lia|]. rewrite gn_proposed0, gn_num0, gn_confirm0, u32_small by lia.
    pose proof (grow_length s). lia.
  - rewrite gn_lib0. split.
    + apply calc_dpos_lower; [rewrite gn_irb0; apply insert_non_empty|].
      intros p b Hb%H1. lia.
    + apply calc_dpos_upper; [lia|]. intros p b Hb%H1. lia.
Qed.

Lemma set_confirmed_keeps c g :
  producer_to_last_implied_irb (set_confirmed c g) = producer_to_last_implied_irb g /\
  dpos_irreversible_blocknum (set_confirmed c g) = dpos_irreversible_blocknum g /\
  block_num (set_confirmed c g) = block_num g.
Proof. unfold set_confirmed. by destruct (confirm_loop _ _ _ _) as [cc [n|]]. Qed.

Lemma set_confirmed_irr_ok c g :
  0 <= block_num g < 2 ^ 32 -> irr_ok g -> irr_ok (set_confirmed c g).
Proof.
  intros Hb [Hw Hi Hl]. destruct (set_confirmed_proposed c g Hb Hw) as [Hw' Hm].
  destruct (set_confirmed_keeps c g) as (Hirb & Hlib & Hnum).
  split; [done| |rewrite Hlib; lia].
  intros p b. rewrite Hirb. intros Hp%Hi. lia.
Qed.

Lemma promote_irr_ok s r b : maybe_promote_pending s = (r, b) -> irr_ok s ->
  irr_ok r /\ dpos_irreversible_blocknum r = dpos_irreversible_blocknum s /\
  dpos_proposed_irreversible_blocknum r = dpos_proposed_irreversible_blocknum s.
Proof.
  unfold maybe_promote_pending. destruct (_ && _); intros [= <- <-] Hs; [|done].
  destruct Hs as [[Hp Hw] Hi Hl]. split; [|done]. split; [done| |done].
  intros p c. cbn. intros [->|Hc]%carry_over_lookup; [lia|by apply Hi in Hc].
Qed.

Lemma set_new_producers_keeps np s r : set_new_producers np s = Ok r ->
  (irr_ok s -> irr_ok r) /\ dpos_irreversible_blocknum r = dpos_irreversible_blocknum s /\
  dpos_proposed_irreversible_blocknum r = dpos_proposed_irreversible_blocknum s.
Proof.
  unfold set_new_producers. rewrite result_bind_ok. intros ([] & _ & Hr).
  bind_ok Hr as ([] & _ & [= <-]). split; [|done].
  intros [??]. by split.
Qed.

Lemma irr_ok_header i hd s : irr_ok s -> irr_ok (with_id i (with_header hd s)).
Proof. intros [??]. by split. Qed.

Lemma next_irr_ok s h trust r :
  irr_ok s -> 0 <= block_num s -> block_num s + 1 < 2 ^ 32 -> next s h trust = Ok r ->
  irr_ok r /\
  dpos_proposed_irreversible_blocknum s <= dpos_proposed_irreversible_blocknum r /\
  exists p, dpos_irreversible_blocknum r = calc_dpos_last_irreversible
    (<[p := dpos_proposed_irreversible_blocknum s]> (producer_to_last_implied_irb s)).
Proof.
  intros Hs H0 Hlt (g & r1 & r2 & b & Ha)%next_inv. destruct Ha.
  destruct (generate_next_inv _ _ _ ac_gen0 ac_nonzero0) as (_ & pk & Hg).
  pose proof (generated_irr_ok _ _ _ _ Hg H0 Hlt Hs) as Hgi.
  assert (0 <= block_num g < 2 ^ 32) as Hgn by (rewrite (gn_num _ _ _ _ Hg); apply u32_range).
  pose proof (set_confirmed_irr_ok (confirmed (sb_header h)) g Hgn Hgi) as Hci.
  destruct (set_confirmed_proposed (confirmed (sb_header h)) g Hgn (io_window _ Hgi)) as [_ Hcp].
  destruct (set_confirmed_keeps (confirmed (sb_header h)) g) as (_ & Hlib & _).
  destruct (promote_irr_ok _ _ _ ac_promote0 Hci) as (H1i & H1l & H1p).
  assert (irr_ok r2 /\ dpos_irreversible_blocknum r2 = dpos_irreversible_blocknum r1 /\
    dpos_proposed_irreversible_blocknum r2 = dpos_proposed_irreversible_blocknum r1)
    as (H2i & H2l & H2p).
  { destruct (new_producers _) as [np|]; [|by subst r2].
    destruct ac_new0 as [_ Hnp]. apply set_new_producers_keeps in Hnp as (Hk & ? & ?).
    split_and!; [by apply Hk|done..]. }
  subst r. split; [by apply irr_ok_header|]. cbn [with_id with_header
    dpos_proposed_irreversible_blocknum dpos_irreversible_blocknum].
  rewrite (gn_proposed _ _ _ _ Hg) in Hcp. split; [lia|].
  exists (producer_name pk). by rewrite H2l, H1l, Hlib, (gn_lib _ _ _ _ Hg), (gn_irb _ _ _ _ Hg).
Qed.

(** What validation establishes about a new state, independently of trust. *)
Record linked_next s (h : signed_block_header) r (pk : producer_key) : Prop := {
  ln_sched : get_scheduled_producer s (timestamp (sb_header h)) = Ok pk;
  ln_producer : producer (sb_header h) = producer_name pk;
  ln_key : signing_key r = block_signing_key pk;
  ln_num : block_num r = u32 (block_num s + 1);
  ln_prev : previous (sb_header (header r)) = id s;
  ln_id : id r = header_id (sb_header (header r));
  ln_header : header r = h
}.

(** The header of the new state is the header that was validated. *)
Lemma accepted_header s h trust r g r1 r2 promoted pk :
  accepted s h trust r g r1 r2 promoted -> generated s (timestamp (sb_header h)) g pk ->
  header r = h /\ block_num r2 = block_num g /\ signing_key r2 = signing_key g.
Proof.
  intros [] []. destruct h as [[] sg]. cbn in *.
  assert (r1 = set_confirmed confirmed0 g \/
    (header r1 = header (set_confirmed confirmed0 g) /\
     block_num r1 = block_num (set_confirmed confirmed0 g) /\
     signing_key r1 = signing_key (set_confirmed confirmed0 g))) as Hr1.
  { unfold maybe_promote_pending in ac_promote0.
    destruct (_ && _); injection ac_promote0 as <- <-; [by right|by left]. }
  assert (header r1 = header (set_confirmed confirmed0 g) /\ block_num r1 = block_num g /\
    signing_key r1 = signing_key g) as (Hh & Hn & Hk).
  { assert (block_num (set_confirmed confirmed0 g) = block_num g /\
      signing_key (set_confirmed confirmed0 g) = signing_key g) as [??]
      by (unfold set_confirmed; by destruct (confirm_loop _ _ _ _) as [? [?|]]).
    destruct Hr1 as [->|(?&?&?)]; split_and!; congruence. }
  assert (header (set_confirmed confirmed0 g) = set_header_confirmed confirmed0 (header g)) as Hc
    by (unfold set_confirmed; by destruct (confirm_loop _ _ _ _) as [? [?|]]).
  rewrite Hc in Hh. unfold set_header_confirmed in Hh. rewrite gn_header0 in *. cbn in *. subst.
  destruct new_producers0 as [np|].
  - destruct ac_new0 as [_ Hnp]. unfold set_new_producers in Hnp.
    bind_ok Hnp as ([] & _ & Hr).
    bind_ok Hr as ([] & _ & [= <-]). cbn. by rewrite Hh.
  - subst r2. cbn. unfold set_header_roots. by rewrite Hh.
Qed.

Lemma next_linked s h trust r : next s h trust = Ok r -> exists pk, linked_next s h r pk.
Proof.
  intros (g & r1 & r2 & b & Ha)%next_inv.
  destruct (generate_next_inv _ _ _ (ac_gen _ _ _ _ _ _ _ _ Ha) (ac_nonzero _ _ _ _ _ _ _ _ Ha))
    as (_ & pk & Hg).
  destruct (accepted_header _ _ _ _ _ _ _ _ _ Ha Hg) as (Hh & Hn & Hk). exists pk.
  destruct Ha, Hg. rewrite gn_header0 in ac_producer0. cbn in ac_producer0.
  split; try done.
  - subst r. cbn. congruence.
  - subst r. cbn. congruence.
  - by rewrite Hh.
  - by subst r.
Qed.

Lemma linked_next_id s h r pk :
  linked_next s h r pk -> (forall x, 0 <= hash0 (hash_header x) < 2 ^ 64) ->
  num_from_id (id s) = block_num s -> num_from_id (id r) = block_num r.
Proof.
  intros [] Hh Hid. rewrite ln_id0, header_id_num by apply Hh.
  unfold header_block_num. by rewrite ln_prev0, Hid, ln_num0.
Qed.

(** ** Claims *)

(** C17. Take a chain of accepted headers in which no header carries a new schedule and
    every header confirms at most as many blocks as there are before it, from a
    state with no open confirmations, no pending schedule and at most [max_producers]
    producers. Whenever the proposed irreversible block has moved, more than two thirds
    of the active producers, pairwise distinct, each produced a block whose range of
    confirmed blocks contains it. As [set_confirmed] has it, and unlike the comment on
    [block_header::confirmed], that range includes the block itself. Headers that
    confirm more blocks than there are before them are left out because the
    subtraction in the check of double confirmation wraps for them. *)
Theorem proposed_irreversible_quorum s0 es r :
  (length (producers (active_schedule s0)) <= max_producers)%nat ->
  0 <= block_num s0 < 2 ^ 32 -> confirm_count s0 = [] -> producers (pending_schedule s0) = [] ->
  chain s0 es r ->
  dpos_proposed_irreversible_blocknum r <> dpos_proposed_irreversible_blocknum s0 ->
  quorum s0 es (dpos_proposed_irreversible_blocknum r).
Proof.
  intros Hmax H0 Hcc Hpend Hc. cut (chain_inv s0 es r).
  { intros Hi Hne. by destruct (ci_proposed _ _ _ Hi). }
  induction Hc as [|es s h trust r Hc IH Hn Hnp Hcf Hlt].
  - split; rewrite ?Hcc; try done; try (cbn; lia); try (by left); try by intros e He%elem_of_nil.
  - by eapply chain_inv_next; [| |exact IH|..]; lia || done.
Qed.

(** The irreversible number computed from the producers' implied numbers is
    the largest number that more than two thirds of the tracked producers have
    reached: [x] is at most it exactly when fewer than a third are below [x]. *)
Theorem dpos_lib_two_thirds m x : m <> ∅ ->
  x <= calc_dpos_last_irreversible m <->
  3 * Z.of_nat (size (filter (fun kv => x <= kv.2) m)) > 2 * Z.of_nat (size m).
Proof.
  intros Hne. rewrite calc_dpos_two_thirds by done.
  assert (size m = Nat.add (size (filter (fun kv => kv.2 < x) m))
                           (size (filter (fun kv => x <= kv.2) m))) as Hs; [|lia].
  rewrite <- (map_filter_union_complement (fun kv => kv.2 < x) m) at 1.
  rewrite map_size_disj_union by apply map_disjoint_filter_complement. f_equal.
  f_equal. apply map_filter_ext. intros p b _. cbn. lia.
Qed.

(** Every accepted header keeps the irreversible, the proposed and the open
    blocks in order, and the proposed number never decreases; the irreversible
    number does not decrease either, as long as the previous one was the one
    implied by the producers tracked in that state (which is so unless that state
    promoted a schedule). *)
Theorem next_irreversibility_order s h trust r :
  irr_ok s -> 0 <= block_num s -> block_num s + 1 < 2 ^ 32 -> next s h trust = Ok r ->
  irr_ok r /\
  dpos_proposed_irreversible_blocknum s <= dpos_proposed_irreversible_blocknum r /\
  (dpos_irreversible_blocknum s <= calc_dpos_last_irreversible (producer_to_last_implied_irb s) ->
   dpos_irreversible_blocknum s <= dpos_irreversible_blocknum r).
Proof.
  intros Hs H0 Hlt Hn. destruct (next_irr_ok _ _ _ _ Hs H0 Hlt Hn) as (Hr & Hp & q & Hq).
  split_and!; [done..|]. intros Hcalc. rewrite Hq. etrans; [exact Hcalc|].
  destruct (io_lib _ Hs). destruct Hs as [[??] Hirbs _].
  apply calc_dpos_insert; [done|exact Hirbs].
Qed.

(** C39. A header that [next] accepts without trust links to the state, is later
    than it, was produced by the producer scheduled for its slot and is signed
    with that producer's key over the digest of the resulting state; the new
    state has the next block number, which is the number its id encodes. *)
Theorem next_sound s h r :
  next s h false = Ok r -> num_from_id (id s) = block_num s ->
  (forall x, 0 <= hash0 (hash_header x) < 2 ^ 64) ->
  previous (sb_header h) = id s /\
  timestamp (sb_header (header s)) < timestamp (sb_header h) /\
  (exists pk, get_scheduled_producer s (timestamp (sb_header h)) = Ok pk /\
     producer (sb_header h) = producer_name pk /\
     signee r = Ok (block_signing_key pk)) /\
  schedule_version (sb_header h) = version (active_schedule s) /\
  block_num r = u32 (block_num s + 1) /\ num_from_id (id r) = block_num r.
Proof.
  intros Hn Hid Hh. destruct (next_linked _ _ _ _ Hn) as (pk & Hl).
  apply next_inv in Hn as (g & r1 & r2 & b & Ha). destruct Ha.
  destruct (generate_next_inv _ _ _ ac_gen0 ac_nonzero0) as (_ & pk' & Hg).
  pose proof (linked_next_id _ _ _ _ Hl Hh Hid). destruct Hl, Hg.
  rewrite gn_header0 in ac_version0. cbn in ac_version0.
  rewrite ln_key0 in ac_signed0. split_and!; try done.
  exists pk. split_and!; try done. by apply ac_signed0.
Qed.
End irreversibility.

(** ** Concrete runs

    A crypto whose hashes are the timestamps and whose signatures are the keys, and a
    driver that signs the header [generate_next] asks for. *)
Module Sample.
#[global] Instance sample_crypto : Crypto := {
  hash_header h := Digest 0 (timestamp h) 0 0;
  hash_schedule _ := digest_nil;
  hash_pair _ := digest_nil;
  recover_key sg _ := Ok sg
}.

Definition genesis (ps : producer_schedule) : block_header_state := {|
  id := header_id header_default; block_num := 1; header := signed_header_default;
  dpos_proposed_irreversible_blocknum := 0; dpos_irreversible_blocknum := 0;
  bft_irreversible_blocknum := 0; pending_schedule_lib_num := 0;
  pending_schedule_hash := digest_nil; pending_schedule := ProducerSchedule 0 [];
  active_schedule := ps; blockroot_merkle := incremental_init;
  producer_to_last_produced := ∅; producer_to_last_implied_irb := ∅;
  signing_key := no_key; confirm_count := []; confirmations := [] |}.

Definition block (s : block_header_state) (slot c : Z) (np : option producer_schedule)
    : signed_block_header :=
  match get_scheduled_producer s slot with
  | Ok pk => SignedBlockHeader (BlockHeader slot (producer_name pk) c (id s) digest_nil digest_nil
      (version (active_schedule s)) np []) (block_signing_key pk)
  | Throw _ => signed_header_default
  end.

Definition step (s : result block_header_state) (b : Z * Z * option producer_schedule)
    : result block_header_state :=
  s ← s; next s (block s b.1.1 b.1.2 b.2) false.
Definition run (s : block_header_state) (bs : list (Z * Z * option producer_schedule))
    : result block_header_state := foldl step (Ok s) bs.

Definition one : producer_schedule := ProducerSchedule 0 [ProducerKey 1 1].
Definition four : producer_schedule :=
  ProducerSchedule 1 [ProducerKey 1 1; ProducerKey 2 2; ProducerKey 3 3; ProducerKey 4 4].
Definition two : producer_schedule := ProducerSchedule 2 [ProducerKey 1 1; ProducerKey 4 4].

(** Producer 1 alone, then producers 1 to 4 of which 4 never produces, then
    producers 1 and 4. *)
Definition promoted_run : list (Z * Z * option producer_schedule) :=
  [(1, 0, None); (2, 0, Some four); (3, 0, None);
   (4, 0, None); (12, 2, None); (24, 3, None);
   (48, 2, None); (60, 2, Some two); (72, 2, None);
   (96, 2, None); (108, 2, None); (120, 2, None); (144, 2, None)].

Lemma block_new_producers s slot c : new_producers (sb_header (block s slot c None)) = None.
Proof. unfold block. by destruct (get_scheduled_producer s slot). Qed.

Definition state_after (bs : list (Z * Z * option producer_schedule)) : block_header_state :=
  match run (genesis four) bs with Ok s => s | Throw _ => genesis four end.
Definition quorum_run (n : nat) : list (Z * Z * option producer_schedule) :=
  take n [(1, 0, None); (12, 1, None); (24, 2, None)].

Lemma sample_chain : exists es,
  chain (genesis four) es (state_after (quorum_run 3)).
Proof.
  eexists. eapply (chain_next _ _ (state_after (quorum_run 2)) (block (state_after (quorum_run 2)) 24 2 None) false);
    [|by vm_compute|apply block_new_producers|by vm_compute..].
  eapply (chain_next _ _ (state_after (quorum_run 1)) (block (state_after (quorum_run 1)) 12 1 None) false);
    [|by vm_compute|apply block_new_producers|by vm_compute..].
  eapply (chain_next _ _ (genesis four) (block (genesis four) 1 0 None) false);
    [apply chain_nil|by vm_compute|apply block_new_producers|by vm_compute..].
Qed.
End Sample.
Import Sample.

Lemma proposed_irreversible_quorum_witness : exists es,
  quorum (genesis four) es (dpos_proposed_irreversible_blocknum (state_after (quorum_run 3))) /\
  dpos_proposed_irreversible_blocknum (state_after (quorum_run 3)) = 2.
Proof.
  destruct sample_chain as (es & Hc). exists es. split; [|by vm_compute].
  apply (proposed_irreversible_quorum (genesis four) es _); [..|exact Hc|by vm_compute];
    try by vm_compute.
  cbn. unfold max_producers. lia.
Defined.

Lemma dpos_lib_two_thirds_witness :
  let m : gmap Z Z := {[1 := 5; 2 := 7; 3 := 9; 4 := 3]} in
  5 <= calc_dpos_last_irreversible m /\ 3 * Z.of_nat (size (filter (fun kv => 5 <= kv.2) m)) > 2 * 4.
Proof.
  intros m. split; [by vm_compute|]. change 4 with (Z.of_nat (size m)).
  apply (dpos_lib_two_thirds m 5); by vm_compute.
Defined.

Lemma next_irreversibility_order_witness :
  irr_ok (state_after (quorum_run 1)).
Proof.
  apply (next_irreversibility_order (genesis four) (block (genesis four) 1 0 None) false);
    [|done..|by vm_compute].
  split; [by split|intros p b; cbn; by rewrite lookup_empty|done].
Defined.

Lemma next_sound_witness :
  signee (state_after (quorum_run 1)) = Ok 1 /\ num_from_id (id (state_after (quorum_run 1))) = 2.
Proof.
  destruct (next_sound (genesis four) (block (genesis four) 1 0 None) (state_after (quorum_run 1)))
    as (_ & _ & (pk & Hpk & _ & Hs) & _ & Hn & Hi); [by vm_compute|by vm_compute|done|].
  rewrite Hs, Hi, Hn. injection Hpk as <-. split; by vm_compute.
Defined.

(** The irreversible number can move back: after the promotion of a schedule
    that keeps a producer who has not produced for a while, the next accepted
    block lowers it (here from 9 to 3). *)
Theorem lib_regresses_after_promotion :
  (s ← run (genesis one) promoted_run; r ← next s (block s 168 0 None) false;
   mret (dpos_irreversible_blocknum s, dpos_irreversible_blocknum r)) = Ok (9, 3).
Proof. by vm_compute. Qed.

(** The check against double confirmation wraps around for a header that
    claims to confirm more blocks than exist: one producer of four, alone,
    confirms block 2 three times and makes it the proposed irreversible block. *)
Theorem double_confirm_wraps :
  (r ← run (genesis four) [(1, 0xffff, None); (2, 0xffff, None); (3, 0xffff, None)];
   mret (dpos_proposed_irreversible_blocknum r, map_to_list (producer_to_last_produced r)))
  = Ok (2, [(1, 4)]).
Proof. by vm_compute. Qed.

(** Converting a slot to a time point and back gives the slot, for every
    32-bit slot. *)
Theorem timestamp_roundtrip slot : 0 <= slot < 2 ^ 32 ->
  Timestamp.set_time_point (Timestamp.to_time_point slot) = slot.
Proof.
  intros Hs. unfold Timestamp.set_time_point, Timestamp.to_time_point,
    Timestamp.block_interval_ms, Timestamp.block_timestamp_epoch.
  rewrite (i64_small (slot * 500)), (u64_small (slot * 500 + _)),
    (i64_small (slot * 500 + _)), i64_small by lia.
  rewrite Z.quot_mul by done.
  replace (slot * 500 + 946684800000 - 946684800000) with (slot * 500) by lia.
  rewrite u64_small, Z.div_mul by lia. by apply u32_small.
Qed.

Lemma timestamp_roundtrip_witness :
  Timestamp.set_time_point (Timestamp.to_time_point 12345) = 12345.
Proof. apply (timestamp_roundtrip 12345). lia. Defined.
