(* ===== verification/ForkDatabase.v ===== *)
(** * The fork database

    Model of [fork_database.hpp], [fork_database.cpp], [block_state.hpp] and
    [block_state.cpp] under [libraries/chain]: the tree of block states that are
    not irreversible yet, its best head, the pruning that announces blocks as
    irreversible, and the BFT confirmations.

    Block states are shared objects: the index, the head pointer and the callers
    hold pointers to them. A pointer is modelled by the id of the block, and a
    change through a pointer reaches the object in the index and the head. *)
From S2P Require Import Prelude Merkle BlockHeaderState.

#[global] Instance digest_countable : Countable digest.
Proof.
  refine (inj_countable' (fun d => (hash0 d, hash1 d, hash2 d, hash3 d))
    (fun '(a, b, c, d) => Digest a b c d) _). by intros [].
Defined.

(** ** Blocks *)
Inductive status_enum := executed | soft_fail | hard_fail | delayed | expired.

Record transaction_receipt := TransactionReceipt {
  status : status_enum;
  cpu_usage_us : Z;
  net_usage_words : Z;
  (* the id of a deferred transaction, or the bytes of a packed one *)
  trx : digest + list Z
}.

Record signed_block := SignedBlock {
  blk_header : signed_block_header;
  transactions : list transaction_receipt;
  block_extensions : list (Z * list Z)
}.

Record block_state := BlockState {
  bs_header :> block_header_state;
  bs_block : signed_block;
  validated : bool;
  in_current_chain : bool;
  trxs : list digest
}.

Definition prev (s : block_header_state) : digest := previous (sb_header (header s)).

Definition with_bs (f : block_header_state -> block_header_state) (s : block_state) : block_state :=
  BlockState (f (bs_header s)) (bs_block s) (validated s) (in_current_chain s) (trxs s).
Definition set_validated (s : block_state) : block_state :=
  BlockState (bs_header s) (bs_block s) true (in_current_chain s) (trxs s).
Definition set_in_current_chain (b : bool) (s : block_state) : block_state :=
  BlockState (bs_header s) (bs_block s) (validated s) b (trxs s).

(** ** The multi-index of block states

    A [boost::multi_index_container] with a unique index by id and ordered,
    non-unique indices by previous id, by number (blocks of the current chain
    first) and by irreversibility (best first). The order of elements with equal
    keys is left open. *)
Definition num_before (a b : block_state) : Prop :=
  block_num a < block_num b \/
  (block_num a = block_num b /\ (in_current_chain b = true -> in_current_chain a = true)).
Definition lib_before (a b : block_state) : Prop :=
  dpos_irreversible_blocknum b < dpos_irreversible_blocknum a \/
  (dpos_irreversible_blocknum b = dpos_irreversible_blocknum a /\
   (bft_irreversible_blocknum b < bft_irreversible_blocknum a \/
    (bft_irreversible_blocknum b = bft_irreversible_blocknum a /\ block_num b <= block_num a))).

Class ForkIndex (I : Type) := {
  contents : I -> gmap digest block_state;
  idx_empty : I;
  idx_insert : block_state -> I -> I * bool;
  idx_erase : digest -> I -> I;
  idx_modify : digest -> (block_state -> block_state) -> I -> I;
  by_prev_range : digest -> I -> list block_state;
  by_block_num : I -> list block_state;
  by_lib_block_num : I -> list block_state
}.

Class ForkIndexLaws (I : Type) `{ForkIndex I} := {
  contents_key : forall (i : I) k (s : block_state), contents i !! k = Some s -> id s = k;
  contents_empty : contents (idx_empty : I) = ∅;
  insert_fresh : forall (i : I) (s : block_state), contents i !! id s = None ->
    exists i', idx_insert s i = (i', true) /\ contents i' = <[id s := s]> (contents i);
  insert_present : forall (i : I) (s : block_state), is_Some (contents i !! id s) -> idx_insert s i = (i, false);
  erase_contents : forall (i : I) k, contents (idx_erase k i) = delete k (contents i);
  modify_contents : forall (i : I) k (f : block_state -> block_state),
    (forall s : block_state, id (f s) = id s /\ prev (f s) = prev s) ->
    contents (idx_modify k f i) = alter f k (contents i);
  by_prev_perm : forall (i : I) p,
    by_prev_range p i ≡ₚ filter (fun s : block_state => prev s = p) (map_to_list (contents i)).*2;
  by_num_perm : forall i : I, by_block_num i ≡ₚ (map_to_list (contents i)).*2;
  by_num_sorted : forall i : I, StronglySorted num_before (by_block_num i);
  by_num_erase : forall (i : I) k,
    by_block_num (idx_erase k i) = filter (fun s : block_state => id s <> k) (by_block_num i);
  by_lib_perm : forall i : I, by_lib_block_num i ≡ₚ (map_to_list (contents i)).*2;
  by_lib_sorted : forall i : I, StronglySorted lib_before (by_lib_block_num i)
}.

(** ** Operations *)

(** [env] is the state of the subscribers of the [irreversible] signal. *)
Record fork_db (I E : Type) := ForkDb {
  index : I;
  fdb_head : option block_state;
  env : E
}.
Arguments ForkDb {I E}. Arguments index {I E}. Arguments fdb_head {I E}. Arguments env {I E}.

Section fork_database.
Context `{Crypto} {I E : Type} `{FI : ForkIndex I}.
(** The subscribers run inside the call and may throw. *)
Context (irreversible : block_state -> St (fork_db I E) unit).
Notation M := (St (fork_db I E)).

Definition put_index (i : I) : M unit := modify_st (fun st => ForkDb i (fdb_head st) (env st)).
Definition put_head (h : option block_state) : M unit :=
  modify_st (fun st => ForkDb (index st) h (env st)).

(** A change through a pointer to the block [k]. *)
Definition modify_obj (k : digest) (f : block_state -> block_state) : M unit :=
  modify_st (fun st => ForkDb (idx_modify k f (index st))
    (match fdb_head st with
     | Some h => Some (if decide (id h = k) then f h else h)
     | None => None
     end) (env st)).

(** [*idx.begin()]. *)
Definition begin_of (l : list block_state) : M block_state :=
  match l with [] => throw undefined_behaviour | s :: _ => mret s end.

Definition get_block (k : digest) (i : I) : option block_state := contents i !! k.

(** [block_state::block_state( prev, b, trust )]. *)
Definition block_state_of_block (p : block_header_state) (b : signed_block) (trust : bool)
    : result block_state :=
  s ← next p (blk_header b) trust; mret (BlockState s b false false []).
(** [block_state::block_state( prev, when )]. *)
Definition block_state_template (p : block_header_state) (when : Z) : result block_state :=
  s ← generate_next p when;
  mret (BlockState s (SignedBlock (SignedBlockHeader (sb_header (header s)) 0) [] []) false false []).

Definition set (s : block_state) : M unit :=
  st ← get;
  let '(i, inserted) := idx_insert s (index st) in
  _ ← put_index i;
  _ ← st_assert (bool_decide (id s = header_id (sb_header (header s)))) fork_database_exception;
  _ ← st_assert inserted fork_database_exception;
  match fdb_head st with
  | None => put_head (Some s)
  | Some h => if block_num h <? block_num s then put_head (Some s) else mret tt
  end.

(** [remove]: the loop over the queue, then the new head. *)
Fixpoint remove_loop (fuel : nat) (queue : list digest) : M unit :=
  match queue, fuel with
  | [], _ => mret tt
  | _ :: _, O => throw undefined_behaviour
  | k :: queue, S fuel =>
      st ← get;
      let i := match contents (index st) !! k with
               | Some _ => idx_erase k (index st)
               | None => index st
               end in
      _ ← put_index i;
      remove_loop fuel (queue ++ ((fun s : block_state => id s) <$> by_prev_range k i))
  end.

Definition remove (k : digest) : M unit :=
  st ← get;
  _ ← remove_loop (S (size (contents (index st)))) [k];
  st ← get;
  h ← begin_of (by_lib_block_num (index st));
  put_head (Some h).

(** The element after [k] in an ordered index. *)
Fixpoint successor (k : digest) (l : list block_state) : option block_state :=
  match l with
  | [] => None
  | s :: l => if decide (id s = k) then l !! 0%nat else successor k l
  end.

(** [lower_bound( num )] on the index by number. *)
Fixpoint lower_bound_num (num : Z) (l : list block_state) : option block_state :=
  match l with
  | [] => None
  | s :: l => if block_num s <? num then lower_bound_num num l else Some s
  end.

(** The last loop of [prune]; the iterator must survive [remove]. *)
Fixpoint prune_same (fuel : nat) (num : Z) (nitr : option block_state) : M unit :=
  match nitr, fuel with
  | None, _ => mret tt
  | Some _, O => throw undefined_behaviour
  | Some s, S fuel =>
      if negb (block_num s =? num) then mret tt else
      st ← get;
      let nxt := successor (id s) (by_block_num (index st)) in
      _ ← remove (id s);
      st ← get;
      match nxt with
      | None => mret tt
      | Some n =>
          match contents (index st) !! id n with
          | Some n => prune_same fuel num (Some n)
          | None => throw undefined_behaviour
          end
      end
  end.

Definition prune_self (h : block_state) : M unit :=
  st ← get;
  match contents (index st) !! id h with
  | Some s => _ ← irreversible s;
              st ← get; put_index (idx_erase (id h) (index st))
  | None => mret tt
  end.

(** The first loop of [prune], for a given meaning of the recursive call. *)
Fixpoint prune_below (rec : block_state -> M unit) (fuel : nat) (num : Z) : M unit :=
  match fuel with
  | O => throw undefined_behaviour
  | S fuel =>
      st ← get;
      match by_block_num (index st) with
      | [] => mret tt
      | b :: _ =>
          if block_num b <? num then _ ← rec b; prune_below rec fuel num else mret tt
      end
  end.

Fixpoint prune_fuel (fuel : nat) (h : block_state) : M unit :=
  match fuel with
  | O => throw undefined_behaviour
  | S fuel =>
      st ← get;
      let n := S (size (contents (index st))) in
      _ ← prune_below (prune_fuel fuel) n (block_num h);
      _ ← prune_self h;
      st ← get;
      prune_same n (block_num h) (lower_bound_num (block_num h) (by_block_num (index st)))
  end.
(** The recursive calls are on blocks of the lowest number, which call no further. *)
Definition prune (h : block_state) : M unit := prune_fuel 2 h.

Definition add_state (n : block_state) : M block_state :=
  st ← get;
  let '(i, inserted) := idx_insert n (index st) in
  _ ← put_index i;
  _ ← st_assert inserted fork_database_exception;
  st ← get;
  h ← begin_of (by_lib_block_num (index st));
  _ ← put_head (Some h);
  oldest ← begin_of (by_block_num (index st));
  _ ← (if block_num (bs_header oldest) <? dpos_irreversible_blocknum (bs_header h) then prune oldest else mret tt);
  mret n.

(** The block pointer may be null. *)
Definition add_block (b : option signed_block) (trust : bool) : M block_state :=
  match b with
  | None => throw fork_database_exception
  | Some b =>
      st ← get;
      _ ← st_assert (bool_decide (is_Some (fdb_head st))) fork_db_block_not_found;
      let hd := sb_header (blk_header b) in
      _ ← st_assert (bool_decide (contents (index st) !! header_id hd = None))
            fork_database_exception;
      match contents (index st) !! previous hd with
      | None => throw unlinkable_block_exception
      | Some prior =>
          result ← lift (block_state_of_block (bs_header prior) b trust);
          add_state result
      end
  end.

Definition set_validity (h : block_state) (valid : bool) : M unit :=
  if negb valid then remove (id h) else modify_obj (id h) set_validated.

Definition mark_in_current_chain (h : block_state) (b : bool) : M unit :=
  if Bool.eqb (in_current_chain h) b then mret tt else
  st ← get;
  _ ← st_assert (bool_decide (is_Some (contents (index st) !! id h))) fork_db_block_not_found;
  modify_obj (id h) (set_in_current_chain b).

Definition get_block_in_current_chain_by_num (n : Z) (i : I) : option block_state :=
  match lower_bound_num n (by_block_num i) with
  | None => None
  | Some s => if negb (block_num s =? n) || negb (in_current_chain s) then None else Some s
  end.

(** [set_bft_irreversible]: one layer of the breadth-first traversal. *)
Definition update_one (num : Z) (s : block_state) : M (list digest) :=
  if bft_irreversible_blocknum s <? num then
    _ ← modify_obj (id s) (with_bs (with_bft num)); mret [id s]
  else mret [].

Fixpoint update_all (num : Z) (l : list block_state) : M (list digest) :=
  match l with
  | [] => mret []
  | s :: l => u ← update_one num s; us ← update_all num l; mret (u ++ us)
  end.

Fixpoint update (num : Z) (queue : list digest) : M (list digest) :=
  match queue with
  | [] => mret []
  | k :: queue =>
      st ← get;
      u ← update_all num (by_prev_range k (index st));
      us ← update num queue;
      mret (u ++ us)
  end.

Fixpoint update_loop (fuel : nat) (num : Z) (queue : list digest) : M unit :=
  match queue, fuel with
  | [], _ => mret tt
  | _, O => throw undefined_behaviour
  | _, S fuel => queue ← update num queue; update_loop fuel num queue
  end.

Definition set_bft_irreversible (k : digest) : M unit :=
  st ← get;
  match contents (index st) !! k with
  | None => throw undefined_behaviour
  | Some s =>
      _ ← modify_obj k (with_bs (fun h => with_bft (block_num h) h));
      update_loop (S (size (contents (index st)))) (block_num (bs_header s)) [k]
  end.

Definition add_confirm (c : header_confirmation) : M unit :=
  st ← get;
  match get_block (hc_block_id c) (index st) with
  | None => throw fork_db_block_not_found
  | Some b =>
      s ← lift (add_confirmation c (bs_header b));
      _ ← modify_obj (id b) (with_bs (with_confirmations (confirmations s)));
      if (bft_irreversible_blocknum b <? block_num b) &&
         (Z.of_nat (length (producers (active_schedule b))) * 2 / 3 + 1
          <=? Z.of_nat (length (confirmations s)))
      then set_bft_irreversible (hc_block_id c) else mret tt
  end.

(** [fetch_branch_from]. The messages of its assertions dereference the pointer
    that the assertion found to be null. *)
Fixpoint walk_to (fuel : nat) (i : I) (num : Z) (b : block_state) (acc : list block_state)
    : result (block_state * list block_state) :=
  if negb (num <? block_num b) then mret (b, acc) else
  match fuel with
  | O => Throw undefined_behaviour
  | S fuel =>
      match get_block (prev b) i with
      | None => Throw undefined_behaviour
      | Some p => walk_to fuel i num p (acc ++ [b])
      end
  end.

Fixpoint walk_both (fuel : nat) (i : I) (a b : block_state) (acc : list block_state * list block_state)
    : result (list block_state * list block_state) :=
  let acc' := (acc.1 ++ [a], acc.2 ++ [b]) in
  if decide (prev a = prev b) then mret acc' else
  match fuel with
  | O => Throw undefined_behaviour
  | S fuel =>
      match get_block (prev a) i, get_block (prev b) i with
      | Some pa, Some pb => walk_both fuel i pa pb acc'
      | _, _ => Throw undefined_behaviour
      end
  end.

Definition fetch_branch_from (first second : digest) (i : I)
    : result (list block_state * list block_state) :=
  match get_block first i, get_block second i with
  | Some a, Some b =>
      '(a, acc1) ← walk_to (Z.to_nat (block_num a)) i (block_num b) a [];
      '(b, acc2) ← walk_to (Z.to_nat (block_num b)) i (block_num (bs_header a)) b [];
      walk_both (Z.to_nat (block_num (bs_header a))) i a b (acc1, acc2)
  | _, _ => Throw undefined_behaviour
  end.

(** [close] without the file: the blocks and head it writes, then the pruning. *)
Definition close : M (list block_state * digest) :=
  st ← get;
  if (size (contents (index st)) =? 0)%nat then mret ([], digest_nil) else
  let written := (map_to_list (contents (index st))).*2 in
  match fdb_head st with
  | None => throw undefined_behaviour
  | Some h =>
      oldest ← begin_of (by_block_num (index st));
      _ ← (if block_num (bs_header oldest) <=? dpos_irreversible_blocknum h then prune oldest else mret tt);
      _ ← put_index idx_empty;
      mret (written, id (bs_header h))
  end.

(** The constructor reads the file back: every block is [set], then the head. *)
Definition load (file : list block_state * digest) : M unit :=
  _ ← for_each set file.1;
  st ← get;
  put_head (get_block file.2 (index st)).
End fork_database.

Implicit Types s sk p c o t : block_state.

(** ** Descendants *)

(** [below m k x]: block [x] is [k] or descends from it through blocks of [m]. *)
Inductive below (m : gmap digest block_state) (k : digest) : digest -> Prop :=
| below_self : below m k k
| below_child s : m !! id s = Some s -> below m k (prev s) -> below m k (id s).

Lemma below_trans m (a b c : digest) : below m a b -> below m b c -> below m a c.
Proof. intros Hab Hbc. induction Hbc as [|s Hs Hb IH]; [done|]. by constructor. Qed.

Lemma below_mono m m' a b : m ⊆ m' -> below m a b -> below m' a b.
Proof.
  intros Hm Hab. induction Hab as [|s Hs Hb IH]; [constructor|].
  constructor; [|done]. by eapply lookup_weaken.
Qed.

(** One step of the removal queue. *)
Lemma below_step m k (q q' : list digest) x :
  (forall j s, m !! j = Some s -> id s = j) ->
  (forall s : block_state, delete k m !! id s = Some s -> prev s = k -> id s ∈ q') ->
  q ⊆ q' ->
  (exists j, j ∈ k :: q /\ below m j x) ->
  x = k \/ exists j, j ∈ q' /\ below (delete k m) j x.
Proof.
  intros Hkey Hch Hq (j & Hj & Hb). induction Hb as [|s Hs Hb IH].
  - apply elem_of_cons in Hj as [->|Hj]; [by left|]. right. exists j. split; [by apply Hq|constructor].
  - destruct (decide (id s = k)) as [|Hne]; [by left|]. right.
    assert (delete k m !! id s = Some s) by (by rewrite lookup_delete_ne).
    destruct IH as [Hp|(j' & Hj' & Hb')].
    + exists (id s). split; [by apply Hch|constructor].
    + exists j'. split; [done|]. by constructor.
Qed.

Section removal.
Context `{Crypto} {I E : Type} `{FL : ForkIndexLaws I}.
Implicit Types (st : fork_db I E) (i : I).

Lemma by_prev_elem i k s : s ∈ by_prev_range k i <-> contents i !! id s = Some s /\ prev s = k.
Proof.
  rewrite by_prev_perm, list_elem_of_filter, list_elem_of_fmap. split.
  - intros [Hp ([k' s'] & -> & Hin%elem_of_map_to_list)]. cbn in *.
    by rewrite (contents_key _ _ _ Hin).
  - intros [Hs Hp]. split; [done|]. exists (id s, s). by rewrite elem_of_map_to_list.
Qed.

Lemma contents_ids_NoDup i :
  NoDup ((fun s : block_state => id s) <$> (map_to_list (contents i)).*2).
Proof.
  rewrite <- list_fmap_compose.
  replace (((fun s : block_state => id s) ∘ snd) <$> map_to_list (contents i))
    with (map_to_list (contents i)).*1; [apply NoDup_fst_map_to_list|].
  apply list_fmap_ext. intros n [k' s] Hn. cbn. symmetry. apply (contents_key i).
  apply elem_of_map_to_list, list_elem_of_lookup. eauto.
Qed.

Lemma by_prev_ids_NoDup i k : NoDup ((fun s : block_state => id s) <$> by_prev_range k i).
Proof.
  rewrite by_prev_perm. eapply sublist_NoDup; [apply contents_ids_NoDup|].
  apply fmap_sublist, sublist_filter.
Qed.

Lemma by_num_NoDup i : NoDup (by_block_num i).
Proof.
  rewrite by_num_perm. eapply NoDup_fmap_1. apply (contents_ids_NoDup i).
Qed.

(** What the queue of [remove] maintains: queued blocks are queued once, and their
    parents are gone. *)
Definition queue_ok (m : gmap digest block_state) (q : list digest) : Prop :=
  NoDup q /\ forall s : block_state, m !! id s = Some s -> id s ∈ tail q ->
    prev s ∉ q /\ m !! prev s = None.

Definition pending_work (m : gmap digest block_state) (q : list digest) : nat :=
  (length q + size (dom m ∖ list_to_set q))%nat.

Lemma queue_ok_step i i' k q :
  let q' := q ++ ((fun s : block_state => id s) <$> by_prev_range k i') in
  contents i' = delete k (contents i) -> queue_ok (contents i) (k :: q) -> queue_ok (contents i') q' /\
  (pending_work (contents i') q' < pending_work (contents i) (k :: q))%nat.
Proof.
  intros q' Hm [Hnd Hok]. cbn [tail] in Hok. apply NoDup_cons in Hnd as [Hk Hnd].
  set (cs := (fun s : block_state => id s) <$> by_prev_range k i') in *.
  assert (Hcs : forall x, x ∈ cs -> exists s : block_state,
    x = id s /\ contents i' !! id s = Some s /\ prev s = k).
  { intros x (s & -> & [Hs Hp]%by_prev_elem)%list_elem_of_fmap. by exists s. }
  assert (Hdis : forall x, x ∈ q -> x ∉ cs).
  { intros x Hq (s & -> & Hs & Hp)%Hcs. rewrite Hm, lookup_delete_Some in Hs.
    destruct Hs as [_ Hs]. destruct (Hok s Hs Hq) as [Hn _]. rewrite Hp in Hn. apply Hn. by left. }
  split; [split|].
  - apply NoDup_app. split_and!; [done|done|apply by_prev_ids_NoDup].
  - intros s Hs Hin.
    assert (id s ∈ q') as Hin' by (destruct q' as [|y ys]; [done|by right]).
    assert (prev s ∉ q' /\ contents i' !! prev s = None) as [? ?]; [|done].
    rewrite Hm in Hs |- *. rewrite lookup_delete_Some in Hs. destruct Hs as [Hne Hs].
    apply elem_of_app in Hin' as [Hin'|Hin'].
    + destruct (Hok s Hs Hin') as [Hp Hno]. rewrite not_elem_of_cons in Hp. destruct Hp as [Hpk Hpq].
      split; [|by apply lookup_delete_None; right].
      intros [?|(c & Hc & Hcm & _)%Hcs]%elem_of_app; [done|].
      rewrite Hm, lookup_delete_Some in Hcm. destruct Hcm. congruence.
    + apply Hcs in Hin' as (c & Hc & Hcm & Hcp).
      assert (c = s) as -> by (rewrite <- Hc, Hm, lookup_delete_ne in Hcm; congruence).
      rewrite Hcp. split; [|by apply lookup_delete_None; left].
      intros [?|(c & -> & Hcm' & _)%Hcs]%elem_of_app; [done|].
      rewrite Hm, lookup_delete_Some in Hcm'. by destruct Hcm'.
  - unfold pending_work, q'. rewrite length_app. cbn [length].
    enough (length cs + size (dom (contents i') ∖ list_to_set (q ++ cs) : gset digest)
            <= size (dom (contents i) ∖ list_to_set (k :: q) : gset digest))%nat by lia.
    assert (length cs = size (list_to_set cs : gset digest)) as ->
      by (symmetry; apply size_list_to_set, by_prev_ids_NoDup).
    rewrite <- size_union.
    + apply subseteq_size. intros x. rewrite Hm, dom_delete_L, list_to_set_app_L. cbn [list_to_set].
      rewrite elem_of_union. intros [Hx|Hx]; [|set_solver].
      rewrite elem_of_list_to_set in Hx. pose proof Hx as (s & -> & Hs & Hp)%Hcs.
      rewrite Hm, lookup_delete_Some in Hs. destruct Hs as [Hne Hs].
      apply elem_of_difference. split; [by apply elem_of_dom_2 in Hs|].
      rewrite elem_of_union, elem_of_singleton, elem_of_list_to_set.
      intros [?|?]; [congruence|by eapply Hdis].
    + rewrite list_to_set_app_L. set_solver.
Qed.

Lemma by_num_elem i s : s ∈ by_block_num i <-> contents i !! id s = Some s.
Proof.
  rewrite by_num_perm, list_elem_of_fmap. split.
  - intros ([k s'] & -> & Hin%elem_of_map_to_list). cbn. by rewrite (contents_key _ _ _ Hin).
  - intros Hs. exists (id s, s). by rewrite elem_of_map_to_list.
Qed.

Lemma by_lib_elem i s : s ∈ by_lib_block_num i <-> contents i !! id s = Some s.
Proof.
  rewrite by_lib_perm, list_elem_of_fmap. split.
  - intros ([k s'] & -> & Hin%elem_of_map_to_list). cbn. by rewrite (contents_key _ _ _ Hin).
  - intros Hs. exists (id s, s). by rewrite elem_of_map_to_list.
Qed.

(** Erasing elements leaves the others, in their order. *)
Definition sub_index i i' : Prop :=
  contents i' ⊆ contents i /\
  by_block_num i' = filter (fun s : block_state => is_Some (contents i' !! id s)) (by_block_num i).

Lemma sub_index_refl i : sub_index i i.
Proof.
  split; [done|]. symmetry. apply filter_all. intros s Hs%by_num_elem. eauto.
Qed.

Lemma sub_index_trans i1 i2 i3 : sub_index i1 i2 -> sub_index i2 i3 -> sub_index i1 i3.
Proof.
  intros [Hc1 Hn1] [Hc2 Hn2]. split; [by etrans|].
  rewrite Hn2, Hn1. apply list_filter_filter_l.
  intros s [s' Hs']. exists s'. by eapply lookup_weaken.
Qed.

Lemma sub_index_erase i k : sub_index i (idx_erase k i).
Proof.
  split; [rewrite erase_contents; apply delete_subseteq|].
  rewrite by_num_erase, erase_contents. apply filter_ext_in.
  intros s Hs%by_num_elem. split.
  - intros Hne. rewrite lookup_delete_ne by done. eauto.
  - intros [s' Hs'] Hk. rewrite Hk, lookup_delete_eq in Hs'. done.
Qed.

(** The queue empties within the fuel, and exactly the descendants go. *)
Lemma remove_loop_spec fuel q st :
  queue_ok (contents (index st)) q -> (pending_work (contents (index st)) q <= fuel)%nat ->
  exists i', remove_loop fuel q st = (ForkDb i' (fdb_head st) (env st), Ok tt) /\
    sub_index (index st) i' /\ forall x s, contents i' !! x = Some s <->
      contents (index st) !! x = Some s /\ forall j, j ∈ q -> ~ below (contents (index st)) j x.
Proof.
  revert q st. induction fuel as [|fuel IH]; intros [|k q] [i h e] Hq Hf; cbn [index] in *.
  1,3: exists i; split_and!; [done|apply sub_index_refl|]; intros x s; split; [|by intros [? _]];
       intros Hx; split; [done|]; by intros j Hj%elem_of_nil.
  { unfold pending_work in Hf. cbn in Hf. lia. }
  cbn [remove_loop]. run_monad. cbn [index fdb_head env].
  set (i1 := match contents i !! k with Some _ => idx_erase k i | None => i end).
  assert (Hm : contents i1 = delete k (contents i)).
  { unfold i1. destruct (contents i !! k) eqn:Ek; [apply erase_contents|by rewrite delete_id]. }
  destruct (queue_ok_step i i1 k q Hm Hq) as [Hq' Hw].
  set (q' := q ++ _) in *.
  destruct (IH q' (ForkDb i1 h e) Hq' ltac:(cbn; lia)) as (i' & Hrun & Hsub & Hspec).
  exists i'. split; [exact Hrun|]. cbn [index] in Hspec, Hsub. split.
  { eapply sub_index_trans; [|exact Hsub]. unfold i1.
    destruct (contents i !! k); [apply sub_index_erase|apply sub_index_refl]. } intros x s. rewrite Hspec, Hm.
  rewrite lookup_delete_Some. split.
  - intros [[Hne Hx] Hno]. split; [done|]. intros j Hj Hb.
    destruct (below_step (contents i) k q q' x) as [?|(j' & Hj' & Hb')]; try done.
    + intros; by eapply contents_key.
    + intros s' Hs' Hp. apply elem_of_app. right. apply list_elem_of_fmap. exists s'.
      split; [done|]. apply by_prev_elem. by rewrite Hm.
    + intros y Hy. apply elem_of_app. by left.
    + by exists j.
    + by apply (Hno j').
  - intros [Hx Hno]. split.
    + split; [|done]. intros <-. apply (Hno k); [by left|constructor].
    + intros j [Hj|Hj]%elem_of_app Hb.
      * apply (Hno j); [by right|]. eapply below_mono; [apply delete_subseteq|done].
      * apply list_elem_of_fmap in Hj as (c & -> & [Hc Hp]%by_prev_elem).
        apply (Hno k); [by left|]. apply below_trans with (id c).
        -- constructor; [|rewrite Hp; constructor]. rewrite Hm in Hc.
           by apply lookup_delete_Some in Hc as [_ ?].
        -- eapply below_mono; [apply delete_subseteq|done].
Qed.

(** [i'] holds the blocks of [m] that do not descend from [k]. *)
Definition without (m : gmap digest block_state) (k : digest) (m' : gmap digest block_state) : Prop :=
  forall x s, m' !! x = Some s <-> m !! x = Some s /\ ~ below m k x.

Lemma remove_loop_one k st : exists i',
  remove_loop (S (size (contents (index st)))) [k] st = (ForkDb i' (fdb_head st) (env st), Ok tt) /\
  sub_index (index st) i' /\ without (contents (index st)) k (contents i').
Proof.
  destruct (remove_loop_spec (S (size (contents (index st)))) [k] st) as (i' & Hr & Hsub & Hs).
  - split; [apply NoDup_singleton|]. by intros s _ Hs%elem_of_nil.
  - unfold pending_work. cbn [length]. rewrite <- size_dom.
    assert (size (dom (contents (index st)) ∖ list_to_set [k] : gset digest)
            <= size (dom (contents (index st)) : gset digest))%nat; [|lia].
    apply subseteq_size. set_solver.
  - exists i'. split_and!; [done..|]. intros x s. rewrite Hs. split; intros [? Hb]; split; try done.
    + apply Hb. by left.
    + by intros j ->%list_elem_of_singleton.
Qed.

Lemma remove_spec k st : exists i',
  sub_index (index st) i' /\ without (contents (index st)) k (contents i') /\
  remove k st = match by_lib_block_num i' with
                | [] => (ForkDb i' (fdb_head st) (env st), Throw undefined_behaviour)
                | h :: _ => (ForkDb i' (Some h) (env st), Ok tt)
                end.
Proof.
  destruct (remove_loop_one k st) as (i' & Hr & Hsub & Hs). exists i'. split_and!; [done..|].
  unfold remove. run_st. rewrite Hr. cbn [index].
  by destruct (by_lib_block_num i').
Qed.
End removal.

(** ** Pruning *)

(** Parents come before their children. *)
Definition levels (m : gmap digest block_state) : Prop :=
  forall x s p, m !! x = Some s -> m !! prev s = Some p -> block_num p < block_num s.

(** The unfinished part of the chain: blocks after number [n] that descend from
    the last irreversible block [root]. *)
Record tree_ok (m : gmap digest block_state) (root : digest) (n : Z) : Prop := {
  to_root_num : num_from_id root = n;
  to_id : forall x s, m !! x = Some s -> num_from_id x = block_num s;
  to_above : forall x s, m !! x = Some s -> n < block_num s;
  to_first : forall x s, m !! x = Some s -> block_num s = n + 1 -> prev s = root;
  to_parent : forall x s, m !! x = Some s -> n + 1 < block_num s ->
    exists p, m !! prev s = Some p /\ block_num s = block_num p + 1
}.

Lemma levels_mono m m' : m' ⊆ m -> levels m -> levels m'.
Proof. intros Hm Hl x s p Hs Hp. eapply Hl; by eapply lookup_weaken. Qed.

Lemma tree_ok_fresh m root n : tree_ok m root n -> m !! root = None.
Proof.
  intros []. destruct (m !! root) as [s|] eqn:Hs; [|done].
  pose proof (to_id0 _ _ Hs). pose proof (to_above0 _ _ Hs). lia.
Qed.

Lemma tree_ok_levels m root n : tree_ok m root n -> levels m.
Proof.
  intros Ht x s p Hs Hp. destruct (decide (block_num s = n + 1)) as [Hn|Hn].
  - rewrite (to_first _ _ _ Ht _ _ Hs Hn), (tree_ok_fresh _ _ _ Ht) in Hp. done.
  - pose proof (to_above _ _ _ Ht _ _ Hs).
    destruct (to_parent _ _ _ Ht _ _ Hs) as (p' & Hp' & ?); [lia|]. simplify_eq. lia.
Qed.

Lemma tree_ok_bottom m root n x s :
  tree_ok m root n -> m !! x = Some s -> exists a, is_Some (m !! a) /\
    forall s', m !! a = Some s' -> block_num s' = n + 1.
Proof.
  intros Ht. remember (Z.to_nat (block_num s - n)) as d eqn:Hd. revert x s Hd.
  induction d as [d IH] using lt_wf_ind. intros x s Hd Hs.
  pose proof (to_above _ _ _ Ht _ _ Hs). destruct (decide (block_num s = n + 1)) as [Hn|Hn].
  - exists x. split; [eauto|]. intros s' ?. by simplify_eq.
  - destruct (to_parent _ _ _ Ht _ _ Hs) as (p & Hp & Hpn); [lia|].
    eapply (IH (Z.to_nat (block_num p - n))); [lia|done|exact Hp].
Qed.

(** A descendant has a larger number. *)
Lemma below_num m k sk x s :
  levels m -> (forall x s, m !! x = Some s -> id s = x) -> m !! k = Some sk -> below m k x ->
  m !! x = Some s -> x = k \/ block_num sk < block_num s.
Proof.
  intros Hl Hkey Hk Hb. revert s. induction Hb as [|s' Hs' Hb IH]; intros s Hs; [by left|].
  assert (s' = s) as -> by congruence. right. inversion Hb as [Hp|s'' Hs'' Hb' Hp].
  - by apply (Hl (id s) s sk); [|rewrite <- Hp].
  - rewrite <- Hp in IH. destruct (IH s'' Hs'') as [Heq|Hlt].
    + apply (Hl (id s) s sk); [done|]. by rewrite <- Hp, Heq.
    + assert (block_num s'' < block_num s) by (apply (Hl (id s) s s''); [done|by rewrite <- Hp]). lia.
Qed.

Lemma tree_without m root n k m' : tree_ok m root n ->
  (forall x s, m !! x = Some s -> id s = x) -> without m k m' -> tree_ok m' root n.
Proof.
  intros [] Hkey Hw. split; [done|..].
  - intros x s [Hs _]%Hw. by apply to_id0.
  - intros x s [Hs _]%Hw. by apply (to_above0 x).
  - intros x s [Hs _]%Hw. by apply (to_first0 x).
  - intros x s [Hs Hb]%Hw Hn. destruct (to_parent0 _ _ Hs Hn) as (p & Hp & ?). exists p.
    split; [|done]. apply Hw. split; [done|]. intros Hbp. apply Hb.
    rewrite <- (Hkey _ _ Hs). constructor; [|done]. by rewrite (Hkey _ _ Hs).
Qed.

Section pruning.
Context `{Crypto} {I E : Type} `{FL : ForkIndexLaws I}.
Implicit Types (st : fork_db I E) (i : I).
Context (irreversible : block_state -> St (fork_db I E) unit).

Lemma lower_bound_head num l :
  Forall (fun s : block_state => num <= block_num s) l -> lower_bound_num num l = head l.
Proof.
  intros Hl. destruct Hl as [|s l Hs Hl]; [done|]. cbn. by rewrite (proj2 (Z.ltb_ge _ _)) by done.
Qed.

Lemma below_without m k m' b x :
  without m k m' -> ~ below m k x -> below m b x -> below m' b x.
Proof.
  intros Hw Hk Hb. induction Hb as [|s Hs Hb IH]; [constructor|].
  constructor; [by apply Hw|]. apply IH. intros Hp. apply Hk. by constructor.
Qed.

(** A block whose parent is gone descends from no other block. *)
Lemma orphan_not_below m b c :
  m !! b <> None -> m !! id c = Some c -> m !! prev c = None -> b <> id c -> ~ below m b (id c).
Proof.
  intros Hb Hc Hp Hne Hbe. inversion Hbe as [Heq|s' Hs' Hb' Heq]; [done|].
  assert (s' = c) as -> by congruence. inversion Hb' as [Hq|s'' Hs'' _ Hq]; congruence.
Qed.

(** One removal of [prune]: [a] goes, the other blocks of its number and the first
    block [c] above stay. *)
Lemma prune_remove_step N a c (A B : list block_state) st :
  by_block_num (index st) = (a :: A) ++ c :: B ->
  block_num a = N -> Forall (fun s : block_state => block_num s = N) A -> N < block_num c ->
  levels (contents (index st)) -> contents (index st) !! prev c = None ->
  exists i1 h1 B', remove (id a) st = (ForkDb i1 (Some h1) (env st), Ok tt) /\
    Some h1 = head (by_lib_block_num i1) /\
    sub_index (index st) i1 /\ without (contents (index st)) (id a) (contents i1) /\
    by_block_num i1 = A ++ c :: B'.
Proof.
  intros Hnum Ha HA Hc Hlev Hpc.
  destruct (remove_spec (id a) st) as (i1 & Hsub & Hwo & Hrem).
  assert (Hkey : forall x s, contents (index st) !! x = Some s -> id s = x)
    by (intros; by eapply contents_key).
  assert (Hcm : contents (index st) !! id c = Some c).
  { apply by_num_elem. rewrite Hnum. apply elem_of_app. right. by left. }
  assert (Ham : contents (index st) !! id a = Some a).
  { apply by_num_elem. rewrite Hnum. by left. }
  assert (Hnb : forall b : block_state, b ∈ A -> contents i1 !! id b = Some b).
  { intros b Hb. assert (contents (index st) !! id b = Some b) as Hbm.
    { apply by_num_elem. rewrite Hnum. right. apply elem_of_app. by left. }
    apply Hwo. split; [done|]. intros Hbe.
    destruct (below_num _ _ _ _ _ Hlev Hkey Ham Hbe Hbm) as [Heq|Hlt].
    - pose proof (by_num_NoDup (index st)) as Hnd. rewrite Hnum in Hnd. apply NoDup_cons in Hnd as [Hni _]. apply Hni.
      assert (a = b) as -> by congruence. apply elem_of_app. by left.
    - rewrite Forall_forall in HA. rewrite (HA _ Hb) in Hlt. lia. }
  assert (Hci : contents i1 !! id c = Some c).
  { apply Hwo. split; [done|]. apply orphan_not_below; try done; [by rewrite Ham|].
    intros Heq. assert (a = c) by congruence. subst. lia. }
  assert (Hnum1 : exists B', by_block_num i1 = A ++ c :: B').
  { destruct Hsub as [_ ->]. rewrite Hnum. cbn [app]. rewrite filter_cons.
    rewrite decide_False.
    2:{ intros [s' [_ Hs']%Hwo]. apply Hs'. constructor. }
    rewrite filter_app, filter_cons, decide_True by eauto.
    rewrite (filter_all _ A) by (intros b Hb; specialize (Hnb b Hb); eauto). eauto. }
  destruct Hnum1 as [B' Hnum1].
  assert (Hrun : exists h1, remove (id a) st = (ForkDb i1 (Some h1) (env st), Ok tt) /\
    Some h1 = head (by_lib_block_num i1)).
  { rewrite Hrem. destruct (by_lib_block_num i1) as [|h1 l] eqn:El; [|by exists h1].
    exfalso. apply by_lib_elem in Hci. rewrite El in Hci. by apply elem_of_nil in Hci. }
  destruct Hrun as (h1 & Hrun & Hh1).
  by exists i1, h1, B'.
Qed.

(** [c] is the first block above the level that is pruned; it is not removed. *)
Lemma prune_same_spec N c fuel (A B : list block_state) st :
  by_block_num (index st) = A ++ c :: B ->
  Forall (fun s : block_state => block_num s = N) A -> N < block_num c ->
  levels (contents (index st)) -> contents (index st) !! prev c = None -> (length A < fuel)%nat ->
  exists i' h', prune_same fuel N (head (A ++ c :: B)) st = (ForkDb i' h' (env st), Ok tt) /\
    sub_index (index st) i' /\ (h' = fdb_head st /\ i' = index st \/ h' = head (by_lib_block_num i')) /\
    forall x s, contents i' !! x = Some s <-> contents (index st) !! x = Some s /\
      forall a : block_state, a ∈ A -> ~ below (contents (index st)) (id a) x.
Proof.
  revert A B st. induction fuel as [|fuel IH]; intros A B st Hnum HA Hc Hlev Hpc Hf; [lia|].
  destruct A as [|a A]; cbn [head app].
  - exists (index st), (fdb_head st). cbn [prune_same]. rewrite (proj2 (Z.eqb_neq _ _)) by lia.
    cbn [negb]. destruct st as [i h e]. split_and!; [done|apply sub_index_refl|by left|].
    intros x s. split; [|by intros [? _]]. intros Hx. split; [done|]. by intros a Ha%elem_of_nil.
  - apply Forall_cons in HA as [Ha HA].
    destruct (prune_remove_step N a c A B st) as (i1 & h1 & B' & Hrun & Hh1 & Hsub & Hwo & Hnum1);
      try done.
    pose proof (proj1 Hsub) as Hincl.
    destruct (IH A B' (ForkDb i1 (Some h1) (env st))) as (i' & h' & Hloop & Hsub' & Hh & Hspec);
      cbn [index env] in *; try done.
    { by eapply levels_mono. }
    { by eapply lookup_weaken_None. }
    { cbn [length] in Hf. lia. }
    exists i', h'. split_and!; [|by eapply sub_index_trans| |].
    + cbn [prune_same]. rewrite Ha, Z.eqb_refl. cbn [negb]. run_st.
      rewrite Hrun, Hnum. cbn [index app successor]. rewrite decide_True by done.
      assert (exists n : block_state, (A ++ c :: B) !! 0%nat = Some n /\ contents i1 !! id n = Some n /\
                head (A ++ c :: B') = Some n) as (n & -> & Hn0 & Hn).
      { destruct A as [|b A]; cbn; eexists; split_and!; try done; apply by_num_elem;
          rewrite Hnum1; by left. }
      rewrite Hn0, <- Hn. exact Hloop.
    + right. destruct Hh as [[-> ->]|?]; done.
    + intros x s. rewrite Hspec. split.
      * intros [[Hx Hna]%Hwo HnA]. split; [done|]. intros b [->|Hb]%elem_of_cons; [done|].
        intros Hbe. apply (HnA b Hb). by eapply below_without.
      * intros [Hx Hn]. split; [apply Hwo; split; [done|]; apply Hn; by left|].
        intros b Hb Hbe. apply (Hn b); [by right|]. by eapply below_mono.
Qed.

(** The subscribers leave the fork database alone and return, when they are ready
    for the block. *)
Context (announce : block_state -> E -> E) (ready : block_state -> E -> Prop).
Context (Hirr : forall s st, ready s (env st) -> irreversible s st =
  (ForkDb (index st) (fdb_head st) (announce s (env st)), Ok tt)).

(** The current chain has a block [a] at the lowest level and its child [c] above,
    and one block per number. *)
Record spine (m : gmap digest block_state) (n : Z) (a c : block_state) : Prop := {
  sp_a : m !! id a = Some a;
  sp_c : m !! id c = Some c;
  sp_anum : block_num a = n + 1;
  sp_cnum : block_num c = n + 2;
  sp_link : prev c = id a;
  sp_acur : in_current_chain a = true;
  sp_ccur : in_current_chain c = true;
  sp_once : forall s1 s2 : block_state, m !! id s1 = Some s1 -> m !! id s2 = Some s2 ->
    in_current_chain s1 = true -> in_current_chain s2 = true -> block_num s1 = block_num s2 -> s1 = s2
}.

Lemma sorted_level_split N c l :
  StronglySorted num_before l -> Forall (fun s : block_state => N <= block_num s) l -> c ∈ l ->
  block_num c = N + 1 -> in_current_chain c = true ->
  (forall s, s ∈ l -> block_num s = N + 1 -> in_current_chain s = true -> s = c) ->
  exists A B, l = A ++ c :: B /\ Forall (fun s : block_state => block_num s = N) A.
Proof.
  intros Hs. induction Hs as [|s l Hs IH Hall]; intros Hge Hc Hn Hcur Huniq;
    [by apply elem_of_nil in Hc|].
  apply Forall_cons in Hge as [Hge Hge']. destruct (decide (block_num s = N)) as [HsN|HsN].
  - apply elem_of_cons in Hc as [->|Hc]; [lia|].
    destruct IH as (A & B & -> & HA); try done.
    { intros s' Hs'. apply Huniq. by right. }
    exists (s :: A), B. split; [done|]. by constructor.
  - assert (s = c) as ->; [|by exists [], l].
    apply elem_of_cons in Hc as [->|Hc]; [done|].
    rewrite Forall_forall in Hall. destruct (Hall _ Hc) as [Hlt|[Heq Himp]]; [lia|].
    apply Huniq; [by left|lia|by apply Himp].
Qed.

Lemma by_num_length i : length (by_block_num i) = size (contents i).
Proof. by rewrite by_num_perm, length_fmap, length_map_to_list. Qed.

(** The order of the index puts the current chain first. *)
Lemma spine_oldest i root n (a c : block_state) : tree_ok (contents i) root n -> spine (contents i) n a c ->
  exists l, by_block_num i = a :: l.
Proof.
  intros Ht Hsp. pose proof (by_num_sorted i) as Hs.
  assert (a ∈ by_block_num i) as Hin by (apply by_num_elem, Hsp).
  destruct (by_block_num i) as [|o l] eqn:El; [by apply elem_of_nil in Hin|].
  exists l. f_equal. apply elem_of_cons in Hin as [->|Hin]; [done|].
  apply StronglySorted_inv in Hs as [_ Hall]. rewrite Forall_forall in Hall.
  assert (contents i !! id o = Some o) as Ho by (apply by_num_elem; rewrite El; by left).
  pose proof (to_above _ _ _ Ht _ _ Ho). pose proof (sp_anum _ _ _ _ Hsp).
  destruct (Hall _ Hin) as [Hlt|[Heq Himp]]; [lia|].
  apply (sp_once _ _ _ _ Hsp); try done; [apply Hsp|apply Himp, Hsp|apply Hsp].
Qed.

(** [m'] is what is left of [m] when [a] goes, with the other blocks of its level
    and their descendants. *)
Definition pruned (m : gmap digest block_state) (n : Z) (a : block_state)
    (m' : gmap digest block_state) : Prop :=
  forall x s, m' !! x = Some s <-> delete (id a) m !! x = Some s /\
    forall b : block_state, delete (id a) m !! id b = Some b -> block_num b = n + 1 ->
      ~ below (delete (id a) m) (id b) x.

(** It is a tree over [a]. *)
Lemma prune_tree_ok m root n (a : block_state) m' :
  tree_ok m root n -> (forall x s, m !! x = Some s -> id s = x) ->
  m !! id a = Some a -> block_num a = n + 1 -> pruned m n a m' ->
  tree_ok m' (id a) (n + 1).
Proof.
  intros Ht Hkey Ha Han Hm'.
  assert (Hsub : forall x s, m' !! x = Some s -> m !! x = Some s /\ x <> id a).
  { intros x s [[Hne Hs]%lookup_delete_Some _]%Hm'. done. }
  assert (Habove : forall x s, m' !! x = Some s -> n + 1 < block_num s).
  { intros x s Hs. destruct (Hsub _ _ Hs) as [Hsm Hne]. pose proof (to_above _ _ _ Ht _ _ Hsm).
    destruct (decide (block_num s = n + 1)) as [Hn|]; [|lia]. exfalso.
    apply Hm' in Hs as [Hs Hb]. pose proof (Hkey _ _ Hsm). subst x. apply (Hb s Hs Hn). constructor. }
  assert (Hpar : forall x s p, m' !! x = Some s -> m !! prev s = Some p -> id p <> id a ->
    ~ (block_num p = n + 1) /\ m' !! prev s = Some p).
  { intros x s p Hs Hp Hpa. apply Hm' in Hs as [Hs Hb].
    pose proof (Hkey _ _ Hp) as Hidp.
    assert (delete (id a) m !! prev s = Some p) as Hpd by (rewrite lookup_delete_ne; congruence).
    assert (Hstep : forall b, below (delete (id a) m) b (prev s) -> below (delete (id a) m) b x).
    { intros b Hbb. pose proof (lookup_delete_Some m (id a) x s) as [[_ Hsm] _]; [done|].
      rewrite <- (Hkey _ _ Hsm). constructor; [|done]. by rewrite (Hkey _ _ Hsm). }
    split.
    - intros Hn. apply (Hb p); [by rewrite Hidp|done|]. apply Hstep. rewrite Hidp. constructor.
    - apply Hm'. split; [done|]. intros b Hbd Hbn Hbb. by eapply Hb, Hstep. }
  split.
  - rewrite <- Han. by apply (to_id _ _ _ Ht).
  - intros x s [Hs _]%Hsub. by apply (to_id _ _ _ Ht).
  - done.
  - intros x s Hs Hn. destruct (Hsub _ _ Hs) as [Hsm _].
    destruct (to_parent _ _ _ Ht _ _ Hsm) as (p & Hp & Hpn); [lia|].
    destruct (decide (id p = id a)) as [Heq|Hne]; [by rewrite <- Heq, (Hkey _ _ Hp)|].
    destruct (Hpar _ _ _ Hs Hp Hne) as [Hno _]. lia.
  - intros x s Hs Hn. destruct (Hsub _ _ Hs) as [Hsm _].
    destruct (to_parent _ _ _ Ht _ _ Hsm) as (p & Hp & Hpn); [lia|]. exists p. split; [|done].
    apply (Hpar _ _ _ Hs Hp). intros Heq. assert (p = a) as -> by (rewrite <- (Hkey _ _ Hp) in Hp; congruence).
    lia.
Qed.

(** The lowest level once [a] is erased. *)
Lemma spine_level i root n (a c : block_state) :
  tree_ok (contents i) root n -> spine (contents i) n a c ->
  exists A B, by_block_num i = a :: A ++ c :: B /\
    by_block_num (idx_erase (id a) i) = A ++ c :: B /\
    Forall (fun s : block_state => block_num s = n + 1) A.
Proof.
  intros Ht Hsp. destruct (spine_oldest i root n a c Ht Hsp) as [l Hl].
  assert (Hin : forall s, s ∈ l -> contents i !! id s = Some s)
    by (intros s Hs; apply by_num_elem; rewrite Hl; by right).
  assert (Hl1 : by_block_num (idx_erase (id a) i) = l).
  { rewrite by_num_erase, Hl, filter_cons, decide_False by naive_solver.
    apply filter_all. intros s Hs Heq. pose proof (by_num_NoDup i) as Hnd. rewrite Hl in Hnd.
    apply NoDup_cons in Hnd as [Hni _]. pose proof (Hin s Hs). pose proof (sp_a _ _ _ _ Hsp).
    congruence. }
  destruct (sorted_level_split (n + 1) c l) as (A & B & HAB & HA).
  - rewrite <- Hl1. apply by_num_sorted.
  - apply Forall_forall. intros s Hs%Hin. pose proof (to_above _ _ _ Ht _ _ Hs). lia.
  - assert (c ∈ by_block_num i) as Hc by (apply by_num_elem, Hsp). rewrite Hl in Hc.
    apply elem_of_cons in Hc as [->|]; [|done]. destruct Hsp. lia.
  - destruct Hsp. lia.
  - apply Hsp.
  - intros s Hs%Hin Hsn Hscur. apply (sp_once _ _ _ _ Hsp); try done; try apply Hsp.
    rewrite (sp_cnum _ _ _ _ Hsp). lia.
  - exists A, B. rewrite <- HAB. split_and!; done.
Qed.

Lemma level_elem i N (A B : list block_state) c s :
  by_block_num i = A ++ c :: B -> N < block_num c ->
  contents i !! id s = Some s -> block_num s = N -> s ∈ A.
Proof.
  intros Hl Hc Hs%by_num_elem Hsn. rewrite Hl in Hs. apply elem_of_app in Hs as [?|Hs]; [done|].
  pose proof (by_num_sorted i) as Hsort. rewrite Hl in Hsort.
  apply StronglySorted_app_1_r in Hsort.
  apply StronglySorted_inv in Hsort as [_ Hall]. rewrite Forall_forall in Hall.
  apply elem_of_cons in Hs as [->|Hs]; [lia|]. destruct (Hall _ Hs) as [|[]]; lia.
Qed.

Lemma prune_oldest_spec st root n (a c : block_state) :
  tree_ok (contents (index st)) root n -> spine (contents (index st)) n a c ->
  ready a (env st) ->
  exists i' h', prune irreversible a st = (ForkDb i' h' (announce a (env st)), Ok tt) /\
    pruned (contents (index st)) n a (contents i') /\
    (h' = fdb_head st /\ contents i' = delete (id a) (contents (index st)) \/
     h' = head (by_lib_block_num i')) /\
    contents i' !! id c = Some c.
Proof.
  intros Ht Hsp Hready. destruct st as [i h e]. cbn [index fdb_head env] in *.
  destruct (spine_level i root n a c Ht Hsp) as (A & B & Hl & Hl1 & HA).
  assert (Hkey : forall x s, contents i !! x = Some s -> id s = x) by (intros; by eapply contents_key).
  pose proof (sp_a _ _ _ _ Hsp) as Ha. pose proof (sp_anum _ _ _ _ Hsp) as Han.
  set (i1 := idx_erase (id a) i) in *.
  assert (Hm1 : contents i1 = delete (id a) (contents i)) by apply erase_contents.
  assert (Hcn : n + 1 < block_num c) by (destruct Hsp; lia).
  destruct (prune_same_spec (n + 1) c (S (size (contents i))) A B (ForkDb i1 h (announce a e)))
    as (i' & h' & Hloop & Hsub & Hh & Hspec); cbn [index fdb_head env] in *; try done.
  { eapply levels_mono; [rewrite Hm1; apply delete_subseteq|by eapply tree_ok_levels]. }
  { rewrite Hm1, (sp_link _ _ _ _ Hsp). apply lookup_delete_eq. }
  { rewrite <- by_num_length, Hl. cbn. rewrite length_app. cbn. lia. }
  assert (HinA : forall s, contents i1 !! id s = Some s -> block_num s = n + 1 -> s ∈ A)
    by (intros s ??; by eapply level_elem).
  assert (Hci : contents i' !! id c = Some c).
  { apply Hspec. split; [apply by_num_elem; rewrite Hl1; apply elem_of_app; right; by left|].
    intros b Hb. rewrite Forall_forall in HA. pose proof (HA b Hb) as Hbn.
    assert (forall s, s ∈ A \/ s = c -> contents i1 !! id s = Some s) as Hin
      by (intros s Hs; apply by_num_elem; rewrite Hl1, elem_of_app, elem_of_cons; tauto).
    pose proof (Hin b ltac:(by left)) as Hbi. pose proof (Hin c ltac:(by right)) as Hci.
    apply orphan_not_below; [by rewrite Hbi|done|..].
    - rewrite Hm1, (sp_link _ _ _ _ Hsp). apply lookup_delete_eq.
    - intros Heq. assert (b = c) by congruence. subst. lia. }
  exists i', h'. split_and!; [| | |done].
  - unfold prune. cbn [prune_fuel]. run_st. cbn [index prune_below]. run_st. cbn [index].
    rewrite Hl. rewrite Z.ltb_irrefl. run_st. unfold prune_self. run_st. cbn [index].
    rewrite Ha, Hirr by done. unfold put_index. run_st. cbn [index fdb_head env].
    fold i1. rewrite lower_bound_head; [rewrite Hl1, Han; exact Hloop|].
    apply Forall_forall. intros s Hs%by_num_elem. rewrite Hm1, lookup_delete_Some in Hs.
    destruct Hs as [_ Hs]. pose proof (to_above _ _ _ Ht _ _ Hs). lia.
  - intros x s. rewrite Hspec, Hm1. apply and_iff_compat_l. split.
    + intros Hn b Hb Hbn. apply Hn, HinA; [by rewrite Hm1|done].
    + intros Hn b Hb. apply Hn; [|by rewrite Forall_forall in HA; apply HA].
      rewrite <- Hm1. apply by_num_elem. rewrite Hl1. apply elem_of_app. by left.
  - destruct Hh as [[-> ->]|?]; [left|by right]. by rewrite Hm1.
Qed.

(** ** Adding blocks *)
Definition best_head i (h : block_state) : Prop :=
  contents i !! id h = Some h /\ forall x s, contents i !! x = Some s -> lib_before h s.

Lemma by_lib_best i h l : by_lib_block_num i = h :: l -> best_head i h.
Proof.
  intros Hl. split; [apply by_lib_elem; rewrite Hl; by left|].
  intros x s Hs. pose proof (contents_key _ _ _ Hs) as Hid. subst x. apply by_lib_elem in Hs.
  pose proof (by_lib_sorted i) as Hsort. rewrite Hl in Hs, Hsort.
  apply StronglySorted_inv in Hsort as [_ Hall]. rewrite Forall_forall in Hall.
  apply elem_of_cons in Hs as [->|Hs]; [|by apply Hall]. unfold lib_before. lia.
Qed.

Lemma spine_insert m n (a c : block_state) s :
  spine m n a c -> m !! id s = None -> in_current_chain s = false -> spine (<[id s := s]> m) n a c.
Proof.
  intros [] Hs Hcur. split; try done.
  - rewrite lookup_insert_ne; [done|]. congruence.
  - rewrite lookup_insert_ne; [done|]. congruence.
  - intros s1 s2. rewrite !lookup_insert_Some.
    intros [[_ <-]|[_ H1]] [[_ <-]|[_ H2]]; try congruence. by apply sp_once0.
Qed.

Lemma tree_insert m root n p s :
  tree_ok m root n -> m !! id p = Some p -> m !! id s = None -> prev s = id p ->
  block_num s = block_num p + 1 -> num_from_id (id s) = block_num s ->
  tree_ok (<[id s := s]> m) root n.
Proof.
  intros [] Hp Hs Hprev Hnum Hid. pose proof (to_above0 _ _ Hp) as Hpn. split; [done|..].
  - intros x t. rewrite lookup_insert_Some. intros [[<- <-]|[_ Ht]]; [done|by apply to_id0].
  - intros x t. rewrite lookup_insert_Some. intros [[<- <-]|[_ Ht]]; [lia|by apply (to_above0 x)].
  - intros x t. rewrite lookup_insert_Some. intros [[<- <-]|[_ Ht]]; [lia|by apply (to_first0 x)].
  - intros x t. rewrite lookup_insert_Some. intros [[<- <-]|[_ Ht]] Hn.
    + exists p. rewrite Hprev, lookup_insert_ne by congruence. done.
    + destruct (to_parent0 _ _ Ht Hn) as (q & Hq & ?). exists q.
      rewrite lookup_insert_ne; [done|]. congruence.
Qed.

(** The state of the database between operations: the open blocks form a tree over
    the last announced block, and their irreversible numbers are in order. *)
Definition fdb_ok (m : gmap digest block_state) (root : digest) (n : Z) : Prop :=
  tree_ok m root n /\ 0 <= n /\ forall x s, m !! x = Some s -> irr_ok s.

Lemma new_block_ok m root n p b trust s :
  (forall x, 0 <= hash0 (hash_header x) < 2 ^ 64) ->
  fdb_ok m root n -> m !! id p = Some p -> block_num p + 1 < 2 ^ 32 ->
  block_state_of_block p b trust = Ok s -> m !! header_id (sb_header (blk_header b)) = None ->
  fdb_ok (<[id s := s]> m) root n /\ m !! id s = None /\ in_current_chain s = false.
Proof.
  intros Hh (Ht & H0n & Hirr') Hp Hlt Hs Hfresh. unfold block_state_of_block in Hs.
  bind_ok Hs as (r & Hn & [= <-]). cbn [bs_header in_current_chain].
  destruct (next_linked _ _ _ _ Hn) as (pk & Hl).
  pose proof (to_above _ _ _ Ht _ _ Hp) as Hpn. pose proof (to_id _ _ _ Ht _ _ Hp) as Hpid.
  pose proof (linked_next_id _ _ _ _ Hl Hh Hpid) as Hrid.
  pose proof (next_irr_ok _ _ _ _ (Hirr' _ _ Hp) ltac:(lia) Hlt Hn) as (Hrirr & _).
  destruct Hl as [_ _ _ Hrn Hrp Hri Hrh]. rewrite Hrh in *. rewrite u32_small in Hrn by lia.
  assert (m !! id r = None) as Hnone by (by rewrite Hri). split; [|done]. split_and!; [|done|].
  - apply (tree_insert m root n p); try done. unfold prev. cbn. congruence.
  - intros x t. rewrite lookup_insert_Some. intros [[_ <-]|[_ Hm]]; [done|by eapply Hirr'].
Qed.

Lemma add_state_no_prune st s root n :
  contents (index st) !! id s = None -> tree_ok (<[id s := s]> (contents (index st))) root n ->
  (forall x t, <[id s := s]> (contents (index st)) !! x = Some t ->
     dpos_irreversible_blocknum t <= n + 1) ->
  exists i' (h : block_state), add_state irreversible s st = (ForkDb i' (Some h) (env st), Ok s) /\
    contents i' = <[id s := s]> (contents (index st)) /\ best_head i' h.
Proof.
  intros Hs Ht Hlow. destruct (insert_fresh (index st) s Hs) as (i' & Hins & Hm).
  assert (contents i' !! id s = Some s) as Hin by (rewrite Hm; apply lookup_insert_eq).
  pose proof (proj2 (by_lib_elem i' s) Hin) as Hl. pose proof (proj2 (by_num_elem i' s) Hin) as Hn.
  destruct (by_lib_block_num i') as [|h l] eqn:El; [by apply elem_of_nil in Hl|].
  destruct (by_block_num i') as [|o l'] eqn:En; [by apply elem_of_nil in Hn|].
  pose proof (by_lib_best _ _ _ El) as Hbest. exists i', h. split_and!; [|done..].
  unfold add_state, put_index, put_head. run_st. rewrite Hins. cbn [index fdb_head env].
  rewrite El, En. cbn [begin_of]. run_st. cbn [index fdb_head env].
  assert (contents i' !! id o = Some o) as Ho by (apply by_num_elem; rewrite En; by left).
  rewrite Hm in Ho. pose proof (to_above _ _ _ Ht _ _ Ho).
  destruct Hbest as [Hh _]. rewrite Hm in Hh. pose proof (Hlow _ _ Hh).
  rewrite (proj2 (Z.ltb_ge _ _)) by lia. done.
Qed.

Lemma add_state_prune st s root n (a c : block_state) :
  contents (index st) !! id s = None -> fdb_ok (<[id s := s]> (contents (index st))) root n ->
  spine (<[id s := s]> (contents (index st))) n a c ->
  (exists x t, <[id s := s]> (contents (index st)) !! x = Some t /\
     n + 1 < dpos_irreversible_blocknum t) ->
  ready a (env st) ->
  exists i' (h : block_state),
    add_state irreversible s st = (ForkDb i' (Some h) (announce a (env st)), Ok s) /\
    fdb_ok (contents i') (id a) (n + 1) /\ best_head i' h /\
    pruned (<[id s := s]> (contents (index st))) n a (contents i').
Proof.
  intros Hs (Ht & H0n & Hok) Hsp (x & t & Hx & Htl) Hready.
  destruct (insert_fresh (index st) s Hs) as (i1 & Hins & Hm). rewrite <- Hm in Ht, Hsp, Hok, Hx.
  destruct (spine_oldest i1 root n a c Ht Hsp) as [l Hl].
  pose proof (contents_key _ _ _ Hx) as Hid. subst x. pose proof (proj2 (by_lib_elem i1 t) Hx) as Hlt.
  destruct (by_lib_block_num i1) as [|h ll] eqn:El; [by apply elem_of_nil in Hlt|].
  destruct (by_lib_best _ _ _ El) as [Hh Hbest].
  assert (n + 1 < dpos_irreversible_blocknum h) as Hhl
    by (destruct (Hbest _ _ Hx) as [|[? _]]; lia).
  destruct (prune_oldest_spec (ForkDb i1 (Some h) (env st)) root n a c Ht Hsp Hready)
    as (i' & h' & Hrun & Hpr & Hh' & Hc). cbn [index fdb_head env] in *.
  assert (tree_ok (contents i') (id a) (n + 1)) as Ht'.
  { apply (prune_tree_ok (contents i1) root n a); try apply Hsp; try done.
    intros; by eapply contents_key. }
  assert (exists h2, h' = Some h2 /\ best_head i' h2) as (h2 & -> & Hb2).
  { destruct Hh' as [[-> Hdel]| ->].
    - exists h. split; [done|]. split.
      + rewrite Hdel, lookup_delete_ne; [done|]. intros Heq.
        pose proof (sp_a _ _ _ _ Hsp) as Ha. assert (a = h) as -> by congruence.
        pose proof (sp_anum _ _ _ _ Hsp). destruct (Hok _ _ Hh) as [[_ Hw] _ Hlib]. lia.
      + intros y u Hy. rewrite Hdel, lookup_delete_Some in Hy. by eapply Hbest, Hy.
    - pose proof (proj2 (by_lib_elem i' c) Hc) as Hcl.
      destruct (by_lib_block_num i') as [|h2 l2] eqn:El2; [by apply elem_of_nil in Hcl|].
      exists h2. split; [done|]. by eapply by_lib_best. }
  exists i', h2. split_and!; [|split_and!; [done|lia|]|done|by rewrite <- Hm].
  - unfold add_state, put_index, put_head. run_st. rewrite Hins. cbn [index fdb_head env].
    rewrite El, Hl. cbn [begin_of]. run_st. cbn [index fdb_head env].
    rewrite (sp_anum _ _ _ _ Hsp), (proj2 (Z.ltb_lt _ _)) by lia. by rewrite Hrun.
  - intros y u [Hy _]%Hpr. eapply Hok. by apply lookup_delete_Some in Hy as [_ ?].
Qed.

Lemma add_block_run st b trust p s :
  is_Some (fdb_head st) -> contents (index st) !! header_id (sb_header (blk_header b)) = None ->
  contents (index st) !! previous (sb_header (blk_header b)) = Some p ->
  block_state_of_block p b trust = Ok s ->
  add_block irreversible (Some b) trust st = add_state irreversible s st.
Proof.
  intros Hh Hf Hp Hs. unfold add_block. run_st.
  rewrite bool_decide_true by done. run_st. rewrite bool_decide_true by done. run_st.
  by rewrite Hp, Hs.
Qed.

(** Adding a valid block, with the blocks that are left. *)
Lemma add_block_spec st b trust p s root n :
  (forall x, 0 <= hash0 (hash_header x) < 2 ^ 64) ->
  fdb_ok (contents (index st)) root n -> is_Some (fdb_head st) ->
  contents (index st) !! header_id (sb_header (blk_header b)) = None ->
  contents (index st) !! previous (sb_header (blk_header b)) = Some p ->
  block_num p + 1 < 2 ^ 32 -> block_state_of_block p b trust = Ok s ->
  ((exists x t, <[id s := s]> (contents (index st)) !! x = Some t /\
      n + 1 < dpos_irreversible_blocknum t) ->
   exists a c, spine (contents (index st)) n a c /\ ready a (env st)) ->
  contents (index st) !! id s = None /\ in_current_chain s = false /\
  fdb_ok (<[id s := s]> (contents (index st))) root n /\
  exists i' (h : block_state) e', add_block irreversible (Some b) trust st = (ForkDb i' (Some h) e', Ok s) /\
    best_head i' h /\
    ((e' = env st /\ contents i' = <[id s := s]> (contents (index st)) /\
      fdb_ok (contents i') root n) \/
     (exists a c, e' = announce a (env st) /\ prev a = root /\ spine (contents (index st)) n a c /\
        pruned (<[id s := s]> (contents (index st))) n a (contents i') /\
        fdb_ok (contents i') (id a) (n + 1))).
Proof.
  intros Hh Hok Hhead Hf Hp Hlt Hs Hsp. pose proof (contents_key _ _ _ Hp) as Hid.
  rewrite (add_block_run st b trust p s) by done. rewrite <- Hid in Hp.
  destruct (new_block_ok _ _ _ _ _ _ _ Hh Hok Hp Hlt Hs Hf) as (Hok' & Hfresh & Hcur).
  split_and!; [done..|].
  destruct (decide (map_Exists (fun _ t => n + 1 < dpos_irreversible_blocknum t)
                      (<[id s := s]> (contents (index st))))) as [Hex|Hno].
  - destruct (Hsp Hex) as (a & c & Hac & Hready).
    pose proof (spine_insert _ _ _ _ _ Hac Hfresh Hcur) as Hac'.
    destruct (add_state_prune st s root n a c Hfresh Hok' Hac' Hex Hready)
      as (i' & h & Hrun & Hi & Hb & Hpr).
    exists i', h, (announce a (env st)). split_and!; [done..|]. right. exists a, c.
    split_and!; try done. apply (to_first _ _ _ (proj1 Hok) (id a)); apply Hac.
  - destruct (add_state_no_prune st s root n Hfresh (proj1 Hok')) as (i' & h & Hrun & Hi & Hb).
    { intros x t Hx. destruct (decide (n + 1 < dpos_irreversible_blocknum t)); [|lia].
      exfalso. apply Hno. by exists x, t. }
    exists i', h, (env st). split_and!; [done..|]. left. by rewrite Hi.
Qed.

(** ** Claims *)

(** C18. Adding a valid block to a well-formed fork database succeeds and leaves a
    best block as head. When a block became irreversible, exactly one block is
    announced: the child in the current chain of the block announced before. All
    blocks that remain descend from the announced one, so the announcements form
    a chain. This is for a fresh block on a known one, for subscribers that are ready
    for the announcement, and for a current chain that reaches two levels above the
    last announced block whenever there is something to announce: without these two
    levels the iteration of [prune] runs into a block it has erased
    ([prune_invalidates_iterator]). *)
Theorem add_block_announces_chain st b trust p s root n :
  (forall x, 0 <= hash0 (hash_header x) < 2 ^ 64) ->
  fdb_ok (contents (index st)) root n -> is_Some (fdb_head st) ->
  contents (index st) !! header_id (sb_header (blk_header b)) = None ->
  contents (index st) !! previous (sb_header (blk_header b)) = Some p ->
  block_num p + 1 < 2 ^ 32 -> block_state_of_block p b trust = Ok s ->
  ((exists x t, <[id s := s]> (contents (index st)) !! x = Some t /\
      n + 1 < dpos_irreversible_blocknum t) ->
   exists a c, spine (contents (index st)) n a c /\ ready a (env st)) ->
  exists i' (h : block_state) e', add_block irreversible (Some b) trust st = (ForkDb i' (Some h) e', Ok s) /\
    best_head i' h /\
    ((e' = env st /\ contents i' = <[id s := s]> (contents (index st)) /\
      fdb_ok (contents i') root n) \/
     (exists a, e' = announce a (env st) /\ prev a = root /\ block_num a = n + 1 /\
        in_current_chain a = true /\ fdb_ok (contents i') (id a) (n + 1))).
Proof.
  intros Hh Hok Hhead Hf Hp Hlt Hs Hsp.
  destruct (add_block_spec st b trust p s root n Hh Hok Hhead Hf Hp Hlt Hs Hsp)
    as (_ & _ & _ & i' & h & e' & Hrun & Hb & Hcase).
  exists i', h, e'. split_and!; [done..|].
  destruct Hcase as [?|(a & c & -> & Ha & Hac & _ & Hi)]; [by left|right].
  exists a. split_and!; try done; apply Hac.
Qed.
End pruning.

(** ** Branches *)

(** [l] is the way from [s] up to its ancestor [t]. *)
Inductive path (m : gmap digest block_state) : block_state -> list block_state -> block_state -> Prop :=
| path_one s : m !! id s = Some s -> path m s [s] s
| path_up s p l t : m !! id s = Some s -> m !! prev s = Some p -> path m p l t ->
    path m s (s :: l) t.

Lemma path_app m a b c l1 l2 :
  path m a (l1 ++ [b]) b -> path m b l2 c -> path m a (l1 ++ l2) c.
Proof.
  remember (l1 ++ [b]) as l eqn:Hl. intros Hp. revert l1 Hl.
  induction Hp as [s Hs|s p l t Hs Hps Hp IH]; intros l1 Hl Hb.
  - destruct l1 as [|? [|? ?]]; [|done..]. done.
  - destruct l1 as [|s' l1]; [injection Hl as -> ->; inversion Hp|].
    injection Hl as -> ->. cbn. eapply path_up; [done..|]. by apply IH.
Qed.

Lemma path_num m a l t s : levels m -> path m a l t -> s ∈ l -> block_num s <= block_num a.
Proof.
  intros Hl Hp. induction Hp as [a Ha|a p l t Ha Hpa Hp IH].
  - by intros ->%list_elem_of_singleton.
  - intros [->|Hs]%elem_of_cons; [done|]. apply IH in Hs.
    assert (block_num p < block_num a) by (by eapply Hl). lia.
Qed.

Section branches.
Context `{Crypto} {I E : Type} `{FL : ForkIndexLaws I}.
Implicit Types (i : I).

Lemma walk_to_spec i root n num fuel (b : block_state) acc :
  tree_ok (contents i) root n -> contents i !! id b = Some b -> n + 1 <= num ->
  block_num b - num <= Z.of_nat fuel ->
  exists l b', walk_to fuel i num b acc = Ok (b', acc ++ l) /\
    path (contents i) b (l ++ [b']) b' /\ block_num b' = Z.min (block_num b) num /\
    contents i !! id b' = Some b' /\ forall s, s ∈ l -> num < block_num s.
Proof.
  intros Ht. revert b acc. induction fuel as [|fuel IH]; intros b acc Hb Hn Hf.
  - exists [], b. cbn. rewrite (proj2 (Z.ltb_ge _ _)) by lia. cbn. rewrite app_nil_r.
    split_and!; try done; [by apply path_one|lia|]. by intros s Hs%elem_of_nil.
  - cbn [walk_to]. destruct (num <? block_num b) eqn:El; bool_to_prop; cbn [negb].
    + destruct (to_parent _ _ _ Ht _ _ Hb) as (p & Hp & Hpn); [lia|]. unfold get_block.
      pose proof (contents_key _ _ _ Hp) as Hid.
      destruct (IH p (acc ++ [b])) as (l & b' & Hw & Hpath & Hmin & Hb' & Hl);
        [by rewrite Hid|done|lia|].
      exists (b :: l), b'. rewrite Hp, Hw, <- app_assoc. split_and!; [done| |lia|done|].
      * cbn. by apply path_up with p.
      * intros s [->|Hs]%elem_of_cons; [done|by apply Hl].
    + exists [], b. run_monad. rewrite app_nil_r.
      split_and!; try done; [by apply path_one|lia|]. by intros s Hs%elem_of_nil.
Qed.

Lemma walk_both_spec i root n fuel (a b : block_state) acc1 acc2 :
  tree_ok (contents i) root n -> contents i !! id a = Some a -> contents i !! id b = Some b ->
  block_num a = block_num b -> block_num a - n <= Z.of_nat (S fuel) ->
  exists l1 l2 x y, walk_both fuel i a b (acc1, acc2) = Ok (acc1 ++ l1, acc2 ++ l2) /\
    path (contents i) a l1 x /\ path (contents i) b l2 y /\ prev x = prev y /\
    block_num x = block_num y /\ forall s, s ∈ l1 -> s ∈ l2 -> s = x /\ s = y.
Proof.
  intros Ht. pose proof (tree_ok_levels _ _ _ Ht) as Hlev. revert a b acc1 acc2.
  induction fuel as [|fuel IH]; intros a b acc1 acc2 Ha Hb Hab Hf; cbn [walk_both].
  all: destruct (decide (prev a = prev b)) as [Heq|Hne].
  1,3: exists [a], [b], a, b; cbn; split_and!; try done; try (by apply path_one);
       by intros s ->%list_elem_of_singleton ->%list_elem_of_singleton.
  - exfalso. apply Hne. pose proof (to_above _ _ _ Ht _ _ Ha).
    by rewrite (to_first _ _ _ Ht _ _ Ha), (to_first _ _ _ Ht _ _ Hb) by lia.
  - assert (n + 1 < block_num a) as Hgt.
    { pose proof (to_above _ _ _ Ht _ _ Ha). destruct (decide (block_num a = n + 1)); [|lia].
      exfalso. apply Hne. by rewrite (to_first _ _ _ Ht _ _ Ha), (to_first _ _ _ Ht _ _ Hb) by lia. }
    destruct (to_parent _ _ _ Ht _ _ Ha) as (pa & Hpa & Hna); [lia|].
    destruct (to_parent _ _ _ Ht _ _ Hb) as (pb & Hpb & Hnb); [lia|].
    destruct (IH pa pb (acc1 ++ [a]) (acc2 ++ [b]))
      as (l1 & l2 & x & y & Hw & H1 & H2 & Hxy & Hn & Hdis);
      [by rewrite (contents_key _ _ _ Hpa)|by rewrite (contents_key _ _ _ Hpb)|lia|lia|].
    unfold get_block. rewrite Hpa, Hpb. cbn [fst snd]. rewrite Hw, <- !app_assoc.
    exists (a :: l1), (b :: l2), x, y. split_and!; try done; [by eapply path_up..|].
    intros s [->|Hs1]%elem_of_cons [Hs|Hs2]%elem_of_cons.
    + subst. done.
    + pose proof (path_num _ _ _ _ _ Hlev H2 Hs2). lia.
    + subst s. pose proof (path_num _ _ _ _ _ Hlev H1 Hs1). lia.
    + by apply Hdis.
Qed.

(** For two blocks of a well-formed database, [fetch_branch_from] returns the
    ways from each of them up to blocks [x] and [y] with the same parent. The two
    branches have no block in common, except that they both end in the same block
    when one of the two given blocks is an ancestor of the other. *)
Lemma fetch_branch_spec i root n (a b : block_state) :
  tree_ok (contents i) root n -> 0 <= n ->
  contents i !! id a = Some a -> contents i !! id b = Some b ->
  exists l1 l2 x y, fetch_branch_from (id a) (id b) i = Ok (l1, l2) /\
    path (contents i) a l1 x /\ path (contents i) b l2 y /\ prev x = prev y /\
    block_num x = block_num y /\ forall s, s ∈ l1 -> s ∈ l2 -> s = x /\ s = y.
Proof.
  intros Ht H0n Ha Hb. pose proof (tree_ok_levels _ _ _ Ht) as Hlev.
  pose proof (to_above _ _ _ Ht _ _ Ha). pose proof (to_above _ _ _ Ht _ _ Hb).
  unfold fetch_branch_from, get_block. rewrite Ha, Hb.
  destruct (walk_to_spec i root n (block_num b) (Z.to_nat (block_num a)) a [] Ht Ha)
    as (m1 & a' & Hw1 & Hp1 & Hn1 & Ha' & Hl1); [lia..|].
  rewrite Hw1. run_monad.
  destruct (walk_to_spec i root n (block_num a') (Z.to_nat (block_num b)) b [] Ht Hb)
    as (m2 & b' & Hw2 & Hp2 & Hn2 & Hb' & Hl2); [lia..|].
  rewrite Hw2. run_monad.
  destruct (walk_both_spec i root n (Z.to_nat (block_num a')) a' b' m1 m2 Ht Ha' Hb')
    as (l1 & l2 & x & y & Hw & Hpa & Hpb & Hxy & Hn & Hdis); [lia..|].
  exists (m1 ++ l1), (m2 ++ l2), x, y. cbn [app]. rewrite Hw.
  split_and!; [done|by eapply path_app|by eapply path_app|done|done|].
  intros s Hs1 Hs2.
  assert (s ∈ m1 ++ l1 -> s ∈ m2 ++ l2 -> s ∈ l1 /\ s ∈ l2) as Hcase; [|naive_solver].
  pose proof (fun s => path_num _ _ _ _ s Hlev Hpa) as Hna.
  pose proof (fun s => path_num _ _ _ _ s Hlev Hpb) as Hnb.
  rewrite !elem_of_app. intros [Hm1|Hm1] [Hm2|Hm2]; try done; exfalso.
  - apply Hl1 in Hm1. pose proof (path_num _ _ _ _ s Hlev Hp2 ltac:(apply elem_of_app; by left)). lia.
  - apply Hl1 in Hm1. apply Hnb in Hm2. lia.
  - apply Hl2 in Hm2. apply Hna in Hm1. lia.
Qed.

Lemma lower_bound_elem n (l : list block_state) s :
  lower_bound_num n l = Some s -> s ∈ l /\ n <= block_num s.
Proof.
  induction l as [|t l IH]; [done|]. cbn. destruct (block_num t <? n) eqn:El; bool_to_prop.
  - intros [? ?]%IH. split; [by right|done].
  - intros [= ->]. split; [by left|done].
Qed.

Lemma lower_bound_first n (l : list block_state) t :
  StronglySorted num_before l -> t ∈ l -> n <= block_num t ->
  exists s, lower_bound_num n l = Some s /\ (s = t \/ num_before s t).
Proof.
  intros Hs. induction Hs as [|u l Hs IH Hall]; intros Ht Hn; [by apply elem_of_nil in Ht|].
  cbn. destruct (block_num u <? n) eqn:El; bool_to_prop.
  - apply elem_of_cons in Ht as [->|Ht]; [lia|]. by apply IH.
  - exists u. split; [done|]. apply elem_of_cons in Ht as [->|Ht]; [by left|right].
    rewrite Forall_forall in Hall. by apply Hall.
Qed.

(** Looking up a number in the current chain returns only blocks of the current
    chain with that number, and finds one whenever there is one. *)
Theorem current_chain_by_num i n :
  (forall s, get_block_in_current_chain_by_num n i = Some s ->
     contents i !! id s = Some s /\ block_num s = n /\ in_current_chain s = true) /\
  (forall s, contents i !! id s = Some s -> block_num s = n -> in_current_chain s = true ->
     is_Some (get_block_in_current_chain_by_num n i)).
Proof.
  unfold get_block_in_current_chain_by_num. split.
  - intros s. destruct (lower_bound_num n (by_block_num i)) as [t|] eqn:El; [|done].
    apply lower_bound_elem in El as [Hin%by_num_elem _].
    destruct (block_num t =? n) eqn:En; [|done]. destruct (in_current_chain t) eqn:Ec; [|done].
    cbn. intros [= <-]. by bool_to_prop.
  - intros s Hs%by_num_elem Hn Hc.
    destruct (lower_bound_first n (by_block_num i) s (by_num_sorted i) Hs ltac:(lia))
      as (t & Hl & Hb). rewrite Hl. apply lower_bound_elem in Hl as [_ Hge].
    destruct Hb as [->|[Hlt|[Heq Himp]]]; [|lia|].
    + rewrite Hn, Z.eqb_refl, Hc. cbn. eauto.
    + rewrite Heq, Hn, Z.eqb_refl, Himp by done. cbn. eauto.
Qed.

Implicit Types (st : fork_db I E).

(** [remove] terminates and deletes exactly the given block and its
    descendants; a well-formed database stays well-formed, and the new head is a
    best remaining block. Only when nothing remains is the dereferenced iterator
    invalid. *)
Lemma remove_ok k st root n :
  fdb_ok (contents (index st)) root n ->
  exists i', without (contents (index st)) k (contents i') /\ fdb_ok (contents i') root n /\
    (contents i' <> ∅ -> exists h : block_state,
       remove k st = (ForkDb i' (Some h) (env st), Ok tt) /\ best_head i' h) /\
    (contents i' = ∅ -> (remove k st).2 = Throw undefined_behaviour).
Proof.
  intros (Ht & H0n & Hok). destruct (remove_spec k st) as (i' & Hsub & Hwo & Hrun).
  exists i'. split_and!; [done| | |].
  - split_and!; [|done|].
    + eapply tree_without; [done| |done]. intros; by eapply contents_key.
    + intros x s Hs%Hwo. by eapply Hok, Hs.
  - intros Hne. rewrite Hrun. destruct (by_lib_block_num i') as [|h l] eqn:El.
    + exfalso. apply Hne, map_empty. intros x. destruct (contents i' !! x) as [s|] eqn:Ex; [|done].
      pose proof (contents_key _ _ _ Ex). subst x. apply by_lib_elem in Ex. rewrite El in Ex.
      by apply elem_of_nil in Ex.
    + exists h. split; [done|by eapply by_lib_best].
  - intros He. rewrite Hrun. destruct (by_lib_block_num i') as [|h l] eqn:El; [done|].
    assert (contents i' !! id h = Some h) as Hh by (apply by_lib_elem; rewrite El; by left).
    by rewrite He, lookup_empty in Hh.
Qed.

End branches.

(** ** BFT irreversibility *)
Section bft.
Context `{Crypto} {I E : Type} `{FL : ForkIndexLaws I}.
Implicit Types (st : fork_db I E) (i : I) (m : gmap digest block_state).

Definition raise (num : Z) (t : block_state) : block_state := with_bs (with_bft num) t.
Definition raise_set (num : Z) (D : gset digest) m : gmap digest block_state :=
  map_imap (fun x t => Some (if decide (x ∈ D) then raise num t else t)) m.

Lemma raise_set_lookup num D m x :
  raise_set num D m !! x = (fun t => if decide (x ∈ D) then raise num t else t) <$> m !! x.
Proof. unfold raise_set. rewrite map_lookup_imap. by destruct (m !! x). Qed.

Lemma raise_set_empty num m : raise_set num ∅ m = m.
Proof.
  apply map_eq. intros x. rewrite raise_set_lookup. destruct (m !! x); [|done]. cbn.
  by rewrite decide_False by set_solver.
Qed.

Lemma raise_set_union num D1 D2 m :
  raise_set num D2 (raise_set num D1 m) = raise_set num (D1 ∪ D2) m.
Proof.
  apply map_eq. intros x. rewrite !raise_set_lookup. destruct (m !! x); [|done]. cbn. f_equal.
  repeat case_decide; try set_solver; done.
Qed.

Lemma alter_raise num k m : alter (raise num) k m = raise_set num {[k]} m.
Proof.
  apply map_eq. intros x. rewrite raise_set_lookup. destruct (decide (x = k)) as [->|Hne].
  - rewrite lookup_alter_eq. destruct (m !! k); [|done]. cbn. by rewrite decide_True by set_solver.
  - rewrite lookup_alter_ne by done. destruct (m !! x); [|done]. cbn.
    by rewrite decide_False by set_solver.
Qed.

(** The links between blocks are the same. *)
Definition same_links m m' : Prop :=
  forall x, (fun t : block_state => (id t, prev t)) <$> m !! x =
            (fun t : block_state => (id t, prev t)) <$> m' !! x.

Lemma same_links_below m m' a x : same_links m m' -> below m a x -> below m' a x.
Proof.
  intros Hl Hb. induction Hb as [|s Hs Hb IH]; [constructor|].
  specialize (Hl (id s)). rewrite Hs in Hl. cbn in Hl.
  destruct (m' !! id s) as [s'|] eqn:Hs'; [|done]. injection Hl as Hid Hp.
  rewrite Hid. constructor; [by rewrite <- Hid|]. by rewrite <- Hp.
Qed.

Lemma raise_set_links num D m : same_links m (raise_set num D m).
Proof. intros x. rewrite raise_set_lookup. destruct (m !! x); [|done]. cbn. by case_decide. Qed.

Lemma update_one_run num t st : exists h',
  update_one num t st =
    if bft_irreversible_blocknum t <? num
    then (ForkDb (idx_modify (id t) (raise num) (index st)) h' (env st), Ok [id t])
    else (st, Ok []).
Proof.
  unfold update_one. destruct (_ <? _); [|by exists None].
  eexists. unfold modify_obj. run_st. reflexivity.
Qed.

(** Blocks of a list that are still below [num]. *)
Definition lagging (num : Z) (l : list block_state) : list digest :=
  (fun t : block_state => id t) <$> filter (fun t : block_state => bft_irreversible_blocknum t < num) l.

Lemma modify_raise i k num : contents (idx_modify k (raise num) i) = raise_set num {[k]} (contents i).
Proof. rewrite modify_contents by done. apply alter_raise. Qed.

Lemma update_all_spec num (l : list block_state) st :
  exists i' h', update_all num l st = (ForkDb i' h' (env st), Ok (lagging num l)) /\
    contents i' = raise_set num (list_to_set (lagging num l)) (contents (index st)).
Proof.
  revert st. induction l as [|t l IH]; intros st.
  - exists (index st), (fdb_head st). destruct st. split; [done|]. cbn. by rewrite raise_set_empty.
  - cbn [update_all]. destruct (update_one_run num t st) as (h1 & Hone).
    unfold lagging. rewrite filter_cons. fold (lagging num l). destruct (_ <? _) eqn:El; bool_to_prop.
    + destruct (IH (ForkDb (idx_modify (id t) (raise num) (index st)) h1 (env st)))
        as (i' & h' & Hrun & Hm). cbn [index env] in *.
      exists i', h'. run_st. rewrite Hone. rewrite Hrun. rewrite decide_True by done.
      split; [done|]. rewrite Hm, modify_raise, raise_set_union. by cbn.
    + destruct (IH st) as (i' & h' & Hrun & Hm). exists i', h'. run_st. rewrite Hone, Hrun.
      by rewrite decide_False by lia.
Qed.

(** One layer: the children of the queue that are still below [num] are raised. *)
Lemma update_spec num q st :
  exists i' h' q', update num q st = (ForkDb i' h' (env st), Ok q') /\
    contents i' = raise_set num (list_to_set q') (contents (index st)) /\
    forall x, x ∈ q' <-> exists t, contents (index st) !! x = Some t /\ prev t ∈ q /\
      bft_irreversible_blocknum t < num.
Proof.
  revert st. induction q as [|k q IH]; intros st.
  - exists (index st), (fdb_head st), []. destruct st. split_and!; [done|by rewrite raise_set_empty|].
    intros x. split; [by intros ?%elem_of_nil|]. by intros (t & _ & ?%elem_of_nil & _).
  - cbn [update]. destruct (update_all_spec num (by_prev_range k (index st)) st)
      as (i1 & h1 & Hrun1 & Hm1).
    destruct (IH (ForkDb i1 h1 (env st))) as (i' & h' & q' & Hrun & Hm & Hq). cbn [index env] in *.
    set (u := lagging num (by_prev_range k (index st))) in *.
    assert (Hu : forall x, x ∈ u <-> exists t, contents (index st) !! x = Some t /\ prev t = k /\
      bft_irreversible_blocknum t < num).
    { intros x. unfold u, lagging. rewrite list_elem_of_fmap. split.
      - intros (t & -> & [Hb [Ht Hp]%by_prev_elem]%list_elem_of_filter). by exists t.
      - intros (t & Ht & Hp & Hb). exists t. rewrite (contents_key _ _ _ Ht). split; [done|].
        apply list_elem_of_filter. split; [done|]. apply by_prev_elem.
        by rewrite (contents_key _ _ _ Ht). }
    exists i', h', (u ++ q'). run_st. rewrite Hrun1. rewrite Hrun. split_and!; [done| |].
    + rewrite Hm, Hm1, raise_set_union. by rewrite list_to_set_app_L.
    + intros x. rewrite elem_of_app, Hu, Hq, Hm1, raise_set_lookup. split.
      * intros [(t & Ht & Hp & Hb)|(t & Ht & Hp & Hb)].
        -- exists t. split_and!; [done| |done]. rewrite Hp. by left.
        -- destruct (contents (index st) !! x) as [t0|]; [|done]. cbn in Ht. injection Ht as <-.
           exists t0. split; [done|]. case_decide; cbn in *; [lia|]. split; [by right|done].
      * intros (t & Ht & [Hp|Hp]%elem_of_cons & Hb); [left; by exists t|].
        destruct (decide (x ∈ u)) as [Hx|Hx]; [left; by apply Hu|]. right. exists t.
        rewrite Ht. cbn. rewrite decide_False; [done|]. by rewrite elem_of_list_to_set.
Qed.

Definition lag_set (num : Z) m : gset digest :=
  dom (filter (fun xt : digest * block_state => bft_irreversible_blocknum xt.2 < num) m).

Lemma elem_of_lag_set num m x :
  x ∈ lag_set num m <-> exists t, m !! x = Some t /\ bft_irreversible_blocknum t < num.
Proof.
  unfold lag_set. rewrite elem_of_dom. split.
  - intros [t [Ht Hb]%map_lookup_filter_Some]. by exists t.
  - intros (t & Ht & Hb). exists t. by apply map_lookup_filter_Some.
Qed.

Lemma lag_set_raise num D m x :
  x ∈ lag_set num (raise_set num D m) <-> x ∈ lag_set num m /\ x ∉ D.
Proof.
  rewrite !elem_of_lag_set. setoid_rewrite raise_set_lookup. split.
  - intros (t & Ht & Hb). destruct (m !! x) as [t0|]; [|done]. injection Ht as <-.
    case_decide; cbn in *; [lia|]. split; [by exists t0|done].
  - intros [(t & Ht & Hb) Hx]. exists t. rewrite Ht. cbn. by rewrite decide_False.
Qed.

(** What the traversal maintains: [D] is raised, and every lagging child of a
    raised block hangs off the queue. *)
Record bfs m0 (k : digest) (num : Z) (D : gset digest) (q : list digest) : Prop := {
  bfs_done : forall x, x ∈ D -> below m0 k x /\ x ∈ lag_set num m0;
  bfs_queue : forall x, x ∈ q -> x = k \/ x ∈ D;
  bfs_front : forall x t, m0 !! x = Some t -> bft_irreversible_blocknum t < num -> x ∉ D ->
    prev t = k \/ prev t ∈ D -> prev t ∈ q
}.

Lemma bfs_step m0 k num D q (q' : list digest) :
  (forall x t, m0 !! x = Some t -> id t = x) -> bfs m0 k num D q ->
  (forall x, x ∈ q' <-> exists t, raise_set num D m0 !! x = Some t /\ prev t ∈ q /\
     bft_irreversible_blocknum t < num) ->
  bfs m0 k num (D ∪ list_to_set q') q'.
Proof.
  intros Hkey [Hd Hq Hf] Hq'.
  assert (Hq0 : forall x, x ∈ q' <-> x ∉ D /\ exists t, m0 !! x = Some t /\ prev t ∈ q /\
    bft_irreversible_blocknum t < num).
  { intros x. rewrite Hq'. setoid_rewrite raise_set_lookup. split.
    - intros (t & Ht & Hp & Hb). destruct (m0 !! x) as [t0|]; [|done]. injection Ht as <-.
      case_decide; cbn in *; [lia|]. split; [done|]. by exists t0.
    - intros (Hx & t & Ht & Hp & Hb). exists t. rewrite Ht. cbn. by rewrite decide_False. }
  split.
  - intros x [Hx|Hx%elem_of_list_to_set]%elem_of_union; [by apply Hd|].
    apply Hq0 in Hx as (HnD & t & Ht & Hp & Hb). split; [|apply elem_of_lag_set; by exists t].
    pose proof (Hkey _ _ Ht) as Hid. subst x. constructor; [done|].
    destruct (Hq _ Hp) as [->|HpD]; [constructor|by apply Hd].
  - intros x Hx. right. apply elem_of_union. right. by apply elem_of_list_to_set.
  - intros x t Ht Hb. rewrite !elem_of_union, !elem_of_list_to_set. intros Hx Hp.
    assert (prev t ∈ q' \/ prev t ∈ q) as [?|Hpq]; [|done|].
    { destruct Hp as [Hp|[Hp|Hp]]; [|right|by left]; (right || idtac);
        apply (Hf x t); try done; tauto. }
    exfalso. apply Hx. right. apply Hq0. split; [tauto|]. by exists t.
Qed.

Lemma update_loop_spec m0 k num fuel D q st :
  (forall x t, m0 !! x = Some t -> id t = x) ->
  contents (index st) = raise_set num D m0 -> bfs m0 k num D q ->
  (size (lag_set num (contents (index st))) < fuel)%nat ->
  exists i' h' D', update_loop fuel num q st = (ForkDb i' h' (env st), Ok tt) /\
    contents i' = raise_set num D' m0 /\ bfs m0 k num D' [].
Proof.
  intros Hkey. revert D q st. induction fuel as [|fuel IH]; intros D q st Hm Hb Hf; [lia|].
  destruct q as [|j q].
  { exists (index st), (fdb_head st), D. by destruct st. }
  cbn [update_loop]. destruct (update_spec num (j :: q) st) as (i1 & h1 & q' & Hrun & Hm1 & Hq').
  rewrite Hm in Hq'. pose proof (bfs_step _ _ _ _ _ _ Hkey Hb Hq') as Hb'.
  rewrite Hm, raise_set_union in Hm1. run_st. rewrite Hrun.
  destruct q' as [|j' q'].
  { exists i1, h1, (D ∪ list_to_set []). destruct fuel; by split_and!. }
  apply (IH _ _ (ForkDb i1 h1 (env st)) Hm1 Hb'). cbn [index].
  assert (lag_set num (contents i1) ⊂ lag_set num (contents (index st))); [|apply subset_size in H1; lia].
  rewrite Hm1, Hm, <- raise_set_union. apply strict_spec. split.
  - intros x [? _]%lag_set_raise. done.
  - intros Hsub. assert (j' ∈ j' :: q') as (t & Ht & _ & Hlt)%Hq' by (by left).
    assert (j' ∈ lag_set num (raise_set num D m0)) as Hin by (apply elem_of_lag_set; by exists t).
    apply Hsub, lag_set_raise in Hin as [_ Hno]. apply Hno. set_solver.
Qed.

(** A block is at least as irreversible as its parent. *)
Definition bft_mono m : Prop := forall x s p, m !! x = Some s -> m !! prev s = Some p ->
  bft_irreversible_blocknum p <= bft_irreversible_blocknum s.

Lemma bfs_complete m k num D x t :
  let m0 := raise_set num {[k]} m in
  bft_mono m -> bfs m0 k num D [] -> below m0 k x -> m0 !! x = Some t ->
  bft_irreversible_blocknum t < num -> x ∈ D.
Proof.
  intros m0 Hmono Hb Hbe. revert t. induction Hbe as [|s Hs Hbe IH]; intros t Ht Hlt.
  - unfold m0 in Ht. rewrite raise_set_lookup in Ht. destruct (m !! k); [|done].
    injection Ht as <-. rewrite decide_True in Hlt by set_solver. cbn in Hlt. lia.
  - assert (t = s) as -> by congruence. destruct (decide (id s ∈ D)) as [|Hno]; [done|].
    assert (Hpd : ~ (prev s = k \/ prev s ∈ D)).
    { intros Hp. apply (bfs_front _ _ _ _ _ Hb _ _ Hs Hlt Hno) in Hp. by apply elem_of_nil in Hp. }
    exfalso. apply Hpd. right. inversion Hbe as [Heq|p Hp _ Heq]; [exfalso; apply Hpd; by left|].
    rewrite Heq in Hp, Hpd |- *. apply (IH p Hp).
    unfold m0 in Hs, Hp. rewrite raise_set_lookup in Hs, Hp.
    destruct (m !! prev s) as [p0|] eqn:Ep; [|done]. cbn in Hp.
    rewrite decide_False in Hp by set_solver.
    destruct (m !! id s) as [s0|] eqn:Es; [|done]. cbn in Hs.
    destruct (decide (id s ∈ {[k]})) as [Hk|Hk]; injection Hs as Hs; injection Hp as ->.
    + rewrite <- Hs in Hlt. cbn in Hlt. lia.
    + rewrite Hs in Es. specialize (Hmono _ _ _ Es Ep). lia.
Qed.

(** The maps before and after: the descendants of [k] have their number raised. *)
Definition bft_raised m (k : digest) (num : Z) m' : Prop := forall x t, m !! x = Some t ->
  (below m k x -> m' !! x = Some (raise (Z.max (bft_irreversible_blocknum t) num) t)) /\
  (~ below m k x -> m' !! x = Some t).

Lemma raise_same t : raise (bft_irreversible_blocknum t) t = t.
Proof. by destruct t as [[] ? ? ? ?]. Qed.

Lemma bfs_raised m k s D :
  let num := block_num s in
  m !! k = Some s -> bft_irreversible_blocknum s <= num -> bft_mono m ->
  bfs (raise_set num {[k]} m) k num D [] ->
  bft_raised m k num (raise_set num ({[k]} ∪ D) m) /\ bft_mono (raise_set num ({[k]} ∪ D) m).
Proof.
  intros num Hk Hle Hmono Hb. pose proof (raise_set_links num {[k]} m) as Hlinks.
  assert (Hlook : forall x t, m !! x = Some t -> x <> k -> raise_set num {[k]} m !! x = Some t).
  { intros x t Ht Hne. rewrite raise_set_lookup, Ht. cbn. by rewrite decide_False by set_solver. }
  assert (HD : forall x t, m !! x = Some t -> x ∈ D -> x <> k /\ bft_irreversible_blocknum t < num).
  { intros x t Ht HxD. apply (bfs_done _ _ _ _ _ Hb) in HxD as [_ (t' & Ht' & Hlt)%elem_of_lag_set].
    rewrite raise_set_lookup, Ht in Ht'. injection Ht' as <-. case_decide as Hd; [cbn in Hlt; lia|].
    split; [set_solver|done]. }
  split.
  - intros x t Ht. rewrite raise_set_lookup, Ht. split.
    + intros Hbe. cbn. f_equal. destruct (decide (x = k)) as [->|Hne].
      { assert (t = s) as -> by congruence. rewrite decide_True by set_solver. f_equal. lia. }
      destruct (decide (bft_irreversible_blocknum t < num)) as [Hlt|Hge].
      * rewrite decide_True; [f_equal; lia|]. apply elem_of_union_r.
        apply (bfs_complete m k num D x t); try done; [by eapply same_links_below|by apply Hlook].
      * rewrite decide_False, Z.max_l, raise_same by
          (lia || (intros [?|Hx]%elem_of_union; [set_solver|]; apply (HD _ _ Ht) in Hx; lia)). done.
    + intros Hnb. cbn. rewrite decide_False; [done|].
      intros [->%elem_of_singleton|Hx]%elem_of_union; [apply Hnb; constructor|].
      apply Hnb. apply (bfs_done _ _ _ _ _ Hb) in Hx as [Hx _].
      eapply same_links_below; [|exact Hx]. intros y. symmetry. apply Hlinks.
  - intros x t p. rewrite !raise_set_lookup. destruct (m !! x) as [t0|] eqn:Ht; [|done].
    intros Ht'. assert (prev t = prev t0) as -> by (injection Ht' as <-; by case_decide).
    destruct (m !! prev t0) as [p0|] eqn:Hp; [|done]. intros Hp'.
    injection Ht' as <-. injection Hp' as <-.
    pose proof (Hmono _ _ _ Ht Hp) as Hm0.
    destruct (decide (prev t0 ∈ {[k]} ∪ D)) as [Hpin|Hpin], (decide (x ∈ {[k]} ∪ D)) as [Hxin|Hxin];
      cbn; try lia.
    + destruct (decide (bft_irreversible_blocknum t0 < num)) as [Hlt|]; [|lia]. exfalso.
      assert (prev t0 ∈ []) as Hnil; [|by apply elem_of_nil in Hnil].
      apply (bfs_front _ _ _ _ _ Hb x t0); [by apply Hlook; set_solver|done|set_solver|].
      apply elem_of_union in Hpin as [->%elem_of_singleton|?]; [by left|by right].
    + apply elem_of_union in Hxin as [->%elem_of_singleton|Hx].
      * assert (t0 = s) as -> by congruence. lia.
      * apply (HD _ _ Ht) in Hx. lia.
Qed.

(** Making a block BFT-irreversible terminates and raises exactly that block and
    all its descendants to at least its number; every block stays at least as
    irreversible as its parent. *)
Theorem set_bft_irreversible_descendants st k s :
  contents (index st) !! k = Some s -> bft_irreversible_blocknum s <= block_num s ->
  bft_mono (contents (index st)) ->
  exists i' h', set_bft_irreversible k st = (ForkDb i' h' (env st), Ok tt) /\
    bft_raised (contents (index st)) k (block_num s) (contents i') /\ bft_mono (contents i').
Proof.
  intros Hk Hle Hmono. set (num := block_num s).
  set (f := with_bs (fun h => with_bft (block_num h) h)).
  assert (Hm1 : contents (idx_modify k f (index st)) = raise_set num {[k]} (contents (index st))).
  { rewrite modify_contents, <- alter_raise by done. apply map_eq. intros x.
    destruct (decide (x = k)) as [->|Hne]; [by rewrite !lookup_alter_eq, Hk|].
    by rewrite !lookup_alter_ne by done. }
  unfold set_bft_irreversible. run_st. rewrite Hk. unfold modify_obj. run_st.
  match goal with |- context [update_loop ?fu _ _ ?st1] =>
    destruct (update_loop_spec (raise_set num {[k]} (contents (index st))) k num fu ∅ [k] st1)
      as (i' & h' & D & Hrun & Hm & Hb) end; cbn [index env] in *.
  - intros x t Ht. apply (contents_key (idx_modify k f (index st))). by rewrite Hm1.
  - by rewrite raise_set_empty.
  - split; [set_solver|intros x ->%list_elem_of_singleton; by left|].
    intros x t _ _ _ [->|?]; [by left|set_solver].
  - fold f. rewrite Hm1, <- size_dom. apply Nat.lt_succ_r, subseteq_size. intros x.
    rewrite elem_of_lag_set, elem_of_dom. intros (t & Ht & _). rewrite raise_set_lookup in Ht.
    destruct (contents (index st) !! x); [eauto|done].
  - exists i', h'. split; [exact Hrun|]. rewrite raise_set_union in Hm. rewrite Hm.
    by apply bfs_raised.
Qed.
End bft.

(** ** An index that satisfies the laws

    Blocks by id, with the ordered views sorted on demand; ties are broken by id. *)
Module SortedIndex.

Fixpoint lex_le (a b : list Z) : bool :=
  match a, b with
  | [], _ => true
  | _ :: _, [] => false
  | x :: a, y :: b => if x <? y then true else if x =? y then lex_le a b else false
  end.

Lemma lex_le_total a b : lex_le a b = true \/ lex_le b a = true.
Proof.
  revert b. induction a as [|x a IH]; intros [|y b]; cbn; auto.
  destruct (x <? y) eqn:E1, (y <? x) eqn:E2, (x =? y) eqn:E3, (y =? x) eqn:E4; bool_to_prop;
    auto; lia.
Qed.

Lemma lex_le_trans (a b c : list Z) : lex_le a b = true -> lex_le b c = true -> lex_le a c = true.
Proof.
  revert b c. induction a as [|x a IH]; intros [|y b] [|z c]; cbn; try done.
  destruct (x <? y) eqn:E1, (y <? z) eqn:E2, (x <? z) eqn:E3, (x =? y) eqn:E4, (y =? z) eqn:E5,
    (x =? z) eqn:E6; bool_to_prop; try done; try lia. apply IH.
Qed.

Lemma lex_le_antisym a b : length a = length b -> lex_le a b = true -> lex_le b a = true -> a = b.
Proof.
  revert b. induction a as [|x a IH]; intros [|y b] Hl; try done. cbn.
  destruct (x <? y) eqn:E1, (y <? x) eqn:E2, (x =? y) eqn:E3, (y =? x) eqn:E4; bool_to_prop;
    try done; try lia. intros ??. subst. f_equal. by apply IH; [injection Hl|..].
Qed.

Definition id_key (d : digest) : list Z := [hash0 d; hash1 d; hash2 d; hash3 d].
Definition num_key (s : block_state) : list Z :=
  [block_num s; if in_current_chain s then 0 else 1] ++ id_key (id s).
Definition lib_key (s : block_state) : list Z :=
  [- dpos_irreversible_blocknum s; - bft_irreversible_blocknum s; - block_num s] ++ id_key (id s).

Definition key_le (key : block_state -> list Z) (a b : block_state) : Prop :=
  lex_le (key a) (key b) = true.
#[local] Instance key_le_dec key a b : Decision (key_le key a b).
Proof. unfold key_le. apply _. Defined.
#[local] Instance key_le_total key : Total (key_le key).
Proof. intros a b. apply lex_le_total. Qed.
#[local] Instance key_le_trans key : Transitive (key_le key).
Proof. intros a b c. apply lex_le_trans. Qed.

Definition keyed (m : gmap digest block_state) : Prop :=
  map_Forall (fun k (s : block_state) => id s = k) m.
Definition index_type := { m : gmap digest block_state | bool_decide (keyed m) = true }.

Definition values (i : index_type) : list block_state := (map_to_list (proj1_sig i)).*2.
Definition mk (m : gmap digest block_state) (Hm : keyed m) : index_type :=
  exist _ m (bool_decide_eq_true_2 _ Hm).

Lemma keyed_of (i : index_type) : keyed (proj1_sig i).
Proof. exact (bool_decide_eq_true_1 _ (proj2_sig i)). Qed.
Lemma keyed_insert m (s : block_state) : keyed m -> keyed (<[id s := s]> m).
Proof. intros Hm. by apply map_Forall_insert_2. Qed.
Lemma keyed_delete m k : keyed m -> keyed (delete k m).
Proof. intros Hm. by apply map_Forall_delete. Qed.
Definition modify_one (k : digest) (f : block_state -> block_state) (m : gmap digest block_state) :=
  match m !! k with
  | Some s => if decide (id (f s) = k) then <[k := f s]> m else m
  | None => m
  end.
Lemma keyed_modify m k f : keyed m -> keyed (modify_one k f m).
Proof.
  intros Hm. unfold modify_one. destruct (m !! k) as [s|] eqn:Hk; [|done]. case_decide as Hid; [|done].
  rewrite <- Hid. by apply keyed_insert.
Qed.
Lemma keyed_empty : keyed ∅.
Proof. apply map_Forall_empty. Qed.

#[global] Instance sorted_index : ForkIndex index_type := {
  contents i := proj1_sig i;
  idx_empty := mk ∅ keyed_empty;
  idx_insert s i := match proj1_sig i !! id s with
                    | Some _ => (i, false)
                    | None => (mk _ (keyed_insert _ s (keyed_of i)), true)
                    end;
  idx_erase k i := mk _ (keyed_delete _ k (keyed_of i));
  idx_modify k f i := mk _ (keyed_modify _ k f (keyed_of i));
  by_prev_range k i := filter (fun s : block_state => prev s = k) (values i);
  by_block_num i := merge_sort (key_le num_key) (values i);
  by_lib_block_num i := merge_sort (key_le lib_key) (values i)
}.

Lemma num_key_before a b : key_le num_key a b -> num_before a b.
Proof.
  unfold key_le, num_before. cbn. destruct (_ <? _) eqn:E1; bool_to_prop; [by left|].
  destruct (_ =? _) eqn:E2; bool_to_prop; [|done].
  destruct (in_current_chain a), (in_current_chain b); cbn; intros ?; try done; by right.
Qed.

Lemma lib_key_before a b : key_le lib_key a b -> lib_before a b.
Proof.
  unfold key_le, lib_before. cbn.
  repeat (destruct (_ <? _) eqn:?; bool_to_prop; [intros; lia|]; destruct (_ =? _) eqn:?; bool_to_prop;
    [|done]). intros; lia.
Qed.

Lemma values_key i s : s ∈ values i -> proj1_sig i !! id s = Some s.
Proof.
  unfold values. intros ([k t] & -> & Hin%elem_of_map_to_list)%list_elem_of_fmap. cbn.
  by rewrite (keyed_of i _ _ Hin).
Qed.

(** The sorted list of a set of blocks is unique. *)
Lemma sort_unique (l1 l2 : list block_state) i :
  (forall s, s ∈ l1 -> s ∈ values i) -> (forall s, s ∈ l2 -> s ∈ values i) ->
  StronglySorted (key_le num_key) l1 -> StronglySorted (key_le num_key) l2 -> l1 ≡ₚ l2 -> l1 = l2.
Proof.
  intros H1 H2. apply StronglySorted_unique_strong. intros a b Ha%H1%values_key Hb%H2%values_key Hab Hba.
  assert (num_key a = num_key b) as Hk by (by apply lex_le_antisym).
  assert (id a = id b) as Hid.
  { unfold num_key, id_key in Hk. injection Hk. destruct (id a), (id b). cbn. congruence. }
  congruence.
Qed.

Lemma keyed_values_NoDup m : keyed m -> NoDup (map_to_list m).*2.
Proof.
  intros Hm. apply (NoDup_fmap_1 (fun s : block_state => id s)). rewrite <- list_fmap_compose.
  replace (((fun s : block_state => id s) ∘ snd) <$> map_to_list m)
    with (map_to_list m).*1; [apply NoDup_fst_map_to_list|].
  apply list_fmap_ext. intros n [k s] Hn. cbn. symmetry. apply (Hm k s).
  apply elem_of_map_to_list, list_elem_of_lookup. eauto.
Qed.

Lemma elem_of_values m (s : block_state) : keyed m -> s ∈ (map_to_list m).*2 <-> m !! id s = Some s.
Proof.
  intros Hm. rewrite list_elem_of_fmap. split.
  - intros ([k t] & -> & Hin%elem_of_map_to_list). cbn. by rewrite (Hm _ _ Hin).
  - intros Hs. exists (id s, s). by rewrite elem_of_map_to_list.
Qed.

Lemma values_delete i k :
  (map_to_list (delete k (proj1_sig i))).*2 ≡ₚ filter (fun s : block_state => id s <> k) (values i).
Proof.
  pose proof (keyed_of i) as Hk. apply NoDup_Permutation.
  - by apply keyed_values_NoDup, keyed_delete.
  - by apply NoDup_filter, keyed_values_NoDup.
  - intros s. rewrite list_elem_of_filter. unfold values.
    rewrite !elem_of_values by (try apply keyed_delete; done). rewrite lookup_delete_Some. naive_solver.
Qed.

#[global] Instance sorted_index_laws : ForkIndexLaws index_type.
Proof.
  split.
  - intros i k s Hs. by apply (keyed_of i).
  - done.
  - intros i s Hs. cbn in *. rewrite Hs. by eexists.
  - intros i s [t Ht]. cbn in *. by rewrite Ht.
  - done.
  - intros i k f Hf. cbn. unfold modify_one. destruct (proj1_sig i !! k) as [s|] eqn:Hk.
    + rewrite decide_True by (rewrite (proj1 (Hf s)); by apply (keyed_of i)).
      apply map_eq. intros x. destruct (decide (x = k)) as [->|Hne].
      * by rewrite lookup_insert_eq, lookup_alter_eq, Hk.
      * by rewrite lookup_insert_ne, lookup_alter_ne by done.
    + apply map_eq. intros x. destruct (decide (x = k)) as [->|Hne].
      * by rewrite lookup_alter_eq, Hk.
      * by rewrite lookup_alter_ne by done.
  - done.
  - intros i. apply merge_sort_Permutation.
  - intros i. eapply StronglySorted_weaken; [|by apply (StronglySorted_merge_sort (key_le num_key))].
    apply num_key_before.
  - intros i k. cbn. apply (sort_unique _ _ i).
    + intros s. rewrite merge_sort_Permutation. unfold values at 1. cbn. rewrite values_delete.
      by intros [_ ?]%list_elem_of_filter.
    + intros s [_ Hs]%list_elem_of_filter. by rewrite merge_sort_Permutation in Hs.
    + apply (StronglySorted_merge_sort (key_le num_key)).
    + apply StronglySorted_filter, (StronglySorted_merge_sort (key_le num_key)).
    + rewrite !merge_sort_Permutation. apply values_delete.
  - intros i. apply merge_sort_Permutation.
  - intros i. eapply StronglySorted_weaken; [|by apply (StronglySorted_merge_sort (key_le lib_key))].
    apply lib_key_before.
Qed.
End SortedIndex.

(** ** Concrete databases *)
Module ForkSample.
Import SortedIndex.
Import BlockHeaderState.Sample.

(** The subscribers collect the announced ids. *)
Definition announce (s : block_state) (e : list digest) : list digest := e ++ [id s].
Definition irreversible (s : block_state) : St (fork_db index_type (list digest)) unit :=
  fun st => (ForkDb (index st) (fdb_head st) (announce s (env st)), Ok tt).

Definition blk (p : block_header_state) (slot : Z) : signed_block :=
  SignedBlock (block p slot 0 None) [] [].
Definition child (p : block_header_state) (slot : Z) : block_state :=
  match block_state_of_block p (blk p slot) false with
  | Ok s => s
  | Throw _ => BlockState p (blk p slot) false false []
  end.
Definition index_of (l : list block_state) : index_type :=
  foldr (fun s i => (idx_insert s i).1) idx_empty l.

Definition g : block_header_state := genesis one.
Definition b2 : block_state := set_in_current_chain true (child g 1).
Definition b3 : block_state := set_in_current_chain true (child b2 2).
Definition b4 : block_state := child b3 3.
(** A fork: another child of the genesis block and a child of it. *)
Definition f2 : block_state := child g 4.
Definition f3 : block_state := child f2 5.

Definition db (l : list block_state) (h : block_state) : fork_db index_type (list digest) :=
  ForkDb (index_of l) (Some h) [].

(** Checking a concrete tree. *)
Definition tree_check (m : gmap digest block_state) (root : digest) (n : Z) : bool :=
  (num_from_id root =? n) &&
  forallb (fun '(x, s) => (num_from_id x =? block_num (bs_header s)) && (n <? block_num (bs_header s)) &&
    (if block_num (bs_header s) =? n + 1 then bool_decide (prev s = root)
     else match m !! prev s with
          | Some p => block_num (bs_header s) =? block_num (bs_header p) + 1
          | None => false
          end)) (map_to_list m).

Lemma tree_check_ok m root n : tree_check m root n = true -> tree_ok m root n.
Proof.
  unfold tree_check. intros [Hr Hall]%andb_prop. bool_to_prop.
  assert (Hs : forall x s, m !! x = Some s -> (num_from_id x = block_num s /\ n < block_num s) /\
    (if block_num s =? n + 1 then prev s = root
     else exists p, m !! prev s = Some p /\ block_num s = block_num p + 1)).
  { intros x s Hx. rewrite forallb_forall in Hall.
    specialize (Hall (x, s) ltac:(by apply list_elem_of_In, elem_of_map_to_list)).
    apply andb_prop in Hall as [[Ha Hb]%andb_prop Hc]. bool_to_prop. split; [done|].
    destruct (_ =? n + 1); [by apply bool_decide_eq_true in Hc|].
    destruct (m !! prev s) as [p|]; [|done]. bool_to_prop. by exists p. }
  split; [done|..]; intros x s Hx; destruct (Hs x s Hx) as [[Ha Hb] Hc]; try done.
  - intros Hn. by rewrite (proj2 (Z.eqb_eq _ _) Hn) in Hc.
  - intros Hn. by rewrite (proj2 (Z.eqb_neq _ _)) in Hc by lia.
Qed.

Lemma child_irr_ok (p s : block_state) slot : irr_ok p -> 0 <= block_num p -> block_num p + 1 < 2 ^ 32 ->
  next p (block p slot 0 None) false = Ok (bs_header s) -> irr_ok s.
Proof. intros Hp H0 Hlt Hn. by apply (next_irr_ok p (block p slot 0 None) false s). Qed.

Lemma genesis_irr_ok : irr_ok g.
Proof. split; [by split|intros p b; cbn; by rewrite lookup_empty|done]. Qed.
Lemma b2_irr_ok : irr_ok b2.
Proof.
  apply (next_irr_ok g (block g 1 0 None) false b2 genesis_irr_ok); by vm_compute.
Qed.
Lemma b3_irr_ok : irr_ok b3.
Proof. apply (child_irr_ok b2 b3 2 b2_irr_ok); by vm_compute. Qed.

Lemma index_of_elem l x s : contents (index_of l) !! x = Some s -> s ∈ l.
Proof.
  induction l as [|u l IH].
  - cbn [index_of foldr]. by rewrite contents_empty, lookup_empty.
  - cbn [index_of foldr]. destruct (contents (index_of l) !! id u) as [v|] eqn:Hu.
    + rewrite (insert_present (index_of l) u) by eauto. cbn [fst]. intros Hs. right. by apply IH.
    + destruct (insert_fresh (index_of l) u Hu) as (i' & Hi & Hm).
      change (foldr _ _ l) with (index_of l). rewrite Hi. cbn [fst]. rewrite Hm, lookup_insert_Some.
      intros [[_ ->]|[_ Hs]]; [by left|right; by apply IH].
Qed.

Lemma db_two x s : contents (index (db [b2; b3] b3)) !! x = Some s -> s = b2 \/ s = b3.
Proof. cbn [db index]. intros Hs%index_of_elem. set_solver. Qed.

Lemma db_two_ok : fdb_ok (contents (index (db [b2; b3] b3))) (id g) 1.
Proof.
  split_and!; [apply tree_check_ok; by vm_compute|done|].
  intros x s Hs. destruct (db_two _ _ Hs) as [->| ->];
    [apply b2_irr_ok|apply b3_irr_ok].
Qed.

Lemma db_two_spine : spine (contents (index (db [b2; b3] b3))) 1 b2 b3.
Proof.
  split; [by vm_compute..|]. intros s1 s2 H1 H2 _ _ Hn.
  destruct (db_two _ _ H1) as [->| ->],
    (db_two _ _ H2) as [->| ->]; [reflexivity|vm_compute in Hn; discriminate Hn..|reflexivity].
Qed.
End ForkSample.
Import SortedIndex ForkSample.

Lemma add_block_announces_chain_witness : exists i' h,
  add_block irreversible (Some (blk b3 3)) false (db [b2; b3] b3)
    = (ForkDb i' (Some h) [id b2], Ok b4) /\ best_head i' h.
Proof.
  destruct (add_block_announces_chain irreversible announce (fun _ _ => True) (fun s st _ => eq_refl)
    (db [b2; b3] b3) (blk b3 3) false b3 b4 (id g) 1) as (i' & h & e' & Hrun & Hb & _).
  - intros x. cbn. lia.
  - apply db_two_ok.
  - by eexists.
  - by vm_compute.
  - by vm_compute.
  - by vm_compute.
  - by vm_compute.
  - intros _. exists b2, b3. split; [apply db_two_spine|done].
  - exists i', h. assert (env (add_block irreversible (Some (blk b3 3)) false (db [b2; b3] b3)).1
      = [id b2]) as He by (by vm_compute).
    rewrite Hrun in He. cbn in He. subst e'. split; [exact Hrun|exact Hb].
Defined.

Lemma current_chain_by_num_witness :
  is_Some (get_block_in_current_chain_by_num 3 (index_of [b2; b3; f3])).
Proof.
  apply (proj2 (current_chain_by_num (index_of [b2; b3; f3]) 3) b3); by vm_compute.
Defined.

Lemma set_bft_irreversible_descendants_witness : exists i' h',
  set_bft_irreversible (id b2) (db [b2; b3] b3) = (ForkDb i' h' [], Ok tt) /\ bft_mono (contents i').
Proof.
  destruct (set_bft_irreversible_descendants (db [b2; b3] b3) (id b2) b2) as (i' & h' & Hrun & _ & Hm).
  - by vm_compute.
  - by vm_compute.
  - intros x s p Hs Hp. destruct (db_two _ _ Hs) as [->| ->],
      (db_two _ _ Hp) as [->| ->]; by vm_compute.
  - exists i', h'. split; [exact Hrun|exact Hm].
Defined.

(** A confirmation that makes a block of another fork BFT-irreversible leaves the
    head of the fork database on the old fork, although the index ranks the
    confirmed block first. *)
Theorem confirmation_leaves_stale_head :
  let '(st, r) := add_confirm (HeaderConfirmation (id f2) 1 1) (db [b2; f2] b2) in
  r = Ok tt /\ (fun h : block_state => id h) <$> fdb_head st = Some (id b2) /\
  (fun h : block_state => id h) <$> head (by_lib_block_num (index st)) = Some (id f2).
Proof. by vm_compute. Qed.

(** When no block of the next number is in the current chain, [prune] can erase
    the block its own iterator points to, and then dereferences it. *)
Theorem prune_invalidates_iterator :
  let l := [child g 1; child g 4; child (child g 4) 5; child (child g 1) 6] in
  tree_ok (contents (index_of l)) (id g) 1 /\
  (prune irreversible (child g 1) (db l (child (child g 1) 6))).2 = Throw undefined_behaviour.
Proof. split; [apply tree_check_ok|]; by vm_compute. Qed.
