(* ===== verification/BlockApply.v ===== *)
(** * Applying blocks and switching forks

    Model of the block handling of [controller_impl] in
    [libraries/chain/controller.cpp]: pending blocks, applying and popping blocks,
    irreversible blocks, and the switch to another fork. The state of the controller
    is the state of the subscriber of the fork database's [irreversible] signal, so
    that an irreversible block reaches the controller inside [fork_db.add].

    The execution of the transactions of a block is an interface ([Execution]). *)
From S2P Require Import Prelude Merkle Chainbase BlockHeaderState ForkDatabase.

(** ** Modes and statuses *)
Inductive block_status :=
| status_irreversible
| status_validated
| status_complete
| status_incomplete.
#[global] Instance block_status_eq_dec : EqDecision block_status.
Proof. solve_decision. Defined.

Inductive db_read_mode := SPECULATIVE | HEAD | READ_ONLY | IRREVERSIBLE.
#[global] Instance db_read_mode_eq_dec : EqDecision db_read_mode.
Proof. solve_decision. Defined.

Record controller_config := ControllerConfig {
  read_mode : db_read_mode;
  force_all_checks : bool;
  disable_replay_opts : bool
}.

(** ** Execution of transactions *)

(** What the execution of a transaction changes: the database, and of the pending
    block its receipts, its transactions and the digests of the executed actions. *)
Record work (D : Type) := Work {
  wk_db : D;
  wk_receipts : list transaction_receipt;
  wk_trxs : list digest;
  wk_actions : list digest
}.
Arguments Work {D}. Arguments wk_db {D}. Arguments wk_receipts {D}. Arguments wk_trxs {D}.
Arguments wk_actions {D}.

(** The state of a running block. *)
Record exec (D : Type) := Exec { ex_db : D; ex_block : block_state; ex_actions : list digest }.
Arguments Exec {D}. Arguments ex_db {D}. Arguments ex_block {D}. Arguments ex_actions {D}.

Class Execution (D : Type) := {
  (* whether [undo] gets from these contents back to those at the start of the session:
     it throws when the unique key of an object to restore is taken *)
  restorable : D -> D -> bool;
  (* the proposed schedule in the global properties, with the number of its block *)
  proposed_schedule : D -> option Z * producer_schedule;
  clear_proposed_schedule : D -> D;
  (* [push_transaction] of the onblock transaction, in a block with this header state *)
  push_onblock : block_status -> block_header_state -> St (work D) unit;
  (* for the time of the block, and for the active producers *)
  clear_expired_input_transactions : Z -> St D unit;
  update_producers_authority : list producer_key -> St D unit;
  (* [push_transaction] or [push_scheduled_transaction]: the exception in the trace, and
     the transactions that leave [unapplied_transactions] *)
  push_receipt : block_status -> block_header_state -> transaction_receipt ->
    St (work D) (option exn * gset digest);
  (* the resource limits, and the block summary *)
  process_limits : Z -> St D unit;
  create_block_summary : digest -> St D unit;
  receipt_digest : transaction_receipt -> digest
}.

(** ** The chain database

    A database of indices that move in step: the contents, the contents at the start
    of each open session (the innermost first), and the revision. *)
Record undo_db (D : Type) := UndoDb { db_cur : D; db_snaps : list D; db_rev : Z }.
Arguments UndoDb {D}. Arguments db_cur {D}. Arguments db_snaps {D}. Arguments db_rev {D}.

Section undo_db.
Context {D : Type}.
Implicit Types d : undo_db D.

Definition db_write (x : D) d : undo_db D := UndoDb x (db_snaps d) (db_rev d).
Definition db_start d : undo_db D := UndoDb (db_cur d) (db_cur d :: db_snaps d) (db_rev d + 1).
Definition db_commit (r : Z) d : undo_db D :=
  UndoDb (db_cur d) (take (Z.to_nat (db_rev d - r)) (db_snaps d)) (db_rev d).

(** The database behind the innermost session, and [undo], which fails when it cannot
    restore an object. *)
Definition db_outer d : undo_db D :=
  match db_snaps d with
  | [] => d
  | x :: xs => UndoDb x xs (db_rev d - 1)
  end.
Definition db_undo `{Execution D} d : result (undo_db D) :=
  match db_snaps d with
  | [] => Ok d
  | x :: _ => if restorable (db_cur d) x then Ok (db_outer d) else Throw undo_error
  end.
End undo_db.

(** For one index this is the specification that [generic_index] refines. *)
Definition spec_of {V} (d : undo_db (gmap Z V * Z)) : spec V :=
  Spec (db_cur d).1 (db_cur d).2 (db_snaps d) (db_rev d).

Lemma spec_of_start {V} (d : undo_db (gmap Z V * Z)) : spec_of (db_start d) = spec_start (spec_of d).
Proof. by destruct d as [[m n] xs r]. Qed.
Lemma spec_of_outer {V} (d : undo_db (gmap Z V * Z)) : spec_of (db_outer d) = spec_undo (spec_of d).
Proof. by destruct d as [[m n] [|[m' n'] xs] r]. Qed.
Lemma spec_of_commit {V} r (d : undo_db (gmap Z V * Z)) :
  spec_of (db_commit r d) = spec_commit r (spec_of d).
Proof. done. Qed.

(** ** The controller *)
Record pending_state := PendingState {
  pd_block : option block_state;
  pd_actions : list digest;
  pd_status : block_status;
  (* the undo session, until it is pushed *)
  pd_session : bool
}.

Record ctl (D : Type) := Ctl {
  ct_head : block_state;
  ct_db : undo_db D;
  ct_pending : option pending_state;
  ct_reversible : gmap Z signed_block;
  ct_unapplied : gset digest;
  ct_log : list signed_block;
  ct_replaying : bool
}.
Arguments Ctl {D}. Arguments ct_head {D}. Arguments ct_db {D}. Arguments ct_pending {D}.
Arguments ct_reversible {D}. Arguments ct_unapplied {D}. Arguments ct_log {D}.
Arguments ct_replaying {D}.

Section setters.
Context {D : Type}.
Implicit Types c : ctl D.
Definition set_head (h : block_state) c : ctl D :=
  Ctl h (ct_db c) (ct_pending c) (ct_reversible c) (ct_unapplied c) (ct_log c) (ct_replaying c).
Definition set_db (d : undo_db D) c : ctl D :=
  Ctl (ct_head c) d (ct_pending c) (ct_reversible c) (ct_unapplied c) (ct_log c) (ct_replaying c).
Definition set_pending (p : option pending_state) c : ctl D :=
  Ctl (ct_head c) (ct_db c) p (ct_reversible c) (ct_unapplied c) (ct_log c) (ct_replaying c).
Definition set_reversible (r : gmap Z signed_block) c : ctl D :=
  Ctl (ct_head c) (ct_db c) (ct_pending c) r (ct_unapplied c) (ct_log c) (ct_replaying c).
Definition set_unapplied (u : gset digest) c : ctl D :=
  Ctl (ct_head c) (ct_db c) (ct_pending c) (ct_reversible c) u (ct_log c) (ct_replaying c).
Definition set_log (l : list signed_block) c : ctl D :=
  Ctl (ct_head c) (ct_db c) (ct_pending c) (ct_reversible c) (ct_unapplied c) l (ct_replaying c).
End setters.

(** ** Running the transactions of a block *)
Definition set_block_header (hd : signed_block_header) (s : block_state) : block_state :=
  BlockState (bs_header s) (SignedBlock hd (transactions (bs_block s)) (block_extensions (bs_block s)))
    (validated s) (in_current_chain s) (trxs s).

(** Equality of [transaction_receipt_header]s. *)
Definition status_eqb (a b : status_enum) : bool :=
  match a, b with
  | executed, executed | soft_fail, soft_fail | hard_fail, hard_fail
  | delayed, delayed | expired, expired => true
  | _, _ => false
  end.
Definition receipt_header_eqb (a b : transaction_receipt) : bool :=
  status_eqb (status a) (status b) && (cpu_usage_us a =? cpu_usage_us b)
  && (net_usage_words a =? net_usage_words b).

Definition is_deferred (r : transaction_receipt) : bool :=
  match trx r with inl _ => true | inr _ => false end.
Definition transaction_can_fail (r : transaction_receipt) : bool :=
  status_eqb (status r) hard_fail && is_deferred r.

Section run.
Context `{Crypto} {D : Type} `{X : Execution D}.

(** The block state that [start_block] prepares, and whether a pending schedule became
    active. *)
Definition new_pending (head : block_header_state) (when confirm_block_count : Z)
    : result (block_state * bool) :=
  b ← block_state_template head when;
  let b := with_bs (set_confirmed confirm_block_count) (set_in_current_chain true b) in
  let '(h, was_pending_promoted) := maybe_promote_pending (bs_header b) in
  mret (with_bs (fun _ => h) b, was_pending_promoted).

(** The state of a running block: the execution and [unapplied_transactions]. *)
Definition on_exec {A} (m : St (exec D) A) : St (exec D * gset digest) A :=
  fun '(x, u) => let '(x', r) := m x in ((x', u), r).
Definition on_db {A} (m : St D A) : St (exec D) A := fun x =>
  let '(d, r) := m (ex_db x) in (Exec d (ex_block x) (ex_actions x), r).
Definition upd_block (f : block_state -> block_state) : St (exec D) unit :=
  modify_st (fun x => Exec (ex_db x) (f (ex_block x)) (ex_actions x)).

(** A transaction reads the header state of the pending block and leaves it alone. *)
Definition on_work {A} (m : block_header_state -> St (work D) A) : St (exec D) A := fun x =>
  let b := ex_block x in
  let '(w, r) := m (bs_header b) (Work (ex_db x) (transactions (bs_block b)) (trxs b) (ex_actions x)) in
  (Exec (wk_db w)
     (BlockState (bs_header b)
        (SignedBlock (blk_header (bs_block b)) (wk_receipts w) (block_extensions (bs_block b)))
        (validated b) (in_current_chain b) (wk_trxs w))
     (wk_actions w), r).

(** A proposed schedule that has become irreversible is promoted to pending. *)
Definition promote_proposed (was_pending_promoted : bool) : St (exec D) unit :=
  x ← get;
  let h := bs_header (ex_block x) in
  match proposed_schedule (ex_db x) with
  | (Some proposed_num, sch) =>
      if (proposed_num <=? dpos_irreversible_blocknum h)
         && (length (producers (pending_schedule h)) =? 0)%nat && negb was_pending_promoted
      then h' ← lift (set_new_producers sch h);
           put (Exec (clear_proposed_schedule (ex_db x)) (with_bs (fun _ => h') (ex_block x)) (ex_actions x))
      else mret tt
  | (None, _) => mret tt
  end.

(** What [start_block] does with the state once the block is pending. *)
Definition begin_block (s : block_status) (was_pending_promoted : bool) : St (exec D) unit :=
  _ ← promote_proposed was_pending_promoted;
  _ ← swallow (on_work (push_onblock s));
  x ← get;
  _ ← on_db (clear_expired_input_transactions (timestamp (sb_header (header (ex_block x)))));
  on_db (update_producers_authority (producers (active_schedule (bs_header (ex_block x))))).

(** One iteration of the loop of [apply_block]: the constructor of the transaction,
    [push_transaction] and [push_scheduled_transaction] let nothing but
    [fc::exception]s and [bad_alloc] out, and the exception of a trace is an
    [fc::exception]. *)
Definition apply_receipt (s : block_status) (receipt : transaction_receipt)
    : St (exec D * gset digest) unit :=
  '(x, _) ← get;
  let num_pending_receipts := length (transactions (bs_block (ex_block x))) in
  '(except, gone) ← on_exec (capture_and_rethrow (on_work (fun h => push_receipt s h receipt)));
  _ ← modify_st (fun '(x, u) => (x, u ∖ gone));
  _ ← match except with
      | Some e => if transaction_can_fail receipt then mret tt else throw (captured e)
      | None => mret tt
      end;
  '(x, _) ← get;
  let ts := transactions (bs_block (ex_block x)) in
  _ ← st_assert (0 <? length ts)%nat block_validate_exception;
  _ ← st_assert (length ts =? num_pending_receipts + 1)%nat block_validate_exception;
  match last ts with
  | Some r => st_assert (receipt_header_eqb r receipt) block_validate_exception
  | None => throw undefined_behaviour
  end.

Definition set_action_merkle : St (exec D) unit :=
  x ← get;
  root ← lift (merkle hash_pair (ex_actions x));
  upd_block (with_bs (fun h => with_header (set_header_roots root
    (transaction_mroot (sb_header (header h))) (producer_signature (header h)) (header h)) h)).

Definition set_trx_merkle : St (exec D) unit :=
  x ← get;
  root ← lift (merkle hash_pair (receipt_digest <$> transactions (bs_block (ex_block x))));
  upd_block (with_bs (fun h => with_header (set_header_roots
    (action_mroot (sb_header (header h))) root (producer_signature (header h)) (header h)) h)).

(** The part of [finalize_block] behind the check for a pending block. *)
Definition finalize_pending : St (exec D) unit :=
  x ← get;
  _ ← on_db (process_limits (block_num (ex_block x)));
  _ ← set_action_merkle;
  _ ← set_trx_merkle;
  _ ← upd_block (with_bs (fun h => with_id (header_id (sb_header (header h))) h));
  x ← get;
  on_db (create_block_summary (id (bs_header (ex_block x)))).
End run.

(** ** Operations of the controller *)
Section controller.
Context `{Crypto} {I D : Type} `{FI : ForkIndex I} `{X : Execution D}.
Context (conf : controller_config).
Notation M := (St (fork_db I (ctl D))).

Definition upd (f : ctl D -> ctl D) (st : fork_db I (ctl D)) : fork_db I (ctl D) :=
  ForkDb (index st) (fdb_head st) (f (env st)).
Definition mod_ctl (f : ctl D -> ctl D) : M unit := modify_st (upd f).

(** Block states are shared: what a pointer refers to is the object in the index,
    or a block that has left it. *)
Definition obj (s : block_state) : M block_state :=
  gets (fun st => default s (contents (index st) !! id s)).
Definition head_obj : M block_state := st ← get; obj (ct_head (env st)).

(** [in_trx_requiring_checks] is set while a transaction with all checks runs. *)
Definition skip_db_sessions (in_trx_requiring_checks : bool) (s : block_status) : bool :=
  bool_decide (s = status_irreversible) && negb (disable_replay_opts conf)
  && negb in_trx_requiring_checks.

(** A cleanup [h] that runs when [m] throws, and can itself fail. *)
Definition unwinding {A} (h : M unit) (m : M A) : M A := fun st =>
  match m st with
  | (st', Throw e) =>
      match h st' with
      | (st', Ok _) => (st', Throw e)
      | (st', Throw e') => (st', Throw e')
      end
  | r => r
  end.

(** [pending.reset()]: the destructor of a session that was not pushed undoes it; an
    exception that leaves a destructor ends the process. *)
Definition reset_pending : M unit :=
  st ← get;
  match ct_pending (env st) with
  | None => mret tt
  | Some p =>
      _ ← (if pd_session p then
             match db_undo (ct_db (env st)) with
             | Ok d => mod_ctl (set_db d)
             | Throw _ => throw terminated
             end
           else mret tt);
      mod_ctl (set_pending None)
  end.

(** Code that runs on the pending block. *)
Definition in_pending {A} (m : St (exec D * gset digest) A) : M A := fun st =>
  let c := env st in
  match ct_pending c with
  | Some (PendingState (Some b) acts s sess) =>
      let '((x, u), r) := m (Exec (db_cur (ct_db c)) b acts, ct_unapplied c) in
      (upd (fun c => set_unapplied u (set_db (db_write (ex_db x) (ct_db c))
         (set_pending (Some (PendingState (Some (ex_block x)) (ex_actions x) s sess)) c))) st, r)
  | _ => (st, Throw undefined_behaviour)
  end.

(** No transaction runs here, so [in_trx_requiring_checks] is not set. *)
Definition start_block (when : Z) (confirm_block_count : Z) (s : block_status) : M unit :=
  st ← get;
  _ ← st_assert (bool_decide (ct_pending (env st) = None)) block_validate_exception;
  unwinding reset_pending (
    head ← head_obj;
    let skip := skip_db_sessions false s in
    _ ← (if negb skip then
           _ ← st_assert (db_rev (ct_db (env st)) =? block_num (bs_header head)) database_exception;
           mod_ctl (fun c => set_pending (Some (PendingState None [] s true)) (set_db (db_start (ct_db c)) c))
         else mod_ctl (set_pending (Some (PendingState None [] s false))));
    '(b, was_pending_promoted) ← lift (new_pending (bs_header head) when confirm_block_count);
    _ ← mod_ctl (set_pending (Some (PendingState (Some b) [] s (negb skip))));
    if bool_decide (read_mode conf = SPECULATIVE) || negb (bool_decide (s = status_incomplete))
    then in_pending (on_exec (begin_block s was_pending_promoted)) else mret tt).

(** A pending block has its block state once [start_block] has returned. *)
Definition abort_block : M unit :=
  st ← get;
  match ct_pending (env st) with
  | None => mret tt
  | Some p =>
      _ ← (if bool_decide (read_mode conf = SPECULATIVE)
           then mod_ctl (fun c => set_unapplied
             (ct_unapplied c ∪ list_to_set (from_option trxs [] (pd_block p))) c)
           else mret tt);
      reset_pending
  end.

Definition finalize_block : M unit :=
  st ← get;
  _ ← st_assert (bool_decide (is_Some (ct_pending (env st)))) block_validate_exception;
  capture_and_rethrow (in_pending (on_exec finalize_pending)).

(** The block of [pending->_pending_block_state]. *)
Definition pending_block : M block_state :=
  st ← get;
  match ct_pending (env st) with
  | Some (PendingState (Some b) _ _ _) => mret b
  | _ => throw undefined_behaviour
  end.

(** [reversible_blocks.create]: the block number is a unique key. *)
Definition create_reversible : M unit :=
  b ← pending_block;
  st ← get;
  let r := ct_reversible (env st) in
  _ ← st_assert (bool_decide (r !! block_num (bs_header b) = None)) logic_error;
  mod_ctl (set_reversible (<[block_num (bs_header b) := bs_block b]> r)).

(** [commit_block], for what it does first when the block goes to the fork database. *)
Definition commit_pending (add_to_fork_db : M unit) : M unit :=
  _ ← unwinding abort_block (
        _ ← add_to_fork_db;
        st ← get;
        if negb (ct_replaying (env st)) then create_reversible else mret tt);
  (* the session is pushed, then the pending block is destroyed *)
  mod_ctl (set_pending None).

Definition sign_block (signer : digest -> signature) : M unit :=
  b ← pending_block;
  in_pending (on_exec (fun x =>
    let '(h, r) := sign signer (bs_header (ex_block x)) in
    let b := with_bs (fun _ => h) (ex_block x) in
    (Exec (ex_db x) (match r with Ok _ => set_block_header (header h) b | Throw _ => b end)
       (ex_actions x), r))).

Definition apply_block (b : signed_block) (s : block_status) : M unit :=
  capture_and_rethrow (catch_fc (
    _ ← st_assert (length (block_extensions b) =? 0)%nat block_validate_exception;
    _ ← start_block (timestamp (sb_header (blk_header b))) (confirmed (sb_header (blk_header b))) s;
    _ ← for_each (fun receipt => in_pending (apply_receipt s receipt)) (transactions b);
    _ ← finalize_block;
    p ← pending_block;
    _ ← st_assert (bool_decide (header_id (sb_header (blk_header b)) =
                                header_id (sb_header (header (bs_header p))))) block_validate_exception;
    let hd := SignedBlockHeader (sb_header (header (bs_header p))) (producer_signature (blk_header b)) in
    _ ← in_pending (on_exec (upd_block (fun p => set_block_header hd (with_bs (with_header hd) p))));
    commit_pending (mret tt))
  (fun e => _ ← abort_block; throw e)).

Definition pop_block : M unit :=
  head ← head_obj;
  st ← get;
  match get_block (prev (bs_header head)) (index st) with
  | None => throw block_validate_exception
  | Some p =>
      _ ← mod_ctl (fun c => set_reversible (delete (block_num (bs_header head)) (ct_reversible c)) c);
      _ ← (if bool_decide (read_mode conf = SPECULATIVE)
           then mod_ctl (fun c => set_unapplied (ct_unapplied c ∪ list_to_set (trxs head)) c)
           else mret tt);
      _ ← mod_ctl (set_head p);
      d ← lift (db_undo (ct_db (env st)));
      mod_ctl (set_db d)
  end.

Definition log_block_num (b : signed_block) : Z := header_block_num (sb_header (blk_header b)).

Definition on_irreversible (s : block_state) : M unit :=
  st ← get;
  match last (ct_log (env st)) with
  | None => throw block_log_exception
  | Some log_head =>
      let lh_block_num := log_block_num log_head in
      _ ← mod_ctl (fun c => set_db (db_commit (block_num s) (ct_db c)) c);
      if block_num s <=? lh_block_num then mret tt else
      _ ← st_assert (u32 (block_num s - 1) =? lh_block_num) unlinkable_block_exception;
      _ ← st_assert (bool_decide (previous (sb_header (blk_header (bs_block s))) =
                                  header_id (sb_header (blk_header log_head)))) unlinkable_block_exception;
      _ ← mod_ctl (fun c => set_log (ct_log c ++ [bs_block s]) c);
      _ ← mod_ctl (fun c => set_reversible
            (filter (fun '(num, _) => block_num s < num) (ct_reversible c)) c);
      if bool_decide (read_mode conf = IRREVERSIBLE) then
        _ ← apply_block (bs_block s) status_complete;
        o ← obj s;
        _ ← mark_in_current_chain o true;
        _ ← set_validity s true;
        o ← obj s;
        mod_ctl (set_head o)
      else mret tt
  end.

Definition commit_block (add_to_fork_db : bool) : M unit :=
  commit_pending (
    if add_to_fork_db then
      _ ← in_pending (on_exec (upd_block set_validated));
      b ← pending_block;
      new_bsp ← add_state on_irreversible b;
      st ← get;
      match fdb_head st with
      | None => throw undefined_behaviour
      | Some h =>
          _ ← mod_ctl (set_head h);
          st_assert (bool_decide (id (bs_header new_bsp) = id h)) fork_database_exception
      end
    else mret tt).

(** ** Fork switching *)
Definition pop_branch : list block_state -> M unit :=
  for_each (fun b => o ← obj b; _ ← mark_in_current_chain o false; pop_block).

Definition check_sync (second : list block_state) : M unit :=
  head ← head_obj;
  match last second with
  | None => throw undefined_behaviour
  | Some y => st_assert (bool_decide (id (bs_header head) = prev y)) fork_database_exception
  end.

(** Applying one block of a branch, with the status [s] of the block. *)
Definition apply_one (s : block_state -> block_status) (b : block_state) : M unit :=
  o ← obj b;
  _ ← apply_block (bs_block o) (s o);
  o ← obj b;
  _ ← mod_ctl (set_head o);
  mark_in_current_chain o true.

Definition applied_status (b : block_state) : block_status :=
  if validated b then status_validated else status_complete.

(** The loop over the new branch, oldest block first; [applied] are the blocks
    applied so far, newest first. *)
Fixpoint switch_loop (todo applied second : list block_state) : M unit :=
  match todo with
  | [] => mret tt
  | b :: todo =>
      except ← catch_fc (_ ← apply_one applied_status b;
                         _ ← modify_obj (id b) set_validated; mret None)
                        (fun e => mret (Some e));
      match except with
      | None => switch_loop todo (b :: applied) second
      | Some e =>
          _ ← set_validity b false;
          _ ← pop_branch applied;
          _ ← check_sync second;
          _ ← for_each (apply_one (fun _ => status_validated)) (reverse second);
          throw e
      end
  end.

Definition maybe_switch_forks (s : block_status) : M unit :=
  st ← get;
  match fdb_head st with
  | None => throw undefined_behaviour
  | Some new_head =>
      head ← head_obj;
      if decide (prev new_head = id (bs_header head)) then
        catch_fc (
          _ ← apply_block (bs_block new_head) s;
          o ← obj new_head;
          _ ← mark_in_current_chain o true;
          _ ← set_validity new_head true;
          o ← obj new_head;
          mod_ctl (set_head o))
        (fun e => _ ← set_validity new_head false; throw e)
      else if decide (id new_head = id (bs_header head)) then mret tt
      else
        '(first, second) ← lift (fetch_branch_from (id new_head) (id (bs_header head)) (index st));
        _ ← pop_branch second;
        _ ← check_sync second;
        switch_loop (reverse first) [] second
  end.

(** Blocks that need no signature check. *)
Definition trusted (s : block_status) : bool :=
  negb (force_all_checks conf) &&
  (bool_decide (s = status_irreversible) || bool_decide (s = status_validated)).

(** The block pointer may be null. *)
Definition push_block (b : option signed_block) (s : block_status) : M unit :=
  st ← get;
  _ ← st_assert (bool_decide (ct_pending (env st) = None)) block_validate_exception;
  capture_and_rethrow (
    _ ← st_assert (bool_decide (is_Some b)) block_validate_exception;
    _ ← st_assert (negb (bool_decide (s = status_incomplete))) block_validate_exception;
    _ ← add_block on_irreversible b (trusted s);
    if bool_decide (read_mode conf = IRREVERSIBLE) then mret tt else maybe_switch_forks s).

Definition push_confirmation (c : header_confirmation) : M unit :=
  st ← get;
  _ ← st_assert (bool_decide (ct_pending (env st) = None)) block_validate_exception;
  _ ← add_confirm c;
  if bool_decide (read_mode conf = IRREVERSIBLE) then mret tt else maybe_switch_forks status_complete.
End controller.
