(* ===== verification/BlockRun.v ===== *)
(** * Executing a block

    The reference [run_block]: what executing a block on the state of its parent gives.
    [apply_block] of [BlockApply], with its undo session, its scope guards and its
    catch blocks, computes it: it commits the state that [run_block] gives, or leaves
    the controller as it was. *)
From S2P Require Import Prelude Merkle BlockHeaderState ForkDatabase BlockApply.

Lemma captured_idem e : captured (captured e) = captured e.
Proof. by destruct e. Qed.

(** ** The reference: executing a block on the state of its parent *)
Section reference.
Context `{Crypto} {D : Type} `{X : Execution D}.

Definition run_tail (s : block_status) (b : signed_block) : St (exec D * gset digest) unit :=
  _ ← for_each (apply_receipt s) (transactions b);
  _ ← capture_and_rethrow (on_exec finalize_pending);
  '(x, _) ← get;
  _ ← st_assert (bool_decide (header_id (sb_header (blk_header b)) =
                              header_id (sb_header (header (ex_block x))))) block_validate_exception;
  let hd := SignedBlockHeader (sb_header (header (ex_block x))) (producer_signature (blk_header b)) in
  on_exec (upd_block (fun p => set_block_header hd (with_bs (with_header hd) p))).

Definition run_body (s : block_status) (b : signed_block) (pr : bool) : St (exec D * gset digest) unit :=
  _ ← on_exec (begin_block s pr); run_tail s b.

Definition outcome {A} (r : (exec D * gset digest) * result A) : result (exec D) :=
  match r with ((x, _), Ok _) => Ok x | (_, Throw e) => Throw e end.

(** The state that the block [b] leaves when it is executed on the database [d] of
    its parent [p]. *)
Definition run_block (s : block_status) (p : block_header_state) (b : signed_block) (d : D)
    : result (exec D) :=
  _ ← bes_assert (length (block_extensions b) =? 0)%nat block_validate_exception;
  '(t, pr) ← new_pending p (timestamp (sb_header (blk_header b))) (confirmed (sb_header (blk_header b)));
  outcome (run_body s b pr (Exec d t [], ∅)).

(** *** [unapplied_transactions] has no influence *)
Definition agnostic {A} (m : St (exec D * gset digest) A) : Prop :=
  forall x, exists x' r, forall u, exists u', m (x, u) = ((x', u'), r).

Lemma agnostic_ret {A} (a : A) : agnostic (mret a).
Proof. intros x. exists x, (Ok a). intros u. by exists u. Qed.
Lemma agnostic_bind {A B} (m : St (exec D * gset digest) A) (k : A -> St (exec D * gset digest) B) :
  agnostic m -> (forall a, agnostic (k a)) -> agnostic (m ≫= k).
Proof.
  intros Hm Hk x. destruct (Hm x) as (x1 & [a|e] & Hx).
  - destruct (Hk a x1) as (x2 & r & Hx2). exists x2, r. intros u. destruct (Hx u) as [u1 H1].
    destruct (Hx2 u1) as [u2 H2]. exists u2. unfold mbind, St_bind. by rewrite H1.
  - exists x1, (Throw e). intros u. destruct (Hx u) as [u1 H1]. exists u1.
    unfold mbind, St_bind. by rewrite H1.
Qed.
Lemma agnostic_get {B} (k : exec D -> St (exec D * gset digest) B) :
  (forall x, agnostic (k x)) -> agnostic ('(x, _) ← get; k x).
Proof. intros Hk x. destruct (Hk x x) as (x' & r & Hx). by exists x', r. Qed.
Lemma agnostic_lift {A} (r : result A) : agnostic (lift r).
Proof. intros x. exists x, r. intros u. by exists u. Qed.
Lemma agnostic_exec {A} (m : St (exec D) A) : agnostic (on_exec m).
Proof. intros x. unfold on_exec. destruct (m x) as [x' r]. exists x', r. intros u. by exists u. Qed.
Lemma agnostic_modify (f : gset digest -> gset digest) : agnostic (modify_st (fun '(x, u) => (x, f u))).
Proof. intros x. exists x, (Ok tt). intros u. by exists (f u). Qed.
Lemma agnostic_for_each {A} (f : A -> St (exec D * gset digest) unit) l :
  (forall a, agnostic (f a)) -> agnostic (for_each f l).
Proof. intros Hf. induction l; cbn; [apply agnostic_ret|by apply agnostic_bind]. Qed.
Lemma agnostic_capture {A} (m : St (exec D * gset digest) A) :
  agnostic m -> agnostic (capture_and_rethrow m).
Proof.
  intros Hm x. destruct (Hm x) as (x' & [a|e] & Hx).
  - exists x', (Ok a). intros u. destruct (Hx u) as [u' Hu]. exists u'.
    unfold capture_and_rethrow. by rewrite Hu.
  - exists x', (Throw (captured e)). intros u. destruct (Hx u) as [u' Hu]. exists u'.
    unfold capture_and_rethrow. by rewrite Hu.
Qed.

Lemma agnostic_throw {A} e : agnostic (throw (A := A) e).
Proof. intros x. exists x, (Throw e). intros u. by exists u. Qed.

Ltac agnostic_step :=
  repeat lazymatch goal with
  | |- agnostic (get ≫= _) => apply agnostic_get; intros
  | |- agnostic (_ ≫= _) => apply agnostic_bind; [|intros]
  | |- agnostic (mret _) => apply agnostic_ret
  | |- agnostic (throw _) => apply agnostic_throw
  | |- agnostic (st_assert _ _) => apply agnostic_lift
  | |- agnostic (on_exec _) => apply agnostic_exec
  | |- agnostic (modify_st _) => apply agnostic_modify
  | |- agnostic (for_each _ _) => apply agnostic_for_each; intros
  | |- agnostic (capture_and_rethrow _) => apply agnostic_capture
  | |- agnostic (match ?x with _ => _ end) => destruct x
  end.

Lemma apply_receipt_agnostic s rc : agnostic (apply_receipt s rc).
Proof. unfold apply_receipt. agnostic_step. Qed.

Lemma run_tail_agnostic s b : agnostic (run_tail s b).
Proof. unfold run_tail. agnostic_step. apply apply_receipt_agnostic. Qed.

Lemma run_body_agnostic s b pr : agnostic (run_body s b pr).
Proof. unfold run_body. agnostic_step. apply run_tail_agnostic. Qed.

(** *** Exceptions, and the number of the block *)

(** The exceptions that [FC_CAPTURE_AND_RETHROW] passes on: those that [apply_block]
    catches, and those that nothing catches. *)
Definition passes (e : exn) : Prop := captured e = e.

Lemma passes_spec e : passes e <-> fc_exception e = true \/ fatal e = true.
Proof. destruct e; unfold passes; cbn; naive_solver. Qed.

Lemma wpe_on_exec {A} E (m : St (exec D) A) (Q : A -> exec D * gset digest -> Prop) x u :
  wpe E m (fun a x' => Q a (x', u)) x -> wpe E (on_exec m) Q (x, u).
Proof. unfold wpe, on_exec. by destruct (m x) as [x' [a|e]]. Qed.

Lemma wpe_capture {S A} (m : St S A) (Q : A -> S -> Prop) s :
  wpe (fun _ => True) m Q s -> wpe passes (capture_and_rethrow m) Q s.
Proof.
  unfold wpe, capture_and_rethrow. destruct (m s) as [s' [a|e]]; [done|]. intros _. apply captured_idem.
Qed.

Lemma wpe_for_each {S A} E (f : A -> St S unit) (P : S -> Prop) l s :
  (forall a s, P s -> wpe E (f a) (fun _ s' => P s') s) -> P s -> wpe E (for_each f l) (fun _ s' => P s') s.
Proof.
  intros Hf. revert s. induction l as [|a l IH]; intros s Hs; cbn [for_each]; [done|].
  apply wpe_bind. eapply wpe_mono; [by apply Hf|]. intros [] s' Hs'. by apply IH.
Qed.

Definition num_is (n : Z) (xu : exec D * gset digest) : Prop := block_num (ex_block xu.1) = n.

(** Transactions leave the header state of the block alone. *)
Lemma on_work_block {A} (m : block_header_state -> St (work D) A) x :
  wpe (fun _ => True) (on_work m) (fun _ x' => bs_header (ex_block x') = bs_header (ex_block x)) x.
Proof. unfold wpe, on_work. by destruct (m _ _) as [w [a|e]]. Qed.

Lemma apply_receipt_num s rc n xu : num_is n xu ->
  wpe passes (apply_receipt s rc) (fun _ xu' => num_is n xu') xu.
Proof.
  unfold apply_receipt, num_is. destruct xu as [x u]. cbn [fst]. intros Hn. repeat wpe_step.
  apply wpe_on_exec, wpe_capture. eapply wpe_mono; [apply on_work_block|]. intros [o g] x' Hx'.
  repeat wpe_step; try done; try apply captured_idem; cbn [fst] in *; congruence.
Qed.

Lemma on_db_block (m : St D unit) x :
  wpe (fun _ => True) (on_db m) (fun _ x' => ex_block x' = ex_block x) x.
Proof. unfold wpe, on_db. by destruct (m (ex_db x)) as [d' [a|e]]. Qed.

Lemma promote_proposed_num pr x :
  wpe (fun _ => True) (promote_proposed pr) (fun _ x' => block_num (ex_block x') = block_num (ex_block x)) x.
Proof.
  unfold promote_proposed. repeat wpe_step; try done. unfold set_new_producers.
  match goal with |- context [version ?p =? ?v] => destruct (version p =? v) end; [|done].
  cbn [bes_assert mbind result_bind]. by destruct (Z.of_nat _ =? 0).
Qed.

Lemma push_onblock_num s x : wpe (fun _ => True) (swallow (on_work (push_onblock s)))
  (fun _ x' => block_num (ex_block x') = block_num (ex_block x)) x.
Proof.
  unfold wpe, swallow, on_work. destruct (push_onblock _ _ _) as [w [[]|e]]; [done|]. by destruct (fatal e).
Qed.

Lemma begin_block_num s pr x : wpe (fun _ => True) (begin_block s pr)
  (fun _ x' => block_num (ex_block x') = block_num (ex_block x)) x.
Proof.
  unfold begin_block. apply wpe_bind. eapply wpe_mono; [apply promote_proposed_num|]. intros [] x1 H1.
  apply wpe_bind. eapply wpe_mono; [apply push_onblock_num|]. intros [] x2 H2. repeat wpe_step.
  eapply wpe_mono; [apply on_db_block|]. intros [] x3 H3.
  eapply wpe_mono; [apply on_db_block|]. intros [] x4 H4. cbn beta in *. congruence.
Qed.

Lemma begin_num s pr x x' : begin_block s pr x = (x', Ok tt) -> block_num (ex_block x') = block_num (ex_block x).
Proof. intros Hb. pose proof (begin_block_num s pr x) as Hw. unfold wpe in Hw. by rewrite Hb in Hw. Qed.

Lemma merkle_root_num l (Q : digest -> exec D -> Prop) x :
  (forall r, Q r x) -> wpe (fun _ => True) (lift (merkle hash_pair l)) Q x.
Proof. intros HQ. unfold wpe, lift. destruct (merkle hash_pair l); [apply HQ|done]. Qed.

Lemma finalize_num x : wpe (fun _ => True) finalize_pending
  (fun _ x' => block_num (ex_block x') = block_num (ex_block x)) x.
Proof.
  unfold finalize_pending, set_action_merkle, set_trx_merkle. repeat wpe_step.
  eapply wpe_mono; [apply on_db_block|]. intros [] x1 Hx1.
  repeat wpe_step. apply merkle_root_num. intros r1. unfold upd_block. repeat wpe_step.
  apply merkle_root_num. intros r2. repeat wpe_step. cbn [ex_block].
  eapply wpe_mono; [apply on_db_block|]. intros [] x2 ->. cbn. by rewrite Hx1.
Qed.

Lemma run_tail_num s b n xu : num_is n xu -> wpe passes (run_tail s b) (fun _ xu' => num_is n xu') xu.
Proof.
  intros Hn. unfold run_tail. apply wpe_bind.
  eapply wpe_mono; [apply (wpe_for_each _ _ (num_is n)); [intros a s' ?; by apply apply_receipt_num|done]|].
  intros [] [x u] Hx. apply wpe_bind, wpe_capture, wpe_on_exec.
  eapply wpe_mono; [apply finalize_num|]. intros [] x1 Hx1. unfold num_is in *. cbn [fst] in *.
  repeat wpe_step. apply wpe_on_exec. unfold upd_block. repeat wpe_step. cbn. congruence.
Qed.
End reference.

(** ** Applying and popping a block *)
Section apply.
Context `{Crypto} {I D : Type} `{FL : ForkIndexLaws I} `{X : Execution D}.
Context (conf : controller_config).
Implicit Types st : fork_db I (ctl D).

(** The states while a block is executed, after it was given up, and after it was
    committed. *)
Definition running st (s : block_status) (xu : exec D * gset digest) : fork_db I (ctl D) :=
  upd (fun c => set_unapplied xu.2 (set_db (UndoDb (ex_db xu.1) (db_cur (ct_db c) :: db_snaps (ct_db c))
         (db_rev (ct_db c) + 1))
    (set_pending (Some (PendingState (Some (ex_block xu.1)) (ex_actions xu.1) s true)) c))) st.
Definition restored st (u : gset digest) : fork_db I (ctl D) := upd (set_unapplied u) st.
Definition applied st (x : exec D) (u : gset digest) : fork_db I (ctl D) :=
  upd (fun c => set_unapplied u
    (set_reversible (<[block_num (ex_block x) := bs_block (ex_block x)]> (ct_reversible c))
    (set_db (UndoDb (ex_db x) (db_cur (ct_db c) :: db_snaps (ct_db c)) (db_rev (ct_db c) + 1)) c))) st.

Lemma in_pending_running {A} (m : St (exec D * gset digest) A) st s xu :
  in_pending m (running st s xu) = (running st s (m xu).1, (m xu).2).
Proof.
  destruct xu as [x u]. unfold in_pending, running. cbn. destruct x. cbn.
  by destruct (m _) as [[x' u'] r].
Qed.

Lemma in_pending_for_each {A} (f : A -> St (exec D * gset digest) unit) l st s xu :
  for_each (fun a => in_pending (f a)) l (running st s xu) =
  in_pending (for_each f l) (running st s xu).
Proof.
  rewrite in_pending_running. revert xu. induction l as [|a l IH]; intros xu; [done|].
  cbn [for_each]. unfold mbind, St_bind. rewrite in_pending_running.
  destruct (f a xu) as [xu' [[]|e]]; cbn; [|done]. apply IH.
Qed.

(** Equality of controller states, field by field. *)
Ltac ctl_eq :=
  unfold running, restored, applied, upd, set_unapplied, set_reversible,
    set_db, set_pending, set_head, db_outer, db_start, db_write;
  cbn; repeat case_match; simplify_eq/=; repeat f_equal; try lia; try done.

(** An execution that ends with the exception [e] on a controller that is as it was,
    up to the unapplied transactions; or in the end of the process, because the
    database could not be restored. *)
Definition given_up st (e : exn) (out : fork_db I (ctl D) * result unit) : Prop :=
  (exists u, out = (restored st u, Throw e)) \/
  (exists st' c, out = (st', Throw terminated) /\ restorable c (db_cur (ct_db (env st))) = false).

Lemma reset_running st s xu e : ct_pending (env st) = None ->
  given_up st e (unwinding reset_pending (fun _ => (running st s xu, Throw (A := unit) e)) st).
Proof.
  intros Hp. unfold unwinding, reset_pending, mod_ctl, db_undo. run_st. cbn.
  destruct (restorable (ex_db xu.1) (db_cur (ct_db (env st)))) eqn:Er; run_st; [left|right; eauto].
  exists xu.2. f_equal. destruct st as [i h [? [] ? ? ? ?]]. cbn in *. subst. ctl_eq.
Qed.

Lemma abort_running st s xu e : ct_pending (env st) = None ->
  given_up st e ((_ ← abort_block conf; throw e) (running st s xu)).
Proof.
  intros Hp. destruct st as [i h [? [] ? ? ? ?]], xu as [x u]. cbn in Hp. subst.
  unfold abort_block, reset_pending, mod_ctl, db_undo. run_st. cbn.
  destruct (bool_decide (read_mode conf = SPECULATIVE)); run_st; cbn;
    (destruct (restorable (ex_db x) _) eqn:Er; run_st; cbn; rewrite ?Z.add_simpl_r;
     [left; eexists; reflexivity|right; eauto]).
Qed.

Lemma abort_idle st u : ct_pending (env st) = None -> abort_block conf (restored st u) = (restored st u, Ok tt).
Proof. intros Hp. unfold abort_block. run_st. cbn. by rewrite Hp. Qed.

Lemma reset_started st s e : ct_pending (env st) = None ->
  given_up st e (unwinding reset_pending (fun _ => (upd (fun c => set_pending (Some (PendingState None [] s true))
    (set_db (db_start (ct_db c)) c)) st, Throw (A := unit) e)) st).
Proof.
  intros Hp. unfold unwinding, reset_pending, mod_ctl, db_undo. run_st. cbn.
  destruct (restorable _ _) eqn:Er; run_st; [left|right; eauto].
  exists (ct_unapplied (env st)). f_equal. destruct st as [i h [? [] ? ? ? ?]]. cbn in *. subst. ctl_eq.
Qed.

Lemma restored_id st : restored st (ct_unapplied (env st)) = st.
Proof. by destruct st as [i h []]. Qed.

(** The statuses with which blocks are applied. *)
Definition applying (s : block_status) : Prop := s = status_complete \/ s = status_validated.

Lemma start_block_run st when c s (h : block_state) :
  ct_pending (env st) = None -> applying s ->
  default (ct_head (env st)) (contents (index st) !! id (ct_head (env st))) = h ->
  db_rev (ct_db (env st)) = block_num h ->
  match new_pending h when c with
  | Throw e => given_up st e (start_block conf when c s st)
  | Ok (t, pr) =>
      match on_exec (begin_block s pr) (Exec (db_cur (ct_db (env st))) t [], ct_unapplied (env st)) with
      | (xu, Ok _) => start_block conf when c s st = (running st s xu, Ok tt)
      | (xu, Throw e) => given_up st e (start_block conf when c s st)
      end
  end.
Proof.
  intros Hp Hs Hh Hr. unfold start_block. run_st. rewrite bool_decide_true by done.
  match goal with |- context [unwinding _ ?m0] => set (m := m0) end.
  assert (Hm : m st = match new_pending h when c with
    | Throw e => (upd (fun c => set_pending (Some (PendingState None [] s true))
        (set_db (db_start (ct_db c)) c)) st, Throw e)
    | Ok (t, pr) => in_pending (on_exec (begin_block s pr))
        (running st s (Exec (db_cur (ct_db (env st))) t [], ct_unapplied (env st)))
    end).
  { subst m. unfold head_obj, obj. run_st. rewrite Hh.
    assert (skip_db_sessions conf false s = false) as -> by (by destruct Hs as [->| ->]).
    cbn [negb]. rewrite Hr, Z.eqb_refl. unfold mod_ctl. run_st.
    destruct (new_pending (bs_header h) when c) as [[t pr]|e] eqn:Et; [|done].
    assert (bool_decide (read_mode conf = SPECULATIVE) || negb (bool_decide (s = status_incomplete)) = true)
      as -> by (destruct Hs as [->| ->]; by rewrite orb_true_r).
    by destruct st as [i h' [? [] ? ? ? ?]]. }
  clearbody m. destruct (new_pending h when c) as [[t pr]|e].
  - rewrite in_pending_running in Hm. destruct (on_exec _ _) as [xu [[]|e]]; cbn [fst snd] in Hm.
    + unfold unwinding. by rewrite Hm.
    + pose proof (reset_running st s xu e Hp) as Hg. unfold unwinding in *. by rewrite Hm.
  - pose proof (reset_started st s e Hp) as Hg. unfold unwinding in *. by rewrite Hm.
Qed.

Lemma finalize_running st s xu :
  finalize_block (running st s xu) =
  in_pending (capture_and_rethrow (on_exec finalize_pending)) (running st s xu).
Proof.
  unfold finalize_block. run_st. rewrite bool_decide_true by (by eexists).
  unfold capture_and_rethrow. rewrite !in_pending_running. by destruct (on_exec _ _) as [xu' [[]|e]].
Qed.

Lemma pending_running st s xu : pending_block (running st s xu) = (running st s xu, Ok (ex_block xu.1)).
Proof. done. Qed.

Lemma commit_running st s xu :
  ct_pending (env st) = None -> ct_replaying (env st) = false ->
  ct_reversible (env st) !! block_num (ex_block xu.1) = None ->
  commit_pending conf (mret tt) (running st s xu) = (applied st xu.1 xu.2, Ok tt).
Proof.
  intros Hp Hr Hf. unfold commit_pending, unwinding, create_reversible. run_st.
  change (ct_replaying (env (running st s xu))) with (ct_replaying (env st)). rewrite Hr. cbn [negb].
  rewrite pending_running. 
  change (ct_reversible (env (running st s xu))) with (ct_reversible (env st)).
  rewrite bool_decide_true by done. unfold mod_ctl. run_st. f_equal.
  destruct st as [i h [? [] ? ? ? ?]], xu as [[] u]. cbn in *. subst. ctl_eq.
Qed.

(** The block of [apply_block] once it has started. *)
Definition apply_rest (b : signed_block) (s : block_status) : St (fork_db I (ctl D)) unit :=
  _ ← for_each (fun receipt => in_pending (apply_receipt s receipt)) (transactions b);
  _ ← finalize_block;
  p ← pending_block;
  _ ← st_assert (bool_decide (header_id (sb_header (blk_header b)) =
                              header_id (sb_header (header (bs_header p))))) block_validate_exception;
  let hd := SignedBlockHeader (sb_header (header (bs_header p))) (producer_signature (blk_header b)) in
  _ ← in_pending (on_exec (upd_block (fun p => set_block_header hd (with_bs (with_header hd) p))));
  commit_pending conf (mret tt).

Lemma apply_rest_run st b s xu :
  apply_rest b s (running st s xu) =
    match run_tail s b xu with
    | (xu', Ok _) => commit_pending conf (mret tt) (running st s xu')
    | (xu', Throw e) => (running st s xu', Throw e)
    end.
Proof.
  unfold apply_rest, run_tail. unfold mbind, St_bind.
  rewrite in_pending_for_each, in_pending_running.
  destruct (for_each (apply_receipt s) (transactions b) xu) as [xu1 [[]|e]]; cbn [fst snd]; [|done].
  rewrite finalize_running, in_pending_running.
  destruct (capture_and_rethrow (on_exec finalize_pending) xu1) as [[x2 u2] [[]|e]]; cbn [fst snd]; [|done].
  rewrite pending_running. unfold get, st_assert, lift. cbn [fst].
  destruct (bes_assert _ _); [|done]. by rewrite in_pending_running.
Qed.

(** The two catch blocks of [apply_block]. *)
Definition guarded_apply (m : St (fork_db I (ctl D)) unit) : St (fork_db I (ctl D)) unit :=
  capture_and_rethrow (catch_fc m (fun e => _ ← abort_block conf; throw e)).

Lemma guarded_ok m st st' : m st = (st', Ok tt) -> guarded_apply m st = (st', Ok tt).
Proof. intros Hm. unfold guarded_apply, capture_and_rethrow, catch_fc. by rewrite Hm. Qed.

Lemma guarded_given_up m st st0 e : ct_pending (env st0) = None -> given_up st0 e (m st) ->
  given_up st0 (captured e) (guarded_apply m st).
Proof.
  intros Hp [[u Hm]|(st' & c & Hm & Hc)]; unfold guarded_apply, capture_and_rethrow, catch_fc; rewrite Hm.
  - left. exists u. destruct (fc_exception e); [|done]. unfold mbind, St_bind. by rewrite abort_idle.
  - right. exists st', c. done.
Qed.

Lemma guarded_running m st st0 s xu e : m st = (running st0 s xu, Throw e) ->
  ct_pending (env st0) = None -> passes e ->
  given_up st0 e (guarded_apply m st) \/ fatal e = true /\ exists st', guarded_apply m st = (st', Throw e).
Proof.
  intros Hm Hp He. unfold guarded_apply, capture_and_rethrow, catch_fc. rewrite Hm.
  destruct (fc_exception e) eqn:Ee.
  - left. destruct (abort_running st0 s xu e Hp) as [[u ->]|(st' & c & -> & Hc)].
    + left. exists u. by rewrite He.
    + right. by exists st', c.
  - right. apply passes_spec in He as Hf. destruct Hf as [?|Hf]; [congruence|].
    split; [done|]. rewrite He. eauto.
Qed.

(** [apply_block] executes the block and commits it, or gives up. *)
Lemma apply_block_run st b s (h : block_state) :
  ct_pending (env st) = None -> ct_replaying (env st) = false -> applying s ->
  default (ct_head (env st)) (contents (index st) !! id (ct_head (env st))) = h ->
  db_rev (ct_db (env st)) = block_num h ->
  (forall x, run_block s h b (db_cur (ct_db (env st))) = Ok x ->
     ct_reversible (env st) !! block_num (ex_block x) = None) ->
  match run_block s h b (db_cur (ct_db (env st))) with
  | Ok x => exists u, apply_block conf b s st = (applied st x u, Ok tt)
  | Throw e => given_up st (captured e) (apply_block conf b s st) \/
      fatal e = true /\ exists st', apply_block conf b s st = (st', Throw e)
  end.
Proof.
  intros Hp Hrep Hs Hh Hr Hfresh. unfold apply_block. fold (apply_rest b s).
  match goal with |- context [catch_fc ?m _] => change (capture_and_rethrow (catch_fc m _)) with (guarded_apply m);
    set (inner := m) end.
  unfold run_block in *. assert (Hin : inner st = match (length (block_extensions b) =? 0)%nat with
    | true => (_ ← start_block conf (timestamp (sb_header (blk_header b)))
                (confirmed (sb_header (blk_header b))) s; apply_rest b s) st
    | false => (st, Throw block_validate_exception) end)
    by (subst inner; by destruct (length (block_extensions b) =? 0)%nat).
  clearbody inner. destruct (length (block_extensions b) =? 0)%nat; cbn [bes_assert mbind result_bind] in *.
  2: { left. apply guarded_given_up; [done|]. rewrite Hin. left. exists (ct_unapplied (env st)). by rewrite restored_id. }
  unfold mbind, St_bind in Hin.
  pose proof (start_block_run st (timestamp (sb_header (blk_header b))) (confirmed (sb_header (blk_header b)))
    s h Hp Hs Hh Hr) as Hstart.
  destruct (new_pending _ _ _) as [[t pr]|e] eqn:Et; cbn [mbind result_bind] in *.
  2: { left. apply guarded_given_up; [done|]. rewrite Hin.
       by destruct Hstart as [[u Hst]|(st' & c & Hst & Hc)]; rewrite Hst; [left; eauto|right; eauto]. }
  destruct (run_body_agnostic s b pr (Exec (db_cur (ct_db (env st))) t [])) as (x & r & Hag).
  destruct (Hag ∅) as [u0 Hu0]. destruct (Hag (ct_unapplied (env st))) as [u1 Hu1].
  rewrite Hu0 in *. clear Hu0. unfold run_body, mbind, St_bind in Hu1.
  destruct (on_exec _ _) as [xu [[]|e]] eqn:Eb.
  2: { injection Hu1 as -> <-. left. apply guarded_given_up; [done|]. rewrite Hin.
       by destruct Hstart as [[u Hst]|(st' & c & Hst & Hc)]; rewrite Hst; [left; eauto|right; eauto]. }
  rewrite Hstart, apply_rest_run, Hu1 in Hin. destruct r as [[]|e]; cbn [outcome] in *.
  - exists u1. apply guarded_ok. rewrite Hin. apply (commit_running st s (x, u1)); try done. by apply Hfresh.
  - pose proof (run_tail_num s b _ xu eq_refl) as Hpass. unfold wpe in Hpass. rewrite Hu1 in Hpass.
    rewrite Hpass. by eapply guarded_running.
Qed.

(** *** What a successful execution leaves *)
Lemma new_pending_num (p : block_header_state) when c t pr :
  new_pending p when c = Ok (t, pr) -> block_num t = u32 (block_num p + 1).
Proof.
  unfold new_pending, block_state_template. intros Hn. bind_ok Hn as (t0 & Ht & Hn).
  bind_ok Ht as (g & Hg & [= <-]). unfold generate_next in Hg.
  bind_ok Hg as (w & _ & Hg). bind_ok Hg as (pk & _ & Hg). bind_ok Hg as ([bm dg] & _ & Hg).
  bind_ok Hg as (root & _ & [= <-]).
  match type of Hn with context [maybe_promote_pending ?b] => set (b0 := b) in Hn end.
  destruct (maybe_promote_pending b0) as [h pr'] eqn:Ep. injection Hn as <- <-.
  assert (block_num h = block_num b0) as Hh.
  { unfold maybe_promote_pending in Ep. destruct (_ && _); by injection Ep as <- <-. }
  cbn. rewrite Hh. unfold b0, set_confirmed. cbn. by destruct (confirm_loop _ _ _ _) as [cc [k|]].
Qed.

Lemma run_block_inv s (p : block_header_state) b (d : D) x :
  run_block s p b d = Ok x ->
  block_num (ex_block x) = u32 (block_num p + 1) /\
  header_id (sb_header (blk_header (bs_block (ex_block x)))) = header_id (sb_header (blk_header b)).
Proof.
  unfold run_block. intros Hr. bind_ok Hr as ([] & _ & Hr). bind_ok Hr as ([t pr] & Ht & Hr).
  apply new_pending_num in Ht. unfold outcome, run_body in Hr.
  destruct ((on_exec (begin_block s pr) ≫= (fun _ => run_tail s b)) (Exec d t [], ∅)) as [[x' u'] [[]|e]] eqn:Eb; [|done]. injection Hr as ->.
  apply St_bind_ok in Eb as ([] & [x1 u1] & Hb & Eb).
  unfold on_exec in Hb. destruct (begin_block s pr _) as [x1' r] eqn:Ebb.
  injection Hb as <- <- ->. apply begin_num in Ebb. cbn [ex_block] in Ebb. split.
  - pose proof (run_tail_num s b _ (x1', ∅) eq_refl) as Hw. unfold wpe in Hw. rewrite Eb in Hw.
    unfold num_is in Hw. cbn [fst] in Hw. congruence.
  - unfold run_tail in Eb. apply St_bind_ok in Eb as ([] & ? & _ & Eb).
    apply St_bind_ok in Eb as ([] & [x2 u2] & _ & Eb). apply St_bind_ok in Eb as ([x3 u3] & xu & Hg & Eb).
    injection Hg as <- <- <-. apply St_bind_ok in Eb as ([] & xu & Ha & Eb).
    unfold st_assert, lift, bes_assert in Ha. case_bool_decide as Hid; [|done]. injection Ha as <-.
    injection Eb as <- <-. done.
Qed.

End apply.

(** ** Claims *)

(** C11. [apply_block] on an idle controller computes [run_block], whatever its scope
    guards, its undo session and its catch blocks do. When the execution of the block
    succeeds, one undo session and one reversible block are added and nothing but the
    set of unapplied transactions changes besides. When it throws, the exception is
    passed on and everything but the set of unapplied transactions is as before; the
    two exceptions to this are an exhausted shared memory (or undefined behaviour) in
    the execution, which leaves the block pending, and a session that [undo] cannot
    restore, which ends the process. *)
Theorem apply_block_commits_or_restores `{Crypto} {I D : Type} `{FL : ForkIndexLaws I}
    `{X : Execution D} conf (st : fork_db I (ctl D)) b s (h : block_state) :
  ct_pending (env st) = None -> ct_replaying (env st) = false -> applying s ->
  contents (index st) !! id (ct_head (env st)) = Some h ->
  db_rev (ct_db (env st)) = block_num h ->
  (forall k, is_Some (ct_reversible (env st) !! k) -> k < u32 (block_num h + 1)) ->
  match run_block s h b (db_cur (ct_db (env st))) with
  | Ok x => block_num (ex_block x) = u32 (block_num h + 1) /\
      header_id (sb_header (blk_header (bs_block (ex_block x)))) = header_id (sb_header (blk_header b)) /\
      exists u, apply_block conf b s st = (applied st x u, Ok tt)
  | Throw e =>
      (exists u, apply_block conf b s st = (restored st u, Throw (captured e))) \/
      (exists st', fatal e = true /\ apply_block conf b s st = (st', Throw e)) \/
      (exists st' c, restorable c (db_cur (ct_db (env st))) = false /\
         apply_block conf b s st = (st', Throw terminated))
  end.
Proof.
  intros Hp Hr Hs Hh Hrev Hmax. pose proof (apply_block_run conf st b s h) as Hrun.
  assert (Hfresh : forall x, run_block s h b (db_cur (ct_db (env st))) = Ok x ->
    ct_reversible (env st) !! block_num (ex_block x) = None).
  { intros x [Hn _]%run_block_inv. destruct (ct_reversible (env st) !! _) as [v|] eqn:Ev; [|done].
    specialize (Hmax _ (mk_is_Some _ _ Ev)). lia. }
  rewrite Hh in Hrun. specialize (Hrun Hp Hr Hs eq_refl Hrev Hfresh).
  destruct (run_block s h b (db_cur (ct_db (env st)))) as [x|e] eqn:Er.
  - destruct (run_block_inv _ _ _ _ _ Er). done.
  - unfold given_up in Hrun. naive_solver.
Qed.

(** ** A concrete execution

    The database is the list of the executed blocks; a receipt is appended to the
    block, unless it is a deferred transaction, which fails. The onblock transaction
    fails as well, which has no effect. *)
Module ExecSample.
#[global] Instance exec_sample : Execution (list digest) := {
  restorable _ _ := true;
  proposed_schedule _ := (None, ProducerSchedule 0 []);
  clear_proposed_schedule d := d;
  push_onblock _ _ := throw tx_not_found;
  clear_expired_input_transactions _ := mret tt;
  update_producers_authority _ := mret tt;
  push_receipt _ _ r := if is_deferred r then mret (Some tx_not_found, ∅)
    else _ ← modify_st (fun w => Work (wk_db w) (wk_receipts w ++ [r]) (wk_trxs w) (wk_actions w));
         mret (None, ∅);
  process_limits _ := mret tt;
  create_block_summary k := modify_st (fun d => d ++ [k]);
  receipt_digest _ := digest_nil
}.
End ExecSample.

(** ** Concrete controllers *)
Module RunSample.
Export SortedIndex ForkSample ExecSample BlockHeaderState.Sample.

Definition node : controller_config := ControllerConfig SPECULATIVE false false.

(** A controller at the block [h], with the open blocks [l] of which [best] is the
    best, the database [d] and the log [log]. *)
Definition ctl_at (l : list block_state) (best h : block_state) (d : undo_db (list digest))
    (rows : gmap Z signed_block) (log : list signed_block) : fork_db index_type (ctl (list digest)) :=
  ForkDb (index_of l) (Some best) (Ctl h d None rows ∅ log false).

Definition at_b2 : fork_db index_type (ctl (list digest)) :=
  ctl_at [b2] b2 b2 (UndoDb [id b2] [] 2) ∅ [bs_block b2].
End RunSample.
Import RunSample.

Lemma apply_block_commits_or_restores_witness : exists x u,
  apply_block node (bs_block b3) status_complete at_b2 = (applied at_b2 x u, Ok tt) /\
  header_id (sb_header (blk_header (bs_block (ex_block x)))) = id b3 /\ ex_db x = [id b2; id b3].
Proof.
  assert (Hu := apply_block_commits_or_restores node at_b2 (bs_block b3) status_complete b2).
  specialize (Hu eq_refl eq_refl (or_introl eq_refl) ltac:(by vm_compute) ltac:(by vm_compute)).
  assert (Hno : forall k, is_Some (ct_reversible (env at_b2) !! k) -> k < u32 (block_num b2 + 1)).
  { intros k [v Hv]. vm_compute in Hv. destruct k; discriminate. }
  specialize (Hu Hno).
  destruct (run_block status_complete b2 (bs_block b3) (db_cur (ct_db (env at_b2)))) as [x|e] eqn:Er.
  - destruct Hu as (_ & Hid & u & Happ). exists x, u. split_and!; [done| |].
    + rewrite Hid. by vm_compute.
    + assert (match run_block status_complete b2 (bs_block b3) (db_cur (ct_db (env at_b2))) with
        | Ok x => ex_db x | Throw _ => [] end = [id b2; id b3]) as Hd by (by vm_compute).
      by rewrite Er in Hd.
  - exfalso. assert (is_ok (run_block status_complete b2 (bs_block b3) (db_cur (ct_db (env at_b2)))) = true)
      as Hok by (by vm_compute). by rewrite Er in Hok.
Defined.
