(* ===== verification/ForkSwitch.v ===== *)
(** * Fork switching keeps the database in step with the chain

    The head of the controller, the blocks marked as current in the fork database, the
    undo sessions of the chain database, the reversible blocks and the block log
    describe one chain ([synced]). Pushing a block keeps them so: the database is the
    replay of the current chain, also across a switch to another fork and the recovery
    from a fork that turned out to be bad. *)
From S2P Require Import Prelude Merkle BlockHeaderState ForkDatabase BlockApply BlockRun.

Implicit Types (m : gmap digest block_state) (s p h : block_state).

(** ** Block states up to their flags *)

(** The same blocks, with other flags; a validated block stays validated. *)
Definition alike_block s s' : Prop :=
  bs_header s = bs_header s' /\ bs_block s = bs_block s' /\ (validated s = true -> validated s' = true).
Definition alike m m' : Prop := forall k, match m !! k, m' !! k with
  | Some s, Some s' => alike_block s s'
  | None, None => True
  | _, _ => False
  end.

#[global] Instance alike_block_refl : Reflexive alike_block.
Proof. by intros s. Qed.
#[global] Instance alike_refl : Reflexive alike.
Proof. intros m k. by destruct (m !! k). Qed.
#[global] Instance alike_trans : Transitive alike.
Proof.
  intros m1 m2 m3 H1 H2 k. specialize (H1 k). specialize (H2 k). unfold alike_block in *.
  destruct (m1 !! k), (m2 !! k), (m3 !! k); naive_solver congruence.
Qed.

(** The same blocks, whatever their flags. *)
Definition same_blocks m m' : Prop := forall k, match m !! k, m' !! k with
  | Some s, Some s' => bs_header s = bs_header s' /\ bs_block s = bs_block s'
  | None, None => True
  | _, _ => False
  end.

Lemma alike_same m m' : alike m m' -> same_blocks m m'.
Proof. intros Ha k. specialize (Ha k). unfold alike_block in Ha. destruct (m !! k), (m' !! k); naive_solver. Qed.
Lemma same_sym m m' : same_blocks m m' -> same_blocks m' m.
Proof. intros Ha k. specialize (Ha k). destruct (m !! k), (m' !! k); naive_solver. Qed.
Lemma same_lookup m m' k s : same_blocks m m' -> m !! k = Some s ->
  exists s', m' !! k = Some s' /\ bs_header s = bs_header s' /\ bs_block s = bs_block s'.
Proof. intros Ha Hk. specialize (Ha k). rewrite Hk in Ha. destruct (m' !! k) as [s'|]; [by exists s'|done]. Qed.
Lemma same_blocks_links m m' : same_blocks m m' -> same_links m m'.
Proof. intros Ha k. specialize (Ha k). destruct (m !! k), (m' !! k); try done; cbn. by destruct Ha as (-> & _). Qed.
Lemma same_none m m' k : same_blocks m m' -> m !! k = None -> m' !! k = None.
Proof. intros Ha Hk. specialize (Ha k). rewrite Hk in Ha. by destruct (m' !! k). Qed.

Lemma alike_lookup m m' k s : alike m m' -> m !! k = Some s -> exists s', m' !! k = Some s' /\ alike_block s s'.
Proof. intros Ha Hk. specialize (Ha k). rewrite Hk in Ha. destruct (m' !! k) as [s'|]; [by exists s'|done]. Qed.
Lemma alike_lookup_r m m' k s' : alike m m' -> m' !! k = Some s' -> exists s, m !! k = Some s /\ alike_block s s'.
Proof. intros Ha Hk. specialize (Ha k). rewrite Hk in Ha. destruct (m !! k) as [s|]; [by exists s|done]. Qed.
Lemma alike_none m m' k : alike m m' -> m' !! k = None <-> m !! k = None.
Proof. intros Ha. specialize (Ha k). by destruct (m !! k), (m' !! k). Qed.

Lemma alike_links m m' : alike m m' -> same_links m m' /\ same_links m' m.
Proof.
  intros Ha. split; intros k; specialize (Ha k); destruct (m !! k), (m' !! k); try done; cbn;
    destruct Ha as (-> & _); done.
Qed.
Lemma alike_below m m' a x : alike m m' -> below m a x <-> below m' a x.
Proof. intros [H1 H2]%alike_links. split; by apply same_links_below. Qed.

Lemma alike_fdb_ok m m' root n : alike m m' -> fdb_ok m root n -> fdb_ok m' root n.
Proof.
  intros Ha (Ht & H0 & Hirr). split_and!; [|done|].
  - destruct Ht. split; [done|..]; intros k s' Hk; destruct (alike_lookup_r _ _ _ _ Ha Hk) as (s & Hs & E & _);
      unfold prev in *; rewrite <- E; eauto.
    intros Hn. destruct (to_parent _ _ Hs Hn) as (p & Hp & Hpn).
    destruct (alike_lookup _ _ _ _ Ha Hp) as (p' & Hp' & E' & _). exists p'. by rewrite <- E'.
  - intros k s' Hk. destruct (alike_lookup_r _ _ _ _ Ha Hk) as (s & Hs & E & _). rewrite <- E. by eapply Hirr.
Qed.

Lemma alike_alter m k f : (forall s, alike_block s (f s)) -> alike m (alter f k m).
Proof.
  intros Hf j. destruct (decide (k = j)) as [->|Hne].
  - rewrite lookup_alter_eq. destruct (m !! j); [apply Hf|done].
  - rewrite lookup_alter_ne by done. by destruct (m !! j).
Qed.

(** ** Ancestors *)
Lemma below_up m k x s : (forall x s, m !! x = Some s -> id s = x) -> m !! x = Some s -> below m k x ->
  k = x \/ below m k (prev s).
Proof.
  intros Hkey Hs Hb. inversion Hb as [|s' Hs' Hb']; subst; [by left|right].
  by assert (s' = s) as -> by congruence.
Qed.
Lemma below_down m k x s : (forall x s, m !! x = Some s -> id s = x) -> m !! x = Some s ->
  below m k (prev s) -> below m k x.
Proof. intros Hkey Hs Hb. rewrite <- (Hkey _ _ Hs). constructor; [|done]. by rewrite (Hkey _ _ Hs). Qed.

(** ** The chain that the controller is at *)
Section sync.
Context `{Crypto} {I D : Type} `{FL : ForkIndexLaws I} `{X : Execution D}.
Context (conf : controller_config).
Implicit Types (st : fork_db I (ctl D)) (i : I) (d : undo_db D).

(** Blocks carry the id under which they are kept, and the id of their parent. *)
Definition blocks_wf m : Prop := forall k s, m !! k = Some s ->
  header_id (sb_header (blk_header (bs_block s))) = k /\
  previous (sb_header (blk_header (bs_block s))) = prev s.

(** [history P m x d ds]: [d] is the database after block [x], and [ds] starts with the
    databases after its ancestors that are open, each block executed on the one
    before, with one of the statuses of [P]. *)
Inductive history (P : block_status -> Prop) m : digest -> D -> list D -> Prop :=
| hist_bottom x s (d : D) ds : m !! x = Some s -> m !! prev s = None -> history P m x d ds
| hist_step x s p (d : D) ds sta e : m !! x = Some s -> m !! prev s = Some p -> P sta ->
    run_block sta p (bs_block s) d = Ok e -> history P m (prev s) d ds ->
    history P m x (ex_db e) (d :: ds).

Definition log_num (l : list signed_block) : Z := from_option log_block_num 0 (last l).

(** The log ends with the last irreversible block, or with the only block after it. *)
Definition log_ok m (root : digest) (n : Z) (l : list signed_block) : Prop :=
  exists lh, last l = Some lh /\
    (log_block_num lh = n /\ header_id (sb_header (blk_header lh)) = root \/
     log_block_num lh = n + 1 /\ forall k s, m !! k = Some s -> block_num s = n + 1 ->
       k = header_id (sb_header (blk_header lh))).

Record synced st (root : digest) (n : Z) (hd x : digest) (d : undo_db D) : Prop := {
  sy_fork : fdb_ok (contents (index st)) root n;
  sy_wf : blocks_wf (contents (index st));
  sy_best : exists h, fdb_head st = Some h /\ id h = hd /\ best_head (index st) h;
  sy_head : id (ct_head (env st)) = x;
  sy_flags : forall k s, contents (index st) !! k = Some s ->
    in_current_chain s = true <-> below (contents (index st)) k x;
  sy_idle : ct_pending (env st) = None;
  sy_live : ct_replaying (env st) = false;
  sy_db : ct_db (env st) = d;
  sy_at : exists s, contents (index st) !! x = Some s /\ db_rev d = block_num s;
  sy_hist : history applying (contents (index st)) x (db_cur d) (db_snaps d);
  sy_rmax : forall k, is_Some (ct_reversible (env st) !! k) -> k <= db_rev d;
  sy_stored : forall k s, below (contents (index st)) k x -> contents (index st) !! k = Some s ->
    log_num (ct_log (env st)) < block_num s ->
    exists b, ct_reversible (env st) !! block_num s = Some b /\ header_id (sb_header (blk_header b)) = k;
  sy_log : log_ok (contents (index st)) root n (ct_log (env st))
}.

Lemma sy_key st k s : contents (index st) !! k = Some s -> id s = k.
Proof. apply contents_key. Qed.
#[local] Hint Resolve sy_key : core.

Lemma history_same P m m' x (d : D) ds : same_blocks m m' -> history P m x d ds -> history P m' x d ds.
Proof.
  intros Ha Hh. induction Hh as [x s d ds Hs Hp|x s p d ds sta e Hs Hp Hsta Hr Hh IH];
    destruct (same_lookup _ _ _ _ Ha Hs) as (s' & Hs' & E & Eb).
  - apply hist_bottom with s'; [done|]. unfold prev in *. rewrite <- E. by apply (same_none m).
  - destruct (same_lookup _ _ _ _ Ha Hp) as (p' & Hp' & E' & _).
    apply hist_step with s' p' sta; [done|unfold prev in *; by rewrite <- E|done| |unfold prev in *; by rewrite <- E].
    by rewrite <- E', <- Eb.
Qed.
Lemma history_alike P m m' x (d : D) ds : alike m m' -> history P m x d ds -> history P m' x d ds.
Proof. intros Ha%alike_same. by apply history_same. Qed.

Lemma blocks_wf_alike m m' : alike m m' -> blocks_wf m -> blocks_wf m'.
Proof.
  intros Ha Hw k s' Hk. destruct (alike_lookup_r _ _ _ _ Ha Hk) as (s & Hs & E & Eb & _).
  destruct (Hw k s Hs) as (Hi & Hv). unfold prev in *. by rewrite <- E, <- Eb.
Qed.

Lemma log_ok_alike m m' root n l : alike m m' -> log_ok m root n l -> log_ok m' root n l.
Proof.
  intros Ha (lh & Hl & Hc). exists lh. split; [done|]. destruct Hc as [?|[Hn Hk]]; [by left|right].
  split; [done|]. intros k s' Hs'. destruct (alike_lookup_r _ _ _ _ Ha Hs') as (s & Hs & E & _).
  rewrite <- E. by apply Hk.
Qed.

(** ** Changing flags *)
Lemma best_head_alter i k f h : (forall s, alike_block s (f s)) -> best_head i h ->
  best_head (idx_modify k f i) (if decide (id h = k) then f h else h).
Proof.
  intros Hf [Hh Hb]. assert (Hc : contents (idx_modify k f i) = alter f k (contents i)).
  { apply modify_contents. intros s. unfold prev. by destruct (Hf s) as (<- & _). }
  assert (Hbs : bs_header (if decide (id h = k) then f h else h) = bs_header h).
  { case_decide; [|done]. by destruct (Hf h) as (-> & _). }
  split.
  - rewrite Hbs, Hc. case_decide as Hk.
    + by rewrite <- Hk, lookup_alter_eq, Hh.
    + by rewrite lookup_alter_ne by done.
  - intros x s'. rewrite Hc. intros Hs'.
    destruct (alike_lookup_r _ _ _ _ (alike_alter (contents i) k f Hf) Hs') as (s & Hs & E & _).
    unfold lib_before. rewrite <- E, Hbs. by eapply Hb.
Qed.

Lemma modify_obj_run st k f : (forall s, alike_block s (f s)) ->
  exists st', modify_obj k f st = (st', Ok tt) /\ env st' = env st /\
    contents (index st') = alter f k (contents (index st)) /\
    forall h, fdb_head st = Some h -> best_head (index st) h ->
      exists h', fdb_head st' = Some h' /\ id h' = id h /\ best_head (index st') h'.
Proof.
  intros Hf. eexists. split; [reflexivity|]. split_and!; [done|..].
  - apply modify_contents. intros s. unfold prev. by destruct (Hf s) as (<- & _).
  - intros h Hh Hb. cbn [fdb_head index]. rewrite Hh. eexists. split; [reflexivity|].
    split; [|by apply best_head_alter]. case_decide; [|done]. by destruct (Hf h) as (<- & _).
Qed.

Lemma alter_same m k f s : m !! k = Some s -> f s = s -> alter f k m = m.
Proof.
  intros Hk Hf. apply map_eq. intros j. destruct (decide (k = j)) as [->|Hne].
  - by rewrite lookup_alter_eq, Hk; cbn; rewrite Hf.
  - by rewrite lookup_alter_ne.
Qed.

Lemma mark_run st (o : block_state) b : contents (index st) !! id o = Some o ->
  exists st', mark_in_current_chain o b st = (st', Ok tt) /\ env st' = env st /\
    contents (index st') = alter (set_in_current_chain b) (id o) (contents (index st)) /\
    forall h, fdb_head st = Some h -> best_head (index st) h ->
      exists h', fdb_head st' = Some h' /\ id h' = id h /\ best_head (index st') h'.
Proof.
  intros Ho. unfold mark_in_current_chain. destruct (Bool.eqb (in_current_chain o) b) eqn:Eb.
  - apply Bool.eqb_prop in Eb. exists st. split_and!; [done..| |].
    + symmetry. apply alter_same with o; [done|]. destruct o. unfold set_in_current_chain. cbn in *. by subst.
    + intros h Hh Hbest. by exists h.
  - run_st. rewrite bool_decide_true by eauto. by apply modify_obj_run.
Qed.

(** ** Popping the head *)
Lemma obj_run st (b o : block_state) : contents (index st) !! id b = Some o -> obj b st = (st, Ok o).
Proof. intros Ho. unfold obj, gets. by rewrite Ho. Qed.

Lemma head_obj_run st o : contents (index st) !! id (ct_head (env st)) = Some o ->
  head_obj st = (st, Ok o).
Proof. intros Ho. unfold head_obj. run_st. by apply obj_run. Qed.

Definition popped st h p (u : gset digest) : fork_db I (ctl D) :=
  upd (fun c => set_unapplied u (set_reversible (delete (block_num h) (ct_reversible c))
    (set_db (db_outer (ct_db c)) (set_head p c)))) st.

(** The head is popped, or the database cannot be restored. *)
Lemma pop_block_run st h p : contents (index st) !! id (ct_head (env st)) = Some h ->
  contents (index st) !! prev h = Some p ->
  (exists u, pop_block conf st = (popped st h p u, Ok tt)) \/
  (exists st', pop_block conf st = (st', Throw undo_error)).
Proof.
  intros Hh Hp.
  assert (Hu : db_undo (ct_db (env st)) = Ok (db_outer (ct_db (env st))) \/
    db_undo (ct_db (env st)) = Throw undo_error).
  { unfold db_undo, db_outer. destruct (db_snaps _); [by left|]. destruct (restorable _ _); auto. }
  destruct Hu as [Hu|Hu]; [left|right]; unfold pop_block; unfold mbind at 1, St_bind;
    rewrite (head_obj_run st h Hh); unfold get_block, mod_ctl; run_st; rewrite Hp, Hu.
  - destruct st as [i h' [? [] ? ? ? ?]]. by destruct (bool_decide _); run_st; eexists.
  - by destruct (bool_decide _); run_st; eexists.
Qed.

Definition flags_at m (x : digest) : Prop :=
  forall k s, m !! k = Some s -> in_current_chain s = true <-> below m k x.

Lemma flags_pop m x s p : levels m -> (forall x s, m !! x = Some s -> id s = x) ->
  m !! x = Some s -> m !! prev s = Some p -> flags_at m x ->
  flags_at (alter (set_in_current_chain false) x m) (prev s).
Proof.
  intros Hl Hkey Hs Hp Hf k s'.
  assert (Ha : alike m (alter (set_in_current_chain false) x m)) by (by apply alike_alter).
  rewrite <- (alike_below _ _ _ _ Ha). destruct (decide (x = k)) as [<-|Hne].
  - rewrite lookup_alter_eq, Hs. intros [= <-]. cbn. split; [done|]. intros Hb. exfalso.
    pose proof (Hl _ _ _ Hs Hp). destruct (below_num m x s (prev s) p Hl Hkey Hs Hb Hp) as [Heq|Hlt]; [|lia].
    rewrite Heq in Hp. simplify_eq. lia.
  - rewrite lookup_alter_ne by done. intros Hk. rewrite (Hf k s' Hk). split.
    + intros Hb. destruct (below_up m k x s Hkey Hs Hb) as [->|?]; done.
    + by apply below_down.
Qed.

Lemma flags_apply m x k s : levels m -> (forall x s, m !! x = Some s -> id s = x) ->
  m !! k = Some s -> prev s = x -> flags_at m x -> flags_at (alter (set_in_current_chain true) k m) k.
Proof.
  intros Hl Hkey Hs <- Hf j s'.
  assert (Ha : alike m (alter (set_in_current_chain true) k m)) by (by apply alike_alter).
  rewrite <- (alike_below _ _ _ _ Ha). destruct (decide (k = j)) as [<-|Hne].
  - rewrite lookup_alter_eq, Hs. intros [= <-]. cbn. split; [constructor|done].
  - rewrite lookup_alter_ne by done. intros Hj. rewrite (Hf j s' Hj). split.
    + by apply below_down.
    + intros Hb. destruct (below_up m j k s Hkey Hs Hb) as [->|?]; done.
Qed.

(** [d] is [d0] after the block [s] was executed on it. *)
Definition extends (P : block_status -> Prop) p s d0 d : Prop := exists sta e, P sta /\
  run_block sta p (bs_block s) (db_cur d0) = Ok e /\
  d = UndoDb (ex_db e) (db_cur d0 :: db_snaps d0) (db_rev d0 + 1).

Lemma history_pop P m x s p d : m !! x = Some s -> m !! prev s = Some p ->
  history P m x (db_cur d) (db_snaps d) ->
  extends P p s (db_outer d) d /\ history P m (prev s) (db_cur (db_outer d)) (db_snaps (db_outer d)).
Proof.
  intros Hs Hp Hh. destruct d as [c ds r]. cbn in *. inversion Hh; simplify_eq. cbn. split; [|done].
  eexists _, _. split_and!; [done..|]. cbn. f_equal. lia.
Qed.

Lemma pop_step st root n hd x d (b : block_state) s p :
  synced st root n hd x d -> id b = x ->
  contents (index st) !! x = Some s -> contents (index st) !! prev s = Some p ->
  (exists st', (o ← obj b; _ ← mark_in_current_chain o false; pop_block conf) st = (st', Ok tt) /\
    alike (contents (index st)) (contents (index st')) /\ synced st' root n hd (prev s) (db_outer d)) \/
  (exists st', (o ← obj b; _ ← mark_in_current_chain o false; pop_block conf) st = (st', Throw undo_error)).
Proof.
  intros Hsy Hb Hs Hp. pose proof (sy_key st _ _ Hs) as Hid.
  unfold mbind, St_bind. rewrite (obj_run st b s) by (by rewrite Hb).
  destruct (mark_run st s false) as (st1 & -> & Henv & Hc & Hbest); [by rewrite Hid|].
  rewrite Hid in Hc.
  assert (Ha : alike (contents (index st)) (contents (index st1))) by (rewrite Hc; by apply alike_alter).
  destruct (alike_lookup _ _ _ _ Ha Hs) as (s1 & Hs1 & E1 & Eb1 & _).
  destruct (alike_lookup _ _ _ _ Ha Hp) as (p1 & Hp1 & E1' & _).
  destruct (pop_block_run st1 s1 p1) as [[u Hu]|Hfail]; [..|by right].
  { by rewrite Henv, (sy_head _ _ _ _ _ _ Hsy). }
  { unfold prev in *. by rewrite <- E1. }
  left. exists (popped st1 s1 p1 u). split; [done|]. split; [done|].
  destruct (history_pop _ _ _ _ _ _ Hs Hp (sy_hist _ _ _ _ _ _ Hsy)) as [He Hh].
  destruct (sy_at _ _ _ _ _ _ Hsy) as (s0 & Hs0 & Hrev). simplify_eq.
  destruct (sy_fork _ _ _ _ _ _ Hsy) as (Ht & _). pose proof (tree_ok_levels _ _ _ Ht) as Hlev.
  pose proof (Hlev _ _ _ Hs Hp) as Hlt.
  assert (Hr1 : db_rev (db_outer d) = db_rev d - 1).
  { destruct He as (sta & e & _ & _ & ->). cbn. lia. }
  assert (Hpn : block_num p = block_num s - 1).
  { destruct (to_parent _ _ _ Ht _ _ Hs) as (p' & Hp' & ?); [pose proof (to_above _ _ _ Ht _ _ Hp); lia|].
    simplify_eq. lia. }
  destruct (sy_best _ _ _ _ _ _ Hsy) as (h & Hh1 & Hh2 & Hh3). destruct (Hbest h Hh1 Hh3) as (h' & Hh1' & Hh2' & Hh3').
  split; cbn [index fdb_head env popped upd ct_head ct_db ct_pending ct_replaying ct_reversible ct_log
    set_unapplied set_reversible set_db set_head].
  - by eapply alike_fdb_ok, Hsy.
  - by eapply blocks_wf_alike, Hsy.
  - exists h'. split_and!; [done|congruence|done].
  - by rewrite (sy_key st1 _ _ Hp1).
  - rewrite Hc. apply (flags_pop _ _ s p Hlev (sy_key st) Hs Hp). exact (sy_flags _ _ _ _ _ _ Hsy).
  - rewrite Henv. apply Hsy.
  - rewrite Henv. apply Hsy.
  - by rewrite Henv, (sy_db _ _ _ _ _ _ Hsy).
  - exists p1. split; [done|]. rewrite <- E1'. lia.
  - by eapply history_alike.
  - intros k. rewrite Henv, <- E1. intros [v [Hne Hv]%lookup_delete_Some].
    pose proof (sy_rmax _ _ _ _ _ _ Hsy k ltac:(eauto)). lia.
  - intros k s' Hbk Hk Hlog. rewrite Henv in *. apply (alike_below _ _ _ _ Ha) in Hbk.
    destruct (alike_lookup_r _ _ _ _ Ha Hk) as (s2 & Hs2 & E2 & _). rewrite <- E2, <- E1 in *.
    assert (block_num s2 < block_num s).
    { destruct (below_num _ k s2 (prev s) p Hlev ltac:(eauto) Hs2 Hbk Hp) as [<-|?]; [|lia].
      simplify_eq. lia. }
    rewrite lookup_delete_ne by lia. apply (sy_stored _ _ _ _ _ _ Hsy); [|done..].
    by apply (below_down _ _ _ s); eauto.
  - rewrite Henv. by eapply log_ok_alike, Hsy.
Qed.

(** ** Applying a child of the head *)
Lemma child_num st root n hd x d k s p : synced st root n hd x d ->
  contents (index st) !! k = Some s -> prev s = x -> contents (index st) !! x = Some p ->
  block_num s = block_num p + 1 /\ u32 (block_num p + 1) = block_num p + 1 /\ db_rev d = block_num p.
Proof.
  intros Hsy Hs Hpr Hp. destruct (sy_fork _ _ _ _ _ _ Hsy) as (Ht & H0n & _).
  destruct (sy_at _ _ _ _ _ _ Hsy) as (p' & Hp' & Hrev). simplify_eq.
  pose proof (tree_ok_levels _ _ _ Ht _ _ _ Hs Hp). pose proof (to_above _ _ _ Ht _ _ Hp).
  destruct (to_parent _ _ _ Ht _ _ Hs) as (p' & ? & Hn); [lia|]. simplify_eq.
  split_and!; [done| |done]. apply u32_small. rewrite <- Hn, <- (to_id _ _ _ Ht _ _ Hs).
  apply endian_reverse_u32_range, u32_range.
Qed.

(** The block is committed, or the controller stays where it is, or nothing can be said
    any more. *)
Lemma apply_at st root n hd x d k s p sta :
  synced st root n hd x d -> applying sta ->
  contents (index st) !! k = Some s -> prev s = x -> contents (index st) !! x = Some p ->
  match run_block sta p (bs_block s) (db_cur d) with
  | Ok e => exists u, apply_block conf (bs_block s) sta st = (applied st e u, Ok tt)
  | Throw e => (exists u, apply_block conf (bs_block s) sta st = (restored st u, Throw (captured e))) \/
      exists st' e', apply_block conf (bs_block s) sta st = (st', Throw e') /\ fatal e' = true
  end.
Proof.
  intros Hsy Hsta Hs Hpr Hp. destruct (child_num _ _ _ _ _ _ _ _ _ Hsy Hs Hpr Hp) as (Hn & Hu & Hrev).
  pose proof (apply_block_run conf st (bs_block s) sta p) as Hrun.
  rewrite (sy_db _ _ _ _ _ _ Hsy), (sy_head _ _ _ _ _ _ Hsy), Hp in Hrun.
  specialize (Hrun (sy_idle _ _ _ _ _ _ Hsy) (sy_live _ _ _ _ _ _ Hsy) Hsta eq_refl Hrev).
  destruct (run_block sta p (bs_block s) (db_cur d)) as [e|e] eqn:Er.
  - apply Hrun. intros e' [= <-]. apply run_block_inv in Er as [He _].
    destruct (ct_reversible _ !! _) as [b|] eqn:Eb; [|done].
    pose proof (sy_rmax _ _ _ _ _ _ Hsy (block_num (ex_block e)) ltac:(eauto)). lia.
  - destruct (Hrun ltac:(done)) as [[[u Hg]|(st' & c & Hg & _)]|(Hf & st' & Hg)]; eauto 10.
Qed.

(** A state that differs in [unapplied_transactions] only. *)
Lemma restored_synced st root n hd x d u :
  synced st root n hd x d -> synced (restored st u) root n hd x d.
Proof. intros []. by split. Qed.

Lemma applied_synced st st' root n hd hd' x d k s p sta e u (o : block_state) :
  synced st root n hd x d -> applying sta ->
  contents (index st) !! k = Some s -> prev s = x -> contents (index st) !! x = Some p ->
  run_block sta p (bs_block s) (db_cur d) = Ok e ->
  env st' = set_head o (env (applied st e u)) -> id o = k ->
  alike (contents (index st)) (contents (index st')) -> flags_at (contents (index st')) k ->
  (exists h, fdb_head st' = Some h /\ id h = hd' /\ best_head (index st') h) ->
  synced st' root n hd' k (UndoDb (ex_db e) (db_cur d :: db_snaps d) (db_rev d + 1)).
Proof.
  intros Hsy Hsta Hs Hpr Hp Hrun Henv Ho Ha Hf Hbest.
  destruct (child_num _ _ _ _ _ _ _ _ _ Hsy Hs Hpr Hp) as (Hn & Hu & Hrev).
  destruct (run_block_inv _ _ _ _ _ Hrun) as [Hen Heid].
  destruct (sy_wf _ _ _ _ _ _ Hsy k s Hs) as (Hsid & _).
  destruct (alike_lookup _ _ _ _ Ha Hs) as (s' & Hs' & E' & _).
  destruct (sy_fork _ _ _ _ _ _ Hsy) as (Ht & _). pose proof (tree_ok_levels _ _ _ Ht) as Hlev.
  split; rewrite ?Henv; cbn [env applied upd set_head set_unapplied set_reversible
    set_db ct_head ct_pending ct_replaying ct_db ct_reversible ct_log db_cur db_snaps db_rev];
    try apply Hsy; try done.
  - by eapply alike_fdb_ok, Hsy.
  - by eapply blocks_wf_alike, Hsy.
  - by rewrite (sy_db _ _ _ _ _ _ Hsy).
  - exists s'. rewrite <- E'. split; [done|lia].
  - eapply history_alike; [done|]. apply hist_step with s p sta; rewrite ?Hpr; try done. apply Hsy.
  - intros j [b Hb]. rewrite lookup_insert_Some in Hb. destruct Hb as [[<- _]|[_ Hb]]; [lia|].
    pose proof (sy_rmax _ _ _ _ _ _ Hsy j ltac:(eauto)). lia.
  - intros j t Hj Ht' Hlog. apply (alike_below _ _ _ _ Ha) in Hj.
    destruct (alike_lookup_r _ _ _ _ Ha Ht') as (t0 & Ht0 & E0 & _). rewrite <- E0 in *.
    destruct (below_up _ _ _ _ (sy_key st) Hs Hj) as [->|Hb].
    + assert (t0 = s) as -> by congruence. exists (bs_block (ex_block e)). rewrite Hen, Hu, <- Hn, lookup_insert_eq.
      split; [done|congruence].
    + rewrite Hpr in Hb. assert (block_num t0 <= block_num p).
      { destruct (below_num _ j t0 x p Hlev (sy_key st) Ht0 Hb Hp) as [<-|?]; [|lia]. simplify_eq. lia. }
      rewrite lookup_insert_ne by lia. by apply (sy_stored _ _ _ _ _ _ Hsy).
  - by eapply log_ok_alike, Hsy.
Qed.

Lemma apply_one_step st root n hd x d (b : block_state) s p (sta : block_state -> block_status) :
  synced st root n hd x d -> applying (sta s) ->
  contents (index st) !! id b = Some s -> prev s = x -> contents (index st) !! x = Some p ->
  match run_block (sta s) p (bs_block s) (db_cur d) with
  | Ok e => exists st', apply_one conf sta b st = (st', Ok tt) /\
      alike (contents (index st)) (contents (index st')) /\
      synced st' root n hd (id b) (UndoDb (ex_db e) (db_cur d :: db_snaps d) (db_rev d + 1))
  | Throw e => (exists u, apply_one conf sta b st = (restored st u, Throw (captured e))) \/
      exists st' e', apply_one conf sta b st = (st', Throw e') /\ fatal e' = true
  end.
Proof.
  intros Hsy Hsta Hs Hpr Hp.
  pose proof (apply_at _ _ _ _ _ _ _ _ _ _ Hsy Hsta Hs Hpr Hp) as Hrun.
  unfold apply_one, mbind, St_bind. rewrite (obj_run st b s Hs).
  destruct (run_block (sta s) p (bs_block s) (db_cur d)) as [e|e] eqn:Er.
  2: { destruct Hrun as [[u Hg]|(st' & e' & Hg & Hf)]; rewrite Hg; eauto. }
  destruct Hrun as [u Hrun]. rewrite Hrun. pose proof (sy_key st _ _ Hs) as Hid.
  rewrite (obj_run (applied st e u) b s Hs). unfold mod_ctl, modify_st.
  destruct (mark_run (upd (set_head s) (applied st e u)) s true) as (st' & -> & Henv & Hc & Hbest);
    [by rewrite Hid|].
  rewrite Hid in Hc. change (contents (index (upd _ _))) with (contents (index st)) in Hc.
  assert (Ha : alike (contents (index st)) (contents (index st'))) by (rewrite Hc; by apply alike_alter).
  exists st'. split; [done|]. split; [done|].
  apply (applied_synced st st' root n hd hd x d (id b) s p (sta s) e u s); try done.
  - rewrite Hc. destruct (sy_fork _ _ _ _ _ _ Hsy) as (Ht & _).
    apply (flags_apply _ x (id b) s); try done; [by eapply tree_ok_levels|apply sy_key|].
    exact (sy_flags _ _ _ _ _ _ Hsy).
  - destruct (sy_best _ _ _ _ _ _ Hsy) as (h & Hh1 & Hh2 & Hh3).
    destruct (Hbest h Hh1 Hh3) as (h' & ? & ? & ?). exists h'. split_and!; [done|congruence|done].
Qed.

(** ** Branches *)

(** [l] leads from [x] down to the parent [z] of its last block. *)
Inductive down m : digest -> list block_state -> digest -> Prop :=
| down_nil x : down m x [] x
| down_cons (b : block_state) s l z : m !! id b = Some s -> down m (prev s) l z -> down m (id b) (b :: l) z.

(** Executing the blocks of [l], the last one first, leads from the database [dz]
    at [z] to the database [d] at [x]. *)
Inductive replay (P : block_status -> Prop) m :
    digest -> undo_db D -> list block_state -> digest -> undo_db D -> Prop :=
| rp_nil x d : replay P m x d [] x d
| rp_cons (b : block_state) s p d d0 l z dz : m !! id b = Some s -> m !! prev s = Some p -> extends P p s d0 d ->
    replay P m (prev s) d0 l z dz -> replay P m (id b) d (b :: l) z dz.

Lemma path_down m a l t : (forall x s, m !! x = Some s -> id s = x) ->
  path m a l t -> down m (id a) l (prev t).
Proof.
  intros Hkey. induction 1 as [s Hs|s p l t Hs Hp Hpath IH]; [by econstructor; [|constructor]|].
  econstructor; [done|]. by rewrite <- (Hkey _ _ Hp).
Qed.

Lemma down_alike m m' x l z : alike m m' -> down m x l z -> down m' x l z.
Proof.
  intros Ha. induction 1 as [x|b s l z Hs Hd IH]; [constructor|].
  destruct (alike_lookup _ _ _ _ Ha Hs) as (s' & Hs' & E & _).
  econstructor; [done|]. unfold prev in *. by rewrite <- E.
Qed.

Lemma down_lift m x l z k : (forall x s, m !! x = Some s -> id s = x) -> down m x l z ->
  below m k z -> below m k x.
Proof. intros Hkey. induction 1; [done|]. intros Hb. eapply below_down; eauto. Qed.

Lemma down_elem m x l z (b : block_state) : (forall x s, m !! x = Some s -> id s = x) -> down m x l z ->
  b ∈ l -> below m (id b) x.
Proof.
  intros Hkey. induction 1 as [|c s l z Hs Hd IH]; [by intros ?%elem_of_nil|].
  intros [->|Hin]%elem_of_cons; [constructor|]. eapply below_down; eauto.
Qed.

Lemma down_start m x l z : down m x l z -> is_Some (m !! z) -> is_Some (m !! x).
Proof. intros [] ?; eauto. Qed.

Lemma down_app m x l1 l2 z : down m x (l1 ++ l2) z <-> exists y, down m x l1 y /\ down m y l2 z.
Proof.
  revert x. induction l1 as [|b l1 IH]; intros x; cbn [app].
  - split; [intros Hd; exists x; split; [constructor|done]|]. intros (y & Hd & ?). by inversion Hd; subst.
  - split.
    + intros Hd. inversion Hd as [|? s ? ? Hs Hd']; subst. apply IH in Hd' as (y & Hd1 & Hd2).
      exists y. split; [by econstructor|done].
    + intros (y & Hd & Hd2). inversion Hd as [|? s ? ? Hs Hd']; subst. econstructor; [done|].
      apply IH. by exists y.
Qed.

Lemma down_below m x l z k : (forall x s, m !! x = Some s -> id s = x) -> down m x l z -> below m k x ->
  (exists b : block_state, b ∈ l /\ id b = k) \/ below m k z.
Proof.
  intros Hkey. induction 1 as [x|b s l z Hs Hd IH]; intros Hb; [by right|].
  destruct (below_up m k (id b) s Hkey Hs Hb) as [->|Hb']; [left; exists b; split; [by left|done]|].
  destruct (IH Hb') as [(c & Hc & ?)|?]; [left; exists c; split; [by right|done]|by right].
Qed.

Lemma replay_cons P m m' (b : block_state) s p d d0 l z dz : same_blocks m m' ->
  m !! id b = Some s -> m !! prev s = Some p -> extends P p s d0 d -> replay P m' (prev s) d0 l z dz ->
  replay P m' (id b) d (b :: l) z dz.
Proof.
  intros Ha Hs Hp (sta & e & Hsta & He & ->) Hr.
  destruct (same_lookup _ _ _ _ Ha Hs) as (s' & Hs' & E & Eb).
  destruct (same_lookup _ _ _ _ Ha Hp) as (p' & Hp' & E' & _).
  apply rp_cons with s' p' d0; unfold prev in *; rewrite <- ?E; try done.
  exists sta, e. by rewrite <- E', <- Eb.
Qed.

Lemma replay_same P m m' x d l z dz : same_blocks m m' -> replay P m x d l z dz -> replay P m' x d l z dz.
Proof. intros Ha. induction 1; [constructor|by eapply replay_cons]. Qed.
Lemma replay_alike P m m' x d l z dz : alike m m' -> replay P m x d l z dz -> replay P m' x d l z dz.
Proof. intros Ha%alike_same. by apply replay_same. Qed.

Lemma replay_without P m m' k x d l z dz : without m k m' -> ~ below m k x ->
  (forall x s, m !! x = Some s -> id s = x) -> replay P m x d l z dz -> replay P m' x d l z dz.
Proof.
  intros Hw Hk Hkey Hr. induction Hr as [x d|b s p d d0 l z dz Hs Hp He Hr IH]; [constructor|].
  assert (~ below m k (prev s)) as Hk' by (intros Hb; by eapply Hk, below_down).
  apply rp_cons with s p d0; try done; [by apply Hw..|by apply IH].
Qed.

(** The database at the start of a branch is the one at its end with the sessions of
    the branch undone. *)
Notation db_back l d := (Nat.iter (length l) db_outer d).

Lemma history_replay P m x d l z : down m x l z -> is_Some (m !! z) ->
  history P m x (db_cur d) (db_snaps d) -> replay P m x d l z (db_back l d).
Proof.
  intros Hd Hz. revert d. induction Hd as [x|b s l z Hs Hd IH]; intros d Hh; [constructor|].
  destruct (down_start _ _ _ _ Hd Hz) as [p Hp].
  destruct (history_pop _ _ _ _ _ _ Hs Hp Hh) as [He Hh']. cbn [length]. rewrite Nat.iter_succ_r.
  apply rp_cons with s p (db_outer d); [done..|]. by apply IH.
Qed.

Lemma extends_outer P p s d0 d : extends P p s d0 d -> db_outer d = d0.
Proof. intros (sta & e & _ & _ & ->). destruct d0. unfold db_outer. cbn. f_equal. lia. Qed.
Lemma replay_back P m x d l z dz : replay P m x d l z dz -> dz = db_back l d.
Proof.
  induction 1 as [|b s p d d0 l z dz Hs Hp He Hr IH]; [done|]. apply extends_outer in He as <-.
  cbn [length]. by rewrite Nat.iter_succ_r.
Qed.

(** ** Popping and applying branches *)
Lemma pop_branch_run l st root n hd x d z :
  synced st root n hd x d -> down (contents (index st)) x l z -> is_Some (contents (index st) !! z) ->
  (exists st', pop_branch conf l st = (st', Ok tt) /\
    alike (contents (index st)) (contents (index st')) /\ synced st' root n hd z (db_back l d)) \/
  (exists st', pop_branch conf l st = (st', Throw undo_error)).
Proof.
  revert st x d. induction l as [|b l IH]; intros st x d Hsy Hd Hz.
  - inversion Hd; subst. left. exists st. split_and!; done.
  - inversion Hd as [|? s ? ? Hs Hd' Hb]; subst. destruct (down_start _ _ _ _ Hd' Hz) as [p Hp].
    assert (Hcons : forall st1 r, (o ← obj b; _ ← mark_in_current_chain o false; pop_block conf) st = (st1, r) ->
      pop_branch conf (b :: l) st = match r with Ok _ => pop_branch conf l st1 | Throw e => (st1, Throw e) end).
    { intros st1 r Hrun. unfold pop_branch. cbn [for_each]. unfold mbind at 1, St_bind at 1. by rewrite Hrun. }
    destruct (pop_step st root n hd (id b) d b s p Hsy eq_refl Hs Hp) as [(st1 & Hrun & Ha & Hsy1)|[st1 Hrun]];
      rewrite (Hcons _ _ Hrun); [|by right; eexists].
    cbn [length]. rewrite Nat.iter_succ_r.
    destruct (IH st1 (prev s) (db_outer d) Hsy1) as [(st2 & Hrun2 & Ha2 & Hsy2)|[st2 Hrun2]].
    { by eapply down_alike. }
    { destruct Hz as [v Hv]. destruct (alike_lookup _ _ _ _ Ha Hv) as (v' & ? & _). eauto. }
    + left. exists st2. split_and!; [done|by etrans|done].
    + right. by exists st2.
Qed.

Lemma for_each_app_ok {S A} (f : A -> St S unit) l1 l2 (s s1 : S) : for_each f l1 s = (s1, Ok tt) ->
  for_each f (l1 ++ l2) s = for_each f l2 s1.
Proof.
  revert s. induction l1 as [|a l1 IH]; intros s; cbn [for_each app]; [by intros [= ->]|].
  unfold mbind, St_bind. destruct (f a s) as [s' [[]|e]]; [apply IH|done].
Qed.

Lemma for_each_app_throw {S A} (f : A -> St S unit) l1 l2 (s s1 : S) e : for_each f l1 s = (s1, Throw e) ->
  for_each f (l1 ++ l2) s = (s1, Throw e).
Proof.
  revert s. induction l1 as [|a l1 IH]; intros s; cbn [for_each app]; [done|].
  unfold mbind, St_bind. destruct (f a s) as [s' [[]|e']]; [apply IH|done].
Qed.

(** The block [k] throws when it is executed on [c], the database of its parent. *)
Definition fails m (sta : block_status) (k : digest) (c : D) (e : exn) : Prop :=
  exists s p, m !! k = Some s /\ m !! prev s = Some p /\ run_block sta p (bs_block s) c = Throw e.
Definition child_of m (k y : digest) : Prop := exists s, m !! k = Some s /\ prev s = y.

(** A block [j] below [x] with the parent [y] does not execute as validated on [c]. *)
Definition stuck m (x y : digest) (c : D) (e : exn) : Prop :=
  exists j ej, child_of m j y /\ below m j x /\ fails m status_validated j c ej /\ e = captured ej.

Notation repeats := (eq status_validated).

(** Executing a branch again ends at its end, with the same database when the blocks
    repeat what they did; or below a block that throws. *)
Lemma reapply_run l st root n hd x z dz :
  synced st root n hd z dz -> down (contents (index st)) x l z ->
  exists st' r, for_each (apply_one conf (fun _ => status_validated)) (reverse l) st = (st', r) /\
  match r with
  | Ok _ => exists d, alike (contents (index st)) (contents (index st')) /\ synced st' root n hd x d /\
      forall d0, replay repeats (contents (index st)) x d0 l z dz -> d = d0
  | Throw e => fatal e = true \/ exists y d, alike (contents (index st)) (contents (index st')) /\
      synced st' root n hd y d /\ below (contents (index st)) y x /\
      stuck (contents (index st)) x y (db_cur d) e /\
      forall d0, ~ replay repeats (contents (index st)) x d0 l z dz
  end.
Proof.
  intros Hsy Hd. induction Hd as [x|b s l z Hs Hd IH].
  { exists st, (Ok tt). split; [done|]. exists dz. split_and!; [done..|]. intros d0 Hr. by inversion Hr. }
  destruct (IH Hsy) as (st1 & r & Hrun & Hr). rewrite reverse_cons. pose proof (sy_key st) as Hkey.
  destruct r as [[]|e].
  2: { exists st1, (Throw e). split; [by apply for_each_app_throw|].
       destruct Hr as [?|(y & d & Ha & Hsy1 & Hb & (j & ej & ? & ? & ? & ->) & Hno)]; [by left|right].
       exists y, d. split_and!; [done..|by eapply below_down| |].
       - exists j, ej. split_and!; [done|by eapply below_down|done..].
       - intros d0 Hrp. inversion Hrp; simplify_eq. by eapply Hno. }
  destruct Hr as (d0 & Ha & Hsy1 & Huniq).
  destruct (alike_lookup _ _ _ _ Ha Hs) as (s1 & Hs1 & E & Eb & _).
  destruct (sy_at _ _ _ _ _ _ Hsy1) as (p1 & Hp1 & _).
  destruct (alike_lookup_r _ _ _ _ Ha Hp1) as (p & Hp & E' & _).
  pose proof (apply_one_step st1 root n hd (prev s) d0 b s1 p1 (fun _ => status_validated) Hsy1
    (or_intror eq_refl) Hs1) as Hstep. cbv beta in Hstep.
  specialize (Hstep ltac:(unfold prev; by rewrite E) Hp1). rewrite <- E', <- Eb in Hstep.
  rewrite (for_each_app_ok _ _ _ _ _ Hrun). cbn [for_each]. unfold mbind, St_bind.
  destruct (run_block status_validated p (bs_block s) (db_cur d0)) as [e|e] eqn:Er.
  - destruct Hstep as (st2 & Hrun2 & Ha2 & Hsy2). rewrite Hrun2. exists st2, (Ok tt). split; [done|].
    eexists. split; [by etrans|]. split; [exact Hsy2|].
    intros d1 Hrp. inversion Hrp as [|? s0 q ? d2 ? ? ? Hs0 Hq (sta & e2 & <- & He2 & ->) Hrp2]; simplify_eq.
    apply Huniq in Hrp2 as <-. rewrite Er in He2. by injection He2 as ->.
  - destruct Hstep as [[u Hrun2]|(st2 & e2 & Hrun2 & Hf)]; rewrite Hrun2.
    2: { exists st2, (Throw e2). auto. }
    exists (restored st1 u), (Throw (captured e)). split; [done|right]. exists (prev s), d0.
    split_and!; [done|by apply restored_synced|eapply below_down; [done..|constructor]| |].
    + exists (id b), e. split_and!; [by exists s|constructor| |done]. by exists s, p.
    + intros d1 Hrp. inversion Hrp as [|? s0 q ? d2 ? ? ? Hs0 Hq (sta & e2 & <- & He2 & ->) Hrp2]; simplify_eq.
      apply Huniq in Hrp2 as <-. congruence.
Qed.

(** ** Removing a bad block *)
Definition lost m k m' : Prop := forall x, is_Some (m' !! x) <-> is_Some (m !! x) /\ ~ below m k x.

Lemma history_without P m m' k x (d : D) ds : without m k m' -> ~ below m k x ->
  (forall x s, m !! x = Some s -> id s = x) -> history P m x d ds -> history P m' x d ds.
Proof.
  intros Hw Hk Hkey Hh. induction Hh as [x s d ds Hs Hp|x s p d ds sta e Hs Hp Hsta Hr Hh IH].
  - apply hist_bottom with s; [by apply Hw|]. destruct (m' !! prev s) as [p|] eqn:E; [|done].
    apply Hw in E as [E _]. congruence.
  - assert (~ below m k (prev s)) as Hk' by (intros Hb; by eapply Hk, below_down).
    apply hist_step with s p sta; try done; [by apply Hw..|by apply IH].
Qed.

Lemma remove_synced st root n hd x d (b : block_state) :
  synced st root n hd x d -> ~ below (contents (index st)) (id b) x ->
  exists st' hd', set_validity b false st = (st', Ok tt) /\
    without (contents (index st)) (id b) (contents (index st')) /\ synced st' root n hd' x d.
Proof.
  intros Hsy Hx. destruct (remove_ok (id b) st root n (sy_fork _ _ _ _ _ _ Hsy)) as (i' & Hw & Hok & Hne & _).
  destruct (sy_at _ _ _ _ _ _ Hsy) as (s & Hs & Hrev).
  assert (contents i' !! x = Some s) as Hs' by (by apply Hw).
  destruct Hne as (h & Hrun & Hbest); [intros He; by rewrite He, lookup_empty in Hs'|].
  exists (ForkDb i' (Some h) (env st)), (id h). split_and!; [exact Hrun|done|].
  assert (Hsub : contents i' ⊆ contents (index st)).
  { apply map_subseteq_spec. by intros k v [? _]%Hw. }
  split; cbn [index fdb_head env]; try apply Hsy; try done.
  - intros k v Hk%Hw. exact (sy_wf _ _ _ _ _ _ Hsy k v (proj1 Hk)).
  - by exists h.
  - intros k v Hk. rewrite (sy_flags _ _ _ _ _ _ Hsy k v) by (by apply Hw). split.
    + by apply below_without with (k := id b).
    + by apply below_mono.
  - by exists s.
  - eapply history_without; [done..|apply sy_key|apply Hsy].
  - intros k v Hb Hk. apply (sy_stored _ _ _ _ _ _ Hsy); [by eapply below_mono|by apply Hw].
  - destruct (sy_log _ _ _ _ _ _ Hsy) as (lh & Hl & Hc). exists lh. split; [done|].
    destruct Hc as [?|[? Hk]]; [by left|right]. split; [done|]. intros k v [Hv _]%Hw. by apply Hk.
Qed.

(** ** Switching *)

(** The blocks applied on top of an open block were validated. *)
Definition all_valid m (x : digest) : Prop := forall k s, below m k x -> m !! k = Some s ->
  is_Some (m !! prev s) -> validated s = true.

Lemma all_valid_alike m m' x : alike m m' -> all_valid m x -> all_valid m' x.
Proof.
  intros Ha Hv k s' Hb Hk [p' Hp']. destruct (alike_lookup_r _ _ _ _ Ha Hk) as (s & Hs & E & _ & Hval).
  apply Hval, (Hv k s); [by eapply alike_below|done|]. unfold prev in *. rewrite E.
  destruct (alike_lookup_r _ _ _ _ Ha Hp') as (p & ? & _). eauto.
Qed.

Lemma all_valid_without m m' k x : without m k m' -> all_valid m x -> all_valid m' x.
Proof.
  intros Hw Hv j s Hb [Hs _]%Hw [p [Hp _]%Hw]. eapply Hv; [|done|eauto].
  eapply below_mono; [|done]. apply map_subseteq_spec. by intros ?? [? _]%Hw.
Qed.

Lemma all_valid_down m x y s : (forall x s, m !! x = Some s -> id s = x) -> m !! x = Some s -> prev s = y ->
  all_valid m x -> all_valid m y.
Proof. intros Hkey Hs <- Hv k t Hb. apply Hv. by eapply below_down. Qed.

Lemma all_valid_up m x y s : (forall x s, m !! x = Some s -> id s = x) -> m !! x = Some s -> prev s = y ->
  validated s = true -> all_valid m y -> all_valid m x.
Proof.
  intros Hkey Hs <- Hval Hv k t Hb Ht Hp. destruct (below_up m k x s Hkey Hs Hb) as [->|Hb'].
  - congruence.
  - by apply (Hv k).
Qed.

Lemma all_valid_branch m x l z : (forall x s, m !! x = Some s -> id s = x) -> down m x l z ->
  all_valid m x -> all_valid m z.
Proof.
  intros Hkey. induction 1 as [x|b s l z Hs Hd IH]; [done|]. intros Hv. by eapply IH, all_valid_down.
Qed.

Lemma lost_without m m1 k m2 : alike m m1 -> without m1 k m2 -> lost m k m2.
Proof.
  intros Ha Hw x. rewrite (alike_below _ _ _ _ Ha). split.
  - intros [s [Hs Hb]%Hw]. destruct (alike_lookup_r _ _ _ _ Ha Hs) as (s0 & ? & _). eauto.
  - intros [[s Hs] Hb]. destruct (alike_lookup _ _ _ _ Ha Hs) as (s1 & Hs1 & _). exists s1. by apply Hw.
Qed.
Lemma lost_alike m k m1 m2 : lost m k m1 -> alike m1 m2 -> lost m k m2.
Proof.
  intros Hl Ha x. rewrite <- (Hl x). split.
  - intros [s Hs]. destruct (alike_lookup_r _ _ _ _ Ha Hs) as (s0 & ? & _). eauto.
  - intros [s Hs]. destruct (alike_lookup _ _ _ _ Ha Hs) as (s0 & ? & _). eauto.
Qed.

Lemma down_without m m' k x l z : (forall x s, m !! x = Some s -> id s = x) -> without m k m' ->
  ~ below m k x -> down m x l z -> down m' x l z.
Proof.
  intros Hkey Hw Hk Hd. induction Hd as [x|b s l z Hs Hd IH]; [constructor|].
  apply down_cons with s; [by apply Hw|]. apply IH. intros Hb. by eapply Hk, below_down.
Qed.

Lemma all_valid_below m x y : below m y x -> all_valid m x -> all_valid m y.
Proof. intros Hb Hv k s Hk. apply Hv. by eapply below_trans. Qed.

Lemma check_sync_run st root n hd z d second (y : block_state) : synced st root n hd z d ->
  last second = Some y -> prev y = z -> check_sync second st = (st, Ok tt).
Proof.
  intros Hsy Hy Hz. destruct (sy_at _ _ _ _ _ _ Hsy) as (s & Hs & _). unfold check_sync, mbind, St_bind.
  rewrite (head_obj_run st s) by (by rewrite (sy_head _ _ _ _ _ _ Hsy)). rewrite Hy.
  unfold st_assert, lift. rewrite bool_decide_true; [done|]. by rewrite (sy_key st _ _ Hs).
Qed.

Lemma child_not_below st root n hd x d k s : synced st root n hd x d ->
  contents (index st) !! k = Some s -> prev s = x -> ~ below (contents (index st)) k x.
Proof.
  intros Hsy Hs Hpr Hb. destruct (sy_fork _ _ _ _ _ _ Hsy) as (Ht & _).
  pose proof (tree_ok_levels _ _ _ Ht) as Hlev. destruct (sy_at _ _ _ _ _ _ Hsy) as (p & Hp & _).
  rewrite <- Hpr in Hb, Hp. pose proof (Hlev _ _ _ Hs Hp).
  destruct (below_num _ _ _ _ _ Hlev (sy_key st) Hs Hb Hp) as [Heq|?]; [|lia].
  rewrite Heq in Hp. simplify_eq. lia.
Qed.

(** *** Transporting failures *)
Lemma stuck_same m m' x y (c : D) e : same_blocks m m' -> stuck m x y c e -> stuck m' x y c e.
Proof.
  intros Ha (j & ej & (s & Hs & Hy) & Hb & (s0 & p & Hs0 & Hp & Hr) & ->). exists j, ej.
  destruct (same_lookup _ _ _ _ Ha Hs) as (s' & Hs' & E & Eb). assert (s0 = s) as -> by congruence.
  destruct (same_lookup _ _ _ _ Ha Hp) as (p' & Hp' & E' & _). unfold prev in *.
  split_and!; [exists s'; by rewrite <- E| |exists s', p'; by rewrite <- E, <- Eb, <- E'|done].
  eapply same_links_below; [|exact Hb]. by apply same_blocks_links.
Qed.

Lemma stuck_mono m m' x y (c : D) e : m ⊆ m' -> stuck m x y c e -> stuck m' x y c e.
Proof.
  intros Hsub (j & ej & (s & Hs & Hy) & Hb & (s0 & p & Hs0 & Hp & Hr) & ->). exists j, ej. split_and!; [..|done].
  - exists s. split; [by eapply lookup_weaken|done].
  - by eapply below_mono.
  - exists s0, p. split_and!; [by eapply lookup_weaken..|done].
Qed.

Lemma without_subseteq m k m' : without m k m' -> m' ⊆ m.
Proof. intros Hw. apply map_subseteq_spec. by intros j v [? _]%Hw. Qed.

(** *** Bad blocks *)

(** The database [c] at [y] and the database [d] at [x] come from one database at a
    common ancestor, by executing the blocks in between. *)
Definition reached m (x : digest) d (y : digest) c : Prop := exists z dz l1 l2,
  replay applying m x d l1 z dz /\ replay applying m y c l2 z dz.

(** The block [k] of the branch of [hd] throws [e] when the branch is executed. *)
Definition bad_block m (x : digest) d (hd k : digest) (e : exn) : Prop := exists y c sta,
  applying sta /\ below m k hd /\ child_of m k y /\ reached m x d y c /\ fails m sta k (db_cur c) e.

(** The block [k], which threw [eb], and its descendants are gone, and the controller is
    back at [x]; or at an ancestor [y] of [x], because a block between them does not
    execute again. When the blocks below [x] repeat what they did, it is back at [x]
    with the database [d]. *)
Definition fell_back m (root : digest) (n : Z) (x : digest) d st' (k : digest) (eb e : exn) : Prop :=
  exists hd' y d', lost m k (contents (index st')) /\ synced st' root n hd' y d' /\
    all_valid (contents (index st')) y /\ below m y x /\
    (y = x /\ e = captured eb \/ stuck m x y (db_cur d') e) /\
    (history repeats m x (db_cur d) (db_snaps d) -> y = x /\ d' = d).

(** A bad block is removed and the old branch applied again. *)
Lemma switch_back st root n hd cur d (b : block_state) s applied second x0 d0 z dz (eb : exn) :
  synced st root n hd cur d -> contents (index st) !! id b = Some s -> prev s = cur ->
  down (contents (index st)) cur applied z -> db_back applied d = dz ->
  down (contents (index st)) x0 second z -> db_back second d0 = dz ->
  ~ below (contents (index st)) (id b) x0 -> is_Some (contents (index st) !! z) ->
  all_valid (contents (index st)) x0 -> (exists y, last second = Some y /\ prev y = z) ->
  exists st' e,
    (_ ← set_validity b false; _ ← pop_branch conf applied; _ ← check_sync second;
     _ ← for_each (apply_one conf (fun _ => status_validated)) (reverse second); throw (captured eb)) st
    = (st', Throw (A := unit) e) /\
    (fatal e = true \/ e = undo_error \/ fell_back (contents (index st)) root n x0 d0 st' (id b) eb e).
Proof.
  intros Hsy Hs Hpr Hd Hdz Hd0 Hdz0 Hx0 [sz Hz] Hv0 (y & Hy & Hyz).
  pose proof (child_not_below _ _ _ _ _ _ _ _ Hsy Hs Hpr) as Hcur.
  destruct (remove_synced st root n hd cur d b Hsy Hcur) as (st1 & hd1 & Hrun1 & Hw & Hsy1).
  pose proof (down_without _ _ _ _ _ _ (sy_key st) Hw Hcur Hd) as Hd1.
  assert (Hz1 : is_Some (contents (index st1) !! z)).
  { exists sz. apply Hw. split; [done|]. intros Hb. by eapply Hcur, down_lift; [apply sy_key|..]. }
  unfold mbind, St_bind. rewrite Hrun1.
  destruct (pop_branch_run applied st1 root n hd1 cur d z Hsy1 Hd1 Hz1) as [(st2 & -> & Ha2 & Hsy2)|[st2 ->]].
  2: { exists st2, undo_error. auto. }
  rewrite Hdz in Hsy2. rewrite (check_sync_run st2 root n hd1 z dz second y) by done.
  assert (Hd2 : down (contents (index st2)) x0 second z).
  { eapply down_alike; [exact Ha2|]. by eapply down_without; [apply sy_key|..]. }
  assert (Hrep : history repeats (contents (index st)) x0 (db_cur d0) (db_snaps d0) ->
    replay repeats (contents (index st2)) x0 d0 second z dz).
  { intros Hh. rewrite <- Hdz0. apply history_replay; [done| |].
    - destruct Hz1 as [v Hv]. destruct (alike_lookup _ _ _ _ Ha2 Hv) as (v' & ? & _). eauto.
    - eapply history_alike; [exact Ha2|]. eapply history_without; [done..|apply sy_key|done]. }
  assert (Hval : forall st3, alike (contents (index st2)) (contents (index st3)) ->
    lost (contents (index st)) (id b) (contents (index st3)) /\ all_valid (contents (index st3)) x0).
  { intros st3 Ha3. split; [eapply lost_alike; [eapply lost_without; done|by etrans]|].
    eapply all_valid_alike, all_valid_alike, all_valid_without; [exact Ha3|exact Ha2|exact Hw|done]. }
  destruct (reapply_run second st2 root n hd1 x0 z dz Hsy2 Hd2) as (st3 & r & -> & Hr).
  destruct r as [[]|e]; [|destruct Hr as [?|(y1 & d1 & Ha3 & Hsy3 & Hb & Hst & Hno)]].
  - destruct Hr as (d3 & Ha3 & Hsy3 & Huniq). destruct (Hval st3 Ha3). exists st3, (captured eb).
    split; [done|right; right]. exists hd1, x0, d3. split_and!; [done..|constructor|by left|].
    intros Hh. split; [done|]. by apply Huniq, Hrep.
  - exists st3, e. auto.
  - destruct (Hval st3 Ha3). exists st3, e. split; [done|right; right]. exists hd1, y1, d1.
    pose proof (without_subseteq _ _ _ Hw) as Hsub.
    split_and!; [done..| | | |].
    + apply all_valid_below with x0; [|done]. by apply (alike_below _ _ _ _ Ha3).
    + eapply below_mono; [exact Hsub|]. by apply (alike_below _ _ _ _ Ha2).
    + right. eapply stuck_mono; [exact Hsub|]. eapply stuck_same; [|exact Hst]. by apply same_sym, alike_same.
    + intros Hh. exfalso. eapply Hno, Hrep, Hh.
Qed.

Lemma validate_run st root n hd x d k : synced st root n hd x d ->
  exists st', modify_obj k set_validated st = (st', Ok tt) /\
    contents (index st') = alter set_validated k (contents (index st)) /\ synced st' root n hd x d.
Proof.
  intros Hsy. assert (Hf : forall s, alike_block s (set_validated s)) by done.
  destruct (modify_obj_run st k set_validated Hf) as (st' & Hrun & Henv & Hc & Hbest).
  pose proof (alike_alter (contents (index st)) k _ Hf) as Ha.
  exists st'. split_and!; [done..|].
  destruct (sy_best _ _ _ _ _ _ Hsy) as (h & Hh1 & Hh2 & Hh3). destruct (Hbest h Hh1 Hh3) as (h' & ? & ? & ?).
  split; rewrite ?Henv, ?Hc; try apply Hsy.
  - by eapply alike_fdb_ok, Hsy.
  - by eapply blocks_wf_alike, Hsy.
  - exists h'. split_and!; [done|congruence|done].
  - intros j t. rewrite <- (alike_below _ _ _ _ Ha), lookup_alter_Some.
    intros [(<- & s0 & Hs0 & ->)|[_ Hj]]; [apply (sy_flags _ _ _ _ _ _ Hsy _ s0 Hs0)|by apply (sy_flags _ _ _ _ _ _ Hsy)].
  - destruct (sy_at _ _ _ _ _ _ Hsy) as (s & Hs & Hr).
    destruct (alike_lookup _ _ _ _ Ha Hs) as (s' & Hs' & E & _). exists s'. by rewrite <- E.
  - by eapply history_alike, Hsy.
  - intros j t Hb Ht. destruct (alike_lookup_r _ _ _ _ Ha Ht) as (t0 & Ht0 & E & _). rewrite <- E.
    apply (sy_stored _ _ _ _ _ _ Hsy); [by eapply alike_below|done].
  - by eapply log_ok_alike, Hsy.
Qed.

Lemma replay_last P m x d l (y : block_state) z dz : replay P m x d (l ++ [y]) z dz ->
  exists s p d1, m !! id y = Some s /\ prev s = z /\ m !! z = Some p /\ extends P p s dz d1.
Proof.
  revert x d. induction l as [|b l IH]; intros x d Hr; cbn [app] in Hr.
  - inversion Hr as [|? s p ? d0 ? ? ? Hs Hp He Hr']; subst. inversion Hr'; subst. by exists s, p, d.
  - inversion Hr; subst. by eapply IH.
Qed.

(** When the two branches share their lowest block and it throws, it throws again when
    the old branch is applied. *)
Lemma switch_back_shared st root n hd d (b c : block_state) s p second l x0 d0 z (eb : exn) :
  synced st root n hd z d -> contents (index st) !! id b = Some s -> prev s = z ->
  contents (index st) !! z = Some p -> run_block status_validated p (bs_block s) (db_cur d) = Throw eb ->
  second = l ++ [c] -> id c = id b -> bs_block c = bs_block s -> prev c = z ->
  down (contents (index st)) x0 second z -> db_back second d0 = d -> all_valid (contents (index st)) x0 ->
  exists st' e,
    (_ ← set_validity b false; _ ← pop_branch conf []; _ ← check_sync second;
     _ ← for_each (apply_one conf (fun _ => status_validated)) (reverse second); throw (captured eb)) st
    = (st', Throw (A := unit) e) /\
    (fatal e = true \/ e = undo_error \/ fell_back (contents (index st)) root n x0 d0 st' (id b) eb e).
Proof.
  intros Hsy Hs Hpr Hp Hrun -> Hc Hcb Hcz Hd0 Hdz0 Hv0.
  pose proof (child_not_below _ _ _ _ _ _ _ _ Hsy Hs Hpr) as Hcur.
  destruct (remove_synced st root n hd z d b Hsy Hcur) as (st1 & hd1 & Hrun1 & Hw & Hsy1).
  unfold mbind, St_bind. rewrite Hrun1. cbn [pop_branch for_each]. unfold mret, St_ret.
  rewrite (check_sync_run st1 root n hd1 z d (l ++ [c]) c) by (by rewrite ?last_snoc).
  rewrite reverse_snoc. cbn [for_each]. unfold mbind, St_bind, apply_one.
  assert (Hgone : contents (index st1) !! id c = None).
  { destruct (contents (index st1) !! id c) as [v|] eqn:E; [|done]. apply Hw in E as [_ []].
    rewrite Hc. constructor. }
  unfold mbind, St_bind, obj, gets. rewrite Hgone. cbn [default]. rewrite Hcb.
  assert (Hp1 : contents (index st1) !! z = Some p) by (by apply Hw).
  destruct (sy_at _ _ _ _ _ _ Hsy1) as (p0 & Hp0 & Hrev). assert (p0 = p) as -> by congruence.
  pose proof (apply_block_run conf st1 (bs_block s) status_validated p) as Happ.
  rewrite (sy_db _ _ _ _ _ _ Hsy1), (sy_head _ _ _ _ _ _ Hsy1), Hp1, Hrun in Happ.
  specialize (Happ (sy_idle _ _ _ _ _ _ Hsy1) (sy_live _ _ _ _ _ _ Hsy1) (or_intror eq_refl) eq_refl Hrev ltac:(done)).
  destruct Happ as [[[u ->]|(st' & c0 & -> & _)]|(Hf & st' & ->)]; [|eauto 10..].
  exists (restored st1 u), (captured eb). split; [done|right; right]. exists hd1, z, d.
  assert (Hzx : below (contents (index st)) z x0).
  { eapply down_lift; [apply sy_key|exact Hd0|constructor]. }
  split_and!; [by eapply lost_without|by apply restored_synced| |done| |].
  - apply all_valid_without with (contents (index st)) (id b); [done|]. by apply all_valid_below with x0.
  - right. exists (id b), eb. split_and!; [by exists s| | |done].
    + rewrite <- Hc. eapply down_elem; [apply sy_key|exact Hd0|]. apply elem_of_app. right. by left.
    + exists s, p. by rewrite Hpr.
  - intros Hh. exfalso. eapply history_replay in Hh; [|exact Hd0|eauto].
    rewrite Hdz0 in Hh. apply replay_last in Hh as (s1 & p1 & d1 & Hs1 & _ & Hp1' & (sta & e1 & <- & He1 & _)).
    rewrite Hc in Hs1. assert (s1 = s) as -> by congruence. congruence.
Qed.

(** What [maybe_switch_forks] leaves behind: the chain of the best block; or the chain
    that was there, with a bad block and its descendants gone. *)
Definition switched st root n hd x d st' (r : result unit) : Prop :=
  match r with
  | Ok _ => exists d', synced st' root n hd hd d' /\ all_valid (contents (index st')) hd /\
      alike (contents (index st)) (contents (index st'))
  | Throw e => fatal e = true \/ e = undo_error \/ exists k eb,
      bad_block (contents (index st)) x d hd k eb /\ fell_back (contents (index st)) root n x d st' k eb e
  end.

Lemma fails_same m m' sta k (c : D) e : same_blocks m m' -> fails m sta k c e -> fails m' sta k c e.
Proof.
  intros Ha (s & p & Hs & Hp & Hr). destruct (same_lookup _ _ _ _ Ha Hs) as (s' & Hs' & E & Eb).
  destruct (same_lookup _ _ _ _ Ha Hp) as (p' & Hp' & E' & _). unfold prev in *.
  exists s', p'. by rewrite <- E, <- Eb, <- E'.
Qed.

Lemma bad_block_same m m' x d hd k e : same_blocks m m' -> bad_block m x d hd k e -> bad_block m' x d hd k e.
Proof.
  intros Ha (y & c & sta & ? & Hb & (s & Hs & Hy) & (z & dz & l1 & l2 & ? & ?) & Hf). exists y, c, sta.
  destruct (same_lookup _ _ _ _ Ha Hs) as (s' & Hs' & E & _). split_and!; [done|..].
  - eapply same_links_below; [|exact Hb]. by apply same_blocks_links.
  - exists s'. unfold prev in *. by rewrite <- E.
  - exists z, dz, l1, l2. split; by eapply replay_same.
  - by eapply fails_same.
Qed.

Lemma fell_back_same m m' root n x d st' k eb e : same_blocks m m' ->
  fell_back m root n x d st' k eb e -> fell_back m' root n x d st' k eb e.
Proof.
  intros Ha (hd' & y & d' & Hl & ? & ? & Hb & He & Hh). exists hd', y, d'.
  pose proof (same_blocks_links _ _ Ha) as Hlk. pose proof (same_blocks_links _ _ (same_sym _ _ Ha)) as Hlk'.
  split_and!; [|done..|by eapply same_links_below| |].
  - intros x1. rewrite (Hl x1). split; intros [[v Hv] Hn]; (split; [|intros ?; apply Hn; by eapply same_links_below]).
    + destruct (same_lookup _ _ _ _ Ha Hv) as (? & ? & _). eauto.
    + destruct (same_lookup _ _ _ _ (same_sym _ _ Ha) Hv) as (? & ? & _). eauto.
  - destruct He as [?|?]; [by left|right]. by eapply stuck_same.
  - intros Hh'. apply Hh. by eapply history_same, Hh'; apply same_sym.
Qed.

Lemma switched_alike st st1 root n hd x d st' r : alike (contents (index st)) (contents (index st1)) ->
  switched st1 root n hd x d st' r -> switched st root n hd x d st' r.
Proof.
  intros Ha. destruct r as [[]|e]; cbn.
  - intros (d' & ? & ? & ?). exists d'. split_and!; [done..|by etrans].
  - apply alike_same, same_sym in Ha. intros [?|[?|(k & eb & ? & ?)]]; [by left|by right; left|right; right].
    exists k, eb. split; [by eapply bad_block_same|by eapply fell_back_same].
Qed.

(** The loop over the new branch. A block that both branches share is the first one. *)
Lemma switch_loop_run todo st root n hd cur d applied second x0 d0 z dz :
  synced st root n hd cur d -> all_valid (contents (index st)) cur -> all_valid (contents (index st)) x0 ->
  down (contents (index st)) hd (reverse todo) cur ->
  down (contents (index st)) cur applied z -> replay applying (contents (index st)) cur d applied z dz ->
  down (contents (index st)) x0 second z -> replay applying (contents (index st)) x0 d0 second z dz ->
  is_Some (contents (index st) !! z) -> (exists y, last second = Some y /\ prev y = z) ->
  (forall (b c : block_state) rest, todo = b :: rest -> c ∈ second -> id c = id b ->
     applied = [] /\ (exists l, second = l ++ [c]) /\ prev c = z /\
     exists s, contents (index st) !! id b = Some s /\ bs_block c = bs_block s) ->
  (forall b c : block_state, b ∈ tail todo -> c ∈ second -> id c <> id b) ->
  exists st' r, switch_loop conf todo applied second st = (st', r) /\ switched st root n hd x0 d0 st' r.
Proof.
  revert st cur d applied. induction todo as [|b todo IH];
    intros st cur d applied Hsy Hv Hv0 Htodo Hd Hr Hd0 Hr0 Hz Hy Hshare Hrest.
  { inversion Htodo; subst. exists st, (Ok tt). split; [done|]. by exists d. }
  rewrite reverse_cons in Htodo. apply down_app in Htodo as (k & Htodo & Hb).
  inversion Hb as [|? s ? ? Hs Hpr Hk]; subst. inversion Hpr; subst. clear Hb Hpr.
  destruct (sy_at _ _ _ _ _ _ Hsy) as (p & Hp & _).
  assert (Hsta : applying (applied_status s)) by (unfold applied_status, applying; destruct (validated s); auto).
  pose proof (apply_one_step st root n hd _ d b s p applied_status Hsy Hsta Hs eq_refl Hp) as Hstep.
  cbn [switch_loop]. destruct (run_block (applied_status s) p (bs_block s) (db_cur d)) as [e|e] eqn:Erun.
  - destruct Hstep as (st1 & Hrun1 & Ha1 & Hsy1).
    match type of Hsy1 with synced _ _ _ _ _ ?d0 => set (d1 := d0) in Hsy1 end.
    assert (He : extends applying p s d d1) by (by exists (applied_status s), e).
    destruct (validate_run st1 root n hd (id b) d1 (id b) Hsy1) as (st2 & Hrun2 & Hc2 & Hsy2).
    assert (Ha : alike (contents (index st)) (contents (index st2)))
      by (etrans; [exact Ha1|rewrite Hc2; by apply alike_alter]).
    destruct (alike_lookup _ _ _ _ Ha1 Hs) as (s1 & Hs1 & E1 & _).
    destruct (IH st2 (id b) d1 (b :: applied)) as (st' & r & Hrun & Hsw); try done.
    + apply (all_valid_up _ _ (prev s) (set_validated s1)); [apply sy_key| |by unfold prev; rewrite E1|done|].
      * by rewrite Hc2, lookup_alter_eq, Hs1.
      * by eapply all_valid_alike.
    + by eapply all_valid_alike.
    + by eapply down_alike.
    + eapply down_alike; [done|]. by econstructor.
    + apply (replay_cons _ (contents (index st)) _ b s p d1 d); try done; [by apply alike_same|by eapply replay_alike].
    + by eapply down_alike.
    + by eapply replay_alike.
    + destruct Hz as [v Hvz]. destruct (alike_lookup _ _ _ _ Ha Hvz) as (v' & ? & _). eauto.
    + intros b' c rest -> Hc Hid. exfalso. apply (Hrest b' c); [by left|done..].
    + intros b' c Hb'. apply Hrest. cbn [tail]. destruct todo; [done|by right].
    + exists st', r. split; [|by eapply switched_alike].
      unfold mbind at 1, St_bind at 1. unfold catch_fc, mbind, St_bind. by rewrite Hrun1, Hrun2.
  - assert (Hbad : bad_block (contents (index st)) x0 d0 hd (id b) e).
    { exists (prev s), d, (applied_status s). split_and!; [done| |by exists s| |by exists s, p].
      - eapply down_lift; [apply sy_key|exact Htodo|constructor].
      - by exists z, dz, second, applied. }
    unfold mbind at 1, St_bind at 1. unfold catch_fc. unfold mbind at 1, St_bind at 1.
    destruct Hstep as [[u Hrun1]|(st1 & e1 & Hrun1 & Hf)]; rewrite Hrun1.
    2: { exists st1, (Throw e1). split; [by destruct e1|by left]. }
    destruct (fc_exception (captured e)) eqn:Efc.
    2: { exists (restored st u), (Throw (captured e)). split; [done|]. left. by destruct e. }
    assert (Hback : exists st' e', (_ ← set_validity b false; _ ← pop_branch conf applied; _ ← check_sync second;
      _ ← for_each (apply_one conf (fun _ => status_validated)) (reverse second); throw (captured e)) (restored st u)
      = (st', Throw (A := unit) e') /\ (fatal e' = true \/ e' = undo_error \/
      fell_back (contents (index (restored st u))) root n x0 d0 st' (id b) e e')).
    { pose proof (replay_back _ _ _ _ _ _ _ Hr) as Hbk. pose proof (replay_back _ _ _ _ _ _ _ Hr0) as Hbk0.
      destruct (decide (Exists (fun c : block_state => id c = id b) second)) as [Hin|Hout].
      - apply Exists_exists in Hin as (c & Hc & Hcb).
        destruct (Hshare b c todo eq_refl Hc Hcb) as (-> & [l Hl] & Hcz & s' & Hs' & Hblk).
        assert (Hzs : prev s = z) by (by inversion Hd). subst z. cbn in Hbk. subst dz. assert (s' = s) as -> by congruence.
        assert (validated s = true) as Hval.
        { apply (Hv0 (id b) s); [|done|eauto]. rewrite <- Hcb. by eapply down_elem; [apply sy_key|..]. }
        unfold applied_status in Erun. rewrite Hval in Erun.
        apply (switch_back_shared (restored st u) root n hd d b c s p second l x0 d0 (prev s) e); try done.
        { by apply restored_synced. }
        all: by rewrite Hzs.
      - apply (switch_back (restored st u) root n hd (prev s) d b s applied second x0 d0 z dz e); try done.
        { by apply restored_synced. }
        intros Hbx. destruct (down_below _ _ _ _ _ (sy_key st) Hd0 Hbx) as [(c & Hc & Hid)|Hbz].
        + apply Hout, Exists_exists. eauto.
        + eapply (child_not_below _ _ _ _ _ _ _ _ Hsy Hs eq_refl), down_lift; [apply sy_key|done..]. }
    destruct Hback as (st' & e' & Hback & Hcase). exists st', (Throw e'). split; [exact Hback|].
    destruct Hcase as [?|[?|Hcase]]; [by left|by right; left|right; right]. by exists (id b), e.
Qed.

Lemma flags_validated m k x : flags_at m x -> flags_at (alter set_validated k m) x.
Proof.
  intros Hf j t. rewrite <- (alike_below _ _ _ _ (alike_alter m k set_validated (fun s => conj eq_refl (conj eq_refl (fun _ => eq_refl))))).
  rewrite lookup_alter_Some. intros [(<- & s0 & Hs0 & ->)|[_ Hj]]; [exact (Hf _ s0 Hs0)|by apply Hf].
Qed.

(** *** The next block of the current chain *)
Lemma apply_next st root n hd x d h p sta :
  synced st root n hd x d -> all_valid (contents (index st)) x -> applying sta ->
  fdb_head st = Some h -> id h = hd -> contents (index st) !! hd = Some h -> prev h = x ->
  contents (index st) !! x = Some p ->
  exists st' r,
    catch_fc (_ ← apply_block conf (bs_block h) sta; o ← obj h; _ ← mark_in_current_chain o true;
              _ ← set_validity h true; o ← obj h; mod_ctl (set_head o))
             (fun e => _ ← set_validity h false; throw e) st = (st', r) /\
    switched st root n hd x d st' r.
Proof.
  intros Hsy Hv Hsta Hfh Hid Hh Hpr Hp.
  pose proof (apply_at _ _ _ _ _ _ _ _ _ _ Hsy Hsta Hh Hpr Hp) as Hrun.
  unfold catch_fc. unfold mbind at 1, St_bind at 1.
  destruct (run_block sta p (bs_block h) (db_cur d)) as [e|e] eqn:Er.
  2: { destruct Hrun as [[u ->]|(st1 & e1 & -> & Hf)].
       2: { exists st1, (Throw e1). split; [by destruct e1|by left]. }
       destruct (fc_exception (captured e)) eqn:Efc.
       2: { exists (restored st u), (Throw (captured e)). split; [done|]. left. by destruct e. }
       destruct (remove_synced (restored st u) root n hd x d h) as (st' & hd' & Hrm & Hw & Hsy').
       { by apply restored_synced. }
       { rewrite Hid. exact (child_not_below _ _ _ _ _ _ _ _ Hsy Hh Hpr). }
       exists st', (Throw (captured e)). unfold mbind, St_bind. rewrite Hrm. split; [done|right; right].
       exists hd, e. rewrite Hid in Hw. split.
       - exists x, d, sta. split_and!; [done|constructor|by exists h| |exists h, p; by rewrite Hpr].
         exists x, d, [], []. split; constructor.
       - exists hd', x, d. split_and!; [by eapply lost_without|done|by eapply all_valid_without|constructor|by left|done]. }
  destruct Hrun as [u ->].
  unfold mbind, St_bind. rewrite (obj_run (applied st e u) h h) by (by rewrite Hid).
  destruct (mark_run (applied st e u) h true) as (st1 & -> & Henv1 & Hc1 & Hb1); [by rewrite Hid|].
  unfold set_validity. cbn [negb].
  destruct (modify_obj_run st1 (id h) set_validated) as (st2 & -> & Henv2 & Hc2 & Hb2); [done|].
  rewrite Hid in *. change (contents (index (applied st e u))) with (contents (index st)) in Hc1.
  set (o := set_validated (set_in_current_chain true h)).
  assert (Ho : contents (index st2) !! hd = Some o) by (by rewrite Hc2, Hc1, !lookup_alter_eq, Hh).
  rewrite (obj_run st2 h o) by (by rewrite Hid). unfold mod_ctl, modify_st.
  assert (Ha : alike (contents (index st)) (contents (index st2))).
  { rewrite Hc2, Hc1. etrans; by apply alike_alter. }
  eexists _, (Ok tt). split; [reflexivity|]. eexists.
  split_and!; [eapply (applied_synced st (upd (set_head o) st2) root n hd hd x d hd h p sta e u o); try done| |done].
  - cbn [env upd]. by rewrite Henv2, Henv1.
  - cbn [index upd]. rewrite Hc2, Hc1. apply flags_validated.
    destruct (sy_fork _ _ _ _ _ _ Hsy) as (Ht & _).
    apply (flags_apply _ x hd h); try done; [by eapply tree_ok_levels|apply sy_key|].
    exact (sy_flags _ _ _ _ _ _ Hsy).
  - destruct (sy_best _ _ _ _ _ _ Hsy) as (h0 & Hh1 & Hh2 & Hh3).
    destruct (Hb1 h0 Hh1 Hh3) as (h1 & ? & ? & ?). destruct (Hb2 h1) as (h2 & ? & ? & ?); [done..|].
    exists h2. split_and!; [done|congruence|done].
  - apply (all_valid_up _ _ x o); [apply sy_key|done..|]. by eapply all_valid_alike.
Qed.

(** *** Another branch *)
Lemma path_elem m a l t s : path m a l t -> s ∈ l -> m !! id s = Some s.
Proof.
  induction 1 as [s' Hs|s' p l t Hs Hp Hpath IH].
  - by intros ->%list_elem_of_singleton.
  - intros [->|Hin]%elem_of_cons; [done|by apply IH].
Qed.

Lemma path_last m a l t : path m a l t -> exists l', l = l' ++ [t].
Proof.
  induction 1 as [s Hs|s p l t Hs Hp Hpath [l' ->]]; [by exists []|]. by exists (s :: l').
Qed.

Lemma path_below m a l t : (forall x s, m !! x = Some s -> id s = x) ->
  path m a l t -> below m (id t) (id a).
Proof.
  intros Hkey. induction 1 as [s Hs|s p l t Hs Hp Hpath IH]; [constructor|].
  constructor; [done|]. by rewrite <- (Hkey _ _ Hp).
Qed.

Lemma path_NoDup m a l t : levels m -> path m a l t -> NoDup l.
Proof.
  intros Hl. induction 1 as [s Hs|s p l t Hs Hp Hpath IH]; [apply NoDup_singleton|].
  constructor; [|done]. intros Hin. pose proof (path_num _ _ _ _ _ Hl Hpath Hin).
  pose proof (Hl _ _ _ Hs Hp). lia.
Qed.

(** [a] is [b] or its child, or the fork point of the two branches is open. *)
Definition fork_open i (a b : digest) : Prop := forall s l1 l2 y,
  contents i !! a = Some s -> prev s <> b -> a <> b ->
  fetch_branch_from a b i = Ok (l1, l2) -> last l2 = Some y -> is_Some (contents i !! prev (bs_header y)).

Lemma switch_branch st root n hd x d h s :
  synced st root n hd x d -> all_valid (contents (index st)) x ->
  id h = hd -> contents (index st) !! hd = Some h -> contents (index st) !! x = Some s ->
  prev h <> x -> hd <> x -> fork_open (index st) hd x ->
  exists st' r,
    ('(first, second) ← lift (fetch_branch_from hd x (index st));
     _ ← pop_branch conf second; _ ← check_sync second; switch_loop conf (reverse first) [] second) st
    = (st', r) /\ switched st root n hd x d st' r.
Proof.
  intros Hsy Hv Hid Hh Hs Hnext Hne Hopen. pose proof (sy_key st _ _ Hs) as Hids.
  destruct (sy_fork _ _ _ _ _ _ Hsy) as (Ht & H0n & _). pose proof (tree_ok_levels _ _ _ Ht) as Hlev.
  destruct (fetch_branch_spec (index st) root n h s Ht H0n) as (l1 & l2 & x1 & y1 & Hf & Hp1 & Hp2 & Hz & _ & Hdis);
    [by rewrite Hid|by rewrite Hids|].
  rewrite Hid, Hids in Hf. pose proof (path_last _ _ _ _ Hp2) as [l2' Hl2].
  pose proof (path_last _ _ _ _ Hp1) as [l1' Hl1].
  assert (last l2 = Some y1) as Hy by (by rewrite Hl2, last_snoc).
  pose proof (Hopen h l1 l2 y1 Hh Hnext Hne Hf Hy) as Hzo.
  pose proof (path_down _ _ _ _ (sy_key st) Hp1) as Hd1. pose proof (path_down _ _ _ _ (sy_key st) Hp2) as Hd2.
  rewrite Hid, Hz in Hd1. rewrite Hids in Hd2. set (z := prev y1) in *.
  unfold mbind, St_bind, lift. rewrite Hf.
  destruct (pop_branch_run l2 st root n hd x d z Hsy Hd2 Hzo) as [(st1 & -> & Ha & Hsy1)|[st1 ->]].
  2: { exists st1, (Throw undo_error). split; [done|by right; left]. }
  pose proof (history_replay _ _ _ d _ _ Hd2 Hzo (sy_hist _ _ _ _ _ _ Hsy)) as Hr.
  set (dz := Nat.iter (length l2) db_outer d) in *.
  rewrite (check_sync_run st1 root n hd z dz l2 y1) by done.
  assert (Hboth : forall b c : block_state, b ∈ l1 -> c ∈ l2 -> id c = id b -> b = x1 /\ c = y1 /\ x1 = y1).
  { intros b c Hb Hc Hbc. pose proof (path_elem _ _ _ _ _ Hp1 Hb). pose proof (path_elem _ _ _ _ _ Hp2 Hc).
    assert (c = b) as -> by congruence. by destruct (Hdis b Hb Hc) as [-> ->]. }
  destruct (switch_loop_run (reverse l1) st1 root n hd z dz [] l2 x d z dz) as (st' & r & Hloop & Hsw); try done.
  - eapply all_valid_alike; [exact Ha|]. by eapply all_valid_branch; [apply sy_key|..].
  - by eapply all_valid_alike.
  - rewrite reverse_involutive. by eapply down_alike.
  - constructor.
  - constructor.
  - by eapply down_alike.
  - by eapply replay_alike.
  - destruct Hzo as [v Hvz]. destruct (alike_lookup _ _ _ _ Ha Hvz) as (v' & ? & _). eauto.
  - by exists y1.
  - intros b c rest Hrev Hc Hcb.
    assert (b ∈ l1) as Hb by (rewrite <- elem_of_reverse, Hrev; by left).
    destruct (Hboth b c Hb Hc Hcb) as (-> & -> & Hxy). split_and!; [done|by exists l2'|done|].
    destruct (alike_lookup _ _ _ _ Ha (path_elem _ _ _ _ _ Hp2 Hc)) as (s1 & Hs1 & _ & Eb & _).
    exists s1. by rewrite <- Hcb.
  - intros b c Hb Hc Hcb. rewrite Hl1, reverse_snoc in Hb. cbn [tail] in Hb.
    rewrite elem_of_reverse in Hb.
    destruct (Hboth b c) as (-> & -> & Hxy); try done; [rewrite Hl1; apply elem_of_app; by left|].
    pose proof (path_NoDup _ _ _ _ Hlev Hp1) as Hnd. rewrite Hl1 in Hnd.
    apply NoDup_app in Hnd as (_ & Hnd & _). apply (Hnd x1 Hb). by left.
  - exists st', r. split; [done|]. by eapply switched_alike.
Qed.

(** *** The whole operation *)
Lemma maybe_switch_run st root n hd x d sta :
  synced st root n hd x d -> all_valid (contents (index st)) x -> applying sta ->
  fork_open (index st) hd x ->
  exists st' r, maybe_switch_forks conf sta st = (st', r) /\ switched st root n hd x d st' r.
Proof.
  intros Hsy Hv Hsta Hopen. destruct (sy_best _ _ _ _ _ _ Hsy) as (h & Hfh & Hid & [Hh _]).
  destruct (sy_at _ _ _ _ _ _ Hsy) as (s & Hs & _). pose proof (sy_key st _ _ Hs) as Hids.
  unfold maybe_switch_forks. unfold mbind at 1, St_bind at 1. cbn [get]. rewrite Hfh.
  unfold mbind at 1, St_bind at 1.
  rewrite (head_obj_run st s) by (by rewrite (sy_head _ _ _ _ _ _ Hsy)). rewrite Hid in *.
  rewrite !Hids. case_decide as Hnext; [by eapply apply_next|].
  case_decide as Hsame.
  - exists st, (Ok tt). split; [done|]. exists d. by rewrite Hsame in *.
  - by eapply switch_branch.
Qed.

(** *** A fork point that is not open *)
Lemma pop_bottom st root n hd x d (b : block_state) s :
  synced st root n hd x d -> id b = x ->
  contents (index st) !! x = Some s -> contents (index st) !! prev s = None ->
  exists st', (o ← obj b; _ ← mark_in_current_chain o false; pop_block conf) st
    = (st', Throw block_validate_exception) /\ env st' = env st /\
    contents (index st') = alter (set_in_current_chain false) x (contents (index st)).
Proof.
  intros Hsy Hb Hs Hp. pose proof (sy_key st _ _ Hs) as Hid.
  unfold mbind, St_bind. rewrite (obj_run st b s) by (by rewrite Hb).
  destruct (mark_run st s false) as (st1 & -> & Henv & Hc & _); [by rewrite Hid|].
  rewrite Hid in Hc. exists st1. split_and!; [|done..].
  assert (Ha : alike (contents (index st)) (contents (index st1))) by (rewrite Hc; by apply alike_alter).
  destruct (alike_lookup _ _ _ _ Ha Hs) as (s1 & Hs1 & E1 & _).
  unfold pop_block, mbind, St_bind.
  rewrite (head_obj_run st1 s1) by (by rewrite Henv, (sy_head _ _ _ _ _ _ Hsy)).
  unfold get, get_block. replace (prev s1) with (prev s) by (unfold prev; by rewrite E1).
  by rewrite (proj2 (alike_none _ _ (prev s) Ha) Hp).
Qed.

(** No block is marked as current once the lowest one is popped. *)
Lemma bottom_unmarked m x s : (forall x s, m !! x = Some s -> id s = x) -> m !! x = Some s ->
  m !! prev s = None -> flags_at m x ->
  forall k t, alter (set_in_current_chain false) x m !! k = Some t -> in_current_chain t = false.
Proof.
  intros Hkey Hs Hp Hf k t. rewrite lookup_alter_Some. intros [(_ & t0 & _ & ->)|[Hne Hk]]; [done|].
  destruct (in_current_chain t) eqn:Et; [|done]. apply (Hf k t Hk) in Et.
  destruct (below_up m k x s Hkey Hs Et) as [->|Hb]; [done|]. inversion Hb; congruence.
Qed.

Lemma switch_past_run st root n hd x d sta h l1 l2 (y : block_state) :
  synced st root n hd x d -> contents (index st) !! hd = Some h -> prev h <> x -> hd <> x ->
  fetch_branch_from hd x (index st) = Ok (l1, l2 ++ [y]) -> contents (index st) !! prev y = None ->
  exists st' e, maybe_switch_forks conf sta st = (st', Throw e) /\ (e = undo_error \/
    e = block_validate_exception /\ id (ct_head (env st')) = id y /\ ct_db (env st') = db_back l2 d /\
    alike (contents (index st)) (contents (index st')) /\
    forall k t, contents (index st') !! k = Some t -> in_current_chain t = false).
Proof.
  intros Hsy Hh Hnext Hne Hf Hp. pose proof (sy_key st _ _ Hh) as Hid.
  destruct (sy_best _ _ _ _ _ _ Hsy) as (h' & Hfh & Hid' & [Hh' _]).
  assert (h' = h) as -> by congruence. clear Hid' Hh'.
  destruct (sy_at _ _ _ _ _ _ Hsy) as (s & Hs & _). pose proof (sy_key st _ _ Hs) as Hids.
  destruct (sy_fork _ _ _ _ _ _ Hsy) as (Ht & H0n & _).
  destruct (fetch_branch_spec (index st) root n h s Ht H0n) as (l1' & l2' & x1 & y1 & Hf' & _ & Hp2 & _);
    [by rewrite Hid|by rewrite Hids|].
  rewrite Hid, Hids, Hf in Hf'. injection Hf' as <- <-.
  destruct (path_last _ _ _ _ Hp2) as [l' Hl']. apply app_inj_tail in Hl' as [<- <-].
  pose proof (path_down _ _ _ _ (sy_key st) Hp2) as Hd. rewrite Hids in Hd.
  apply down_app in Hd as (z & Hd & Hdy). inversion Hdy as [|? sy ? ? Hsy0 Hd0 Hz]; subst.
  assert (Hsw : maybe_switch_forks conf sta st =
    (_ ← pop_branch conf (l2 ++ [y]); _ ← check_sync (l2 ++ [y]); switch_loop conf (reverse l1) [] (l2 ++ [y])) st).
  { unfold maybe_switch_forks. unfold mbind at 1, St_bind at 1. cbn [get]. rewrite Hfh.
    unfold mbind at 1, St_bind at 1.
    rewrite (head_obj_run st s) by (by rewrite (sy_head _ _ _ _ _ _ Hsy)). rewrite !decide_False by congruence.
    rewrite Hf. done. }
  rewrite Hsw. unfold mbind at 1, St_bind at 1. clear Hsw.
  destruct (pop_branch_run l2 st root n (id h) (id s) d (id y) Hsy Hd) as [(st1 & Hrun & Ha & Hsy1)|[st1 Hrun]];
    [eauto|..].
  2: { unfold pop_branch in *. rewrite (for_each_app_throw _ _ _ _ _ _ Hrun). eauto 10. }
  destruct (alike_lookup _ _ _ _ Ha Hsy0) as (s1 & Hs1 & E1 & _).
  assert (Hp1 : contents (index st1) !! prev s1 = None).
  { apply (alike_none _ _ _ Ha). inversion Hd0; subst. unfold prev in *. rewrite <- E1. congruence. }
  destruct (pop_bottom st1 root n (id h) (id y) _ y s1 Hsy1 eq_refl Hs1 Hp1) as (st2 & Hrun2 & Henv2 & Hc2).
  exists st2, block_validate_exception. split.
  - unfold pop_branch in *. rewrite (for_each_app_ok _ _ _ _ _ Hrun). cbn [for_each].
    unfold mbind at 1, St_bind at 1. by rewrite Hrun2.
  - right. rewrite Henv2, Hc2, (sy_head _ _ _ _ _ _ Hsy1), (sy_db _ _ _ _ _ _ Hsy1). split_and!; [done..| |].
    + etrans; [exact Ha|by apply alike_alter].
    + apply (bottom_unmarked _ _ s1 (sy_key st1)); [done..|]. exact (sy_flags _ _ _ _ _ _ Hsy1).
Qed.
End sync.

(** ** Claims *)

(** C1. Following the best block keeps the controller in step with its chain, when the
    fork point of the two branches is open ([fork_open]) and the blocks of the current
    chain are marked as validated. When [maybe_switch_forks] returns, the controller is
    at the best block of the fork database, and the chain database comes from executing
    the blocks that lead to it one after the other, with one undo session per open
    block. When it throws, then because a block [k] of the new branch throws when it is
    executed on the database that its predecessors give. Exactly [k] and its descendants
    have left the fork database, and the controller is in step again: at the old head
    [x], or at an ancestor of [x] when a block of the old branch throws while it is
    applied again as a validated block. When the blocks of the old branch give, executed
    as validated blocks, what they gave before, the head and the chain database, undo
    sessions included, are those before the call. Nothing is said after an exhausted
    shared memory, undefined behaviour or an [undo] that fails. *)
Theorem fork_switch_in_step `{Crypto} {I D : Type} `{FL : ForkIndexLaws I} `{X : Execution D}
    conf (st : fork_db I (ctl D)) root n hd x d sta :
  synced st root n hd x d -> all_valid (contents (index st)) x -> applying sta ->
  fork_open (index st) hd x ->
  let m := contents (index st) in
  exists st' r, maybe_switch_forks conf sta st = (st', r) /\
  match r with
  | Ok _ => exists d', synced st' root n hd hd d' /\ all_valid (contents (index st')) hd /\
      alike m (contents (index st'))
  | Throw e => fatal e = true \/ e = undo_error \/ exists k eb, bad_block m x d hd k eb /\
      exists hd' y d', lost m k (contents (index st')) /\ synced st' root n hd' y d' /\
        all_valid (contents (index st')) y /\ below m y x /\
        (y = x /\ e = captured eb \/ stuck m x y (db_cur d') e) /\
        (history (eq status_validated) m x (db_cur d) (db_snaps d) -> y = x /\ d' = d)
  end.
Proof. apply maybe_switch_run. Qed.

(** When the branches of the head and of the best block part at a block that is
    irreversible and has left the fork database, [maybe_switch_forks] fails halfway:
    it throws after it has popped the old branch down to its lowest open block, nothing
    is applied again, and no block is marked as current. *)
Theorem switch_past_fork_point `{Crypto} {I D : Type} `{FL : ForkIndexLaws I} `{X : Execution D}
    conf (st : fork_db I (ctl D)) root n hd x d sta h l1 l2 (y : block_state) :
  synced st root n hd x d -> contents (index st) !! hd = Some h -> prev h <> x -> hd <> x ->
  fetch_branch_from hd x (index st) = Ok (l1, l2 ++ [y]) -> contents (index st) !! prev y = None ->
  exists st' e, maybe_switch_forks conf sta st = (st', Throw e) /\ (e = undo_error \/
    e = block_validate_exception /\
    id (ct_head (env st')) = id y /\ ct_db (env st') = Nat.iter (length l2) db_outer d /\
    alike (contents (index st)) (contents (index st')) /\
    forall k t, contents (index st') !! k = Some t -> in_current_chain t = false).
Proof. apply switch_past_run. Qed.

(** ** Concrete forks *)
Module ForkSwitchSample.
Export RunSample.

(** The ancestors of a block, and whether they were all reached. *)
Fixpoint ancestors (fuel : nat) m (x : digest) : list digest :=
  match fuel with
  | O => []
  | S fuel => x :: match m !! x with Some s => ancestors fuel m (prev (bs_header s)) | None => [] end
  end.
Fixpoint reaches (fuel : nat) m (x : digest) : bool :=
  match fuel with
  | O => false
  | S fuel => match m !! x with Some s => reaches fuel m (prev (bs_header s)) | None => true end
  end.

Lemma ancestors_below fuel m k x : (forall x s, m !! x = Some s -> id s = x) ->
  reaches fuel m x = true -> below m k x <-> k ∈ ancestors fuel m x.
Proof.
  intros Hkey. revert x. induction fuel as [|fuel IH]; intros x; cbn [reaches ancestors]; [done|].
  rewrite elem_of_cons. destruct (m !! x) as [s|] eqn:Hs.
  - intros Hr. rewrite <- (IH (prev s) Hr). split.
    + intros Hb. by destruct (below_up m k x s Hkey Hs Hb); [left|right].
    + intros [->|Hb]; [constructor|by eapply below_down].
  - intros _. rewrite elem_of_nil. split.
    + intros Hb. inversion Hb; subst; [by left|congruence].
    + intros [->|[]]. constructor.
Qed.

Definition flags_check m (x : digest) : bool :=
  reaches (S (size m)) m x &&
  forallb (fun '(k, s) => Bool.eqb (in_current_chain s) (bool_decide (k ∈ ancestors (S (size m)) m x)))
    (map_to_list m).

Lemma flags_check_ok m x : (forall x s, m !! x = Some s -> id s = x) -> flags_check m x = true -> flags_at m x.
Proof.
  intros Hkey [Hr Hall]%andb_prop k s Hs. rewrite (ancestors_below (S (size m)) m k x Hkey Hr).
  rewrite forallb_forall in Hall.
  specialize (Hall (k, s) ltac:(by apply list_elem_of_In, elem_of_map_to_list)).
  cbn beta iota in Hall. apply Bool.eqb_prop in Hall. rewrite Hall. apply bool_decide_eq_true.
Qed.

Definition wf_check m : bool :=
  forallb (fun '(k, s) => bool_decide (header_id (sb_header (blk_header (bs_block s))) = k) &&
    bool_decide (previous (sb_header (blk_header (bs_block s))) = prev s)) (map_to_list m).

Lemma wf_check_ok m : wf_check m = true -> blocks_wf m.
Proof.
  unfold wf_check. rewrite forallb_forall. intros Hall k s Hs.
  specialize (Hall (k, s) ltac:(by apply list_elem_of_In, elem_of_map_to_list)). cbn beta iota in Hall.
  by apply andb_prop in Hall as [Ha%bool_decide_eq_true Hb%bool_decide_eq_true].
Qed.

(** The current chain b2, b3 and a longer branch b2, k3, k4, k5. *)
Definition v3 : block_state := set_validated b3.
Definition k3 : block_state := child b2 6.
Definition k4 : block_state := child k3 7.
Definition k5 : block_state := child k4 8.
Definition forked : fork_db index_type (ctl (list digest)) :=
  ctl_at [b2; v3; k3; k4; k5] k5 v3 (UndoDb [id b2; id b3] [[id b2]] 3) {[3 := bs_block b3]} [bs_block b2].

Lemma k3_irr_ok : irr_ok k3.
Proof. apply (child_irr_ok b2 k3 6 b2_irr_ok); by vm_compute. Qed.
Lemma k4_irr_ok : irr_ok k4.
Proof. apply (child_irr_ok k3 k4 7 k3_irr_ok); by vm_compute. Qed.
Lemma k5_irr_ok : irr_ok k5.
Proof. apply (child_irr_ok k4 k5 8 k4_irr_ok); by vm_compute. Qed.

Lemma forked_lookup k s : contents (index forked) !! k = Some s ->
  (s = b2 \/ s = v3 \/ s = k3 \/ s = k4 \/ s = k5) /\ k = id s.
Proof.
  intros Hs. split; [|symmetry; by eapply contents_key].
  apply (index_of_elem [b2; v3; k3; k4; k5]) in Hs. rewrite !elem_of_cons, elem_of_nil in Hs. tauto.
Qed.

(** Refute a hypothesis by computation. *)
Ltac absurd_by H := exfalso; clear - H; vm_compute in H; discriminate H.
Ltac forked_cases Hs := destruct Hs as [->|[->|[->|[->| ->]]]].

Lemma forked_flags : flags_at (contents (index forked)) (id v3).
Proof. apply flags_check_ok; [intros; by eapply contents_key|by vm_compute]. Qed.

Lemma b3_history m : m !! id v3 = Some v3 -> m !! prev v3 = Some b2 -> m !! prev b2 = None ->
  history applying m (id v3) [id b2; id b3] [[id b2]].
Proof.
  intros Hv3 Hb2 Hg. destruct (run_block status_validated b2 (bs_block v3) [id b2]) as [e|e] eqn:Er.
  - assert (match run_block status_validated b2 (bs_block v3) [id b2] with
      | Ok x => ex_db x | Throw _ => [] end = [id b2; id b3]) as Hd by (by vm_compute).
    rewrite Er in Hd. rewrite <- Hd.
    apply (hist_step _ _ (id v3) v3 b2 [id b2] [] status_validated e); [assumption..|by right|assumption|].
    apply (hist_bottom _ _ _ b2); assumption.
  - exfalso. assert (is_ok (run_block status_validated b2 (bs_block v3) [id b2]) = true) as Hok
      by (by vm_compute). by rewrite Er in Hok.
Qed.

Lemma forked_synced : synced forked (id g) 1 (id k5) (id v3) (UndoDb [id b2; id b3] [[id b2]] 3).
Proof.
  split.
  - split_and!; [apply tree_check_ok; by vm_compute|done|].
    intros k s [Hs _]%forked_lookup. forked_cases Hs;
      [apply b2_irr_ok|apply b3_irr_ok|apply k3_irr_ok|apply k4_irr_ok|apply k5_irr_ok].
  - apply wf_check_ok. by vm_compute.
  - exists k5. split_and!; [done..|]. apply (by_lib_best _ _ (tail (by_lib_block_num (index forked)))).
    by vm_compute.
  - done.
  - apply forked_flags.
  - done.
  - done.
  - done.
  - exists v3. split; by vm_compute.
  - apply b3_history; by vm_compute.
  - intros k [b Hb]. change (({[3 := bs_block b3]} : gmap Z signed_block) !! k = Some b) in Hb.
    by apply lookup_singleton_Some in Hb as [<- _].
  - intros k s Hb Hs Hn. apply (forked_flags k s Hs) in Hb. apply forked_lookup in Hs as [Hs ->].
    forked_cases Hs; [absurd_by Hn| |absurd_by Hb..].
    exists (bs_block b3). split; vm_compute; reflexivity.
  - exists (bs_block b2). split; [done|]. right. split; [by vm_compute|].
    intros k s [Hs ->]%forked_lookup Hn. forked_cases Hs; [vm_compute; reflexivity|absurd_by Hn..].
Qed.

Lemma forked_valid : all_valid (contents (index forked)) (id v3).
Proof.
  intros k s Hb Hs Hp. apply (forked_flags k s Hs) in Hb. apply forked_lookup in Hs as [Hs ->].
  forked_cases Hs; [|reflexivity|absurd_by Hb..]. destruct Hp as [p Hp]. absurd_by Hp.
Qed.

(** The current chain b2 and a longer branch f2, f3 that parts at the block g, which is
    irreversible and no longer open. *)
Definition genesis_block : signed_block := SignedBlock signed_header_default [] [].
Definition past : fork_db index_type (ctl (list digest)) :=
  ctl_at [b2; f2; f3] f3 b2 (UndoDb [id b2] [] 2) {[2 := bs_block b2]} [genesis_block].

Lemma f2_irr_ok : irr_ok f2.
Proof. apply (next_irr_ok g (block g 4 0 None) false f2 genesis_irr_ok); by vm_compute. Qed.
Lemma f3_irr_ok : irr_ok f3.
Proof. apply (child_irr_ok f2 f3 5 f2_irr_ok); by vm_compute. Qed.

Lemma past_lookup k s : contents (index past) !! k = Some s -> (s = b2 \/ s = f2 \/ s = f3) /\ k = id s.
Proof.
  intros Hs. split; [|symmetry; by eapply contents_key].
  apply (index_of_elem [b2; f2; f3]) in Hs. rewrite !elem_of_cons, elem_of_nil in Hs. tauto.
Qed.

Lemma past_flags : flags_at (contents (index past)) (id b2).
Proof. apply flags_check_ok; [intros; by eapply contents_key|by vm_compute]. Qed.

Lemma past_synced : synced past (id g) 1 (id f3) (id b2) (UndoDb [id b2] [] 2).
Proof.
  split.
  - split_and!; [apply tree_check_ok; by vm_compute|done|].
    intros k s [[->|[->| ->]] _]%past_lookup; [apply b2_irr_ok|apply f2_irr_ok|apply f3_irr_ok].
  - apply wf_check_ok. by vm_compute.
  - exists f3. split_and!; [done..|]. apply (by_lib_best _ _ (tail (by_lib_block_num (index past)))).
    by vm_compute.
  - done.
  - apply past_flags.
  - done.
  - done.
  - done.
  - exists b2. split; by vm_compute.
  - apply (hist_bottom _ _ _ b2); by vm_compute.
  - intros k [b Hb]. change (({[2 := bs_block b2]} : gmap Z signed_block) !! k = Some b) in Hb.
    by apply lookup_singleton_Some in Hb as [<- _].
  - intros k s Hb Hs Hn. apply (past_flags k s Hs) in Hb. apply past_lookup in Hs as [[->|[->| ->]] ->];
      [|absurd_by Hb..]. exists (bs_block b2). split; vm_compute; reflexivity.
  - exists genesis_block. split; [done|]. left. split; by vm_compute.
Qed.
End ForkSwitchSample.
Import ForkSwitchSample.

Lemma fork_switch_in_step_witness : exists st' d',
  maybe_switch_forks node status_complete forked = (st', Ok tt) /\ synced st' (id g) 1 (id k5) (id k5) d' /\ ct_db (env st') = UndoDb [id b2; id k3; id k4; id k5]
    [[id b2; id k3; id k4]; [id b2; id k3]; [id b2]] 5.
Proof.
  destruct (fork_switch_in_step node forked (id g) 1 (id k5) (id v3) (UndoDb [id b2; id b3] [[id b2]] 3) status_complete)
    as (st' & r & Hrun & Hr).
  - apply forked_synced.
  - apply forked_valid.
  - by left.
  - intros s l1 l2 y _ _ _ Hf Hy.
    assert (fetch_branch_from (id k5) (id v3) (index forked) = Ok ([k5; k4; k3], [v3])) as Hb by (by vm_compute).
    rewrite Hb in Hf. injection Hf as <- <-. injection Hy as <-. exists b2. by vm_compute.
  - assert (Hok : is_ok (maybe_switch_forks node status_complete forked).2 = true) by (by vm_compute).
    assert (Hdb : ct_db (env (maybe_switch_forks node status_complete forked).1) =
      UndoDb [id b2; id k3; id k4; id k5]
    [[id b2; id k3; id k4]; [id b2; id k3]; [id b2]] 5) by (by vm_compute).
    rewrite Hrun in Hok, Hdb. destruct r as [[]|e]; [|done]. destruct Hr as (d' & Hs & _).
    exists st', d'. exact (conj Hrun (conj Hs Hdb)).
Defined.

Lemma switch_past_fork_point_witness : exists st',
  maybe_switch_forks node status_complete past = (st', Throw block_validate_exception) /\
  id (ct_head (env st')) = id b2 /\
  forall k t, contents (index st') !! k = Some t -> in_current_chain t = false.
Proof.
  destruct (switch_past_fork_point node past (id g) 1 (id f3) (id b2) (UndoDb [id b2] [] 2) status_complete
    f3 [f3; f2] [] b2 past_synced) as (st' & e & Hrun & Hcase).
  - by vm_compute.
  - intros Heq. absurd_by Heq.
  - intros Heq. absurd_by Heq.
  - by vm_compute.
  - by vm_compute.
  - assert (He : match (maybe_switch_forks node status_complete past).2 with
      | Throw undo_error => false | _ => true end = true) by (by vm_compute).
    rewrite Hrun in He. destruct Hcase as [->|(-> & Hhead & _ & _ & Hno)]; [done|].
    exists st'. exact (conj Hrun (conj Hhead Hno)).
Defined.
