(* ===== verification/PushBlock.v ===== *)
(** * Pushing blocks

    [push_block] adds a block to the fork database, which may announce an irreversible
    block to the controller, and then follows the best block. The state of the
    controller stays in step with the chain ([synced] of [ForkSwitch]) through all of
    it. *)
From S2P Require Import Prelude Merkle BlockHeaderState ForkDatabase BlockApply BlockRun ForkSwitch.

Implicit Types (m : gmap digest block_state) (s t p h a c : block_state).

Section push.
Context `{Crypto} {I D : Type} `{FL : ForkIndexLaws I} `{X : Execution D}.
Context (conf : controller_config).
Implicit Types (st : fork_db I (ctl D)) (i : I) (d : undo_db D).

(** ** Irreversible blocks *)

(** What [on_irreversible] does, and when it returns. *)
Definition irreversible_ctl s (ct : ctl D) : ctl D :=
  let ct' := set_db (db_commit (block_num s) (ct_db ct)) ct in
  if block_num s <=? log_num (ct_log ct) then ct' else
  set_reversible (filter (fun '(num, _) => block_num s < num) (ct_reversible ct))
    (set_log (ct_log ct ++ [bs_block s]) ct').

Definition irreversible_ready s (ct : ctl D) : Prop := exists lh, last (ct_log ct) = Some lh /\
  (block_num s <= log_block_num lh \/
   u32 (block_num s - 1) = log_block_num lh /\
   previous (sb_header (blk_header (bs_block s))) = header_id (sb_header (blk_header lh))).

Lemma on_irreversible_run s st : read_mode conf <> IRREVERSIBLE -> irreversible_ready s (env st) ->
  on_irreversible conf s st = (ForkDb (index st) (fdb_head st) (irreversible_ctl s (env st)), Ok tt).
Proof.
  intros Hmode (lh & Hlh & Hok). unfold on_irreversible, irreversible_ctl, log_num, mod_ctl. run_st.
  rewrite Hlh. cbn [from_option]. destruct (block_num s <=? log_block_num lh) eqn:El; [done|].
  bool_to_prop. destruct Hok as [?|[Hn Hp]]; [lia|].
  rewrite Hn, Z.eqb_refl, bool_decide_true by done. by rewrite bool_decide_false.
Qed.

(** ** A new leaf *)
Section leaf.
Context m (s : block_state).
Hypothesis fresh : m !! id s = None.
Hypothesis leaf : forall k t, m !! k = Some t -> prev t <> id s.
Hypothesis key : forall k t, m !! k = Some t -> id t = k.

Lemma leaf_lookup k : k <> id s -> <[id s := s]> m !! k = m !! k.
Proof. intros Hk. by rewrite lookup_insert_ne. Qed.

Lemma leaf_below k x : x <> id s -> below (<[id s := s]> m) k x <-> below m k x.
Proof.
  intros Hx. split.
  - intros Hb. induction Hb as [|t Ht Hb IH]; [constructor|].
    rewrite lookup_insert_ne in Ht by done. constructor; [done|]. by apply IH, (leaf (id t)).
  - apply below_mono. by apply insert_subseteq.
Qed.

Lemma leaf_not_below x : x <> id s -> ~ below m (id s) x.
Proof. intros Hx Hb. induction Hb as [|t Ht Hb IH]; [done|]. by apply IH, (leaf (id t)). Qed.

Lemma leaf_history P x (d : D) ds : x <> id s -> history P m x d ds -> history P (<[id s := s]> m) x d ds.
Proof.
  intros Hx Hh. induction Hh as [x t d ds Ht Hp|x t p d ds sta e Ht Hp Hsta Hr Hh IH].
  - apply hist_bottom with t; rewrite leaf_lookup; try done. by apply (leaf x).
  - apply hist_step with t p sta; rewrite ?leaf_lookup; try done; [by apply (leaf x)|].
    apply IH. by apply (leaf x).
Qed.
End leaf.

(** A block that the fork database accepted is linked to its parent. *)
Lemma new_block_wf p b trust s : block_state_of_block p b trust = Ok s ->
  header_id (sb_header (blk_header (bs_block s))) = id s /\
  previous (sb_header (blk_header (bs_block s))) = prev s /\ prev s = id p.
Proof.
  unfold block_state_of_block. intros Hs. bind_ok Hs as (r & Hn & [= <-]).
  destruct (next_linked _ _ _ _ Hn) as (pk & Hl). unfold prev. cbn [bs_header bs_block].
  rewrite (ln_id _ _ _ _ Hl), (ln_header _ _ _ _ Hl). split_and!; [done|done|].
  rewrite <- (ln_header _ _ _ _ Hl). apply Hl.
Qed.

(** [x] has the ancestors and the history with [d'] that it had with [d]. *)
Definition same_chain m m' (x : digest) d d' : Prop :=
  (forall y, below m' y x -> below m y x) /\
  forall P, history P m x (db_cur d) (db_snaps d) -> history P m' x (db_cur d') (db_snaps d').

Lemma insert_synced st root n hd x d s p i1 h :
  synced st root n hd x d -> all_valid (contents (index st)) x ->
  contents (index st) !! id s = None -> in_current_chain s = false ->
  fdb_ok (<[id s := s]> (contents (index st))) root n ->
  contents (index st) !! id p = Some p -> prev s = id p ->
  header_id (sb_header (blk_header (bs_block s))) = id s ->
  previous (sb_header (blk_header (bs_block s))) = prev s ->
  contents i1 = <[id s := s]> (contents (index st)) -> best_head i1 h ->
  synced (ForkDb i1 (Some h) (env st)) root n (id h) x d /\ all_valid (contents i1) x /\
  same_chain (contents (index st)) (contents i1) x d d.
Proof.
  intros Hsy Hv Hfresh Hcur Hok Hp Hpr Hid Hprev Hi1 Hbest.
  destruct (sy_fork _ _ _ _ _ _ Hsy) as (Ht & _). destruct Hok as (Ht' & H0n & Hirr).
  assert (Hs' : <[id s := s]> (contents (index st)) !! id s = Some s) by apply lookup_insert_eq.
  assert (Hleaf : forall k t, contents (index st) !! k = Some t -> prev t <> id s).
  { intros k t Hk Heq. pose proof (to_above _ _ _ Ht _ _ Hk).
    destruct (decide (block_num t = n + 1)) as [Hn|Hn].
    - rewrite (to_first _ _ _ Ht _ _ Hk Hn) in Heq. pose proof (to_above _ _ _ Ht' _ _ Hs') as Hab.
      rewrite <- (to_id _ _ _ Ht' _ _ Hs'), <- Heq, (to_root_num _ _ _ Ht) in Hab. lia.
    - destruct (to_parent _ _ _ Ht _ _ Hk) as (q & Hq & _); [lia|]. congruence. }
  destruct (sy_at _ _ _ _ _ _ Hsy) as (sx & Hsx & Hrev).
  assert (x <> id s) as Hx by congruence.
  pose proof (fun k => leaf_below _ s Hfresh Hleaf k x Hx) as Hbelow.
  assert (Hlook : forall k t, contents i1 !! k = Some t -> k = id s /\ t = s \/
    k <> id s /\ contents (index st) !! k = Some t).
  { intros k t. rewrite Hi1, lookup_insert_Some. naive_solver. }
  pose proof (leaf_not_below _ s Hleaf x Hx) as Hnb.
  split; [split|split]; cbn [index fdb_head env]; try apply Hsy.
  - rewrite Hi1. by split_and!.
  - intros k t [[-> ->]|[Hk Ht0]]%Hlook; [done|]. by apply (sy_wf _ _ _ _ _ _ Hsy).
  - by exists h.
  - intros k t. rewrite Hi1, Hbelow, <- Hi1. intros [[-> ->]|[Hk Ht0]]%Hlook; [|by apply (sy_flags _ _ _ _ _ _ Hsy)].
    rewrite Hcur. done.
  - exists sx. by rewrite Hi1, lookup_insert_ne.
  - rewrite Hi1. apply leaf_history; [done..|apply Hsy].
  - intros k t. rewrite Hi1, Hbelow, <- Hi1. intros Hb [[-> ->]|[Hk Ht0]]%Hlook; [done|].
    by apply (sy_stored _ _ _ _ _ _ Hsy).
  - destruct (sy_log _ _ _ _ _ _ Hsy) as (lh & Hlh & Hc). exists lh. split; [done|].
    destruct Hc as [?|[? Hk]]; [by left|right]. split; [done|].
    intros k t [[-> ->]|[_ Ht0]]%Hlook Hn; [|by eapply Hk].
    pose proof (to_above _ _ _ Ht _ _ Hp).
    pose proof (tree_ok_levels _ _ _ Ht' _ _ p Hs') as Hlt. rewrite Hpr in Hlt.
    rewrite lookup_insert_ne in Hlt by congruence. specialize (Hlt Hp). lia.
  - intros k t. rewrite Hi1, Hbelow, <- Hi1. intros Hb [[-> ->]|[Hk Ht0]]%Hlook; [done|].
    intros [q [[Hq _]|[_ Hq]]%Hlook]; [by eapply Hleaf in Hq|]. eapply Hv; eauto.
  - rewrite Hi1. split; [intros y; apply Hbelow|]. intros P Hh. by apply leaf_history.
Qed.

(** ** The irreversible part of the current chain *)
Lemma below_total m k1 k2 x : (forall k t, m !! k = Some t -> id t = k) ->
  below m k1 x -> below m k2 x -> below m k1 k2 \/ below m k2 k1.
Proof.
  intros Hkey Hb1. induction Hb1 as [|t Ht Hb1 IH]; intros Hb2; [by right|].
  destruct (below_up m k2 (id t) t Hkey Ht Hb2) as [->|Hb2']; [left; by constructor|by apply IH].
Qed.

Lemma below_unique m k1 k2 s1 s2 x : levels m -> (forall k t, m !! k = Some t -> id t = k) ->
  m !! k1 = Some s1 -> m !! k2 = Some s2 -> block_num s1 = block_num s2 ->
  below m k1 x -> below m k2 x -> k1 = k2.
Proof.
  intros Hl Hkey Hk1 Hk2 Hn Hb1 Hb2. destruct (below_total m k1 k2 x Hkey Hb1 Hb2) as [Hb|Hb].
  - destruct (below_num m k1 s1 k2 s2 Hl Hkey Hk1 Hb Hk2); [done|lia].
  - destruct (below_num m k2 s2 k1 s1 Hl Hkey Hk2 Hb Hk1); [done|lia].
Qed.

Lemma ancestor_at m root n x s j : tree_ok m root n -> (forall k t, m !! k = Some t -> id t = k) ->
  m !! x = Some s -> n < j <= block_num s ->
  exists k t, below m k x /\ m !! k = Some t /\ block_num t = j.
Proof.
  intros Ht Hkey. remember (Z.to_nat (block_num s - j)) as w eqn:Hw. revert x s Hw.
  induction w as [|w IH]; intros x s Hw Hs Hj.
  - exists x, s. split_and!; [constructor|done|lia].
  - destruct (to_parent _ _ _ Ht _ _ Hs) as (p & Hp & Hpn); [lia|].
    destruct (IH (prev s) p) as (k & t & Hb & Hk & Hn); [lia|done|lia|].
    exists k, t. split_and!; [|done..]. by eapply below_down.
Qed.

(** When the head is two levels above the last irreversible block, the current chain
    has a spine. *)
Lemma synced_spine st root n hd x d : synced st root n hd x d -> n + 2 <= db_rev d ->
  exists a c, spine (contents (index st)) n a c /\ below (contents (index st)) (id c) x.
Proof.
  intros Hsy Hn. destruct (sy_fork _ _ _ _ _ _ Hsy) as (Ht & _). pose proof (tree_ok_levels _ _ _ Ht) as Hlev.
  destruct (sy_at _ _ _ _ _ _ Hsy) as (s & Hs & Hrev).
  destruct (ancestor_at _ _ _ _ _ (n + 2) Ht (sy_key st) Hs) as (k & c & Hb & Hk & Hcn); [lia|].
  destruct (to_parent _ _ _ Ht _ _ Hk) as (a & Ha & Han); [lia|].
  pose proof (sy_key st _ _ Hk) as Hkc. pose proof (sy_key st _ _ Ha) as Hka. subst k.
  assert (below (contents (index st)) (id a) x) as Hba.
  { eapply below_trans; [|exact Hb]. eapply below_down; [apply sy_key|done|]. rewrite <- Hka. constructor. }
  exists a, c. split; [|done]. split; try done; try lia.
  - by rewrite Hka.
  - apply (sy_flags _ _ _ _ _ _ Hsy (id a)); [by rewrite Hka|done].
  - by apply (sy_flags _ _ _ _ _ _ Hsy (id c)).
  - intros s1 s2 H1' H2' Hc1 Hc2 Hnum. apply (sy_flags _ _ _ _ _ _ Hsy _ _ H1') in Hc1.
    apply (sy_flags _ _ _ _ _ _ Hsy _ _ H2') in Hc2.
    pose proof (below_unique _ _ _ _ _ _ Hlev (sy_key st) H1' H2' Hnum Hc1 Hc2). congruence.
Qed.

Lemma synced_ready st root n hd x d a : synced st root n hd x d -> contents (index st) !! id a = Some a ->
  block_num a = n + 1 -> irreversible_ready a (env st).
Proof.
  intros Hsy Ha Hn. destruct (sy_fork _ _ _ _ _ _ Hsy) as (Ht & H0n & _).
  destruct (sy_log _ _ _ _ _ _ Hsy) as (lh & Hlh & Hc). exists lh. split; [done|].
  destruct Hc as [[Hl Hid]|[Hl _]]; [right|left; lia].
  destruct (sy_wf _ _ _ _ _ _ Hsy _ _ Ha) as (_ & ->).
  rewrite (to_first _ _ _ Ht _ _ Ha Hn). split; [|done].
  pose proof (to_root_num _ _ _ Ht) as Hr. unfold num_from_id in Hr.
  pose proof (endian_reverse_u32_range (u32 (hash0 root)) (u32_range _)).
  rewrite u32_small; lia.
Qed.

Section prune.
Context m (root : digest) (n : Z) (a : block_state) (x : digest) m'.
Hypothesis tree : tree_ok m root n.
Hypothesis key : forall k t, m !! k = Some t -> id t = k.
Hypothesis Ha : m !! id a = Some a.
Hypothesis Han : block_num a = n + 1.
Hypothesis Hax : below m (id a) x.
Hypothesis Hpr : pruned m n a m'.

Lemma pruned_inv k t : m' !! k = Some t -> m !! k = Some t /\ n + 2 <= block_num t.
Proof.
  intros [[Hne Hk]%lookup_delete_Some Hb]%Hpr. split; [done|].
  pose proof (to_above _ _ _ tree _ _ Hk). destruct (decide (block_num t = n + 1)) as [Hn|]; [|lia].
  exfalso. pose proof (key _ _ Hk). subst k. apply (Hb t); [by rewrite lookup_delete_ne|done|constructor].
Qed.

Lemma pruned_chain k t : below m k x -> m !! k = Some t -> n + 2 <= block_num t -> m' !! k = Some t.
Proof.
  intros Hkx Hk Hn. apply Hpr. split.
  - apply lookup_delete_Some. split; [|done]. intros <-. simplify_eq. lia.
  - intros b [Hne Hb]%lookup_delete_Some Hbn Hbk. apply Hne.
    apply (below_unique m (id a) (id b) a b x); try done.
    + by eapply tree_ok_levels.
    + lia.
    + eapply below_trans; [|done]. eapply below_mono; [apply delete_subseteq|done].
Qed.

Lemma pruned_below k t : m' !! k = Some t -> below m' k x <-> below m k x.
Proof.
  intros [Hk Hn]%pruned_inv. split.
  - apply below_mono, map_subseteq_spec. intros j v [? _]%pruned_inv. done.
  - assert (forall y, below m k y -> below m y x -> below m' k y) as Hgen; [|intros; apply Hgen; [done|constructor]].
    intros y Hb. induction Hb as [|v Hv Hb IH]; intros Hyx; [constructor|].
    assert (block_num t <= block_num v).
    { destruct (below_num m k t (id v) v (tree_ok_levels _ _ _ tree) key Hk) as [Heq|?]; [by constructor|done| |lia].
      rewrite Heq in Hv. simplify_eq. lia. }
    constructor; [apply pruned_chain; [done..|lia]|]. apply IH.
    eapply below_trans; [|exact Hyx]. eapply below_down; [done|exact Hv|constructor].
Qed.

Lemma pruned_history P y t (d : D) ds : below m y x -> m !! y = Some t -> n + 2 <= block_num t ->
  history P m y d ds -> history P m' y d (take (Z.to_nat (block_num t - (n + 1))) ds).
Proof.
  intros Hy Ht Hn Hh. revert t Hy Ht Hn. induction Hh as [y s d ds Hs Hp|y s p d ds sta e Hs Hp Hsta Hr Hh IH]; intros t Hy Ht Hn.
  - destruct (to_parent _ _ _ tree _ _ Ht) as (p & Hp' & _); [lia|]. simplify_eq.
  - assert (s = t) as -> by congruence.
    destruct (to_parent _ _ _ tree _ _ Ht) as (p' & Hp' & Hpn); [lia|]. assert (p' = p) as -> by congruence.
    assert (below m (prev t) x) as Hpx.
    { eapply below_trans; [|exact Hy]. eapply below_down; [done|exact Ht|constructor]. }
    pose proof (pruned_chain _ _ Hy Ht Hn) as Ht'.
    destruct (decide (n + 2 <= block_num p)) as [Hge|Hlt].
    + replace (Z.to_nat (block_num t - (n + 1))) with (S (Z.to_nat (block_num p - (n + 1)))) by lia.
      cbn [take]. apply hist_step with t p sta; [done|by apply pruned_chain|done..|by apply IH].
    + apply hist_bottom with t; [done|]. destruct (m' !! prev t) as [q|] eqn:Eq; [|done].
      apply pruned_inv in Eq as [Hq ?]. simplify_eq. lia.
Qed.
End prune.

(** What [on_irreversible] keeps. *)
Lemma irreversible_fields a (ct : ctl D) :
  ct_head (irreversible_ctl a ct) = ct_head ct /\ ct_pending (irreversible_ctl a ct) = ct_pending ct /\
  ct_replaying (irreversible_ctl a ct) = ct_replaying ct /\
  ct_db (irreversible_ctl a ct) = db_commit (block_num a) (ct_db ct).
Proof. unfold irreversible_ctl. by destruct (_ <=? _). Qed.

Lemma irreversible_rows a (ct : ctl D) k b : ct_reversible (irreversible_ctl a ct) !! k = Some b ->
  ct_reversible ct !! k = Some b.
Proof.
  unfold irreversible_ctl. destruct (_ <=? _); [done|]. cbn. by intros [? _]%map_lookup_filter_Some.
Qed.
Lemma irreversible_rows_above a (ct : ctl D) k b : ct_reversible ct !! k = Some b -> block_num a < k ->
  ct_reversible (irreversible_ctl a ct) !! k = Some b.
Proof.
  intros Hk Hlt. unfold irreversible_ctl. destruct (_ <=? _); [done|]. cbn.
  by apply map_lookup_filter_Some.
Qed.

(** The log ends with the announced block. *)
Lemma irreversible_log st root n hd x d a m' : synced st root n hd x d ->
  contents (index st) !! id a = Some a -> block_num a = n + 1 ->
  log_ok m' (id a) (n + 1) (ct_log (irreversible_ctl a (env st))) /\
  log_num (ct_log (irreversible_ctl a (env st))) = n + 1.
Proof.
  intros Hsy Ha Han. destruct (sy_fork _ _ _ _ _ _ Hsy) as (Ht & H0n & _).
  destruct (sy_wf _ _ _ _ _ _ Hsy _ _ Ha) as (Haid & Haprev).
  rewrite (to_first _ _ _ Ht _ _ Ha Han) in Haprev.
  destruct (sy_log _ _ _ _ _ _ Hsy) as (lh & Hlh & Hc). unfold irreversible_ctl, log_num, log_ok.
  rewrite Hlh. cbn [from_option]. destruct Hc as [[Hl Hid]|[Hl Hk]].
  - rewrite Hl, (proj2 (Z.leb_gt _ _)) by lia. cbn [ct_log set_reversible set_log]. rewrite last_snoc.
    assert (log_block_num (bs_block a) = n + 1) as Hab.
    { unfold log_block_num, header_block_num. rewrite Haprev, (to_root_num _ _ _ Ht).
      rewrite <- (to_id _ _ _ Ht _ _ Ha) in Han. rewrite u32_small; [done|].
      unfold num_from_id in Han. pose proof (endian_reverse_u32_range (u32 (hash0 (id a))) (u32_range _)). lia. }
    split; [|done]. exists (bs_block a). split; [done|]. by left.
  - rewrite Hl, Han, Z.leb_refl. cbn [ct_log set_db]. rewrite Hlh. split; [|done]. exists lh.
    split; [done|]. left. split; [done|]. symmetry. by apply (Hk _ a).
Qed.

Lemma prune_synced st root n hd x d a c i' h :
  synced st root n hd x d -> all_valid (contents (index st)) x ->
  spine (contents (index st)) n a c -> n + 2 <= db_rev d ->
  pruned (contents (index st)) n a (contents i') -> fdb_ok (contents i') (id a) (n + 1) -> best_head i' h ->
  synced (ForkDb i' (Some h) (irreversible_ctl a (env st))) (id a) (n + 1) (id h) x (db_commit (n + 1) d) /\
  all_valid (contents i') x /\ same_chain (contents (index st)) (contents i') x d (db_commit (n + 1) d).
Proof.
  intros Hsy Hv Hsp Hdeep Hpr Hok Hbest. destruct (sy_fork _ _ _ _ _ _ Hsy) as (Ht & H0n & _).
  pose proof (sp_a _ _ _ _ Hsp) as Ha. pose proof (sp_anum _ _ _ _ Hsp) as Han.
  assert (below (contents (index st)) (id a) x) as Hax
    by (apply (sy_flags _ _ _ _ _ _ Hsy (id a) a Ha); apply Hsp).
  destruct (sy_at _ _ _ _ _ _ Hsy) as (s & Hs & Hrev).
  pose proof (pruned_inv _ _ _ _ _ Ht (sy_key st) Hpr) as Hinv.
  pose proof (pruned_chain _ _ _ _ _ _ Ht (sy_key st) Ha Han Hax Hpr) as Hchain.
  pose proof (pruned_below _ _ _ _ _ _ Ht (sy_key st) Ha Han Hax Hpr) as Hbelow.
  destruct (irreversible_log st root n hd x d a (contents i') Hsy Ha Han) as [Hlog Hlnum].
  destruct (irreversible_fields a (env st)) as (Hrh & Hrp & Hrr & Hrd).
  assert (Hhist : forall P, history P (contents (index st)) x (db_cur d) (db_snaps d) ->
    history P (contents i') x (db_cur (db_commit (n + 1) d)) (db_snaps (db_commit (n + 1) d))).
  { intros P. cbn [db_cur db_snaps db_commit]. rewrite Hrev.
    eapply pruned_history; [exact Ht|apply sy_key|exact Ha|done|exact Hax|exact Hpr|constructor|done|lia]. }
  split; [split|split]; cbn [index fdb_head env]; rewrite ?Hrh, ?Hrp, ?Hrr, ?Hrd; try apply Hsy; try done.
  - intros k t [Hk _]%Hinv. exact (sy_wf _ _ _ _ _ _ Hsy k t Hk).
  - by exists h.
  - intros k t Hk. rewrite (Hbelow _ _ Hk). by apply (sy_flags _ _ _ _ _ _ Hsy), Hinv.
  - by rewrite Han, (sy_db _ _ _ _ _ _ Hsy).
  - exists s. split; [|done]. apply Hchain; [constructor|done|lia].
  - apply Hhist, Hsy.
  - intros k [b Hb%irreversible_rows]. apply (sy_rmax _ _ _ _ _ _ Hsy). eauto.
  - intros k t Hb Hk Hlt. rewrite Hlnum in Hlt. rewrite (Hbelow _ _ Hk) in Hb. apply Hinv in Hk as [Hk _].
    destruct (sy_stored _ _ _ _ _ _ Hsy k t Hb Hk) as (b & Hb1 & Hb2).
    { destruct (sy_log _ _ _ _ _ _ Hsy) as (lh & Hlh & Hc). unfold log_num. rewrite Hlh. cbn. lia. }
    exists b. split; [|done]. apply irreversible_rows_above; [done|lia].
  - intros k t Hb Hk [p [Hp _]%Hinv]. rewrite (Hbelow _ _ Hk) in Hb. apply Hinv in Hk as [Hk _]. eapply Hv; eauto.
  - split; [|done]. intros y. apply below_mono, map_subseteq_spec. by intros j v [? _]%Hinv.
Qed.

(** ** Adding a block to the fork database *)

(** The controller is at block [x] with the database [d] and some irreversible
    block. *)
Definition in_step st (hd x : digest) d : Prop :=
  exists root n, synced st root n hd x d /\ all_valid (contents (index st)) x.

Lemma add_in_step st root n hd x d b trust p s :
  (forall y, 0 <= hash0 (hash_header y) < 2 ^ 64) -> read_mode conf <> IRREVERSIBLE ->
  synced st root n hd x d -> all_valid (contents (index st)) x ->
  contents (index st) !! header_id (sb_header (blk_header b)) = None ->
  contents (index st) !! previous (sb_header (blk_header b)) = Some p ->
  block_num p + 1 < 2 ^ 32 -> block_state_of_block p b trust = Ok s ->
  ((exists k t, <[id s := s]> (contents (index st)) !! k = Some t /\
      n + 1 < dpos_irreversible_blocknum t) -> n + 2 <= db_rev d) ->
  exists st1 hd1 d1, add_block (on_irreversible conf) (Some b) trust st = (st1, Ok s) /\
    in_step st1 hd1 x d1 /\ db_cur d1 = db_cur d /\
    same_chain (contents (index st)) (contents (index st1)) x d d1.
Proof.
  intros Hh Hmode Hsy Hv Hf Hp Hlt Hs Hdeep.
  destruct (sy_best _ _ _ _ _ _ Hsy) as (h0 & Hh0 & _).
  destruct (add_block_spec (on_irreversible conf) irreversible_ctl irreversible_ready
    (fun s st => on_irreversible_run s st Hmode) st b trust p s root n Hh (sy_fork _ _ _ _ _ _ Hsy))
    as (Hfresh & Hcur & Hok & i' & h & e' & Hrun & Hbest & Hcase); try done.
  { intros Hex. destruct (synced_spine _ _ _ _ _ _ Hsy (Hdeep Hex)) as (a & c & Hsp & _). exists a, c.
    split; [done|]. apply (synced_ready _ _ _ _ _ _ a Hsy); apply Hsp. }
  destruct (new_block_wf p b trust s Hs) as (Hid & Hprev & Hpr).
  rewrite <- (sy_key st _ _ Hp) in Hp.
  destruct Hcase as [(-> & Hi' & _)|(a & c & -> & _ & Hsp & Hprn & Hok')].
  - destruct (insert_synced st root n hd x d s p i' h) as (Hsy1 & Hv1 & Hsame); try done.
    exists (ForkDb i' (Some h) (env st)), (id h), d. split_and!; [done|by exists root, n|done..].
  - destruct (insert_fresh (index st) s Hfresh) as (i1 & _ & Hi1).
    assert (contents i1 !! id s = Some s) as Hin by (rewrite Hi1; apply lookup_insert_eq).
    pose proof (proj2 (by_lib_elem i1 s) Hin) as Hl.
    destruct (by_lib_block_num i1) as [|h1 l1] eqn:El; [by apply elem_of_nil in Hl|].
    destruct (insert_synced st root n hd x d s p i1 h1) as (Hsy1 & Hv1 & Hb1 & Hh1); try done; [by eapply by_lib_best|].
    pose proof (spine_insert _ _ _ _ _ Hsp Hfresh Hcur) as Hsp1. rewrite <- Hi1 in Hsp1, Hprn.
    destruct (prune_synced _ _ _ _ _ _ a c i' h Hsy1 Hv1 Hsp1) as (Hsy2 & Hv2 & Hb2 & Hh2); try done.
    + destruct (sy_at _ _ _ _ _ _ Hsy) as (sx & Hsx & ->). destruct (sy_fork _ _ _ _ _ _ Hsy) as (Ht & _).
      pose proof (proj1 (sy_flags _ _ _ _ _ _ Hsy _ c (sp_c _ _ _ _ Hsp)) (sp_ccur _ _ _ _ Hsp)) as Hcx.
      rewrite <- (sp_cnum _ _ _ _ Hsp).
      destruct (below_num _ _ _ _ _ (tree_ok_levels _ _ _ Ht) (sy_key st) (sp_c _ _ _ _ Hsp) Hcx Hsx)
        as [->|?]; [|lia]. rewrite (sp_c _ _ _ _ Hsp) in Hsx. by simplify_eq.
    + exists (ForkDb i' (Some h) (irreversible_ctl a (env st))), (id h), (db_commit (n + 1) d).
      split_and!; [done|by exists (id a), (n + 1)|done|]. split.
      * intros y Hy. by apply Hb1, Hb2.
      * intros P HP. by apply Hh2, Hh1.
Qed.

(** A block that is known, that has no parent or that its parent rejects changes
    nothing. *)
Lemma add_block_cases st b trust :
  is_Some (fdb_head st) ->
  (exists p s, contents (index st) !! header_id (sb_header (blk_header b)) = None /\
     contents (index st) !! previous (sb_header (blk_header b)) = Some p /\
     block_state_of_block p b trust = Ok s) \/
  (exists e, add_block (on_irreversible conf) (Some b) trust st = (st, Throw e)).
Proof.
  intros Hh. unfold add_block. run_st. rewrite bool_decide_true by done. run_st.
  case_bool_decide as Hf; run_st; [|right; by eexists].
  destruct (contents (index st) !! previous _) as [p|] eqn:Hp; [|right; by eexists].
  destruct (block_state_of_block p b trust) as [s|e] eqn:Hs; [|right; by eexists].
  left. by exists p, s.
Qed.

(** The result of pushing a block: the controller is at a best block of the fork
    database, or where it was, or at a block below because one in between does not
    execute again. *)
Definition pushed m x d st' (r : result unit) : Prop :=
  match r with
  | Ok _ => exists hd' d', in_step st' hd' hd' d'
  | Throw e => fatal e = true \/ e = undo_exception \/ exists hd' y d', in_step st' hd' y d' /\ below m y x /\
      (history (eq status_validated) m x (db_cur d) (db_snaps d) -> y = x /\ db_cur d' = db_cur d)
  end.

Lemma push_block_run st root n hd x d b sta :
  (forall y, 0 <= hash0 (hash_header y) < 2 ^ 64) -> read_mode conf <> IRREVERSIBLE -> applying sta ->
  synced st root n hd x d -> all_valid (contents (index st)) x ->
  (forall k p, contents (index st) !! k = Some p -> block_num p + 1 < 2 ^ 32) ->
  (forall p s, contents (index st) !! previous (sb_header (blk_header b)) = Some p ->
     block_state_of_block p b (trusted conf sta) = Ok s ->
     (exists k t, <[id s := s]> (contents (index st)) !! k = Some t /\
        n + 1 < dpos_irreversible_blocknum t) -> n + 2 <= db_rev d) ->
  (forall st1 s h, add_block (on_irreversible conf) (Some b) (trusted conf sta) st = (st1, Ok s) ->
     fdb_head st1 = Some h -> fork_open (index st1) (id h) x) ->
  exists st' r, push_block conf (Some b) sta st = (st', r) /\ pushed (contents (index st)) x d st' r.
Proof.
  intros Hh Hmode Hsta Hsy Hv Hnum Hdeep Hopen.
  unfold push_block. run_st. rewrite bool_decide_true by apply Hsy. unfold capture_and_rethrow. run_st.
  assert (negb (bool_decide (sta = status_incomplete)) = true) as -> by (by destruct Hsta as [->| ->]).
  rewrite (bool_decide_true (is_Some (Some b))) by eauto. rewrite (bool_decide_false _ Hmode).
  destruct (sy_best _ _ _ _ _ _ Hsy) as (h0 & Hh0 & _).
  destruct (add_block_cases st b (trusted conf sta)) as [(p & s & Hf & Hp & Hs)|(e & He)].
  { rewrite Hh0. by eexists. }
  2: { rewrite He. eexists _, _. split; [reflexivity|]. right; right. exists hd, x, d.
       split_and!; [by exists root, n|constructor|done]. }
  destruct (add_in_step st root n hd x d b (trusted conf sta) p s)
    as (st1 & hd1 & d1 & Hadd & Hin & Hd1 & Hbel & Hhist); try done; [by eapply Hnum|by eapply Hdeep|].
  rewrite Hadd. destruct Hin as (root1 & n1 & Hsy1 & Hv1).
  destruct (sy_best _ _ _ _ _ _ Hsy1) as (h1 & Hh1 & Hid1 & _).
  destruct (maybe_switch_run conf st1 root1 n1 hd1 x d1 sta Hsy1 Hv1 Hsta) as (st' & r & Hrun & Hsw).
  { rewrite <- Hid1. by eapply Hopen. }
  rewrite Hrun. destruct r as [[]|e]; cbn in Hsw.
  - destruct Hsw as (d' & Hsy' & Hv' & _). eexists _, _. split; [reflexivity|]. exists hd1, d'.
    by exists root1, n1.
  - eexists _, _. split; [reflexivity|]. destruct Hsw as [Hfatal|[->|(k & eb & _ & Hback)]].
    + left. by destruct e.
    + by right; left.
    + destruct Hback as (hd' & y & d' & _ & Hsy' & Hv' & Hb & _ & Hh'). right; right. exists hd', y, d'.
      split_and!; [by exists root1, n1|by apply Hbel|]. intros Hrep.
      destruct (Hh' (Hhist _ Hrep)) as [-> ->]. done.
Qed.
End push.

(** ** Claims *)

(** C2. Pushing a block keeps the head, the fork database, the chain database with its
    undo sessions, the reversible blocks and the block log in step, through the
    announcement of an irreversible block, the application of the block, a switch to
    another fork or the return from it. When the call returns, the controller is at the
    best block and its database comes from executing the chain that leads there. When it
    throws, the controller is in step at the old head, or at an ancestor of it; when the
    blocks of the old chain give, executed as validated blocks, what they gave before, it
    is at the old head with the contents of the database unchanged. Nothing is said
    after an exhausted shared memory, undefined behaviour or an [undo] that fails.

    The node does not run in the irreversible read mode; the current chain is marked as
    validated and reaches two levels above the last irreversible block whenever there is
    a block to announce; and the fork point of the old head and the best block is open
    once the block was added. The last two conditions are needed:
    [push_block_strands] below. *)
Theorem push_block_in_step `{Crypto} {I D : Type} `{FL : ForkIndexLaws I} `{X : Execution D}
    conf (st : fork_db I (ctl D)) root n hd x d b sta :
  (forall y, 0 <= hash0 (hash_header y) < 2 ^ 64) -> read_mode conf <> IRREVERSIBLE -> applying sta ->
  synced st root n hd x d -> all_valid (contents (index st)) x ->
  (forall k p, contents (index st) !! k = Some p -> block_num p + 1 < 2 ^ 32) ->
  (forall p s, contents (index st) !! previous (sb_header (blk_header b)) = Some p ->
     block_state_of_block p b (trusted conf sta) = Ok s ->
     (exists k t, <[id s := s]> (contents (index st)) !! k = Some t /\
        n + 1 < dpos_irreversible_blocknum t) -> n + 2 <= db_rev d) ->
  (forall st1 s h, add_block (on_irreversible conf) (Some b) (trusted conf sta) st = (st1, Ok s) ->
     fdb_head st1 = Some h -> fork_open (index st1) (id h) x) ->
  exists st' r, push_block conf (Some b) sta st = (st', r) /\
  match r with
  | Ok _ => exists root' n' hd' d', synced st' root' n' hd' hd' d' /\ all_valid (contents (index st')) hd'
  | Throw e => fatal e = true \/ e = undo_exception \/
      exists root' n' hd' y d', synced st' root' n' hd' y d' /\ all_valid (contents (index st')) y /\
        below (contents (index st)) y x /\
        (history (eq status_validated) (contents (index st)) x (db_cur d) (db_snaps d) ->
         y = x /\ db_cur d' = db_cur d)
  end.
Proof.
  intros Hh Hmode Hsta Hsy Hv Hnum Hdeep Hopen.
  destruct (push_block_run conf st root n hd x d b sta) as (st' & r & Hrun & Hp); try done.
  exists st', r. split; [done|]. destruct r as [[]|e]; cbn in Hp.
  - destruct Hp as (hd' & d' & root' & n' & Hp). by exists root', n', hd', d'.
  - destruct Hp as [?|[?|(hd' & y & d' & (root' & n' & Hp & Hv') & Hb & Hd')]]; [by left|by right; left|].
    right; right. by exists root', n', hd', y, d'.
Qed.

(** ** Concrete pushes *)
Module PushSample.
Export ForkSwitchSample.

(** The chain g, b2, b3 of which g is irreversible. *)
Definition grown : fork_db index_type (ctl (list digest)) :=
  ctl_at [b2; v3] v3 v3 (UndoDb [id b2; id b3] [[id b2]] 3) {[2 := bs_block b2; 3 := bs_block b3]}
    [genesis_block].

Lemma grown_lookup k s : contents (index grown) !! k = Some s -> (s = b2 \/ s = v3) /\ k = id s.
Proof.
  intros Hs. split; [|symmetry; by eapply contents_key].
  apply (index_of_elem [b2; v3]) in Hs. rewrite !elem_of_cons, elem_of_nil in Hs. tauto.
Qed.

Lemma grown_flags : flags_at (contents (index grown)) (id v3).
Proof. apply flags_check_ok; [intros; by eapply contents_key|by vm_compute]. Qed.

Lemma grown_synced : synced grown (id g) 1 (id v3) (id v3) (UndoDb [id b2; id b3] [[id b2]] 3).
Proof.
  split.
  - split_and!; [apply tree_check_ok; by vm_compute|done|].
    intros k s [[->| ->] _]%grown_lookup; [apply b2_irr_ok|apply b3_irr_ok].
  - apply wf_check_ok. by vm_compute.
  - exists v3. split_and!; [done..|]. apply (by_lib_best _ _ (tail (by_lib_block_num (index grown)))).
    by vm_compute.
  - done.
  - apply grown_flags.
  - done.
  - done.
  - done.
  - exists v3. split; by vm_compute.
  - apply b3_history; by vm_compute.
  - intros k [b Hb].
    change (({[2 := bs_block b2; 3 := bs_block b3]} : gmap Z signed_block) !! k = Some b) in Hb.
    apply lookup_insert_Some in Hb as [[<- _]|[_ [<- _]%lookup_singleton_Some]]; cbn; lia.
  - intros k s Hb Hs Hn. clear Hb. apply grown_lookup in Hs as [[->| ->] ->].
    + exists (bs_block b2). split; vm_compute; reflexivity.
    + exists (bs_block b3). split; vm_compute; reflexivity.
  - exists genesis_block. split; [done|]. left. split; by vm_compute.
Qed.

Lemma grown_valid : all_valid (contents (index grown)) (id v3).
Proof.
  intros k s _ Hs Hp. apply grown_lookup in Hs as [[->| ->] ->]; [|reflexivity].
  destruct Hp as [p Hp]. absurd_by Hp.
Qed.

(** Pushing b4 makes b2 irreversible and moves the head to b4. *)
Definition push_b4 := push_block node (Some (bs_block b4)) status_complete grown.
End PushSample.
Import PushSample.

Lemma push_block_in_step_witness : exists st' root' n' hd' d',
  push_block node (Some (bs_block b4)) status_complete grown = (st', Ok tt) /\
  synced st' root' n' hd' hd' d' /\ db_cur (ct_db (env st')) = [id b2; id b3; id b4] /\
  ct_log (env st') = [genesis_block; bs_block b2].
Proof.
  destruct (push_block_in_step node grown (id g) 1 (id v3) (id v3) (UndoDb [id b2; id b3] [[id b2]] 3)
    (bs_block b4) status_complete) as (st' & r & Hrun & Hr).
  - intros y. vm_compute. split; [discriminate|reflexivity].
  - discriminate.
  - by left.
  - apply grown_synced.
  - apply grown_valid.
  - intros k p [[->| ->] _]%grown_lookup; vm_compute; reflexivity.
  - intros p s _ _ _. cbn. lia.
  - intros st1 s h Hadd Hh s0 l1 l2 y Hs0 Hne. exfalso. apply Hne. clear Hne.
    assert (Hst1 : st1 = (add_block (on_irreversible node) (Some (bs_block b4)) (trusted node status_complete) grown).1)
      by (by rewrite Hadd).
    assert (Hall : match fdb_head st1 with
      | Some h => match contents (index st1) !! id (bs_header h) with Some s => prev (bs_header s) | None => digest_nil end
      | None => digest_nil end = id v3) by (subst st1; vm_compute; reflexivity).
    rewrite Hh, Hs0 in Hall. exact Hall.
  - assert (Hok : is_ok push_b4.2 = true) by (vm_compute; reflexivity).
    assert (Hdb : db_cur (ct_db (env push_b4.1)) = [id b2; id b3; id b4]) by (vm_compute; reflexivity).
    assert (Hlog : ct_log (env push_b4.1) = [genesis_block; bs_block b2]) by (vm_compute; reflexivity).
    unfold push_b4 in *. rewrite Hrun in Hok, Hdb, Hlog. destruct r as [[]|e]; [|discriminate].
    destruct Hr as (root' & n' & hd' & d' & Hs & _). exists st', root', n', hd', d'.
    exact (conj Hrun (conj Hs (conj Hdb Hlog))).
Defined.

(** The failure of [switch_past_fork_point] in a run: b2 has the children b3, where the
    controller is, and k3. The block k4 on top of k3 makes b2 irreversible, which removes
    it from the fork database, and is the best block; the switch from b3 to k4 then
    cannot pop b3. No block is marked as current any more, and the next block of the
    better branch cannot be pushed either: it prunes a block that the head depends on. *)
Definition stranded : fork_db index_type (ctl (list digest)) :=
  ctl_at [b2; v3; k3] v3 v3 (UndoDb [id b2; id b3] [[id b2]] 3) {[2 := bs_block b2; 3 := bs_block b3]}
    [genesis_block].

Lemma push_block_strands :
  let '(st1, r1) := push_block node (Some (bs_block k4)) status_complete stranded in
  let '(st2, r2) := push_block node (Some (bs_block k5)) status_complete st1 in
  r1 = Throw block_validate_exception /\ id (ct_head (env st1)) = id v3 /\
  forallb (fun s => negb (in_current_chain s)) (map_to_list (contents (index st1))).*2 = true /\
  r2 = Throw undefined_behaviour.
Proof. vm_compute. done. Qed.
