(* ===== verification/BlockProduction.v ===== *)
(** * Producing blocks

    [commit_block( true )]: the pending block goes to the fork database, which may
    announce an irreversible block, and becomes the head of the controller. The state of
    the controller stays in step with the chain when the block is the best one; when it
    is not, the controller is left at a block that was never applied. *)
From S2P Require Import Prelude Merkle BlockHeaderState ForkDatabase BlockApply BlockRun ForkSwitch PushBlock.

Implicit Types (m : gmap digest block_state) (s t p h a c : block_state).

Section production.
Context `{Crypto} {I D : Type} `{FL : ForkIndexLaws I} `{X : Execution D}.
Context (conf : controller_config).
Implicit Types (st : fork_db I (ctl D)) (i : I) (d : undo_db D).

(** The pending block [s] on top of the head [p]: it is signed, linked and new, and
    executing it the way the other nodes do gives the block and the database that the
    producer has. *)
Record produced m p s (x : exec D) d : Prop := {
  pr_fresh : m !! id s = None;
  pr_current : in_current_chain s = true;
  pr_parent : prev s = id p;
  pr_id : header_id (sb_header (blk_header (bs_block s))) = id s;
  pr_prev : previous (sb_header (blk_header (bs_block s))) = prev s;
  pr_replays : exists e, run_block status_complete p (bs_block s) (db_cur d) = Ok e /\
    ex_db e = ex_db x /\ bs_block (ex_block e) = bs_block s
}.

(** The state in which the block was added and committed. *)
Definition committed st i h s (x : exec D) (u : gset digest) : fork_db I (ctl D) :=
  ForkDb i (Some h) (set_head s (env (applied st (Exec (ex_db x) s (ex_actions x)) u))).

Lemma committed_synced st root n hd x d p s e0 u i h :
  synced st root n hd x d -> all_valid (contents (index st)) x ->
  contents (index st) !! x = Some p -> produced (contents (index st)) p s e0 d ->
  validated s = true -> fdb_ok (<[id s := s]> (contents (index st))) root n ->
  contents i = <[id s := s]> (contents (index st)) -> best_head i h ->
  synced (committed st i h s e0 u) root n (id h) (id s)
    (UndoDb (ex_db e0) (db_cur d :: db_snaps d) (db_rev d + 1)) /\ all_valid (contents i) (id s).
Proof.
  intros Hsy Hv Hp [Hfresh Hcur Hpar Hid Hprev (e & Hrun & Hdb & Hblk)] Hval Hok Hi Hbest.
  set (s0 := set_in_current_chain false s).
  pose proof (sy_key st _ _ Hp) as Hidp. subst x.
  assert (Hfresh0 : contents (index st) !! id s0 = None) by done.
  destruct (insert_fresh (index st) s0 Hfresh0) as (i0 & _ & Hi0).
  assert (Ha0 : alike (<[id s := s]> (contents (index st))) (<[id s := s0]> (contents (index st)))).
  { intros k. destruct (decide (k = id s)) as [->|Hk]; [by rewrite !lookup_insert_eq|].
    rewrite !lookup_insert_ne by done. by destruct (_ !! k). }
  assert (contents i0 !! id s0 = Some s0) as Hin by (rewrite Hi0; apply lookup_insert_eq).
  pose proof (proj2 (by_lib_elem i0 s0) Hin) as Hl.
  destruct (by_lib_block_num i0) as [|h0 l0] eqn:El; [by apply elem_of_nil in Hl|].
  destruct (insert_synced st root n hd (id p) d s0 p i0 h0) as (Hsy0 & Hv0 & _); try done.
  { by eapply alike_fdb_ok. }
  { by eapply by_lib_best. }
  assert (Hk : contents i0 !! id s = Some s0) by exact Hin.
  assert (Hp0 : contents i0 !! id p = Some p).
  { rewrite Hi0, lookup_insert_ne; [done|]. intros Heq. cbn in Heq. congruence. }
  destruct (child_num _ _ _ _ _ _ _ _ _ Hsy0 Hk Hpar Hp0) as (Hn & Hu & _).
  destruct (run_block_inv _ _ _ _ _ Hrun) as [Hen _].
  assert (Hc : contents i = alter (set_in_current_chain true) (id s) (contents i0)).
  { rewrite Hi, Hi0. cbn [id bs_header s0 set_in_current_chain]. rewrite alter_insert_eq. f_equal.
    destruct s. unfold s0, set_in_current_chain in *. cbn in *. by rewrite Hcur. }
  assert (Ha : alike (contents i0) (contents i)) by (rewrite Hc; by apply alike_alter).
  destruct (sy_fork _ _ _ _ _ _ Hsy0) as (Ht & _).
  pose proof (applied_synced (ForkDb i0 (Some h0) (env st)) (committed st i h s e0 u) root n (id h0) (id h)
    (id p) d (id s) s0 p status_complete e u s Hsy0 (or_introl eq_refl) Hk Hpar Hp0 Hrun) as Hsy'.
  rewrite Hdb in Hsy'. split; [apply Hsy'; try done|].
  - unfold committed, applied. cbn [env upd ex_block ex_db]. rewrite Hdb, Hblk, Hen, Hu, <- Hn. done.
  - cbn [committed index]. rewrite Hc.
    apply (flags_apply _ (id p) (id s) s0); [by eapply tree_ok_levels|intros; by eapply contents_key|done..|].
    exact (sy_flags _ _ _ _ _ _ Hsy0).
  - by exists h.
  - apply (all_valid_up _ _ (id p) s); [intros; by eapply contents_key|by rewrite Hi, lookup_insert_eq|done..|].
    by eapply all_valid_alike.
Qed.

(** ** Committing the pending block *)

(** The pending block once it is marked as validated. *)
Definition validated_exec (x : exec D) : exec D := Exec (ex_db x) (set_validated (ex_block x)) (ex_actions x).

Lemma commit_block_best st sta x u i h (ct : ctl D) acts sess :
  let b := ex_block (validated_exec x) in
  add_state (on_irreversible conf) b (running st sta (validated_exec x, u)) = (ForkDb i (Some h) ct, Ok b) ->
  id h = id b -> ct_pending ct = Some (PendingState (Some b) acts sta sess) -> ct_replaying ct = false ->
  ct_reversible ct !! block_num b = None ->
  commit_block conf true (running st sta (x, u)) =
    (ForkDb i (Some h) (set_pending None (set_reversible (<[block_num b := bs_block b]> (ct_reversible ct))
       (set_head h ct))), Ok tt).
Proof.
  intros b Hadd Hid Hpend Hrep Hrow.
  unfold commit_block, commit_pending, mbind, St_bind, unwinding. rewrite in_pending_running.
  change (on_exec (upd_block set_validated) (x, u)) with ((validated_exec x, u), Ok (A := unit) tt).
  cbn [fst snd]. rewrite pending_running. cbn [fst]. fold b. rewrite Hadd.
  cbn [get fdb_head]. unfold mod_ctl, modify_st, st_assert, lift, get. rewrite bool_decide_true by done.
  cbn [bes_assert upd env index fdb_head ct_replaying set_head]. rewrite Hrep. cbn [negb].
  unfold create_reversible, pending_block, mod_ctl. run_st. cbn [env upd ct_pending set_head].
  rewrite Hpend. run_st. cbn [env upd ct_reversible set_head]. rewrite bool_decide_true by done. done.
Qed.

Lemma commit_block_not_best st sta x u i h (ct : ctl D) :
  let b := ex_block (validated_exec x) in
  add_state (on_irreversible conf) b (running st sta (validated_exec x, u)) = (ForkDb i (Some h) ct, Ok b) ->
  id h <> id b ->
  commit_block conf true (running st sta (x, u)) =
    unwinding (abort_block conf) (fun st => (st, Throw fork_database_exception))
      (ForkDb i (Some h) (set_head h ct)).
Proof.
  intros b Hadd Hid. unfold commit_block, commit_pending, mbind, St_bind, unwinding. rewrite in_pending_running.
  change (on_exec (upd_block set_validated) (x, u)) with ((validated_exec x, u), Ok (A := unit) tt).
  cbn [fst snd]. rewrite pending_running. cbn [fst]. fold b. rewrite Hadd.
  cbn [get fdb_head]. unfold mod_ctl, modify_st, st_assert, lift, get.
  rewrite bool_decide_false by congruence. cbn [bes_assert].
  match goal with |- context [abort_block conf ?s0] => change s0 with (ForkDb i (Some h) (set_head h ct)) end.
  by destruct (abort_block conf _) as [st' [[]|e]].
Qed.

(** The irreversible block and the new row do not interfere. *)
Lemma irreversible_running st sta x u a s : block_num a < block_num s ->
  set_pending None (set_reversible
    (<[block_num s := bs_block s]> (ct_reversible (irreversible_ctl a (env (running st sta (x, u))))))
    (set_head s (irreversible_ctl a (env (running st sta (x, u)))))) =
  set_pending None (irreversible_ctl a (set_head s (env (applied st (Exec (ex_db x) s (ex_actions x)) u)))).
Proof.
  intros Hlt. destruct st as [i h [hd [cur snaps rev] pd rv un lg rp]]. unfold irreversible_ctl, log_num. cbn.
  destruct (block_num a <=? from_option log_block_num 0 (last lg)); [reflexivity|]. cbn.
  rewrite map_filter_insert_True by done. reflexivity.
Qed.

Lemma idle_pending (ct : ctl D) : ct_pending ct = None -> set_pending None ct = ct.
Proof. destruct ct. cbn. by intros ->. Qed.

(** ** A block that the node produced *)
Section produce.
Context (st : fork_db I (ctl D)) (root : digest) (n : Z) (hd x : digest) (d : undo_db D) (p : block_state)
  (e0 : exec D) (u : gset digest) (sta : block_status).
Let s : block_state := set_validated (ex_block e0).
Hypothesis Hmode : read_mode conf <> IRREVERSIBLE.
Hypothesis Hsy : synced st root n hd x d.
Hypothesis Hv : all_valid (contents (index st)) x.
Hypothesis Hp : contents (index st) !! x = Some p.
Hypothesis Hprod : produced (contents (index st)) p s e0 d.
Hypothesis Hok : fdb_ok (<[id s := s]> (contents (index st))) root n.
Let d' : undo_db D := UndoDb (ex_db e0) (db_cur d :: db_snaps d) (db_rev d + 1).

Lemma produced_num : block_num s = db_rev d + 1 /\ n + 2 <= block_num s.
Proof.
  destruct (sy_at _ _ _ _ _ _ Hsy) as (p' & Hp' & Hrev). assert (p' = p) as -> by congruence.
  destruct (sy_fork _ _ _ _ _ _ Hsy) as (Ht & _). pose proof (to_above _ _ _ Ht _ _ Hp).
  destruct Hok as (Ht' & _). assert (Hs : <[id s := s]> (contents (index st)) !! id s = Some s) by apply lookup_insert_eq.
  assert (Hpar : <[id s := s]> (contents (index st)) !! prev s = Some p).
  { pose proof (pr_fresh _ _ _ _ _ Hprod). rewrite (pr_parent _ _ _ _ _ Hprod), (sy_key st _ _ Hp).
    rewrite lookup_insert_ne; [done|congruence]. }
  pose proof (tree_ok_levels _ _ _ Ht' _ _ _ Hs Hpar).
  destruct (to_parent _ _ _ Ht' _ _ Hs) as (q & Hq & ?); [lia|]. assert (q = p) as -> by congruence. lia.
Qed.

Lemma produced_row : ct_reversible (env st) !! block_num s = None.
Proof.
  apply eq_None_not_Some. intros Hr%(sy_rmax _ _ _ _ _ _ Hsy). pose proof produced_num. lia.
Qed.

(** The result when nothing is announced. *)
Lemma produce_plain i : add_state (on_irreversible conf) s (running st sta (validated_exec e0, u))
    = (ForkDb i (Some s) (env (running st sta (validated_exec e0, u))), Ok s) ->
  contents i = <[id s := s]> (contents (index st)) -> best_head i s ->
  exists st', commit_block conf true (running st sta (e0, u)) = (st', Ok tt) /\
    synced st' root n (id s) (id s) d' /\ all_valid (contents (index st')) (id s).
Proof.
  intros Hadd Hi Hb.
  rewrite (commit_block_best st sta e0 u i s _ (ex_actions e0) true Hadd eq_refl);
    [|done|apply Hsy|apply produced_row].
  destruct (committed_synced st root n hd x d p s e0 u i s) as [Hsy2 Hv2]; try done.
  eexists _. split; [reflexivity|]. split; [|exact Hv2].
  match goal with |- synced (ForkDb _ _ ?ct) _ _ _ _ _ =>
    change ct with (set_pending None (env (committed st i s s e0 u))) end.
  rewrite idle_pending; [exact Hsy2|apply Hsy].
Qed.

(** The result when the block [a] is announced, for any index [i1] and head [h1] of the
    fork database with the new block. *)
Lemma produce_announced i1 h1 i a c :
  contents i1 = <[id s := s]> (contents (index st)) -> best_head i1 h1 ->
  spine (contents i1) n a c -> pruned (contents i1) n a (contents i) ->
  fdb_ok (contents i) (id a) (n + 1) -> best_head i s ->
  add_state (on_irreversible conf) s (running st sta (validated_exec e0, u))
    = (ForkDb i (Some s) (irreversible_ctl a (env (running st sta (validated_exec e0, u)))), Ok s) ->
  exists st', commit_block conf true (running st sta (e0, u)) = (st', Ok tt) /\
    synced st' (id a) (n + 1) (id s) (id s) (db_commit (n + 1) d') /\ all_valid (contents (index st')) (id s).
Proof.
  intros Hi1 Hb1 Hsp Hpr Hok' Hb Hadd. pose proof produced_num as [Hnum Hdeep].
  destruct (committed_synced st root n hd x d p s e0 u i1 h1) as [Hsy1 Hv1]; try done.
  destruct (prune_synced _ _ _ _ _ _ a c i s Hsy1 Hv1 Hsp) as (Hsy2 & Hv2 & _); [cbn; lia|done..|].
  destruct (irreversible_fields a (env (running st sta (validated_exec e0, u)))) as (_ & Hf2 & Hf3 & _).
  destruct (irreversible_fields a (env (committed st i1 h1 s e0 u))) as (_ & Hf4 & _).
  rewrite (commit_block_best st sta e0 u i s _ (ex_actions e0) true Hadd eq_refl);
    [|by rewrite Hf2|by rewrite Hf3; apply Hsy|].
  2: { apply eq_None_not_Some. intros [r Er%irreversible_rows].
       change (ct_reversible (env st) !! block_num s = Some r) in Er. by rewrite produced_row in Er. }
  change (ex_block (validated_exec e0)) with s.
  rewrite (irreversible_running st sta (validated_exec e0) u a s) by (rewrite (sp_anum _ _ _ _ Hsp); lia).
  eexists _. split; [reflexivity|]. split; [|exact Hv2].
  change (set_head s (env (applied st (Exec (ex_db (validated_exec e0)) s (ex_actions (validated_exec e0))) u)))
    with (env (committed st i1 h1 s e0 u)).
  rewrite idle_pending; [exact Hsy2|]. rewrite Hf4. apply Hsy.
Qed.

Hypothesis Hfirst : forall k t, contents (index st) !! k = Some t -> ~ lib_before t s.

Lemma produced_best i h : (forall k t, contents i !! k = Some t -> k = id s /\ t = s \/ contents (index st) !! k = Some t) ->
  is_Some (contents i !! id s) -> best_head i h -> h = s.
Proof.
  intros Hi [t Ht] [Hh Hbest]. destruct (Hi _ _ Hh) as [[_ ->]|Hh']; [done|].
  exfalso. apply (Hfirst _ _ Hh'). destruct (Hi _ _ Ht) as [[_ ->]|Ht']; [by eapply Hbest|].
  pose proof (pr_fresh _ _ _ _ _ Hprod). congruence.
Qed.

Lemma produce_run : exists st' root' n' d1, commit_block conf true (running st sta (e0, u)) = (st', Ok tt) /\
  synced st' root' n' (id s) (id s) d1 /\ all_valid (contents (index st')) (id s) /\ db_cur d1 = ex_db e0.
Proof.
  pose proof (pr_fresh _ _ _ _ _ Hprod) as Hfresh. pose proof produced_num as [Hnum Hdeep].
  destruct (insert_fresh (index st) s Hfresh) as (i1 & _ & Hi1).
  destruct (decide (map_Exists (fun _ t => n + 1 < dpos_irreversible_blocknum t)
                      (<[id s := s]> (contents (index st))))) as [Hex|Hno].
  - assert (contents i1 !! id s = Some s) as Hin by (rewrite Hi1; apply lookup_insert_eq).
    pose proof (proj2 (by_lib_elem i1 s) Hin) as Hl.
    destruct (by_lib_block_num i1) as [|h1 l1] eqn:El; [by apply elem_of_nil in Hl|].
    pose proof (by_lib_best _ _ _ El) as Hb1.
    destruct (committed_synced st root n hd x d p s e0 u i1 h1) as [Hsy1 Hv1]; try done.
    destruct (synced_spine _ _ _ _ _ _ Hsy1) as (a & c & Hsp & _); [cbn; lia|].
    pose proof (synced_ready _ _ _ _ _ _ a Hsy1 (sp_a _ _ _ _ Hsp) (sp_anum _ _ _ _ Hsp)) as Hready.
    cbn [index committed] in Hsp.
    destruct (add_state_prune (on_irreversible conf) irreversible_ctl irreversible_ready
      (fun s st => on_irreversible_run conf s st Hmode) (running st sta (validated_exec e0, u)) s root n a c)
      as (i & h & Hadd & Hok' & Hb & Hpr); try done; [by rewrite Hi1 in Hsp|].
    change (index (running _ _ _)) with (index st) in Hpr. rewrite <- Hi1 in Hpr.
    destruct (prune_synced _ _ _ _ _ _ a c i h Hsy1 Hv1 Hsp) as (Hsy2 & _); [cbn; lia|done..|].
    assert (h = s) as ->.
    { apply (produced_best i h); [| |done].
      - intros k t [[_ Hk]%lookup_delete_Some _]%Hpr. rewrite Hi1, lookup_insert_Some in Hk. naive_solver.
      - destruct (sy_at _ _ _ _ _ _ Hsy2) as (t & Ht & _). by exists t. }
    destruct (produce_announced i1 h1 i a c) as (st' & ? & ? & ?); try done.
    by exists st', (id a), (n + 1), (db_commit (n + 1) d').
  - destruct (add_state_no_prune (on_irreversible conf) (running st sta (validated_exec e0, u)) s root n)
      as (i & h & Hadd & Hi & Hb); try done; [apply Hok| |].
    { intros k t Hk. destruct (decide (n + 1 < dpos_irreversible_blocknum t)); [|lia].
      exfalso. apply Hno. by exists k, t. }
    assert (h = s) as ->.
    { apply (produced_best i h); [| |done]; rewrite Hi.
      - intros k t. rewrite lookup_insert_Some. naive_solver.
      - rewrite lookup_insert_eq. eauto. }
    destruct (produce_plain i) as (st' & ? & ? & ?); try done. by exists st', root, n, d'.
Qed.
End produce.

(** ** Claims *)

(** C12. Committing the block that the node produced keeps the controller in step with
    its chain, also when the fork database announces an irreversible block during the
    call, while the undo session of the block is still open: the block becomes the
    head, its session and its row among the reversible blocks are added, and the
    database is that of the pending block. The node does not run in the irreversible
    read mode; the block fits the tree of the fork database, and precedes all blocks
    there in the order by last irreversible block and number
    ([commit_unfit_block_loses_head] shows why); executed the way the other nodes do
    it, it gives the database that the node has. *)
Theorem produce_block_in_step st root n hd x d p e0 u sta :
  let s := set_validated (ex_block e0) in
  read_mode conf <> IRREVERSIBLE -> synced st root n hd x d -> all_valid (contents (index st)) x ->
  contents (index st) !! x = Some p -> produced (contents (index st)) p s e0 d ->
  fdb_ok (<[id s := s]> (contents (index st))) root n ->
  (forall k t, contents (index st) !! k = Some t -> ~ lib_before t s) ->
  exists st' root' n' d', commit_block conf true (running st sta (e0, u)) = (st', Ok tt) /\
    synced st' root' n' (id s) (id s) d' /\ all_valid (contents (index st')) (id s) /\
    db_cur d' = ex_db e0.
Proof. intros s Hmode Hsy Hv Hp Hprod Hok Hbest. by eapply produce_run. Qed.

(** The controller after the fork database took the block: unchanged, or with an
    irreversible block that is not above the old head. *)
Definition announced (ct ct' : ctl D) (r : Z) : Prop :=
  ct' = ct \/ exists a, block_num a <= r /\ ct' = irreversible_ctl a ct.

Lemma aborted_fields st d sta x u i h (ct : ctl D) : ct_db (env st) = d ->
  announced (env (running st sta (x, u))) ct (db_rev d) ->
  match abort_block conf (ForkDb i (Some h) (set_head h ct)) with
  | (st', Ok _) => index st' = i /\ ct_head (env st') = h /\ ct_pending (env st') = None /\
      db_cur (ct_db (env st')) = db_cur d /\ db_rev (ct_db (env st')) = db_rev d
  | (_, Throw e) => e = terminated
  end.
Proof.
  intros Hd Hct. assert (Hdb : exists k, ct_db ct = UndoDb (ex_db x) (db_cur d :: take k (db_snaps d)) (db_rev d + 1)).
  { destruct Hct as [->|(a & Ha & ->)].
    - exists (length (db_snaps d)). rewrite firstn_all. cbn. by rewrite Hd.
    - destruct (irreversible_fields a (env (running st sta (x, u)))) as (_ & _ & _ & ->).
      exists (Z.to_nat (db_rev d - block_num a)). cbn. rewrite Hd. unfold db_commit. cbn.
      by replace (Z.to_nat (db_rev d + 1 - block_num a)) with (S (Z.to_nat (db_rev d - block_num a))) by lia. }
  assert (Hp : ct_pending ct = Some (PendingState (Some (ex_block x)) (ex_actions x) sta true)).
  { destruct Hct as [->|(a & _ & ->)]; [done|]. by destruct (irreversible_fields a (env (running st sta (x, u)))) as (_ & -> & _). }
  destruct Hdb as [k Hdb]. unfold abort_block, reset_pending, db_undo, mod_ctl. run_st. cbn. rewrite Hp.
  destruct (bool_decide (read_mode conf = SPECULATIVE)); run_st; cbn; rewrite Hp; cbn; rewrite Hdb; cbn;
    (destruct (restorable _ _); run_st; cbn; [split_and!; try done; lia|done]).
Qed.

(** When the block that the node produced does not become the best one,
    [commit_block] leaves the controller at the best block, which was never applied,
    with the database of the old head; from then on no block can be started. *)
Theorem commit_unfit_block_loses_head st root n hd x d p e0 u sta i h ct :
  let s := set_validated (ex_block e0) in
  synced st root n hd x d -> contents (index st) !! x = Some p ->
  add_state (on_irreversible conf) s (running st sta (validated_exec e0, u)) = (ForkDb i (Some h) ct, Ok s) ->
  announced (env (running st sta (validated_exec e0, u))) ct (db_rev d) ->
  contents i !! id h = Some h -> id h <> id s -> block_num h <> block_num p ->
  exists st' e, commit_block conf true (running st sta (e0, u)) = (st', Throw e) /\ (e = terminated \/
    e = fork_database_exception /\ ct_head (env st') = h /\ db_cur (ct_db (env st')) = db_cur d /\
    forall when cnt sta', skip_db_sessions conf false sta' = false ->
      start_block conf when cnt sta' st' = (st', Throw database_exception)).
Proof.
  intros s Hsy Hp Hadd Hann Hh Hid Hnum.
  rewrite (commit_block_not_best st sta e0 u i h _ Hadd Hid). unfold unwinding.
  pose proof (aborted_fields st d sta (validated_exec e0) u i h ct (sy_db _ _ _ _ _ _ Hsy) Hann) as Hab.
  destruct (abort_block conf _) as [st' [[]|e]]; [|subst e; by eexists _, _; split; [|left]].
  destruct Hab as (Hi & Hc1 & Hc2 & Hc3 & Hc4). exists st', fork_database_exception. split; [done|right].
  split_and!; [done..|]. intros when cnt sta' Hskip.
  destruct (sy_at _ _ _ _ _ _ Hsy) as (p' & Hp' & Hrev). assert (p' = p) as -> by congruence.
  unfold start_block. run_st. rewrite bool_decide_true by done. unfold unwinding, head_obj, obj. run_st.
  rewrite Hi, Hc1, Hh, Hskip. cbn [negb default]. rewrite Hc4, Hrev.
  rewrite (proj2 (Z.eqb_neq _ _)) by (cbn; congruence). unfold reset_pending. run_st. by rewrite Hc2.
Qed.
End production.

(** ** Concrete blocks *)
Module ProductionSample.
Export PushSample.

(** Start, finalize and sign a block in slot 10. *)
Definition draft (st : fork_db index_type (ctl (list digest))) : fork_db index_type (ctl (list digest)) * result unit :=
  (_ ← start_block node 10 0 status_incomplete; _ ← finalize_block; sign_block (fun _ => 1)) st.
Definition exec_of (ct : ctl (list digest)) : exec (list digest) :=
  match ct_pending ct with
  | Some (PendingState (Some b) acts _ _) => Exec (db_cur (ct_db ct)) b acts
  | _ => Exec [] b2 []
  end.
Definition drafted : exec (list digest) := exec_of (env (draft grown).1).
Definition p4 : block_state := set_validated (ex_block drafted).

Lemma draft_running : env (draft grown).1 = env (running grown status_incomplete (drafted, ∅)) /\
  (draft grown).2 = Ok tt.
Proof. vm_compute. done. Qed.

Lemma p4_irr_ok : irr_ok p4.
Proof. apply (next_irr_ok v3 (blk_header (bs_block p4)) false p4 b3_irr_ok); by vm_compute. Qed.

Lemma p4_produced : produced (contents (index grown)) v3 p4 drafted (UndoDb [id b2; id b3] [[id b2]] 3).
Proof.
  split; try (vm_compute; reflexivity). cbn [db_cur].
  destruct (run_block status_complete v3 (bs_block p4) [id b2; id b3]) as [e|e] eqn:Er.
  - exists e. split; [reflexivity|].
    assert (match run_block status_complete v3 (bs_block p4) [id b2; id b3] with
      | Ok e => (ex_db e, bs_block (ex_block e)) | Throw _ => ([], bs_block b2) end
      = (ex_db drafted, bs_block p4)) as Hx by (vm_compute; reflexivity).
    rewrite Er in Hx. exact (conj (f_equal fst Hx) (f_equal snd Hx)).
  - exfalso. assert (is_ok (run_block status_complete v3 (bs_block p4) [id b2; id b3]) = true) as Hok
      by (vm_compute; reflexivity). by rewrite Er in Hok.
Qed.

(** A node at b3 produces although the branch of k5, which it has not applied, is
    better. *)
Definition unfit : exec (list digest) := exec_of (env (draft forked).1).
Definition unfit_added := add_state (on_irreversible node) (set_validated (ex_block unfit))
  (running forked status_incomplete (validated_exec unfit, ∅)).
End ProductionSample.
Import ProductionSample.

Lemma produce_block_in_step_witness : exists st' root' n' d',
  commit_block node true (running grown status_incomplete (drafted, ∅)) = (st', Ok tt) /\
  synced st' root' n' (id p4) (id p4) d' /\ db_cur d' = [id b2; id b3; id p4].
Proof.
  destruct (produce_block_in_step node grown (id g) 1 (id v3) (id v3) (UndoDb [id b2; id b3] [[id b2]] 3)
    v3 drafted ∅ status_incomplete) as (st' & root' & n' & d' & Hrun & Hsy & _ & Hd).
  - discriminate.
  - apply grown_synced.
  - apply grown_valid.
  - vm_compute. reflexivity.
  - apply p4_produced.
  - split_and!; [apply tree_check_ok; vm_compute; reflexivity|done|].
    intros k s. rewrite lookup_insert_Some. intros [[_ <-]|[_ [[->| ->] _]%grown_lookup]];
      [apply p4_irr_ok|apply b2_irr_ok|apply b3_irr_ok].
  - intros k t [[->| ->] _]%grown_lookup; unfold lib_before; vm_compute; naive_solver.
  - exists st', root', n', d'. split; [exact Hrun|]. split; [exact Hsy|]. rewrite Hd. vm_compute. reflexivity.
Defined.

Lemma commit_unfit_block_loses_head_witness : exists st',
  commit_block node true (running forked status_incomplete (unfit, ∅)) = (st', Throw fork_database_exception) /\
  ct_head (env st') = k5 /\ db_cur (ct_db (env st')) = [id b2; id b3] /\
  start_block node 11 0 status_incomplete st' = (st', Throw database_exception).
Proof.
  assert (Hadd : add_state (on_irreversible node) (set_validated (ex_block unfit))
    (running forked status_incomplete (validated_exec unfit, ∅)) =
    (ForkDb (index unfit_added.1) (Some k5) (env unfit_added.1), Ok (set_validated (ex_block unfit)))).
  { change (unfit_added = (ForkDb (index unfit_added.1) (Some k5) (env unfit_added.1),
      Ok (set_validated (ex_block unfit)))). assert (fdb_head unfit_added.1 = Some k5) as Hh by (vm_compute; reflexivity).
    assert (unfit_added.2 = Ok (set_validated (ex_block unfit))) as Hr by (vm_compute; reflexivity).
    destruct unfit_added as [[i h ct] r]. cbn [fst snd index fdb_head env] in *. by rewrite Hh, Hr. }
  destruct (commit_unfit_block_loses_head node forked (id g) 1 (id k5) (id v3)
    (UndoDb [id b2; id b3] [[id b2]] 3) v3 unfit ∅ status_incomplete (index unfit_added.1) k5
    (env unfit_added.1) forked_synced ltac:(vm_compute; reflexivity) Hadd)
    as (st' & e & Hrun & Hcase).
  - right. exists b2. split; vm_compute; [discriminate|reflexivity].
  - vm_compute. reflexivity.
  - intros Heq. absurd_by Heq.
  - intros Heq. absurd_by Heq.
  - assert (He : match (commit_block node true (running forked status_incomplete (unfit, ∅))).2 with
      | Throw terminated => false | _ => true end = true) by (vm_compute; reflexivity).
    rewrite Hrun in He. destruct Hcase as [->|(-> & Hhead & Hdb & Hstart)]; [done|].
    exists st'. split; [exact Hrun|]. split; [exact Hhead|]. split; [exact Hdb|].
    apply Hstart. reflexivity.
Defined.
