(* ===== verification/Names.v ===== *)
(** * Names

    Model of [name.hpp] and [name.cpp] under [libraries/chain]: the packing of a
    string of up to 13 characters into 64 bits, twelve characters of 5 bits from
    the top and one of 4 bits, and its inverse. A [const char*] is the list of
    characters before the terminating zero. *)
From Stdlib Require Import Ascii String.
From S2P Require Import Prelude.

(** [string::c_str], read up to the first zero. *)
Fixpoint c_str (s : list ascii) : list ascii :=
  match s with
  | [] => []
  | c :: s => if decide (c = zero) then [] else c :: c_str s
  end.

Definition lit (s : string) : list ascii := list_ascii_of_string s.

(** ** Packing *)
Definition code (c : ascii) : Z := Z.of_N (N_of_ascii c).

Definition char_to_symbol (c : ascii) : Z :=
  if (97 <=? code c) && (code c <=? 122) then code c - 97 + 6
  else if (49 <=? code c) && (code c <=? 53) then code c - 49 + 1
  else 0.

(** The loop of [string_to_name]: the name and the number of characters read. *)
Fixpoint name_loop (i : nat) (str : list ascii) (name : Z) : Z * nat :=
  match str with
  | c :: str =>
      if (i <? 12)%nat then
        name_loop (S i) str
          (Z.lor name (u64 (Z.shiftl (Z.land (char_to_symbol c) 31) (64 - 5 * (Z.of_nat i + 1)))))
      else (name, i)
  | [] => (name, i)
  end.

Definition string_to_name (str : list ascii) : Z :=
  let '(name, i) := name_loop 0 str 0 in
  if (i =? 12)%nat then Z.lor name (Z.land (char_to_symbol (nth 12 str zero)) 15) else name.

(** ** Printing *)
Definition charmap : list ascii := lit ".12345abcdefghijklmnopqrstuvwxyz".
Definition symbol_char (z : Z) : ascii := nth (Z.to_nat z) charmap zero.

(** The loop of [operator string]: positions 12 down to 0. *)
Fixpoint name_chars (n : nat) (i : nat) (tmp : Z) (str : list ascii) : list ascii :=
  match n with
  | O => str
  | S n =>
      let c := symbol_char (Z.land tmp (if (i =? 0)%nat then 15 else 31)) in
      name_chars n (S i) (Z.shiftr tmp (if (i =? 0)%nat then 4 else 5)) (c :: str)
  end.

(** [trim_right_if]. *)
Fixpoint trim_right (s : list ascii) : list ascii :=
  match s with
  | [] => []
  | c :: s =>
      match trim_right s with
      | [] => if decide (c = "."%char) then [] else [c]
      | s' => c :: s'
      end
  end.

Definition to_string (value : Z) : list ascii := trim_right (name_chars 13 0 value []).

(** [name::set]. *)
Definition set (str : list ascii) : result Z :=
  _ ← bes_assert (length str <=? 13)%nat name_type_exception;
  let value := string_to_name str in
  _ ← bes_assert (bool_decide (to_string value = str)) name_type_exception;
  mret value.

(** [N(X)]: a name of the source. *)
Definition N (s : string) : Z := string_to_name (lit s).

(** ** The value of a string *)

Lemma char_to_symbol_range c : 0 <= char_to_symbol c < 32.
Proof.
  unfold char_to_symbol. repeat case_match; bool_to_prop; lia.
Qed.

(** The sum that [string_to_name] accumulates from character [i] on. *)
Fixpoint packed (i : nat) (str : list ascii) : Z :=
  match str with
  | [] => 0
  | c :: str =>
      if (i <? 12)%nat then char_to_symbol c * 2 ^ (64 - 5 * (Z.of_nat i + 1)) + packed (S i) str
      else char_to_symbol c mod 16
  end.

Lemma packed_range i str : (i <= 12)%nat -> 0 <= packed i str < 2 ^ (64 - 5 * Z.of_nat i).
Proof.
  revert i; induction str as [|c str IH]; intros i Hi; cbn [packed].
  { split; [done|]. apply Z.pow_pos_nonneg; lia. }
  pose proof (char_to_symbol_range c).
  destruct (Nat.ltb_spec i 12).
  - specialize (IH (S i) ltac:(lia)).
    replace (64 - 5 * Z.of_nat i) with (5 + (64 - 5 * (Z.of_nat i + 1))) by lia.
    rewrite Z.pow_add_r by lia. replace (Z.of_nat (S i)) with (Z.of_nat i + 1) in IH by lia. nia.
  - replace i with 12%nat by lia. apply (Z.mod_pos_bound _ 16). lia.
Qed.

Lemma name_loop_packed str : forall i name,
  (i <= 12)%nat -> (exists k, name = k * 2 ^ (64 - 5 * Z.of_nat i)) -> 0 <= name ->
  let '(r, n) := name_loop i str name in
  (if (n =? 12)%nat then Z.lor r (Z.land (char_to_symbol (nth (12 - i) str zero)) 15) else r)
    = name + packed i str.
Proof.
  induction str as [|c str IH]; intros i name Hi Hk Hn; cbn [name_loop packed].
  - replace (char_to_symbol (nth (12 - i) [] zero)) with 0 by (by destruct (12 - i)%nat).
    rewrite Z.land_0_l, Z.lor_0_r. destruct (_ =? _)%nat; lia.
  - destruct Hk as [k ->]. pose proof (char_to_symbol_range c) as Hc.
    destruct (Nat.ltb_spec i 12) as [Hlt|Hge].
    + set (e := 64 - 5 * (Z.of_nat i + 1)).
      assert (He : 64 - 5 * Z.of_nat i = 5 + e) by lia. assert (4 <= e <= 59) by lia.
      assert (Hp : 0 < 2 ^ e) by (apply Z.pow_pos_nonneg; lia).
      rewrite (land_pow2_mod _ 5), Z.mod_small, Z.shiftl_mul_pow2 by lia.
      rewrite u64_small.
      2: { split; [nia|]. apply Z.lt_le_trans with (2 ^ 5 * 2 ^ e); [nia|].
           rewrite <- Z.pow_add_r by lia. apply Z.pow_le_mono_r; lia. }
      rewrite He, Z.lor_comm, <- (Z.shiftl_mul_pow2 k (5 + e)), lor_shiftl_add by
        (lia || (rewrite Z.pow_add_r by lia; nia)).
      rewrite (Z.shiftl_mul_pow2 k) by lia.
      replace (nth (12 - i) (c :: str) zero) with (nth (12 - S i) str zero)
        by (by replace (12 - i)%nat with (S (12 - S i)) by lia).
      specialize (IH (S i) (char_to_symbol c * 2 ^ e + k * 2 ^ (5 + e))).
      destruct (name_loop (S i) str _) as [r n]. rewrite IH; [lia|lia| |].
      * exists (char_to_symbol c + k * 2 ^ 5). unfold e. rewrite Z.pow_add_r by lia.
        replace (64 - 5 * Z.of_nat (S i)) with (64 - 5 * (Z.of_nat i + 1)) by lia. ring.
      * rewrite Z.pow_add_r by lia. nia.
    + replace i with 12%nat by lia. cbn [Nat.eqb Nat.sub nth].
      rewrite (land_pow2_mod _ 4) by lia. rewrite Z.lor_comm.
      rewrite <- Z.shiftl_mul_pow2, lor_shiftl_add; [|lia|apply Z.mod_pos_bound; lia|lia].
      rewrite Z.shiftl_mul_pow2 by lia. change (2 ^ 4) with 16. lia.
Qed.

Lemma string_to_name_packed str : string_to_name str = packed 0 str.
Proof.
  unfold string_to_name. pose proof (name_loop_packed str 0 0 ltac:(lia)) as H.
  destruct (name_loop 0 str 0) as [r n]. cbn [Nat.sub] in H. rewrite H; [lia| |done].
  by exists 0.
Qed.

(** ** The string of a value *)

Lemma symbol_char_symbol z : 0 <= z < 32 ->
  char_to_symbol (symbol_char z) = z /\ symbol_char z ∈ charmap.
Proof.
  intros Hz. assert (Forall (fun n => char_to_symbol (symbol_char (Z.of_nat n)) = Z.of_nat n) (seq 0 32))
    as Hf by (repeat (apply Forall_cons; split; [vm_compute; reflexivity|]); by apply Forall_nil).
  rewrite Forall_forall in Hf. split.
  - specialize (Hf (Z.to_nat z)). rewrite Z2Nat.id in Hf by lia. apply Hf, elem_of_seq. lia.
  - unfold symbol_char. apply list_elem_of_In, nth_In. change (length charmap) with 32%nat. lia.
Qed.

Lemma charmap_symbol c : c ∈ charmap -> symbol_char (char_to_symbol c) = c.
Proof.
  revert c. apply Forall_forall.
  repeat (apply Forall_cons; split; [vm_compute; reflexivity|]). by apply Forall_nil.
Qed.

Lemma name_chars_step n : forall i tmp str v,
  (1 <= i)%nat -> (i + n = 13)%nat -> 0 <= v < 2 ^ 64 ->
  let e := 64 - 5 * Z.of_nat (13 - i) in
  tmp = v / 2 ^ e -> packed (13 - i) str = v mod 2 ^ e ->
  packed 0 (name_chars n i tmp str) = v.
Proof.
  induction n as [|n IH]; intros i tmp str v Hi Hin Hv e -> Hp; cbn [name_chars].
  { replace (13 - i)%nat with 0%nat in Hp by lia. rewrite Hp.
    subst e. replace (13 - i)%nat with 0%nat by lia. by apply Z.mod_small. }
  assert (0 < 2 ^ e) by (apply Z.pow_pos_nonneg; lia).
  destruct (Nat.eqb_spec i 0) as [->|_]; [lia|].
  assert (He : 64 - 5 * Z.of_nat (13 - S i) = e + 5) by lia.
  rewrite (land_pow2_mod _ 5) by lia. set (d := (v / 2 ^ e) mod 2 ^ 5).
  assert (Hd : 0 <= d < 32) by (apply Z.mod_pos_bound; lia).
  apply IH; [lia|lia|done| |].
  - rewrite He, Z.shiftr_div_pow2, Z.pow_add_r, Z.div_div by lia. done.
  - rewrite He. replace (13 - i)%nat with (S (13 - S i)) in Hp by lia. cbn [packed].
    rewrite (proj2 (Nat.ltb_lt _ _)) by lia. rewrite Hp, (proj1 (symbol_char_symbol d Hd)).
    replace (64 - 5 * (Z.of_nat (13 - S i) + 1)) with e by lia.
    rewrite Z.pow_add_r, Z.rem_mul_r by lia. subst d. lia.
Qed.

Lemma name_chars_packed v : 0 <= v < 2 ^ 64 -> packed 0 (name_chars 13 0 v []) = v.
Proof.
  intros Hv.
  change (name_chars 13 0 v []) with (name_chars 12 1 (Z.shiftr v 4) [symbol_char (Z.land v 15)]).
  apply name_chars_step; [lia|lia|done|..].
  - by rewrite Z.shiftr_div_pow2.
  - rewrite (land_pow2_mod _ 4) by lia. change (2 ^ 4) with 16. cbn [packed Nat.sub Nat.ltb Nat.leb].
    pose proof (Z.mod_pos_bound v 16 ltac:(lia)).
    rewrite (proj1 (symbol_char_symbol (v mod 16) ltac:(lia))). by rewrite Z.mod_mod.
Qed.

Lemma packed_trim i str : packed i (trim_right str) = packed i str.
Proof.
  revert i; induction str as [|c str IH]; intros i; [done|]. cbn [trim_right].
  destruct (trim_right str) as [|c' s] eqn:E.
  - assert (Hs : packed (S i) str = 0) by (rewrite <- IH; done).
    case_decide as Hd; cbn [packed]; [subst c|]; rewrite Hs; destruct (_ <? _)%nat; done || lia.
  - cbn [packed]. rewrite <- (IH (S i)). done.
Qed.

Lemma to_string_value v : 0 <= v < 2 ^ 64 -> string_to_name (to_string v) = v.
Proof.
  intros Hv. unfold to_string. rewrite string_to_name_packed, packed_trim. by apply name_chars_packed.
Qed.

(** ** Normalized strings *)

(** What a name may look like: at most 13 characters of the map, the last of 13 from its
    first half, and no trailing dot. *)
Definition normalized (str : list ascii) : bool :=
  (length str <=? 13)%nat && forallb (fun c => bool_decide (c ∈ charmap)) str &&
  (char_to_symbol (nth 12 str zero) <? 16) && bool_decide (last str <> Some "."%char).

(** A string padded with dots to 13 characters. *)
Definition padded (str : list ascii) : list ascii := str ++ repeat "."%char (13 - length str).

Lemma trim_right_dots s n : trim_right (s ++ repeat "."%char n) = trim_right s.
Proof.
  induction s as [|c s IH]; cbn; [|by rewrite IH].
  induction n as [|n IHn]; cbn; [done|]. by rewrite IHn.
Qed.

Lemma trim_right_id s : last s <> Some "."%char -> trim_right s = s.
Proof.
  induction s as [|c s IH]; intros Hl; [done|]. cbn [trim_right].
  destruct s as [|c' s].
  - cbn. case_decide; [subst; done|done].
  - rewrite IH by done. done.
Qed.

Lemma trim_right_split s : exists n, s = trim_right s ++ repeat "."%char n.
Proof.
  induction s as [|c s [n IH]]; [by exists 0%nat|]. cbn [trim_right].
  destruct (trim_right s) as [|c' s'] eqn:E.
  - cbn in IH. subst s. case_decide as Hd; [subst; by exists (S n)|by exists n].
  - exists n. rewrite IH at 1. done.
Qed.

Lemma last_trim_right s : last (trim_right s) <> Some "."%char.
Proof.
  induction s as [|c s IH]; [done|]. cbn [trim_right]. destruct (trim_right s) as [|c' s'].
  - case_decide as Hd; cbn; congruence.
  - exact IH.
Qed.

(** Thirteen characters from position [i] on: of the map, the last of its first half. *)
Definition spelled (i : nat) (s : list ascii) : Prop :=
  (i + length s = 13)%nat /\ Forall (fun c => c ∈ charmap) s /\ char_to_symbol (nth (12 - i) s zero) < 16.

Lemma charmap_symbol_inj c1 c2 : c1 ∈ charmap -> c2 ∈ charmap ->
  char_to_symbol c1 = char_to_symbol c2 -> c1 = c2.
Proof.
  intros H1 H2 Heq. rewrite <- (charmap_symbol c1 H1), <- (charmap_symbol c2 H2). by rewrite Heq.
Qed.

Lemma packed_inj s1 : forall i s2,
  spelled i s1 -> spelled i s2 -> packed i s1 = packed i s2 -> s1 = s2.
Proof.
  induction s1 as [|c1 s1 IH]; intros i [|c2 s2] (Hl1 & Hf1 & Hs1) (Hl2 & Hf2 & Hs2) Hp;
    cbn [length] in *; [done|lia|lia|].
  apply Forall_cons in Hf1 as [Hc1 Hf1]. apply Forall_cons in Hf2 as [Hc2 Hf2]. cbn [packed] in Hp.
  pose proof (char_to_symbol_range c1). pose proof (char_to_symbol_range c2).
  destruct (Nat.ltb_spec i 12) as [Hi|Hi].
  - pose proof (packed_range (S i) s1 ltac:(lia)). pose proof (packed_range (S i) s2 ltac:(lia)).
    replace (64 - 5 * Z.of_nat (S i)) with (64 - 5 * (Z.of_nat i + 1)) in * by lia.
    set (e := 64 - 5 * (Z.of_nat i + 1)) in *.
    rewrite !(Z.mul_comm _ (2 ^ e)) in Hp. apply Z.div_mod_unique in Hp as [Hc Hr]; [|lia..].
    apply charmap_symbol_inj in Hc; [|done..]. subst c2. f_equal.
    replace (12 - i)%nat with (S (12 - S i)) in * by lia. cbn [nth] in *.
    apply (IH (S i)); [split_and!; done || lia..|done].
  - replace (12 - i)%nat with 0%nat in * by lia. cbn [nth] in *. rewrite !Z.mod_small in Hp by lia.
    apply charmap_symbol_inj in Hp; [|done..]. subst c2.
    destruct s1, s2; cbn in *; done || lia.
Qed.

Lemma name_chars_spelled n : forall i tmp str,
  (1 <= i)%nat -> (i + n = 13)%nat -> spelled (13 - i) str ->
  spelled 0 (name_chars n i tmp str).
Proof.
  induction n as [|n IH]; intros i tmp str Hi Hin (Hl & Hf & Hs); cbn [name_chars].
  { replace (13 - i)%nat with 0%nat in * by lia. done. }
  destruct (Nat.eqb_spec i 0) as [->|_]; [lia|]. apply IH; [lia|lia|].
  rewrite (land_pow2_mod _ 5) by lia. split_and!.
  - cbn [length]. lia.
  - constructor; [|done]. apply symbol_char_symbol. apply (Z.mod_pos_bound _ 32). lia.
  - replace (12 - (13 - S i))%nat with (S (12 - (13 - i))) by lia. done.
Qed.

Lemma all_chars_spelled v : 0 <= v -> spelled 0 (name_chars 13 0 v []).
Proof.
  intros Hv.
  change (name_chars 13 0 v []) with (name_chars 12 1 (Z.shiftr v 4) [symbol_char (Z.land v 15)]).
  pose proof (Z.mod_pos_bound v 16 ltac:(lia)).
  destruct (symbol_char_symbol (v mod 16) ltac:(lia)) as [H1 H2].
  apply name_chars_spelled; [lia|lia|]. rewrite (land_pow2_mod _ 4) by lia. change (2 ^ 4) with 16.
  split_and!; cbn [Nat.sub Nat.add length nth]; [done|by constructor|lia].
Qed.

Lemma normalized_spec str : normalized str = true <->
  (length str <= 13)%nat /\ Forall (fun c => c ∈ charmap) str /\
  char_to_symbol (nth 12 str zero) < 16 /\ last str <> Some "."%char.
Proof.
  unfold normalized. rewrite !andb_true_iff, Nat.leb_le, forallb_forall, Z.ltb_lt, bool_decide_eq_true,
    Forall_forall. setoid_rewrite bool_decide_eq_true. setoid_rewrite list_elem_of_In. tauto.
Qed.

Lemma to_string_normalized v : 0 <= v -> normalized (to_string v) = true.
Proof.
  intros Hv. apply normalized_spec. unfold to_string.
  destruct (all_chars_spelled v Hv) as (Hl & Hf & Hs). set (s := name_chars 13 0 v []) in *.
  destruct (trim_right_split s) as [n Hn]. pose proof (last_trim_right s) as Hlast.
  set (t := trim_right s) in *. clearbody s t. subst s.
  rewrite length_app in Hl. apply Forall_app in Hf as [Hf _]. split_and!; [lia|done| |done].
  destruct (decide (12 < length t)%nat).
  - by rewrite app_nth1 in Hs.
  - rewrite nth_overflow by lia. done.
Qed.

Lemma padded_spelled str : normalized str = true -> spelled 0 (padded str).
Proof.
  intros (Hl & Hf & Hs & _)%normalized_spec. unfold padded. split_and!.
  - rewrite length_app, repeat_length. lia.
  - apply Forall_app. split; [done|]. apply Forall_forall. intros c Hc%list_elem_of_In%repeat_spec.
    subst. by left.
  - destruct (decide (12 < length str)%nat).
    + by rewrite app_nth1.
    + rewrite app_nth2 by lia. destruct (nth_in_or_default (12 - 0 - length str)
        (repeat "."%char (13 - length str)) zero) as [Hc| ->]; [|done].
      apply repeat_spec in Hc. rewrite Hc. done.
Qed.

Lemma normalized_to_string str : normalized str = true -> to_string (string_to_name str) = str.
Proof.
  intros Hn. pose proof (padded_spelled str Hn) as Hp. pose proof Hn as (_ & _ & _ & Hlast)%normalized_spec.
  pose proof (packed_range 0 str ltac:(lia)) as Hr. rewrite string_to_name_packed.
  assert (name_chars 13 0 (packed 0 str) [] = padded str) as Heq.
  { apply (packed_inj _ 0); [apply all_chars_spelled; lia|done|].
    rewrite name_chars_packed by apply Hr. rewrite <- (packed_trim 0 (padded str)).
    unfold padded. by rewrite trim_right_dots, trim_right_id. }
  unfold to_string. rewrite Heq. unfold padded. by rewrite trim_right_dots, trim_right_id.
Qed.

(** Names are the 64-bit values and the normalized strings in one-to-one
    correspondence: every value prints to a string that reads back as that value,
    and [name::set] accepts exactly the strings of at most 13 characters of the map,
    with a last character of 13 that fits 4 bits and no trailing dot, each of which
    prints back as itself. *)
Theorem name_string_bijection :
  (forall v, 0 <= v < 2 ^ 64 -> set (to_string v) = Ok v) /\
  (forall str, is_ok (set str) = normalized str) /\
  (forall str v, set str = Ok v -> 0 <= v < 2 ^ 64 /\ to_string v = str).
Proof.
  assert (Hset : forall str, normalized str = true -> set str = Ok (string_to_name str)).
  { intros str Hn. unfold set. pose proof Hn as (Hl & _)%normalized_spec.
    rewrite (proj2 (Nat.leb_le _ _) Hl). run_monad.
    by rewrite (bool_decide_eq_true_2 _ (normalized_to_string str Hn)). }
  assert (Hinv : forall str v, set str = Ok v -> 0 <= v < 2 ^ 64 /\ to_string v = str).
  { intros str v Hs. unfold set in Hs. bind_ok Hs as (_ & _ & Hs).
    bind_ok Hs as ([] & Hb%bes_assert_ok & [= <-]). bool_to_prop.
    split; [|done]. rewrite string_to_name_packed. by apply (packed_range 0); lia. }
  split_and!; [|intros str|done].
  - intros v Hv. rewrite Hset by (apply to_string_normalized; lia). by rewrite to_string_value.
  - destruct (set str) as [v|e] eqn:E.
    + destruct (Hinv _ _ E) as [Hv <-]. symmetry. apply to_string_normalized. lia.
    + destruct (normalized str) eqn:En; [|done]. by rewrite (Hset _ En) in E.
Qed.

Lemma name_string_bijection_witness :
  set (to_string (N "besio.token")) = Ok (N "besio.token") /\ to_string (N "besio.token") = lit "besio.token".
Proof.
  destruct name_string_bijection as (H1 & _ & H3). split; [apply H1; done|].
  apply (H3 (lit "besio.token") (N "besio.token")). reflexivity.
Defined.
