(* ===== verification/Raw.v ===== *)
(** * Binary serialization

    Model of [fc/io/raw.hpp], [fc/io/datastream.hpp] and [fc/io/varint.hpp] under
    [libraries/fc]: packing into a stream that counts or into one that fills a buffer,
    and unpacking from a buffer. The overloads of [pack] and [unpack] for a type are a
    [codec]; reflected structures are the pairing of the codecs of their fields. *)
From S2P Require Import Prelude.

(** ** Streams

    A byte is a number below 256. *)
Abbreviation bytes := (list Z).
Definition byte_ok (b : Z) : Prop := 0 <= b < 256.

(** What [pack] needs of a stream. *)
Class Stream (S : Type) := { write : bytes -> St S unit }.

(** [datastream<size_t>] only counts. *)
#[global] Instance size_stream : Stream Z := {
  write d := modify_st (fun n => u64 (n + Z.of_nat (length d)))
}.

(** [datastream<char*>]: what was written, and the room left in the buffer. The size is
    compared as a 32-bit integer. *)
Record buffer := Buffer { written : bytes; room : Z }.
#[global] Instance buffer_stream : Stream buffer := {
  write d := fun b =>
    let n := Z.of_nat (length d) in
    if i32 n <=? room b then
      if n <=? room b then (Buffer (written b ++ d) (room b - n), Ok tt)
      else (b, Throw undefined_behaviour)
    else (b, Throw out_of_range_exception)
}.

(** [datastream<const char*>::read] and [get], on the bytes that remain. *)
Definition read (n : nat) : St bytes bytes := fun s =>
  if (n <=? length s)%nat then (drop n s, Ok (take n s)) else (s, Throw out_of_range_exception).
Definition get_byte : St bytes Z := fun s =>
  match s with
  | b :: s => (s, Ok b)
  | [] => ([], Throw out_of_range_exception)
  end.

(** ** Codecs *)
Record codec (A : Type) := Codec {
  pack : forall S, Stream S -> A -> St S unit;
  unpack : St bytes A
}.
Arguments Codec {_} _ _.
Arguments pack {_} _ {_ _} _.
Arguments unpack {_} _.

(** [fc_assert]. *)
Definition fc_assert {S} (b : bool) : St S unit := st_assert b assert_exception.

(** The number of a sequence of bytes, least significant first, and back. *)
Fixpoint le_value (d : bytes) : Z :=
  match d with [] => 0 | b :: d => b + 256 * le_value d end.
Fixpoint le_bytes (n : nat) (v : Z) : bytes :=
  match n with O => [] | S n => v mod 256 :: le_bytes n (v / 256) end.

(** Integers of [n] bytes, in the byte order of the machine. *)
Definition c_uint (n : nat) : codec Z :=
  Codec (fun S _ v => write (le_bytes n v)) (d ← read n; mret (le_value d)).

(** A fixed array of [n] characters. *)
Definition c_array (n : nat) : codec bytes :=
  Codec (fun S _ v => write v) (read n).

(** [unsigned_int]: 7 bits at a time, the high bit marks continuation. *)
Fixpoint pack_varint {S} `{Stream S} (fuel : nat) (val : Z) : St S unit :=
  match fuel with
  | O => throw undefined_behaviour
  | Datatypes.S fuel =>
      let b := Z.land (u8 val) 127 in
      let val := Z.shiftr val 7 in
      let b := Z.lor b (Z.shiftl (if 0 <? val then 1 else 0) 7) in
      _ ← write [b];
      if val =? 0 then mret tt else pack_varint fuel val
  end.

(** A 64-bit value has at most ten groups of 7 bits. *)
Definition max_groups : nat := 10.

Fixpoint unpack_unsigned (fuel : nat) (v by_ : Z) : St bytes Z :=
  match fuel with
  | O => throw undefined_behaviour
  | S fuel =>
      b ← get_byte;
      let v := Z.lor v (u32 (Z.shiftl (Z.land b 127) by_)) in
      let by_ := u8 (by_ + 7) in
      if negb (Z.land b 128 =? 0) && (by_ <? 32) then unpack_unsigned fuel v by_ else mret (u32 v)
  end.

(** The loop ends after five bytes at the latest. *)
Definition c_unsigned_int : codec Z :=
  Codec (fun S _ v => pack_varint max_groups v) (unpack_unsigned 5 0 0).

(** [signed_int]. The shift of the fifth byte on is not bounded by the loop: by 32 or
    more it is undefined. *)
Definition zigzag (v : Z) : Z := u32 (Z.lxor (i32 (Z.shiftl v 1)) (Z.shiftr v 31)).

Fixpoint unpack_signed (fuel : nat) (v by_ : Z) : St bytes Z :=
  match fuel with
  | O => throw undefined_behaviour
  | S fuel =>
      b ← get_byte;
      if 32 <=? by_ then throw undefined_behaviour else
      let v := Z.lor v (u32 (Z.shiftl (Z.land b 127) by_)) in
      if negb (Z.land b 128 =? 0) then unpack_signed fuel v (by_ + 7) else mret v
  end.

Definition unzigzag (v : Z) : Z :=
  let value := i32 (Z.lxor (Z.shiftr v 1) (Z.shiftr v 31) + Z.land v 1) in
  let value := if negb (Z.land v 1 =? 0) then value else i32 (- value) in
  i32 (- value).

Definition c_signed_int : codec Z :=
  Codec (fun S _ v => pack_varint max_groups (zigzag v)) (v ← unpack_signed 6 0 0; mret (unzigzag v)).

Definition c_bool : codec bool :=
  Codec (fun S _ (v : bool) => pack (c_uint 1) (if v then 1 else 0))
    (b ← unpack (c_uint 1);
     _ ← fc_assert (Z.land b (Z.lnot 1) =? 0);
     mret (negb (b =? 0))).

Definition MAX_NUM_ARRAY_ELEMENTS : Z := 1024 * 1024.
Definition MAX_SIZE_OF_BYTE_ARRAYS : Z := 20 * 1024 * 1024.

(** [vector<char>], [string] and [shared_string]. *)
Definition c_bytes : codec bytes :=
  Codec
    (fun S _ v =>
      _ ← fc_assert (Z.of_nat (length v) <=? MAX_SIZE_OF_BYTE_ARRAYS);
      _ ← pack c_unsigned_int (u32 (Z.of_nat (length v)));
      if (length v =? 0)%nat then mret tt else write v)
    (size ← unpack c_unsigned_int;
     _ ← fc_assert (size <=? MAX_SIZE_OF_BYTE_ARRAYS);
     if size =? 0 then mret [] else read (Z.to_nat size)).

(** [vector<T>], [deque<T>] and, element by element, the other containers. *)
Fixpoint unpack_n {A} (c : codec A) (n : nat) : St bytes (list A) :=
  match n with
  | O => mret []
  | S n => x ← unpack c; l ← unpack_n c n; mret (x :: l)
  end.

Definition c_vector {A} (c : codec A) : codec (list A) :=
  Codec
    (fun S _ v =>
      _ ← fc_assert (Z.of_nat (length v) <=? MAX_NUM_ARRAY_ELEMENTS);
      _ ← pack c_unsigned_int (u32 (Z.of_nat (length v)));
      for_each (pack c) v)
    (size ← unpack c_unsigned_int;
     _ ← fc_assert (size <=? MAX_NUM_ARRAY_ELEMENTS);
     unpack_n c (Z.to_nat size)).

(** [optional<T>] and [shared_ptr<T>]. *)
Definition c_optional {A} (c : codec A) : codec (option A) :=
  Codec
    (fun S _ v =>
      _ ← pack c_bool (bool_decide (is_Some v));
      match v with Some x => pack c x | None => mret tt end)
    (b ← unpack c_bool;
     if (b : bool) then x ← unpack c; mret (Some x) else mret None).

(** [pair<K,V>], and two consecutive fields of a reflected structure. *)
Definition c_pair {A B} (c1 : codec A) (c2 : codec B) : codec (A * B) :=
  Codec (fun S _ v => _ ← pack c1 v.1; pack c2 v.2)
    (x ← unpack c1; y ← unpack c2; mret (x, y)).

(** A structure as the tuple of its fields. *)
Definition c_struct {A B} (fields : A -> B) (build : B -> A) (c : codec B) : codec A :=
  Codec (fun S _ v => pack c (fields v)) (x ← unpack c; mret (build x)).

(** [static_variant] of two alternatives with one representation: the tag and the
    content. *)
Definition c_variant {A} (count : Z) (c : codec A) : codec (Z * A) :=
  Codec (fun S _ v => _ ← pack c_unsigned_int (u32 v.1); pack c v.2)
    (w ← unpack c_unsigned_int;
     _ ← fc_assert (w <? count);
     x ← unpack c;
     mret (w, x)).

(** ** Whole values *)
Definition pack_size {A} (c : codec A) (v : A) : result Z :=
  let '(n, r) := pack c v 0 in _ ← r; mret n.

(** [pack( v )]: one pass to measure, one to fill a buffer of that size. *)
Definition pack_value {A} (c : codec A) (v : A) : result bytes :=
  size ← pack_size c v;
  if size =? 0 then mret [] else
  let '(b, r) := pack c v (Buffer [] size) in
  _ ← r;
  mret (written b ++ repeat 0 (Z.to_nat (room b))).

(** [unpack<T>( bytes )]: bytes after the value are ignored. *)
Definition unpack_value {A} (c : codec A) (d : bytes) : result A := (unpack c d).2.

(** ** Laws of a codec

    [codec_ok c valid bound]: on a valid value, every stream receives the same
    chunks of bytes, at most [bound] in total, and unpacking them gives the value
    back and leaves the rest of the input. *)
Definition emits {A} (c : codec A) (a : A) (cs : list bytes) : Prop :=
  forall S (H : Stream S) (s : S), pack c a s = for_each write cs s.

Definition blen (cs : list bytes) : Z := Z.of_nat (length (concat cs)).

Record encoding {A} (c : codec A) (bound : Z) (a : A) (cs : list bytes) : Prop := {
  en_emits : emits c a cs;
  en_bytes : Forall byte_ok (concat cs);
  en_chunks : Forall (fun d => Z.of_nat (length d) < 2 ^ 31) cs;
  en_bound : blen cs <= bound;
  en_unpack : forall rest, unpack c (concat cs ++ rest) = (rest, Ok a)
}.

Definition codec_ok {A} (c : codec A) (valid : A -> Prop) (bound : Z) : Prop :=
  forall a, valid a -> exists cs, encoding c bound a cs.

Lemma blen_app cs1 cs2 : blen (cs1 ++ cs2) = blen cs1 + blen cs2.
Proof. unfold blen. rewrite concat_app, length_app. lia. Qed.

Lemma fc_assert_true {S A} (b : bool) (k : unit -> St S A) s :
  b = true -> (x ← fc_assert b; k x) s = k tt s.
Proof. by intros ->. Qed.

(** One codec after another. *)
Lemma for_each_seq {S} `{Stream S} (m : St S unit) (k : unit -> St S unit) cs1 cs2 s :
  (forall s, m s = for_each write cs1 s) -> (forall s, k tt s = for_each write cs2 s) ->
  (x ← m; k x) s = for_each write (cs1 ++ cs2) s.
Proof.
  intros Hm Hk. rewrite for_each_app. unfold mbind, St_bind. rewrite Hm.
  destruct (for_each write cs1 s) as [s1 [[]|e]]; [apply Hk|done].
Qed.

Lemma encoding_weaken {A} (c : codec A) b1 b2 a cs :
  b1 <= b2 -> encoding c b1 a cs -> encoding c b2 a cs.
Proof. intros Hb []. split; try done. lia. Qed.

Lemma codec_ok_weaken {A} (c : codec A) (v1 v2 : A -> Prop) b1 b2 :
  (forall a, v2 a -> v1 a) -> b1 <= b2 -> codec_ok c v1 b1 -> codec_ok c v2 b2.
Proof.
  intros Hv Hb Hc a Ha. destruct (Hc a (Hv a Ha)) as [cs Hcs]. exists cs. by eapply encoding_weaken.
Qed.

Lemma le_bytes_ok n v : Forall byte_ok (le_bytes n v) /\ length (le_bytes n v) = n.
Proof.
  revert v; induction n as [|n IH]; intros v; [done|]. cbn. destruct (IH (v / 256)) as [H1 H2].
  split; [|by rewrite H2]. constructor; [|done]. apply Z.mod_pos_bound. lia.
Qed.

Lemma le_value_bytes n v : 0 <= v < 256 ^ Z.of_nat n -> le_value (le_bytes n v) = v.
Proof.
  revert v; induction n as [|n IH]; intros v Hv; cbn [le_bytes le_value].
  { cbn in Hv. lia. }
  rewrite IH.
  - pose proof (Z.div_mod v 256 ltac:(lia)). lia.
  - rewrite Nat2Z.inj_succ, Z.pow_succ_r in Hv by lia. split; [apply Z.div_pos; lia|].
    apply Z.div_lt_upper_bound; lia.
Qed.

Lemma read_app d rest : read (length d) (d ++ rest) = (rest, Ok d).
Proof.
  unfold read. rewrite (proj2 (Nat.leb_le _ _)) by (rewrite length_app; lia).
  by rewrite drop_app_length, take_app_length.
Qed.

Lemma c_uint_ok n : (n < 32)%nat ->
  codec_ok (c_uint n) (fun v => 0 <= v < 256 ^ Z.of_nat n) (Z.of_nat n).
Proof.
  intros Hn v Hv. destruct (le_bytes_ok n v) as [Hb Hl]. exists [le_bytes n v]. split.
  - intros S H s. cbn. unfold mbind, St_bind. by destruct (write _ s) as [s' [[]|e]].
  - cbn. by rewrite app_nil_r.
  - constructor; [rewrite Hl; lia|done].
  - unfold blen. cbn. rewrite app_nil_r, Hl. lia.
  - intros rest. cbn [concat unpack c_uint]. rewrite app_nil_r. run_st. rewrite <- Hl at 1.
    rewrite read_app. by rewrite le_value_bytes.
Qed.

Lemma c_array_ok n : Z.of_nat n < 2 ^ 31 ->
  codec_ok (c_array n) (fun v => length v = n /\ Forall byte_ok v) (Z.of_nat n).
Proof.
  intros Hn v [Hl Hv]. exists [v]. split.
  - intros S H s. cbn. unfold mbind, St_bind. by destruct (write v s) as [s' [[]|e]].
  - cbn. by rewrite app_nil_r.
  - constructor; [lia|done].
  - unfold blen. cbn. rewrite app_nil_r. lia.
  - intros rest. cbn [concat unpack c_array]. rewrite app_nil_r, <- Hl. apply read_app.
Qed.

(** ** Variable-length integers *)

(** The bytes of a value: groups of 7 bits, low first. *)
Fixpoint groups (fuel : nat) (val : Z) : bytes :=
  match fuel with
  | O => []
  | S fuel => if val / 128 =? 0 then [val mod 128] else val mod 128 + 128 :: groups fuel (val / 128)
  end.

Lemma varint_byte val (k : bool) :
  Z.lor (Z.land (u8 val) 127) (Z.shiftl (if k then 1 else 0) 7) = val mod 128 + (if k then 128 else 0).
Proof.
  rewrite (land_pow2_mod _ 7) by lia. unfold u8. rewrite Z.mod_mod_divide by (by exists 2). change (2 ^ 7) with 128.
  rewrite lor_shiftl_add; [|lia|by apply Z.mod_pos_bound]. by destruct k.
Qed.

Lemma pack_varint_groups fuel : forall val, 0 <= val < 2 ^ (7 * Z.of_nat fuel) -> (0 < fuel)%nat ->
  forall S (H : Stream S) (s : S),
    pack_varint fuel val s = for_each write ((fun b => [b]) <$> groups fuel val) s.
Proof.
  induction fuel as [|fuel IH]; intros val Hv Hf S H s; [lia|].
  cbn [pack_varint groups]. rewrite varint_byte, Z.shiftr_div_pow2 by lia. change (2 ^ 7) with 128.
  pose proof (Z.div_pos val 128 ltac:(lia) ltac:(lia)).
  destruct (val / 128 =? 0) eqn:E; bool_to_prop.
  - rewrite E. change (0 <? 0) with false. by rewrite Z.add_0_r.
  - rewrite (proj2 (Z.ltb_lt 0 _)) by lia. rewrite fmap_cons. cbn [for_each].
    unfold mbind, St_bind. destruct (write _ s) as [s1 [[]|e]]; [|done].
    apply IH.
    + split; [lia|]. apply Z.div_lt_upper_bound; [lia|].
      change 128 with (2 ^ 7). rewrite <- Z.pow_add_r by lia.
      replace (7 + 7 * Z.of_nat fuel) with (7 * Z.of_nat (Datatypes.S fuel)) by lia. apply Hv.
    + destruct fuel; [|lia]. cbn in Hv.
      assert (val / 128 = 0) by (apply Z.div_small; lia). lia.
Qed.

Lemma groups_length fuel val n : 0 <= val < 2 ^ (7 * Z.of_nat n) -> (0 < n)%nat ->
  (length (groups fuel val) <= n)%nat.
Proof.
  revert val n; induction fuel as [|fuel IH]; intros val n Hv Hn; [cbn; lia|]. cbn [groups].
  destruct (_ =? 0) eqn:E; bool_to_prop; [cbn; lia|]. destruct n as [|n]; [lia|]. cbn [length].
  apply le_n_S, IH.
  - split; [apply Z.div_pos; lia|]. apply Z.div_lt_upper_bound; [lia|].
    change 128 with (2 ^ 7). rewrite <- Z.pow_add_r by lia.
    replace (7 + 7 * Z.of_nat n) with (7 * Z.of_nat (S n)) by lia. apply Hv.
  - destruct n; [|lia]. cbn in Hv. rewrite Z.div_small in E by lia. done.
Qed.

Lemma groups_ok fuel val : 0 <= val -> Forall byte_ok (groups fuel val).
Proof.
  revert val; induction fuel as [|fuel IH]; intros val Hv; cbn [groups]; [done|].
  pose proof (Z.mod_pos_bound val 128 ltac:(lia)).
  destruct (_ =? 0); (constructor; [unfold byte_ok; lia|]); [done|]. apply IH. apply Z.div_pos; lia.
Qed.

Lemma low_bits b x : 0 <= x < 128 -> Z.land (x + (if (b : bool) then 128 else 0)) 127 = x /\
  (Z.land (x + (if b then 128 else 0)) 128 =? 0) = negb b.
Proof.
  intros Hx. assert (x + (if b then 128 else 0) = Z.lor x (Z.shiftl (if b then 1 else 0) 7)) as ->.
  { rewrite lor_shiftl_add; [by destruct b|lia|done]. }
  assert (Z.land x 128 = 0) as H128 by (apply (land_shiftl_small x 1 7); [lia|done]).
  rewrite !Z.land_lor_distr_l, H128. split.
  - change 127 with (2 ^ 7 - 1). rewrite (land_pow2_mod x 7), Z.mod_small by lia.
    destruct b; cbn; apply Z.lor_0_r.
  - by destruct b.
Qed.

(** One group at place [by_] of a 32-bit number, and what is left above it. *)
Lemma group_step v by_ val :
  (exists k, by_ = 7 * k) -> 0 <= by_ <= 28 -> 0 <= v < 2 ^ by_ -> 0 <= val < 2 ^ (32 - by_) ->
  let w := v + val mod 128 * 2 ^ by_ in
  Z.lor v (u32 (Z.shiftl (val mod 128) by_)) = w /\ 0 <= w < 2 ^ 32 /\
  (val / 128 = 0 -> w = v + val * 2 ^ by_) /\
  (val / 128 <> 0 -> by_ + 7 <= 28 /\ w < 2 ^ (by_ + 7) /\ 0 <= val / 128 < 2 ^ (32 - (by_ + 7)) /\
     w + val / 128 * 2 ^ (by_ + 7) = v + val * 2 ^ by_).
Proof.
  intros [k Hk] Hby Hv Hval w.
  pose proof (Z.mod_pos_bound val 128 ltac:(lia)) as Hm. pose proof (Z.div_mod val 128 ltac:(lia)) as Hdm.
  assert (Hp : 0 < 2 ^ by_) by (apply Z.pow_pos_nonneg; lia).
  assert (H32 : 2 ^ 32 = 2 ^ (32 - by_) * 2 ^ by_) by (rewrite <- Z.pow_add_r by lia; f_equal; lia).
  assert (Hq : 0 <= val / 128) by (apply Z.div_pos; lia).
  split_and!.
  - rewrite u32_small by (rewrite Z.shiftl_mul_pow2 by lia; nia). apply lor_shiftl_add; lia.
  - subst w. nia.
  - subst w. nia.
  - intros E. subst w. nia.
  - intros E. rewrite (Z.pow_add_r 2 by_ 7) by lia. change (2 ^ 7) with 128.
    assert (by_ + 7 <= 28) as Hlt.
    { assert (by_ = 28 \/ by_ + 7 <= 28) as [Hb| ] by lia; [|done].
      rewrite Hb in Hval. cbn in Hval. rewrite Z.div_small in E by lia. done. }
    split_and!; [done|subst w; nia|lia| |subst w; nia].
    apply Z.div_lt_upper_bound; [lia|]. change 128 with (2 ^ 7).
    rewrite <- Z.pow_add_r by lia. replace (7 + (32 - (by_ + 7))) with (32 - by_) by lia. lia.
Qed.

(** The loops of [unpack] add the groups at their places. *)
Lemma unpack_unsigned_groups fuel : forall gf v by_ val rest,
  (exists k, by_ = 7 * k) -> 0 <= by_ <= 28 -> 0 <= v < 2 ^ by_ -> 0 <= val < 2 ^ (32 - by_) ->
  32 - by_ <= 7 * Z.of_nat gf -> 28 - by_ < 7 * Z.of_nat fuel ->
  unpack_unsigned fuel v by_ (groups gf val ++ rest) = (rest, Ok (v + val * 2 ^ by_)).
Proof.
  induction fuel as [|fuel IH]; intros gf v by_ val rest Hk Hby Hv Hval Hgf Hfuel; [lia|].
  destruct gf as [|gf]; [lia|]. cbn [groups unpack_unsigned].
  pose proof (Z.mod_pos_bound val 128 ltac:(lia)) as Hm.
  destruct (group_step v by_ val Hk Hby Hv Hval) as (Hlor & Hw & Hlast & Hmore).
  destruct (val / 128 =? 0) eqn:E; bool_to_prop; run_st; cbn [app get_byte].
  - destruct (low_bits false (val mod 128) Hm) as [H1 H2]. rewrite Z.add_0_r in H1, H2.
    rewrite H1, H2, Hlor. cbn [negb andb]. rewrite u32_small by done. by rewrite Hlast.
  - destruct (low_bits true (val mod 128) Hm) as [H1 H2], (Hmore E) as (Hlt & Hlow & Hq & Heq).
    rewrite H1, H2, Hlor, u8_small, (proj2 (Z.ltb_lt _ 32)) by lia. cbn [negb andb].
    rewrite IH; [by rewrite Heq|destruct Hk as [k ->]; exists (k + 1); lia|lia..].
Qed.

Lemma unpack_signed_groups fuel : forall gf v by_ val rest,
  (exists k, by_ = 7 * k) -> 0 <= by_ <= 28 -> 0 <= v < 2 ^ by_ -> 0 <= val < 2 ^ (32 - by_) ->
  32 - by_ <= 7 * Z.of_nat gf -> 28 - by_ < 7 * Z.of_nat fuel ->
  unpack_signed fuel v by_ (groups gf val ++ rest) = (rest, Ok (v + val * 2 ^ by_)).
Proof.
  induction fuel as [|fuel IH]; intros gf v by_ val rest Hk Hby Hv Hval Hgf Hfuel; [lia|].
  destruct gf as [|gf]; [lia|]. cbn [groups unpack_signed].
  pose proof (Z.mod_pos_bound val 128 ltac:(lia)) as Hm.
  destruct (group_step v by_ val Hk Hby Hv Hval) as (Hlor & Hw & Hlast & Hmore).
  destruct (val / 128 =? 0) eqn:E; bool_to_prop; run_st; cbn [app get_byte];
    rewrite (proj2 (Z.leb_gt 32 by_)) by lia.
  - destruct (low_bits false (val mod 128) Hm) as [H1 H2]. rewrite Z.add_0_r in H1, H2.
    rewrite H1, H2, Hlor. cbn [negb]. by rewrite Hlast.
  - destruct (low_bits true (val mod 128) Hm) as [H1 H2], (Hmore E) as (Hlt & Hlow & Hq & Heq).
    rewrite H1, H2, Hlor. cbn [negb].
    rewrite IH; [by rewrite Heq|destruct Hk as [k ->]; exists (k + 1); lia|lia..].
Qed.

Lemma concat_singletons (l : bytes) : concat ((fun b => [b]) <$> l) = l.
Proof. induction l as [|b l IH]; [done|]. cbn. by rewrite IH. Qed.

(** The single bytes written for a 32-bit value, and the codecs that write them. *)
Definition varint_chunks (v : Z) : list bytes := (fun b => [b]) <$> groups max_groups v.

Lemma varint_encoding (c : codec Z) (a v : Z) : 0 <= v < 2 ^ 32 ->
  (forall S (H : Stream S) (s : S), pack c a s = pack_varint max_groups v s) ->
  (forall rest, unpack c (groups max_groups v ++ rest) = (rest, Ok a)) ->
  encoding c 5 a (varint_chunks v).
Proof.
  intros Hv Hpack Hunpack. unfold varint_chunks. split.
  - intros S H s. rewrite Hpack. apply pack_varint_groups; [|unfold max_groups; lia].
    change (7 * Z.of_nat _) with 70. lia.
  - rewrite concat_singletons. apply groups_ok. lia.
  - apply Forall_fmap, Forall_true. intros b. cbn. lia.
  - unfold blen. rewrite concat_singletons.
    pose proof (groups_length max_groups v 5 ltac:(change (7 * Z.of_nat 5) with 35; lia) ltac:(lia)). lia.
  - intros rest. by rewrite concat_singletons.
Qed.

Lemma c_unsigned_int_ok : codec_ok c_unsigned_int (fun v => 0 <= v < 2 ^ 32) 5.
Proof.
  intros v Hv. exists (varint_chunks v). apply varint_encoding; [done..|].
  intros rest. cbn [unpack c_unsigned_int].
  rewrite unpack_unsigned_groups; [|by exists 0|lia|done|by rewrite Z.sub_0_r|done|lia].
  f_equal. f_equal. lia.
Qed.

(** Sequencing an encoding before another. *)
Lemma unpack_seq {A B} (m : St bytes A) (k : A -> St bytes B) cs1 cs2 a b rest :
  (forall r, m (concat cs1 ++ r) = (r, Ok a)) ->
  (forall r, k a (concat cs2 ++ r) = (r, Ok b)) ->
  (x ← m; k x) (concat (cs1 ++ cs2) ++ rest) = (rest, Ok b).
Proof.
  intros Hm Hk. rewrite concat_app, <- app_assoc. unfold mbind, St_bind. by rewrite Hm, Hk.
Qed.

Lemma c_pair_ok {A B} (c1 : codec A) (c2 : codec B) v1 v2 b1 b2 :
  codec_ok c1 v1 b1 -> codec_ok c2 v2 b2 ->
  codec_ok (c_pair c1 c2) (fun p => v1 p.1 /\ v2 p.2) (b1 + b2).
Proof.
  intros H1 H2 [x y] [Hx Hy]. destruct (H1 x Hx) as [cs1 []], (H2 y Hy) as [cs2 []].
  exists (cs1 ++ cs2). split.
  - intros S H s. apply for_each_seq; intros; auto.
  - rewrite concat_app. by apply Forall_app.
  - by apply Forall_app.
  - rewrite blen_app. lia.
  - intros rest. cbn [unpack c_pair]. apply unpack_seq with x; [done|]. intros r.
    unfold mbind, St_bind. by rewrite en_unpack1.
Qed.

Lemma c_struct_ok {A B} (fields : A -> B) (build : B -> A) (c : codec B) v b :
  (forall a, v (fields a) -> build (fields a) = a) -> codec_ok c v b ->
  codec_ok (c_struct fields build c) (fun a => v (fields a)) b.
Proof.
  intros Hb Hc a Ha. destruct (Hc _ Ha) as [cs []]. exists cs. split; try done.
  intros rest. cbn [unpack c_struct]. unfold mbind, St_bind. rewrite en_unpack0.
  by unfold mret, St_ret; rewrite (Hb a Ha).
Qed.

Lemma c_bool_ok : codec_ok c_bool (fun _ => True) 1.
Proof.
  intros b _. destruct (c_uint_ok 1 ltac:(lia) (if b then 1 else 0) ltac:(by destruct b)) as [cs []].
  exists cs. split; try done. intros rest. cbn [unpack c_bool].
  unfold mbind at 1, St_bind at 1. rewrite en_unpack0. by destruct b.
Qed.

Lemma c_optional_ok {A} (c : codec A) v b : 0 <= b -> codec_ok c v b ->
  codec_ok (c_optional c) (fun o => match o with Some x => v x | None => True end) (1 + b).
Proof.
  intros Hb Hc o Ho. destruct (c_bool_ok (bool_decide (is_Some o)) I) as [cs1 []].
  destruct o as [x|].
  - destruct (Hc x Ho) as [cs2 []]. exists (cs1 ++ cs2). split.
    + intros S H s. apply for_each_seq; intros; [apply en_emits0|apply en_emits1].
    + rewrite concat_app. by apply Forall_app.
    + by apply Forall_app.
    + rewrite blen_app. lia.
    + intros rest. cbn [unpack c_optional]. apply unpack_seq with true; [done|]. intros r.
      unfold mbind, St_bind. by rewrite en_unpack1.
  - exists cs1. split; try done.
    + intros S H s. rewrite <- (app_nil_r cs1). apply for_each_seq; intros; [apply en_emits0|done].
    + lia.
    + intros rest. cbn [unpack c_optional]. unfold mbind, St_bind. by rewrite en_unpack0.
Qed.

Lemma c_variant_ok {A} (count : Z) (c : codec A) v b : count <= 2 ^ 32 -> codec_ok c v b ->
  codec_ok (c_variant count c) (fun p => 0 <= p.1 < count /\ v p.2) (5 + b).
Proof.
  intros Hcount Hc [w x] [Hw Hx]. cbn in Hw, Hx.
  destruct (c_unsigned_int_ok w ltac:(lia)) as [cs1 []], (Hc x Hx) as [cs2 []].
  exists (cs1 ++ cs2). split.
  - intros S H s. apply for_each_seq; intros; [|apply en_emits1]. cbn [fst].
    rewrite u32_small by lia. apply en_emits0.
  - rewrite concat_app. by apply Forall_app.
  - by apply Forall_app.
  - rewrite blen_app. lia.
  - intros rest. cbn [unpack c_variant]. apply unpack_seq with w; [done|]. intros r.
    rewrite fc_assert_true by (apply Z.ltb_lt; lia). unfold mbind, St_bind. by rewrite en_unpack1.
Qed.

Lemma c_bytes_ok :
  codec_ok c_bytes (fun v => Z.of_nat (length v) <= MAX_SIZE_OF_BYTE_ARRAYS /\ Forall byte_ok v)
    (5 + MAX_SIZE_OF_BYTE_ARRAYS).
Proof.
  intros v [Hl Hv]. assert (Hmax : MAX_SIZE_OF_BYTE_ARRAYS < 2 ^ 31) by done.
  assert (Hlen : 0 <= Z.of_nat (length v) < 2 ^ 32) by lia.
  destruct (c_unsigned_int_ok _ Hlen) as [cs1 []].
  exists (cs1 ++ if (length v =? 0)%nat then [] else [v]). split.
  - intros S H s. cbn [pack c_bytes]. rewrite fc_assert_true by (by apply Z.leb_le).
    apply for_each_seq; intros s'; [rewrite u32_small by lia; apply en_emits0|].
    destruct (_ =? 0)%nat; [done|]. cbn. unfold mbind, St_bind. by destruct (write v s') as [? [[]|]].
  - rewrite concat_app. apply Forall_app. split; [done|]. destruct (_ =? 0)%nat; cbn; [done|].
    by rewrite app_nil_r.
  - apply Forall_app. split; [done|]. destruct (_ =? 0)%nat; constructor; [lia|done].
  - rewrite blen_app. unfold blen at 2. destruct (_ =? 0)%nat; cbn [concat]; rewrite ?app_nil_r; cbn; lia.
  - intros rest. cbn [unpack c_bytes]. apply unpack_seq with (Z.of_nat (length v)); [done|]. intros r.
    rewrite fc_assert_true by (by apply Z.leb_le). destruct (Nat.eqb_spec (length v) 0) as [E|E].
    + rewrite E. apply length_zero_iff_nil in E. by subst v.
    + rewrite (proj2 (Z.eqb_neq _ _)), Nat2Z.id by lia. cbn [concat]. rewrite app_nil_r. apply read_app.
Qed.

Lemma c_elements_ok {A} (c : codec A) v b l : codec_ok c v b -> Forall v l -> exists cs,
  (forall S (H : Stream S) (s : S), for_each (pack c) l s = for_each write cs s) /\
  Forall byte_ok (concat cs) /\ Forall (fun d => Z.of_nat (length d) < 2 ^ 31) cs /\
  blen cs <= Z.of_nat (length l) * b /\
  forall rest, unpack_n c (length l) (concat cs ++ rest) = (rest, Ok l).
Proof.
  intros Hc Hl. induction Hl as [|x l Hx Hl (cs2 & He & Hb & Hk & Hn & Hu)].
  { exists []. by split_and!. }
  destruct (Hc x Hx) as [cs1 []]. exists (cs1 ++ cs2). split_and!.
  - intros S H s. cbn [for_each]. apply for_each_seq; intros; auto.
  - rewrite concat_app. by apply Forall_app.
  - by apply Forall_app.
  - rewrite blen_app. cbn [length]. lia.
  - intros rest. cbn [length unpack_n]. apply unpack_seq with x; [done|]. intros r.
    unfold mbind, St_bind. by rewrite Hu.
Qed.

Lemma c_vector_ok {A} (c : codec A) v b : 0 <= b -> codec_ok c v b ->
  codec_ok (c_vector c) (fun l => Z.of_nat (length l) <= MAX_NUM_ARRAY_ELEMENTS /\ Forall v l)
    (5 + MAX_NUM_ARRAY_ELEMENTS * b).
Proof.
  intros Hb Hc l [Hn Hl]. assert (Hmax : MAX_NUM_ARRAY_ELEMENTS < 2 ^ 31) by done.
  assert (Hlen : 0 <= Z.of_nat (length l) < 2 ^ 32) by lia.
  destruct (c_unsigned_int_ok _ Hlen) as [cs1 []].
  destruct (c_elements_ok c v b l Hc Hl) as (cs2 & He & Hbs & Hk & Hsz & Hu).
  exists (cs1 ++ cs2). split.
  - intros S H s. cbn [pack c_vector]. rewrite fc_assert_true by (by apply Z.leb_le).
    apply for_each_seq; intros; [rewrite u32_small by lia; apply en_emits0|apply He].
  - rewrite concat_app. by apply Forall_app.
  - by apply Forall_app.
  - rewrite blen_app. nia.
  - intros rest. cbn [unpack c_vector]. apply unpack_seq with (Z.of_nat (length l)); [done|]. intros r.
    rewrite fc_assert_true by (by apply Z.leb_le). by rewrite Nat2Z.id.
Qed.

(** ** Whole values *)
Lemma write_size cs : forall n, n + blen cs < 2 ^ 64 -> 0 <= n ->
  for_each write cs n = (n + blen cs, Ok tt).
Proof.
  induction cs as [|d cs IH]; intros n Hn H0.
  { unfold blen. cbn. unfold mret, St_ret. f_equal. lia. }
  change (d :: cs) with ([d] ++ cs) in Hn |- *. rewrite blen_app in Hn |- *.
  assert (blen [d] = Z.of_nat (length d)) as Hd by (unfold blen; cbn; by rewrite app_nil_r).
  assert (0 <= blen cs) by (unfold blen; lia). rewrite Hd in Hn |- *.
  cbn [app for_each]. unfold mbind, St_bind. cbn [write size_stream modify_st].
  rewrite u64_small by lia. rewrite IH by lia. f_equal. lia.
Qed.

Lemma write_buffer cs : forall out k, Forall (fun d => Z.of_nat (length d) < 2 ^ 31) cs ->
  blen cs <= k -> for_each write cs (Buffer out k) = (Buffer (out ++ concat cs) (k - blen cs), Ok tt).
Proof.
  induction cs as [|d cs IH]; intros out k Hd Hk.
  { unfold blen. cbn. unfold mret, St_ret. by rewrite app_nil_r, Z.sub_0_r. }
  change (d :: cs) with ([d] ++ cs) in Hk |- *. rewrite blen_app in Hk |- *.
  assert (blen [d] = Z.of_nat (length d)) as Hl by (unfold blen; cbn; by rewrite app_nil_r).
  assert (0 <= blen cs) by (unfold blen; lia). rewrite Hl in Hk |- *.
  apply Forall_cons in Hd as [Hd Hds].
  cbn [app for_each]. unfold mbind, St_bind. cbn [write buffer_stream room written].
  rewrite i32_small by lia. rewrite (proj2 (Z.leb_le _ k)) by lia.
  rewrite IH by (done || lia). cbn [concat]. rewrite <- app_assoc. f_equal. f_equal. lia.
Qed.

(** Measuring and filling agree: the buffer is filled exactly, and what is in it reads
    back as the value, whatever follows. *)
Lemma pack_value_ok {A} (c : codec A) v b a : codec_ok c v b -> b < 2 ^ 64 -> v a ->
  exists d, pack_value c a = Ok d /\ pack_size c a = Ok (Z.of_nat (length d)) /\
    Z.of_nat (length d) <= b /\ Forall byte_ok d /\
    forall rest, unpack_value c (d ++ rest) = Ok a.
Proof.
  intros Hc Hb Ha. destruct (Hc a Ha) as [cs []]. exists (concat cs).
  assert (Hsize : pack_size c a = Ok (blen cs)).
  { unfold pack_size. rewrite en_emits0, write_size by lia. done. }
  split_and!; try done.
  - unfold pack_value. rewrite Hsize. run_monad. destruct (blen cs =? 0) eqn:E; bool_to_prop.
    + unfold blen in E. destruct (concat cs); [done|]. cbn in E. lia.
    + rewrite en_emits0, write_buffer by (done || lia). cbn. by rewrite Z.sub_diag, app_nil_r.
  - intros rest. unfold unpack_value. by rewrite en_unpack0.
Qed.

(** ** Signed variable-length integers *)

Lemma u32_i32 x : u32 (i32 x) = x mod 2 ^ 32.
Proof.
  unfold u32, i32. rewrite Zminus_mod_idemp_l. f_equal. lia.
Qed.

(** The mapping to unsigned numbers: even for nonnegative values, odd for negative. *)
Lemma zigzag_value x : - 2 ^ 31 <= x < 2 ^ 31 ->
  zigzag x = if x <? 0 then - 2 * x - 1 else 2 * x.
Proof.
  intros Hx. unfold zigzag. rewrite Z.shiftl_mul_pow2, Z.shiftr_div_pow2 by lia. change (2 ^ 1) with 2.
  destruct (x <? 0) eqn:E; bool_to_prop.
  - replace (x / 2 ^ 31) with (-1) by (apply Z.div_unique with (x + 2 ^ 31); lia).
    rewrite Z.lxor_m1_r. unfold Z.lnot, u32, i32.
    pose proof (Z.mod_pos_bound (x * 2 + 2 ^ 31) (2 ^ 32) ltac:(lia)).
    pose proof (Z.div_mod (x * 2 + 2 ^ 31) (2 ^ 32) ltac:(lia)).
    symmetry. apply Z.mod_unique with ((x * 2 + 2 ^ 31) / 2 ^ 32); lia.
  - rewrite (Z.div_small x) by lia. rewrite Z.lxor_0_r, u32_i32, Z.mod_small; lia.
Qed.

(** Below 2^31 the inverse mapping is right. *)
Lemma unzigzag_value x : - 2 ^ 30 <= x < 2 ^ 30 ->
  unzigzag (if x <? 0 then - 2 * x - 1 else 2 * x) = x.
Proof.
  intros Hx. unfold unzigzag. set (z := if x <? 0 then _ else _).
  assert (Hz : 0 <= z < 2 ^ 31) by (subst z; destruct (x <? 0) eqn:E; bool_to_prop; lia).
  rewrite (Z.shiftr_div_pow2 z 31), (Z.div_small z) by lia. rewrite Z.lxor_0_r.
  assert (Z.land z 1 = z mod 2) as -> by (apply (land_pow2_mod z 1); lia).
  rewrite Z.shiftr_div_pow2 by lia. change (2 ^ 1) with 2. subst z. destruct (x <? 0) eqn:E; bool_to_prop.
  - replace (-2 * x - 1) with (1 + (- x - 1) * 2) by lia.
    rewrite Z.div_add, Z.mod_add by lia. change (1 / 2) with 0. change (1 mod 2) with 1.
    change (negb (1 =? 0)) with true. cbv iota.
    rewrite (i32_small (0 + (- x - 1) + 1)), i32_small; lia.
  - rewrite (Z.mul_comm 2 x), Z.mod_mul, Z.div_mul by lia. cbn [negb Z.eqb].
    rewrite (i32_small (x + 0)), (i32_small (- (x + 0))), i32_small by lia. lia.
Qed.

Lemma c_signed_int_ok : codec_ok c_signed_int (fun x => - 2 ^ 30 <= x < 2 ^ 30) 5.
Proof.
  intros x Hx. exists (varint_chunks (zigzag x)).
  pose proof (zigzag_value x ltac:(lia)) as Hzig.
  assert (Hz : 0 <= zigzag x < 2 ^ 32) by (rewrite Hzig; destruct (x <? 0) eqn:E; bool_to_prop; lia).
  apply varint_encoding; [done..|]. intros rest. cbn [unpack c_signed_int]. unfold mbind, St_bind.
  rewrite unpack_signed_groups; [|by exists 0|lia|done|by rewrite Z.sub_0_r|done|lia].
  unfold mret, St_ret. rewrite Z.add_0_l, Z.mul_1_r, Hzig. by rewrite unzigzag_value.
Qed.

(** Signed integers survive packing and unpacking from -2^30 up to 2^30 - 1. Outside
    this range they do not: 2^30 reads back as 2^30 + 1, because the top bit of the
    unsigned number is folded into the lowest one. *)
Theorem signed_int_roundtrip :
  (forall x rest, - 2 ^ 30 <= x < 2 ^ 30 ->
     exists d, pack_value c_signed_int x = Ok d /\ unpack_value c_signed_int (d ++ rest) = Ok x) /\
  (exists d, pack_value c_signed_int (2 ^ 30) = Ok d /\
     unpack_value c_signed_int d = Ok (2 ^ 30 + 1)).
Proof.
  split.
  - intros x rest Hx.
    destruct (pack_value_ok _ _ _ x c_signed_int_ok ltac:(lia) Hx) as (d & Hp & _ & _ & _ & Hu).
    exists d. split; [done|apply Hu].
  - eexists. split; [vm_compute; reflexivity|]. by vm_compute.
Qed.

Lemma signed_int_roundtrip_witness :
  exists d, pack_value c_signed_int (-5) = Ok d /\ unpack_value c_signed_int (d ++ [7]) = Ok (-5).
Proof. apply (proj1 signed_int_roundtrip). lia. Defined.
