(* ===== verification/Asset.v ===== *)
(** * Symbols and assets of the chain library

    Model of [symbol.hpp], [asset.hpp] and [asset.cpp] under [libraries/chain], with
    the checked integers of [fc/safe.hpp]: symbols packed into 64 bits, amounts with a
    precision, and their textual form. Reading a number from a string is
    [boost::lexical_cast], an interface with its documented behaviour. *)
From Stdlib Require Import Ascii String.
From S2P Require Import Prelude Names Raw.

(** ** Checked integers *)
Module Safe.
Definition int64_min : Z := - 2 ^ 63.
Definition int64_max : Z := 2 ^ 63 - 1.

Definition add (a b : Z) : result Z :=
  if (0 <? b) && (int64_max - b <? a) then Throw overflow_exception
  else if (b <? 0) && (a <? int64_min - b) then Throw underflow_exception
  else mret (i64 (a + b)).

Definition sub (a b : Z) : result Z :=
  if (0 <? b) && (a <? int64_min + b) then Throw underflow_exception
  else if (b <? 0) && (int64_max + b <? a) then Throw overflow_exception
  else mret (i64 (a - b)).

(** Division truncates; a division by zero inside a check would be undefined. *)
Definition mul (a b : Z) : result Z :=
  if 0 <? a then
    if 0 <? b then
      if Z.quot int64_max b <? a then Throw overflow_exception else mret (i64 (a * b))
    else if b <? Z.quot int64_min a then Throw underflow_exception else mret (i64 (a * b))
  else
    if 0 <? b then
      if a <? Z.quot int64_min b then Throw underflow_exception else mret (i64 (a * b))
    else if negb (a =? 0) && (b <? Z.quot int64_max a) then Throw overflow_exception
         else mret (i64 (a * b)).

Definition div (a b : Z) : result Z :=
  if b =? 0 then Throw divide_by_zero_exception
  else if (a =? int64_min) && (b =? -1) then Throw overflow_exception
  else mret (Z.quot a b).

Definition rem (a b : Z) : result Z :=
  if b =? 0 then Throw divide_by_zero_exception
  else if (a =? int64_min) && (b =? -1) then Throw overflow_exception
  else mret (Z.rem a b).

Definition opp (a : Z) : result Z :=
  if a =? int64_min then Throw overflow_exception else mret (- a).
End Safe.

(** ** Strings *)

(** [std::to_string] of an integer. *)
Definition digit (d : Z) : ascii := ascii_of_N (Z.to_N (48 + d)).
Fixpoint digits (fuel : nat) (n : Z) (acc : list ascii) : list ascii :=
  match fuel with
  | O => acc
  | S fuel =>
      let acc := digit (n mod 10) :: acc in
      if n / 10 =? 0 then acc else digits fuel (n / 10) acc
  end.
(** A 64-bit number has at most twenty digits. *)
Definition decimal (n : Z) : list ascii :=
  if n <? 0 then "-"%char :: digits 20 (- n) [] else digits 20 n [].

(** [boost::trim_copy], in the classic locale. *)
Definition is_space (c : ascii) : bool := (code c =? 32) || ((9 <=? code c) && (code c <=? 13)).
Fixpoint trim_left (s : list ascii) : list ascii :=
  match s with
  | c :: s' => if is_space c then trim_left s' else s
  | [] => []
  end.
Definition trim (s : list ascii) : list ascii := rev (trim_left (rev (trim_left s))).

(** [string::find]: the text before the first occurrence and the text after it. *)
Fixpoint split_at (c : ascii) (s : list ascii) : option (list ascii * list ascii) :=
  match s with
  | [] => None
  | d :: s =>
      if decide (c = d) then Some ([], s)
      else match split_at c s with
           | Some (l, r) => Some (d :: l, r)
           | None => None
           end
  end.

(** The value of a string of decimal digits. *)
Fixpoint digits_value (acc : Z) (s : list ascii) : Z :=
  match s with
  | [] => acc
  | c :: s => digits_value (acc * 10 + (code c - 48)) s
  end.
Definition is_digit (c : ascii) : bool := (48 <=? code c) && (code c <=? 57).

(** [lexical_cast<int64_t>]: digits, after an optional minus sign, are read as the
    number they denote when it fits; nothing is assumed about other strings. *)
Class Lexical := { to_int64 : list ascii -> result Z }.
Class LexicalLaws `{Lexical} := {
  to_int64_digits : forall s, s <> [] -> forallb is_digit s = true -> digits_value 0 s < 2 ^ 63 ->
    to_int64 s = Ok (digits_value 0 s);
  to_int64_negative : forall s, s <> [] -> forallb is_digit s = true -> digits_value 0 s <= 2 ^ 63 ->
    to_int64 ("-"%char :: s) = Ok (- digits_value 0 s)
}.

(** ** symbol

    A symbol is a 64-bit number: the decimals in the lowest byte, then the letters. *)
Definition max_precision : Z := 18.
Definition is_upper (c : ascii) : bool := (65 <=? code c) && (code c <=? 90).

(** The loop of [string_to_symbol]; shifting by 64 or more is undefined. *)
Fixpoint symbol_loop (i : Z) (str : list ascii) (res : Z) : result Z :=
  match str with
  | [] => mret res
  | c :: str =>
      _ ← bes_assert (is_upper c) symbol_type_exception;
      if 64 <=? 8 * (i + 1) then Throw undefined_behaviour
      else symbol_loop (i + 1) str (Z.lor res (u64 (Z.shiftl (code c) (8 * (i + 1)))))
  end.
Definition string_to_symbol (precision : Z) (str : list ascii) : result Z :=
  res ← symbol_loop 0 str 0;
  mret (Z.lor res precision).

Definition decimals (m_value : Z) : Z := Z.land m_value 255.

(** [name]: seven bytes at most are left above the decimals. *)
Fixpoint name_loop (fuel : nat) (v : Z) : list ascii :=
  match fuel with
  | O => []
  | S fuel =>
      if 0 <? v then ascii_of_N (Z.to_N (Z.land v 255)) :: name_loop fuel (Z.shiftr v 8) else []
  end.
Definition symbol_name (m_value : Z) : list ascii := name_loop 7 (Z.shiftr m_value 8).

Definition valid_name (name : list ascii) : bool := forallb is_upper name.
Definition symbol_valid (m_value : Z) : bool :=
  (decimals m_value <=? max_precision) && valid_name (symbol_name m_value).
Definition make_symbol (v : Z) : result Z :=
  _ ← bes_assert (symbol_valid v) symbol_type_exception; mret v.

Fixpoint p10 (p : nat) : Z := match p with O => 1 | S p => u64 (p10 p * 10) end.
Definition precision (m_value : Z) : result Z :=
  _ ← bes_assert (decimals m_value <=? max_precision) symbol_type_exception;
  mret (p10 (Z.to_nat (decimals m_value))).

Definition symbol_to_string (m_value : Z) : list ascii :=
  decimal (decimals m_value) ++ [","%char] ++ symbol_name m_value.

Section parse.
Context `{Lexical}.

Definition symbol_from_string (from : list ascii) : result Z :=
  let s := trim from in
  _ ← bes_assert (negb (bool_decide (s = []))) symbol_type_exception;
  match split_at ","%char s with
  | None => Throw symbol_type_exception
  | Some (prec_part, name_part) =>
      p ← to_int64 prec_part;
      let p := u8 p in
      _ ← bes_assert (p <=? max_precision) symbol_type_exception;
      v ← string_to_symbol p (c_str name_part);
      make_symbol v
  end.
End parse.

(** ** asset *)
Definition max_amount : Z := 2 ^ 62 - 1.
Record asset := Asset { amount : Z; sym : Z }.

Definition is_amount_within_range (a : asset) : bool := (- max_amount <=? amount a) && (amount a <=? max_amount).
Definition asset_valid (a : asset) : bool := is_amount_within_range a && symbol_valid (sym a).
Definition make_asset (a : Z) (s : Z) : result asset :=
  _ ← bes_assert (is_amount_within_range (Asset a s)) asset_type_exception;
  _ ← bes_assert (symbol_valid s) asset_type_exception;
  mret (Asset a s).

(** The assignment operators do not check the range, the others build a new asset. *)
Definition asset_iadd (a o : asset) : result asset :=
  _ ← bes_assert (sym a =? sym o) asset_type_exception; mret (Asset (i64 (amount a + amount o)) (sym a)).
Definition asset_isub (a o : asset) : result asset :=
  _ ← bes_assert (sym a =? sym o) asset_type_exception; mret (Asset (i64 (amount a - amount o)) (sym a)).
Definition asset_add (a b : asset) : result asset :=
  _ ← bes_assert (sym a =? sym b) asset_type_exception; make_asset (i64 (amount a + amount b)) (sym a).
Definition asset_sub (a b : asset) : result asset :=
  _ ← bes_assert (sym a =? sym b) asset_type_exception; make_asset (i64 (amount a - amount b)) (sym a).
Definition asset_opp (a : asset) : result asset := make_asset (i64 (- amount a)) (sym a).
Definition asset_eqb (a b : asset) : bool := (sym a =? sym b) && (amount a =? amount b).
Definition asset_ltb (a b : asset) : result bool :=
  _ ← bes_assert (sym a =? sym b) asset_type_exception; mret (amount a <? amount b).
Definition asset_leb (a b : asset) : result bool := if asset_eqb a b then mret true else asset_ltb a b.

Definition asset_to_string (a : asset) : result (list ascii) :=
  let sign := if amount a <? 0 then ["-"%char] else [] in
  let abs_amount := i64 (Z.abs (amount a)) in
  p ← precision (sym a);
  let res := decimal (Z.quot abs_amount (i64 p)) in
  let fraction := if negb (decimals (sym a) =? 0)
                  then "."%char :: tail (decimal (i64 (i64 p + Z.rem abs_amount (i64 p)))) else [] in
  mret (sign ++ res ++ fraction ++ [" "%char] ++ symbol_name (sym a)).

Section parse_asset.
Context `{Lexical}.

Definition asset_from_string (from : list ascii) : result asset :=
  let s := trim from in
  match split_at " "%char s with
  | None => Throw asset_type_exception
  | Some (amount_str, rest) =>
      let symbol_str := trim rest in
      let dot := split_at "."%char amount_str in
      _ ← (match dot with
           | Some (_, fraction) => bes_assert (negb (bool_decide (fraction = []))) asset_type_exception
           | None => mret tt
           end);
      let precision_digit_str := match dot with
                                 | Some (_, fraction) => decimal (Z.of_nat (length fraction))
                                 | None => ["0"%char]
                                 end in
      s ← symbol_from_string (precision_digit_str ++ [","%char] ++ symbol_str);
      parts ← (match dot with
               | Some (whole, fraction) =>
                   int_part ← to_int64 whole;
                   fract_part ← to_int64 fraction;
                   fract_part ← (if bool_decide (head amount_str = Some "-"%char)
                                 then Safe.mul fract_part (-1) else mret fract_part);
                   mret (int_part, fract_part)
               | None => int_part ← to_int64 amount_str; mret (int_part, 0)
               end);
      p ← precision s;
      scaled ← Safe.mul parts.1 (i64 p);
      total ← Safe.add scaled parts.2;
      make_asset total s
  end.
End parse_asset.

(** ** Checked integers are exact *)
Definition int64_range (a : Z) : Prop := Safe.int64_min <= a <= Safe.int64_max.

(** The result of an operation whose exact value is [v]. *)
Definition checked (v : Z) (r : result Z) : Prop :=
  (int64_range v -> r = Ok v) /\
  (Safe.int64_max < v -> r = Throw overflow_exception) /\
  (v < Safe.int64_min -> r = Throw underflow_exception).

Lemma div_lt_iff m a k : 0 < a -> m / a < k <-> m < a * k.
Proof. intros Ha. pose proof (Z.div_mod m a). pose proof (Z.mod_pos_bound m a Ha). nia. Qed.

Lemma checked_ok v : int64_range v -> checked v (mret (i64 v)).
Proof.
  unfold checked, int64_range, Safe.int64_min, Safe.int64_max. intros Hv. rewrite i64_small by lia.
  split_and!; [done|lia|lia].
Qed.
Lemma checked_over v : Safe.int64_max < v -> checked v (Throw overflow_exception).
Proof. unfold checked, int64_range, Safe.int64_min, Safe.int64_max. intros Hv. split_and!; [lia|done|lia]. Qed.
Lemma checked_under v : v < Safe.int64_min -> checked v (Throw underflow_exception).
Proof. unfold checked, int64_range, Safe.int64_min, Safe.int64_max. intros Hv. split_and!; [lia|lia|done]. Qed.

(** One branch of a checked operation. *)
Ltac checked_branch :=
  bool_to_prop; first
    [ apply checked_ok; unfold int64_range, Safe.int64_min, Safe.int64_max in *; nia
    | apply checked_over; unfold int64_range, Safe.int64_min, Safe.int64_max in *; nia
    | apply checked_under; unfold int64_range, Safe.int64_min, Safe.int64_max in *; nia ].

Lemma add_checked a b : int64_range a -> int64_range b -> checked (a + b) (Safe.add a b).
Proof.
  intros Ha Hb. unfold Safe.add.
  destruct (0 <? b) eqn:E1, (Safe.int64_max - b <? a) eqn:E2, (b <? 0) eqn:E3, (a <? Safe.int64_min - b) eqn:E4;
    cbn [andb]; checked_branch.
Qed.
Lemma sub_checked a b : int64_range a -> int64_range b -> checked (a - b) (Safe.sub a b).
Proof.
  intros Ha Hb. unfold Safe.sub.
  destruct (0 <? b) eqn:E1, (a <? Safe.int64_min + b) eqn:E2, (b <? 0) eqn:E3, (Safe.int64_max + b <? a) eqn:E4;
    cbn [andb]; checked_branch.
Qed.

(** The comparisons of [Safe.mul] with a truncated quotient. *)
Lemma quot_max_lt a b : 0 < b -> Z.quot Safe.int64_max b < a <-> Safe.int64_max < b * a.
Proof. intros Hb. rewrite Z.quot_div_nonneg by (unfold Safe.int64_max; lia). by apply div_lt_iff. Qed.
Lemma quot_min_lt a b : 0 < b -> a < Z.quot Safe.int64_min b <-> b * a < Safe.int64_min.
Proof.
  intros Hb. unfold Safe.int64_min. rewrite Z.quot_opp_l, Z.quot_div_nonneg by lia.
  pose proof (div_lt_iff (2 ^ 63) b (- a) Hb). lia.
Qed.
Lemma quot_max_neg a b : a < 0 -> b < Z.quot Safe.int64_max a <-> Safe.int64_max < a * b.
Proof.
  intros Ha. replace a with (- - a) at 1 by lia. unfold Safe.int64_max.
  rewrite Z.quot_opp_r, Z.quot_div_nonneg by lia. pose proof (div_lt_iff (2 ^ 63 - 1) (- a) (- b)). lia.
Qed.

Lemma mul_checked a b : int64_range a -> int64_range b -> checked (a * b) (Safe.mul a b).
Proof.
  intros Ha Hb. unfold Safe.mul. destruct (0 <? a) eqn:E1, (0 <? b) eqn:E2; bool_to_prop.
  - pose proof (quot_max_lt a b E2). destruct (_ <? a) eqn:E; checked_branch.
  - pose proof (quot_min_lt b a E1). destruct (b <? _) eqn:E; checked_branch.
  - pose proof (quot_min_lt a b E2). destruct (a <? _) eqn:E; checked_branch.
  - destruct (a =? 0) eqn:E0; cbn [negb andb]; [checked_branch|bool_to_prop].
    pose proof (quot_max_neg a b ltac:(lia)). destruct (b <? _) eqn:E; checked_branch.
Qed.

Lemma opp_checked a : int64_range a -> checked (- a) (Safe.opp a).
Proof.
  intros Ha. unfold Safe.opp. destruct (a =? _) eqn:E; [checked_branch|]. bool_to_prop.
  pose proof (checked_ok (- a)) as Hc. unfold int64_range, Safe.int64_min, Safe.int64_max in *.
  rewrite i64_small in Hc by lia. apply Hc. lia.
Qed.

Lemma quot_range a b : int64_range a -> b <> 0 ->
  int64_range (Z.quot a b) \/ (a = Safe.int64_min /\ b = -1 /\ Z.quot a b = 2 ^ 63).
Proof.
  intros Ha Hb. assert (Hcase : b = 1 \/ b = -1 \/ 1 < Z.abs b) by lia.
  unfold int64_range, Safe.int64_min, Safe.int64_max in *. destruct Hcase as [->|[->|Hb2]].
  - rewrite Z.quot_1_r. lia.
  - change (-1) with (- (1)). rewrite Z.quot_opp_r, Z.quot_1_r by lia. lia.
  - left. pose proof (Z.quot_abs a b Hb) as Habs. rewrite Z.quot_div_nonneg in Habs by lia.
    destruct (decide (a = 0)) as [->|]; [by rewrite Z.quot_0_l by done|].
    pose proof (Z.div_lt (Z.abs a) (Z.abs b)). lia.
Qed.

Lemma div_rem_checked a b : int64_range a -> b <> 0 ->
  checked (Z.quot a b) (Safe.div a b) /\ (int64_range (Z.quot a b) -> Safe.rem a b = Ok (Z.rem a b)).
Proof.
  intros Ha Hb. unfold Safe.div, Safe.rem. replace (b =? 0) with false by lia.
  destruct (quot_range a b Ha Hb) as [Hr|(-> & -> & Hq)].
  - replace ((a =? Safe.int64_min) && (b =? -1)) with false.
    2: { destruct (a =? _) eqn:E1, (b =? _) eqn:E2; bool_to_prop; subst; try done.
         destruct Hr as [_ Hr]. vm_compute in Hr. by destruct Hr. }
    split; [|done]. pose proof (checked_ok _ Hr) as Hc. rewrite i64_small in Hc; [done|].
    unfold int64_range, Safe.int64_min, Safe.int64_max in Hr. lia.
  - rewrite Hq. split; [by apply checked_over|]. intros [_ Hr]. vm_compute in Hr. by destruct Hr.
Qed.

(** The operations of [safe<int64_t>] return the exact result when it is a 64-bit
    integer and throw overflow or underflow on the side where it is not; division and
    remainder by zero throw, and so do both for the one quotient that does not fit. *)
Theorem safe_exact (a b : Z) : int64_range a -> int64_range b ->
  checked (a + b) (Safe.add a b) /\ checked (a - b) (Safe.sub a b) /\ checked (a * b) (Safe.mul a b) /\
  checked (- a) (Safe.opp a) /\
  (b = 0 -> Safe.div a b = Throw divide_by_zero_exception /\ Safe.rem a b = Throw divide_by_zero_exception) /\
  (b <> 0 -> checked (Z.quot a b) (Safe.div a b) /\
     (int64_range (Z.quot a b) -> Safe.rem a b = Ok (Z.rem a b))).
Proof.
  intros Ha Hb. split_and!; [by apply add_checked|by apply sub_checked|by apply mul_checked|by apply opp_checked| |].
  - by intros ->.
  - intros Hb0. by apply div_rem_checked.
Qed.

(** ** Decimal numbers *)
Lemma code_of_N n : 0 <= n < 256 -> code (ascii_of_N (Z.to_N n)) = n.
Proof. intros Hn. unfold code. rewrite N_ascii_embedding by lia. lia. Qed.
Lemma code_range c : 0 <= code c < 256.
Proof. unfold code. pose proof (N_ascii_bounded c). lia. Qed.
Lemma code_digit d : 0 <= d < 10 -> code (digit d) = 48 + d.
Proof. intros Hd. apply code_of_N. lia. Qed.
Lemma digit_is_digit d : 0 <= d < 10 -> is_digit (digit d) = true.
Proof. intros Hd. unfold is_digit. rewrite code_digit by done. lia. Qed.

Lemma digits_value_acc s : forall a, digits_value a s = a * 10 ^ Z.of_nat (length s) + digits_value 0 s.
Proof.
  induction s as [|c s IH]; intros a; cbn [digits_value length]; [change (10 ^ Z.of_nat 0) with 1; lia|].
  rewrite IH, (IH (0 * 10 + _)), Nat2Z.inj_succ, Z.pow_succ_r by lia. ring.
Qed.
Lemma digits_value_app s t a : digits_value a (s ++ t) = digits_value (digits_value a s) t.
Proof. revert a. induction s as [|c s IH]; intros a; [done|]. apply IH. Qed.
Lemma digits_value_range s : forallb is_digit s = true -> 0 <= digits_value 0 s < 10 ^ Z.of_nat (length s).
Proof.
  induction s as [|c s IH]; cbn [forallb digits_value length]; [done|].
  intros [Hc Hs]%andb_true_iff. specialize (IH Hs). unfold is_digit in Hc. bool_to_prop.
  rewrite digits_value_acc, Nat2Z.inj_succ, Z.pow_succ_r by lia. nia.
Qed.

(** What [digits] writes: the shortest decimal form. *)
Record decimal_form (n : Z) (l : list ascii) : Prop := {
  df_digits : forallb is_digit l = true;
  df_value : digits_value 0 l = n;
  df_nonempty : l <> [];
  df_short : n <> 0 -> 10 ^ (Z.of_nat (length l) - 1) <= n
}.

Lemma digits_form fuel : forall n acc, 0 <= n < 10 ^ Z.of_nat fuel -> fuel <> O ->
  exists l, digits fuel n acc = l ++ acc /\ decimal_form n l.
Proof.
  induction fuel as [|fuel IH]; intros n acc Hn Hf; [done|]. cbn [digits].
  pose proof (Z.div_mod n 10). pose proof (Z.mod_pos_bound n 10). rewrite Nat2Z.inj_succ, Z.pow_succ_r in Hn by lia.
  pose proof (digit_is_digit (n mod 10)) as Hd. pose proof (code_digit (n mod 10)) as Hcd.
  destruct (Z.eqb_spec (n / 10) 0) as [E|E].
  - exists [digit (n mod 10)]. split; [done|]. split; cbn; [by rewrite Hd by lia|lia|done|lia].
  - destruct (IH (n / 10) (digit (n mod 10) :: acc)) as (l & Hl & [F1 F2 F3 F4]); [lia| |].
    { intros ->. cbn in Hn. lia. }
    exists (l ++ [digit (n mod 10)]). rewrite Hl, <- app_assoc. split; [done|]. split.
    + rewrite forallb_app, F1. cbn. by rewrite Hd by lia.
    + rewrite digits_value_app, F2. cbn. lia.
    + by destruct l.
    + intros _. specialize (F4 E). rewrite length_app. cbn [length].
      replace (Z.of_nat (length l + 1) - 1) with (Z.succ (Z.of_nat (length l) - 1)) by lia.
      rewrite Z.pow_succ_r; [lia|]. destruct l; [done|cbn; lia].
Qed.

Lemma decimal_nonneg n : 0 <= n < 2 ^ 64 -> decimal_form n (decimal n).
Proof.
  intros Hn. unfold decimal. replace (n <? 0) with false by lia.
  destruct (digits_form 20 n []) as (l & -> & Hl); [|done|by rewrite app_nil_r].
  change (10 ^ Z.of_nat 20) with (10 ^ 20). lia.
Qed.

(** A fraction below [10 ^ d], written with a leading one that is dropped. *)
Lemma fraction_form d f : 0 <= d <= 18 -> 0 <= f < 10 ^ d ->
  let t := tail (decimal (10 ^ d + f)) in
  forallb is_digit t = true /\ digits_value 0 t = f /\ Z.of_nat (length t) = d.
Proof.
  intros Hd Hf. assert (Hb : 10 ^ d <= 10 ^ 18) by (apply Z.pow_le_mono_r; lia).
  assert (Hpos : 0 < 10 ^ d) by (apply Z.pow_pos_nonneg; lia).
  destruct (decimal_nonneg (10 ^ d + f)) as [F1 F2 F3 F4]; [lia|].
  destruct (decimal _) as [|c t]; [done|]. cbn [tail]. cbn [forallb] in F1. apply andb_true_iff in F1 as [Hc Ht].
  pose proof (digits_value_range t Ht) as Hr. cbn [digits_value] in F2. rewrite digits_value_acc in F2.
  unfold is_digit in Hc. bool_to_prop. cbn [length] in F4. specialize (F4 ltac:(lia)).
  replace (Z.of_nat (S (length t)) - 1) with (Z.of_nat (length t)) in F4 by lia.
  assert (Hlen : Z.of_nat (length t) = d).
  { destruct (Z.lt_trichotomy (Z.of_nat (length t)) d) as [Hlt|[Heq|Hgt]]; [|done|].
    - assert (10 * 10 ^ Z.of_nat (length t) <= 10 ^ d)
        by (rewrite <- Z.pow_succ_r by lia; apply Z.pow_le_mono_r; lia). nia.
    - assert (10 * 10 ^ d <= 10 ^ Z.of_nat (length t))
        by (rewrite <- Z.pow_succ_r by lia; apply Z.pow_le_mono_r; lia). nia. }
  rewrite Hlen in *. set (k := 0 * 10 + (code c - 48)) in *. assert (k <= 1) by nia. assert (1 <= k) by nia.
  replace k with 1 in F2 by lia. split_and!; [done|lia|done].
Qed.

(** ** Splitting and trimming *)
Lemma split_at_none c s : Forall (fun d => c <> d) s -> split_at c s = None.
Proof. induction 1 as [|d s Hd _ IH]; cbn; [done|]. by rewrite decide_False, IH. Qed.
Lemma split_at_some c l r : Forall (fun d => c <> d) l -> split_at c (l ++ c :: r) = Some (l, r).
Proof.
  induction 1 as [|d l Hd _ IH]; cbn; [by rewrite decide_True|]. by rewrite decide_False, IH.
Qed.

Lemma trim_left_id s : (forall c, head s = Some c -> is_space c = false) -> trim_left s = s.
Proof. destruct s as [|c s]; [done|]. intros Hh. cbn. by rewrite (Hh c). Qed.
Lemma trim_id s : (forall c, head s = Some c -> is_space c = false) ->
  (forall c, last s = Some c -> is_space c = false) -> trim s = s.
Proof.
  intros Hh Hl. unfold trim. rewrite (trim_left_id s Hh), trim_left_id; [apply rev_involutive|].
  intros c Hc. apply Hl. rewrite rev_alt in Hc. by rewrite <- head_reverse.
Qed.

(** ** Packed symbols *)
Lemma upper_code c : is_upper c = true -> 65 <= code c <= 90.
Proof. unfold is_upper. intros Hc. bool_to_prop. lia. Qed.

Lemma le_value_range d : Forall byte_ok d -> 0 <= le_value d < 256 ^ Z.of_nat (length d).
Proof.
  induction 1 as [|b d Hb _ IH]; [done|]. cbn [le_value length]. unfold byte_ok in Hb.
  rewrite Nat2Z.inj_succ, Z.pow_succ_r by lia. lia.
Qed.
Lemma codes_ok s : Forall byte_ok (map code s).
Proof. induction s; constructor; [apply code_range|done]. Qed.

Lemma name_loop_value fuel : forall v, 0 <= v < 256 ^ Z.of_nat fuel ->
  le_value (map code (name_loop fuel v)) = v /\ (length (name_loop fuel v) <= fuel)%nat.
Proof.
  induction fuel as [|fuel IH]; intros v Hv; cbn [name_loop].
  { change (256 ^ Z.of_nat 0) with 1 in Hv. cbn. lia. }
  rewrite Nat2Z.inj_succ, Z.pow_succ_r in Hv by lia.
  destruct (0 <? v) eqn:E; bool_to_prop; [|cbn; lia]. change 255 with (2 ^ 8 - 1).
  rewrite land_pow2_mod, Z.shiftr_div_pow2 by lia. pose proof (Z.div_mod v (2 ^ 8)).
  pose proof (Z.mod_pos_bound v (2 ^ 8)). destruct (IH (v / 2 ^ 8)) as [H1 H2]; [lia|].
  cbn [map le_value length]. rewrite code_of_N, H1 by lia. lia.
Qed.

Lemma symbol_loop_value str : forall i res,
  forallb is_upper str = true -> 0 <= i -> i + Z.of_nat (length str) <= 7 -> 0 <= res < 2 ^ (8 * (i + 1)) ->
  symbol_loop i str res = Ok (res + le_value (map code str) * 2 ^ (8 * (i + 1))).
Proof.
  induction str as [|c str IH]; intros i res Hup Hi Hlen Hres; cbn [symbol_loop map le_value].
  { f_equal. lia. }
  cbn [forallb] in Hup. apply andb_true_iff in Hup as [Hc Hup]. cbn [length] in Hlen.
  rewrite Hc. cbn [bes_assert mbind result_bind]. replace (64 <=? 8 * (i + 1)) with false by lia.
  pose proof (upper_code c Hc). assert (Hp : 2 ^ (8 * (i + 1)) <= 2 ^ 56) by (apply Z.pow_le_mono_r; lia).
  assert (Hs : 2 ^ (8 * (i + 1 + 1)) = 256 * 2 ^ (8 * (i + 1))).
  { replace (8 * (i + 1 + 1)) with (8 + 8 * (i + 1)) by lia. by rewrite Z.pow_add_r by lia. }
  rewrite u64_small by (rewrite Z.shiftl_mul_pow2 by lia; nia).
  rewrite lor_shiftl_add by lia. rewrite IH; [f_equal; rewrite Hs; ring|done|lia|lia|]. rewrite Hs. nia.
Qed.

Lemma decimals_mod m : decimals m = m mod 256.
Proof. apply (land_pow2_mod m 8). lia. Qed.
Lemma decimals_range m : 0 <= decimals m < 256.
Proof. rewrite decimals_mod. apply Z.mod_pos_bound. lia. Qed.

Lemma string_to_symbol_name m : 0 <= m < 2 ^ 64 -> valid_name (symbol_name m) = true ->
  string_to_symbol (decimals m) (symbol_name m) = Ok m.
Proof.
  intros Hm Hv. unfold string_to_symbol, symbol_name in *. pose proof (Z.div_mod m 256).
  destruct (name_loop_value 7 (Z.shiftr m 8)) as [Hval Hlen].
  { rewrite Z.shiftr_div_pow2 by lia. change (256 ^ Z.of_nat 7) with (2 ^ 56). change (2 ^ 8) with 256. lia. }
  rewrite symbol_loop_value, Hval by (done || lia). run_monad. f_equal.
  rewrite Z.shiftr_div_pow2, Z.lor_comm, decimals_mod by lia. change (2 ^ (8 * (0 + 1))) with (2 ^ 8).
  rewrite Z.add_0_l, <- Z.shiftl_mul_pow2, lor_shiftl_add by (try lia; apply Z.mod_pos_bound; lia).
  change (2 ^ 8) with 256. lia.
Qed.

(** Characters of the parts of a string. *)
Lemma digits_forall (P : ascii -> Prop) s :
  (forall c, is_digit c = true -> P c) -> forallb is_digit s = true -> Forall P s.
Proof. intros HP Hs. apply Forall_forall. intros c Hc. apply HP. rewrite forallb_forall in Hs. by apply Hs, list_elem_of_In. Qed.
Lemma upper_forall (P : ascii -> Prop) s :
  (forall c, is_upper c = true -> P c) -> forallb is_upper s = true -> Forall P s.
Proof. intros HP Hs. apply Forall_forall. intros c Hc. apply HP. rewrite forallb_forall in Hs. by apply Hs, list_elem_of_In. Qed.

Lemma digit_not_space c : is_digit c = true -> is_space c = false.
Proof. unfold is_digit, is_space. intros Hc. bool_to_prop. lia. Qed.
Lemma upper_not_space c : is_upper c = true -> is_space c = false.
Proof. unfold is_upper, is_space. intros Hc. bool_to_prop. lia. Qed.
Lemma digit_not c d : is_digit d = false -> is_digit c = true -> d <> c.
Proof. congruence. Qed.

Lemma trim_forall s : Forall (fun c => is_space c = false) s -> trim s = s.
Proof.
  intros Hs. apply trim_id; intros c Hc; eapply Forall_forall in Hs; try done.
  - destruct s; [done|]. injection Hc as ->. by left.
  - by apply last_Some_elem_of.
Qed.

Lemma c_str_upper s : forallb is_upper s = true -> c_str s = s.
Proof.
  induction s as [|c s IH]; [done|]. cbn [forallb c_str]. intros [Hc Hs]%andb_true_iff.
  rewrite decide_False, IH by (done || intros ->; done). done.
Qed.

Lemma p10_pow n : (n <= 18)%nat -> p10 n = 10 ^ Z.of_nat n.
Proof.
  induction n as [|n IH]; intros Hn; [done|]. cbn [p10]. rewrite IH by lia.
  assert (10 ^ Z.of_nat n <= 10 ^ 17) by (apply Z.pow_le_mono_r; lia).
  pose proof (Z.pow_nonneg 10 (Z.of_nat n)). rewrite u64_small by lia.
  rewrite Nat2Z.inj_succ, Z.pow_succ_r by lia. lia.
Qed.

Lemma precision_pow m : decimals m <= 18 -> precision m = Ok (10 ^ decimals m).
Proof.
  intros Hd. pose proof (decimals_range m). unfold precision, max_precision.
  replace (decimals m <=? 18) with true by lia. run_monad. rewrite p10_pow by lia.
  by rewrite Z2Nat.id by lia.
Qed.

Section roundtrip.
Context `{LexicalLaws}.

Lemma symbol_parse m prec : 0 <= m < 2 ^ 64 -> symbol_valid m = true ->
  forallb is_digit prec = true -> prec <> [] -> digits_value 0 prec = decimals m ->
  symbol_from_string (prec ++ [","%char] ++ symbol_name m) = Ok m.
Proof.
  intros Hm Hv Hpd Hpn Hpv. unfold symbol_valid in Hv.
  apply andb_true_iff in Hv as [Hd Hn]. unfold symbol_from_string.
  rewrite trim_forall.
  2: { apply Forall_app. split; [by apply (digits_forall _ _ digit_not_space)|].
       constructor; [done|]. by apply (upper_forall _ _ upper_not_space). }
  rewrite bool_decide_eq_false_2 by (destruct prec; done). run_monad. cbn [negb app].
  rewrite split_at_some by (apply (digits_forall _ _ (fun c Hc => digit_not c "," eq_refl Hc)); done).
  rewrite to_int64_digits, Hpv by (done || pose proof (decimals_range m); lia). run_monad.
  rewrite u8_small, Hd by apply decimals_range. run_monad.
  rewrite c_str_upper, string_to_symbol_name by done. run_monad. unfold make_symbol, symbol_valid.
  by rewrite Hd, Hn.
Qed.

Definition sign_of (neg : bool) : list ascii := if neg then ["-"%char] else [].
Definition signed (neg : bool) (n : Z) : Z := if neg then - n else n.

Lemma parse_signed neg q : 0 <= q <= max_amount -> to_int64 (sign_of neg ++ decimal q) = Ok (signed neg q).
Proof.
  unfold max_amount. intros Hq. destruct (decimal_nonneg q) as [F1 F2 F3 _]; [lia|].
  destruct neg; cbn; [rewrite to_int64_negative|rewrite to_int64_digits]; rewrite ?F2; try done; lia.
Qed.

(** The written parts of an amount hold no separators. *)
Lemma number_chars neg q c : 0 <= q <= max_amount -> is_digit c = false -> c <> "-"%char ->
  Forall (fun d => c <> d) (sign_of neg ++ decimal q).
Proof.
  unfold max_amount. intros Hq Hc Hm. destruct (decimal_nonneg q) as [F1 _ _ _]; [lia|].
  apply Forall_app. split; [by destruct neg; repeat constructor|].
  by apply (digits_forall _ _ (fun e He => digit_not e c Hc He)).
Qed.

(** The whole and the fractional part of an amount. *)
Definition fraction_of (m f : Z) : list ascii :=
  if decimals m =? 0 then [] else "."%char :: tail (decimal (10 ^ decimals m + f)).

Lemma pow_decimals m : decimals m <= 18 -> 0 < 10 ^ decimals m <= 10 ^ 18.
Proof.
  intros Hd. pose proof (decimals_range m). split; [apply Z.pow_pos_nonneg; lia|apply Z.pow_le_mono_r; lia].
Qed.

(** What validity says of an amount [a] with precision [P]. *)
Lemma valid_facts a P : asset_valid a = true -> P = 10 ^ decimals (sym a) ->
  - max_amount <= amount a <= max_amount /\ decimals (sym a) <= 18 /\ symbol_valid (sym a) = true /\
  0 < P <= 10 ^ 18 /\ 0 <= Z.abs (amount a) mod P < P /\
  0 <= Z.abs (amount a) / P <= max_amount /\ Z.abs (amount a) / P * P <= max_amount /\
  Z.abs (amount a) = Z.abs (amount a) / P * P + Z.abs (amount a) mod P.
Proof.
  unfold asset_valid, is_amount_within_range. intros [Hr Hs]%andb_true_iff ->. pose proof Hs as Hd.
  unfold symbol_valid, max_precision in Hd. bool_to_prop. pose proof (pow_decimals (sym a)) as HP.
  set (P := 10 ^ decimals (sym a)) in *. pose proof (Z.mod_pos_bound (Z.abs (amount a)) P).
  pose proof (Z.div_mod (Z.abs (amount a)) P). pose proof (Z.div_pos (Z.abs (amount a)) P).
  split_and!; try done; try lia; nia.
Qed.

Lemma print_asset a P : asset_valid a = true -> P = 10 ^ decimals (sym a) ->
  asset_to_string a = Ok ((sign_of (amount a <? 0) ++ decimal (Z.abs (amount a) / P))
    ++ fraction_of (sym a) (Z.abs (amount a) mod P) ++ " "%char :: symbol_name (sym a)).
Proof.
  intros Hv HP. destruct (valid_facts a P Hv HP) as (Hr & Hd & _ & HP18 & Hf & _). unfold max_amount in Hr.
  unfold asset_to_string. rewrite precision_pow, <- HP by done. run_monad.
  rewrite (i64_small (Z.abs _)), (i64_small P) by lia. rewrite Z.quot_div_nonneg, Z.rem_mod_nonneg by lia.
  rewrite i64_small by lia. unfold fraction_of. rewrite <- HP, <- app_assoc. f_equal.
  destruct (decimals (sym a) =? 0); done.
Qed.

Lemma add_safe a b : int64_range a -> int64_range b -> int64_range (a + b) -> Safe.add a b = Ok (a + b).
Proof. intros Ha Hb. by apply (add_checked a b Ha Hb). Qed.
Lemma mul_safe a b : int64_range a -> int64_range b -> int64_range (a * b) -> Safe.mul a b = Ok (a * b).
Proof. intros Ha Hb. by apply (mul_checked a b Ha Hb). Qed.

(** The amount from its parts. *)
Lemma assemble a P : asset_valid a = true -> P = 10 ^ decimals (sym a) -> let neg := amount a <? 0 in
  (scaled ← Safe.mul (signed neg (Z.abs (amount a) / P)) P;
   total ← Safe.add scaled (signed neg (Z.abs (amount a) mod P));
   make_asset total (sym a)) = Ok a.
Proof.
  intros Hv HP neg. destruct (valid_facts a P Hv HP) as (Hr & _ & Hs & HP18 & Hf & Hq & Hqp & Hab).
  assert (Hn : signed neg (Z.abs (amount a)) = amount a).
  { unfold neg. destruct (amount a <? 0) eqn:E; bool_to_prop; cbn; lia. }
  assert (Hmul : forall x y, signed neg x * y = signed neg (x * y)) by (intros; unfold signed; destruct neg; lia).
  assert (Hadd : forall x y, signed neg x + signed neg y = signed neg (x + y)) by (intros; unfold signed; destruct neg; lia).
  assert (Hrg : forall x, 0 <= x <= max_amount + 10 ^ 18 -> int64_range (signed neg x)).
  { intros x Hx. unfold int64_range, Safe.int64_min, Safe.int64_max, max_amount in *. unfold signed. destruct neg; lia. }
  rewrite mul_safe; [|apply Hrg; lia| |rewrite Hmul; apply Hrg; lia].
  2: { unfold int64_range, Safe.int64_min, Safe.int64_max. lia. }
  run_monad. rewrite Hmul, add_safe; [|apply Hrg; lia|apply Hrg; lia|rewrite Hadd; apply Hrg; lia].
  run_monad. rewrite Hadd, <- Hab, Hn. unfold make_asset. rewrite Hs. unfold is_amount_within_range. cbn [amount].
  replace ((- max_amount <=? amount a) && (amount a <=? max_amount)) with true by lia. by destruct a.
Qed.

Lemma number_head neg q : 0 <= q <= max_amount ->
  exists c l, sign_of neg ++ decimal q = c :: l /\ is_space c = false /\ (c = "-"%char <-> neg = true).
Proof.
  unfold max_amount. intros Hq. destruct neg; cbn.
  - by exists "-"%char, (decimal q).
  - destruct (decimal_nonneg q) as [F1 _ F3 _]; [lia|]. destruct (decimal q) as [|c l]; [done|].
    cbn in F1. apply andb_true_iff in F1 as [Hc _]. exists c, l. split_and!; [done|by apply digit_not_space|].
    split; [|done]. by intros ->.
Qed.

Lemma fraction_chars m f : decimals m <= 18 -> 0 <= f < 10 ^ decimals m ->
  Forall (fun d => " "%char <> d) (fraction_of m f).
Proof.
  intros Hd Hf. unfold fraction_of. destruct (decimals m =? 0); [done|]. constructor; [done|].
  pose proof (decimals_range m). destruct (fraction_form (decimals m) f) as (F1 & _); [lia|done|].
  by apply (digits_forall _ _ (fun e He => digit_not e " " eq_refl He)).
Qed.

(** The text splits at its only space. *)
Lemma split_text N F name : name <> [] -> forallb is_upper name = true ->
  (exists c l, N = c :: l /\ is_space c = false) -> Forall (fun d => " "%char <> d) (N ++ F) ->
  split_at " " (trim (N ++ F ++ " "%char :: name)) = Some (N ++ F, name).
Proof.
  intros Hn Hup (c & l & -> & Hc) HF. rewrite trim_id.
  - rewrite app_assoc. by apply split_at_some.
  - intros d [= <-]. done.
  - intros d Hd. apply upper_not_space. rewrite forallb_forall in Hup. apply Hup, list_elem_of_In.
    destruct (exists_last Hn) as (n' & z & ->). 
    replace ((c :: l) ++ F ++ " "%char :: n' ++ [z]) with (((c :: l) ++ F ++ " "%char :: n') ++ [z]) in Hd
      by (by rewrite <- !app_assoc). rewrite last_snoc in Hd. injection Hd as ->. apply elem_of_app. right. by left.
Qed.

(** Reading after the text was split: amounts without and with a fraction. *)
Section parts.
Context (a : asset) (Hv : asset_valid a = true).
Local Notation P := (10 ^ decimals (sym a)).
Local Notation neg := (amount a <? 0).
Local Notation N := (sign_of neg ++ decimal (Z.abs (amount a) / P)).
Local Notation f := (Z.abs (amount a) mod P).

Lemma parse_fract : exists t,
  fraction_of (sym a) f = (if decimals (sym a) =? 0 then [] else "."%char :: t) /\
  (decimals (sym a) <> 0 -> t <> [] /\ to_int64 t = Ok f /\ Z.of_nat (length t) = decimals (sym a) /\
   Safe.mul f (-1) = Ok (- f)).
Proof.
  destruct (valid_facts a _ Hv eq_refl) as (_ & Hd & _ & HP18 & Hf & _).
  pose proof (decimals_range (sym a)). eexists. split; [reflexivity|]. intros H0'.
  destruct (fraction_form (decimals (sym a)) f) as (F1 & F2 & F3); [lia|done|].
  assert (Hne : tail (decimal (10 ^ decimals (sym a) + f)) <> []).
  { intros E. rewrite E in F3. cbn in F3. lia. }
  split; [done|]. split; [rewrite to_int64_digits, F2 by (done || lia); done|]. split; [done|].
  rewrite mul_safe; [f_equal; lia|..]; unfold int64_range, Safe.int64_min, Safe.int64_max; lia.
Qed.

Lemma parse_split : symbol_name (sym a) <> [] ->
  split_at " " (trim (N ++ fraction_of (sym a) f ++ " "%char :: symbol_name (sym a))) =
    Some (N ++ fraction_of (sym a) f, symbol_name (sym a)).
Proof.
  intros Hn. destruct (valid_facts a _ Hv eq_refl) as (_ & Hd & Hs & _ & Hf & Hq & _).
  pose proof Hs as [_ Hup]%andb_true_iff. apply split_text; try done.
  - destruct (number_head neg _ Hq) as (c & l & E & Hc & _). by exists c, l.
  - apply Forall_app. split; [by apply number_chars|by apply fraction_chars].
Qed.
End parts.

(** C36 Printing and reading are inverse on symbols, and on assets with a named symbol: the
    text of a valid asset is read back as that asset, with its precision, its sign and
    every digit, although reading goes through overflow-checked 64-bit arithmetic.
    Symbols without decimals are included: the comment on class symbol asks
    for more than zero of them, while [from_string], [valid] and printing accept zero. *)
Theorem asset_string_roundtrip (a : asset) :
  asset_valid a = true -> 0 <= sym a < 2 ^ 64 ->
  symbol_from_string (symbol_to_string (sym a)) = Ok (sym a) /\
  (symbol_name (sym a) <> [] ->
   exists s, asset_to_string a = Ok s /\ asset_from_string s = Ok a).
Proof.
  intros Hv Hm. destruct (valid_facts a _ Hv eq_refl) as (_ & Hd & Hs & _ & Hf & Hq & _).
  pose proof (decimals_range (sym a)) as Hdr. split.
  { destruct (decimal_nonneg (decimals (sym a))) as [F1 F2 F3 _]; [lia|]. by apply symbol_parse. }
  intros Hn. eexists. split; [by apply print_asset|]. pose proof Hs as [_ Hup]%andb_true_iff.
  destruct (parse_fract a Hv) as (t & Et & Ht). unfold asset_from_string. cbv zeta.
  rewrite (parse_split a Hv Hn), Et, (trim_forall (symbol_name _))
    by (by apply (upper_forall _ _ upper_not_space)).
  pose proof (assemble a _ Hv eq_refl) as Hasm. cbv zeta in Hasm.
  destruct (Z.eqb_spec (decimals (sym a)) 0) as [E0|E0].
  - rewrite app_nil_r, split_at_none by (by apply number_chars). run_monad.
    rewrite symbol_parse by (done || by rewrite E0). run_monad. rewrite parse_signed by done. run_monad.
    rewrite precision_pow by done. run_monad. cbn [fst snd].
    rewrite (i64_small (10 ^ _)) by (pose proof (pow_decimals (sym a) Hd); lia).
    replace (signed _ (_ mod _)) with 0 in Hasm by (rewrite E0, Z.mod_1_r; by destruct (amount a <? 0)). done.
  - destruct (Ht E0) as (Hne & Hti & Hlen & Hneg).
    rewrite split_at_some by (by apply number_chars). rewrite (bool_decide_eq_false_2 (t = [])) by done. run_monad.
    cbn [negb]. rewrite Hlen. destruct (decimal_nonneg (decimals (sym a))) as [F1 F2 F3 _]; [lia|].
    rewrite symbol_parse by done. run_monad. rewrite parse_signed, Hti by done. run_monad.
    destruct (number_head (amount a <? 0) _ Hq) as (c & l & EN & _ & Hc). rewrite EN. cbn [app head].
    pose proof (pow_decimals (sym a) Hd) as HP. rewrite precision_pow by done. destruct (amount a <? 0).
    + rewrite bool_decide_eq_true_2 by (f_equal; by apply Hc). rewrite Hneg. run_monad.
      rewrite (i64_small (10 ^ _)) by lia. done.
    + rewrite bool_decide_eq_false_2 by (intros [= ->]; by pose proof (proj1 Hc eq_refl)). run_monad.
      rewrite (i64_small (10 ^ _)) by lia. done.
Qed.
End roundtrip.

(** ** Examples *)
Module AssetSample.
(** Digits after an optional minus sign, and nothing else. *)
Definition sample_to_int64 (s : list ascii) : result Z :=
  let neg := bool_decide (head s = Some "-"%char) in
  let ds := if neg then tail s else s in
  let v := if neg then - digits_value 0 ds else digits_value 0 ds in
  if negb (bool_decide (ds = [])) && forallb is_digit ds && (- 2 ^ 63 <=? v) && (v <? 2 ^ 63)
  then Ok v else Throw parse_error.
#[global] Instance sample_lexical : Lexical := { to_int64 := sample_to_int64 }.
#[global] Instance sample_lexical_laws : LexicalLaws.
Proof.
  split; intros s Hne Hd Hv; pose proof (digits_value_range s Hd); cbn; unfold sample_to_int64.
  - assert (head s <> Some "-"%char) as Hh.
    { destruct s as [|c s]; [done|]. cbn in *. intros [= ->]. done. }
    rewrite (bool_decide_eq_false_2 (head s = _)), (bool_decide_eq_false_2 (s = [])), Hd by done. cbn [negb andb].
    replace (- 2 ^ 63 <=? digits_value 0 s) with true by lia. by replace (digits_value 0 s <? 2 ^ 63) with true by lia.
  - cbn [head tail]. rewrite (bool_decide_eq_true_2 (Some "-"%char = _)) by done.
    rewrite (bool_decide_eq_false_2 (s = [])), Hd by done.
    cbn [negb andb].
    replace (- 2 ^ 63 <=? - digits_value 0 s) with true by lia.
    by replace (- digits_value 0 s <? 2 ^ 63) with true by lia.
Qed.

(** The symbol 4,BES. *)
Definition bes : Z := Eval vm_compute in
  match string_to_symbol 4 (lit "BES") with Ok v => v | Throw _ => 0 end.
End AssetSample.
Import AssetSample.

Lemma asset_string_roundtrip_witness :
  exists s, asset_to_string (Asset (-12345) bes) = Ok s /\ s = lit "-1.2345 BES" /\
    asset_from_string s = Ok (Asset (-12345) bes).
Proof.
  destruct (asset_string_roundtrip (Asset (-12345) bes)) as [_ Hs].
  - vm_compute. reflexivity.
  - by vm_compute.
  - destruct Hs as (s & H1 & H2); [by vm_compute|]. exists s. split; [exact H1|]. split; [|exact H2].
    vm_compute in H1. by injection H1 as <-.
Defined.

Lemma safe_exact_witness : Safe.mul (2 ^ 32) (2 ^ 31) = Throw overflow_exception.
Proof.
  destruct (safe_exact (2 ^ 32) (2 ^ 31)) as (_ & _ & (_ & Ho & _) & _).
  - by vm_compute.
  - by vm_compute.
  - by apply Ho.
Defined.

(** The number of fraction digits is stored in eight bits before it is compared with the
    largest precision: 256 digits are taken for none. *)
Lemma long_fraction_accepted :
  asset_from_string (lit "1." ++ replicate 255 "0"%char ++ lit "5 BES") =
    Ok (Asset 6 (bes - 4)).
Proof. by vm_compute. Qed.
(** A sign is accepted inside the fraction. *)
Lemma signed_fraction_accepted : asset_from_string (lit "1.-5 BES") = Ok (Asset 95 (bes - 2)).
Proof. by vm_compute. Qed.
