(* ===== verification/Authority.v ===== *)
(** * Authorities and the authority checker

    Model of [authority.hpp] and [authority_checker.hpp] under
    [libraries/chain/include/besio/chain], with [filter_data_by_marker] of
    [parallel_markers.hpp]: weighted threshold authorities over keys, delays and
    other permissions, their validation, and the recursive check of whether the
    provided keys, permissions and delay satisfy one. *)
From S2P Require Import Prelude BlockHeaderState.

(** ** Data *)
Abbreviation permission_name := Z (only parsing).
Record permission_level := PermissionLevel { actor : account_name; permission : permission_name }.

#[global] Instance permission_level_eq_dec : EqDecision permission_level.
Proof. solve_decision. Defined.
#[global] Instance permission_level_countable : Countable permission_level.
Proof.
  refine (inj_countable' (fun l => (actor l, permission l)) (fun '(a, p) => PermissionLevel a p) _).
  by intros [].
Defined.

(** [operator<]: lexicographic. *)
Definition level_ltb (a b : permission_level) : bool :=
  (actor a <? actor b) || ((actor a =? actor b) && (permission a <? permission b)).

Record permission_level_weight := PermissionLevelWeight {
  plw_permission : permission_level; plw_weight : Z }.
Record key_weight := KeyWeight { kw_key : public_key; kw_weight : Z }.
Record wait_weight := WaitWeight { wait_sec : Z; ww_weight : Z }.

Record authority := Authority {
  threshold : Z;
  keys : list key_weight;
  accounts : list permission_level_weight;
  waits : list wait_weight
}.

(** [operator==], field by field. *)
#[global] Instance permission_level_weight_eq_dec : EqDecision permission_level_weight.
Proof. solve_decision. Defined.
#[global] Instance key_weight_eq_dec : EqDecision key_weight.
Proof. solve_decision. Defined.
#[global] Instance wait_weight_eq_dec : EqDecision wait_weight.
Proof. solve_decision. Defined.
#[global] Instance authority_eq_dec : EqDecision authority.
Proof. solve_decision. Defined.

(** [authority( k, delay_sec )]. *)
Definition key_authority (k : public_key) (delay_sec : Z) : authority :=
  if 0 <? delay_sec then Authority 2 [KeyWeight k 1] [] [WaitWeight delay_sec 1]
  else Authority 1 [KeyWeight k 1] [] [].

(** [billable_size_v]: sizes are rounded up to the alignment. *)
Definition billable_alignment : Z := 16.
Definition billable_size_v (value : Z) : Z :=
  (value + billable_alignment - 1) / billable_alignment * billable_alignment.

(** [get_billable_size], for a given size of a packed key. *)
Definition auth_billable_size (pack_size : public_key -> Z) (a : authority) : Z :=
  let accounts_size := u64 (Z.of_nat (length (accounts a)) * billable_size_v 24) in
  let waits_size := u64 (Z.of_nat (length (waits a)) * billable_size_v 16) in
  let keys_size := foldl (fun n k => u64 (u64 (n + billable_size_v 8) + pack_size (kw_key k))) 0 (keys a) in
  u64 (accounts_size + waits_size + keys_size).

(** ** validate

    Each loop checks the order against the previous element and adds to the total,
    in 32 bits. *)
Fixpoint validate_keys (prev : option key_weight) (total : Z) (l : list key_weight) : option Z :=
  match l with
  | [] => Some total
  | k :: l =>
      if match prev with Some p => negb (kw_key p <? kw_key k) | None => false end then None
      else validate_keys (Some k) (u32 (total + kw_weight k)) l
  end.

Fixpoint validate_accounts (prev : option permission_level_weight) (total : Z)
    (l : list permission_level_weight) : option Z :=
  match l with
  | [] => Some total
  | a :: l =>
      if match prev with
         | Some p => negb (level_ltb (plw_permission p) (plw_permission a))
         | None => false
         end then None
      else validate_accounts (Some a) (u32 (total + plw_weight a)) l
  end.

Fixpoint validate_waits (prev : option wait_weight) (total : Z) (l : list wait_weight) : option Z :=
  match l with
  | [] => Some total
  | w :: l =>
      if match prev with Some p => wait_sec w <=? wait_sec p | None => false end then None
      else validate_waits (Some w) (u32 (total + ww_weight w)) l
  end.

Definition validate (a : authority) : bool :=
  if 2 ^ 16 <? Z.of_nat (length (keys a) + length (accounts a) + length (waits a)) then false else
  if threshold a =? 0 then false else
  match validate_keys None 0 (keys a) with
  | None => false
  | Some total =>
      match validate_accounts None total (accounts a) with
      | None => false
      | Some total =>
          if match waits a with w :: _ => wait_sec w =? 0 | [] => false end then false else
          match validate_waits None total (waits a) with
          | None => false
          | Some total => threshold a <=? total
          end
      end
  end.

(** ** authority_checker *)
Inductive meta_permission :=
| MAccount (p : permission_level_weight)
| MKey (k : key_weight)
| MWait (w : wait_weight).

Definition get_weight (m : meta_permission) : Z :=
  match m with
  | MAccount p => plw_weight p
  | MKey k => kw_weight k
  | MWait w => ww_weight w
  end.
(** [which()]: the position in the variant. *)
Definition which (m : meta_permission) : Z :=
  match m with MAccount _ => 0 | MKey _ => 1 | MWait _ => 2 end.

(** [meta_permission_comparator]: [a] goes before [b]. *)
Definition meta_before (a b : meta_permission) : bool :=
  (get_weight b <? get_weight a) || ((get_weight a =? get_weight b) && (which b <? which a)).

(** The [flat_multiset] under that comparator: the elements in an order that the
    comparator does not contradict; the order of equivalent ones is left open. *)
Class MetaSet := { meta_sort : list meta_permission -> list meta_permission }.
Class MetaSetLaws `{MetaSet} := {
  meta_sort_perm : forall l, meta_sort l ≡ₚ l;
  meta_sort_sorted : forall l, StronglySorted (fun a b => meta_before b a = false) (meta_sort l)
}.

Inductive permission_cache_status := being_evaluated | permission_unsatisfied | permission_satisfied.
Abbreviation permission_cache_type := (gmap permission_level permission_cache_status).

(** The part of the checker that does not change during a check. The delay is in
    microseconds; looking up a permission may throw. *)
Record checker := Checker {
  permission_to_authority : permission_level -> result authority;
  provided_keys : list public_key;
  provided_permissions : list permission_level;
  provided_delay : Z;
  recursion_depth_limit : nat
}.

(** The part that does. *)
Record checker_state := CheckerState { used_marks : list bool; cache : permission_cache_type }.

Section checker.
Context `{MetaSet} (ck : checker).
Abbreviation M := (St checker_state).

Definition permission_status_in_cache (c : permission_cache_type) (l : permission_level)
    : option permission_cache_status :=
  match c !! l with
  | Some s => Some s
  | None => c !! PermissionLevel (actor l) 0
  end.

Definition initialize_permission_cache : permission_cache_type :=
  foldl (fun c p => <[p := permission_satisfied]> c) ∅ (provided_permissions ck).

Definition set_cache (l : permission_level) (s : permission_cache_status) : M unit :=
  modify_st (fun st => CheckerState (used_marks st) (<[l := s]> (cache st))).
Definition set_used (u : list bool) : M unit :=
  modify_st (fun st => CheckerState u (cache st)).

(** [boost::find]: the position of the first occurrence. *)
Fixpoint find_key (k : public_key) (l : list public_key) : option nat :=
  match l with
  | [] => None
  | x :: l => if x =? k then Some 0%nat else S <$> find_key k l
  end.

(** [fc::seconds]: the delay in microseconds. *)
Definition seconds (s : Z) : Z := i64 (s * 1000000).

Definition visit_wait (w : wait_weight) (total : Z) : Z :=
  if seconds (wait_sec w) <=? provided_delay ck then u32 (total + ww_weight w) else total.

Definition visit_key (k : key_weight) (total : Z) : M Z :=
  match find_key (kw_key k) (provided_keys ck) with
  | Some n =>
      st ← get;
      _ ← set_used (<[n := true]> (used_marks st));
      mret (u32 (total + kw_weight k))
  | None => mret total
  end.

(** [rec] checks the authority of another permission, one level deeper; it is
    [None] at the limit of the recursion. *)
Definition visit_account (rec : option (authority -> M bool)) (p : permission_level_weight)
    (total : Z) : M Z :=
  st ← get;
  match permission_status_in_cache (cache st) (plw_permission p) with
  | None =>
      match rec with
      | None => mret total
      | Some rec =>
          match permission_to_authority ck (plw_permission p) with
          | Throw permission_query_exception => mret total
          | Throw e => throw e
          | Ok auth =>
              _ ← set_cache (plw_permission p) being_evaluated;
              r ← rec auth;
              if (r : bool) then
                _ ← set_cache (plw_permission p) permission_satisfied;
                mret (u32 (total + plw_weight p))
              else
                _ ← set_cache (plw_permission p) permission_unsatisfied;
                mret total
          end
      end
  | Some permission_satisfied => mret (u32 (total + plw_weight p))
  | Some _ => mret total
  end.

Definition visit (rec : option (authority -> M bool)) (m : meta_permission) (total : Z) : M Z :=
  match m with
  | MWait w => mret (visit_wait w total)
  | MKey k => visit_key k total
  | MAccount p => visit_account rec p total
  end.

(** The loop over the permissions of an authority, from high weights to low. *)
Fixpoint tally (rec : option (authority -> M bool)) (limit : Z) (l : list meta_permission)
    (total : Z) : M bool :=
  match l with
  | [] => mret false
  | m :: l =>
      total ← visit rec m total;
      if limit <=? total then mret true else tally rec limit l total
  end.

Definition meta_permissions (a : authority) : list meta_permission :=
  meta_sort ((MWait <$> waits a) ++ (MKey <$> keys a) ++ (MAccount <$> accounts a)).

(** [satisfied( authority, cached_permissions, depth )]; [fuel] is the recursion
    limit minus [depth]. Keys used by an unsatisfied authority are given back. *)
Fixpoint satisfied_auth (fuel : nat) (a : authority) : M bool :=
  st ← get;
  let keys := used_marks st in
  r ← tally (match fuel with O => None | S f => Some (satisfied_auth f) end)
        (threshold a) (meta_permissions a) 0;
  if (r : bool) then mret true else _ ← set_used keys; mret false.

(** The public entry points, on a fresh cache. The marks of used keys persist
    between calls. *)
Definition satisfied_level (l : permission_level) : St (list bool) bool :=
  fun used =>
    let '(st, r) :=
      (total ← visit_account (match recursion_depth_limit ck with
                               | O => None
                               | S f => Some (satisfied_auth f)
                               end) (PermissionLevelWeight l 1) 0;
       mret (0 <? total)) (CheckerState used initialize_permission_cache) in
    (used_marks st, r).

Definition satisfied_authority (a : authority) : St (list bool) bool :=
  fun used =>
    let '(st, r) := satisfied_auth (recursion_depth_limit ck) a
                      (CheckerState used initialize_permission_cache) in
    (used_marks st, r).

Definition initial_marks : list bool := replicate (length (provided_keys ck)) false.
Definition all_keys_used (used : list bool) : bool := forallb (fun b => b) used.

(** [filter_data_by_marker]. *)
Definition filter_data_by_marker {A} (data : list A) (markers : list bool) (m : bool) : list A :=
  (filter (fun p => p.1 = m) (zip markers data)).*2.
Definition used_keys (used : list bool) : list public_key :=
  filter_data_by_marker (provided_keys ck) used true.
Definition unused_keys (used : list bool) : list public_key :=
  filter_data_by_marker (provided_keys ck) used false.
End checker.

(** The overloads with another delay restore the delay on exit. *)
Definition with_delay (d : Z) (ck : checker) : checker :=
  Checker (permission_to_authority ck) (provided_keys ck) (provided_permissions ck) d
    (recursion_depth_limit ck).

(** ** What validate checks *)
Definition all_factors (a : authority) : list meta_permission :=
  (MWait <$> waits a) ++ (MKey <$> keys a) ++ (MAccount <$> accounts a).
Definition total_weight (l : list meta_permission) : Z := foldr (fun m n => get_weight m + n) 0 l.

(** Weights are 16-bit. *)
Definition weights_ok (a : authority) : Prop :=
  Forall (fun m => 0 <= get_weight m < 2 ^ 16) (all_factors a).

Lemma total_weight_app l1 l2 : total_weight (l1 ++ l2) = total_weight l1 + total_weight l2.
Proof. induction l1 as [|m l1 IH]; [done|]. cbn. fold (total_weight (l1 ++ l2)). rewrite IH. fold (total_weight l1). lia. Qed.

#[global] Instance total_weight_proper : Proper ((≡ₚ) ==> (=)) total_weight.
Proof. induction 1; cbn; try fold (total_weight l) in *; unfold total_weight in *; cbn in *; lia. Qed.

Lemma total_weight_range l : Forall (fun m => 0 <= get_weight m < 2 ^ 16) l ->
  0 <= total_weight l <= Z.of_nat (length l) * (2 ^ 16 - 1).
Proof. induction 1 as [|m l Hm Hl IH]; [done|]. cbn. fold (total_weight l). cbn in *. lia. Qed.

Lemma total_weight_submseteq l1 l2 : Forall (fun m => 0 <= get_weight m < 2 ^ 16) l2 ->
  l1 ⊆+ l2 -> total_weight l1 <= total_weight l2.
Proof.
  intros Hl [k Hk]%submseteq_Permutation. rewrite Hk in Hl |- *. rewrite total_weight_app.
  apply Forall_app in Hl as [_ Hl]. pose proof (total_weight_range k Hl). lia.
Qed.

Definition keys_sorted (l : list key_weight) : Prop :=
  Sorted (fun p k => kw_key p < kw_key k) l.
Definition accounts_sorted (l : list permission_level_weight) : Prop :=
  Sorted (fun p a => level_ltb (plw_permission p) (plw_permission a) = true) l.
Definition waits_sorted (l : list wait_weight) : Prop :=
  Sorted (fun p w => wait_sec p < wait_sec w) l.

Lemma sorted_ltb {A} (f : A -> Z) l :
  Sorted (fun p x => (f p <? f x) = true) l <-> Sorted (fun p x => f p < f x) l.
Proof.
  split; induction 1 as [|x l Hs IH Hr]; constructor; try done;
    destruct Hr; constructor; by apply Z.ltb_lt.
Qed.

(** The three loops have one shape: [ordered] compares neighbours, the total is
    taken modulo [2^32]. *)
Section loop.
Context {A : Type} (inj : A -> meta_permission) (ordered : A -> A -> bool).

Fixpoint check_loop (prev : option A) (total : Z) (l : list A) : option Z :=
  match l with
  | [] => Some total
  | x :: l => if match prev with Some p => negb (ordered p x) | None => false end then None
              else check_loop (Some x) (u32 (total + get_weight (inj x))) l
  end.

Lemma check_loop_spec prev total l :
  Forall (fun x => 0 <= get_weight (inj x) < 2 ^ 16) l -> 0 <= total ->
  total + total_weight (inj <$> l) < 2 ^ 32 ->
  check_loop prev total l =
    if decide (Sorted (fun p x => ordered p x = true) (match prev with Some p => p :: l | None => l end))
    then Some (total + total_weight (inj <$> l)) else None.
Proof.
  revert prev total. induction l as [|x l IH]; intros prev total Hl H0 Hlt.
  - cbn. rewrite decide_True; [f_equal; lia|]. destruct prev; repeat constructor.
  - apply Forall_cons in Hl as [Hx Hl]. cbn [check_loop fmap list_fmap total_weight foldr] in *.
    fold (total_weight (inj <$> l)) in *.
    assert (Hnn : 0 <= total_weight (inj <$> l)) by (apply total_weight_range, Forall_fmap, Hl).
    destruct prev as [p|].
    + destruct (ordered p x) eqn:Ho; cbn [negb].
      * rewrite IH, u32_small by (try rewrite u32_small; lia || done).
        case_decide as Hd1; case_decide as Hd2; try (f_equal; lia); try done; exfalso.
        -- apply Hd2. constructor; [done|]. by constructor.
        -- apply Hd1. by apply Sorted_inv in Hd2 as [? _].
      * rewrite decide_False; [done|]. intros [_ Hr]%Sorted_inv. inversion Hr. congruence.
    + rewrite IH, u32_small by (try rewrite u32_small; lia || done).
      case_decide; [f_equal; lia|done].
Qed.
End loop.

Lemma validate_keys_loop prev total l :
  validate_keys prev total l = check_loop MKey (fun p k => kw_key p <? kw_key k) prev total l.
Proof. revert prev total. induction l as [|k l IH]; intros; [done|]. cbn. by rewrite IH. Qed.
Lemma validate_accounts_loop prev total l :
  validate_accounts prev total l =
  check_loop MAccount (fun p a => level_ltb (plw_permission p) (plw_permission a)) prev total l.
Proof. revert prev total. induction l as [|k l IH]; intros; [done|]. cbn. by rewrite IH. Qed.
Lemma validate_waits_loop prev total l :
  validate_waits prev total l = check_loop MWait (fun p w => wait_sec p <? wait_sec w) prev total l.
Proof.
  revert prev total. induction l as [|w l IH]; intros prev total; [done|]. cbn. rewrite IH.
  destruct prev as [p|]; [|done]. by rewrite <- Z.leb_antisym.
Qed.

Lemma all_factors_length a :
  length (all_factors a) = (length (keys a) + length (accounts a) + length (waits a))%nat.
Proof. unfold all_factors. rewrite !length_app, !length_fmap. lia. Qed.

Lemma waits_positive l : waits_sorted l -> Forall (fun w => 0 <= wait_sec w) l ->
  Forall (fun w => 0 < wait_sec w) l <-> (match l with w :: _ => wait_sec w =? 0 | [] => false end = false).
Proof.
  intros Hs Hnn. destruct l as [|w l]; [done|]. apply Forall_cons in Hnn as [Hw Hnn].
  apply Sorted_StronglySorted in Hs; [|intros ???; lia].
  apply StronglySorted_inv in Hs as [_ Hall]. split.
  - intros [? _]%Forall_cons. lia.
  - intros H0. bool_to_prop. constructor; [lia|]. eapply Forall_impl; [exact Hall|]. cbn. lia.
Qed.

(** [validate] accepts exactly the authorities with at most [2^16] factors, a
    positive threshold that the sum of all weights reaches, keys, accounts and
    delays each in strictly ascending order, and no zero delay; the 32-bit total
    never overflows. *)
Theorem validate_spec a :
  weights_ok a -> 0 <= threshold a < 2 ^ 32 -> Forall (fun w => 0 <= wait_sec w) (waits a) ->
  validate a = true <->
  Z.of_nat (length (all_factors a)) <= 2 ^ 16 /\ 0 < threshold a <= total_weight (all_factors a) /\
  keys_sorted (keys a) /\ accounts_sorted (accounts a) /\ waits_sorted (waits a) /\
  Forall (fun w => 0 < wait_sec w) (waits a).
Proof.
  intros Hw Ht Hnn. unfold validate. rewrite <- all_factors_length.
  destruct (2 ^ 16 <? _) eqn:Hlen; bool_to_prop; [split; [done|lia]|].
  destruct (threshold a =? 0) eqn:Ht0; bool_to_prop; [split; [done|lia]|].
  pose proof (total_weight_range _ Hw) as Hr. unfold weights_ok, all_factors in *.
  rewrite !total_weight_app in *. rewrite !Forall_app, !Forall_fmap in Hw.
  destruct Hw as (Hww & Hwk & Hwa).
  pose proof (total_weight_range (MWait <$> waits a) ltac:(by apply Forall_fmap)) as Hrw.
  pose proof (total_weight_range (MKey <$> keys a) ltac:(by apply Forall_fmap)) as Hrk.
  pose proof (total_weight_range (MAccount <$> accounts a) ltac:(by apply Forall_fmap)) as Hra.
  assert (Hfalse : forall P : Prop, ~ P -> false = true <-> P) by naive_solver.
  rewrite validate_keys_loop, check_loop_spec by (done || lia).
  case_decide as Hk; rewrite sorted_ltb in Hk; [|apply Hfalse; tauto].
  rewrite validate_accounts_loop, check_loop_spec by (done || lia).
  case_decide as Ha; fold (accounts_sorted (accounts a)) in Ha; [|apply Hfalse; tauto].
  rewrite validate_waits_loop, check_loop_spec by (done || lia).
  case_decide as Hs; rewrite sorted_ltb in Hs; fold (waits_sorted (waits a)) in Hs.
  - rewrite (waits_positive _ Hs Hnn). destruct (match waits a with [] => false | _ => _ end).
    + apply Hfalse. intros (_ & _ & _ & _ & _ & ?). done.
    + rewrite Z.leb_le. split; [intros; split_and!; try done; lia|]. intros (_ & ? & _). lia.
  - destruct (match waits a with [] => false | _ => _ end); apply Hfalse; tauto.
Qed.

(** ** What the checker grants

    [level_ok l]: permission [l] is provided, possibly through the wildcard of its
    actor, or its authority exists and the weights of some of its factors that are
    granted reach its threshold. *)
Section spec.
Context (ck : checker).

Inductive level_ok : permission_level -> Prop :=
| lvl_provided l : l ∈ provided_permissions ck -> level_ok l
| lvl_any l : PermissionLevel (actor l) 0 ∈ provided_permissions ck -> level_ok l
| lvl_auth l a ms : permission_to_authority ck l = Ok a -> ms ⊆+ all_factors a ->
    Forall granted ms -> threshold a <= total_weight ms -> level_ok l
with granted : meta_permission -> Prop :=
| granted_wait w : seconds (wait_sec w) <= provided_delay ck -> granted (MWait w)
| granted_key k : kw_key k ∈ provided_keys ck -> granted (MKey k)
| granted_account p : level_ok (plw_permission p) -> granted (MAccount p).

Definition auth_ok (a : authority) : Prop :=
  exists ms, ms ⊆+ all_factors a /\ Forall granted ms /\ threshold a <= total_weight ms.
End spec.

Section soundness.
Context `{MetaSetLaws} (ck : checker).
(** Permissions without a name do not exist. *)
Context (Hempty : forall a b, permission_to_authority ck (PermissionLevel a 0) <> Ok b).
Context (Hweights : forall l a, permission_to_authority ck l = Ok a -> weights_ok a).

(** What the cache promises. *)
Definition cache_ok (c : permission_cache_type) : Prop := forall l,
  c !! l = Some permission_satisfied ->
  level_ok ck l /\ (permission l = 0 -> l ∈ provided_permissions ck).

(** The exceptions of a lookup that a check does not handle. *)
Definition escapes (e : exn) : Prop :=
  e <> permission_query_exception /\ exists l, permission_to_authority ck l = Throw e.

(** A run that keeps the cache right and returns a value in [Q], or lets the
    exception of a lookup through. *)
Definition outcome {A} (Q : A -> Prop) (r : checker_state * result A) : Prop :=
  match r with
  | (st', Ok a) => cache_ok (cache st') /\ Q a
  | (_, Throw e) => escapes e
  end.

(** A check answers yes only when it should. *)
Definition sound (P : Prop) (m : St checker_state bool) : Prop := forall st,
  cache_ok (cache st) -> outcome (fun b => b = true -> P) (m st).

Lemma status_sound c l : cache_ok c ->
  permission_status_in_cache c l = Some permission_satisfied -> level_ok ck l.
Proof.
  intros Hc. unfold permission_status_in_cache. destruct (c !! l) as [s|] eqn:E.
  - intros [= ->]. by apply Hc in E as [? _].
  - intros Ha. apply Hc in Ha as [_ Hp]. apply lvl_any. by apply Hp.
Qed.

Lemma cache_insert c l s : cache_ok c ->
  (s = permission_satisfied -> level_ok ck l /\ (permission l = 0 -> l ∈ provided_permissions ck)) ->
  cache_ok (<[l := s]> c).
Proof.
  intros Hc Hs l'. rewrite lookup_insert_Some. intros [[<- ->]|[_ Hl]]; [by apply Hs|by apply Hc].
Qed.

Lemma initial_cache_ok : cache_ok (initialize_permission_cache ck).
Proof.
  unfold initialize_permission_cache.
  assert (forall ps c, (forall p, p ∈ ps -> p ∈ provided_permissions ck) -> cache_ok c ->
    cache_ok (foldl (fun c p => <[p := permission_satisfied]> c) c ps)) as Hg.
  { induction ps as [|p ps IH]; intros c Hps Hc; [done|]. cbn. apply IH.
    - intros q Hq. apply Hps. by right.
    - apply cache_insert; [done|]. intros _. assert (p ∈ provided_permissions ck)
        by (apply Hps; by left). split; [by apply lvl_provided|done]. }
  apply Hg; [done|]. intros l. by rewrite lookup_empty.
Qed.

Lemma u32_le x : 0 <= x -> u32 x <= x.
Proof. intros. unfold u32. apply Z.mod_le; lia. Qed.

Lemma find_key_elem k l n : find_key k l = Some n -> k ∈ l.
Proof.
  revert n. induction l as [|x l IH]; intros n; [done|]. cbn.
  destruct (x =? k) eqn:E; bool_to_prop; [subst; by left|].
  destruct (find_key k l) as [n'|]; [|done]. right. by eapply IH.
Qed.

(** A visit adds at most the weight of the factor, and only when it is granted. *)
Lemma visit_sound rec m total st :
  (forall a rec', rec = Some rec' -> weights_ok a -> sound (auth_ok ck a) (rec' a)) ->
  0 <= get_weight m -> 0 <= total -> cache_ok (cache st) ->
  outcome (fun t => t = total \/ (granted ck m /\ 0 <= t <= total + get_weight m))
    (visit ck rec m total st).
Proof.
  intros Hrec Hm Ht Hc.
  assert (Hu : 0 <= u32 (total + get_weight m) <= total + get_weight m)
    by (split; [apply u32_range|apply u32_le; lia]).
  destruct m as [p|k|w]; cbn [visit get_weight] in *.
  - unfold visit_account. run_st.
    destruct (permission_status_in_cache (cache st) (plw_permission p)) as [s|] eqn:Es.
    { destruct s; (split; [done|]); try by left.
      right. split; [|done]. constructor. by eapply status_sound. }
    destruct rec as [rec|]; [|by split; [|left]].
    destruct (permission_to_authority ck (plw_permission p)) as [a|e] eqn:Ea.
    2: { destruct e; try (split; [done|by eexists]). by split; [|left]. }
    unfold set_cache. run_st.
    specialize (Hrec a rec eq_refl (Hweights _ _ Ea)
      (CheckerState (used_marks st) (<[plw_permission p := being_evaluated]> (cache st)))
      ltac:(by apply cache_insert)).
    destruct (rec a _) as [st1 [b|e]]; [|exact Hrec]. destruct Hrec as [Hc1 Hb]. destruct b.
    + destruct (Hb eq_refl) as (ms & Hms & Hg & Hth).
      assert (level_ok ck (plw_permission p)) as Hl by (by eapply lvl_auth).
      split; [|right; split; [by constructor|done]].
      apply cache_insert; [done|]. intros _. split; [done|]. intros Hz.
      destruct (plw_permission p) as [act pn]. cbn in Hz. subst. by apply Hempty in Ea.
    + split; [by apply cache_insert|by left].
  - unfold visit_key. destruct (find_key _ _) as [n|] eqn:Ef.
    + unfold set_used. run_st. split; [done|]. right.
      split; [|done]. constructor. by eapply find_key_elem.
    + by split; [|left].
  - unfold visit_wait. destruct (_ <=? _) eqn:El; bool_to_prop;
      (split; [done|]); [right; split; [by constructor|done]|by left].
Qed.

Lemma tally_sound rec limit l total st ms :
  (forall a rec', rec = Some rec' -> weights_ok a -> sound (auth_ok ck a) (rec' a)) ->
  Forall (fun m => 0 <= get_weight m < 2 ^ 16) l -> 0 <= total <= total_weight ms ->
  Forall (granted ck) ms -> cache_ok (cache st) ->
  outcome (fun b => b = true ->
      exists ms', ms' ⊆+ ms ++ l /\ Forall (granted ck) ms' /\ limit <= total_weight ms')
    (tally ck rec limit l total st).
Proof.
  intros Hrec. revert total st ms. induction l as [|m l IH]; intros total st ms Hl Ht Hms Hc.
  - by split.
  - apply Forall_cons in Hl as [Hm Hl]. cbn [tally]. run_st.
    pose proof (visit_sound rec m total st Hrec ltac:(lia) ltac:(lia) Hc) as Hv.
    destruct (visit ck rec m total st) as [st1 [t|e]]; [|exact Hv]. destruct Hv as [Hc1 Hcase].
    assert (exists ms1, ms1 ⊆+ ms ++ [m] /\ Forall (granted ck) ms1 /\ 0 <= t <= total_weight ms1)
      as (ms1 & Hsub & Hg1 & Ht1).
    { destruct Hcase as [->|[Hg Hle]].
      - exists ms. split_and!; [by apply submseteq_inserts_r|done|lia..].
      - exists (ms ++ [m]). rewrite Forall_app, Forall_singleton, total_weight_app. cbn.
        split_and!; [done..|lia|lia]. }
    destruct (limit <=? t) eqn:El; bool_to_prop.
    + split; [done|]. intros _. exists ms1. split_and!; [|done|lia].
      etrans; [exact Hsub|]. replace (ms ++ m :: l) with ((ms ++ [m]) ++ l) by (by rewrite <- app_assoc).
      by apply submseteq_inserts_r.
    + specialize (IH t st1 ms1 Hl Ht1 Hg1 Hc1).
      destruct (tally ck rec limit l t st1) as [st' [b|e]]; [|exact IH]. destruct IH as [Hc' Hb].
      split; [done|]. intros Htrue.
      destruct (Hb Htrue) as (ms' & Hsub' & Hg' & Hlim). exists ms'. split_and!; [|done..].
      etrans; [exact Hsub'|]. replace (ms ++ m :: l) with ((ms ++ [m]) ++ l) by (by rewrite <- app_assoc).
      by apply submseteq_skips_r.
Qed.

Lemma meta_permissions_perm a : meta_permissions a ≡ₚ all_factors a.
Proof. unfold meta_permissions. by rewrite meta_sort_perm. Qed.

(** The body of [satisfied], for a sound recursive check. *)
Lemma tally_auth_sound rec a :
  (forall a rec', rec = Some rec' -> weights_ok a -> sound (auth_ok ck a) (rec' a)) ->
  weights_ok a ->
  sound (auth_ok ck a)
    (st ← get;
     r ← tally ck rec (threshold a) (meta_permissions a) 0;
     if (r : bool) then mret true else _ ← set_used (used_marks st); mret false).
Proof.
  intros Hrec Ha st Hc. run_st.
  pose proof (tally_sound rec (threshold a) (meta_permissions a) 0 st [] Hrec
    ltac:(by rewrite meta_permissions_perm) ltac:(done) ltac:(done) Hc) as Hrun.
  destruct (tally ck rec _ _ _ st) as [st' [b|e]]; [|exact Hrun]. destruct Hrun as [Hc' Hb].
  destruct b; [|by split].
  split; [done|]. intros _. destruct (Hb eq_refl) as (ms & Hsub & Hg & Hlim).
  exists ms. rewrite <- meta_permissions_perm. done.
Qed.

Lemma satisfied_auth_sound fuel a : weights_ok a -> sound (auth_ok ck a) (satisfied_auth ck fuel a).
Proof.
  revert a. induction fuel as [|fuel IH]; intros a Ha; apply tally_auth_sound; try done.
  intros a' rec' [= <-]. apply IH.
Qed.

(** The entry point answers yes only when the permission is granted, and fails only
    with the exception of a lookup. *)
Lemma satisfied_level_granted l used :
  match (satisfied_level ck l used).2 with
  | Ok b => b = true -> level_ok ck l
  | Throw e => escapes e
  end.
Proof.
  unfold satisfied_level.
  match goal with |- context [visit_account ck ?rec _ _] =>
    pose proof (visit_sound rec (MAccount (PermissionLevelWeight l 1)) 0
      (CheckerState used (initialize_permission_cache ck))) as Hv
  end; cbn [get_weight plw_weight visit] in Hv. run_st.
  destruct (visit_account ck _ _ _ _) as [st' [t|e]].
  - destruct Hv as [_ Hcase]; [|lia|lia|apply initial_cache_ok|].
    { intros a rec' Hrec Ha. destruct (recursion_depth_limit ck); [done|]. injection Hrec as <-.
      by apply satisfied_auth_sound. }
    intros Hpos. bool_to_prop. destruct Hcase as [->|[Hg _]]; [lia|]. by inversion Hg.
  - apply Hv; [|lia|lia|apply initial_cache_ok].
    intros a rec' Hrec Ha. destruct (recursion_depth_limit ck); [done|]. injection Hrec as <-.
    by apply satisfied_auth_sound.
Qed.

(** C19. When the checker finds a permission satisfied, there is a derivation of it
    from the provided permissions, keys and delay: somewhere in the hierarchy enough
    weight is granted for each authority used. Cyclic and too deep authorities are
    never a reason to grant anything. The checker always answers, except that it lets
    the exceptions of a lookup other than a missing permission through. *)
Theorem satisfied_level_sound l used :
  exists used' r, satisfied_level ck l used = (used', r) /\
    match r with
    | Ok b => b = true -> level_ok ck l
    | Throw e => e <> permission_query_exception /\ exists l', permission_to_authority ck l' = Throw e
    end.
Proof.
  pose proof (satisfied_level_granted l used) as Hs.
  destruct (satisfied_level ck l used) as [used' r]. by do 2 eexists.
Qed.
End soundness.

Section completeness.
Context `{MetaSetLaws} (ck : checker).

(** Factors that need no other authority. *)
Definition provided (m : meta_permission) : Prop :=
  match m with
  | MWait w => seconds (wait_sec w) <= provided_delay ck
  | MKey k => kw_key k ∈ provided_keys ck
  | MAccount p => plw_permission p ∈ provided_permissions ck
  end.

Lemma initial_cache_provided l :
  l ∈ provided_permissions ck -> initialize_permission_cache ck !! l = Some permission_satisfied.
Proof.
  unfold initialize_permission_cache.
  assert (forall ps (c : permission_cache_type), (l ∈ ps \/ c !! l = Some permission_satisfied) ->
    foldl (fun c p => <[p := permission_satisfied]> c) c ps !! l = Some permission_satisfied) as Hg.
  { induction ps as [|p ps IH]; intros c Hl; cbn.
    - destruct Hl as [Hl|?]; [by apply elem_of_nil in Hl|done].
    - apply IH. destruct Hl as [[->|Hl]%elem_of_cons|Hl]; [right|by left|right].
      + by rewrite lookup_insert_eq.
      + destruct (decide (p = l)) as [->|Hne]; [by rewrite lookup_insert_eq|].
        by rewrite lookup_insert_ne. }
  intros Hl. apply Hg. by left.
Qed.

Lemma find_key_complete k l : k ∈ l -> is_Some (find_key k l).
Proof.
  induction l as [|x l IH]; intros Hk; [by apply elem_of_nil in Hk|]. cbn.
  destruct (x =? k) eqn:E; [eauto|]. bool_to_prop.
  apply elem_of_cons in Hk as [->|Hk]; [done|]. destruct (IH Hk) as [n ->]. eauto.
Qed.

Lemma visit_provided rec m total st :
  provided m -> cache st = initialize_permission_cache ck ->
  exists st', visit ck rec m total st = (st', Ok (u32 (total + get_weight m))) /\
    cache st' = initialize_permission_cache ck.
Proof.
  destruct m as [p|k|w]; cbn [provided visit get_weight]; intros Hm Hc.
  - unfold visit_account, permission_status_in_cache. run_st.
    rewrite Hc, initial_cache_provided by done. by eexists.
  - unfold visit_key. destruct (find_key_complete _ _ Hm) as [n ->]. unfold set_used. run_st. by eexists.
  - unfold visit_wait. rewrite (proj2 (Z.leb_le _ _)) by done. by eexists.
Qed.

Lemma tally_provided rec limit l total st :
  Forall provided l -> Forall (fun m => 0 <= get_weight m < 2 ^ 16) l ->
  cache st = initialize_permission_cache ck ->
  0 <= total < limit -> limit <= total + total_weight l -> total + total_weight l < 2 ^ 32 ->
  exists st', tally ck rec limit l total st = (st', Ok true).
Proof.
  revert total st. induction l as [|m l IH]; intros total st Hl Hw Hc Ht Hle Hlt; cbn in Hle, Hlt.
  { lia. }
  fold (total_weight l) in *. apply Forall_cons in Hl as [Hm Hl]. apply Forall_cons in Hw as [Hmw Hw].
  destruct (visit_provided rec m total st Hm Hc) as (st1 & Hv & Hc1).
  pose proof (total_weight_range l Hw). cbn [tally]. run_st. rewrite Hv, u32_small by lia.
  destruct (limit <=? total + get_weight m) eqn:El; bool_to_prop; [by eexists|].
  apply IH; try done; lia.
Qed.

Lemma check_loop_le {A} (inj : A -> meta_permission) ordered prev total l t :
  Forall (fun x => 0 <= get_weight (inj x) < 2 ^ 16) l -> 0 <= total ->
  check_loop inj ordered prev total l = Some t -> 0 <= t <= total + total_weight (inj <$> l).
Proof.
  revert prev total. induction l as [|x l IH]; intros prev total Hl Ht; cbn [check_loop].
  - intros [= <-]. cbn. lia.
  - apply Forall_cons in Hl as [Hx Hl]. destruct (match prev with Some _ => _ | None => _ end); [done|].
    intros Hr. pose proof (u32_le (total + get_weight (inj x)) ltac:(lia)).
    apply IH in Hr; [|done|apply u32_range]. cbn. fold (total_weight (inj <$> l)). lia.
Qed.

(** A valid authority can be satisfied by its own factors. *)
Lemma validate_total a : weights_ok a -> 0 <= threshold a -> validate a = true ->
  Z.of_nat (length (all_factors a)) <= 2 ^ 16 /\ 0 < threshold a <= total_weight (all_factors a).
Proof.
  intros Hw Ht. unfold validate. rewrite <- all_factors_length. unfold weights_ok, all_factors in *.
  rewrite !Forall_app, !Forall_fmap in Hw. destruct Hw as (Hww & Hwk & Hwa).
  destruct (2 ^ 16 <? _) eqn:E1; [done|]. destruct (threshold a =? 0) eqn:E2; [done|]. bool_to_prop.
  rewrite validate_keys_loop. destruct (check_loop MKey _ _ _ _) as [t1|] eqn:E3; [|done].
  rewrite validate_accounts_loop. destruct (check_loop MAccount _ _ _ _) as [t2|] eqn:E4; [|done].
  destruct (match waits a with [] => _ | _ => _ end); [done|].
  rewrite validate_waits_loop. destruct (check_loop MWait _ _ _ _) as [t3|] eqn:E5; [|done].
  apply check_loop_le in E3; [|done..]. apply check_loop_le in E4; [|done|lia].
  apply check_loop_le in E5; [|done|lia]. intros Hle. bool_to_prop.
  rewrite !total_weight_app. split; [done|lia].
Qed.

(** An authority that [validate] accepts can be satisfied: when all its keys and
    accounts are provided and the delay reaches all its waits, the checker says
    yes. *)
Theorem validated_satisfiable a used :
  weights_ok a -> 0 <= threshold a -> validate a = true -> Forall provided (all_factors a) ->
  exists used', satisfied_authority ck a used = (used', Ok true).
Proof.
  intros Hw Ht Hv Hp. destruct (validate_total a Hw Ht Hv) as [Hlen Hth].
  pose proof (total_weight_range _ Hw). unfold satisfied_authority.
  assert (meta_permissions a ≡ₚ all_factors a) as Hperm
    by (unfold meta_permissions; by rewrite meta_sort_perm).
  destruct (recursion_depth_limit ck) as [|f]; cbn [satisfied_auth]; run_st.
  all: match goal with |- context [tally ck ?rec _ _ _ ?st] =>
    destruct (tally_provided rec (threshold a) (meta_permissions a) 0 st) as (st' & Hrun);
      [by rewrite Hperm..|done|lia|rewrite Hperm; lia|rewrite Hperm; lia|]; rewrite Hrun; by eexists
    end.
Qed.
End completeness.

(** ** Concrete checks *)
Module AuthSample.
Definition meta_le (a b : meta_permission) : Prop := meta_before b a = false.
#[global] Instance meta_le_dec a b : Decision (meta_le a b).
Proof. unfold meta_le. apply _. Defined.
#[global] Instance meta_le_total : Total meta_le.
Proof. intros a b. unfold meta_le, meta_before. destruct (get_weight a <? get_weight b) eqn:?,
  (get_weight b <? get_weight a) eqn:?, (get_weight a =? get_weight b) eqn:?,
  (get_weight b =? get_weight a) eqn:?, (which a <? which b) eqn:?, (which b <? which a) eqn:?;
  bool_to_prop; cbn; try lia; auto.
Qed.
#[global] Instance meta_le_trans : Transitive meta_le.
Proof.
  intros a b c. unfold meta_le, meta_before. rewrite !orb_false_iff, !andb_false_iff. intros.
  destruct (get_weight b <? get_weight a) eqn:?, (get_weight c <? get_weight b) eqn:?,
    (get_weight c <? get_weight a) eqn:?, (get_weight b =? get_weight a) eqn:?,
    (get_weight c =? get_weight b) eqn:?, (get_weight c =? get_weight a) eqn:?,
    (which a <? which b) eqn:?, (which b <? which c) eqn:?, (which a <? which c) eqn:?;
    bool_to_prop; try lia; naive_solver.
Qed.

#[global] Instance sample_meta : MetaSet := { meta_sort := merge_sort meta_le }.
#[global] Instance sample_meta_laws : MetaSetLaws.
Proof.
  split; intros l; [apply merge_sort_Permutation|apply (StronglySorted_merge_sort meta_le)].
Qed.

(** Account 1 has permissions 1 to 4: permission 1 needs 2 or 3, permission 2 needs
    permission 4 and key 200, permission 3 needs permission 4, permission 4 needs
    key 100. *)
Definition lvl (p : Z) : permission_level := PermissionLevel 1 p.
Definition sample_authority (l : permission_level) : result authority :=
  if negb (actor l =? 1) then Throw permission_query_exception else
  match permission l with
  | 1 => Ok (Authority 1 [] [PermissionLevelWeight (lvl 2) 2; PermissionLevelWeight (lvl 3) 1] [])
  | 2 => Ok (Authority 2 [KeyWeight 200 1] [PermissionLevelWeight (lvl 4) 1] [])
  | 3 => Ok (Authority 1 [] [PermissionLevelWeight (lvl 4) 1] [])
  | 4 => Ok (key_authority 100 0)
  | _ => Throw permission_query_exception
  end.
Definition sample_checker (ks : list public_key) : checker :=
  Checker sample_authority ks [] 0 6.
End AuthSample.
Import AuthSample.

Lemma validate_spec_witness : validate (key_authority 100 3600) = true.
Proof.
  apply (validate_spec (key_authority 100 3600)).
  - repeat constructor; cbn; lia.
  - cbn. lia.
  - repeat constructor; cbn; lia.
  - split_and!; try (cbn; lia); repeat constructor; cbn; lia.
Defined.

Lemma sample_authority_empty a ks b :
  permission_to_authority (sample_checker ks) (PermissionLevel a 0) <> Ok b.
Proof. cbn. unfold sample_authority. cbn. by destruct (a =? 1). Qed.
Lemma sample_authority_weights ks l a :
  permission_to_authority (sample_checker ks) l = Ok a -> weights_ok a.
Proof.
  cbn. unfold sample_authority. destruct (negb _); [done|].
  assert (forall p : Z, p = 1 \/ p = 2 \/ p = 3 \/ p = 4 \/ (p <> 1 /\ p <> 2 /\ p <> 3 /\ p <> 4))
    as Hp by lia.
  destruct (Hp (permission l)) as [->|[->|[->|[->|Hn]]]];
    try (intros [= <-]; repeat constructor; cbn; lia).
  destruct (permission l) as [|q|q]; try done. repeat (destruct q as [q|q|]; try done; try lia).
Qed.

Lemma satisfied_level_sound_witness : level_ok (sample_checker [100]) (lvl 1).
Proof.
  destruct (satisfied_level_sound (sample_checker [100]) (fun a => sample_authority_empty a [100])
    (sample_authority_weights [100]) (lvl 1) [false]) as (used & r & Hrun & Hb).
  assert ((satisfied_level (sample_checker [100]) (lvl 1) [false]).2 = Ok true) as Hr
    by (by vm_compute).
  rewrite Hrun in Hr. cbn in Hr. subst r. by apply Hb.
Defined.

Lemma validated_satisfiable_witness :
  exists used, satisfied_authority (sample_checker [100]) (key_authority 100 0) [false] = (used, Ok true).
Proof.
  apply (validated_satisfiable (sample_checker [100]) (key_authority 100 0) [false]).
  - repeat constructor; cbn; lia.
  - cbn. lia.
  - by vm_compute.
  - repeat constructor.
Defined.

(** A permission found satisfied while an authority that fails is evaluated stays
    in the cache although its keys are given back: here the check succeeds only
    because of key 100, and reports that no key was used. *)
Theorem cached_permission_loses_keys :
  satisfied_level (sample_checker [100]) (lvl 1) [false] = ([false], Ok true) /\
  used_keys (sample_checker [100]) [false] = [] /\
  satisfied_level (sample_checker []) (lvl 1) [] = ([], Ok false).
Proof. by vm_compute. Qed.
