(* ===== verification/Transactions.v ===== *)
(** * Actions and transactions

    Model of [transaction.hpp], [transaction.cpp], [action.hpp] and
    [contract_types.hpp] under [libraries/chain]: the structures with their binary
    form, in the order of their [FC_REFLECT] declarations, transaction identifiers and
    signing digests, the reference block, and the recovery of the signing keys with
    its cache. *)
From Stdlib Require Import Ascii String.
From S2P Require Import Prelude Merkle BlockHeaderState Names Raw Authority.

(** ** Names of [config.hpp] *)
Definition system_account_name : Z := Eval vm_compute in N "besio".
Definition active_name : Z := Eval vm_compute in N "active".
Definition owner_name : Z := Eval vm_compute in N "owner".
Definition besio_any_name : Z := Eval vm_compute in N "besio.any".
Definition besio_code_name : Z := Eval vm_compute in N "besio.code".

(** ** Binary forms of the common types *)
Definition c_name : codec Z := c_uint 8.

(** [sha256]: its four words. *)
Definition c_digest : codec digest :=
  c_struct (fun d => (hash0 d, (hash1 d, (hash2 d, hash3 d))))
    (fun '(a, (b, (c, d))) => Digest a b c d)
    (c_pair (c_uint 8) (c_pair (c_uint 8) (c_pair (c_uint 8) (c_uint 8)))).

(** A public key is its kind followed by the 33 bytes of a compressed point, here the
    number whose order is the order of keys. *)
Definition key_base : Z := 256 ^ 33.
Definition key_parts (k : public_key) : Z * bytes := (k / key_base, rev (le_bytes 33 (k mod key_base))).
Definition key_of_parts (p : Z * bytes) : public_key := p.1 * key_base + le_value (rev p.2).
Definition c_public_key : codec public_key := c_struct key_parts key_of_parts (c_variant 2 (c_array 33)).

Definition c_permission_level : codec permission_level :=
  c_struct (fun l => (actor l, permission l)) (fun '(a, p) => PermissionLevel a p) (c_pair c_name c_name).
Definition c_permission_level_weight : codec permission_level_weight :=
  c_struct (fun w => (plw_permission w, plw_weight w)) (fun '(p, w) => PermissionLevelWeight p w)
    (c_pair c_permission_level (c_uint 2)).
Definition c_key_weight : codec key_weight :=
  c_struct (fun w => (kw_key w, kw_weight w)) (fun '(k, w) => KeyWeight k w) (c_pair c_public_key (c_uint 2)).
Definition c_wait_weight : codec wait_weight :=
  c_struct (fun w => (wait_sec w, ww_weight w)) (fun '(s, w) => WaitWeight s w) (c_pair (c_uint 4) (c_uint 2)).
Definition c_authority : codec authority :=
  c_struct (fun a => (threshold a, (keys a, (accounts a, waits a))))
    (fun '(t, (k, (a, w))) => Authority t k a w)
    (c_pair (c_uint 4) (c_pair (c_vector c_key_weight)
      (c_pair (c_vector c_permission_level_weight) (c_vector c_wait_weight)))).

(** ** Actions *)
Record action := Action {
  act_account : account_name;
  act_name : Z;
  act_authorization : list permission_level;
  act_data : bytes
}.
Definition c_action : codec action :=
  c_struct (fun a => (act_account a, (act_name a, (act_authorization a, act_data a))))
    (fun '(a, (n, (au, d))) => Action a n au d)
    (c_pair c_name (c_pair c_name (c_pair (c_vector c_permission_level) c_bytes))).

(** A structure that is the data of a native action. *)
Record action_type (A : Type) := ActionType { get_name : Z; at_codec : codec A }.
Arguments ActionType {_} _ _.
Arguments get_name {_} _.
Arguments at_codec {_} _.

(** [action( auth, value )] and [data_as]; all native actions are actions of the
    system account. *)
Definition make_action {A} (t : action_type A) (auth : list permission_level) (value : A) : result action :=
  d ← pack_value (at_codec t) value;
  mret (Action system_account_name (get_name t) auth d).
Definition data_as {A} (t : action_type A) (a : action) : result A :=
  _ ← bes_assert (act_account a =? system_account_name) action_type_exception;
  _ ← bes_assert (act_name a =? get_name t) action_type_exception;
  unpack_value (at_codec t) (act_data a).

(** ** Native action data ([contract_types.hpp]) *)
Record newaccount := Newaccount {
  na_creator : account_name; na_name : account_name; na_owner : authority; na_active : authority }.
Record setcode := Setcode {
  sc_account : account_name; sc_vmtype : Z; sc_vmversion : Z; sc_code : bytes }.
Record setabi := Setabi { sa_account : account_name; sa_abi : bytes }.
Record updateauth := Updateauth {
  ua_account : account_name; ua_permission : Z; ua_parent : Z; ua_auth : authority }.
Record deleteauth := Deleteauth { da_account : account_name; da_permission : Z }.
Record linkauth := Linkauth {
  la_account : account_name; la_code : account_name; la_type : Z; la_requirement : Z }.
Record unlinkauth := Unlinkauth { ul_account : account_name; ul_code : account_name; ul_type : Z }.
Record canceldelay := Canceldelay { cd_canceling_auth : permission_level; cd_trx_id : digest }.

(** The [get_name] of each. *)
Definition newaccount_name : Z := Eval vm_compute in N "newaccount".
Definition setcode_name : Z := Eval vm_compute in N "setcode".
Definition setabi_name : Z := Eval vm_compute in N "setabi".
Definition updateauth_name : Z := Eval vm_compute in N "updateauth".
Definition deleteauth_name : Z := Eval vm_compute in N "deleteauth".
Definition linkauth_name : Z := Eval vm_compute in N "linkauth".
Definition unlinkauth_name : Z := Eval vm_compute in N "unlinkauth".
Definition canceldelay_name : Z := Eval vm_compute in N "canceldelay".

Definition t_newaccount : action_type newaccount :=
  ActionType newaccount_name
    (c_struct (fun a => (na_creator a, (na_name a, (na_owner a, na_active a))))
      (fun '(c, (n, (o, a))) => Newaccount c n o a)
      (c_pair c_name (c_pair c_name (c_pair c_authority c_authority)))).
Definition t_setcode : action_type setcode :=
  ActionType setcode_name
    (c_struct (fun a => (sc_account a, (sc_vmtype a, (sc_vmversion a, sc_code a))))
      (fun '(a, (t, (v, c))) => Setcode a t v c)
      (c_pair c_name (c_pair (c_uint 1) (c_pair (c_uint 1) c_bytes)))).
Definition t_setabi : action_type setabi :=
  ActionType setabi_name
    (c_struct (fun a => (sa_account a, sa_abi a)) (fun '(a, b) => Setabi a b) (c_pair c_name c_bytes)).
Definition t_updateauth : action_type updateauth :=
  ActionType updateauth_name
    (c_struct (fun a => (ua_account a, (ua_permission a, (ua_parent a, ua_auth a))))
      (fun '(a, (p, (q, au))) => Updateauth a p q au)
      (c_pair c_name (c_pair c_name (c_pair c_name c_authority)))).
Definition t_deleteauth : action_type deleteauth :=
  ActionType deleteauth_name
    (c_struct (fun a => (da_account a, da_permission a)) (fun '(a, p) => Deleteauth a p)
      (c_pair c_name c_name)).
Definition t_linkauth : action_type linkauth :=
  ActionType linkauth_name
    (c_struct (fun a => (la_account a, (la_code a, (la_type a, la_requirement a))))
      (fun '(a, (c, (t, r))) => Linkauth a c t r)
      (c_pair c_name (c_pair c_name (c_pair c_name c_name)))).
Definition t_unlinkauth : action_type unlinkauth :=
  ActionType unlinkauth_name
    (c_struct (fun a => (ul_account a, (ul_code a, ul_type a))) (fun '(a, (c, t)) => Unlinkauth a c t)
      (c_pair c_name (c_pair c_name c_name))).
Definition t_canceldelay : action_type canceldelay :=
  ActionType canceldelay_name
    (c_struct (fun a => (cd_canceling_auth a, cd_trx_id a)) (fun '(l, t) => Canceldelay l t)
      (c_pair c_permission_level c_digest)).

(** ** Transactions *)
Record transaction_header := TransactionHeader {
  expiration : Z;
  ref_block_num : Z;
  ref_block_prefix : Z;
  max_net_usage_words : Z;
  max_cpu_usage_ms : Z;
  delay_sec : Z
}.
Definition c_transaction_header : codec transaction_header :=
  c_struct
    (fun h => (expiration h, (ref_block_num h, (ref_block_prefix h,
                (max_net_usage_words h, (max_cpu_usage_ms h, delay_sec h))))))
    (fun '(e, (n, (p, (w, (m, d))))) => TransactionHeader e n p w m d)
    (c_pair (c_uint 4) (c_pair (c_uint 2) (c_pair (c_uint 4)
      (c_pair c_unsigned_int (c_pair (c_uint 1) c_unsigned_int))))).

Record transaction := Transaction {
  trx_header : transaction_header;
  context_free_actions : list action;
  trx_actions : list action;
  transaction_extensions : list (Z * bytes)
}.
(** A derived structure: the fields of the base first. *)
Definition c_transaction : codec transaction :=
  c_struct
    (fun t => (trx_header t, (context_free_actions t, (trx_actions t, transaction_extensions t))))
    (fun '(h, (c, (a, e))) => Transaction h c a e)
    (c_pair c_transaction_header (c_pair (c_vector c_action) (c_pair (c_vector c_action)
      (c_vector (c_pair (c_uint 2) c_bytes))))).

Definition set_reference_block (reference_block : digest) (h : transaction_header) : transaction_header :=
  TransactionHeader (expiration h) (u16 (endian_reverse_u32 (u32 (hash0 reference_block))))
    (u32 (hash1 reference_block)) (max_net_usage_words h) (max_cpu_usage_ms h) (delay_sec h).
Definition verify_reference_block (reference_block : digest) (h : transaction_header) : bool :=
  (ref_block_num h =? u16 (endian_reverse_u32 (u32 (hash0 reference_block)))) &&
  (ref_block_prefix h =? u32 (hash1 reference_block)).
Definition validate_header (h : transaction_header) : result unit :=
  bes_assert (max_net_usage_words h <? (2 ^ 32 - 1) / 8) transaction_exception.
Definition total_actions (t : transaction) : Z :=
  u32 (Z.of_nat (length (context_free_actions t) + length (trx_actions t))).
Definition first_authorizor (t : transaction) : account_name :=
  match filter (fun a => act_authorization a <> []) (trx_actions t) with
  | a :: _ => match act_authorization a with u :: _ => actor u | [] => 0 end
  | [] => 0
  end.

(** [digest_type::encoder]: a stream that collects what is hashed. *)
Record encoder := Encoder { hashed : bytes }.
#[global] Instance encoder_stream : Stream encoder := {
  write d := modify_st (fun e => Encoder (hashed e ++ d))
}.

(** SHA-256 of bytes, and the recovery of a key from a signature of a digest. *)
Class TrxCrypto := {
  sha256 : bytes -> digest;
  recover_key : signature -> digest -> result public_key
}.

Section signing.
Context `{TrxCrypto}.

Definition result_of (m : encoder * result unit) : result digest :=
  _ ← m.2; mret (sha256 (hashed m.1)).

Definition trx_id (t : transaction) : result digest := result_of (pack c_transaction t (Encoder [])).

Definition sig_digest (chain_id : digest) (cfd : list bytes) (t : transaction) : result digest :=
  cfd_digest ← (match cfd with
                | [] => mret digest_nil
                | _ => result_of (pack (c_vector c_bytes) cfd (Encoder []))
                end);
  result_of ((_ ← pack c_digest chain_id; _ ← pack c_transaction t; pack c_digest cfd_digest)
    (Encoder [])).

(** The cache of recovered keys: in order of insertion, unique by signature. *)
Record cached_pub_key := CachedPubKey {
  cpk_trx_id : digest; cpk_pub_key : public_key; cpk_sig : signature }.
Definition recovery_cache_size : nat := 1000.

Definition find_sig (sig : signature) (cache : list cached_pub_key) : option cached_pub_key :=
  head (filter (fun e => cpk_sig e = sig) cache).

(** [emplace_back] does nothing when the signature is there already. *)
Definition emplace_back (e : cached_pub_key) (cache : list cached_pub_key) : list cached_pub_key :=
  match find_sig (cpk_sig e) cache with
  | Some _ => cache
  | None => cache ++ [e]
  end.

Definition recover_cached (use_cache : bool) (t : transaction) (digest : digest) (sig : signature)
    : St (list cached_pub_key) public_key :=
  if use_cache then
    cache ← get;
    let known := match find_sig sig cache with
                 | Some e => if decide (trx_id t = Ok (cpk_trx_id e)) then Some (cpk_pub_key e) else None
                 | None => None
                 end in
    match known with
    | Some k => mret k
    | None =>
        recov ← lift (recover_key sig digest);
        id ← lift (trx_id t);
        _ ← put (emplace_back (CachedPubKey id recov sig) cache);
        mret recov
    end
  else lift (recover_key sig digest).

(** The loop over the signatures; the keys are a sorted set. *)
Fixpoint recover_keys (use_cache allow_duplicate_keys : bool) (t : transaction) (digest : digest)
    (sigs : list signature) (recovered : gset Z) : St (list cached_pub_key) (gset Z) :=
  match sigs with
  | [] => mret recovered
  | sig :: sigs =>
      recov ← recover_cached use_cache t digest sig;
      _ ← st_assert (allow_duplicate_keys || negb (bool_decide (recov ∈ recovered))) tx_duplicate_sig;
      recover_keys use_cache allow_duplicate_keys t digest sigs ({[recov]} ∪ recovered)
  end.

Definition get_signature_keys (signatures : list signature) (chain_id : digest) (cfd : list bytes)
    (allow_duplicate_keys use_cache : bool) (t : transaction) : St (list cached_pub_key) (gset Z) :=
  digest ← lift (sig_digest chain_id cfd t);
  recovered ← recover_keys use_cache allow_duplicate_keys t digest signatures ∅;
  _ ← (if use_cache then modify_st (fun c => drop (length c - recovery_cache_size) c) else mret tt);
  mret recovered.
End signing.

(** ** Valid values and their round trip *)
Definition name_valid (n : Z) : Prop := 0 <= n < 2 ^ 64.
Definition digest_valid (d : digest) : Prop :=
  name_valid (hash0 d) /\ name_valid (hash1 d) /\ name_valid (hash2 d) /\ name_valid (hash3 d).
Definition key_valid (k : public_key) : Prop := 0 <= k < 2 * key_base.
Definition few {A} (valid : A -> Prop) (l : list A) : Prop :=
  Z.of_nat (length l) <= MAX_NUM_ARRAY_ELEMENTS /\ Forall valid l.
Definition bytes_valid (d : bytes) : Prop :=
  Z.of_nat (length d) <= MAX_SIZE_OF_BYTE_ARRAYS /\ Forall byte_ok d.

Definition level_valid (l : permission_level) : Prop := name_valid (actor l) /\ name_valid (permission l).
Definition authority_valid (a : authority) : Prop :=
  0 <= threshold a < 2 ^ 32 /\
  few (fun w => key_valid (kw_key w) /\ 0 <= kw_weight w < 2 ^ 16) (keys a) /\
  few (fun w => level_valid (plw_permission w) /\ 0 <= plw_weight w < 2 ^ 16) (accounts a) /\
  few (fun w => 0 <= wait_sec w < 2 ^ 32 /\ 0 <= ww_weight w < 2 ^ 16) (waits a).
Definition action_valid (a : action) : Prop :=
  name_valid (act_account a) /\ name_valid (act_name a) /\ few level_valid (act_authorization a) /\
  bytes_valid (act_data a).
Definition header_valid (h : transaction_header) : Prop :=
  0 <= expiration h < 2 ^ 32 /\ 0 <= ref_block_num h < 2 ^ 16 /\ 0 <= ref_block_prefix h < 2 ^ 32 /\
  0 <= max_net_usage_words h < 2 ^ 32 /\ 0 <= max_cpu_usage_ms h < 2 ^ 8 /\ 0 <= delay_sec h < 2 ^ 32.
Definition transaction_valid (t : transaction) : Prop :=
  header_valid (trx_header t) /\ few action_valid (context_free_actions t) /\
  few action_valid (trx_actions t) /\
  few (fun e => 0 <= e.1 < 2 ^ 16 /\ bytes_valid e.2) (transaction_extensions t).

Create HintDb codec.

Lemma c_u8_ok : codec_ok (c_uint 1) (fun v => 0 <= v < 2 ^ 8) 1.
Proof. exact (c_uint_ok 1 ltac:(lia)). Qed.
Lemma c_u16_ok : codec_ok (c_uint 2) (fun v => 0 <= v < 2 ^ 16) 2.
Proof. exact (c_uint_ok 2 ltac:(lia)). Qed.
Lemma c_u32_ok : codec_ok (c_uint 4) (fun v => 0 <= v < 2 ^ 32) 4.
Proof. exact (c_uint_ok 4 ltac:(lia)). Qed.
Lemma c_u64_ok : codec_ok (c_uint 8) name_valid 8.
Proof. exact (c_uint_ok 8 ltac:(lia)). Qed.
Lemma c_name_ok : codec_ok c_name name_valid 8.
Proof. exact c_u64_ok. Qed.
Lemma c_blob_ok : codec_ok c_bytes bytes_valid (5 + MAX_SIZE_OF_BYTE_ARRAYS).
Proof. exact c_bytes_ok. Qed.
Lemma c_few_ok {A} (c : codec A) v b : codec_ok c v b -> 0 <= b ->
  codec_ok (c_vector c) (few v) (5 + MAX_NUM_ARRAY_ELEMENTS * b).
Proof. intros Hc Hb. exact (c_vector_ok c v b Hb Hc). Qed.
#[export] Hint Resolve c_u8_ok c_u16_ok c_u32_ok c_u64_ok c_name_ok c_blob_ok c_unsigned_int_ok : codec.

(** A structure of fields with known codecs; the bound and the fields of the validity
    are compared at the end. *)
Ltac codec_fields :=
  repeat first [apply c_pair_ok | apply c_few_ok | solve [eauto with codec] | by vm_compute].
Ltac codec_struct :=
  eapply codec_ok_weaken; cycle 2; [apply c_struct_ok; cycle 1; [codec_fields|]|..];
  [by intros []|intros a Ha; hnf in Ha; cbn; tauto|by vm_compute].

Lemma c_digest_ok : codec_ok c_digest digest_valid 32.
Proof. codec_struct. Qed.
Lemma c_permission_level_ok : codec_ok c_permission_level level_valid 16.
Proof. codec_struct. Qed.

Lemma key_parts_ok k : key_valid k ->
  0 <= (key_parts k).1 < 2 /\ length (key_parts k).2 = 33%nat /\ Forall byte_ok (key_parts k).2 /\
  key_of_parts (key_parts k) = k.
Proof.
  intros Hk. unfold key_valid in Hk. assert (Hb : 0 < key_base) by done.
  pose proof (Z.mod_pos_bound k key_base Hb) as Hm. pose proof (Z.div_mod k key_base ltac:(lia)) as Hd.
  unfold key_of_parts, key_parts. cbn [fst snd].
  destruct (le_bytes_ok 33 (k mod key_base)) as [H1 H2]. split_and!.
  - apply Z.div_pos; lia.
  - apply Z.div_lt_upper_bound; lia.
  - by rewrite length_rev.
  - by apply Forall_rev.
  - rewrite rev_involutive, le_value_bytes by exact Hm. lia.
Qed.

Lemma c_public_key_ok : codec_ok c_public_key key_valid 38.
Proof.
  assert (codec_ok (c_variant 2 (c_array 33))
    (fun p => 0 <= p.1 < 2 /\ (length p.2 = 33%nat /\ Forall byte_ok p.2)) 38) as Hc.
  { apply (c_variant_ok 2 (c_array 33) (fun d => length d = 33%nat /\ Forall byte_ok d) 33); [lia|].
    apply (c_array_ok 33). lia. }
  intros k Hk. destruct (key_parts_ok k Hk) as (H1 & H2 & H3 & H4).
  destruct (Hc (key_parts k) (conj H1 (conj H2 H3))) as [cs []]. exists cs. split; try done.
  intros rest. cbn [unpack c_public_key c_struct]. unfold mbind, St_bind. rewrite en_unpack.
  unfold mret, St_ret. by rewrite H4.
Qed.
#[export] Hint Resolve c_digest_ok c_permission_level_ok c_public_key_ok : codec.

Lemma c_key_weight_ok :
  codec_ok c_key_weight (fun w => key_valid (kw_key w) /\ 0 <= kw_weight w < 2 ^ 16) 40.
Proof. codec_struct. Qed.
Lemma c_permission_level_weight_ok :
  codec_ok c_permission_level_weight
    (fun w => level_valid (plw_permission w) /\ 0 <= plw_weight w < 2 ^ 16) 18.
Proof. codec_struct. Qed.
Lemma c_wait_weight_ok :
  codec_ok c_wait_weight (fun w => 0 <= wait_sec w < 2 ^ 32 /\ 0 <= ww_weight w < 2 ^ 16) 6.
Proof. codec_struct. Qed.
#[export] Hint Resolve c_key_weight_ok c_permission_level_weight_ok c_wait_weight_ok : codec.

Lemma c_authority_ok : codec_ok c_authority authority_valid (2 ^ 27).
Proof. codec_struct. Qed.
#[export] Hint Resolve c_authority_ok : codec.

Lemma c_action_ok : codec_ok c_action action_valid (2 ^ 26).
Proof. codec_struct. Qed.
#[export] Hint Resolve c_action_ok : codec.

Lemma c_transaction_header_ok : codec_ok c_transaction_header header_valid 21.
Proof. codec_struct. Qed.
#[export] Hint Resolve c_transaction_header_ok : codec.

Lemma c_transaction_ok : codec_ok c_transaction transaction_valid (2 ^ 48).
Proof. codec_struct. Qed.
#[export] Hint Resolve c_transaction_ok : codec.

(** C20 A transaction within the limits of its types packs, in at most 2^48 bytes, and the
    packed bytes, followed by anything, unpack to the same transaction; the measuring
    pass finds the size of what the second pass writes. *)
Theorem transaction_roundtrip (t : transaction) :
  transaction_valid t ->
  exists d, pack_value c_transaction t = Ok d /\
    pack_size c_transaction t = Ok (Z.of_nat (length d)) /\ Z.of_nat (length d) <= 2 ^ 48 /\
    forall rest, unpack_value c_transaction (d ++ rest) = Ok t.
Proof.
  intros Ht. destruct (pack_value_ok _ _ _ t c_transaction_ok ltac:(done) Ht) as (d & ? & ? & ? & _ & ?).
  by exists d.
Qed.

(** The data of an action of type [t] is what the action was made from. *)
Definition keeps_data {A} (t : action_type A) (valid : A -> Prop) : Prop :=
  forall auth a, valid a -> exists act, make_action t auth a = Ok act /\ data_as t act = Ok a.

Lemma action_type_ok {A} (t : action_type A) v b :
  codec_ok (at_codec t) v b -> b < 2 ^ 64 -> keeps_data t v.
Proof.
  intros Hc Hb auth a Ha. destruct (pack_value_ok _ _ _ a Hc Hb Ha) as (d & Hp & _ & _ & _ & Hu).
  exists (Action system_account_name (get_name t) auth d).
  unfold make_action, data_as. rewrite Hp. split; [done|]. cbn [act_account act_name act_data].
  rewrite !Z.eqb_refl. run_monad. specialize (Hu []). by rewrite app_nil_r in Hu.
Qed.

Ltac keeps_data := eapply action_type_ok with (b := 2 ^ 32); [codec_struct|done].

(** The data of every native action survives its binary form: an action made from a
    structure decodes, under the account and name of its type, to that structure. *)
Theorem native_action_roundtrip :
  keeps_data t_newaccount (fun a => name_valid (na_creator a) /\ name_valid (na_name a) /\
    authority_valid (na_owner a) /\ authority_valid (na_active a)) /\
  keeps_data t_setcode (fun a => name_valid (sc_account a) /\ 0 <= sc_vmtype a < 2 ^ 8 /\
    0 <= sc_vmversion a < 2 ^ 8 /\ bytes_valid (sc_code a)) /\
  keeps_data t_setabi (fun a => name_valid (sa_account a) /\ bytes_valid (sa_abi a)) /\
  keeps_data t_updateauth (fun a => name_valid (ua_account a) /\ name_valid (ua_permission a) /\
    name_valid (ua_parent a) /\ authority_valid (ua_auth a)) /\
  keeps_data t_deleteauth (fun a => name_valid (da_account a) /\ name_valid (da_permission a)) /\
  keeps_data t_linkauth (fun a => name_valid (la_account a) /\ name_valid (la_code a) /\
    name_valid (la_type a) /\ name_valid (la_requirement a)) /\
  keeps_data t_unlinkauth (fun a => name_valid (ul_account a) /\ name_valid (ul_code a) /\
    name_valid (ul_type a)) /\
  keeps_data t_canceldelay (fun a => level_valid (cd_canceling_auth a) /\ digest_valid (cd_trx_id a)).
Proof. split_and!; keeps_data. Qed.

(** ** The cache of recovered keys *)
Section cache.
Context `{TrxCrypto}.

Lemma encoder_writes cs : forall d, for_each write cs (Encoder d) = (Encoder (d ++ concat cs), Ok tt).
Proof.
  induction cs as [|c cs IH]; intros d; cbn [for_each concat]; [by rewrite app_nil_r|].
  unfold mbind, St_bind. cbn. rewrite IH. by rewrite <- app_assoc.
Qed.

Lemma trx_id_ok t : transaction_valid t -> exists id, trx_id t = Ok id.
Proof.
  intros Ht. destruct (c_transaction_ok t Ht) as [cs [He _ _ _ _]]. unfold trx_id. run_monad.
  rewrite He, encoder_writes. by eexists.
Qed.

Context (chain_id : digest).

(** A call of [get_signature_keys], and a sequence of calls on the one cache of the
    process. *)
Record key_request := KeyRequest {
  kr_signatures : list signature;
  kr_context_free_data : list bytes;
  kr_allow_duplicate_keys : bool;
  kr_trx : transaction
}.
Definition answer (use_cache : bool) (q : key_request) : St (list cached_pub_key) (gset Z) :=
  get_signature_keys (kr_signatures q) chain_id (kr_context_free_data q) (kr_allow_duplicate_keys q) use_cache (kr_trx q).
Fixpoint answers (use_cache : bool) (l : list key_request) (cache : list cached_pub_key)
    : list (result (gset Z)) :=
  match l with
  | [] => []
  | q :: l => let '(cache, r) := answer use_cache q cache in r :: answers use_cache l cache
  end.
Definition request_digest (q : key_request) : result digest := sig_digest chain_id (kr_context_free_data q) (kr_trx q).

(** Requests with the same identifier are for the same signing digest. *)
Definition consistent (l : list key_request) : Prop := forall q1 q2 id, q1 ∈ l -> q2 ∈ l ->
  trx_id (kr_trx q1) = Ok id -> trx_id (kr_trx q2) = Ok id -> request_digest q1 = request_digest q2.

Section requests.
Context (l : list key_request) (Hl : consistent l) (Hv : forall q, q ∈ l -> transaction_valid (kr_trx q)).

(** Every entry is the key that recovery gives for one of the requests with its
    identifier. *)
Definition cache_right (cache : list cached_pub_key) : Prop := forall e, e ∈ cache ->
  exists q dg, q ∈ l /\ trx_id (kr_trx q) = Ok (cpk_trx_id e) /\
    request_digest q = Ok dg /\ recover_key (cpk_sig e) dg = Ok (cpk_pub_key e).

Lemma find_sig_some sig cache e : find_sig sig cache = Some e -> e ∈ cache /\ cpk_sig e = sig.
Proof.
  unfold find_sig. intros Hf. assert (e ∈ filter (fun e => cpk_sig e = sig) cache) as He.
  { destruct (filter _ cache); [done|]. injection Hf as ->. by left. }
  apply list_elem_of_filter in He. tauto.
Qed.

Lemma recover_cached_right q dg sig cache :
  q ∈ l -> request_digest q = Ok dg -> cache_right cache ->
  exists cache', recover_cached true (kr_trx q) dg sig cache = (cache', recover_key sig dg) /\ cache_right cache'.
Proof.
  intros Hq Hdg Hc. unfold recover_cached. run_st.
  destruct (find_sig sig cache) as [e|] eqn:Ef.
  1: case_decide as Hid; [|].
  1: { apply find_sig_some in Ef as [He Hs]. destruct (Hc e He) as (q' & dg' & Hq' & Hi & Hd & Hr).
       rewrite (Hl q' q (cpk_trx_id e)), Hdg in Hd by done. injection Hd as <-.
       exists cache. rewrite <- Hs, Hr. done. }
  all: destruct (recover_key sig dg) as [k|ex] eqn:Er; [|by exists cache].
  all: destruct (trx_id_ok _ (Hv q Hq)) as [d Hi].
  all: rewrite Hi; eexists; split; [reflexivity|].
  all: unfold emplace_back; destruct (find_sig _ cache); [done|].
  all: intros e' [He'|He'%list_elem_of_singleton]%elem_of_app; [by apply Hc|]; subst e'; by exists q, dg.
Qed.

Lemma recover_keys_uncached dup t dg sigs : forall c1 c2 recovered,
  (recover_keys false dup t dg sigs recovered c1).2 = (recover_keys false dup t dg sigs recovered c2).2.
Proof.
  induction sigs as [|sig sigs IH]; intros c1 c2 recovered; [done|].
  cbn [recover_keys recover_cached]. unfold mbind, St_bind, st_assert, lift.
  destruct (recover_key sig dg) as [k|e]; [|done]. destruct (bes_assert _ _) as [[]|]; [|done].
  apply IH.
Qed.

Lemma recover_keys_right q dup dg sigs : forall cache recovered,
  q ∈ l -> request_digest q = Ok dg -> cache_right cache ->
  (recover_keys true dup (kr_trx q) dg sigs recovered cache).2 =
    (recover_keys false dup (kr_trx q) dg sigs recovered cache).2 /\
  cache_right (recover_keys true dup (kr_trx q) dg sigs recovered cache).1.
Proof.
  induction sigs as [|sig sigs IH]; intros cache recovered Hq Hdg Hc; [done|].
  cbn [recover_keys]. unfold mbind, St_bind.
  destruct (recover_cached_right q dg sig cache Hq Hdg Hc) as (cache' & -> & Hc').
  cbn [recover_cached lift]. destruct (recover_key sig dg) as [k|e]; [|done].
  unfold st_assert, lift, bes_assert. destruct (dup || _); [|done].
  destruct (IH cache' ({[k]} ∪ recovered) Hq Hdg Hc') as [He Hr]. split; [|done]. rewrite He.
  apply recover_keys_uncached.
Qed.

Lemma answer_right q cache : q ∈ l -> cache_right cache ->
  (answer true q cache).2 = (answer false q cache).2 /\ cache_right (answer true q cache).1.
Proof.
  intros Hq Hc. unfold answer, get_signature_keys. unfold mbind, St_bind, lift.
  fold (request_digest q). destruct (request_digest q) as [dg|e] eqn:Hdg; [|done].
  destruct (recover_keys_right q (kr_allow_duplicate_keys q) dg (kr_signatures q) cache ∅ Hq Hdg Hc) as [Hr Hc'].
  destruct (recover_keys true _ _ dg _ ∅ cache) as [c1 r1], (recover_keys false _ _ dg _ ∅ cache) as [c2 r2].
  cbn in Hr, Hc'. subst r2. destruct r1 as [ks|e]; [|done]. cbn. split; [done|].
  intros e He. apply Hc'.
  rewrite <- (take_drop (length c1 - recovery_cache_size) c1). apply elem_of_app. by right.
Qed.
End requests.

Lemma answer_uncached q c1 c2 : (answer false q c1).2 = (answer false q c2).2.
Proof.
  unfold answer, get_signature_keys. unfold mbind, St_bind, lift. destruct (sig_digest _ _ _) as [dg|e]; [|done].
  pose proof (recover_keys_uncached (kr_allow_duplicate_keys q) (kr_trx q) dg (kr_signatures q) c1 c2 ∅) as E.
  destruct (recover_keys false _ _ dg _ ∅ c1) as [d1 r1], (recover_keys false _ _ dg _ ∅ c2) as [d2 r2].
  cbn in E. subst. by destruct r2.
Qed.

Lemma answers_right l rest cache : consistent l -> (forall q, q ∈ l -> transaction_valid (kr_trx q)) ->
  (forall q, q ∈ rest -> q ∈ l) -> cache_right l cache ->
  answers true rest cache = map (fun q => (answer false q []).2) rest.
Proof.
  intros Hl Hv. revert cache. induction rest as [|q rest IH]; intros cache Hin Hc; [done|]. cbn [answers map].
  destruct (answer_right l Hl Hv q cache) as [Hr Hc']; [apply Hin; by left|done|].
  rewrite (answer_uncached q cache []) in Hr.
  destruct (answer true q cache) as [cache' r]. cbn in Hr, Hc'. rewrite Hr. f_equal.
  apply IH; [|done]. intros q' Hq'. apply Hin. by right.
Qed.

(** C23 The cache of recovered keys cannot be observed as long as it is not asked for the
    same transaction identifier with different signing digests: then a sequence of
    recoveries that share the cache of the process, from its start, gives for each of
    them the keys, or the error, that recovery without a cache gives. The condition
    excludes collisions of the hash among the requested transactions, and that a
    transaction is asked for with different context-free data, which its identifier
    does not cover ([signature_cache_ignores_context_free_data]). *)
Theorem signature_cache_transparent (l : list key_request) :
  consistent l -> (forall q, q ∈ l -> transaction_valid (kr_trx q)) ->
  answers true l [] = map (fun q => (answer false q []).2) l.
Proof.
  intros Hl Hv. apply (answers_right l); [done..|]. intros e He. by apply elem_of_nil in He.
Qed.
End cache.

(** ** Concrete transactions *)
Module TrxSample.
#[global] Instance sample_crypto : TrxCrypto := {
  sha256 d := Digest (Zpos (encode d)) 0 0 0;
  recover_key sig dg := Ok (sig + hash0 dg)
}.

(** A short digest, for evaluation. *)
Definition short_crypto : TrxCrypto := {|
  sha256 d := Digest (foldr Z.add 0 d) 0 0 0;
  recover_key sig dg := Ok (sig + hash0 dg)
|}.

Definition sample_action : action :=
  Action system_account_name active_name [PermissionLevel owner_name active_name] [1; 2; 3].
Definition sample_trx : transaction :=
  Transaction (TransactionHeader 1500000000 12 3456 0 0 0) [] [sample_action] [].

Lemma sample_trx_valid : transaction_valid sample_trx.
Proof.
  assert (forall l : permission_level, actor l = owner_name -> permission l = active_name -> level_valid l)
    as Hl by (intros l Ha Hp; unfold level_valid; rewrite Ha, Hp; done).
  assert (action_valid sample_action) as Ha.
  { split; [done|]. split; [done|]. split; (split; [done|]).
    - apply Forall_singleton. by apply Hl.
    - by repeat (constructor; [done|]). }
  split; [done|]. split; [done|]. split; [|done]. split; [done|]. by apply Forall_singleton.
Qed.
End TrxSample.

Lemma transaction_roundtrip_witness :
  exists d, pack_value c_transaction TrxSample.sample_trx = Ok d /\
    unpack_value c_transaction (d ++ [9]) = Ok TrxSample.sample_trx.
Proof.
  destruct (transaction_roundtrip TrxSample.sample_trx TrxSample.sample_trx_valid) as (d & Hd & _ & _ & Hu).
  exists d. split; [done|apply Hu].
Defined.

(** The second request finds the keys of the first one in the cache. *)
Lemma signature_cache_transparent_witness :
  let q1 := KeyRequest [5; 6] [] false TrxSample.sample_trx in
  let q2 := KeyRequest [6; 5; 7] [] false TrxSample.sample_trx in
  length (answer digest_nil true q1 []).1 = 2%nat /\
  answers digest_nil true [q1; q2] [] = [(answer digest_nil false q1 []).2; (answer digest_nil false q2 []).2].
Proof.
  intros q1 q2. split; [vm_compute; reflexivity|].
  apply (signature_cache_transparent digest_nil [q1; q2]).
  - intros p1 p2 id [->|[->|[]%elem_of_nil]%elem_of_cons]%elem_of_cons
      [->|[->|[]%elem_of_nil]%elem_of_cons]%elem_of_cons _ _; reflexivity.
  - intros q [->|[->|[]%elem_of_nil]%elem_of_cons]%elem_of_cons; apply TrxSample.sample_trx_valid.
Defined.

(** With context free data the cache is wrong: the identifier of a transaction does not
    cover that data but its signatures do, so after the transaction was seen once, its
    signatures are accepted with other data, for which recovery gives other keys. *)
Theorem signature_cache_ignores_context_free_data :
  exists (H : TrxCrypto) sigs t cfd1 cfd2 cache keys,
    get_signature_keys sigs digest_nil cfd1 false true t [] = (cache, Ok keys) /\
    get_signature_keys sigs digest_nil cfd2 false true t cache = (cache, Ok keys) /\
    (get_signature_keys sigs digest_nil cfd2 false false t cache).2 <> Ok keys.
Proof.
  exists TrxSample.short_crypto, [5], TrxSample.sample_trx, [[1]], [[2]].
  eexists _, _. split; [vm_compute; reflexivity|]. split; [vm_compute; reflexivity|].
  assert (forall r1 r2 : result (gset Z), bool_decide (r1 = r2) = false -> r1 <> r2) as Hne
    by (intros ?? ?%bool_decide_eq_false; done).
  apply Hne. vm_compute. reflexivity.
Qed.
