(* ===== verification/AuthorizationManager.v ===== *)
(** * The authorization manager

    Model of [authorization_manager.cpp], [permission_object.hpp],
    [permission_link_object.hpp] and [generated_transaction_object.hpp] under
    [libraries/chain]: the permissions of accounts and their hierarchy, the links from
    actions to permissions, and the check that the declared authorizations of a list of
    actions are sufficient and satisfied.

    The callback [checktime], which aborts a check that takes too long, is left out. *)
From S2P Require Import Prelude Merkle BlockHeaderState Raw Authority Transactions.

(** ** Objects *)
Record permission_object := PermissionObject {
  po_id : Z;
  po_usage_id : Z;
  po_parent : Z;
  po_owner : account_name;
  po_name : permission_name;
  po_last_updated : Z;
  po_auth : authority
}.

Record generated_transaction := GeneratedTransaction {
  gt_trx_id : digest;
  gt_sender : account_name;
  gt_sender_id : Z;
  gt_payer : account_name;
  gt_delay_until : Z;
  gt_expiration : Z;
  gt_published : Z;
  gt_packed_trx : bytes
}.

(** The tables the manager uses, each by the id its objects get at creation; links have no
    use of their id and are kept by (account, code, message type). The pending block
    time and the parameters of the chain are read from the controller. *)
Record auth_db := AuthDb {
  permissions : gmap Z permission_object;
  next_permission : Z;
  usages : gmap Z Z;
  next_usage : Z;
  links : gmap (Z * Z * Z) permission_name;
  generated : list generated_transaction;
  pending_block_time : Z;
  max_authority_depth : Z;
  max_transaction_delay : Z
}.
Abbreviation M := (St auth_db).

Definition set_permissions (ps : gmap Z permission_object) (next : Z) : M unit :=
  modify_st (fun db => AuthDb ps next (usages db) (next_usage db) (links db) (generated db)
    (pending_block_time db) (max_authority_depth db) (max_transaction_delay db)).
Definition set_usages (us : gmap Z Z) (next : Z) : M unit :=
  modify_st (fun db => AuthDb (permissions db) (next_permission db) us next (links db) (generated db)
    (pending_block_time db) (max_authority_depth db) (max_transaction_delay db)).
Definition set_links (ls : gmap (Z * Z * Z) permission_name) : M unit :=
  modify_st (fun db => AuthDb (permissions db) (next_permission db) (usages db) (next_usage db) ls
    (generated db) (pending_block_time db) (max_authority_depth db) (max_transaction_delay db)).
Definition set_generated (gs : list generated_transaction) : M unit :=
  modify_st (fun db => AuthDb (permissions db) (next_permission db) (usages db) (next_usage db)
    (links db) gs (pending_block_time db) (max_authority_depth db) (max_transaction_delay db)).

(** ** The permission table

    Its indices by (owner, name) and by (name, id) are searched in the order of ids: the
    first is unique, the second yields the lowest id first. *)
Definition find_permissions (P : permission_object -> bool) (ps : gmap Z permission_object)
    : option permission_object :=
  head (filter (fun p => P p = true) (asc_items ps).*2).
Definition by_owner (owner : account_name) (name : permission_name) (p : permission_object) : bool :=
  (po_owner p =? owner) && (po_name p =? name).
Definition by_name (name : permission_name) (p : permission_object) : bool := po_name p =? name.
Definition by_parent (parent : Z) (p : permission_object) : bool := po_parent p =? parent.

(** [satisfies]: whether [p] is [other] or one of its ancestors. The walk dereferences what
    it finds; a parent that is missing is undefined behaviour. Along a hierarchy ids
    decrease, so the fuel bounds its length. *)
Fixpoint satisfies_walk (fuel : nat) (ps : gmap Z permission_object) (id parent : Z) : result bool :=
  match ps !! parent with
  | None => Throw undefined_behaviour
  | Some p =>
      if id =? po_parent p then mret true
      else if po_parent p =? 0 then mret false
      else match fuel with
           | O => Throw undefined_behaviour
           | S fuel => satisfies_walk fuel ps id (po_parent p)
           end
  end.

Definition satisfies (ps : gmap Z permission_object) (p other : permission_object) : result bool :=
  if negb (po_owner p =? po_owner other) then mret false
  else if (po_id p =? po_id other) || (po_id p =? po_parent other) then mret true
  else satisfies_walk (Z.to_nat (po_parent other)) ps (po_id p) (po_parent other).

(** ** authorization_manager *)
Definition empty_authority : authority := Authority 0 [] [] [].

(** [initialize_database]: the permission that reserves id 0. *)
Definition initialize_database : M unit :=
  db ← get;
  let id := next_permission db in
  set_permissions (<[id := PermissionObject id 0 0 0 0 0 empty_authority]> (permissions db)) (id + 1).

(** [create_permission]; the time 0 stands for the time of the pending block. *)
Definition create_permission (account : account_name) (name : permission_name) (parent : Z)
    (auth : authority) (initial_creation_time : Z) : M permission_object :=
  db ← get;
  let creation_time := if initial_creation_time =? 0 then pending_block_time db else initial_creation_time in
  let usage_id := next_usage db in
  _ ← set_usages (<[usage_id := creation_time]> (usages db)) (usage_id + 1);
  let id := next_permission db in
  let p := PermissionObject id usage_id parent account name creation_time auth in
  _ ← st_assert (bool_decide (find_permissions (by_owner account name) (permissions db) = None)) logic_error;
  _ ← set_permissions (<[id := p]> (permissions db)) (id + 1);
  mret p.

Definition modify_permission (p : permission_object) (auth : authority) : M unit :=
  db ← get;
  set_permissions
    (<[po_id p := PermissionObject (po_id p) (po_usage_id p) (po_parent p) (po_owner p) (po_name p)
                    (pending_block_time db) auth]> (permissions db)) (next_permission db).

Definition remove_permission (p : permission_object) : M unit :=
  db ← get;
  _ ← st_assert (bool_decide (find_permissions (by_parent (po_id p)) (permissions db) = None))
        action_validate_exception;
  _ ← lift (of_option out_of_range (usages db !! po_usage_id p));
  _ ← set_usages (delete (po_usage_id p) (usages db)) (next_usage db);
  set_permissions (delete (po_id p) (permissions db)) (next_permission db).

Definition update_permission_usage (p : permission_object) : M unit :=
  db ← get;
  _ ← lift (of_option out_of_range (usages db !! po_usage_id p));
  set_usages (<[po_usage_id p := pending_block_time db]> (usages db)) (next_usage db).

Definition get_permission_last_used (db : auth_db) (p : permission_object) : result Z :=
  of_option out_of_range (usages db !! po_usage_id p).

(** An empty part of a level is rejected; a permission that does not exist is the error of
    [get_permission] only. *)
Definition find_permission (db : auth_db) (level : permission_level) : result (option permission_object) :=
  _ ← bes_assert (negb (actor level =? 0) && negb (permission level =? 0)) invalid_permission;
  mret (find_permissions (by_owner (actor level) (permission level)) (permissions db)).
Definition get_permission (db : auth_db) (level : permission_level) : result permission_object :=
  p ← find_permission db level;
  of_option permission_query_exception p.

(** A link for the action, or else for the whole contract. *)
Definition lookup_linked_permission (db : auth_db) (authorizer scope act_name : Z) : option permission_name :=
  match links db !! (authorizer, scope, act_name) with
  | Some p => Some p
  | None => links db !! (authorizer, scope, 0)
  end.

(** The native actions that cannot be linked. *)
Definition is_unlinkable (act_name : Z) : bool :=
  (act_name =? updateauth_name) || (act_name =? deleteauth_name) || (act_name =? linkauth_name) ||
  (act_name =? unlinkauth_name) || (act_name =? canceldelay_name).

Definition lookup_minimum_permission (db : auth_db) (authorizer scope act_name : Z)
    : result (option permission_name) :=
  _ ← (if scope =? system_account_name
       then bes_assert (negb (is_unlinkable act_name)) unlinkable_min_permission_action else mret tt);
  match lookup_linked_permission db authorizer scope act_name with
  | None => mret (Some active_name)
  | Some p => mret (if p =? besio_any_name then None else Some p)
  end.

(** ** Checks of the native actions *)

(** The single declared authorization, by the given account. *)
Definition sole_auth (auths : list permission_level) : result permission_level :=
  match auths with
  | [auth] => mret auth
  | _ => Throw irrelevant_auth_exception
  end.
Definition sole_auth_of (account : account_name) (auths : list permission_level) : result permission_level :=
  auth ← sole_auth auths;
  _ ← bes_assert (actor auth =? account) irrelevant_auth_exception;
  mret auth.

(** The declared permission must satisfy the minimum one. *)
Definition require_satisfies (db : auth_db) (auth : permission_level) (min_permission : permission_object)
    : result unit :=
  p ← get_permission db auth;
  b ← satisfies (permissions db) p min_permission;
  bes_assert b irrelevant_auth_exception.

Definition check_updateauth_authorization (db : auth_db) (update : updateauth)
    (auths : list permission_level) : result unit :=
  auth ← sole_auth_of (ua_account update) auths;
  found ← find_permission db (PermissionLevel (ua_account update) (ua_permission update));
  min_permission ← (match found with
                    | Some p => mret p
                    | None => get_permission db (PermissionLevel (ua_account update) (ua_parent update))
                    end);
  require_satisfies db auth min_permission.

Definition check_deleteauth_authorization (db : auth_db) (del : deleteauth)
    (auths : list permission_level) : result unit :=
  auth ← sole_auth_of (da_account del) auths;
  min_permission ← get_permission db (PermissionLevel (da_account del) (da_permission del));
  require_satisfies db auth min_permission.

(** The arguments of [satisfies] are evaluated before the comparison; the declared
    permission first. *)
Definition check_linkauth_authorization (db : auth_db) (link : linkauth)
    (auths : list permission_level) : result unit :=
  auth ← sole_auth_of (la_account link) auths;
  _ ← bes_assert (negb (is_unlinkable (la_type link))) action_validate_exception;
  linked ← lookup_minimum_permission db (la_account link) (la_code link) (la_type link);
  match linked with
  | None => mret tt
  | Some name =>
      p ← get_permission db auth;
      min_permission ← get_permission db (PermissionLevel (la_account link) name);
      b ← satisfies (permissions db) p min_permission;
      bes_assert b irrelevant_auth_exception
  end.

Definition check_unlinkauth_authorization (db : auth_db) (unlink : unlinkauth)
    (auths : list permission_level) : result unit :=
  auth ← sole_auth_of (ul_account unlink) auths;
  match lookup_linked_permission db (ul_account unlink) (ul_code unlink) (ul_type unlink) with
  | None => Throw transaction_exception
  | Some name =>
      if name =? besio_any_name then mret tt else
      p ← get_permission db auth;
      min_permission ← get_permission db (PermissionLevel (ul_account unlink) name);
      b ← satisfies (permissions db) p min_permission;
      bes_assert b irrelevant_auth_exception
  end.

(** The delayed transaction with the given id, sent by no account. *)
Definition find_generated (db : auth_db) (id : digest) : option generated_transaction :=
  head (filter (fun g => gt_trx_id g = id) (generated db)).

Definition check_canceldelay_authorization (db : auth_db) (cancel : canceldelay)
    (auths : list permission_level) : result Z :=
  auth ← sole_auth auths;
  p ← get_permission db auth;
  min_permission ← get_permission db (cd_canceling_auth cancel);
  b ← satisfies (permissions db) p min_permission;
  _ ← bes_assert b irrelevant_auth_exception;
  match find_generated db (cd_trx_id cancel) with
  | None => Throw tx_not_found
  | Some gto =>
      _ ← bes_assert (gt_sender gto =? 0) tx_not_found;
      trx ← unpack_value c_transaction (gt_packed_trx gto);
      let found := existsb (fun act => bool_decide (cd_canceling_auth cancel ∈ act_authorization act))
                     (trx_actions trx) in
      _ ← bes_assert found action_validate_exception;
      mret (i64 (gt_delay_until gto - gt_published gto))
  end.

(** ** check_authorization *)
Definition max_microseconds : Z := 2 ^ 63 - 1.

Definition effective_delay (db : auth_db) (provided_delay : Z) : Z :=
  if seconds (max_transaction_delay db) <=? provided_delay then max_microseconds else provided_delay.

Definition make_checker (db : auth_db) (keys : list public_key) (perms : list permission_level) (delay : Z)
    : checker :=
  Checker (fun l => p ← get_permission db l; mret (po_auth p)) keys perms delay
    (Z.to_nat (max_authority_depth db)).

(** The native actions with rules of their own; [None] for any other action. *)
Definition check_special (db : auth_db) (act : action) (delay : Z) : option (result Z) :=
  if negb (act_account act =? system_account_name) then None
  else if act_name act =? updateauth_name then
    Some (d ← data_as t_updateauth act;
          _ ← check_updateauth_authorization db d (act_authorization act); mret delay)
  else if act_name act =? deleteauth_name then
    Some (d ← data_as t_deleteauth act;
          _ ← check_deleteauth_authorization db d (act_authorization act); mret delay)
  else if act_name act =? linkauth_name then
    Some (d ← data_as t_linkauth act;
          _ ← check_linkauth_authorization db d (act_authorization act); mret delay)
  else if act_name act =? unlinkauth_name then
    Some (d ← data_as t_unlinkauth act;
          _ ← check_unlinkauth_authorization db d (act_authorization act); mret delay)
  else if act_name act =? canceldelay_name then
    Some (d ← data_as t_canceldelay act;
          waited ← check_canceldelay_authorization db d (act_authorization act);
          mret (Z.max delay waited))
  else None.

(** A declared authorization of any other action must satisfy the permission the action is
    linked to. *)
Definition check_minimum (db : auth_db) (act : action) (declared_auth : permission_level) : result unit :=
  min ← lookup_minimum_permission db (actor declared_auth) (act_account act) (act_name act);
  match min with
  | None => mret tt
  | Some name =>
      min_permission ← get_permission db (PermissionLevel (actor declared_auth) name);
      require_satisfies db declared_auth min_permission
  end.

(** [permissions_to_satisfy]: each level with the shortest delay it is needed under. *)
Abbreviation delays := (gmap permission_level Z).
Definition add_level (l : permission_level) (delay : Z) (m : delays) : delays :=
  match m !! l with
  | Some d => if delay <? d then <[l := delay]> m else m
  | None => <[l := delay]> m
  end.

Fixpoint collect_auths (db : auth_db) (act : action) (special : bool) (delay : Z)
    (auths : list permission_level) (m : delays) : result delays :=
  match auths with
  | [] => mret m
  | declared_auth :: auths =>
      _ ← (if special then mret tt else check_minimum db act declared_auth);
      collect_auths db act special delay auths (add_level declared_auth delay m)
  end.

Fixpoint collect_actions (db : auth_db) (effective : Z) (acts : list action) (m : delays) : result delays :=
  match acts with
  | [] => mret m
  | act :: acts =>
      m ← (match check_special db act effective with
           | Some r => delay ← r; collect_auths db act true delay (act_authorization act) m
           | None => collect_auths db act false effective (act_authorization act) m
           end);
      collect_actions db effective acts m
  end.

(** The levels in ascending order. *)
Definition level_le (a b : permission_level * Z) : Prop := level_ltb b.1 a.1 = false.
#[global] Instance level_le_dec : RelDecision level_le.
Proof. intros a b. unfold level_le. apply _. Defined.
Definition level_items (m : delays) : list (permission_level * Z) := merge_sort level_le (map_to_list m).

Section check.
Context `{MetaSet}.

Fixpoint check_levels (ck : checker) (l : list (permission_level * Z)) : St (list bool) unit :=
  match l with
  | [] => mret tt
  | (level, delay) :: l =>
      b ← satisfied_level (with_delay delay ck) level;
      _ ← st_assert b unsatisfied_authorization;
      check_levels ck l
  end.

Definition check_authorization (db : auth_db) (actions : list action) (keys : list public_key)
    (perms : list permission_level) (provided_delay : Z) (allow_unused_keys : bool) : result unit :=
  let effective := effective_delay db provided_delay in
  let ck := make_checker db keys perms effective in
  levels ← collect_actions db effective actions ∅;
  let '(used, r) := check_levels ck (level_items levels) (initial_marks ck) in
  _ ← r;
  if allow_unused_keys then mret tt else bes_assert (all_keys_used used) tx_irrelevant_sig.

(** The overload for one permission. *)
Definition check_permission_authorization (db : auth_db) (account : account_name)
    (permission : permission_name) (keys : list public_key) (perms : list permission_level)
    (provided_delay : Z) (allow_unused_keys : bool) : result unit :=
  let ck := make_checker db keys perms (effective_delay db provided_delay) in
  let '(used, r) := satisfied_level ck (PermissionLevel account permission) (initial_marks ck) in
  b ← r;
  _ ← bes_assert b unsatisfied_authorization;
  if allow_unused_keys then mret tt else bes_assert (all_keys_used used) tx_irrelevant_sig.

Fixpoint require_levels (ck : checker) (l : list permission_level) : St (list bool) unit :=
  match l with
  | [] => mret tt
  | level :: l =>
      b ← satisfied_level ck level;
      _ ← st_assert b unsatisfied_authorization;
      require_levels ck l
  end.

Definition get_required_keys (db : auth_db) (trx : transaction) (candidate_keys : list public_key)
    (provided_delay : Z) : result (list public_key) :=
  let ck := make_checker db candidate_keys [] provided_delay in
  let '(used, r) := require_levels ck (concat (map act_authorization (trx_actions trx))) (initial_marks ck) in
  _ ← r;
  mret (used_keys ck used).
End check.

(** ** The hierarchy of permissions *)
Lemma find_permissions_some P ps p : find_permissions P ps = Some p -> exists i, ps !! i = Some p /\ P p = true.
Proof.
  unfold find_permissions. intros Hf.
  assert (p ∈ filter (fun p => P p = true) (asc_items ps).*2) as Hp.
  { destruct (filter _ _); [done|]. injection Hf as ->. by left. }
  apply list_elem_of_filter in Hp as [HP Hp]. apply list_elem_of_fmap in Hp as ([i q] & -> & Hi).
  apply elem_of_asc_items in Hi. by exists i.
Qed.

Lemma find_permissions_none P ps i p : find_permissions P ps = None -> ps !! i = Some p -> P p = false.
Proof.
  unfold find_permissions. intros Hf Hi. destruct (P p) eqn:HP; [exfalso|done].
  assert (p ∈ filter (fun p => P p = true) (asc_items ps).*2) as Hp.
  { apply list_elem_of_filter. split; [done|]. apply list_elem_of_fmap. exists (i, p).
    split; [done|]. by apply elem_of_asc_items. }
  destruct (filter _ _); [by apply elem_of_nil in Hp|done].
Qed.

(** The invariant of the table: objects sit at their id, below the next id; id 0 is
    reserved; the parent of a permission exists, is older and belongs to the same
    account, unless it is the reserved one; (owner, name) is unique. *)
Record hierarchy (ps : gmap Z permission_object) (next : Z) : Prop := {
  h_id : forall i p, ps !! i = Some p -> po_id p = i /\ 0 <= i < next;
  h_root : exists r, ps !! 0 = Some r /\ po_parent r = 0 /\ po_owner r = 0 /\ po_name r = 0;
  h_parent : forall i p, ps !! i = Some p -> i <> 0 ->
    0 <= po_parent p < i /\ po_owner p <> 0 /\
    exists q, ps !! po_parent p = Some q /\ (po_parent p <> 0 -> po_owner q = po_owner p);
  h_unique : forall i j p q, ps !! i = Some p -> ps !! j = Some q ->
    po_owner p = po_owner q -> po_name p = po_name q -> i = j
}.

(** [ancestor ps a i]: permission [a] is [i] or above it. *)
Inductive ancestor (ps : gmap Z permission_object) (a : Z) : Z -> Prop :=
| anc_self : ancestor ps a a
| anc_up i p : ps !! i = Some p -> po_parent p <> 0 -> ancestor ps a (po_parent p) -> ancestor ps a i.

Section hierarchy.
Context (ps : gmap Z permission_object) (next : Z) (Hh : hierarchy ps next).

Lemma ancestor_owner a i p q : ancestor ps a i -> i <> 0 -> ps !! a = Some p -> ps !! i = Some q ->
  po_owner p = po_owner q.
Proof.
  intros Ha. revert q. induction Ha as [|i r Hr Hpar Ha IH]; intros q Hi Hp Hq; [congruence|].
  assert (r = q) as -> by congruence.
  destruct (h_parent _ _ Hh i q Hq Hi) as (_ & _ & s & Hs & Hown).
  rewrite <- (Hown Hpar). by apply IH.
Qed.

Lemma ancestor_inv a i q : ancestor ps a i -> ps !! i = Some q ->
  a = i \/ (po_parent q <> 0 /\ ancestor ps a (po_parent q)).
Proof. intros [|j r Hr Hpar Ha] Hq; [by left|right]. assert (r = q) as -> by congruence. done. Qed.

(** The walk from a parent looks for a proper ancestor of it. *)
Lemma satisfies_walk_spec fuel : forall id par q,
  id <> 0 -> ps !! par = Some q -> par <= Z.of_nat fuel ->
  exists b, satisfies_walk fuel ps id par = Ok b /\
    (b = true <-> po_parent q <> 0 /\ ancestor ps id (po_parent q)).
Proof.
  induction fuel as [|fuel IH]; intros id par q Hid Hq Hf; cbn [satisfies_walk]; rewrite Hq.
  all: destruct (id =? po_parent q) eqn:E1; bool_to_prop;
    [exists true; split; [done|]; split; [intros _; subst; split; [done|apply anc_self]|done]|].
  all: destruct (po_parent q =? 0) eqn:E2; bool_to_prop;
    [exists false; split; [done|]; split; [done|by intros []]|].
  all: destruct (decide (par = 0)) as [->|Hpar];
    [destruct (h_root _ _ Hh) as (r & Hr & Hr0 & _); congruence|].
  all: destruct (h_id _ _ Hh par q Hq) as [_ Hrange];
    destruct (h_parent _ _ Hh par q Hq Hpar) as (Hlt & _ & s & Hs & _).
  { lia. }
  destruct (IH id (po_parent q) s Hid Hs ltac:(lia)) as (b & Hb & Hiff). exists b. split; [done|].
  rewrite Hiff. split.
  - intros [Hns Ha]. split; [done|]. by eapply anc_up.
  - intros [_ Ha]. apply ancestor_inv with (q := s) in Ha as [->|Ha]; [done|done|done].
Qed.

Lemma satisfies_spec p o :
  ps !! po_id p = Some p -> ps !! po_id o = Some o -> po_id p <> 0 -> po_id o <> 0 ->
  exists b, satisfies ps p o = Ok b /\ (b = true <-> ancestor ps (po_id p) (po_id o)).
Proof.
  intros Hp Ho Hp0 Ho0. unfold satisfies.
  destruct (h_parent _ _ Hh _ _ Ho Ho0) as (Hlt & _ & q & Hq & _).
  destruct (po_owner p =? po_owner o) eqn:Eo; cbn [negb]; bool_to_prop.
  2: { exists false. split; [done|]. split; [done|]. intros Ha.
       by pose proof (ancestor_owner _ _ _ _ Ha Ho0 Hp Ho). }
  destruct (po_id p =? po_id o) eqn:E1; bool_to_prop.
  { exists true. split; [done|]. split; [|done]. intros _. rewrite E1. apply anc_self. }
  destruct (po_id p =? po_parent o) eqn:E2; bool_to_prop; cbn [orb].
  { exists true. split; [done|]. split; [|done]. intros _. eapply anc_up; [exact Ho|congruence|].
    rewrite <- E2. apply anc_self. }
  destruct (satisfies_walk_spec (Z.to_nat (po_parent o)) (po_id p) (po_parent o) q Hp0 Hq ltac:(lia))
    as (b & Hb & Hiff). exists b. split; [done|]. rewrite Hiff. split.
  - intros [Hn Ha]. destruct (decide (po_parent o = 0)) as [E0|].
    { rewrite E0 in Hq. destruct (h_root _ _ Hh) as (r & Hr & Hr0 & _). congruence. }
    eapply anc_up; [exact Ho|done|]. eapply anc_up; [exact Hq|done|done].
  - intros Ha. apply ancestor_inv with (q := o) in Ha as [|[Hn Ha]]; [done| |done].
    by apply ancestor_inv with (q := q) in Ha as [|].
Qed.
End hierarchy.

(** In a well-formed table [satisfies] always answers, and answers whether the permission
    is the other one or one of its ancestors; in particular never across accounts. *)
Theorem satisfies_is_ancestor (ps : gmap Z permission_object) (next : Z) (p o : permission_object) :
  hierarchy ps next -> ps !! po_id p = Some p -> ps !! po_id o = Some o ->
  po_id p <> 0 -> po_id o <> 0 ->
  exists b, satisfies ps p o = Ok b /\ (b = true <-> ancestor ps (po_id p) (po_id o)) /\
    (b = true -> po_owner p = po_owner o).
Proof.
  intros Hh Hp Ho Hp0 Ho0. destruct (satisfies_spec ps next Hh p o Hp Ho Hp0 Ho0) as (b & Hb & Hiff).
  exists b. split_and!; [done|done|]. intros Ht. eapply ancestor_owner; [done|by apply Hiff|done..].
Qed.

Lemma hierarchy_create ps next p q :
  hierarchy ps next -> po_id p = next -> po_owner p <> 0 -> ps !! po_parent p = Some q ->
  (po_parent p <> 0 -> po_owner q = po_owner p) ->
  find_permissions (by_owner (po_owner p) (po_name p)) ps = None ->
  hierarchy (<[next := p]> ps) (next + 1).
Proof.
  intros Hh Hid Hown Hq Hpar Hnew. destruct Hh as [Hi [r Hr] Hp Hu].
  destruct (Hi _ _ (proj1 Hr)) as [_ Hnext]. destruct (Hi _ _ Hq) as [_ Hqr].
  assert (Hfresh : forall i s, ps !! i = Some s -> i <> next)
    by (intros i s Hs; destruct (Hi i s Hs); lia).
  assert (Huniq : forall i s, ps !! i = Some s -> po_owner s = po_owner p -> po_name s = po_name p -> False).
  { intros i s Hs E1 E2. pose proof (find_permissions_none _ _ _ _ Hnew Hs) as Hb.
    unfold by_owner in Hb. rewrite E1, E2, !Z.eqb_refl in Hb. done. }
  split.
  - intros i s [[<- <-]|[_ Hs]]%lookup_insert_Some; [lia|]. destruct (Hi i s Hs). lia.
  - exists r. rewrite lookup_insert_ne by lia. done.
  - intros i s [[<- <-]|[Hne Hs]]%lookup_insert_Some Hi0.
    + split; [lia|]. split; [done|]. exists q. rewrite lookup_insert_ne by lia. done.
    + destruct (Hp i s Hs Hi0) as (H1 & H2 & t & Ht & H3). split_and!; [lia..|done|].
      exists t. rewrite lookup_insert_ne; [done|]. pose proof (Hfresh _ _ Ht). congruence.
  - intros i j s t [[<- <-]|[_ Hs]]%lookup_insert_Some [[<- <-]|[_ Ht]]%lookup_insert_Some E1 E2.
    + done.
    + exfalso. by eapply Huniq.
    + exfalso. by eapply Huniq.
    + by eapply Hu.
Qed.

Lemma hierarchy_modify ps next p p' :
  hierarchy ps next -> ps !! po_id p = Some p ->
  po_id p' = po_id p -> po_parent p' = po_parent p -> po_owner p' = po_owner p -> po_name p' = po_name p ->
  hierarchy (<[po_id p := p']> ps) next.
Proof.
  intros [Hi [r Hr] Hp Hu] Hl E1 E2 E3 E4.
  assert (Hpre : forall i s', <[po_id p := p']> ps !! i = Some s' -> exists s, ps !! i = Some s /\
    po_id s' = po_id s /\ po_parent s' = po_parent s /\ po_owner s' = po_owner s /\ po_name s' = po_name s).
  { intros i s' [[<- <-]|[_ Hs]]%lookup_insert_Some; [by exists p|by exists s']. }
  assert (Hpost : forall i s, ps !! i = Some s -> exists s', <[po_id p := p']> ps !! i = Some s' /\
    po_parent s' = po_parent s /\ po_owner s' = po_owner s /\ po_name s' = po_name s).
  { intros i s Hs. destruct (decide (i = po_id p)) as [->|Hne].
    - exists p'. rewrite lookup_insert_eq. by replace s with p by congruence.
    - exists s. by rewrite lookup_insert_ne. }
  split.
  - intros i s' Hs'. destruct (Hpre i s' Hs') as (s & Hs & -> & _). by apply Hi.
  - destruct Hr as (Hr & H1 & H2 & H3). destruct (Hpost 0 r Hr) as (r' & Hr' & E5 & E6 & E7).
    exists r'. by rewrite E5, E6, E7.
  - intros i s' Hs' Hi0. destruct (Hpre i s' Hs') as (s & Hs & _ & -> & -> & _).
    destruct (Hp i s Hs Hi0) as (H1 & H2 & q & Hq & H3). split; [done|]. split; [done|].
    destruct (Hpost _ _ Hq) as (q' & Hq' & _ & E5 & _). exists q'. by rewrite E5.
  - intros i j s' t' Hs' Ht'. destruct (Hpre i s' Hs') as (s & Hs & _ & _ & -> & ->),
      (Hpre j t' Ht') as (t & Ht & _ & _ & -> & ->). by apply Hu.
Qed.

Lemma hierarchy_remove ps next i :
  hierarchy ps next -> i <> 0 -> find_permissions (by_parent i) ps = None -> hierarchy (delete i ps) next.
Proof.
  intros [Hi [r Hr] Hp Hu] Hi0 Hch. split.
  - intros j s [_ Hs]%lookup_delete_Some. by apply Hi.
  - exists r. by rewrite lookup_delete_ne.
  - intros j s [Hne Hs]%lookup_delete_Some Hj0. destruct (Hp j s Hs Hj0) as (H1 & H2 & q & Hq & H3).
    split; [done|]. split; [done|]. exists q. rewrite lookup_delete_ne; [done|].
    pose proof (find_permissions_none _ _ _ _ Hch Hs) as Hb. unfold by_parent in Hb. bool_to_prop. done.
  - intros j k s t [_ Hs]%lookup_delete_Some [_ Ht]%lookup_delete_Some. by eapply Hu.
Qed.

(** ** What a successful check shows *)
Section soundness.
Context `{MetaSetLaws} (db : auth_db).
Context (Hweights : forall i p, permissions db !! i = Some p -> weights_ok (po_auth p)).

Lemma get_permission_found l p : get_permission db l = Ok p ->
  actor l <> 0 /\ permission l <> 0 /\ exists i, permissions db !! i = Some p /\
  po_owner p = actor l /\ po_name p = permission l.
Proof.
  unfold get_permission, find_permission. rewrite result_bind_ok. intros (o & Ho & Hp).
  bind_ok Ho as ([] & Ha%bes_assert_ok & [= <-]). bool_to_prop.
  destruct (find_permissions _ _) as [q|] eqn:Hf; [|done]. injection Hp as ->.
  apply find_permissions_some in Hf as (i & Hi & Hb). unfold by_owner in Hb. bool_to_prop.
  split_and!; [done..|]. by exists i.
Qed.

Lemma checker_empty keys perms delay a b :
  permission_to_authority (make_checker db keys perms delay) (PermissionLevel a 0) <> Ok b.
Proof.
  cbn. rewrite result_bind_ok. intros (p & (_ & Hn & _)%get_permission_found & _). done.
Qed.

Lemma checker_weights keys perms delay l a :
  permission_to_authority (make_checker db keys perms delay) l = Ok a -> weights_ok a.
Proof.
  cbn. rewrite result_bind_ok. intros (p & (_ & _ & i & Hi & _)%get_permission_found & [= <-]).
  by eapply Hweights.
Qed.

(** Every level of the list is derivable under its delay. *)
Lemma check_levels_sound keys perms delay l : forall used used',
  check_levels (make_checker db keys perms delay) l used = (used', Ok tt) ->
  forall level d, (level, d) ∈ l -> level_ok (make_checker db keys perms d) level.
Proof.
  induction l as [|[level d] l IH]; intros used used' Hrun level' d' Hin; [by apply elem_of_nil in Hin|].
  cbn [check_levels] in Hrun. rewrite St_bind_ok in Hrun. destruct Hrun as (b & u1 & Hs & Hrun).
  rewrite St_bind_ok in Hrun. destruct Hrun as ([] & u2 & Ha & Hrun).
  apply elem_of_cons in Hin as [[= -> ->]|Hin]; [|by eapply IH].
  assert (b = true) as ->. { unfold st_assert, lift in Ha. destruct b; [done|discriminate Ha]. }
  pose proof (satisfied_level_granted (make_checker db keys perms d)
    (checker_empty keys perms d) (checker_weights keys perms d) level used) as Hg.
  change (with_delay d (make_checker db keys perms delay)) with (make_checker db keys perms d) in Hs.
  rewrite Hs in Hg. by apply Hg.
Qed.

(** The declared authorization is at least what the action is linked to. *)
Definition minimum_met (act : action) (auth : permission_level) : Prop :=
  exists m, lookup_minimum_permission db (actor auth) (act_account act) (act_name act) = Ok m /\
  match m with
  | None => True
  | Some name => exists p q, get_permission db auth = Ok p /\
      get_permission db (PermissionLevel (actor auth) name) = Ok q /\
      satisfies (permissions db) p q = Ok true
  end.

Lemma check_minimum_met act auth : check_minimum db act auth = Ok tt -> minimum_met act auth.
Proof.
  unfold check_minimum, require_satisfies. rewrite result_bind_ok. intros (m & Hm & Hc).
  exists m. split; [done|]. destruct m as [name|]; [|done].
  bind_ok Hc as (q & Hq & Hc).
  bind_ok Hc as (p & Hp & Hc).
  bind_ok Hc as (b & Hb & Ha%bes_assert_ok). subst b. by exists p, q.
Qed.
(** A level is to be satisfied under at most the given delay. *)
Definition covered (m : delays) (l : permission_level) (delay : Z) : Prop :=
  exists d, m !! l = Some d /\ d <= delay.

Lemma add_level_covers l delay m : covered (add_level l delay m) l delay.
Proof.
  unfold add_level, covered. destruct (m !! l) as [d|] eqn:E; [destruct (delay <? d) eqn:Ed|];
    bool_to_prop; rewrite ?lookup_insert_eq; eauto with lia.
Qed.

Lemma add_level_mono l delay m l' d : covered m l' d -> covered (add_level l delay m) l' d.
Proof.
  intros (d' & Hd & Hle). unfold add_level, covered. destruct (decide (l = l')) as [->|Hne].
  - rewrite Hd. destruct (delay <? d') eqn:E; bool_to_prop; rewrite ?lookup_insert_eq; eauto with lia.
  - destruct (m !! l) as [e|]; [destruct (delay <? e)|]; rewrite ?lookup_insert_ne by done; eauto.
Qed.

Lemma collect_auths_sound act special delay auths : forall m m',
  collect_auths db act special delay auths m = Ok m' ->
  (forall l d, covered m l d -> covered m' l d) /\
  forall auth, auth ∈ auths -> covered m' auth delay /\ (special = false -> minimum_met act auth).
Proof.
  induction auths as [|auth auths IH]; intros m m' Hc; cbn [collect_auths] in Hc.
  { injection Hc as <-. split; [done|]. intros auth Hin. by apply elem_of_nil in Hin. }
  bind_ok Hc as ([] & Hmin & Hc).
  destruct (IH _ _ Hc) as [Hmono Hall]. split.
  - intros l d Hl. by apply Hmono, add_level_mono.
  - intros a [->|Hin]%elem_of_cons; [|by apply Hall]. split; [by apply Hmono, add_level_covers|].
    intros ->. by apply check_minimum_met.
Qed.

(** What is known of an action whose levels were collected. *)
Definition action_covered (effective : Z) (m : delays) (act : action) : Prop :=
  forall auth, auth ∈ act_authorization act ->
  match check_special db act effective with
  | Some r => exists d, r = Ok d /\ covered m auth d
  | None => covered m auth effective /\ minimum_met act auth
  end.

Lemma collect_actions_sound effective acts : forall m m',
  collect_actions db effective acts m = Ok m' ->
  (forall l d, covered m l d -> covered m' l d) /\ forall act, act ∈ acts -> action_covered effective m' act.
Proof.
  induction acts as [|act acts IH]; intros m m' Hc; cbn [collect_actions] in Hc.
  { injection Hc as <-. split; [done|]. intros act Hin. by apply elem_of_nil in Hin. }
  bind_ok Hc as (m1 & Hm1 & Hc). destruct (IH _ _ Hc) as [Hmono Hall].
  assert ((forall l d, covered m l d -> covered m1 l d) /\ action_covered effective m1 act) as [Hm Ha].
  { unfold action_covered. destruct (check_special db act effective) as [r|].
    - bind_ok Hm1 as (d & -> & Hm1).
      apply collect_auths_sound in Hm1 as [H1 H2]. split; [done|]. intros auth Hin.
      exists d. split; [done|]. by apply H2.
    - apply collect_auths_sound in Hm1 as [H1 H2]. split; [done|]. intros auth Hin.
      split; [by apply H2|by apply H2]. }
  split; [intros l d Hl; by apply Hmono, Hm|].
  intros a [->|Hin]%elem_of_cons; [|by apply Hall]. intros auth Hin. specialize (Ha auth Hin).
  destruct (check_special db act effective) as [r|].
  - destruct Ha as (d & -> & Hd). exists d. split; [done|]. by apply Hmono.
  - destruct Ha as [Hd Hmin]. split; [by apply Hmono|done].
Qed.

(** Every declared authorization is granted. *)
Lemma authorization_granted (acts : list action) (keys : list public_key)
    (perms : list permission_level) (delay : Z) (allow : bool) :
  check_authorization db acts keys perms delay allow = Ok tt ->
  forall act auth, act ∈ acts -> auth ∈ act_authorization act ->
  let effective := effective_delay db delay in
  exists d, level_ok (make_checker db keys perms d) auth /\
    match check_special db act effective with
    | Some r => exists limit, r = Ok limit /\ d <= limit
    | None => d <= effective /\ minimum_met act auth
    end.
Proof.
  intros Hc act auth Hact Hauth effective. unfold check_authorization in Hc. cbv zeta in Hc.
  fold effective in Hc. bind_ok Hc as (m & Hm & Hrun).
  destruct (check_levels _ _ _) as [used r] eqn:Hlv. bind_ok Hrun as ([] & -> & _).
  destruct (collect_actions_sound _ _ _ _ Hm) as [_ Hall]. specialize (Hall act Hact auth Hauth).
  assert (Hgranted : forall lim, covered m auth lim ->
    exists d, level_ok (make_checker db keys perms d) auth /\ d <= lim).
  { intros lim (d & Hd & Hle). exists d. split; [|done].
    eapply check_levels_sound; [exact Hlv|]. unfold level_items. rewrite merge_sort_Permutation.
    by apply elem_of_map_to_list. }
  destruct (check_special db act effective) as [r|].
  - destruct Hall as (lim & -> & Hc). destruct (Hgranted _ Hc) as (d & Hd & Hle).
    exists d. split; [done|]. by exists lim.
  - destruct Hall as [Hc Hmin]. destruct (Hgranted _ Hc) as (d & Hd & Hle). by exists d.
Qed.

(** C10 When [check_authorization] accepts a list of actions, every authorization any of them
    declares is granted: it is derivable from the provided keys, the provided
    permissions and a delay no longer than the provided one, or than the one a
    [canceldelay] waits for. Moreover an authorization of an ordinary action is at least
    the permission the action is linked to, the active permission by default, and a
    native action on permissions passed the rule of its own. *)
Theorem check_authorization_sound (acts : list action) (keys : list public_key)
    (perms : list permission_level) (delay : Z) (allow : bool) :
  check_authorization db acts keys perms delay allow = Ok tt ->
  forall act auth, act ∈ acts -> auth ∈ act_authorization act ->
  let effective := effective_delay db delay in
  exists d, level_ok (make_checker db keys perms d) auth /\
    match check_special db act effective with
    | Some r => exists limit, r = Ok limit /\ d <= limit
    | None => d <= effective /\ minimum_met act auth
    end.
Proof. apply authorization_granted. Qed.
End soundness.
