(* ===== verification/ResourceLimits.v ===== *)
(** * Resource limits

    Model of [resource_limits.hpp], [resource_limits_private.hpp] and
    [resource_limits.cpp] under [libraries/chain]: the moving averages of CPU and
    network usage, the elastic virtual limits of a block, the limits and usage of
    accounts, and their memory. The four indices of the manager are a configuration
    and a state object, the limits by (pending, owner) and the usage by owner. *)
From S2P Require Import Prelude BlockHeaderState.

(** ** impl *)
Record ratio := Ratio { numerator : Z; denominator : Z }.

(** [operator*( value, ratio )] on 64-bit numbers. *)
Definition ratio_mul (value : Z) (r : ratio) : result Z :=
  _ ← bes_assert ((numerator r =? 0) || (value <=? (2 ^ 64 - 1) / numerator r))
        rate_limiting_state_inconsistent;
  if denominator r =? 0 then Throw undefined_behaviour
  else mret (u64 (value * numerator r) / denominator r).

Definition integer_divide_ceil (num den : Z) : result Z :=
  if den =? 0 then Throw undefined_behaviour
  else mret (num / den + (if 0 <? num mod den then 1 else 0)).

(** [downgrade_cast] from 128 bits to [uint64_t] and to [int64_t]. *)
Definition downgrade_u64 (v : Z) : result Z :=
  _ ← bes_assert (v <=? 2 ^ 64 - 1) rate_limiting_state_inconsistent; mret v.
Definition downgrade_i64 (v : Z) : result Z :=
  _ ← bes_assert (v <=? 2 ^ 63 - 1) rate_limiting_state_inconsistent; mret v.

Definition rate_limiting_precision : Z := 1000 * 1000.
Definition max_raw_value : Z := (2 ^ 64 - 1) / rate_limiting_precision.

Record usage_accumulator := UsageAccumulator {
  last_ordinal : Z;
  value_ex : Z;
  consumed : Z
}.
Definition accumulator_init : usage_accumulator := UsageAccumulator 0 0 0.

Definition average (a : usage_accumulator) : result Z :=
  integer_divide_ceil (value_ex a) rate_limiting_precision.

(** Entering a new period: the average decays over the window. *)
Definition accumulator_roll (ordinal window_size : Z) (a : usage_accumulator)
    : result usage_accumulator :=
  if last_ordinal a =? ordinal then mret a else
  _ ← bes_assert (last_ordinal a <? ordinal) resource_limit_exception;
  v ← (if ordinal <? u64 (last_ordinal a + window_size) then
         let delta := u32 (ordinal - last_ordinal a) in
         ratio_mul (value_ex a) (Ratio (u64 (window_size - delta)) window_size)
       else mret 0);
  avg ← average (UsageAccumulator ordinal v (consumed a));
  mret (UsageAccumulator ordinal v avg).

(** All checks precede the assignments, so the new accumulator is a value. *)
Definition accumulator_add (units ordinal window_size : Z) (a : usage_accumulator)
    : result usage_accumulator :=
  _ ← bes_assert (units <=? max_raw_value) rate_limiting_state_inconsistent;
  _ ← bes_assert (units <=? u64 (2 ^ 64 - 1 - consumed a)) rate_limiting_state_inconsistent;
  c ← integer_divide_ceil (u128 (units * rate_limiting_precision)) window_size;
  value_ex_contrib ← downgrade_u64 c;
  _ ← bes_assert (value_ex_contrib <=? u64 (2 ^ 64 - 1 - value_ex a)) rate_limiting_state_inconsistent;
  a ← accumulator_roll ordinal window_size a;
  mret (UsageAccumulator (last_ordinal a) (u64 (value_ex a + value_ex_contrib))
          (u64 (consumed a + units))).

(** ** Parameters and objects *)
Record elastic_limit_parameters := ElasticLimitParameters {
  target : Z;
  ep_max : Z;
  periods : Z;
  max_multiplier : Z;
  contract_rate : ratio;
  expand_rate : ratio
}.

Definition validate_elastic (p : elastic_limit_parameters) : result unit :=
  _ ← bes_assert (0 <? periods p) resource_limit_exception;
  _ ← bes_assert (0 <? denominator (contract_rate p)) resource_limit_exception;
  bes_assert (0 <? denominator (expand_rate p)) resource_limit_exception.


Record resource_limits_object := ResourceLimitsObject {
  net_weight : Z;
  cpu_weight : Z;
  ram_bytes : Z
}.
Definition default_limits : resource_limits_object := ResourceLimitsObject (-1) (-1) (-1).

Record resource_usage_object := ResourceUsageObject {
  net_usage : usage_accumulator;
  cpu_usage : usage_accumulator;
  ram_usage : Z
}.
Definition default_usage : resource_usage_object :=
  ResourceUsageObject accumulator_init accumulator_init 0.

Record resource_limits_config_object := ResourceLimitsConfig {
  cpu_limit_parameters : elastic_limit_parameters;
  net_limit_parameters : elastic_limit_parameters;
  account_cpu_usage_average_window : Z;
  account_net_usage_average_window : Z
}.

(** [BES_PERCENT] and the defaults of [config.hpp]. *)
Definition BES_PERCENT (value percentage : Z) : Z := u64 (value * percentage) / 10000.
Definition default_max_block_cpu_usage : Z := 200000.
Definition default_max_block_net_usage : Z := 1024 * 1024.
Definition default_parameters (m : Z) : elastic_limit_parameters :=
  ElasticLimitParameters (BES_PERCENT m 1000) m (60 * 1000 / Timestamp.block_interval_ms) 1000
    (Ratio 99 100) (Ratio 1000 999).
Definition default_config : resource_limits_config_object :=
  ResourceLimitsConfig (default_parameters default_max_block_cpu_usage)
    (default_parameters default_max_block_net_usage)
    (24 * 60 * 60 * 1000 / Timestamp.block_interval_ms)
    (24 * 60 * 60 * 1000 / Timestamp.block_interval_ms).

Record resource_limits_state_object := ResourceLimitsState {
  average_block_net_usage : usage_accumulator;
  average_block_cpu_usage : usage_accumulator;
  pending_net_usage : Z;
  pending_cpu_usage : Z;
  total_net_weight : Z;
  total_cpu_weight : Z;
  total_ram_bytes : Z;
  virtual_net_limit : Z;
  virtual_cpu_limit : Z
}.

Record rl_db := RlDb {
  rl_config : resource_limits_config_object;
  rl_state : resource_limits_state_object;
  rl_limits : gmap Z resource_limits_object;
  rl_pending : gmap Z resource_limits_object;
  rl_usage : gmap Z resource_usage_object
}.

(** ** resource_limits_manager *)
Abbreviation M := (St rl_db).

Definition set_state (f : resource_limits_state_object -> resource_limits_state_object) : M unit :=
  modify_st (fun db => RlDb (rl_config db) (f (rl_state db)) (rl_limits db) (rl_pending db) (rl_usage db)).
Definition set_usage (a : account_name) (u : resource_usage_object) : M unit :=
  modify_st (fun db => RlDb (rl_config db) (rl_state db) (rl_limits db) (rl_pending db)
                         (<[a := u]> (rl_usage db))).
Definition set_limits (a : account_name) (l : resource_limits_object) : M unit :=
  modify_st (fun db => RlDb (rl_config db) (rl_state db) (<[a := l]> (rl_limits db)) (rl_pending db)
                         (rl_usage db)).
Definition put_pending (m : gmap Z resource_limits_object) : M unit :=
  modify_st (fun db => RlDb (rl_config db) (rl_state db) (rl_limits db) m (rl_usage db)).

(** [_db.get<...,by_owner>]: throws when there is no such object. *)
Definition get_usage (a : account_name) : M resource_usage_object :=
  db ← get; lift (of_option out_of_range (rl_usage db !! a)).
Definition get_limits (a : account_name) : M resource_limits_object :=
  db ← get; lift (of_option out_of_range (rl_limits db !! a)).

Definition initialize_database : rl_db :=
  let c := default_config in
  RlDb c (ResourceLimitsState accumulator_init accumulator_init 0 0 0 0 0
            (ep_max (net_limit_parameters c)) (ep_max (cpu_limit_parameters c))) ∅ ∅ ∅.

Definition initialize_account (a : account_name) : M unit :=
  db ← get;
  _ ← st_assert (bool_decide (rl_limits db !! a = None)) logic_error;
  _ ← set_limits a default_limits;
  _ ← st_assert (bool_decide (rl_usage db !! a = None)) logic_error;
  set_usage a default_usage.

Definition set_block_parameters (cpu net : elastic_limit_parameters) : M unit :=
  _ ← lift (validate_elastic cpu);
  _ ← lift (validate_elastic net);
  modify_st (fun db => RlDb (ResourceLimitsConfig cpu net
    (account_cpu_usage_average_window (rl_config db)) (account_net_usage_average_window (rl_config db)))
    (rl_state db) (rl_limits db) (rl_pending db) (rl_usage db)).

(** The two accumulators of an account; the first stays updated when the second
    throws. *)
Definition add_usage (a : account_name) (net cpu time_slot : Z) : M unit :=
  db ← get;
  u ← get_usage a;
  n ← lift (accumulator_add net time_slot (account_net_usage_average_window (rl_config db)) (net_usage u));
  _ ← set_usage a (ResourceUsageObject n (cpu_usage u) (ram_usage u));
  c ← lift (accumulator_add cpu time_slot (account_cpu_usage_average_window (rl_config db)) (cpu_usage u));
  set_usage a (ResourceUsageObject n c (ram_usage u)).

Definition update_account_usage (accounts : list account_name) (time_slot : Z) : M unit :=
  for_each (fun a => add_usage a 0 0 time_slot) accounts.

(** The pending limits of an account override its limits. *)
Definition get_account_limits (a : account_name) : M resource_limits_object :=
  db ← get;
  match rl_pending db !! a with
  | Some l => mret l
  | None => get_limits a
  end.

(** The share of an account in the capacity of a window, and the part used. *)
Definition max_user_use_in_window (virtual_limit window weight total : Z) : Z :=
  u128 (u128 (virtual_limit * window) * weight) / total.
Definition used_in_window (v window : Z) : Z := u128 (v * window) / rate_limiting_precision.

Definition check_share (weight total virtual_limit window v : Z) (e : exn) : M unit :=
  if (0 <=? weight) && (0 <? total) then
    st_assert (used_in_window v window <=? max_user_use_in_window virtual_limit window weight total) e
  else mret tt.

Definition bill_account (cpu net time_slot : Z) (a : account_name) : M unit :=
  _ ← get_usage a;
  l ← get_account_limits a;
  _ ← add_usage a net cpu time_slot;
  db ← get;
  u ← get_usage a;
  _ ← check_share (cpu_weight l) (total_cpu_weight (rl_state db)) (virtual_cpu_limit (rl_state db))
        (account_cpu_usage_average_window (rl_config db)) (value_ex (cpu_usage u)) tx_cpu_usage_exceeded;
  check_share (net_weight l) (total_net_weight (rl_state db)) (virtual_net_limit (rl_state db))
    (account_net_usage_average_window (rl_config db)) (value_ex (net_usage u)) tx_net_usage_exceeded.

Definition with_pending_usage (net cpu : Z) (s : resource_limits_state_object)
    : resource_limits_state_object :=
  ResourceLimitsState (average_block_net_usage s) (average_block_cpu_usage s) net cpu
    (total_net_weight s) (total_cpu_weight s) (total_ram_bytes s)
    (virtual_net_limit s) (virtual_cpu_limit s).

Definition add_transaction_usage (accounts : list account_name) (cpu net time_slot : Z) : M unit :=
  _ ← for_each (bill_account cpu net time_slot) accounts;
  _ ← set_state (fun s => with_pending_usage (u64 (pending_net_usage s + net))
                            (u64 (pending_cpu_usage s + cpu)) s);
  db ← get;
  _ ← st_assert (pending_cpu_usage (rl_state db) <=? ep_max (cpu_limit_parameters (rl_config db)))
        block_resource_exhausted;
  st_assert (pending_net_usage (rl_state db) <=? ep_max (net_limit_parameters (rl_config db)))
    block_resource_exhausted.

Definition add_pending_ram_usage (a : account_name) (ram_delta : Z) : M unit :=
  if ram_delta =? 0 then mret tt else
  u ← get_usage a;
  _ ← st_assert ((ram_delta <=? 0) || (u64 ram_delta <=? u64 (2 ^ 64 - 1 - ram_usage u)))
        transaction_exception;
  _ ← st_assert ((0 <=? ram_delta) || (u64 (- ram_delta) <=? ram_usage u)) transaction_exception;
  set_usage a (ResourceUsageObject (net_usage u) (cpu_usage u) (u64 (ram_usage u + ram_delta))).

Definition verify_account_ram_usage (a : account_name) : M unit :=
  l ← get_account_limits a;
  u ← get_usage a;
  if 0 <=? ram_bytes l then st_assert (ram_usage u <=? ram_bytes l) ram_usage_exceeded else mret tt.

Definition get_account_ram_usage (a : account_name) : M Z :=
  u ← get_usage a; mret (i64 (ram_usage u)).

Definition set_account_limits (a : account_name) (ram net cpu : Z) : M bool :=
  db ← get;
  limits ← (match rl_pending db !! a with
            | Some l => mret l
            | None => l ← get_limits a; _ ← put_pending (<[a := l]> (rl_pending db)); mret l
            end);
  let decreased := (0 <=? ram) && ((ram_bytes limits <? 0) || (ram <? ram_bytes limits)) in
  db ← get;
  _ ← put_pending (<[a := ResourceLimitsObject net cpu ram]> (rl_pending db));
  mret decreased.

(** [update_state_and_value] on a total and the value of an account. *)
Definition update_state_and_value (pending_value : Z) : St (Z * Z) unit :=
  '(total, value) ← get;
  _ ← (if 0 <? value then
         _ ← st_assert (value <=? total) rate_limiting_state_inconsistent;
         put (u64 (total - value), value)
       else mret tt);
  '(total, value) ← get;
  _ ← (if 0 <? pending_value then
         _ ← st_assert (pending_value <=? u64 (2 ^ 64 - 1 - total)) rate_limiting_state_inconsistent;
         put (u64 (total + pending_value), value)
       else mret tt);
  '(total, value) ← get;
  put (total, pending_value).

(** The three resources of an account and their totals. *)
Inductive resource := ram | cpu | net.

Definition total_of (r : resource) (s : resource_limits_state_object) : Z :=
  match r with
  | ram => total_ram_bytes s
  | cpu => total_cpu_weight s
  | net => total_net_weight s
  end.
Definition with_total (r : resource) (t : Z) (s : resource_limits_state_object)
    : resource_limits_state_object :=
  ResourceLimitsState (average_block_net_usage s) (average_block_cpu_usage s)
    (pending_net_usage s) (pending_cpu_usage s)
    (if r is net then t else total_net_weight s) (if r is cpu then t else total_cpu_weight s)
    (if r is ram then t else total_ram_bytes s) (virtual_net_limit s) (virtual_cpu_limit s).
Definition value_of (r : resource) (l : resource_limits_object) : Z :=
  match r with
  | ram => ram_bytes l
  | cpu => cpu_weight l
  | net => net_weight l
  end.
Definition with_value (r : resource) (v : Z) (l : resource_limits_object) : resource_limits_object :=
  ResourceLimitsObject (if r is net then v else net_weight l) (if r is cpu then v else cpu_weight l)
    (if r is ram then v else ram_bytes l).

Definition update_resource (a : account_name) (pending : resource_limits_object) (r : resource)
    : M unit :=
  fun db =>
    match rl_limits db !! a with
    | None => (db, Throw out_of_range)
    | Some l =>
        let '((t, v), res) := update_state_and_value (value_of r pending)
                                (total_of r (rl_state db), value_of r l) in
        (RlDb (rl_config db) (with_total r t (rl_state db)) (<[a := with_value r v l]> (rl_limits db))
           (rl_pending db) (rl_usage db), res)
    end.

(** One round of the loop of [process_account_limit_updates]: the first pending
    entry is applied and removed. *)
Definition apply_pending (a : account_name) (pending : resource_limits_object) : M unit :=
  _ ← get_limits a;
  _ ← update_resource a pending ram;
  _ ← update_resource a pending cpu;
  _ ← update_resource a pending net;
  db ← get;
  put_pending (delete a (rl_pending db)).

Fixpoint process_loop (fuel : nat) : M unit :=
  db ← get;
  match asc_items (rl_pending db), fuel with
  | [], _ => mret tt
  | _ :: _, O => throw undefined_behaviour
  | (a, pending) :: _, S fuel => _ ← apply_pending a pending; process_loop fuel
  end.

Definition process_account_limit_updates : M unit :=
  db ← get; process_loop (size (rl_pending db)).


Definition get_block_cpu_limit (db : rl_db) : Z :=
  u64 (ep_max (cpu_limit_parameters (rl_config db)) - pending_cpu_usage (rl_state db)).
Definition get_block_net_limit (db : rl_db) : Z :=
  u64 (ep_max (net_limit_parameters (rl_config db)) - pending_net_usage (rl_state db)).

Record account_resource_limit := AccountResourceLimit { arl_used : Z; arl_available : Z; arl_max : Z }.

(** The common part of [get_account_cpu_limit_ex] and [get_account_net_limit_ex]. *)
Definition account_limit_ex (weight total capacity window v : Z) : result account_resource_limit :=
  if (weight <? 0) || (total =? 0) then mret (AccountResourceLimit (-1) (-1) (-1)) else
  let max_use := max_user_use_in_window capacity window weight total in
  used ← integer_divide_ceil (u128 (v * window)) rate_limiting_precision;
  available ← (if max_use <=? used then mret 0 else downgrade_i64 (u128 (max_use - used)));
  u ← downgrade_i64 used;
  m ← downgrade_i64 max_use;
  mret (AccountResourceLimit u available m).

Definition get_account_cpu_limit_ex (a : account_name) (elastic : bool) : M account_resource_limit :=
  db ← get;
  u ← get_usage a;
  l ← get_account_limits a;
  lift (account_limit_ex (cpu_weight l) (total_cpu_weight (rl_state db))
    (if elastic then virtual_cpu_limit (rl_state db) else ep_max (cpu_limit_parameters (rl_config db)))
    (account_cpu_usage_average_window (rl_config db)) (value_ex (cpu_usage u))).

Definition get_account_net_limit_ex (a : account_name) (elastic : bool) : M account_resource_limit :=
  db ← get;
  u ← get_usage a;
  l ← get_account_limits a;
  lift (account_limit_ex (net_weight l) (total_net_weight (rl_state db))
    (if elastic then virtual_net_limit (rl_state db) else ep_max (net_limit_parameters (rl_config db)))
    (account_net_usage_average_window (rl_config db)) (value_ex (net_usage u))).

Definition get_account_ram_own_usage (a : account_name) : M (Z * Z) :=
  l ← get_account_limits a;
  u ← get_usage a;
  mret (ram_bytes l, i64 (ram_usage u)).

(** ** The moving average *)
Definition div_ceil (a b : Z) : Z := (a + b - 1) / b.

Lemma integer_divide_ceil_spec n d : 0 <= n -> 0 < d -> integer_divide_ceil n d = Ok (div_ceil n d).
Proof.
  intros Hn Hd. unfold integer_divide_ceil, div_ceil. rewrite (proj2 (Z.eqb_neq _ _)) by lia.
  run_monad. f_equal. pose proof (Z.div_mod n d ltac:(lia)). pose proof (Z.mod_pos_bound n d Hd).
  destruct (0 <? n mod d) eqn:E; bool_to_prop.
  - apply Z.div_unique with (n mod d - 1); lia.
  - apply Z.div_unique with (d - 1); lia.
Qed.

Lemma div_ceil_bounds n d : 0 < d -> n <= div_ceil n d * d < n + d.
Proof.
  intros Hd. unfold div_ceil. pose proof (Z.div_mod (n + d - 1) d ltac:(lia)).
  pose proof (Z.mod_pos_bound (n + d - 1) d Hd). lia.
Qed.

Record accumulator_ok (a : usage_accumulator) : Prop := {
  ao_last : 0 <= last_ordinal a < 2 ^ 32;
  ao_value : 0 <= value_ex a < 2 ^ 64;
  ao_consumed : 0 <= consumed a < 2 ^ 64
}.

(** The average after the slots that passed: linear decay over the window. *)
Definition decayed (a : usage_accumulator) (ordinal window : Z) : Z :=
  if last_ordinal a =? ordinal then value_ex a
  else if ordinal <? last_ordinal a + window
       then value_ex a * (window - (ordinal - last_ordinal a)) / window else 0.

Lemma decayed_range a ordinal window :
  accumulator_ok a -> 0 < window -> last_ordinal a <= ordinal ->
  0 <= decayed a ordinal window <= value_ex a.
Proof.
  intros [] Hw Ho. unfold decayed. destruct (_ =? _) eqn:E; [lia|].
  destruct (_ <? _) eqn:E2; bool_to_prop; [|lia]. split.
  - apply Z.div_pos; nia.
  - apply Z.div_le_upper_bound; nia.
Qed.

Lemma ratio_mul_inv value n d r : 0 <= value -> 0 <= n < 2 ^ 64 -> 0 < d ->
  ratio_mul value (Ratio n d) = Ok r -> r = value * n / d.
Proof.
  intros Hv Hn Hd. unfold ratio_mul. cbn [numerator denominator]. rewrite result_bind_ok.
  intros ([] & Ha%bes_assert_ok & Hr). rewrite (proj2 (Z.eqb_neq _ _)) in Hr by lia.
  injection Hr as <-. apply orb_prop in Ha as [Ha|Ha]; bool_to_prop.
  - subst. rewrite Z.mul_0_r. done.
  - f_equal. apply u64_small. destruct (decide (n = 0)) as [->|]; [lia|].
    pose proof (Z.mul_div_le (2 ^ 64 - 1) n ltac:(lia)). nia.
Qed.

Lemma accumulator_roll_inv ordinal window a a1 :
  accumulator_ok a -> 0 <= ordinal < 2 ^ 32 -> 0 < window < 2 ^ 32 ->
  accumulator_roll ordinal window a = Ok a1 ->
  last_ordinal a <= ordinal /\
  a1 = UsageAccumulator ordinal (decayed a ordinal window)
         (if last_ordinal a =? ordinal then consumed a
          else div_ceil (decayed a ordinal window) rate_limiting_precision).
Proof.
  intros Ha Ho Hw. pose proof Ha as []. unfold accumulator_roll, decayed.
  destruct (last_ordinal a =? ordinal) eqn:E; bool_to_prop.
  { intros [= <-]. split; [lia|]. subst. by destruct a. }
  rewrite result_bind_ok. intros ([] & Hlt%bes_assert_ok & Hr). bool_to_prop. split; [lia|].
  bind_ok Hr as (v & Hv & Hr).
  rewrite (u64_small (last_ordinal a + window)) in Hv by lia.
  assert (v = (if ordinal <? last_ordinal a + window
               then value_ex a * (window - (ordinal - last_ordinal a)) / window else 0)) as ->.
  { destruct (_ <? _) eqn:E2; bool_to_prop; [|by injection Hv as <-].
    rewrite u32_small, u64_small in Hv by lia. apply ratio_mul_inv in Hv; lia. }
  pose proof (decayed_range a ordinal window Ha ltac:(lia) ltac:(lia)) as Hd.
  unfold decayed in Hd. rewrite (proj2 (Z.eqb_neq _ _)) in Hd by lia.
  unfold average in Hr. cbn [value_ex] in Hr.
  rewrite integer_divide_ceil_spec in Hr by (lia || done). by injection Hr as <-.
Qed.

Lemma accumulator_add_inv units ordinal window a a' :
  accumulator_ok a -> 0 <= units -> 0 <= ordinal < 2 ^ 32 -> 0 < window < 2 ^ 32 ->
  accumulator_add units ordinal window a = Ok a' ->
  last_ordinal a <= ordinal /\ accumulator_ok a' /\
  a' = UsageAccumulator ordinal
         (decayed a ordinal window + div_ceil (units * rate_limiting_precision) window)
         ((if last_ordinal a =? ordinal then consumed a
           else div_ceil (decayed a ordinal window) rate_limiting_precision) + units).
Proof.
  intros Ha Hu Ho Hw Hadd. pose proof Ha as []. unfold accumulator_add in Hadd.
  bind_ok Hadd as ([] & H1%bes_assert_ok & Hadd).
  bind_ok Hadd as ([] & H2%bes_assert_ok & Hadd).
  bool_to_prop. rewrite u64_small in H2 by lia.
  assert (Hmr : max_raw_value * rate_limiting_precision < 2 ^ 64) by (vm_compute; done).
  assert (Hp : rate_limiting_precision = 1000000) by done.
  assert (Hup : 0 <= units * rate_limiting_precision < 2 ^ 64) by nia.
  rewrite u128_small, integer_divide_ceil_spec in Hadd by lia. run_monad in Hadd.
  set (c := div_ceil (units * rate_limiting_precision) window) in *.
  pose proof (div_ceil_bounds (units * rate_limiting_precision) window ltac:(lia)) as Hc. fold c in Hc.
  bind_ok Hadd as (c' & Hc' & Hadd).
  unfold downgrade_u64 in Hc'. rewrite result_bind_ok in Hc'. destruct Hc' as ([] & _ & [= <-]).
  bind_ok Hadd as ([] & H3%bes_assert_ok & Hadd).
  bool_to_prop. rewrite u64_small in H3 by lia.
  bind_ok Hadd as (a1 & Hroll & [= <-]).
  apply accumulator_roll_inv in Hroll as [Hle ->]; [|done..]. cbn [last_ordinal value_ex consumed].
  pose proof (decayed_range a ordinal window Ha ltac:(lia) Hle) as Hd.
  pose proof (div_ceil_bounds (decayed a ordinal window) rate_limiting_precision ltac:(lia)) as Hdc.
  rewrite (u64_small (_ + c)) by nia. rewrite u64_small by (destruct (_ =? _); nia).
  split; [done|]. split; [|done]. split; cbn; [lia|nia|destruct (_ =? _); nia].
Qed.

(** The conditions under which no check of [accumulator_add] fails. *)
Record accumulator_room (units ordinal window : Z) (a : usage_accumulator) : Prop := {
  ar_ordinal : last_ordinal a <= ordinal;
  ar_units : 0 <= units <= max_raw_value;
  ar_consumed : consumed a + units < 2 ^ 64;
  ar_value : value_ex a + div_ceil (units * rate_limiting_precision) window < 2 ^ 64;
  ar_scaled : value_ex a * window < 2 ^ 64
}.

Lemma accumulator_roll_ok ordinal window a :
  accumulator_ok a -> 0 <= ordinal < 2 ^ 32 -> 0 < window < 2 ^ 32 ->
  last_ordinal a <= ordinal -> value_ex a * window < 2 ^ 64 ->
  is_Some (match accumulator_roll ordinal window a with Ok a1 => Some a1 | Throw _ => None end).
Proof.
  intros [] Ho Hw Hle Hs. unfold accumulator_roll. destruct (_ =? _) eqn:E; [by eexists|].
  bool_to_prop. rewrite (proj2 (Z.ltb_lt (last_ordinal a) ordinal)) by lia. run_monad.
  rewrite (u64_small (last_ordinal a + window)) by lia. destruct (_ <? _) eqn:E2; bool_to_prop.
  - rewrite u32_small, u64_small by lia. unfold ratio_mul. cbn [numerator denominator].
    set (n := window - (ordinal - last_ordinal a)).
    replace (value_ex a <=? (2 ^ 64 - 1) / n) with true.
    2: { symmetry. apply Z.leb_le, Z.div_le_lower_bound; nia. }
    rewrite orb_true_r. run_monad. rewrite (proj2 (Z.eqb_neq window 0)) by lia. run_monad.
    unfold average. cbn [value_ex]. unfold integer_divide_ceil. by eexists.
  - by eexists.
Qed.

Lemma accumulator_add_ok units ordinal window a :
  accumulator_ok a -> 0 <= ordinal < 2 ^ 32 -> 0 < window < 2 ^ 32 ->
  accumulator_room units ordinal window a ->
  exists a', accumulator_add units ordinal window a = Ok a'.
Proof.
  intros Ha Ho Hw []. pose proof Ha as []. unfold accumulator_add.
  assert (Hmr : max_raw_value * rate_limiting_precision < 2 ^ 64) by (vm_compute; done).
  assert (Hp : rate_limiting_precision = 1000000) by done.
  assert (Hup : 0 <= units * rate_limiting_precision < 2 ^ 64) by nia.
  rewrite (proj2 (Z.leb_le units max_raw_value)) by lia.
  rewrite (u64_small (_ - consumed a)), (proj2 (Z.leb_le units (_ - consumed a))) by lia.
  run_monad. rewrite u128_small, integer_divide_ceil_spec by lia. run_monad.
  pose proof (div_ceil_bounds (units * rate_limiting_precision) window ltac:(lia)).
  unfold downgrade_u64. rewrite (proj2 (Z.leb_le _ (2 ^ 64 - 1))) by lia. run_monad.
  rewrite (u64_small (_ - value_ex a)), (proj2 (Z.leb_le _ (2 ^ 64 - 1 - value_ex a))) by lia. run_monad.
  destruct (accumulator_roll_ok ordinal window a) as [a1 Hr]; [done..|].
  destruct (accumulator_roll ordinal window a) as [a2|]; [|done]. run_monad. by eexists.
Qed.














(** ** Pending limits *)

(** The total of a resource: what the limited accounts own. *)
Definition total_owned (r : resource) (m : gmap Z resource_limits_object) : Z :=
  map_sum (fun _ l => Z.max 0 (value_of r l)) m.

Lemma total_owned_delete r m a l : m !! a = Some l ->
  total_owned r m = Z.max 0 (value_of r l) + total_owned r (delete a m).
Proof. intros Ha. exact (map_sum_delete _ m a l Ha). Qed.

Lemma total_owned_update r m a l l' : m !! a = Some l ->
  total_owned r (<[a := l']> m) = total_owned r m - Z.max 0 (value_of r l) + Z.max 0 (value_of r l').
Proof. intros Ha. exact (map_sum_update _ m a l l' Ha). Qed.

Lemma total_owned_nonneg r m : 0 <= total_owned r m.
Proof. apply map_sum_nonneg. lia. Qed.

Lemma update_state_and_value_ok p t v :
  0 <= t < 2 ^ 64 -> Z.max 0 v <= t -> t - Z.max 0 v + Z.max 0 p < 2 ^ 64 ->
  update_state_and_value p (t, v) = ((t - Z.max 0 v + Z.max 0 p, p), Ok tt).
Proof.
  intros Ht Hv Hp. unfold update_state_and_value. run_st.
  destruct (0 <? v) eqn:E1; bool_to_prop; run_st.
  - rewrite (proj2 (Z.leb_le v t)) by lia. rewrite (u64_small (t - v)) by lia.
    destruct (0 <? p) eqn:E2; bool_to_prop; run_st.
    + rewrite (u64_small (_ - (t - v))), (proj2 (Z.leb_le p _)), u64_small by lia. repeat f_equal; lia.
    + repeat f_equal; lia.
  - destruct (0 <? p) eqn:E2; bool_to_prop; run_st.
    + rewrite (u64_small (_ - t)), (proj2 (Z.leb_le p _)), u64_small by lia. repeat f_equal; lia.
    + repeat f_equal; lia.
Qed.

Definition with_totals (f : resource -> Z) (s : resource_limits_state_object)
    : resource_limits_state_object :=
  with_total net (f net) (with_total cpu (f cpu) (with_total ram (f ram) s)).

Definition totals_agree (db : rl_db) : Prop :=
  forall r, total_of r (rl_state db) = total_owned r (rl_limits db).

Lemma apply_pending_ok db a l p :
  totals_agree db -> rl_limits db !! a = Some l ->
  (forall r, total_owned r (rl_limits db) + Z.max 0 (value_of r p) < 2 ^ 64) ->
  apply_pending a p db =
    (RlDb (rl_config db)
       (with_totals (fun r => total_owned r (<[a := p]> (rl_limits db))) (rl_state db))
       (<[a := p]> (rl_limits db)) (delete a (rl_pending db)) (rl_usage db), Ok tt).
Proof.
  intros Htot Hl Hfit.
  assert (Hu : forall r, update_state_and_value (value_of r p) (total_of r (rl_state db), value_of r l)
                 = ((total_owned r (<[a := p]> (rl_limits db)), value_of r p), Ok tt)).
  { intros r. rewrite Htot, (total_owned_update r _ _ _ p Hl).
    pose proof (total_owned_delete r _ _ _ Hl). pose proof (total_owned_nonneg r (delete a (rl_limits db))).
    specialize (Hfit r). apply update_state_and_value_ok; lia. }
  unfold apply_pending, get_limits, update_resource. run_st. rewrite Hl. run_st.
  pose proof (Hu ram) as H1. pose proof (Hu cpu) as H2. pose proof (Hu net) as H3.
  rewrite H1. cbn [rl_limits rl_state rl_config rl_pending rl_usage]. rewrite lookup_insert_eq.
  cbn [with_total total_of value_of with_value total_cpu_weight cpu_weight] in *. rewrite H2.
  cbn [rl_limits rl_state rl_config rl_pending rl_usage]. rewrite lookup_insert_eq.
  cbn [with_total total_of value_of with_value total_net_weight net_weight] in *. rewrite H3.
  cbn [rl_limits rl_state rl_config rl_pending rl_usage with_value ram_bytes cpu_weight net_weight].
  rewrite !insert_insert_eq. by destruct p.
Qed.

(** A pending entry applied and removed leaves the same limits to reach. *)
Lemma pending_union (ps ls : gmap Z resource_limits_object) a p :
  ps !! a = Some p -> delete a ps ∪ <[a := p]> ls = ps ∪ ls.
Proof.
  intros Hp. rewrite <- insert_union_r by apply lookup_delete_eq.
  rewrite insert_union_l. by rewrite insert_delete_id.
Qed.

Lemma process_loop_done db :
  totals_agree db ->
  db = RlDb (rl_config db) (with_totals (fun r => total_owned r (rl_limits db)) (rl_state db))
         (rl_limits db) (rl_pending db) (rl_usage db).
Proof.
  intros Htot. destruct db as [c s ls ps us]. unfold totals_agree, with_totals in *. cbn in *.
  rewrite <- (Htot ram), <- (Htot cpu), <- (Htot net). cbn. by destruct s.
Qed.

Lemma asc_items_nil {A} (m : gmap Z A) : asc_items m = [] -> m = ∅.
Proof.
  intros Hn. pose proof (asc_items_perm m) as Hp. rewrite Hn in Hp.
  apply Permutation_nil_l in Hp. by apply map_to_list_empty_iff.
Qed.

Lemma process_loop_ok fuel : forall db,
  totals_agree db -> dom (rl_pending db) ⊆ dom (rl_limits db) ->
  (forall r, total_owned r (rl_limits db) + total_owned r (rl_pending db) < 2 ^ 64) ->
  (size (rl_pending db) <= fuel)%nat ->
  let limits := rl_pending db ∪ rl_limits db in
  process_loop fuel db =
    (RlDb (rl_config db) (with_totals (fun r => total_owned r limits) (rl_state db))
       limits ∅ (rl_usage db), Ok tt).
Proof.
  induction fuel as [|fuel IH]; intros db Htot Hdom Hfit Hsize limits; cbn [process_loop]; run_st.
  all: destruct (asc_items (rl_pending db)) as [|[a p] rest] eqn:Hitems.
  1, 3: apply asc_items_nil in Hitems; subst limits; rewrite Hitems, (left_id_L ∅ (∪)), <- Hitems;
    by rewrite <- process_loop_done.
  all: assert (Hp : rl_pending db !! a = Some p) by
    (apply elem_of_asc_items; rewrite Hitems; by left).
  { exfalso. assert (rl_pending db = ∅) as Hemp by (apply map_size_empty_inv; lia).
    rewrite Hemp in Hp. done. }
  assert (is_Some (rl_limits db !! a)) as [l Hl].
  { apply elem_of_dom, Hdom, elem_of_dom. by eexists. }
  assert (Hfit' : forall r, total_owned r (rl_limits db) + Z.max 0 (value_of r p) < 2 ^ 64).
  { intros r. pose proof (total_owned_delete r _ _ _ Hp).
    pose proof (total_owned_nonneg r (delete a (rl_pending db))). specialize (Hfit r). lia. }
  rewrite (apply_pending_ok _ _ l) by done. run_st. rewrite IH; cbn [rl_config rl_state rl_limits rl_pending rl_usage].
  - subst limits. by rewrite pending_union.
  - intros []; done.
  - rewrite dom_delete_L, dom_insert_L. set_solver.
  - intros r. rewrite (total_owned_update r _ _ _ p Hl). specialize (Hfit r).
    pose proof (total_owned_delete r _ _ _ Hp). lia.
  - rewrite map_size_delete_Some by by eexists. lia.
Qed.

(** C22 Applying the pending limits always succeeds when the sums fit in 64 bits:
    every pending limit becomes the limit of its account, every other account keeps
    its own, no limit stays pending, and the totals are the sums over the accounts
    of what the limited ones own. *)
Theorem process_account_limit_updates_totals (db : rl_db) :
  totals_agree db -> dom (rl_pending db) ⊆ dom (rl_limits db) ->
  (forall r, total_owned r (rl_limits db) + total_owned r (rl_pending db) < 2 ^ 64) ->
  exists db', process_account_limit_updates db = (db', Ok tt) /\
    rl_limits db' = rl_pending db ∪ rl_limits db /\ rl_pending db' = ∅ /\
    rl_usage db' = rl_usage db /\ totals_agree db'.
Proof.
  intros Htot Hdom Hfit. unfold process_account_limit_updates. run_st.
  rewrite process_loop_ok by done. eexists. split; [reflexivity|]. cbn. split_and!; try done.
  by intros [].
Qed.

(** Three accounts of which one gets its first limits and one loses its own. *)
Definition sample_limits : rl_db :=
  let db := initialize_database in
  RlDb (rl_config db) (with_totals (fun r => match r with ram => 8192 | _ => 30 end) (rl_state db))
    (<[1 := ResourceLimitsObject 10 20 4096]>
       (<[2 := default_limits]> (<[3 := ResourceLimitsObject 20 10 4096]> ∅)))
    (<[2 := ResourceLimitsObject 5 5 1024]> (<[3 := default_limits]> ∅)) ∅.

Lemma process_account_limit_updates_totals_witness :
  exists db', process_account_limit_updates sample_limits = (db', Ok tt) /\
    rl_pending db' = ∅ /\ totals_agree db'.
Proof.
  destruct (process_account_limit_updates_totals sample_limits) as (db' & H1 & H2 & H3 & H4 & H5).
  - by intros [].
  - unfold sample_limits. cbn [rl_pending rl_limits]. rewrite !dom_insert_L. set_solver.
  - by intros [].
  - exists db'. by split_and!.
Defined.

(** ** Account usage *)

Lemma max_user_use_range capacity window weight total : 0 < total ->
  0 <= max_user_use_in_window capacity window weight total < 2 ^ 128.
Proof.
  intros Ht. unfold max_user_use_in_window, u128.
  set (x := _ mod 2 ^ 128). assert (0 <= x < 2 ^ 128) by (apply Z.mod_pos_bound; lia). split.
  - apply Z.div_pos; lia.
  - apply Z.div_lt_upper_bound; nia.
Qed.

(** What is available to a limited account is what its share leaves. *)
Lemma account_limit_available weight total capacity window v lim :
  0 <= weight -> 0 < total -> 0 < window < 2 ^ 32 -> 0 <= v < 2 ^ 64 ->
  account_limit_ex weight total capacity window v = Ok lim ->
  arl_available lim =
    Z.max 0 (max_user_use_in_window capacity window weight total
             - div_ceil (v * window) rate_limiting_precision).
Proof.
  intros Hwt Ht Hw Hv Hlim. unfold account_limit_ex in Hlim.
  rewrite (proj2 (Z.ltb_ge weight 0)), (proj2 (Z.eqb_neq total 0)) in Hlim by lia. cbn [orb] in Hlim.
  pose proof (max_user_use_range capacity window weight total Ht) as Hm.
  set (m := max_user_use_in_window _ _ _ _) in *.
  rewrite u128_small, integer_divide_ceil_spec in Hlim by (nia || done). run_monad in Hlim.
  pose proof (div_ceil_bounds (v * window) rate_limiting_precision ltac:(done)) as Hused.
  set (used := div_ceil (v * window) rate_limiting_precision) in *.
  assert (0 <= used) by (unfold rate_limiting_precision in *; nia).
  bind_ok Hlim as (av & Hav' & Hlim). unfold downgrade_i64 in *.
  repeat (rewrite result_bind_ok in Hlim; destruct Hlim as (? & _ & Hlim)). injection Hlim as <-.
  cbn [arl_available]. destruct (m <=? used) eqn:E3; bool_to_prop.
  { injection Hav' as <-. lia. }
  rewrite result_bind_ok in Hav'. destruct Hav' as (? & _ & [= <-]). rewrite u128_small; lia.
Qed.

Lemma account_limit_share weight total capacity window v lim units v' e db :
  0 < window <= rate_limiting_precision -> 0 < units -> 0 <= v < 2 ^ 64 -> 0 <= v' < 2 ^ 64 ->
  v' <= v + div_ceil (units * rate_limiting_precision) window ->
  account_limit_ex weight total capacity window v = Ok lim ->
  arl_available lim = -1 \/ units <= arl_available lim ->
  check_share weight total capacity window v' e db = (db, Ok tt).
Proof.
  intros Hw Hu Hv Hv' Hle Hlim Hav. unfold check_share.
  destruct ((0 <=? weight) && (0 <? total)) eqn:E2; [|done]. bool_to_prop.
  assert (Hp : rate_limiting_precision = 1000000) by done.
  rewrite (account_limit_available weight total capacity window v lim) in Hav by (done || lia).
  set (m := max_user_use_in_window _ _ _ _) in *.
  unfold st_assert, lift, bes_assert. replace (_ <=? m) with true; [done|].
  symmetry. apply Z.leb_le. unfold used_in_window. rewrite u128_small by nia.
  pose proof (div_ceil_bounds (v * window) rate_limiting_precision ltac:(lia)).
  pose proof (div_ceil_bounds (units * rate_limiting_precision) window ltac:(lia)).
  set (used := div_ceil (v * window) rate_limiting_precision) in *.
  assert (v' * window < (used + units + 1) * rate_limiting_precision) by nia.
  enough (v' * window / rate_limiting_precision < used + units + 1) by lia.
  apply Z.div_lt_upper_bound; lia.
Qed.

Lemma accumulator_add_grows units ordinal window a a' :
  accumulator_ok a -> 0 <= units -> 0 <= ordinal < 2 ^ 32 -> 0 < window < 2 ^ 32 ->
  accumulator_add units ordinal window a = Ok a' ->
  0 <= value_ex a' < 2 ^ 64 /\
  value_ex a' <= value_ex a + div_ceil (units * rate_limiting_precision) window.
Proof.
  intros Ha Hu Ho Hw (Hle & Hok & ->)%accumulator_add_inv; [|done..].
  split; [apply Hok|]. cbn. pose proof (decayed_range a ordinal window Ha ltac:(lia) Hle). lia.
Qed.

(** Billing what is reported as available succeeds, and changes only the usage of the
    account. *)
Lemma bill_account_run (db : rl_db) (a cpu_units net_units slot : Z)
    (u : resource_usage_object) (lc ln : account_resource_limit) :
  let wc := account_cpu_usage_average_window (rl_config db) in
  let wn := account_net_usage_average_window (rl_config db) in
  0 <= slot < 2 ^ 32 -> 0 < wc <= rate_limiting_precision -> 0 < wn <= rate_limiting_precision ->
  rl_usage db !! a = Some u -> accumulator_ok (cpu_usage u) -> accumulator_ok (net_usage u) ->
  accumulator_room cpu_units slot wc (cpu_usage u) -> accumulator_room net_units slot wn (net_usage u) ->
  0 < cpu_units -> 0 < net_units ->
  get_account_cpu_limit_ex a true db = (db, Ok lc) ->
  get_account_net_limit_ex a true db = (db, Ok ln) ->
  arl_available lc = -1 \/ cpu_units <= arl_available lc ->
  arl_available ln = -1 \/ net_units <= arl_available ln ->
  exists u', bill_account cpu_units net_units slot a db =
    (RlDb (rl_config db) (rl_state db) (rl_limits db) (rl_pending db) (<[a := u']> (rl_usage db)), Ok tt).
Proof.
  intros wc wn Hs Hwc Hwn Hu Hc Hn Hrc Hrn Hcu Hnu Hlc Hln Hac Han.
  assert (rate_limiting_precision = 1000000) by done.
  destruct (accumulator_add_ok cpu_units slot wc (cpu_usage u)) as [c' Hc']; [done|done|lia|done|].
  destruct (accumulator_add_ok net_units slot wn (net_usage u)) as [n' Hn']; [done|done|lia|done|].
  destruct (accumulator_add_grows cpu_units slot wc _ _ Hc ltac:(lia) Hs ltac:(lia) Hc') as [Hcr Hcg].
  destruct (accumulator_add_grows net_units slot wn _ _ Hn ltac:(lia) Hs ltac:(lia) Hn') as [Hnr Hng].
  exists (ResourceUsageObject n' c' (ram_usage u)).
  unfold get_account_cpu_limit_ex, get_account_net_limit_ex, bill_account, add_usage,
    get_usage, get_account_limits, get_limits in *.
  run_st in Hlc. run_st in Hln. run_st. rewrite Hu in *.
  fold wc in Hlc. fold wn in Hln.
  destruct (match rl_pending db !! a with Some l => _ | None => _ end) as [db1 [l|e]] eqn:El;
    [|discriminate Hlc].
  assert (db1 = db) as ->. { destruct (rl_pending db !! a); congruence. }
  injection Hlc as Hlc. injection Hln as Hln. rewrite Hu. fold wn. rewrite Hn'.
  unfold set_usage. run_st. fold wc. rewrite Hc'. cbn [rl_usage rl_config rl_state rl_limits rl_pending].
  rewrite insert_insert_eq, lookup_insert_eq. cbn [cpu_usage net_usage]. fold wc wn.
  erewrite account_limit_share; [|apply Hwc|apply Hcu|apply Hc|apply Hcr|apply Hcg|apply Hlc|apply Hac].
  erewrite account_limit_share; [done|apply Hwn|apply Hnu|apply Hn|apply Hnr|apply Hng|apply Hln|apply Han].
Qed.
