(* ===== verification/NativeContract.v ===== *)
(** * Native actions

    Model of [besio_contract.cpp] under [libraries/chain], with the parts of
    [apply_context.cpp] and [transaction_context.cpp] it calls, [account_object.hpp]
    and the billable sizes of the objects: the handlers that create accounts, set code
    and interfaces, and change permissions and their links. *)
From Stdlib Require Import Ascii String.
From S2P Require Import Prelude Merkle BlockHeaderState Names Raw Authority Transactions.
From S2P Require Import AuthorizationManager ResourceLimits.

(** ** State *)
Record account_object := AccountObject {
  ac_vm_type : Z;
  ac_vm_version : Z;
  ac_privileged : bool;
  ac_last_code_update : Z;
  ac_code_version : digest;
  ac_creation_date : Z;
  ac_code : bytes;
  ac_abi : bytes
}.
Record account_sequence_object := AccountSequence {
  as_recv_sequence : Z;
  as_auth_sequence : Z;
  as_code_sequence : Z;
  as_abi_sequence : Z
}.

(** The database as the handlers see it, with the accounts whose memory is to be validated
    and the authorizations used so far. *)
Record chain := Chain {
  ch_auth : auth_db;
  ch_limits : rl_db;
  ch_accounts : gmap Z account_object;
  ch_sequences : gmap Z account_sequence_object;
  ch_validate_ram : gset Z;
  ch_used_authorizations : list bool
}.
Abbreviation M := (St chain).

Definition on_auth {A} (m : St auth_db A) : M A := fun c =>
  let '(a, r) := m (ch_auth c) in
  (Chain a (ch_limits c) (ch_accounts c) (ch_sequences c) (ch_validate_ram c) (ch_used_authorizations c), r).
Definition on_limits {A} (m : St rl_db A) : M A := fun c =>
  let '(l, r) := m (ch_limits c) in
  (Chain (ch_auth c) l (ch_accounts c) (ch_sequences c) (ch_validate_ram c) (ch_used_authorizations c), r).
Definition set_accounts (m : gmap Z account_object) : M unit :=
  modify_st (fun c => Chain (ch_auth c) (ch_limits c) m (ch_sequences c) (ch_validate_ram c)
                        (ch_used_authorizations c)).
Definition set_sequences (m : gmap Z account_sequence_object) : M unit :=
  modify_st (fun c => Chain (ch_auth c) (ch_limits c) (ch_accounts c) m (ch_validate_ram c)
                        (ch_used_authorizations c)).

(** [db.get<account_object, by_name>]. *)
Definition get_account (a : account_name) : M account_object :=
  c ← get; lift (of_option out_of_range (ch_accounts c !! a)).

(** ** apply_context and transaction_context *)
Fixpoint mark_used (account : account_name) (auths : list permission_level) (used : list bool)
    : option (list bool) :=
  match auths, used with
  | l :: auths, u :: used =>
      if actor l =? account then Some (true :: used) else cons u <$> mark_used account auths used
  | _, _ => None
  end.
Definition require_authorization (act : action) (account : account_name) : M unit :=
  c ← get;
  match mark_used account (act_authorization act) (ch_used_authorizations c) with
  | Some used => modify_st (fun c => Chain (ch_auth c) (ch_limits c) (ch_accounts c) (ch_sequences c)
                                       (ch_validate_ram c) used)
  | None => throw missing_auth_exception
  end.

Definition add_ram_usage (account : account_name) (ram_delta : Z) : M unit :=
  _ ← on_limits (add_pending_ram_usage account ram_delta);
  if 0 <? ram_delta then
    modify_st (fun c => Chain (ch_auth c) (ch_limits c) (ch_accounts c) (ch_sequences c)
                          ({[account]} ∪ ch_validate_ram c) (ch_used_authorizations c))
  else mret tt.

(** ** Sizes that are billed *)
Definition overhead_per_row_per_index_ram_bytes : Z := 32.
Definition overhead_per_account_ram_bytes : Z := 2 * 1024.
Definition setcode_ram_bytes_multiplier : Z := 10.
Definition shared_authority_size : Z := billable_size_v (3 * 16 + 4).
Definition permission_object_size : Z :=
  billable_size_v (shared_authority_size + 64 + 5 * overhead_per_row_per_index_ram_bytes).
Definition permission_link_object_size : Z :=
  billable_size_v (40 + 3 * overhead_per_row_per_index_ram_bytes).
Definition generated_transaction_object_size : Z :=
  billable_size_v (96 + 4 + 5 * overhead_per_row_per_index_ram_bytes).

Definition key_pack_size (k : public_key) : Z :=
  match pack_size c_public_key k with Ok n => n | Throw _ => 0 end.
Definition billable (a : authority) : Z := auth_billable_size key_pack_size a.

(** ** What the handlers take from outside

    The lists of names and keys a node is configured with, whether it is producing the
    block, the hash of code and the validation of WebAssembly. *)
Record node_config := NodeConfig {
  contract_whitelist : list account_name;
  contract_blacklist : list account_name;
  action_blacklist : list (account_name * Z);
  key_blacklist : list public_key;
  allow_ram_billing_in_notify : bool
}.
Class NativeEnv := {
  conf : node_config;
  is_producing_block : bool;
  code_hash : bytes -> digest;
  validate_code : bytes -> result unit
}.

Definition check_key_list (conf : node_config) (key : public_key) : result unit :=
  match key_blacklist conf with
  | [] => mret tt
  | l => bes_assert (negb (bool_decide (key ∈ l))) key_blacklist_exception
  end.

Definition has_reserved_prefix (n : Z) : bool :=
  bool_decide (take 6 (to_string n) = lit "besio.").

Section handlers.
Context `{NativeEnv}.

Definition check_account_factor (a : permission_level_weight) : M unit :=
  let l := plw_permission a in
  c ← get;
  _ ← st_assert (bool_decide (is_Some (ch_accounts c !! actor l))) action_validate_exception;
  if (permission l =? owner_name) || (permission l =? active_name) then mret tt
  else if permission l =? besio_code_name then mret tt
  else match get_permission (ch_auth c) l with
       | Ok _ => mret tt
       | Throw permission_query_exception => throw action_validate_exception
       | Throw e => throw e
       end.

Definition validate_authority_precondition (auth : authority) : M unit :=
  _ ← for_each check_account_factor (accounts auth);
  if is_producing_block then for_each (fun k => lift (check_key_list conf (kw_key k))) (keys auth) else mret tt.

Definition new_account_object (creation_date : Z) : account_object :=
  AccountObject 0 0 false 0 digest_nil creation_date [] [].

Definition apply_besio_newaccount (act : action) : M unit :=
  create ← lift (data_as t_newaccount act);
  _ ← require_authorization act (na_creator create);
  _ ← st_assert (validate (na_owner create)) action_validate_exception;
  _ ← st_assert (validate (na_active create)) action_validate_exception;
  let name_str := to_string (na_name create) in
  _ ← st_assert (negb (na_name create =? 0)) action_validate_exception;
  _ ← st_assert (length name_str <=? 12)%nat action_validate_exception;
  creator ← get_account (na_creator create);
  _ ← (if ac_privileged creator then mret tt
       else st_assert (negb (has_reserved_prefix (na_name create))) action_validate_exception);
  c ← get;
  _ ← st_assert (bool_decide (ch_accounts c !! na_name create = None)) account_name_exists_exception;
  _ ← set_accounts (<[na_name create :=
         new_account_object (Timestamp.set_time_point (pending_block_time (ch_auth c)))]> (ch_accounts c));
  _ ← st_assert (bool_decide (ch_sequences c !! na_name create = None)) logic_error;
  _ ← set_sequences (<[na_name create := AccountSequence 0 0 0 0]> (ch_sequences c));
  _ ← validate_authority_precondition (na_owner create);
  _ ← validate_authority_precondition (na_active create);
  owner_permission ← on_auth (create_permission (na_name create) owner_name 0 (na_owner create) 0);
  active_permission ← on_auth (create_permission (na_name create) active_name (po_id owner_permission)
                                 (na_active create) 0);
  _ ← on_limits (initialize_account (na_name create));
  let ram_delta := i64 (overhead_per_account_ram_bytes + 2 * permission_object_size
                        + billable (po_auth owner_permission) + billable (po_auth active_permission)) in
  add_ram_usage (na_name create) ram_delta.

Definition apply_besio_setcode (act : action) : M unit :=
  d ← lift (data_as t_setcode act);
  _ ← require_authorization act (sc_account d);
  _ ← st_assert (sc_vmtype d =? 0) invalid_contract_vm_type;
  _ ← st_assert (sc_vmversion d =? 0) invalid_contract_vm_version;
  code_id ← (if (0 <? length (sc_code d))%nat then
               _ ← lift (validate_code (sc_code d)); mret (code_hash (sc_code d))
             else mret digest_nil);
  account ← get_account (sc_account d);
  let code_size := Z.of_nat (length (sc_code d)) in
  let old_size := i64 (Z.of_nat (length (ac_code account)) * setcode_ram_bytes_multiplier) in
  let new_size := i64 (code_size * setcode_ram_bytes_multiplier) in
  _ ← st_assert (negb (bool_decide (ac_code_version account = code_id))) set_exact_code;
  c ← get;
  _ ← set_accounts (<[sc_account d :=
         AccountObject (ac_vm_type account) (ac_vm_version account) (ac_privileged account)
           (pending_block_time (ch_auth c)) code_id (ac_creation_date account) (sc_code d) (ac_abi account)]>
         (ch_accounts c));
  s ← lift (of_option out_of_range (ch_sequences c !! sc_account d));
  _ ← set_sequences (<[sc_account d :=
         AccountSequence (as_recv_sequence s) (as_auth_sequence s) (u64 (as_code_sequence s + 1))
           (as_abi_sequence s)]> (ch_sequences c));
  if new_size =? old_size then mret tt else add_ram_usage (sc_account d) (i64 (new_size - old_size)).

Definition apply_besio_setabi (act : action) : M unit :=
  d ← lift (data_as t_setabi act);
  _ ← require_authorization act (sa_account d);
  account ← get_account (sa_account d);
  let old_size := Z.of_nat (length (ac_abi account)) in
  let new_size := Z.of_nat (length (sa_abi d)) in
  c ← get;
  _ ← set_accounts (<[sa_account d :=
         AccountObject (ac_vm_type account) (ac_vm_version account) (ac_privileged account)
           (ac_last_code_update account) (ac_code_version account) (ac_creation_date account)
           (ac_code account) (sa_abi d)]> (ch_accounts c));
  s ← lift (of_option out_of_range (ch_sequences c !! sa_account d));
  _ ← set_sequences (<[sa_account d :=
         AccountSequence (as_recv_sequence s) (as_auth_sequence s) (as_code_sequence s)
           (u64 (as_abi_sequence s + 1))]> (ch_sequences c));
  if new_size =? old_size then mret tt else add_ram_usage (sa_account d) (i64 (new_size - old_size)).

(** Handlers read the permissions through a constant view of the database. *)
Definition auth_query {A} (f : auth_db -> result A) : M A := c ← get; lift (f (ch_auth c)).

Definition apply_besio_updateauth (act : action) : M unit :=
  update ← lift (data_as t_updateauth act);
  _ ← require_authorization act (ua_account update);
  _ ← st_assert (negb (ua_permission update =? 0)) action_validate_exception;
  _ ← st_assert (negb (has_reserved_prefix (ua_permission update))) action_validate_exception;
  _ ← st_assert (negb (ua_permission update =? ua_parent update)) action_validate_exception;
  _ ← get_account (ua_account update);
  _ ← st_assert (validate (ua_auth update)) action_validate_exception;
  _ ← (if ua_permission update =? active_name
       then st_assert (ua_parent update =? owner_name) action_validate_exception else mret tt);
  _ ← (if ua_permission update =? owner_name
       then st_assert (ua_parent update =? 0) action_validate_exception
       else st_assert (negb (ua_parent update =? 0)) action_validate_exception);
  c ← get;
  _ ← (match last (waits (ua_auth update)) with
       | Some w => st_assert (wait_sec w <=? max_transaction_delay (ch_auth c)) action_validate_exception
       | None => mret tt
       end);
  _ ← validate_authority_precondition (ua_auth update);
  found ← auth_query (fun db => find_permission db (PermissionLevel (ua_account update) (ua_permission update)));
  parent_id ← (if ua_permission update =? owner_name then mret 0 else
                parent ← auth_query (fun db =>
                  get_permission db (PermissionLevel (ua_account update) (ua_parent update)));
                mret (po_id parent));
  match found with
  | Some p =>
      _ ← st_assert (parent_id =? po_parent p) action_validate_exception;
      let old_size := i64 (permission_object_size + billable (po_auth p)) in
      _ ← on_auth (modify_permission p (ua_auth update));
      let new_size := i64 (permission_object_size + billable (ua_auth update)) in
      add_ram_usage (po_owner p) (i64 (new_size - old_size))
  | None =>
      p ← on_auth (create_permission (ua_account update) (ua_permission update) parent_id (ua_auth update) 0);
      add_ram_usage (ua_account update) (i64 (permission_object_size + billable (po_auth p)))
  end.

Definition apply_besio_deleteauth (act : action) : M unit :=
  remove ← lift (data_as t_deleteauth act);
  _ ← require_authorization act (da_account remove);
  _ ← st_assert (negb (da_permission remove =? active_name)) action_validate_exception;
  _ ← st_assert (negb (da_permission remove =? owner_name)) action_validate_exception;
  c ← get;
  _ ← st_assert (bool_decide (filter (fun kv => (kv.1.1.1 = da_account remove) /\ kv.2 = da_permission remove)
                               (map_to_list (links (ch_auth c))) = [])) action_validate_exception;
  p ← auth_query (fun db => get_permission db (PermissionLevel (da_account remove) (da_permission remove)));
  let old_size := i64 (permission_object_size + billable (po_auth p)) in
  _ ← on_auth (remove_permission p);
  add_ram_usage (da_account remove) (i64 (- old_size)).

Definition apply_besio_linkauth (act : action) : M unit :=
  requirement ← lift (data_as t_linkauth act);
  _ ← st_assert (negb (la_requirement requirement =? 0)) action_validate_exception;
  _ ← require_authorization act (la_account requirement);
  c ← get;
  _ ← st_assert (bool_decide (is_Some (ch_accounts c !! la_account requirement))) account_query_exception;
  _ ← st_assert (bool_decide (is_Some (ch_accounts c !! la_code requirement))) account_query_exception;
  _ ← (if la_requirement requirement =? besio_any_name then mret tt else
       st_assert (bool_decide (is_Some (find_permissions (by_name (la_requirement requirement))
                                          (permissions (ch_auth c))))) permission_query_exception);
  let link_key := (la_account requirement, la_code requirement, la_type requirement) in
  match links (ch_auth c) !! link_key with
  | Some old =>
      _ ← st_assert (negb (old =? la_requirement requirement)) action_validate_exception;
      on_auth (set_links (<[link_key := la_requirement requirement]> (links (ch_auth c))))
  | None =>
      _ ← on_auth (set_links (<[link_key := la_requirement requirement]> (links (ch_auth c))));
      add_ram_usage (la_account requirement) permission_link_object_size
  end.

Definition apply_besio_unlinkauth (act : action) : M unit :=
  unlink ← lift (data_as t_unlinkauth act);
  _ ← require_authorization act (ul_account unlink);
  c ← get;
  let link_key := (ul_account unlink, ul_code unlink, ul_type unlink) in
  _ ← st_assert (bool_decide (is_Some (links (ch_auth c) !! link_key))) action_validate_exception;
  _ ← add_ram_usage (ul_account unlink) (- permission_link_object_size);
  on_auth (set_links (delete link_key (links (ch_auth c)))).

(** [transaction_id_to_sender_id]: the last two words of the id. *)
Definition transaction_id_to_sender_id (tid : digest) : Z := hash3 tid * 2 ^ 64 + hash2 tid.

(** Finding and removing by the unique index on sender and sender id. *)
Definition by_sender_id (sender : account_name) (sender_id : Z) (g : generated_transaction) : bool :=
  (gt_sender g =? sender) && (gt_sender_id g =? sender_id).
Fixpoint take_generated (P : generated_transaction -> bool) (l : list generated_transaction)
    : option (generated_transaction * list generated_transaction) :=
  match l with
  | [] => None
  | g :: l => if P g then Some (g, l) else
      match take_generated P l with Some (h, l') => Some (h, g :: l') | None => None end
  end.

Definition cancel_deferred_transaction (sender_id : Z) (sender : account_name) : M bool :=
  c ← get;
  match take_generated (by_sender_id sender sender_id) (generated (ch_auth c)) with
  | Some (gto, rest) =>
      _ ← add_ram_usage (gt_payer gto)
            (i64 (u64 (- (generated_transaction_object_size + Z.of_nat (length (gt_packed_trx gto))))));
      _ ← on_auth (set_generated rest);
      mret true
  | None => mret false
  end.

Definition apply_besio_canceldelay (act : action) : M unit :=
  cancel ← lift (data_as t_canceldelay act);
  _ ← require_authorization act (actor (cd_canceling_auth cancel));
  _ ← cancel_deferred_transaction (transaction_id_to_sender_id (cd_trx_id cancel)) 0;
  mret tt.
End handlers.

(** ** What leaves the permissions and accounts alone *)
Definition tree (c : chain) : gmap Z permission_object * Z * gmap Z account_object :=
  (permissions (ch_auth c), next_permission (ch_auth c), ch_accounts c).

Lemma keeps_on_limits {A} (m : St rl_db A) : keeps tree (on_limits m).
Proof. intros c. unfold on_limits. by destruct (m (ch_limits c)). Qed.
Lemma keeps_set_links ls : keeps tree (on_auth (set_links ls)).
Proof. done. Qed.
Lemma keeps_set_generated gs : keeps tree (on_auth (set_generated gs)).
Proof. done. Qed.
Lemma keeps_require_authorization act a : keeps tree (require_authorization act a).
Proof. unfold require_authorization. keeps_step. Qed.
#[export] Hint Resolve keeps_on_limits keeps_set_links keeps_set_generated keeps_require_authorization : keeps.
Lemma keeps_add_ram_usage a d : keeps tree (add_ram_usage a d).
Proof. unfold add_ram_usage. keeps_step. Qed.
(** Reading keeps everything. *)
Lemma keeps_get_account {T} (g : chain -> T) a : keeps g (get_account a).
Proof. unfold get_account. keeps_step. Qed.
Lemma keeps_auth_query {T A} (g : chain -> T) (f : auth_db -> result A) : keeps g (auth_query f).
Proof. unfold auth_query. keeps_step. Qed.
#[export] Hint Resolve keeps_add_ram_usage keeps_get_account keeps_auth_query : keeps.

Section tree.
Context `{NativeEnv}.

Lemma keeps_validate_authority_precondition {T} (g : chain -> T) a : keeps g (validate_authority_precondition a).
Proof. unfold validate_authority_precondition, check_account_factor. keeps_step. Qed.
#[local] Hint Resolve keeps_validate_authority_precondition : keeps.

Lemma keeps_linkauth act : keeps tree (apply_besio_linkauth act).
Proof. unfold apply_besio_linkauth. keeps_step. Qed.
Lemma keeps_unlinkauth act : keeps tree (apply_besio_unlinkauth act).
Proof. unfold apply_besio_unlinkauth. keeps_step. Qed.
Lemma keeps_canceldelay act : keeps tree (apply_besio_canceldelay act).
Proof. unfold apply_besio_canceldelay, cancel_deferred_transaction. keeps_step. Qed.
End tree.
#[export] Hint Resolve keeps_validate_authority_precondition : keeps.

(** ** The permissions of accounts

    Every account has an owner permission at the top and an active permission below it,
    every permission belongs to an account, and only owner permissions are at the
    top. *)
Record accounts_ok (c : chain) : Prop := {
  ao_hierarchy : hierarchy (permissions (ch_auth c)) (next_permission (ch_auth c));
  ao_belongs : forall i p, permissions (ch_auth c) !! i = Some p -> i <> 0 ->
    is_Some (ch_accounts c !! po_owner p) /\ po_name p <> 0 /\
    (po_parent p = 0 <-> po_name p = owner_name);
  ao_named : ch_accounts c !! 0 = None;
  ao_has : forall a, is_Some (ch_accounts c !! a) -> exists o b,
    permissions (ch_auth c) !! po_id o = Some o /\ permissions (ch_auth c) !! po_id b = Some b /\
    po_owner o = a /\ po_name o = owner_name /\ po_parent o = 0 /\ po_id o <> 0 /\
    po_owner b = a /\ po_name b = active_name /\ po_parent b = po_id o
}.

Lemma accounts_ok_same c c' : tree c' = tree c -> accounts_ok c -> accounts_ok c'.
Proof.
  unfold tree. intros [= Ep En Ea] [H1 H2 H3 H4]. split.
  - by rewrite Ep, En.
  - by rewrite Ep, Ea.
  - by rewrite Ea.
  - by rewrite Ep, Ea.
Qed.

(** Replacing an account by one of the same name. *)
Lemma accounts_ok_replace c a x y :
  accounts_ok c -> ch_accounts c !! a = Some x ->
  accounts_ok (Chain (ch_auth c) (ch_limits c) (<[a := y]> (ch_accounts c)) (ch_sequences c)
    (ch_validate_ram c) (ch_used_authorizations c)).
Proof.
  intros [] Hx.
  assert (Hiff : forall b, is_Some (<[a := y]> (ch_accounts c) !! b) <-> is_Some (ch_accounts c !! b)).
  { intros b. destruct (decide (a = b)) as [<-|]; [rewrite lookup_insert_eq, Hx|rewrite lookup_insert_ne by done].
    - split; eauto.
    - done. }
  split; cbn.
  - done.
  - intros i p Hi Hi0. rewrite Hiff. exact (ao_belongs0 i p Hi Hi0).
  - rewrite lookup_insert_ne; [done|congruence].
  - intros b. rewrite Hiff. apply ao_has0.
Qed.

Lemma wp_get_account a Q c :
  (forall x, ch_accounts c !! a = Some x -> Q x c) -> wp (get_account a) Q c.
Proof.
  intros HQ. unfold get_account. do 3 wp_step. apply HQ.
  destruct (ch_accounts c !! a); [|done]. by injection H as ->.
Qed.

Lemma tree_accounts c c' : tree c' = tree c -> ch_accounts c = ch_accounts c'.
Proof. unfold tree. congruence. Qed.

(** Passing a call that keeps the tree. *)
Ltac wp_keep :=
  apply (wp_keeps tree); [solve [keeps_step]|];
  let a := fresh "a" in let c' := fresh "c" in let E := fresh "E" in intros a c' E;
  match goal with Hok : accounts_ok ?c |- _ =>
    try match goal with Hx : ch_accounts c !! _ = Some _ |- _ => rewrite (tree_accounts _ _ E) in Hx end;
    apply (accounts_ok_same _ _ E) in Hok; clear E end.

(** The invariant of the state reached so far. *)
Ltac wp_now tac :=
  match goal with Hok : accounts_ok _ |- wp _ _ ?c =>
    let H' := fresh in assert (accounts_ok c) as H' by tac; clear Hok; rename H' into Hok end.

Definition with_auth (a : auth_db) (c : chain) : chain :=
  Chain a (ch_limits c) (ch_accounts c) (ch_sequences c) (ch_validate_ram c) (ch_used_authorizations c).

Lemma wp_on_auth {A} (m : St auth_db A) Q c :
  wp m (fun x a => Q x (with_auth a c)) (ch_auth c) -> wp (on_auth m) Q c.
Proof. unfold wp, on_auth. by destruct (m (ch_auth c)) as [a [x|e]]. Qed.

(** A permission found by its level is a permission of the account. *)
Lemma found_permission c l p : accounts_ok c -> get_permission (ch_auth c) l = Ok p ->
  permissions (ch_auth c) !! po_id p = Some p /\ po_id p <> 0 /\ po_owner p = actor l /\ po_name p = permission l.
Proof.
  intros [] (Ha & Hn & i & Hi & Ho & Hp)%get_permission_found.
  destruct (h_id _ _ ao_hierarchy0 i p Hi) as [<- _].
  split_and!; try done. intros E0. destruct (h_root _ _ ao_hierarchy0) as (r & Hr & _ & Hr0 & _).
  rewrite E0 in Hi. congruence.
Qed.

Lemma find_permission_get db l p : find_permission db l = Ok (Some p) -> get_permission db l = Ok p.
Proof. unfold get_permission. by intros ->. Qed.

(** What creation does to the tables. *)
Definition created (a : auth_db) (p : permission_object) (a' : auth_db) : Prop :=
  po_id p = next_permission a /\
  permissions a' = <[po_id p := p]> (permissions a) /\ next_permission a' = next_permission a + 1 /\
  find_permissions (by_owner (po_owner p) (po_name p)) (permissions a) = None /\
  links a' = links a /\ generated a' = generated a.

Lemma wp_create account name parent auth t Q a :
  (forall p a', created a p a' -> po_owner p = account -> po_name p = name -> po_parent p = parent ->
     po_auth p = auth -> Q p a') ->
  wp (create_permission account name parent auth t) Q a.
Proof.
  intros HQ. unfold create_permission, set_usages, set_permissions. do 8 wp_step. bool_to_prop.
  wp_step. apply HQ; [|done..]. by split_and!.
Qed.

Lemma accounts_ok_create c p q a' :
  accounts_ok c -> created (ch_auth c) p a' -> is_Some (ch_accounts c !! po_owner p) -> po_name p <> 0 ->
  (po_parent p = 0 <-> po_name p = owner_name) ->
  permissions (ch_auth c) !! po_parent p = Some q -> (po_parent p <> 0 -> po_owner q = po_owner p) ->
  accounts_ok (with_auth a' c).
Proof.
  intros [Hh Hb Hn Hhas] (Hid & Hps & Hnext & Hnew & _) Hac Hname Htop Hq Hown.
  assert (Hz : po_owner p <> 0) by (intros E; rewrite E, Hn in Hac; by destruct Hac).
  assert (Hh' : hierarchy (<[next_permission (ch_auth c) := p]> (permissions (ch_auth c)))
                  (next_permission (ch_auth c) + 1)) by (by eapply hierarchy_create).
  assert (Hold : forall i s, permissions (ch_auth c) !! i = Some s -> permissions a' !! i = Some s).
  { intros i s Hs. rewrite Hps, lookup_insert_ne; [done|]. destruct (h_id _ _ Hh i s Hs). lia. }
  split; cbn [ch_auth ch_accounts with_auth].
  - by rewrite Hps, Hnext, Hid.
  - intros i s Hs Hi. rewrite Hps in Hs. apply lookup_insert_Some in Hs as [[_ <-]|[_ Hs]]; [done|].
    by apply (Hb i).
  - done.
  - intros x Hx. destruct (Hhas x Hx) as (o & b & Ho & Hb' & Hrest). exists o, b.
    split; [by apply Hold|]. split; [by apply Hold|done].
Qed.

(** Changing the authority of a permission. *)
Lemma accounts_ok_modify c p p' a' :
  accounts_ok c -> permissions (ch_auth c) !! po_id p = Some p ->
  permissions a' = <[po_id p := p']> (permissions (ch_auth c)) ->
  next_permission a' = next_permission (ch_auth c) ->
  po_id p' = po_id p -> po_parent p' = po_parent p -> po_owner p' = po_owner p -> po_name p' = po_name p ->
  accounts_ok (with_auth a' c).
Proof.
  intros [Hh Hb Hn Hhas] Hp Hps Hnext E1 E2 E3 E4.
  assert (Hold : forall s, permissions (ch_auth c) !! po_id s = Some s -> exists s',
    permissions a' !! po_id s' = Some s' /\ po_id s' = po_id s /\ po_parent s' = po_parent s /\
    po_owner s' = po_owner s /\ po_name s' = po_name s).
  { intros s Hs. destruct (decide (po_id s = po_id p)) as [E|Hne].
    - exists p'. rewrite Hps, E1, lookup_insert_eq. replace s with p by congruence. done.
    - exists s. rewrite Hps, lookup_insert_ne by done. done. }
  split; cbn [ch_auth ch_accounts with_auth].
  - rewrite Hps, Hnext. by apply hierarchy_modify.
  - intros i s Hs Hi. rewrite Hps in Hs. apply lookup_insert_Some in Hs as [[Hip <-]|[_ Hs]].
    + rewrite E2, E3, E4. apply (Hb (po_id p)); congruence.
    + by apply (Hb i).
  - done.
  - intros x Hx. destruct (Hhas x Hx) as (o & b & Ho & Hb' & R1 & R2 & R3 & R4 & R5 & R6 & R7).
    destruct (Hold o Ho) as (o' & Ho' & O1 & O2 & O3 & O4).
    destruct (Hold b Hb') as (b' & Hb'' & B1 & B2 & B3 & B4).
    exists o', b'. split_and!; congruence.
Qed.

(** Removing a permission that is neither owner nor active and has no children. *)
Lemma accounts_ok_remove c p a' :
  accounts_ok c -> permissions (ch_auth c) !! po_id p = Some p -> po_id p <> 0 ->
  po_name p <> owner_name -> po_name p <> active_name ->
  find_permissions (by_parent (po_id p)) (permissions (ch_auth c)) = None ->
  permissions a' = delete (po_id p) (permissions (ch_auth c)) ->
  next_permission a' = next_permission (ch_auth c) ->
  accounts_ok (with_auth a' c).
Proof.
  intros [Hh Hb Hn Hhas] Hp H0' Hno Hna Hch Hps Hnext.
  assert (Hold : forall s, permissions (ch_auth c) !! po_id s = Some s -> po_name s <> po_name p ->
    permissions a' !! po_id s = Some s).
  { intros s Hs Hne. rewrite Hps, lookup_delete_ne; [done|]. intros E. rewrite E in Hp. congruence. }
  split; cbn [ch_auth ch_accounts with_auth].
  - rewrite Hps, Hnext. by apply hierarchy_remove.
  - intros i s Hs. rewrite Hps in Hs. apply lookup_delete_Some in Hs as [_ Hs]. by apply (Hb i).
  - done.
  - intros x Hx. destruct (Hhas x Hx) as (o & b & Ho & Hb' & R1 & R2 & R3 & R4 & R5 & R6 & R7).
    exists o, b. split_and!; try done; apply Hold; congruence.
Qed.

(** Adding an account together with its owner and active permissions. *)
Lemma accounts_ok_new c c' n x o a1 b a2 :
  accounts_ok c -> ch_accounts c !! n = None -> n <> 0 ->
  tree c' = (permissions (ch_auth c), next_permission (ch_auth c), <[n := x]> (ch_accounts c)) ->
  created (ch_auth c') o a1 -> po_owner o = n -> po_name o = owner_name -> po_parent o = 0 ->
  created a1 b a2 -> po_owner b = n -> po_name b = active_name -> po_parent b = po_id o ->
  accounts_ok (with_auth a2 c').
Proof.
  unfold tree. intros [Hh Hb Hn Hhas] Hnew Hn0 [= Ep En Ea] (Io & Po & No & Fo & _) Oo Mo Ro (Ib & Pb & Nb & Fb & _) Ob Mb Rb.
  rewrite Ep, En in *. destruct (h_root _ _ Hh) as (r & Hr & Hrp & Hro & Hrn).
  destruct (h_id _ _ Hh _ _ Hr) as [_ Hnx].
  assert (Hh1 : hierarchy (permissions a1) (next_permission a1)).
  { rewrite Po, No, Io. apply (hierarchy_create _ _ o r); try done; congruence. }
  assert (Hoo : permissions a1 !! po_id o = Some o) by (by rewrite Po, lookup_insert_eq).
  assert (Hh2 : hierarchy (permissions a2) (next_permission a2)).
  { rewrite Pb, Nb, Ib. apply (hierarchy_create _ _ b o); try done; congruence. }
  assert (Hold : forall i s, permissions (ch_auth c) !! i = Some s -> permissions a2 !! i = Some s).
  { intros i s Hs. destruct (h_id _ _ Hh i s Hs). rewrite Pb, lookup_insert_ne, Po, lookup_insert_ne by lia. done. }
  assert (Hon : owner_name <> 0 /\ active_name <> 0 /\ active_name <> owner_name) by (by vm_compute).
  split; cbn [ch_auth ch_accounts with_auth]; rewrite ?Ea.
  - done.
  - intros i s Hs Hi. rewrite Pb, Po in Hs. apply lookup_insert_Some in Hs as [[_ <-]|[_ Hs]].
    + rewrite Ob, Mb, Rb, lookup_insert_eq. split_and!; [eauto|tauto|]. split; [lia|tauto].
    + apply lookup_insert_Some in Hs as [[_ <-]|[_ Hs]].
      * rewrite Oo, Mo, Ro, lookup_insert_eq. split_and!; [eauto|tauto|done].
      * destruct (Hb i s Hs Hi) as (Hs1 & Hs2 & Hs3). split_and!; [|done..].
        rewrite lookup_insert_ne; [done|]. intros E. rewrite <- E, Hnew in Hs1. by destruct Hs1.
  - by rewrite lookup_insert_ne.
  - intros y Hy. apply lookup_insert_is_Some in Hy as [<-|[_ Hy]].
    + exists o, b. split_and!; try done; [|by rewrite Pb, lookup_insert_eq|lia].
      rewrite Pb, lookup_insert_ne; [done|lia].
    + destruct (Hhas y Hy) as (o' & b' & H1' & H2' & Hrest). exists o', b'.
      split; [by apply Hold|]. split; [by apply Hold|done].
Qed.

(** Passing calls that keep the tree, remembering only that they do. *)
Lemma wp_same {A} (m : M A) Q c T :
  keeps tree m -> tree c = T -> (forall a c', tree c' = T -> Q a c') -> wp m Q c.
Proof. intros Hk <- HQ. apply (wp_keeps tree); [done|]. intros a c' E. by apply HQ. Qed.

Lemma wp_auth_query {A} (f : auth_db -> result A) Q c :
  (forall a, f (ch_auth c) = Ok a -> Q a c) -> wp (auth_query f) Q c.
Proof. intros HQ. unfold auth_query. do 3 wp_step. by apply HQ. Qed.

(** The permission under which [updateauth] puts a permission. *)
Lemma wp_parent_id account name parent Q c :
  accounts_ok c ->
  (forall i q, permissions (ch_auth c) !! i = Some q -> (i = 0 <-> name = owner_name) ->
     (i <> 0 -> po_owner q = account) -> Q i c) ->
  wp (if name =? owner_name then mret 0 else
      p ← auth_query (fun db => get_permission db (PermissionLevel account parent)); mret (po_id p)) Q c.
Proof.
  intros Hc HQ. destruct (h_root _ _ (ao_hierarchy _ Hc)) as (r & Hr & _).
  wp_step; bool_to_prop; wp_step; [by apply (HQ 0 r)|].
  apply wp_auth_query. intros p Hp. wp_step.
  destruct (found_permission _ _ _ Hc Hp) as (H1 & H2 & H3 & _). by apply (HQ _ p).
Qed.

(** ** The handlers keep the permissions of accounts *)
Section handlers_ok.
Context `{NativeEnv}.

Lemma setcode_accounts_ok act c : accounts_ok c -> wp (apply_besio_setcode act) (fun _ c' => accounts_ok c') c.
Proof.
  intros Hc. unfold apply_besio_setcode, set_accounts. do 3 wp_step. wp_keep. do 5 wp_step. wp_keep.
  wp_step. apply wp_get_account. intros x Hx. do 6 wp_step.
  wp_now ltac:(eapply accounts_ok_replace; eassumption). do 3 wp_step. wp_keep. wp_step; [|wp_keep]; done.
Qed.

Lemma setabi_accounts_ok act c : accounts_ok c -> wp (apply_besio_setabi act) (fun _ c' => accounts_ok c') c.
Proof.
  intros Hc. unfold apply_besio_setabi, set_accounts. do 3 wp_step. wp_keep.
  wp_step. apply wp_get_account. intros x Hx. do 4 wp_step.
  wp_now ltac:(eapply accounts_ok_replace; eassumption). do 3 wp_step. wp_keep. wp_step; [|wp_keep]; done.
Qed.

Lemma newaccount_accounts_ok act c :
  accounts_ok c -> wp (apply_besio_newaccount act) (fun _ c' => accounts_ok c') c.
Proof.
  intros Hc. unfold apply_besio_newaccount, set_accounts, set_sequences.
  do 3 wp_step. wp_keep. do 9 wp_step. wp_keep. wp_step. wp_keep. do 10 wp_step. bool_to_prop.
  wp_step. eapply wp_same; [solve [keeps_step]|reflexivity|]. intros _ c4 E4.
  wp_step. eapply wp_same; [solve [keeps_step]|exact E4|]. intros _ c5 E5.
  wp_step. apply wp_on_auth, wp_create. intros o a' Ho O1 O2 O3 _.
  wp_step. apply wp_on_auth, wp_create. intros b b' Hb B1 B2 B3 _. cbv beta.
  wp_now ltac:(by eapply (accounts_ok_new c2 c5)).
  wp_step. wp_keep. wp_keep. done.
Qed.

Lemma updateauth_accounts_ok act c :
  accounts_ok c -> wp (apply_besio_updateauth act) (fun _ c' => accounts_ok c') c.
Proof.
  intros Hc. unfold apply_besio_updateauth, modify_permission, set_permissions.
  do 3 wp_step. wp_keep. do 7 wp_step. apply wp_get_account. intros x Hx. do 3 wp_step.
  do 2 (wp_keep; wp_step). wp_step. wp_step. wp_keep. wp_step. wp_keep. wp_step. bool_to_prop.
  apply wp_auth_query. intros found Hf. wp_step. apply wp_parent_id; [done|]. intros i q Hi Hn Ho.
  wp_step.
  - apply find_permission_get in Hf. destruct (found_permission _ _ _ Hc Hf) as (H1' & _).
    wp_step. wp_step. wp_step. apply wp_on_auth. do 3 wp_step.
    wp_now ltac:(eapply accounts_ok_modify; [done|exact H1'|reflexivity..]). wp_keep. done.
  - wp_step. apply wp_on_auth, wp_create. intros p a' Hp P1 P2 P3 _. cbv beta.
    wp_now ltac:(eapply (accounts_ok_create _ p q); rewrite ?P1, ?P2, ?P3; done). wp_keep. done.
Qed.

Lemma deleteauth_accounts_ok act c :
  accounts_ok c -> wp (apply_besio_deleteauth act) (fun _ c' => accounts_ok c') c.
Proof.
  intros Hc. unfold apply_besio_deleteauth, remove_permission, set_usages, set_permissions.
  do 3 wp_step. wp_keep. do 9 wp_step. apply wp_auth_query. intros p Hp.
  destruct (found_permission _ _ _ Hc Hp) as (H1' & H2' & _ & H4').
  wp_step. apply wp_on_auth. do 9 wp_step. bool_to_prop.
  wp_now ltac:(eapply accounts_ok_remove; try done; cbn in *; congruence). wp_keep. done.
Qed.
End handlers_ok.
