(* ===== verification/Controller.v ===== *)
(** * Controller

    Model of the parts of [controller.cpp] that decide who may act on the chain: the
    accounts of the genesis state, the table of native handlers and its use by
    [exec_one] of [apply_context.cpp], the authorities of the producers' account, the
    node's lists of contracts and actions, the checks of an incoming transaction, and
    the notification that accompanies it. *)
From Stdlib Require Import Ascii String.
From S2P Require Import Prelude Merkle BlockHeaderState Names Raw Authority Transactions.
From S2P Require Import AuthorizationManager ResourceLimits NativeContract.

(** ** Names of [config.hpp] *)
Definition null_account_name : Z := Eval vm_compute in N "besio.null".
Definition producers_account_name : Z := Eval vm_compute in N "besio.prods".
Definition majority_producers_permission_name : Z := Eval vm_compute in N "prod.major".
Definition minority_producers_permission_name : Z := Eval vm_compute in N "prod.minor".

(** ** Genesis *)
Definition create_native_account (initial_timestamp : Z) (system_abi : bytes) (name : account_name)
    (owner active : authority) (is_privileged : bool) : M unit :=
  c ← get;
  _ ← st_assert (bool_decide (ch_accounts c !! name = None)) logic_error;
  let abi := if name =? system_account_name then system_abi else [] in
  _ ← set_accounts (<[name := AccountObject 0 0 is_privileged 0 digest_nil
                       (Timestamp.set_time_point initial_timestamp) [] abi]> (ch_accounts c));
  _ ← st_assert (bool_decide (ch_sequences c !! name = None)) logic_error;
  _ ← set_sequences (<[name := AccountSequence 0 0 0 0]> (ch_sequences c));
  owner_permission ← on_auth (create_permission name owner_name 0 owner initial_timestamp);
  active_permission ← on_auth (create_permission name active_name (po_id owner_permission) active
                                 initial_timestamp);
  _ ← on_limits (initialize_account name);
  let ram_delta := i64 (overhead_per_account_ram_bytes + 2 * permission_object_size
                        + billable (po_auth owner_permission) + billable (po_auth active_permission)) in
  _ ← on_limits (add_pending_ram_usage name ram_delta);
  on_limits (verify_account_ram_usage name).

(** The permissions and accounts that [initialize_database] creates, given the genesis key
    and time and the packed interface of the system contract. *)
Definition initialize_accounts (initial_timestamp : Z) (initial_key : public_key) (system_abi : bytes) : M unit :=
  _ ← on_auth AuthorizationManager.initialize_database;
  _ ← on_limits (modify_st (fun _ => ResourceLimits.initialize_database));
  let system_auth := key_authority initial_key 0 in
  _ ← create_native_account initial_timestamp system_abi system_account_name system_auth system_auth true;
  let empty_authority := Authority 1 [] [] [] in
  let active_producers_authority := Authority 1 []
    [PermissionLevelWeight (PermissionLevel system_account_name active_name) 1] [] in
  _ ← create_native_account initial_timestamp system_abi null_account_name empty_authority empty_authority false;
  _ ← create_native_account initial_timestamp system_abi producers_account_name empty_authority
        active_producers_authority false;
  active_permission ← auth_query (fun db =>
    get_permission db (PermissionLevel producers_account_name active_name));
  majority_permission ← on_auth (create_permission producers_account_name majority_producers_permission_name
    (po_id active_permission) active_producers_authority initial_timestamp);
  minority_permission ← on_auth (create_permission producers_account_name minority_producers_permission_name
    (po_id majority_permission) active_producers_authority initial_timestamp);
  mret tt.

(** The database before it is initialized: empty tables. *)
Definition empty_chain (t : Z) (depth delay : Z) : chain :=
  Chain (AuthDb ∅ 0 ∅ 0 ∅ [] t depth delay) ResourceLimits.initialize_database ∅ ∅ ∅ [].

(** ** The producers' account *)
Definition producers_authority (producers : list account_name) (threshold : Z) : authority :=
  Authority threshold [] (map (fun p => PermissionLevelWeight (PermissionLevel p active_name) 1) producers) [].

(** [calculate_threshold], in 32 bits. *)
Definition calculate_threshold (num_producers numerator denominator : Z) : Z :=
  u32 (u32 (num_producers * numerator) / denominator + 1).

(** [update_permission]: only the authority is replaced, and only when it differs. *)
Definition update_permission (name : permission_name) (auth : authority) : M unit :=
  p ← auth_query (fun db => get_permission db (PermissionLevel producers_account_name name));
  if bool_decide (po_auth p = auth) then mret tt
  else on_auth (
    db ← get;
    set_permissions (<[po_id p := PermissionObject (po_id p) (po_usage_id p) (po_parent p) (po_owner p)
                                    (po_name p) (po_last_updated p) auth]> (permissions db))
      (next_permission db)).

Definition update_producers_authority (producers : list account_name) : M unit :=
  let num_producers := u32 (Z.of_nat (length producers)) in
  _ ← update_permission active_name
        (producers_authority producers (calculate_threshold num_producers 2 3));
  _ ← update_permission majority_producers_permission_name
        (producers_authority producers (calculate_threshold num_producers 1 2));
  update_permission minority_producers_permission_name
    (producers_authority producers (calculate_threshold num_producers 1 3)).

(** [set_privileged] of the privileged interface of contracts. *)
Definition set_privileged (n : account_name) (is_priv : bool) : M unit :=
  a ← get_account n;
  c ← get;
  set_accounts (<[n := AccountObject (ac_vm_type a) (ac_vm_version a) is_priv (ac_last_code_update a)
                         (ac_code_version a) (ac_creation_date a) (ac_code a) (ac_abi a)]> (ch_accounts c)).

(** ** Lists of the node *)
Definition check_contract_list (conf : node_config) (code : account_name) : result unit :=
  match contract_whitelist conf with
  | _ :: _ => bes_assert (bool_decide (code ∈ contract_whitelist conf)) contract_whitelist_exception
  | [] =>
      match contract_blacklist conf with
      | [] => mret tt
      | l => bes_assert (negb (bool_decide (code ∈ l))) contract_blacklist_exception
      end
  end.
Definition check_action_list (conf : node_config) (code : account_name) (act : Z) : result unit :=
  match action_blacklist conf with
  | [] => mret tt
  | l => bes_assert (negb (bool_decide ((code, act) ∈ l))) action_blacklist_exception
  end.

(** ** Native handlers *)
Section dispatch.
Context `{NativeEnv}.

(** The table filled with [SET_APP_HANDLER]; the receiver and the contract of every
    handler is the system account. *)
Definition apply_handlers : list ((account_name * account_name * Z) * (action -> M unit)) :=
  map (fun '(a, h) => ((system_account_name, system_account_name, a), h))
    [(newaccount_name, apply_besio_newaccount);
     (setcode_name, apply_besio_setcode);
     (setabi_name, apply_besio_setabi);
     (updateauth_name, apply_besio_updateauth);
     (deleteauth_name, apply_besio_deleteauth);
     (linkauth_name, apply_besio_linkauth);
     (unlinkauth_name, apply_besio_unlinkauth);
     (canceldelay_name, apply_besio_canceldelay)].

Definition find_apply_handler (receiver scope : account_name) (act : Z) : option (action -> M unit) :=
  snd <$> head (filter (fun h => h.1 = (receiver, scope, act)) apply_handlers).

(** The native half of [exec_one], in a context made for the action, where none of its
    authorizations is used yet. *)
Definition exec_native (can_subjectively_fail : bool) (receiver : account_name) (act : action) : M unit :=
  _ ← modify_st (fun c => Chain (ch_auth c) (ch_limits c) (ch_accounts c) (ch_sequences c) (ch_validate_ram c)
                            (replicate (length (act_authorization act)) false));
  _ ← get_account receiver;
  match find_apply_handler receiver (act_account act) (act_name act) with
  | Some native =>
      _ ← (if can_subjectively_fail && is_producing_block then
             _ ← lift (check_contract_list conf receiver);
             lift (check_action_list conf (act_account act) (act_name act))
           else mret tt);
      native act
  | None => mret tt
  end.
End dispatch.

(** ** Checks of a transaction *)
Definition check_authorizing (c : chain) (auth : permission_level) : result unit :=
  _ ← bes_assert (bool_decide (is_Some (ch_accounts c !! actor auth))) transaction_exception;
  p ← find_permission (ch_auth c) auth;
  bes_assert (bool_decide (is_Some p)) transaction_exception.
Fixpoint for_all {A} (f : A -> result unit) (l : list A) : result unit :=
  match l with
  | [] => mret tt
  | a :: l => _ ← f a; for_all f l
  end.
Definition validate_referenced_accounts (c : chain) (trx : transaction) : result unit :=
  _ ← for_all (fun a =>
        _ ← bes_assert (bool_decide (is_Some (ch_accounts c !! act_account a))) transaction_exception;
        bes_assert (bool_decide (act_authorization a = [])) transaction_exception) (context_free_actions trx);
  _ ← for_all (fun a =>
        _ ← bes_assert (bool_decide (is_Some (ch_accounts c !! act_account a))) transaction_exception;
        for_all (check_authorizing c) (act_authorization a)) (trx_actions trx);
  let one_auth := existsb (fun a => negb (bool_decide (act_authorization a = []))) (trx_actions trx) in
  bes_assert one_auth tx_no_auths.

(** Times in microseconds, the expiration in seconds. *)
Definition validate_expiration (pending_block_time max_transaction_lifetime : Z) (h : transaction_header)
    : result unit :=
  let t := seconds (expiration h) in
  _ ← bes_assert (pending_block_time <=? t) expired_tx_exception;
  bes_assert (t <=? pending_block_time + seconds max_transaction_lifetime) tx_exp_too_far_exception.

(** The block summary of the reference block number, among the last 65536 blocks. *)
Definition validate_tapos (summaries : Z -> digest) (h : transaction_header) : result unit :=
  bes_assert (verify_reference_block (summaries (ref_block_num h)) h) invalid_ref_block_exception.

(** ** The memory notification

    Before it executes an input transaction [push_transaction] pushes another one on behalf
    of [trx.actions[0].authorization[0].actor]. Indexing past the end is undefined. *)
Definition notified_actor (trx : transaction) : result account_name :=
  match trx_actions trx with
  | a :: _ => match act_authorization a with u :: _ => mret (actor u) | [] => Throw undefined_behaviour end
  | [] => Throw undefined_behaviour
  end.

Definition onramusage_name : Z := Eval vm_compute in N "onramusage".
Definition get_on_upramusage_transaction (head_block_id : digest) (pending_block_time : Z)
    (a : account_name) : result transaction :=
  data ← pack_value c_name a;
  let act := Action system_account_name onramusage_name [PermissionLevel a active_name] data in
  let h := set_reference_block head_block_id (TransactionHeader 0 0 0 0 0 0) in
  let expiration := u32 (Z.quot (pending_block_time + 999999) 1000000) in
  mret (Transaction (TransactionHeader expiration (ref_block_num h) (ref_block_prefix h)
                       (max_net_usage_words h) (max_cpu_usage_ms h) (delay_sec h)) [] [act] []).

(** ** Reachable states

    The native actions, the producers' authorities and [set_privileged] are all the code
    that writes the tables of permissions and accounts; what throws is undone. Anything
    else a node does leaves the two tables as they are. *)
Inductive reachable : chain -> Prop :=
| reach_genesis initial_timestamp initial_key system_abi t depth delay c :
    initialize_accounts initial_timestamp initial_key system_abi (empty_chain t depth delay) = (c, Ok tt) ->
    reachable c
| reach_action (env : NativeEnv) can_subjectively_fail receiver act c c' :
    reachable c -> exec_native can_subjectively_fail receiver act c = (c', Ok tt) -> reachable c'
| reach_producers producers c c' :
    reachable c -> update_producers_authority producers c = (c', Ok tt) -> reachable c'
| reach_privileged n b c c' : reachable c -> set_privileged n b c = (c', Ok tt) -> reachable c'
| reach_other c c' : reachable c -> tree c' = tree c -> reachable c'.

Lemma create_native_account_ok ts abi name owner active b c :
  name <> 0 -> accounts_ok c ->
  wp (create_native_account ts abi name owner active b) (fun _ c' => accounts_ok c') c.
Proof.
  intros Hn Hc. unfold create_native_account, set_accounts, set_sequences.
  do 10 wp_step. bool_to_prop.
  wp_step. apply wp_on_auth, wp_create. intros o a' Ho O1 O2 O3 _.
  wp_step. apply wp_on_auth, wp_create. intros p b' Hp P1 P2 P3 _. cbv beta.
  match goal with |- wp _ _ (with_auth _ (with_auth _ ?s)) =>
    wp_now ltac:(eapply (accounts_ok_new c s); [exact Hc|eassumption|exact Hn|reflexivity|exact Ho|done..]) end.
  do 3 (try wp_step; wp_keep). done.
Qed.

Lemma empty_accounts_ok t depth delay :
  wp (on_auth AuthorizationManager.initialize_database) (fun _ c => accounts_ok c) (empty_chain t depth delay).
Proof.
  apply wp_on_auth. unfold AuthorizationManager.initialize_database, set_permissions. do 3 wp_step.
  split; cbn.
  - split.
    + intros i p [[<- <-]|[_ Hp]]%lookup_insert_Some; [by cbn|done].
    + eexists. by rewrite lookup_insert_eq.
    + intros i p [[<- <-]|[_ Hp]]%lookup_insert_Some; done.
    + intros i j p q [[<- <-]|[_ Hp]]%lookup_insert_Some [[<- <-]|[_ Hq]]%lookup_insert_Some; done.
  - intros i p [[<- <-]|[_ Hp]]%lookup_insert_Some; done.
  - done.
  - intros a [x Hx]. done.
Qed.

(** Creating a permission below an existing one of the same account. *)
Lemma wp_create_below account name parent auth t (Q : permission_object -> chain -> Prop) c :
  accounts_ok c -> permissions (ch_auth c) !! po_id parent = Some parent -> po_id parent <> 0 ->
  po_owner parent = account -> name <> 0 -> name <> owner_name ->
  (forall p c', accounts_ok c' -> permissions (ch_auth c') !! po_id p = Some p -> po_id p <> 0 ->
     po_owner p = account -> Q p c') ->
  wp (on_auth (create_permission account name (po_id parent) auth t)) Q c.
Proof.
  intros Hc Hp H0 Hown Hn Hno HQ. apply wp_on_auth, wp_create. intros p a' Hcr P1 P2 P3 _.
  destruct (ao_belongs _ Hc _ _ Hp H0) as (Hacc & _).
  destruct (h_id _ _ (ao_hierarchy _ Hc) _ _ Hp) as [_ Hr].
  pose proof Hcr as (Hid & Hps & _).
  apply HQ.
  - eapply (accounts_ok_create c p parent); rewrite ?P1, ?P2, ?P3; try done. by rewrite <- Hown.
  - cbn. by rewrite Hps, lookup_insert_eq.
  - lia.
  - done.
Qed.

Lemma initialize_accounts_ok ts key abi t depth delay :
  wp (initialize_accounts ts key abi) (fun _ c => accounts_ok c) (empty_chain t depth delay).
Proof.
  unfold initialize_accounts. wp_step. eapply wp_mono; [apply empty_accounts_ok|]. cbv beta. intros _ c Hc.
  wp_step. wp_keep.
  do 3 (wp_step; eapply wp_mono; [by apply create_native_account_ok|]; cbv beta; intros _ ? ?).
  wp_step. apply wp_auth_query. intros p Hp. apply found_permission in Hp as (P1 & P2 & P3 & _); [|done].
  wp_step. apply wp_create_below; try done. intros q c' Hc' Q1 Q2 Q3.
  wp_step. apply wp_create_below; try done.
Qed.

Lemma update_permission_ok name auth c :
  accounts_ok c -> wp (update_permission name auth) (fun _ c' => accounts_ok c') c.
Proof.
  intros Hc. unfold update_permission, set_permissions. wp_step. apply wp_auth_query. intros p Hp.
  destruct (found_permission _ _ _ Hc Hp) as (P1 & _). wp_step; [by wp_step|].
  apply wp_on_auth. do 3 wp_step. eapply accounts_ok_modify; [done|exact P1|reflexivity..].
Qed.

Lemma update_producers_authority_ok producers c :
  accounts_ok c -> wp (update_producers_authority producers) (fun _ c' => accounts_ok c') c.
Proof.
  intros Hc. unfold update_producers_authority.
  do 2 (wp_step; eapply wp_mono; [by apply update_permission_ok|]; cbv beta; intros _ ? ?).
  by apply update_permission_ok.
Qed.

Lemma set_privileged_ok n b c : accounts_ok c -> wp (set_privileged n b) (fun _ c' => accounts_ok c') c.
Proof.
  intros Hc. unfold set_privileged, set_accounts. wp_step. apply wp_get_account. intros x Hx.
  do 3 wp_step. by eapply accounts_ok_replace.
Qed.

Lemma keeps_accounts_ok (m : M unit) c : keeps tree m -> accounts_ok c -> wp m (fun _ c' => accounts_ok c') c.
Proof. intros Hk Hc. apply (wp_keeps tree); [done|]. intros _ c' E. by apply (accounts_ok_same c). Qed.

(** A handler that is found is one of the eight. *)
Lemma find_apply_handler_cases `{NativeEnv} receiver scope name h (P : (action -> M unit) -> Prop) :
  find_apply_handler receiver scope name = Some h ->
  P apply_besio_newaccount -> P apply_besio_setcode -> P apply_besio_setabi -> P apply_besio_updateauth ->
  P apply_besio_deleteauth -> P apply_besio_linkauth -> P apply_besio_unlinkauth -> P apply_besio_canceldelay -> P h.
Proof.
  unfold find_apply_handler. rewrite fmap_Some. intros ([k h'] & Hh & ->) ????????. cbn.
  assert (Hin : (k, h') ∈ apply_handlers).
  { assert ((k, h') ∈ filter (fun h => h.1 = (receiver, scope, name)) apply_handlers) as [_ Hin]%list_elem_of_filter; [|done].
    destruct (filter _ _); [done|]. injection Hh as ->. by left. }
  unfold apply_handlers in Hin. cbn in Hin. rewrite !elem_of_cons in Hin.
  repeat destruct Hin as [[= -> ->]|Hin]; [done..|by apply elem_of_nil in Hin].
Qed.

Lemma handler_ok `{NativeEnv} receiver scope name h act c :
  find_apply_handler receiver scope name = Some h -> accounts_ok c -> wp (h act) (fun _ c' => accounts_ok c') c.
Proof.
  intros Hh Hc. pattern h. apply (find_apply_handler_cases _ _ _ _ _ Hh).
  - by apply newaccount_accounts_ok.
  - by apply setcode_accounts_ok.
  - by apply setabi_accounts_ok.
  - by apply updateauth_accounts_ok.
  - by apply deleteauth_accounts_ok.
  - apply keeps_accounts_ok; [apply keeps_linkauth|done].
  - apply keeps_accounts_ok; [apply keeps_unlinkauth|done].
  - apply keeps_accounts_ok; [apply keeps_canceldelay|done].
Qed.

Lemma exec_native_ok `{NativeEnv} csf receiver act c :
  accounts_ok c -> wp (exec_native csf receiver act) (fun _ c' => accounts_ok c') c.
Proof.
  intros Hc. unfold exec_native. wp_step. wp_keep. wp_step. wp_keep.
  wp_step; [|by wp_step]. wp_step. wp_keep. by eapply handler_ok.
Qed.

Lemma reachable_inv (c : chain) : reachable c -> accounts_ok c.
Proof.
  induction 1 as [ts key abi t d l c Hr|env csf r act c c' _ IH Hr|ps c c' _ IH Hr|n b c c' _ IH Hr|c c' _ IH Hr].
  - exact (wp_ok _ _ _ _ _ (initialize_accounts_ok ts key abi t d l) Hr).
  - exact (wp_ok _ _ _ _ _ (exec_native_ok csf r act c IH) Hr).
  - exact (wp_ok _ _ _ _ _ (update_producers_authority_ok ps c IH) Hr).
  - exact (wp_ok _ _ _ _ _ (set_privileged_ok n b c IH) Hr).
  - by eapply accounts_ok_same.
Qed.

(** The owner permission of an account is above each of its permissions. *)
Lemma owner_ancestor c o : accounts_ok c ->
  permissions (ch_auth c) !! po_id o = Some o -> po_id o <> 0 -> po_name o = owner_name ->
  forall n p, Z.to_nat (po_id p) = n -> permissions (ch_auth c) !! po_id p = Some p -> po_id p <> 0 ->
  po_owner p = po_owner o -> ancestor (permissions (ch_auth c)) (po_id o) (po_id p).
Proof.
  intros [Hh Hb _ _] Ho Ho0 Hon n. induction (lt_wf n) as [n _ IH]. intros p Hn Hp Hp0 Hown.
  destruct (Hb _ _ Hp Hp0) as (_ & _ & Htop).
  destruct (h_parent _ _ Hh _ _ Hp Hp0) as (Hlt & _ & q & Hq & Hqo).
  destruct (decide (po_parent p = 0)) as [E|E].
  - rewrite (h_unique _ _ Hh _ _ _ _ Hp Ho Hown); [apply anc_self|]. by rewrite Hon, <- Htop.
  - eapply anc_up; [exact Hp|done|]. destruct (h_id _ _ Hh _ _ Hq) as [Hqi Hqr].
    rewrite <- Hqi. eapply (IH (Z.to_nat (po_id q))); try done; try lia.
    by rewrite Hqi.
Qed.

Lemma get_permission_of c p : accounts_ok c ->
  permissions (ch_auth c) !! po_id p = Some p -> po_id p <> 0 ->
  get_permission (ch_auth c) (PermissionLevel (po_owner p) (po_name p)) = Ok p.
Proof.
  intros [Hh Hb Hn _] Hp Hp0. destruct (Hb _ _ Hp Hp0) as ([x Hx] & Hnm & _).
  assert (po_owner p <> 0) by congruence. unfold get_permission, find_permission. cbn [actor permission].
  replace (negb (po_owner p =? 0)) with true by lia. replace (negb (po_name p =? 0)) with true by lia. cbn.
  destruct (find_permissions _ _) as [q|] eqn:Hf.
  - apply find_permissions_some in Hf as (i & Hi & Hq). unfold by_owner in Hq. bool_to_prop.
    assert (i = po_id p) as -> by (by eapply h_unique). assert (q = p) as -> by congruence. done.
  - apply (find_permissions_none _ _ _ _ Hf) in Hp. unfold by_owner in Hp. by rewrite !Z.eqb_refl in Hp.
Qed.

(** C7 From the genesis state on, whatever sequence of native actions, producer changes and
    privilege changes is applied: the permissions form one forest that hangs below the
    reserved permission 0, every permission belongs to an existing account and has a
    parent of the same account with a smaller id, names are unique within an account, every
    account has an owner permission at the top and an active permission below it, and
    no other permission is at the top. *)
Theorem reachable_accounts_ok (c : chain) : reachable c -> accounts_ok c.
Proof. apply reachable_inv. Qed.

(** In every reachable state an account that exists has an owner permission, and that
    permission satisfies each permission of the account and none of another account. *)
Theorem owner_satisfies_every_permission (c : chain) (a : account_name) :
  reachable c -> is_Some (ch_accounts c !! a) ->
  exists o, get_permission (ch_auth c) (PermissionLevel a owner_name) = Ok o /\
    forall l p, get_permission (ch_auth c) l = Ok p ->
      satisfies (permissions (ch_auth c)) o p = Ok (bool_decide (actor l = a)).
Proof.
  intros Hc%reachable_inv Ha. destruct (ao_has _ Hc a Ha) as (o & b & Ho & _ & O1 & O2 & O3 & O4 & _).
  exists o. split; [by rewrite <- O1, <- O2; apply get_permission_of|].
  intros l p Hp. destruct (found_permission _ _ _ Hc Hp) as (P1 & P2 & P3 & _).
  destruct (satisfies_spec _ _ (ao_hierarchy _ Hc) o p Ho P1 O4 P2) as (s & Hs & Hiff). rewrite Hs. f_equal.
  destruct (decide (actor l = a)) as [E|E]; [rewrite bool_decide_eq_true_2 by done|rewrite bool_decide_eq_false_2 by done].
  - apply Hiff. eapply (owner_ancestor c o Hc); [done..| |done|done|]; [reflexivity|congruence].
  - destruct s; [|done]. pose proof (proj1 Hiff eq_refl) as Han.
    pose proof (ancestor_owner _ _ (ao_hierarchy _ Hc) _ _ _ _ Han P2 Ho P1). congruence.
Qed.

(** ** Links to permissions of other accounts *)
Lemma keeps_auth_on_limits {A} (m : St rl_db A) : keeps ch_auth (on_limits m).
Proof. intros c. unfold on_limits. by destruct (m (ch_limits c)). Qed.
Lemma keeps_auth_require_authorization act a : keeps ch_auth (require_authorization act a).
Proof. unfold require_authorization. keeps_step. Qed.
#[export] Hint Resolve keeps_auth_on_limits keeps_auth_require_authorization : keeps.
Lemma keeps_auth_add_ram_usage a d : keeps ch_auth (add_ram_usage a d).
Proof. unfold add_ram_usage. keeps_step. Qed.
#[export] Hint Resolve keeps_auth_add_ram_usage : keeps.

(** What [linkauth] writes. *)
Lemma linkauth_links act d c : data_as t_linkauth act = Ok d ->
  wp (apply_besio_linkauth act) (fun _ c' =>
    permissions (ch_auth c') = permissions (ch_auth c) /\
    links (ch_auth c') = <[(la_account d, la_code d, la_type d) := la_requirement d]> (links (ch_auth c))) c.
Proof.
  intros Hd. unfold apply_besio_linkauth, set_links. do 2 wp_step.
  match goal with E : data_as _ _ = Ok ?a |- _ => assert (a = d) as -> by congruence end.
  do 3 wp_step. apply (wp_keeps ch_auth); [keeps_step|]. intros _ c1 E1. do 7 wp_step.
  apply (wp_keeps ch_auth); [keeps_step|]. intros _ c2 E2. wp_step; wp_step.
  - wp_step. apply wp_on_auth. wp_step. cbn. by rewrite E2, E1.
  - apply wp_on_auth. wp_step. apply (wp_keeps ch_auth); [keeps_step|]. intros _ c3 E3. cbn in E3.
    rewrite E3. cbn. by rewrite E2, E1.
Qed.

(** The permission a [linkauth] names is looked up by name among the permissions of all
    accounts. An account can therefore link actions of a contract to a permission it
    does not have; from then on, until it creates one of that name, no authorization of
    the account is accepted for those actions, for another link of them, or for removing the
    link. *)
Theorem linkauth_foreign_permission_locks (act : action) (d : linkauth) (c c' : chain) :
  data_as t_linkauth act = Ok d -> apply_besio_linkauth act c = (c', Ok tt) ->
  la_requirement d <> besio_any_name ->
  (forall p, get_permission (ch_auth c) (PermissionLevel (la_account d) (la_requirement d)) <> Ok p) ->
  let db := ch_auth c' in
  (forall auths, check_unlinkauth_authorization db
     (Unlinkauth (la_account d) (la_code d) (la_type d)) auths <> Ok tt) /\
  (forall auths r, check_linkauth_authorization db
     (Linkauth (la_account d) (la_code d) (la_type d) r) auths <> Ok tt) /\
  (forall auth data, actor auth = la_account d ->
     check_minimum db (Action (la_code d) (la_type d) [auth] data) auth <> Ok tt).
Proof.
  intros Hd Hrun Hany Hno db. destruct (wp_ok _ _ _ _ _ (linkauth_links act d c Hd) Hrun) as [Hp Hl].
  assert (Hno' : forall p, get_permission db (PermissionLevel (la_account d) (la_requirement d)) <> Ok p).
  { unfold get_permission, find_permission, db in *. by rewrite Hp. }
  assert (Hlk : lookup_linked_permission db (la_account d) (la_code d) (la_type d) = Some (la_requirement d)).
  { unfold lookup_linked_permission, db. by rewrite Hl, lookup_insert_eq. }
  assert (Hmin : forall m, lookup_minimum_permission db (la_account d) (la_code d) (la_type d) = Ok m ->
    m = Some (la_requirement d)).
  { intros m. unfold lookup_minimum_permission. rewrite result_bind_ok, Hlk. intros ([] & _ & Hm).
    destruct (Z.eqb_spec (la_requirement d) besio_any_name); [done|]. by injection Hm. }
  clearbody db. split_and!.
  - intros auths Hc. unfold check_unlinkauth_authorization in Hc. cbn in Hc. rewrite Hlk in Hc.
    destruct (Z.eqb_spec (la_requirement d) besio_any_name); [done|].
    bind_ok Hc as (a & _ & Hc).
    bind_ok Hc as (p & _ & Hc).
    bind_ok Hc as (q & Hq & _). by apply Hno' in Hq.
  - intros auths r Hc. unfold check_linkauth_authorization in Hc. cbn in Hc.
    bind_ok Hc as (a & _ & Hc).
    bind_ok Hc as ([] & _ & Hc).
    bind_ok Hc as (m & ->%Hmin & Hc).
    bind_ok Hc as (p & _ & Hc).
    bind_ok Hc as (q & Hq & _). by apply Hno' in Hq.
  - intros auth data Ha Hc. unfold check_minimum in Hc. cbn in Hc. rewrite Ha in Hc.
    bind_ok Hc as (m & ->%Hmin & Hc).
    bind_ok Hc as (q & Hq & _). by apply Hno' in Hq.
Qed.

(** ** The notification is never authorized *)

(** What [validate] makes sure of: something is needed, and no wait is free. *)
Definition guarded (a : authority) : Prop :=
  0 < threshold a /\ Forall (fun w => 0 < wait_sec w < 2 ^ 32) (waits a).

Lemma wait_of_factors a w ms : MWait w :: ms ⊆+ all_factors a -> w ∈ waits a.
Proof.
  intros Hs. assert (MWait w ∈ all_factors a) as Hin by (eapply elem_of_submseteq; [|exact Hs]; by left).
  unfold all_factors in Hin. rewrite !elem_of_app, !list_elem_of_fmap in Hin.
  destruct Hin as [(w' & [= <-] & Hw)|[(k & E & _)|(p & E & _)]]; done.
Qed.

Lemma seconds_pos s : 0 < s < 2 ^ 32 -> 0 < seconds s.
Proof. intros Hs. unfold seconds. rewrite i64_small; lia. Qed.

(** Without keys, permissions or a delay no level is granted. *)
Lemma nothing_granted ck :
  (forall l a, permission_to_authority ck l = Ok a -> guarded a) ->
  provided_keys ck = [] -> provided_permissions ck = [] -> provided_delay ck <= 0 ->
  forall l, level_ok ck l -> False.
Proof.
  intros Hg Hk Hp Hd. fix IH 2. intros l [l' Hin|l' Hin|l' a ms Ha Hs HF Ht].
  - rewrite Hp in Hin. by apply elem_of_nil in Hin.
  - rewrite Hp in Hin. by apply elem_of_nil in Hin.
  - destruct (Hg _ _ Ha) as [Hpos Hw]. destruct HF as [|m ms [w Hle|k Hin|p Hl] _].
    + cbn in Ht. lia.
    + pose proof (seconds_pos _ (proj1 (list.Forall_forall _ _) Hw w (wait_of_factors _ _ _ Hs))). lia.
    + rewrite Hk in Hin. by apply elem_of_nil in Hin.
    + exact (IH _ Hl).
Qed.

(** Nobody is authorized by no keys. *)
Lemma notification_unauthorized `{MetaSetLaws} (db : auth_db) (head_block_id : digest)
    (a : account_name) (trx : transaction) :
  (forall i p, permissions db !! i = Some p -> weights_ok (po_auth p)) ->
  (forall i p, permissions db !! i = Some p -> po_name p <> 0 -> guarded (po_auth p)) ->
  0 < max_transaction_delay db < 2 ^ 32 ->
  get_on_upramusage_transaction head_block_id (pending_block_time db) a = Ok trx ->
  check_authorization db (trx_actions trx) [] [] (seconds (delay_sec (trx_header trx))) false <> Ok tt.
Proof.
  intros Hw Hg Hmax Htrx Hc. unfold get_on_upramusage_transaction in Htrx.
  bind_ok Htrx as (data & _ & Htrx). injection Htrx as <-. cbn [trx_actions trx_header delay_sec] in Hc.
  destruct (authorization_granted db Hw _ _ _ _ _ Hc
    _ (PermissionLevel a active_name) (list_elem_of_here _ _) (list_elem_of_here _ _)) as (d & Hl & Hd).
  assert (He : effective_delay db (seconds 0) = 0).
  { unfold effective_delay. change (seconds 0) with 0. pose proof (seconds_pos _ Hmax).
    by replace (seconds (max_transaction_delay db) <=? 0) with false by lia. }
  cbn -[effective_delay seconds] in Hd. rewrite He in Hd. destruct Hd as [Hd _].
  eapply (nothing_granted (make_checker db [] [] d)); [|done|done|done|exact Hl].
  intros l b. cbn. intros Hb. bind_ok Hb as (p & Hp & Hb).
  injection Hb as <-. apply get_permission_found in Hp as (_ & Hn & i & Hi & _ & Hpn). eapply Hg; [exact Hi|congruence].
Qed.

(** ** Examples: the genesis state *)
Module ChainSample.
Definition genesis_run : chain * result unit :=
  Eval vm_compute in initialize_accounts 1000000 7 [] (empty_chain 1000000 6 3888000).
Definition genesis : chain := genesis_run.1.

Lemma genesis_reachable : reachable genesis.
Proof. apply (reach_genesis 1000000 7 [] 1000000 6 3888000). by vm_compute. Qed.

Definition genesis_permissions : list (Z * permission_object) :=
  Eval vm_compute in map_to_list (permissions (ch_auth genesis)).
Lemma genesis_permissions_eq : map_to_list (permissions (ch_auth genesis)) = genesis_permissions.
Proof. vm_compute. reflexivity. Qed.
Lemma genesis_weights : map_Forall (fun _ p => weights_ok (po_auth p)) (permissions (ch_auth genesis)).
Proof. apply map_Forall_to_list. rewrite genesis_permissions_eq. repeat constructor; cbn; lia. Qed.
Lemma genesis_guarded : map_Forall (fun _ p => po_name p <> 0 -> guarded (po_auth p)) (permissions (ch_auth genesis)).
Proof.
  apply map_Forall_to_list. rewrite genesis_permissions_eq. unfold genesis_permissions.
  repeat (apply Forall_cons_2; [cbn; intros Hn; first [by destruct Hn|split; cbn; [lia|apply Forall_nil_2]]|]).
  apply Forall_nil_2.
Qed.

#[global] Instance sample_env : NativeEnv := {
  conf := NodeConfig [] [] [] [] false;
  is_producing_block := true;
  code_hash b := Digest (Z.of_nat (length b)) 0 0 1;
  validate_code b := mret tt
}.

(** The system account links an action to a permission that only the producers' account
    has. *)
Definition sample_link : linkauth :=
  Linkauth system_account_name null_account_name onramusage_name majority_producers_permission_name.
Definition sample_link_action : action :=
  Eval vm_compute in
  match make_action t_linkauth [PermissionLevel system_account_name active_name] sample_link with
  | Ok a => a
  | Throw _ => Action 0 0 [] []
  end.
Definition sample_context : chain :=
  Chain (ch_auth genesis) (ch_limits genesis) (ch_accounts genesis) (ch_sequences genesis)
    (ch_validate_ram genesis) [false].

End ChainSample.
Import ChainSample.

Lemma reachable_accounts_ok_witness : accounts_ok genesis.
Proof. apply (reachable_accounts_ok genesis). exact genesis_reachable. Defined.

Lemma owner_satisfies_every_permission_witness :
  exists o, get_permission (ch_auth genesis) (PermissionLevel producers_account_name owner_name) = Ok o /\
    forall l p, get_permission (ch_auth genesis) l = Ok p ->
      satisfies (permissions (ch_auth genesis)) o p = Ok (bool_decide (actor l = producers_account_name)).
Proof.
  apply (owner_satisfies_every_permission genesis producers_account_name).
  - exact genesis_reachable.
  - eexists. vm_compute. reflexivity.
Defined.

Lemma linkauth_foreign_permission_locks_witness :
  exists c', apply_besio_linkauth sample_link_action sample_context = (c', Ok tt) /\
  forall auths, check_unlinkauth_authorization (ch_auth c')
    (Unlinkauth system_account_name null_account_name onramusage_name) auths <> Ok tt.
Proof.
  exists (apply_besio_linkauth sample_link_action sample_context).1.
  assert (apply_besio_linkauth sample_link_action sample_context =
    ((apply_besio_linkauth sample_link_action sample_context).1, Ok tt)) as Hrun by (vm_compute; reflexivity).
  split; [exact Hrun|].
  refine (proj1 (linkauth_foreign_permission_locks sample_link_action sample_link sample_context _ _ Hrun _ _)).
  - vm_compute. reflexivity.
  - by vm_compute.
  - intros p. by vm_compute.
Defined.

Lemma satisfies_is_ancestor_witness : exists p o b,
  permissions (ch_auth genesis) !! 2 = Some p /\ permissions (ch_auth genesis) !! 1 = Some o /\
  satisfies (permissions (ch_auth genesis)) o p = Ok b /\
  (b = true <-> ancestor (permissions (ch_auth genesis)) 1 2).
Proof.
  eexists _, _.
  destruct (satisfies_is_ancestor (permissions (ch_auth genesis)) (next_permission (ch_auth genesis))
    (PermissionObject 1 0 0 system_account_name owner_name 1000000 (key_authority 7 0))
    (PermissionObject 2 1 1 system_account_name active_name 1000000 (key_authority 7 0)))
    as (b & Hb & Hiff & _).
  - exact (ao_hierarchy _ (reachable_inv _ genesis_reachable)).
  - vm_compute. reflexivity.
  - vm_compute. reflexivity.
  - by vm_compute.
  - by vm_compute.
  - exists b. split; [vm_compute; reflexivity|]. split; [vm_compute; reflexivity|]. split; [exact Hb|exact Hiff].
Defined.

(** An action of the system account signed with the genesis key. *)
Lemma check_authorization_sound_witness :
  exists d, level_ok (make_checker (ch_auth genesis) [7] [] d) (PermissionLevel system_account_name active_name)
    /\ d <= 0.
Proof.
  destruct (check_authorization_sound (ch_auth genesis) genesis_weights
    [Action null_account_name onramusage_name [PermissionLevel system_account_name active_name] []]
    [7] [] 0 false) with
    (act := Action null_account_name onramusage_name [PermissionLevel system_account_name active_name] [])
    (auth := PermissionLevel system_account_name active_name) as (d & Hd & Hle & _).
  - vm_compute. reflexivity.
  - by left.
  - by left.
  - exists d. split; [exact Hd|exact Hle].
Defined.
