(* ===== verification/Billing.v ===== *)
(** * Memory billing of native actions

    The native actions create and remove accounts, permissions, links and delayed
    transactions, and charge accounts for them ([besio_contract.cpp],
    [transaction_context.cpp], [resource_limits.cpp]). This file compares the two: what an
    account is charged and what the tables hold on its behalf, modulo the 64 bits of
    the counter. *)
From Stdlib Require Import Ascii String.
From S2P Require Import Prelude Merkle BlockHeaderState Names Raw Authority Transactions.
From S2P Require Import AuthorizationManager ResourceLimits NativeContract Controller.

(** ** What the tables hold on behalf of an account *)
Definition permission_ram (a : account_name) (_ : Z) (p : permission_object) : Z :=
  if po_owner p =? a then permission_object_size + billable (po_auth p) else 0.
Definition link_ram (a : account_name) (k : Z * Z * Z) (_ : permission_name) : Z :=
  if k.1.1 =? a then permission_link_object_size else 0.
Fixpoint generated_ram (a : account_name) (l : list generated_transaction) : Z :=
  match l with
  | [] => 0
  | g :: l => (if gt_payer g =? a then generated_transaction_object_size + Z.of_nat (length (gt_packed_trx g))
               else 0) + generated_ram a l
  end.
Definition account_ram (a : account_name) (m : gmap Z account_object) : Z :=
  match m !! a with
  | Some x => overhead_per_account_ram_bytes + Z.of_nat (length (ac_code x)) * setcode_ram_bytes_multiplier
              + Z.of_nat (length (ac_abi x))
  | None => 0
  end.
Definition native_ram (c : chain) (a : account_name) : Z :=
  account_ram a (ch_accounts c) + map_sum (permission_ram a) (permissions (ch_auth c))
  + map_sum (link_ram a) (links (ch_auth c)) + generated_ram a (generated (ch_auth c)).

(** What the account is charged, and the part of it that native objects do not explain:
    the rows of contracts. *)
Definition charged (c : chain) (a : account_name) : Z :=
  match rl_usage (ch_limits c) !! a with Some u => ram_usage u | None => 0 end.
Definition unexplained (c : chain) (a : account_name) : Z := u64 (charged c a - native_ram c a).

(** ** Arithmetic modulo 2^64 *)
Lemma u64_eq x y k : x = y + k * 2 ^ 64 -> u64 x = u64 y.
Proof. intros ->. unfold u64. by rewrite Z.mod_add. Qed.
Lemma u64_cong z : exists k, u64 z = z + k * 2 ^ 64.
Proof. exists (- (z / 2 ^ 64)). unfold u64. pose proof (Z.div_mod z (2 ^ 64)). lia. Qed.
Lemma i64_cong z : exists k, i64 z = z + k * 2 ^ 64.
Proof. exists (- ((z + 2 ^ 63) / 2 ^ 64)). unfold i64. pose proof (Z.div_mod (z + 2 ^ 63) (2 ^ 64)). lia. Qed.

(** ** Books

    [books s x d c]: account [x] is charged [d] less than its objects, everything else is
    as in [s]. *)
Definition books (s : account_name -> Z) (x : account_name) (d : Z) (c : chain) : Prop :=
  forall a, u64 (charged c a - native_ram c a + (if a =? x then d else 0)) = s a.

Lemma books_start c x : books (unexplained c) x 0 c.
Proof. intros a. unfold unexplained. destruct (a =? x); f_equal; lia. Qed.
Lemma books_end s x c a : books s x 0 c -> unexplained c a = s a.
Proof. intros Hb. rewrite <- (Hb a). unfold unexplained. destruct (a =? x); f_equal; lia. Qed.
Lemma books_any s x y c : books s x 0 c -> books s y 0 c.
Proof. intros Hb a. rewrite <- (Hb a). destruct (a =? x), (a =? y); f_equal; lia. Qed.
Lemma books_cong s x d d' k c : books s x d c -> d' = d + k * 2 ^ 64 -> books s x d' c.
Proof.
  intros Hb -> a. rewrite <- (Hb a). destruct (a =? x); [|done]. apply (u64_eq _ _ k). lia.
Qed.

(** A change of the tables that adds [e] to what the account holds. *)
Lemma books_native s x d e c c' : books s x d c ->
  (forall a, charged c' a = charged c a) ->
  (forall a, native_ram c' a = native_ram c a + (if a =? x then e else 0)) -> books s x (d + e) c'.
Proof. intros Hb Hc Hn a. rewrite <- (Hb a), Hc, Hn. destruct (a =? x); f_equal; lia. Qed.

(** What the books are about. *)
Definition accounting (c : chain) :=
  (tree c, links (ch_auth c), generated (ch_auth c), rl_usage (ch_limits c)).
Lemma accounting_tree c c' : accounting c' = accounting c -> tree c' = tree c.
Proof. unfold accounting. congruence. Qed.
Lemma books_same s x d c c' : accounting c' = accounting c -> books s x d c -> books s x d c'.
Proof.
  unfold accounting, tree. intros [= E1 E2 E3 E4 E5 E6] Hb a. rewrite <- (Hb a).
  unfold charged, native_ram. by rewrite E1, E3, E4, E5, E6.
Qed.

Lemma keeps_accounting_require act a : keeps accounting (require_authorization act a).
Proof. unfold require_authorization. keeps_step. Qed.
Lemma keeps_accounting_sequences m : keeps accounting (set_sequences m).
Proof. unfold set_sequences. keeps_step. Qed.
#[export] Hint Resolve keeps_accounting_require keeps_accounting_sequences : keeps.

(** Ids of permissions are given in increasing order. *)
Definition fresh_id (db : auth_db) : Prop := forall i p, permissions db !! i = Some p -> i < next_permission db.
Lemma fresh_id_same c c' : accounting c' = accounting c -> fresh_id (ch_auth c) -> fresh_id (ch_auth c').
Proof. unfold accounting, tree, fresh_id. intros [= E1 E2 _ _ _ _]. by rewrite E1, E2. Qed.

(** Passing a call that keeps all this. *)
Ltac wp_book :=
  apply (wp_keeps accounting); [solve [keeps_step]|];
  let a := fresh "a" in let c' := fresh "c" in let E := fresh "E" in intros a c' E;
  match goal with Hb : books _ _ _ _ |- _ => apply (books_same _ _ _ _ _ E) in Hb end;
  try match goal with Hok : accounts_ok _ |- _ =>
    apply (accounts_ok_same _ _ (accounting_tree _ _ E)) in Hok end;
  try match goal with Hf : fresh_id _ |- _ => apply (fresh_id_same _ _ E) in Hf end; clear E.

(** ** Charging *)
Lemma wp_on_limits {A} (m : St rl_db A) Q c :
  wp m (fun x l => Q x (Chain (ch_auth c) l (ch_accounts c) (ch_sequences c) (ch_validate_ram c)
                          (ch_used_authorizations c))) (ch_limits c) -> wp (on_limits m) Q c.
Proof. unfold wp, on_limits. by destruct (m (ch_limits c)) as [l [x|e]]. Qed.

Lemma wp_pending_ram x delta Q db :
  (delta = 0 -> Q tt db) ->
  (forall u u', rl_usage db !! x = Some u -> ram_usage u' = u64 (ram_usage u + delta) ->
     Q tt (RlDb (rl_config db) (rl_state db) (rl_limits db) (rl_pending db) (<[x := u']> (rl_usage db)))) ->
  wp (add_pending_ram_usage x delta) Q db.
Proof.
  intros H0 H1. unfold add_pending_ram_usage, get_usage, set_usage.
  wp_step; bool_to_prop; [by apply H0|]. do 9 wp_step. eapply H1; [|done].
  by destruct (rl_usage db !! x); [injection H as ->|].
Qed.

(** A new account starts with nothing charged. *)
Lemma wp_initialize s x d y c : books s x d c ->
  wp (on_limits (initialize_account y)) (fun _ c' => books s x d c') c.
Proof.
  intros Hb. apply wp_on_limits. unfold initialize_account, set_limits, set_usage. do 8 wp_step. bool_to_prop.
  wp_step. intros a. rewrite <- (Hb a). unfold charged, native_ram. cbn.
  destruct (decide (y = a)) as [<-|]; [|by rewrite lookup_insert_ne]. rewrite lookup_insert_eq.
  by match goal with E : rl_usage _ !! _ = None |- _ => rewrite E end.
Qed.

(** Charging the account settles what is open. *)
Lemma wp_charge s x d delta c : books s x d c ->
  wp (add_ram_usage x delta) (fun _ c' => books s x (d - delta) c' /\ ch_auth c' = ch_auth c) c.
Proof.
  intros Hb. unfold add_ram_usage. wp_step. apply wp_on_limits, wp_pending_ram.
  - intros ->. cbn. replace (d - 0) with d by lia. by destruct c, ch_limits.
  - intros u u' Hu Hu'.
    assert (Hd : forall l v t, books s x (d - delta)
      (Chain (ch_auth c) (RlDb (rl_config l) (rl_state l) (rl_limits l) (rl_pending l)
         (<[x := u']> (rl_usage (ch_limits c)))) (ch_accounts c) (ch_sequences c) v t)).
    { intros l v t a. rewrite <- (Hb a). unfold charged, native_ram. cbn.
      destruct (Z.eqb_spec a x) as [->|Hne].
      - rewrite lookup_insert_eq, Hu, Hu'. destruct (u64_cong (ram_usage u + delta)) as [k ->].
        apply (u64_eq _ _ k). lia.
      - by rewrite lookup_insert_ne. }
    wp_step; wp_step; (split; [apply Hd|done]).
Qed.


(** ** Changes of the tables *)
Definition with_accounts (m : gmap Z account_object) (c : chain) : chain :=
  Chain (ch_auth c) (ch_limits c) m (ch_sequences c) (ch_validate_ram c) (ch_used_authorizations c).

Lemma books_account s x d c y : books s x d c ->
  books s x (d + (account_ram x (<[x := y]> (ch_accounts c)) - account_ram x (ch_accounts c)))
    (with_accounts (<[x := y]> (ch_accounts c)) c).
Proof.
  intros Hb. eapply books_native; [exact Hb|done|]. intros a. unfold native_ram. cbn.
  destruct (Z.eqb_spec a x) as [->|Hne]; [lia|]. unfold account_ram. rewrite lookup_insert_ne by done. lia.
Qed.

(** The sums over the tables of permissions and links. *)
Lemma books_auth s x d e c db : books s x d c ->
  (forall a, map_sum (permission_ram a) (permissions db) + map_sum (link_ram a) (links db)
             + generated_ram a (generated db)
           = map_sum (permission_ram a) (permissions (ch_auth c)) + map_sum (link_ram a) (links (ch_auth c))
             + generated_ram a (generated (ch_auth c)) + (if a =? x then e else 0)) ->
  books s x (d + e) (with_auth db c).
Proof.
  intros Hb He. eapply books_native; [exact Hb|done|]. intros a. specialize (He a).
  unfold native_ram. cbn. lia.
Qed.

Lemma hierarchy_fresh c : accounts_ok c -> fresh_id (ch_auth c).
Proof. intros [Hh _ _ _] i p Hp. destruct (h_id _ _ Hh i p Hp). lia. Qed.
Lemma created_fresh db p db' : fresh_id db -> created db p db' -> fresh_id db'.
Proof.
  intros Hf (Hi & Hp & Hn & _) i q. rewrite Hp, Hn, Hi. intros [[<- _]|[_ Hq%Hf]]%lookup_insert_Some; lia.
Qed.

Lemma books_created s x d c p db : books s x d c -> fresh_id (ch_auth c) -> created (ch_auth c) p db ->
  po_owner p = x -> books s x (d + (permission_object_size + billable (po_auth p))) (with_auth db c).
Proof.
  intros Hb Hf (Hi & Hp & _ & _ & Hl & Hg) <-. eapply books_auth; [exact Hb|]. intros a.
  rewrite Hp, Hl, Hg, map_sum_insert.
  - unfold permission_ram at 1. rewrite (Z.eqb_sym a). destruct (_ =? a); lia.
  - destruct (permissions (ch_auth c) !! po_id p) eqn:E; [|done]. apply Hf in E. lia.
Qed.

Lemma books_modified s d c p p' db : books s (po_owner p) d c ->
  permissions (ch_auth c) !! po_id p = Some p -> permissions db = <[po_id p := p']> (permissions (ch_auth c)) ->
  links db = links (ch_auth c) -> generated db = generated (ch_auth c) -> po_owner p' = po_owner p ->
  books s (po_owner p) (d + (billable (po_auth p') - billable (po_auth p))) (with_auth db c).
Proof.
  intros Hb Hp Hps Hl Hg Ho. eapply books_auth; [exact Hb|]. intros a.
  rewrite Hps, Hl, Hg, (map_sum_update _ _ _ p) by done. unfold permission_ram at 2 3.
  rewrite Ho, (Z.eqb_sym a). destruct (_ =? a); lia.
Qed.

Lemma books_removed s d c p db : books s (po_owner p) d c ->
  permissions (ch_auth c) !! po_id p = Some p -> permissions db = delete (po_id p) (permissions (ch_auth c)) ->
  links db = links (ch_auth c) -> generated db = generated (ch_auth c) ->
  books s (po_owner p) (d + - (permission_object_size + billable (po_auth p))) (with_auth db c).
Proof.
  intros Hb Hp Hps Hl Hg. eapply books_auth; [exact Hb|]. intros a.
  rewrite Hps, Hl, Hg, (map_sum_delete _ (permissions (ch_auth c)) _ p) by done. unfold permission_ram at 2.
  rewrite (Z.eqb_sym a). destruct (_ =? a); lia.
Qed.

Lemma wp_links s x d e ls (Q : unit -> chain -> Prop) c : books s x d c ->
  (forall a, map_sum (link_ram a) ls = map_sum (link_ram a) (links (ch_auth c)) + (if a =? x then e else 0)) ->
  (forall c', books s x (d + e) c' -> Q tt c') -> wp (on_auth (set_links ls)) Q c.
Proof.
  intros Hb He HQ. apply wp_on_auth. unfold set_links. wp_step. apply HQ.
  eapply books_auth; [exact Hb|]. intros a. cbn. rewrite (He a). lia.
Qed.
Lemma wp_generated s x d e gs (Q : unit -> chain -> Prop) c : books s x d c ->
  (forall a, generated_ram a gs = generated_ram a (generated (ch_auth c)) + (if a =? x then e else 0)) ->
  (forall c', books s x (d + e) c' -> Q tt c') -> wp (on_auth (set_generated gs)) Q c.
Proof.
  intros Hb He HQ. apply wp_on_auth. unfold set_generated. wp_step. apply HQ.
  eapply books_auth; [exact Hb|]. intros a. cbn. rewrite (He a). lia.
Qed.

Lemma take_generated_ram P l g l' a : take_generated P l = Some (g, l') ->
  generated_ram a l = (if gt_payer g =? a then generated_transaction_object_size
                         + Z.of_nat (length (gt_packed_trx g)) else 0) + generated_ram a l'.
Proof.
  revert l'. induction l as [|h l IH]; intros l'; cbn [take_generated]; [done|].
  destruct (P h); [by intros [= -> ->]|]. destruct (take_generated P l) as [[g' l'']|]; [|done].
  intros [= -> <-]. cbn [generated_ram]. rewrite (IH _ eq_refl). lia.
Qed.

(** The books of the account a handler is about. *)
Ltac books_of x := match goal with Hb : books _ _ _ _ |- _ => apply (books_any _ _ x) in Hb end.

(** Charging what the books of the account leave open. *)
Definition congruent (x y : Z) : Prop := exists k, x = y + k * 2 ^ 64.
Lemma congruent_i64 x y : congruent x y -> congruent (i64 x) y.
Proof. intros [k ->]. destruct (i64_cong (y + k * 2 ^ 64)) as [k' ->]. exists (k + k'). lia. Qed.
Lemma congruent_u64 x y : congruent x y -> congruent (u64 x) y.
Proof. intros [k ->]. destruct (u64_cong (y + k * 2 ^ 64)) as [k' ->]. exists (k + k'). lia. Qed.
Lemma congruent_sub x y x' y' : congruent x x' -> congruent y y' -> congruent (x - y) (x' - y').
Proof. intros [k ->] [k' ->]. exists (k - k'). lia. Qed.
Lemma congruent_opp x x' : congruent x x' -> congruent (- x) (- x').
Proof. intros [k ->]. exists (- k). lia. Qed.
Lemma congruent_refl x : congruent x x.
Proof. exists 0. lia. Qed.
#[export] Hint Resolve congruent_i64 congruent_u64 congruent_sub congruent_opp congruent_refl : congruent.

Lemma wp_close s x d delta c : books s x d c -> congruent delta d ->
  wp (add_ram_usage x delta) (fun _ c' => books s 0 0 c') c.
Proof.
  intros Hb [k Hd]. eapply wp_mono; [by apply wp_charge|]. cbv beta. intros _ c' [Hc _].
  apply (books_any _ x), (books_cong _ _ _ _ k _ Hc). lia.
Qed.
Lemma wp_close_change s x d old new c : books s x d c -> congruent (new - old) d ->
  wp (if new =? old then mret tt else add_ram_usage x (i64 (new - old))) (fun _ c' => books s 0 0 c') c.
Proof.
  intros Hb Hd. wp_step; bool_to_prop.
  - subst. wp_step. destruct Hd as [k Hd]. apply (books_any _ x), (books_cong _ _ _ _ k _ Hb). lia.
  - eapply wp_close; [exact Hb|]. auto with congruent.
Qed.

(** Replacing the code or the interface of an account. *)
Lemma books_set s x d c y z : books s x 0 c -> ch_accounts c !! x = Some y ->
  d = Z.of_nat (length (ac_code z)) * setcode_ram_bytes_multiplier + Z.of_nat (length (ac_abi z))
      - (Z.of_nat (length (ac_code y)) * setcode_ram_bytes_multiplier + Z.of_nat (length (ac_abi y))) ->
  books s x d (with_accounts (<[x := z]> (ch_accounts c)) c).
Proof.
  intros Hb Hy ->. apply (books_account _ _ _ _ z) in Hb. unfold account_ram in Hb.
  rewrite lookup_insert_eq, Hy in Hb. eapply (books_cong _ _ _ _ 0); [exact Hb|]. lia.
Qed.

(** ** The handlers *)
Section handlers.
Context `{NativeEnv}.
Implicit Types (s : account_name -> Z).

Lemma setcode_books s act c : books s 0 0 c ->
  wp (apply_besio_setcode act) (fun _ c' => books s 0 0 c') c.
Proof.
  intros Hb. unfold apply_besio_setcode, set_accounts. do 3 wp_step. wp_book. do 5 wp_step. wp_book.
  wp_step. apply wp_get_account. intros x Hx. do 6 wp_step. books_of (sc_account a).
  match goal with |- wp _ _ (Chain _ _ (<[_ := ?z]> _) _ _ _) =>
    apply (books_set _ _ (Z.of_nat (length (sc_code a)) * setcode_ram_bytes_multiplier
      - Z.of_nat (length (ac_code x)) * setcode_ram_bytes_multiplier) _ x z) in Hb; [|exact Hx|cbn; lia] end.
  do 3 wp_step. wp_book. eapply wp_close_change; [exact Hb|]. auto with congruent.
Qed.

Lemma setabi_books s act c : books s 0 0 c ->
  wp (apply_besio_setabi act) (fun _ c' => books s 0 0 c') c.
Proof.
  intros Hb. unfold apply_besio_setabi, set_accounts. do 3 wp_step. wp_book.
  wp_step. apply wp_get_account. intros x Hx. do 4 wp_step. books_of (sa_account a).
  match goal with |- wp _ _ (Chain _ _ (<[_ := ?z]> _) _ _ _) =>
    apply (books_set _ _ (Z.of_nat (length (sa_abi a)) - Z.of_nat (length (ac_abi x))) _ x z) in Hb;
    [|exact Hx|cbn; lia] end.
  do 3 wp_step. wp_book. eapply wp_close_change; [exact Hb|]. auto with congruent.
Qed.

Lemma updateauth_books s act c : accounts_ok c -> books s 0 0 c ->
  wp (apply_besio_updateauth act) (fun _ c' => books s 0 0 c') c.
Proof.
  intros Hc Hb. unfold apply_besio_updateauth, modify_permission, set_permissions.
  do 3 wp_step. wp_book. do 7 wp_step. wp_book. do 3 wp_step.
  do 2 (wp_book; wp_step). wp_step. wp_step. wp_book. wp_step. wp_book. wp_step. bool_to_prop.
  apply wp_auth_query. intros found Hf. wp_step. apply wp_parent_id; [done|]. intros i q Hi Hn Ho.
  wp_step.
  - apply find_permission_get in Hf. destruct (found_permission _ _ _ Hc Hf) as (H1' & _).
    wp_step. wp_step. wp_step. apply wp_on_auth. do 3 wp_step. books_of (po_owner p).
    eapply wp_close; [eapply books_modified; [exact Hb|exact H1'|reflexivity..]|]. cbn [po_auth].
    apply congruent_i64.
    match goal with |- congruent _ (0 + (?b - ?a)) =>
      replace (0 + (b - a)) with (permission_object_size + b - (permission_object_size + a)) by lia end.
    auto with congruent.
  - wp_step. apply wp_on_auth, wp_create. intros p a' Hp P1 P2 P3 _. cbv beta. books_of (ua_account a).
    eapply wp_close; [eapply books_created; [exact Hb|by apply hierarchy_fresh|exact Hp|done]|].
    rewrite Z.add_0_l. auto with congruent.
Qed.

Lemma deleteauth_books s act c : accounts_ok c -> books s 0 0 c ->
  wp (apply_besio_deleteauth act) (fun _ c' => books s 0 0 c') c.
Proof.
  intros Hc Hb. unfold apply_besio_deleteauth, remove_permission, set_usages, set_permissions.
  do 3 wp_step. wp_book. do 9 wp_step. apply wp_auth_query. intros p Hp.
  destruct (found_permission _ _ _ Hc Hp) as (H1' & H2' & H3' & _). cbn in H3'. rewrite <- H3'.
  wp_step. apply wp_on_auth. do 9 wp_step. books_of (po_owner p).
  eapply wp_close; [eapply books_removed; [exact Hb|exact H1'|reflexivity..]|].
  rewrite Z.add_0_l. auto with congruent.
Qed.

Lemma linkauth_books s act c : books s 0 0 c ->
  wp (apply_besio_linkauth act) (fun _ c' => books s 0 0 c') c.
Proof.
  intros Hb. unfold apply_besio_linkauth. do 5 wp_step. wp_book. do 7 wp_step.
  apply (wp_keeps (fun c : chain => c)); [solve [keeps_step]|]. intros _ c' ->. books_of (la_account a). wp_step.
  - do 2 wp_step. eapply (wp_links _ _ _ 0); [exact Hb| |intros c' Hc'; by apply (books_any _ (la_account a))].
    intros b. rewrite (map_sum_update _ _ _ _ _ E). unfold link_ram at 2 3. destruct (b =? _); lia.
  - wp_step. eapply (wp_links _ _ _ permission_link_object_size); [exact Hb| |].
    + intros b. rewrite (map_sum_insert _ _ _ _ E). unfold link_ram at 1. cbn. rewrite (Z.eqb_sym b).
      destruct (_ =? b); lia.
    + intros c' Hc'. eapply wp_close; [exact Hc'|]. rewrite Z.add_0_l. auto with congruent.
Qed.

Lemma unlinkauth_books s act c : books s 0 0 c ->
  wp (apply_besio_unlinkauth act) (fun _ c' => books s 0 0 c') c.
Proof.
  intros Hb. unfold apply_besio_unlinkauth. do 3 wp_step. wp_book. do 4 wp_step. bool_to_prop.
  books_of (ul_account a). wp_step. eapply wp_mono; [by apply wp_charge|]. intros _ c' [Hc' Ea]. cbv beta.
  match goal with Hl : is_Some _ |- _ => destruct Hl as [v Hl]; rewrite <- Ea in * end.
  eapply (wp_links _ _ _ (- permission_link_object_size)); [exact Hc'| |].
  - intros b. rewrite (map_sum_delete _ (links (ch_auth c')) _ _ H1). unfold link_ram at 2. cbn.
    rewrite (Z.eqb_sym b). destruct (_ =? b); lia.
  - intros c2 Hc2. apply (books_any _ (ul_account a)), (books_cong _ _ _ _ 0 _ Hc2). lia.
Qed.

Lemma canceldelay_books s act c : books s 0 0 c ->
  wp (apply_besio_canceldelay act) (fun _ c' => books s 0 0 c') c.
Proof.
  intros Hb. unfold apply_besio_canceldelay, cancel_deferred_transaction. do 3 wp_step. wp_book.
  do 3 wp_step. destruct (take_generated _ _) as [[g l]|] eqn:E; [|by do 2 wp_step].
  books_of (gt_payer g). wp_step. eapply wp_mono; [by apply wp_charge|]. intros _ c' [Hc' Ea]. cbv beta.
  rewrite <- Ea in E. wp_step.
  match type of Hc' with books _ _ (0 - ?b) _ =>
    assert (congruent b (- (generated_transaction_object_size + Z.of_nat (length (gt_packed_trx g)))))
      as [k Hk] by auto with congruent end.
  eapply (wp_generated _ _ _ (- (generated_transaction_object_size + Z.of_nat (length (gt_packed_trx g)))));
    [exact Hc'| |].
  - intros b. rewrite (take_generated_ram _ _ _ _ b E), (Z.eqb_sym b). destruct (_ =? b); lia.
  - intros c2 Hc2. do 2 wp_step. apply (books_any _ (gt_payer g)), (books_cong _ _ _ _ k _ Hc2). lia.
Qed.

Lemma newaccount_books s act c : accounts_ok c -> books s 0 0 c ->
  wp (apply_besio_newaccount act) (fun _ c' => books s 0 0 c') c.
Proof.
  intros Hc Hb. unfold apply_besio_newaccount, set_accounts.
  do 3 wp_step. wp_book. do 9 wp_step. wp_book. wp_step. wp_book. do 6 wp_step. bool_to_prop.
  books_of (na_name a).
  match goal with |- wp _ _ (Chain _ _ (<[_ := ?y]> _) _ _ _) => apply (books_account _ _ _ _ y) in Hb end.
  unfold account_ram in Hb. rewrite lookup_insert_eq, H5 in Hb.
  apply hierarchy_fresh in Hc as Hf. do 2 wp_step.
  match goal with |- wp _ _ ?c' => change (fresh_id (ch_auth c')) in Hf end. clear Hc.
  do 3 (wp_step; wp_book).
  wp_step. apply wp_on_auth, wp_create. intros o a' Ho O1 O2 O3 _.
  pose proof (created_fresh _ _ _ Hf Ho) as Hf'. eapply books_created in Hb; [|done..]. cbv beta.
  wp_step. apply wp_on_auth, wp_create. intros b b' Hp B1 B2 B3 _.
  eapply books_created in Hb; [|done..]. cbv beta.
  wp_step. eapply wp_mono; [apply wp_initialize; exact Hb|]. cbv beta. intros _ c7 Hb7.
  eapply wp_close; [exact Hb7|].
  apply congruent_i64. eexists 0. cbn. lia.
Qed.

Lemma handler_books s receiver scope name h act c :
  find_apply_handler receiver scope name = Some h -> accounts_ok c -> books s 0 0 c ->
  wp (h act) (fun _ c' => books s 0 0 c') c.
Proof.
  intros Hh Hc Hb. pattern h. apply (find_apply_handler_cases _ _ _ _ _ Hh).
  - by apply newaccount_books.
  - by apply setcode_books.
  - by apply setabi_books.
  - by apply updateauth_books.
  - by apply deleteauth_books.
  - by apply linkauth_books.
  - by apply unlinkauth_books.
  - by apply canceldelay_books.
Qed.

Lemma exec_native_books s csf receiver act c : accounts_ok c -> books s 0 0 c ->
  wp (exec_native csf receiver act) (fun _ c' => books s 0 0 c') c.
Proof.
  intros Hc Hb. unfold exec_native. wp_step. wp_book. wp_step. wp_book.
  wp_step; [|by wp_step]. wp_step. wp_book. by eapply handler_books.
Qed.
End handlers.

(** C9. Memory is billed exactly: whatever native action is executed in a state the
    chain can reach, the change of what an account is charged is the change of the size of the
    objects held on its behalf (its account object with code and interface, its
    permissions, its links and the delayed transactions it pays for), for every account
    and modulo the 64 bits of the counter. *)
Theorem native_actions_bill_exactly (env : NativeEnv) csf receiver act c c' a :
  reachable c -> exec_native csf receiver act c = (c', Ok tt) ->
  u64 (charged c' a - charged c a) = u64 (native_ram c' a - native_ram c a).
Proof.
  intros Hr Hrun.
  pose proof (wp_ok _ _ _ _ _ (exec_native_books _ csf receiver act c (reachable_inv c Hr) (books_start c 0)) Hrun) as Hb.
  apply (books_end _ _ _ a) in Hb. unfold unexplained in Hb.
  destruct (u64_cong (charged c' a - native_ram c' a)) as [k Hk].
  destruct (u64_cong (charged c a - native_ram c a)) as [k' Hk'].
  apply (u64_eq _ _ (k' - k)). lia.
Qed.

(** ** A concrete run *)
Lemma native_actions_bill_exactly_witness : exists c',
  exec_native true system_account_name ChainSample.sample_link_action ChainSample.genesis = (c', Ok tt) /\
  u64 (charged c' system_account_name - charged ChainSample.genesis system_account_name)
  = permission_link_object_size.
Proof.
  exists (exec_native true system_account_name ChainSample.sample_link_action ChainSample.genesis).1.
  assert (exec_native true system_account_name ChainSample.sample_link_action ChainSample.genesis =
    ((exec_native true system_account_name ChainSample.sample_link_action ChainSample.genesis).1, Ok tt)) as Hrun
    by (vm_compute; reflexivity).
  split; [exact Hrun|].
  rewrite (native_actions_bill_exactly ChainSample.sample_env true system_account_name
    ChainSample.sample_link_action ChainSample.genesis _ system_account_name ChainSample.genesis_reachable Hrun).
  vm_compute. reflexivity.
Defined.
