(* ===== verification/ContractTables.v ===== *)
(** * The tables of contracts

    Model of the database interface that [apply_context] gives to contracts
    ([apply_context.hpp], [apply_context.cpp], [contract_table_objects.hpp]): tables of
    rows with a primary key, secondary indices over integers, the iterators a contract
    holds on them, and the memory it pays. *)
From Stdlib Require Import Ascii String.
From S2P Require Import Prelude Merkle BlockHeaderState Names Raw Authority Transactions.
From S2P Require Import AuthorizationManager ResourceLimits NativeContract Controller Billing.

(** ** Objects *)
Record table_id_object := TableId {
  t_code : account_name;
  t_scope : Z;
  t_table : Z;
  t_payer : account_name;
  t_count : Z
}.
(** [key_value_object] with the bytes of the row, [index_object] with the secondary key. *)
Record table_row (V : Type) := TableRow {
  r_t_id : Z;
  r_primary_key : Z;
  r_payer : account_name;
  r_value : V
}.
Arguments TableRow {_}.
Arguments r_t_id {_}.
Arguments r_primary_key {_}.
Arguments r_payer {_}.
Arguments r_value {_}.

Definition table_id_object_size : Z := billable_size_v (44 + 2 * overhead_per_row_per_index_ram_bytes).
Definition key_value_object_size : Z := billable_size_v (32 + 8 + 4 + 2 * overhead_per_row_per_index_ram_bytes).
Definition index64_object_size : Z := billable_size_v (24 + 8 + 3 * overhead_per_row_per_index_ram_bytes).
Definition index128_object_size : Z := billable_size_v (24 + 16 + 3 * overhead_per_row_per_index_ram_bytes).

(** ** Iterators

    Pointers to objects are their ids: an id is given once, so a pointer whose id is
    in no table is a pointer to an object that was removed. *)
Record iterator_cache := IteratorCache {
  table_cache : gmap Z (Z * Z);
  end_iterator_to_table : list Z;
  iterator_to_object : list (option Z);
  object_to_iterator : gmap Z Z
}.
Definition new_cache : iterator_cache := IteratorCache ∅ [] [] ∅.

Definition index_to_end_iterator (indx : Z) : Z := i32 (- (indx + 2)).
(** The negation of the least integer is undefined. *)
Definition end_iterator_to_index (ei : Z) : result Z :=
  if ei =? - 2 ^ 31 then Throw undefined_behaviour else Ok (u64 (- ei - 2)).

Definition cache_table (t : Z) (k : iterator_cache) : iterator_cache * Z :=
  match table_cache k !! t with
  | Some (_, ei) => (k, ei)
  | None =>
      let ei := index_to_end_iterator (Z.of_nat (length (end_iterator_to_table k))) in
      (IteratorCache (<[t := (t, ei)]> (table_cache k)) (end_iterator_to_table k ++ [t])
         (iterator_to_object k) (object_to_iterator k), ei)
  end.
Definition get_table (t : Z) (k : iterator_cache) : result Z :=
  p ← of_option table_not_in_cache (table_cache k !! t); mret p.1.
Definition get_end_iterator_by_table_id (t : Z) (k : iterator_cache) : result Z :=
  p ← of_option table_not_in_cache (table_cache k !! t); mret p.2.
Definition find_table_by_end_iterator (ei : Z) (k : iterator_cache) : result (option Z) :=
  _ ← bes_assert (ei <? -1) invalid_table_iterator;
  indx ← end_iterator_to_index ei;
  if Z.of_nat (length (end_iterator_to_table k)) <=? indx then mret None
  else mret (end_iterator_to_table k !! Z.to_nat indx).
Definition cache_get (iterator : Z) (k : iterator_cache) : result Z :=
  _ ← bes_assert (negb (iterator =? -1)) invalid_table_iterator;
  _ ← bes_assert (0 <=? iterator) table_operation_not_permitted;
  _ ← bes_assert (iterator <? Z.of_nat (length (iterator_to_object k))) invalid_table_iterator;
  of_option table_operation_not_permitted (mjoin (iterator_to_object k !! Z.to_nat iterator)).
Definition cache_remove (iterator : Z) (k : iterator_cache) : result iterator_cache :=
  _ ← bes_assert (negb (iterator =? -1)) invalid_table_iterator;
  _ ← bes_assert (0 <=? iterator) table_operation_not_permitted;
  _ ← bes_assert (iterator <? Z.of_nat (length (iterator_to_object k))) invalid_table_iterator;
  match mjoin (iterator_to_object k !! Z.to_nat iterator) with
  | None => mret k
  | Some o => mret (IteratorCache (table_cache k) (end_iterator_to_table k)
                      (<[Z.to_nat iterator := None]> (iterator_to_object k)) (delete o (object_to_iterator k)))
  end.
Definition cache_add (o : Z) (k : iterator_cache) : iterator_cache * Z :=
  match object_to_iterator k !! o with
  | Some i => (k, i)
  | None =>
      let i := i32 (Z.of_nat (length (iterator_to_object k))) in
      (IteratorCache (table_cache k) (end_iterator_to_table k) (iterator_to_object k ++ [Some o])
         (<[o := i]> (object_to_iterator k)), i)
  end.

(** ** Ordered indices

    Keys are compared component by component; a key with fewer components matches every
    key that starts with them. *)
Fixpoint key_compare (a b : list Z) : comparison :=
  match a, b with
  | x :: a, y :: b => match x ?= y with Eq => key_compare a b | c => c end
  | _, _ => Eq
  end.
Definition by_primary {V} (r : table_row V) : list Z := [r_t_id r; r_primary_key r].
Definition by_secondary (r : table_row Z) : list Z := [r_t_id r; r_value r; r_primary_key r].

Section ordered.
Context {V : Type} (key : table_row V -> list Z).

Definition entry_le (x y : Z * table_row V) : Prop := key_compare (key x.2) (key y.2) <> Gt.
#[global] Instance entry_le_dec : RelDecision entry_le.
Proof. intros x y. unfold entry_le. apply _. Defined.

(** The rows in the order of the index, and where a search in it ends. *)
Definition sequence (rs : gmap Z (table_row V)) : list (Z * table_row V) := merge_sort entry_le (map_to_list rs).
Definition lower_bound (k : list Z) (rs : gmap Z (table_row V)) : option (Z * table_row V) :=
  head (filter (fun x => key_compare (key x.2) k <> Lt) (sequence rs)).
Definition upper_bound (k : list Z) (rs : gmap Z (table_row V)) : option (Z * table_row V) :=
  head (filter (fun x => key_compare (key x.2) k = Gt) (sequence rs)).
Definition find_row (k : list Z) (rs : gmap Z (table_row V)) : option (Z * table_row V) :=
  head (filter (fun x => key_compare (key x.2) k = Eq) (sequence rs)).
(** The element before [lower_bound] and before [upper_bound], if that is not the
    beginning. *)
Definition before (k : list Z) (rs : gmap Z (table_row V)) : option (Z * table_row V) :=
  last (filter (fun x => key_compare (key x.2) k = Lt) (sequence rs)).
Definition before_upper (k : list Z) (rs : gmap Z (table_row V)) : option (Z * table_row V) :=
  last (filter (fun x => key_compare (key x.2) k <> Gt) (sequence rs)).
End ordered.

(** ** The context of an action

    The rows of one kind, and the iterators the contract holds on them. *)
Record store (V : Type) := Store {
  rows : gmap Z (table_row V);
  next_row : Z;
  cache : iterator_cache
}.
Arguments Store {_}.
Arguments rows {_}.
Arguments next_row {_}.
Arguments cache {_}.

(** The tables of all contracts, as the database keeps them between actions. *)
Record contract_rows := ContractRows {
  cr_tables : gmap Z table_id_object;
  cr_next_table : Z;
  cr_keyval : gmap Z (table_row bytes) * Z;
  cr_idx64 : gmap Z (table_row Z) * Z;
  cr_idx128 : gmap Z (table_row Z) * Z
}.
Definition no_rows : contract_rows := ContractRows ∅ 0 (∅, 0) (∅, 0) (∅, 0).

Record context := Context {
  cx_chain : chain;
  cx_tables : gmap Z table_id_object;
  cx_next_table : Z;
  cx_keyval : store bytes;
  cx_idx64 : store Z;
  cx_idx128 : store Z;
  cx_receiver : account_name;
  cx_privileged : bool;
  cx_act : action
}.
Abbreviation MC := (St context).

Definition on_chain {A} (m : St chain A) : MC A := fun c =>
  let '(h, r) := m (cx_chain c) in
  (Context h (cx_tables c) (cx_next_table c) (cx_keyval c) (cx_idx64 c) (cx_idx128 c) (cx_receiver c)
     (cx_privileged c) (cx_act c), r).
Definition set_tables (m : gmap Z table_id_object) (next : Z) : MC unit :=
  modify_st (fun c => Context (cx_chain c) m next (cx_keyval c) (cx_idx64 c) (cx_idx128 c) (cx_receiver c)
                        (cx_privileged c) (cx_act c)).

(** The template parameter of [generic_index] and [iterator_cache]. *)
Class Index (V : Type) := {
  index : context -> store V;
  set_index : store V -> context -> context;
  row_size : V -> Z
}.
Definition keyval : Index bytes := {|
  index := cx_keyval;
  set_index s c := Context (cx_chain c) (cx_tables c) (cx_next_table c) s (cx_idx64 c) (cx_idx128 c)
                     (cx_receiver c) (cx_privileged c) (cx_act c);
  row_size v := Z.of_nat (length v) + key_value_object_size
|}.
Definition idx64 : Index Z := {|
  index := cx_idx64;
  set_index s c := Context (cx_chain c) (cx_tables c) (cx_next_table c) (cx_keyval c) s (cx_idx128 c)
                     (cx_receiver c) (cx_privileged c) (cx_act c);
  row_size _ := index64_object_size
|}.
Definition idx128 : Index Z := {|
  index := cx_idx128;
  set_index s c := Context (cx_chain c) (cx_tables c) (cx_next_table c) (cx_keyval c) (cx_idx64 c) s
                     (cx_receiver c) (cx_privileged c) (cx_act c);
  row_size _ := index128_object_size
|}.

(** ** Tables *)
Section tables.
Context `{NativeEnv}.

Definition is_ram_billing_in_notify_allowed : bool :=
  negb is_producing_block || allow_ram_billing_in_notify conf.

Definition update_db_usage (payer : account_name) (delta : Z) : MC unit :=
  c ← get;
  _ ← (if (0 <? delta) && negb (cx_privileged c || (payer =? cx_receiver c)) then
         _ ← st_assert (is_ram_billing_in_notify_allowed || (cx_receiver c =? act_account (cx_act c)))
               subjective_block_production_exception;
         on_chain (require_authorization (cx_act c) payer)
       else mret tt);
  on_chain (add_ram_usage payer delta).

Definition named (code scope table : Z) (x : Z * table_id_object) : bool :=
  (t_code x.2 =? code) && (t_scope x.2 =? scope) && (t_table x.2 =? table).
(** The id of the table, by the unique index on its name. *)
Definition find_table (code scope table : Z) : MC (option Z) :=
  c ← get; mret (fst <$> head (filter (fun x => named code scope table x = true) (map_to_list (cx_tables c)))).
Definition find_or_create_table (code scope table : Z) (payer : account_name) : MC Z :=
  existing_tid ← find_table code scope table;
  match existing_tid with
  | Some t => mret t
  | None =>
      _ ← update_db_usage payer table_id_object_size;
      c ← get;
      _ ← set_tables (<[cx_next_table c := TableId code scope table payer 0]> (cx_tables c)) (cx_next_table c + 1);
      mret (cx_next_table c)
  end.

(** Dereferencing a pointer to a table. *)
Definition table_at (t : Z) : MC table_id_object :=
  c ← get; lift (of_option undefined_behaviour (cx_tables c !! t)).
Definition remove_table (t : Z) : MC unit :=
  tid ← table_at t;
  _ ← update_db_usage (t_payer tid) (i64 (u64 (- table_id_object_size)));
  c ← get; set_tables (delete t (cx_tables c)) (cx_next_table c).
Definition change_count (t : Z) (d : Z) : MC unit :=
  tid ← table_at t;
  c ← get;
  set_tables (<[t := TableId (t_code tid) (t_scope tid) (t_table tid) (t_payer tid) (u32 (t_count tid + d))]>
                (cx_tables c)) (cx_next_table c).

(** ** Rows and iterators of one index *)
Section index.
Context {V : Type} (I : Index V).

Definition with_cache (f : iterator_cache -> iterator_cache * Z) : MC Z := fun c =>
  let s := index c in
  let '(k, i) := f (cache s) in (set_index (Store (rows s) (next_row s) k) c, Ok i).
Definition query_cache {A} (f : iterator_cache -> result A) : MC A :=
  c ← get; lift (f (cache (index c))).
Definition set_rows (m : gmap Z (table_row V)) (next : Z) : MC unit :=
  modify_st (fun c => set_index (Store m next (cache (index c))) c).
(** The object an iterator stands for. *)
Definition row_at (o : Z) : MC (table_row V) :=
  c ← get; lift (of_option undefined_behaviour (rows (index c) !! o)).
Definition get_row (iterator : Z) : MC (Z * table_row V) :=
  o ← query_cache (cache_get iterator); r ← row_at o; mret (o, r).

(** [db.create]: the unique indices of a kind all determine the primary key in a
    table. *)
Definition create_row (r : table_row V) : MC Z :=
  c ← get;
  _ ← st_assert (bool_decide (find_row by_primary (by_primary r) (rows (index c)) = None)) logic_error;
  _ ← set_rows (<[next_row (index c) := r]> (rows (index c))) (next_row (index c) + 1);
  mret (next_row (index c)).
(** [db.modify]: the primary key stays, so no unique index is violated. *)
Definition modify_row (o : Z) (r : table_row V) : MC unit :=
  c ← get; set_rows (<[o := r]> (rows (index c))) (next_row (index c)).
Definition remove_row (o : Z) : MC unit :=
  c ← get; set_rows (delete o (rows (index c))) (next_row (index c)).

(** The table of a row that the contract may change. *)
Definition own_table (t_id : Z) : MC Z :=
  t ← query_cache (get_table t_id);
  tid ← table_at t;
  c ← get;
  _ ← st_assert (t_code tid =? cx_receiver c) table_access_violation;
  mret t.
(** The end of a removal: the table goes with its last row. *)
Definition drop_row (iterator o t : Z) : MC unit :=
  _ ← change_count t (-1);
  _ ← remove_row o;
  tid ← table_at t;
  _ ← (if t_count tid =? 0 then remove_table t else mret tt);
  k ← query_cache (cache_remove iterator);
  c ← get; modify_st (set_index (Store (rows (index c)) (next_row (index c)) k)).

(** A search returns the iterator of the row found, with the row, and otherwise the end
    of the table. A row found by a key that names the table is in the table. *)
Definition search (find : Z -> gmap Z (table_row V) -> option (Z * table_row V)) (code scope table : Z)
    : MC (Z * option (table_row V)) :=
  tab ← find_table code scope table;
  match tab with
  | None => mret (-1, None)
  | Some t =>
      table_end_itr ← with_cache (cache_table t);
      c ← get;
      match find t (rows (index c)) with
      | None => mret (table_end_itr, None)
      | Some (o, r) =>
          if r_t_id r =? t then i ← with_cache (cache_add o); mret (i, Some r) else mret (table_end_itr, None)
      end
  end.
Definition search_end (code scope table : Z) : MC Z :=
  tab ← find_table code scope table;
  match tab with None => mret (-1) | Some t => with_cache (cache_table t) end.

Definition next_row_by (key : table_row V -> list Z) (iterator : Z) : MC (Z * option (table_row V)) :=
  if iterator <? -1 then mret (-1, None) else
  '(o, r) ← get_row iterator;
  c ← get;
  match upper_bound key (key r) (rows (index c)) with
  | Some (o', r') =>
      if r_t_id r' =? r_t_id r then i ← with_cache (cache_add o'); mret (i, Some r')
      else ei ← query_cache (get_end_iterator_by_table_id (r_t_id r)); mret (ei, None)
  | None => ei ← query_cache (get_end_iterator_by_table_id (r_t_id r)); mret (ei, None)
  end.
(** One step back, if that stays in the table. *)
Definition step_back (t : Z) (x : option (Z * table_row V)) : MC (Z * option (table_row V)) :=
  match x with
  | None => mret (-1, None)
  | Some (o, r) => if r_t_id r =? t then i ← with_cache (cache_add o); mret (i, Some r) else mret (-1, None)
  end.
Definition previous_row_by (key : table_row V -> list Z) (iterator : Z) : MC (Z * option (table_row V)) :=
  if iterator <? -1 then
    tab ← query_cache (find_table_by_end_iterator iterator);
    tab ← lift (of_option invalid_table_iterator tab);
    _ ← table_at tab;
    c ← get;
    step_back tab (before_upper key [tab] (rows (index c)))
  else
    '(o, r) ← get_row iterator;
    c ← get;
    step_back (r_t_id r) (before key (key r) (rows (index c))).

(** The primary key is an output of most calls, the secondary key of some. *)
Definition with_primary (x : Z * option (table_row V)) : Z * option Z := (x.1, r_primary_key <$> x.2).
Definition with_both (x : Z * option (table_row V)) : Z * option (Z * V) :=
  (x.1, (fun r => (r_primary_key r, r_value r)) <$> x.2).
End index.

(** ** Rows by primary key *)
Definition db_store_i64 (scope table : Z) (payer : account_name) (id : Z) (buffer : bytes) : MC Z :=
  c ← get;
  tableid ← find_or_create_table (cx_receiver c) scope table payer;
  _ ← st_assert (negb (payer =? 0)) invalid_table_payer;
  obj ← create_row keyval (TableRow tableid id payer buffer);
  _ ← change_count tableid 1;
  let billable_size := i64 (Z.of_nat (length buffer) + key_value_object_size) in
  _ ← update_db_usage payer billable_size;
  _ ← with_cache keyval (cache_table tableid);
  with_cache keyval (cache_add obj).

Definition db_update_i64 (iterator : Z) (payer : account_name) (buffer : bytes) : MC unit :=
  '(o, obj) ← get_row keyval iterator;
  _ ← own_table keyval (r_t_id obj);
  let overhead := key_value_object_size in
  let old_size := i64 (Z.of_nat (length (r_value obj)) + overhead) in
  let new_size := i64 (Z.of_nat (length buffer) + overhead) in
  let payer := if payer =? 0 then r_payer obj else payer in
  _ ← (if negb (r_payer obj =? payer) then
         _ ← update_db_usage (r_payer obj) (i64 (- old_size));
         update_db_usage payer new_size
       else if negb (old_size =? new_size) then update_db_usage (r_payer obj) (i64 (new_size - old_size))
       else mret tt);
  modify_row keyval o (TableRow (r_t_id obj) (r_primary_key obj) payer buffer).

Definition db_remove_i64 (iterator : Z) : MC unit :=
  '(o, obj) ← get_row keyval iterator;
  t ← own_table keyval (r_t_id obj);
  _ ← update_db_usage (r_payer obj) (i64 (u64 (- (Z.of_nat (length (r_value obj)) + key_value_object_size))));
  drop_row keyval iterator o t.

(** The size of the row, or the part of it that fits the buffer. *)
Definition db_get_i64 (iterator : Z) (buffer_size : nat) : MC (Z * bytes) :=
  '(_, obj) ← get_row keyval iterator;
  let s := length (r_value obj) in
  if (buffer_size =? 0)%nat then mret (i32 (Z.of_nat s), [])
  else mret (i32 (Z.of_nat (min buffer_size s)), take (min buffer_size s) (r_value obj)).

Definition db_next_i64 (iterator : Z) : MC (Z * option Z) :=
  x ← next_row_by keyval by_primary iterator; mret (with_primary x).
Definition db_previous_i64 (iterator : Z) : MC (Z * option Z) :=
  x ← previous_row_by keyval by_primary iterator; mret (with_primary x).
Definition db_find_i64 (code scope table id : Z) : MC Z :=
  x ← search keyval (fun t => find_row by_primary [t; id]) code scope table; mret x.1.
Definition db_lowerbound_i64 (code scope table id : Z) : MC Z :=
  x ← search keyval (fun t => lower_bound by_primary [t; id]) code scope table; mret x.1.
Definition db_upperbound_i64 (code scope table id : Z) : MC Z :=
  x ← search keyval (fun t => upper_bound by_primary [t; id]) code scope table; mret x.1.
Definition db_end_i64 (code scope table : Z) : MC Z := search_end keyval code scope table.

(** ** Secondary indices *)
Section generic_index.
Context (I : Index Z).

Definition idx_store (scope table : Z) (payer : account_name) (id secondary : Z) : MC Z :=
  _ ← st_assert (negb (payer =? 0)) invalid_table_payer;
  c ← get;
  tab ← find_or_create_table (cx_receiver c) scope table payer;
  obj ← create_row I (TableRow tab id payer secondary);
  _ ← change_count tab 1;
  _ ← update_db_usage payer (row_size secondary);
  _ ← with_cache I (cache_table tab);
  with_cache I (cache_add obj).

Definition idx_remove (iterator : Z) : MC unit :=
  '(o, obj) ← get_row I iterator;
  _ ← update_db_usage (r_payer obj) (i64 (u64 (- row_size (r_value obj))));
  t ← own_table I (r_t_id obj);
  drop_row I iterator o t.

Definition idx_update (iterator : Z) (payer : account_name) (secondary : Z) : MC unit :=
  '(o, obj) ← get_row I iterator;
  _ ← own_table I (r_t_id obj);
  let payer := if payer =? 0 then r_payer obj else payer in
  let billing_size := row_size (r_value obj) in
  _ ← (if negb (r_payer obj =? payer) then
         _ ← update_db_usage (r_payer obj) (- billing_size);
         update_db_usage payer billing_size
       else mret tt);
  modify_row I o (TableRow (r_t_id obj) (r_primary_key obj) payer secondary).

Definition find_secondary (code scope table secondary : Z) : MC (Z * option Z) :=
  x ← search I (fun t => find_row by_secondary [t; secondary]) code scope table; mret (with_primary x).
Definition lowerbound_secondary (code scope table secondary : Z) : MC (Z * option (Z * Z)) :=
  x ← search I (fun t => lower_bound by_secondary [t; secondary]) code scope table; mret (with_both x).
Definition upperbound_secondary (code scope table secondary : Z) : MC (Z * option (Z * Z)) :=
  x ← search I (fun t => upper_bound by_secondary [t; secondary]) code scope table; mret (with_both x).
Definition end_secondary (code scope table : Z) : MC Z := search_end I code scope table.
Definition next_secondary (iterator : Z) : MC (Z * option Z) :=
  x ← next_row_by I by_secondary iterator; mret (with_primary x).
Definition previous_secondary (iterator : Z) : MC (Z * option Z) :=
  x ← previous_row_by I by_secondary iterator; mret (with_primary x).
Definition find_primary (code scope table primary : Z) : MC (Z * option Z) :=
  x ← search I (fun t => find_row by_primary [t; primary]) code scope table; mret (x.1, r_value <$> x.2).
Definition lowerbound_primary (code scope table primary : Z) : MC Z :=
  x ← search I (fun t => lower_bound by_primary [t; primary]) code scope table; mret x.1.
Definition upperbound_primary (code scope table primary : Z) : MC Z :=
  x ← search I (fun t => upper_bound by_primary [t; primary]) code scope table; mret x.1.
Definition next_primary (iterator : Z) : MC (Z * option Z) :=
  x ← next_row_by I by_primary iterator; mret (with_primary x).
Definition previous_primary (iterator : Z) : MC (Z * option Z) :=
  x ← previous_row_by I by_primary iterator; mret (with_primary x).
Definition idx_get (iterator : Z) : MC (Z * Z) :=
  '(_, obj) ← get_row I iterator; mret (r_primary_key obj, r_value obj).
End generic_index.

(** ** The interface

    The calls a contract can make. *)
Inductive idx_call :=
| IdxStore (scope table : Z) (payer : account_name) (id secondary : Z)
| IdxRemove (iterator : Z)
| IdxUpdate (iterator : Z) (payer : account_name) (secondary : Z)
| IdxFindSecondary (code scope table secondary : Z)
| IdxLowerboundSecondary (code scope table secondary : Z)
| IdxUpperboundSecondary (code scope table secondary : Z)
| IdxEnd (code scope table : Z)
| IdxNextSecondary (iterator : Z)
| IdxPreviousSecondary (iterator : Z)
| IdxFindPrimary (code scope table primary : Z)
| IdxLowerboundPrimary (code scope table primary : Z)
| IdxUpperboundPrimary (code scope table primary : Z)
| IdxNextPrimary (iterator : Z)
| IdxPreviousPrimary (iterator : Z)
| IdxGet (iterator : Z).
Inductive db_call :=
| DbStore (scope table : Z) (payer : account_name) (id : Z) (buffer : bytes)
| DbUpdate (iterator : Z) (payer : account_name) (buffer : bytes)
| DbRemove (iterator : Z)
| DbGet (iterator : Z) (buffer_size : nat)
| DbNext (iterator : Z)
| DbPrevious (iterator : Z)
| DbFind (code scope table id : Z)
| DbLowerbound (code scope table id : Z)
| DbUpperbound (code scope table id : Z)
| DbEnd (code scope table : Z)
| DbIdx64 (k : idx_call)
| DbIdx128 (k : idx_call).

Definition ignore {A} (m : MC A) : MC unit := _ ← m; mret tt.
Definition run_idx (I : Index Z) (k : idx_call) : MC unit :=
  match k with
  | IdxStore s t p i v => ignore (idx_store I s t p i v)
  | IdxRemove i => idx_remove I i
  | IdxUpdate i p v => idx_update I i p v
  | IdxFindSecondary c s t v => ignore (find_secondary I c s t v)
  | IdxLowerboundSecondary c s t v => ignore (lowerbound_secondary I c s t v)
  | IdxUpperboundSecondary c s t v => ignore (upperbound_secondary I c s t v)
  | IdxEnd c s t => ignore (end_secondary I c s t)
  | IdxNextSecondary i => ignore (next_secondary I i)
  | IdxPreviousSecondary i => ignore (previous_secondary I i)
  | IdxFindPrimary c s t i => ignore (find_primary I c s t i)
  | IdxLowerboundPrimary c s t i => ignore (lowerbound_primary I c s t i)
  | IdxUpperboundPrimary c s t i => ignore (upperbound_primary I c s t i)
  | IdxNextPrimary i => ignore (next_primary I i)
  | IdxPreviousPrimary i => ignore (previous_primary I i)
  | IdxGet i => ignore (idx_get I i)
  end.
Definition run_call (k : db_call) : MC unit :=
  match k with
  | DbStore s t p i b => ignore (db_store_i64 s t p i b)
  | DbUpdate i p b => db_update_i64 i p b
  | DbRemove i => db_remove_i64 i
  | DbGet i n => ignore (db_get_i64 i n)
  | DbNext i => ignore (db_next_i64 i)
  | DbPrevious i => ignore (db_previous_i64 i)
  | DbFind c s t i => ignore (db_find_i64 c s t i)
  | DbLowerbound c s t i => ignore (db_lowerbound_i64 c s t i)
  | DbUpperbound c s t i => ignore (db_upperbound_i64 c s t i)
  | DbEnd c s t => ignore (db_end_i64 c s t)
  | DbIdx64 k => run_idx idx64 k
  | DbIdx128 k => run_idx idx128 k
  end.
End tables.
