(* ===== verification/TablesInvariant.v ===== *)
(** * What the tables of contracts promise

    Theorems on [ContractTables]: the iterators of a contract stay valid, a contract
    changes only its own tables, memory is billed exactly, and iteration visits a table in
    the order of its keys. *)
From Stdlib Require Import Ascii String.
From S2P Require Import Prelude Merkle BlockHeaderState Names Raw Authority Transactions.
From S2P Require Import AuthorizationManager ResourceLimits NativeContract Controller Billing ContractTables.

(** ** Searching an ordered index *)
Section ordered.
Context {V : Type} (key : table_row V -> list Z).
Implicit Types (rs : gmap Z (table_row V)) (x : Z * table_row V).

Lemma sequence_elem rs x : x ∈ sequence key rs <-> rs !! x.1 = Some x.2.
Proof. unfold sequence. rewrite merge_sort_Permutation. destruct x. apply elem_of_map_to_list. Qed.
Lemma head_filter_elem (P : Z * table_row V -> Prop) `{!forall x, Decision (P x)} rs x :
  head (filter P (sequence key rs)) = Some x -> rs !! x.1 = Some x.2 /\ P x.
Proof.
  intros Hh. assert (x ∈ filter P (sequence key rs)) as [? Hin]%list_elem_of_filter.
  { destruct (filter _ _); [done|]. injection Hh as ->. by left. }
  by rewrite <- sequence_elem.
Qed.
Lemma last_filter_elem (P : Z * table_row V -> Prop) `{!forall x, Decision (P x)} rs x :
  last (filter P (sequence key rs)) = Some x -> rs !! x.1 = Some x.2 /\ P x.
Proof.
  intros Hh. assert (x ∈ filter P (sequence key rs)) as [? Hin]%list_elem_of_filter.
  { apply last_Some in Hh as [l ->]. set_solver. }
  by rewrite <- sequence_elem.
Qed.
Lemma head_filter_None (P : Z * table_row V -> Prop) `{!forall x, Decision (P x)} rs x :
  head (filter P (sequence key rs)) = None -> rs !! x.1 = Some x.2 -> ~ P x.
Proof.
  intros Hh Hx HP.
  assert (Hin : x ∈ filter P (sequence key rs)) by (apply list_elem_of_filter; by rewrite sequence_elem).
  destruct (filter _ _); [by apply not_elem_of_nil in Hin|done].
Qed.
End ordered.

(** ** Iterators *)
Record cache_ok {V} (rs : gmap Z (table_row V)) (k : iterator_cache) : Prop := {
  ck_object : forall i o, iterator_to_object k !! i = Some (Some o) -> object_to_iterator k !! o = Some (Z.of_nat i);
  ck_iterator : forall o i, object_to_iterator k !! o = Some i ->
    0 <= i /\ iterator_to_object k !! Z.to_nat i = Some (Some o);
  ck_live : forall o i, object_to_iterator k !! o = Some i ->
    exists r, rs !! o = Some r /\ is_Some (table_cache k !! r_t_id r);
  ck_table : forall t p, table_cache k !! t = Some p ->
    p.1 = t /\ exists n, end_iterator_to_table k !! n = Some t /\ p.2 = - (Z.of_nat n + 2);
  ck_end : forall n t, end_iterator_to_table k !! n = Some t -> is_Some (table_cache k !! t)
}.

(** Room for one more iterator of each sort. *)
Definition cache_room (k : iterator_cache) : Prop :=
  Z.of_nat (length (iterator_to_object k)) < 2 ^ 31 - 1 /\ Z.of_nat (length (end_iterator_to_table k)) < 2 ^ 31 - 2.

Section cache.
Context {V : Type}.
Implicit Types (rs : gmap Z (table_row V)) (k : iterator_cache).

Lemma new_cache_ok rs : cache_ok rs new_cache.
Proof. split; cbn; intros; try (by rewrite lookup_empty in *); by rewrite lookup_nil in *. Qed.

Lemma cache_table_ok rs k t : cache_ok rs k -> cache_room k ->
  cache_ok rs (cache_table t k).1 /\ is_Some (table_cache (cache_table t k).1 !! t) /\
  iterator_to_object (cache_table t k).1 = iterator_to_object k.
Proof.
  intros Hk [_ Hr]. pose proof Hk as [H1 H2 H3 H4 H5]. unfold cache_table.
  destruct (table_cache k !! t) as [[t' ei]|] eqn:E; cbn; [by eauto|].
  split_and!; [|rewrite lookup_insert_eq; eauto|done]. split; cbn; [done|done|..].
  - intros o i Ho. destruct (H3 o i Ho) as (r & Hrow & Hc). exists r. split; [done|].
    apply lookup_insert_is_Some'. by right.
  - intros t1 p [[<- <-]|[Hne Hp]]%lookup_insert_Some.
    + split; [done|]. exists (length (end_iterator_to_table k)). split; [by rewrite lookup_app_r, Nat.sub_diag by lia|].
      cbn. unfold index_to_end_iterator. rewrite i32_small; lia.
    + destruct (H4 _ _ Hp) as (? & n & Hn & ?). split; [done|]. exists n. split; [|done]. by apply lookup_app_l_Some.
  - intros n u [Hn|[_ Hn]]%lookup_app_Some.
    + apply lookup_insert_is_Some'. right. by eapply H5.
    + apply list_lookup_singleton_Some in Hn as [_ <-]. rewrite lookup_insert_eq. eauto.
Qed.

Lemma cache_add_ok rs k o r : cache_ok rs k -> Z.of_nat (length (iterator_to_object k)) < 2 ^ 31 - 1 -> rs !! o = Some r ->
  is_Some (table_cache k !! r_t_id r) ->
  cache_ok rs (cache_add o k).1 /\ object_to_iterator (cache_add o k).1 !! o = Some (cache_add o k).2.
Proof.
  intros Hk Hr Ho Ht. pose proof Hk as [H1 H2 H3 H4 H5]. unfold cache_add.
  destruct (object_to_iterator k !! o) as [i|] eqn:E; cbn; [done|].
  rewrite i32_small by lia. split; [|by rewrite lookup_insert_eq]. split; cbn; [..|done|done].
  - intros i o' Hi. destruct (decide (i < length (iterator_to_object k))%nat).
    + rewrite lookup_app_l in Hi by done. apply H1 in Hi. rewrite lookup_insert_ne; [done|]. congruence.
    + rewrite lookup_app_r in Hi by lia. apply list_lookup_singleton_Some in Hi as [Hz Heq]. injection Heq as <-.
      rewrite lookup_insert_eq. f_equal. lia.
  - intros o' i [[<- <-]|[Hne Hi]]%lookup_insert_Some.
    + split; [lia|]. rewrite Nat2Z.id, lookup_app_r, Nat.sub_diag by lia. done.
    + destruct (H2 _ _ Hi). split; [done|]. by apply lookup_app_l_Some.
  - intros o' i [[<- <-]|[Hne Hi]]%lookup_insert_Some; eauto.
Qed.

Lemma cache_get_spec rs k i o : cache_ok rs k -> cache_get i k = Ok o ->
  object_to_iterator k !! o = Some i.
Proof.
  intros Hk Hg. unfold cache_get in Hg. bind_ok Hg as (_ & _ & Hg). bind_ok Hg as (u & Hi & Hg).
  bind_ok Hg as (_ & _ & Hg). rewrite bes_assert_ok in Hi. rewrite of_option_ok in Hg.
  destruct (iterator_to_object k !! Z.to_nat i) as [[o'|]|] eqn:E; cbn in Hg; try done. injection Hg as ->.
  apply (ck_object _ _ Hk) in E. bool_to_prop. by rewrite Z2Nat.id in E.
Qed.

(** Removing the iterator of a row that is removed. *)
Lemma cache_remove_ok rs k i o : cache_ok rs k -> object_to_iterator k !! o = Some i ->
  exists k', cache_remove i k = Ok k' /\ cache_ok (delete o rs) k'.
Proof.
  intros Hk Ho. pose proof Hk as [H1 H2 H3 H4 H5]. destruct (H2 _ _ Ho) as [Hi Hl].
  pose proof (lookup_lt_Some _ _ _ Hl) as Hlt.
  unfold cache_remove. rewrite (proj2 (Z.eqb_neq i (-1))), (proj2 (Z.leb_le 0 i)), (proj2 (Z.ltb_lt i _)) by lia.
  cbn. rewrite Hl. cbn. eexists. split; [done|]. split; cbn; [..|done|done].
  - intros j o' Hj. destruct (decide (j = Z.to_nat i)) as [->|Hne].
    + by rewrite list_lookup_insert_eq in Hj.
    + rewrite list_lookup_insert_ne in Hj by done. rewrite lookup_delete_ne; [by apply H1|].
      intros <-. apply H1 in Hj. rewrite Ho in Hj. injection Hj as ->. lia.
  - intros o' j [Hne Hj]%lookup_delete_Some. destruct (H2 _ _ Hj) as [? Hlj]. split; [done|].
    rewrite list_lookup_insert_ne; [done|]. intros E. rewrite E in Hl. congruence.
  - intros o' j [Hne Hj]%lookup_delete_Some. destruct (H3 _ _ Hj) as (r & Hr & Ht). exists r.
    by rewrite lookup_delete_ne.
Qed.

(** Rows that come or change in place leave iterators valid. *)
Lemma cache_ok_rows rs rs' k : cache_ok rs k ->
  (forall o r, rs !! o = Some r -> exists r', rs' !! o = Some r' /\ r_t_id r' = r_t_id r) -> cache_ok rs' k.
Proof.
  intros [H1 H2 H3 H4 H5] Hrs. split; try done. intros o i Ho.
  destruct (H3 o i Ho) as (r & Hr & Ht). destruct (Hrs o r Hr) as (r' & Hr' & E). exists r'. by rewrite E.
Qed.
End cache.

(** ** The invariant *)
Record store_ok {V} (T : gmap Z table_id_object) (s : store V) : Prop := {
  so_id : forall o r, rows s !! o = Some r -> o < next_row s;
  so_table : forall o r, rows s !! o = Some r -> is_Some (T !! r_t_id r);
  so_unique : forall o o' r r', rows s !! o = Some r -> rows s !! o' = Some r' ->
    by_primary r = by_primary r' -> o = o';
  so_cache : cache_ok (rows s) (cache s)
}.
Definition in_table {V} (t : Z) (_ : Z) (r : table_row V) : Z := if r_t_id r =? t then 1 else 0.
Definition rows_in {V} (t : Z) (s : store V) : Z := map_sum (in_table t) (rows s).

(** Over the three indices. *)
Definition stores_ok (T : gmap Z table_id_object) (c : context) : Prop :=
  store_ok T (cx_keyval c) /\ store_ok T (cx_idx64 c) /\ store_ok T (cx_idx128 c).
Definition row_count (t : Z) (c : context) : Z :=
  rows_in t (cx_keyval c) + rows_in t (cx_idx64 c) + rows_in t (cx_idx128 c).

Record tables_ok (c : context) : Prop := {
  to_stores : stores_ok (cx_tables c) c;
  to_id : forall t x, cx_tables c !! t = Some x -> t < cx_next_table c;
  to_unique : forall t t' x x', cx_tables c !! t = Some x -> cx_tables c !! t' = Some x' ->
    t_code x = t_code x' -> t_scope x = t_scope x' -> t_table x = t_table x' -> t = t';
  to_count : forall t x, cx_tables c !! t = Some x -> t_count x = row_count t c /\ 0 < t_count x < 2 ^ 32
}.

(** What rows cost, and whom. *)
Definition row_ram {V} (I : Index V) (a : account_name) (_ : Z) (r : table_row V) : Z :=
  if r_payer r =? a then row_size (r_value r) else 0.
Definition rows_ram {V} (I : Index V) (a : account_name) (s : store V) : Z := map_sum (row_ram I a) (rows s).
Definition table_ram (a : account_name) (_ : Z) (t : table_id_object) : Z :=
  if t_payer t =? a then table_id_object_size else 0.
Definition contract_ram (c : context) (a : account_name) : Z :=
  map_sum (table_ram a) (cx_tables c) + rows_ram keyval a (cx_keyval c) + rows_ram idx64 a (cx_idx64 c)
  + rows_ram idx128 a (cx_idx128 c).

(** The rows of the tables in [P] are the same. *)
Definition same_rows {V} (P : Z -> Prop) (s s' : store V) : Prop :=
  forall o r, P (r_t_id r) -> rows s' !! o = Some r <-> rows s !! o = Some r.
Definition same_stores (P : Z -> Prop) (c c' : context) : Prop :=
  same_rows P (cx_keyval c) (cx_keyval c') /\ same_rows P (cx_idx64 c) (cx_idx64 c') /\
  same_rows P (cx_idx128 c) (cx_idx128 c').

Definition stores_room (c : context) : Prop :=
  cache_room (cache (cx_keyval c)) /\ cache_room (cache (cx_idx64 c)) /\ cache_room (cache (cx_idx128 c)).
Definition room (c : context) : Prop := stores_room c /\ forall t, row_count t c < 2 ^ 32 - 1.

(** Everything but the rows. *)
Definition base (c : context) :=
  (cx_chain c, cx_tables c, cx_next_table c, cx_receiver c, cx_privileged c, cx_act c).
Definition stores (c : context) := (cx_keyval c, cx_idx64 c, cx_idx128 c).

Definition with_chain (h : chain) (c : context) : context :=
  Context h (cx_tables c) (cx_next_table c) (cx_keyval c) (cx_idx64 c) (cx_idx128 c) (cx_receiver c)
    (cx_privileged c) (cx_act c).
Definition with_tables (T : gmap Z table_id_object) (n : Z) (c : context) : context :=
  Context (cx_chain c) T n (cx_keyval c) (cx_idx64 c) (cx_idx128 c) (cx_receiver c)
    (cx_privileged c) (cx_act c).

(** What the proofs use of an index: it is one of the three. *)
Class IndexLaws {V} (I : Index V) : Prop := {
  index_set s c : index (set_index s c) = s;
  set_base s c : base (set_index s c) = base c;
  index_same c c' : stores c = stores c' -> index c = index c';
  index_ok T c : stores_ok T c -> store_ok T (index c);
  set_ok T s c : stores_ok T c -> store_ok T s -> stores_ok T (set_index s c);
  set_count t s c : row_count t (set_index s c) = row_count t c - rows_in t (index c) + rows_in t s;
  set_ram a s c : contract_ram (set_index s c) a = contract_ram c a - rows_ram I a (index c) + rows_ram I a s;
  set_same P s c : same_rows P (index c) s -> same_stores P c (set_index s c);
  index_room c : stores_room c -> cache_room (cache (index c));
  index_count t c : rows_in t (index c) <= row_count t c;
  set_set s s' c : set_index s (set_index s' c) = set_index s c;
  set_with_tables s T n c : set_index s (with_tables T n c) = with_tables T n (set_index s c);
  set_with_chain s h c : set_index s (with_chain h c) = with_chain h (set_index s c)
}.

Ltac index_laws :=
  split; unfold stores_ok, row_count, contract_ram, same_stores, stores_room, stores; cbn; intros;
  try done; try naive_solver; try lia.

Lemma same_rows_refl {V} P (s : store V) : same_rows P s s.
Proof. done. Qed.
#[export] Hint Resolve same_rows_refl : core.
Lemma rows_in_nonneg {V} t (s : store V) : 0 <= rows_in t s.
Proof. apply map_sum_nonneg. intros k r. unfold in_table. destruct (_ =? _); lia. Qed.

Ltac nonneg_counts :=
  repeat match goal with |- context [rows_in ?t ?s] =>
    let n := fresh "n" in pose proof (rows_in_nonneg t s); generalize dependent (rows_in t s); intros n ? end.
#[global] Instance keyval_laws : IndexLaws keyval.
Proof. index_laws. nonneg_counts. lia. Qed.
#[global] Instance idx64_laws : IndexLaws idx64.
Proof. index_laws. nonneg_counts. lia. Qed.
#[global] Instance idx128_laws : IndexLaws idx128.
Proof. index_laws. nonneg_counts. lia. Qed.

(** ** Charging an account *)

(** The exceptions a contract can cause; the others mean that the node is broken. *)
Definition fine (e : exn) : Prop := e <> undefined_behaviour /\ e <> table_not_in_cache.

Definition owes (p : account_name) (d : Z) (a : account_name) : Z := if a =? p then d else 0.

Lemma owes_opp p d a : owes p (- d) a = - owes p d a.
Proof. unfold owes. by destruct (a =? p). Qed.
Lemma congruent_owes p d d' a : congruent d d' -> congruent (owes p d a) (owes p d' a).
Proof. intros Hd. unfold owes. destruct (a =? p); [done|apply congruent_refl]. Qed.
Lemma congruent_sym x y : congruent x y -> congruent y x.
Proof. intros [k ->]. exists (- k). lia. Qed.
#[export] Hint Resolve congruent_owes : congruent.
Lemma congruent_refund p d m a : congruent d (- m) -> congruent (0 - owes p d a) (owes p m a).
Proof.
  intros Hd. replace (owes p m a) with (0 - owes p (- m) a) by (rewrite owes_opp; lia). auto with congruent.
Qed.

(** What charging does to the part of the usage that contracts explain. *)
Definition charges (h : chain) (p : account_name) (d : Z) (h' : chain) : Prop :=
  forall a, unexplained h' a = u64 (unexplained h a + owes p d a).

Lemma charges_same h h' p d h'' : accounting h' = accounting h -> charges h' p d h'' -> charges h p d h''.
Proof.
  intros E Hc a. rewrite Hc. f_equal. f_equal. symmetry. apply (books_end _ 0).
  eapply books_same; [symmetry; exact E|]. apply books_start.
Qed.

Lemma wpe_and {S A} E (m : St S A) Q1 Q2 s : wpe E m Q1 s -> wp m Q2 s -> wpe E m (fun a s' => Q1 a s' /\ Q2 a s') s.
Proof. unfold wpe, wp. by destruct (m s) as [s' [a|e]]. Qed.

Lemma add_ram_usage_fine p d h : wpe fine (add_ram_usage p d) (fun _ _ => True) h.
Proof.
  unfold add_ram_usage. wpe_step. unfold wpe at 1, on_limits. 
  assert (Hf : wpe fine (add_pending_ram_usage p d) (fun _ _ => True) (ch_limits h)).
  { unfold add_pending_ram_usage, get_usage, set_usage. wpe_step; [done|]. do 3 wpe_step.
    apply wpe_of_option; [|done]. intros u Hu. do 4 wpe_step. done. }
  unfold wpe in Hf. destruct (add_pending_ram_usage p d (ch_limits h)) as [l [[]|e]]; [|done].
  wpe_step; wpe_step; done.
Qed.

Lemma wpe_charge p d h : wpe fine (add_ram_usage p d) (fun _ h' => charges h p d h') h.
Proof.
  apply wpe_mono with (Q1 := fun _ h' => True /\ charges h p d h'); [|by intros _ h' []].
  apply wpe_and; [apply add_ram_usage_fine|]. eapply wp_mono; [apply (wp_charge (unexplained h) p 0); apply books_start|]. cbv beta. intros _ h' [Hb _] a.
  rewrite <- (Hb a). unfold unexplained, owes.
  destruct (u64_cong (charged h' a - native_ram h' a + (if a =? p then 0 - d else 0))) as [k ->].
  apply (u64_eq _ _ (-k)). destruct (a =? p); lia.
Qed.

Lemma wpe_on_chain {A} E (m : St chain A) Q c :
  wpe E m (fun x h => Q x (with_chain h c)) (cx_chain c) -> wpe E (on_chain m) Q c.
Proof. unfold wpe, on_chain. by destruct (m (cx_chain c)) as [h [x|e]]. Qed.

Lemma wpe_usage `{NativeEnv} p d Q c :
  (forall h, charges (cx_chain c) p d h -> Q tt (with_chain h c)) -> wpe fine (update_db_usage p d) Q c.
Proof.
  intros HQ. unfold update_db_usage. do 3 wpe_step.
  apply wpe_mono with (Q1 := fun _ c' => exists h, c' = with_chain h c /\ accounting h = accounting (cx_chain c)).
  - wpe_step; [|wpe_step; exists (cx_chain c); by destruct c]. do 2 wpe_step.
    apply wpe_on_chain. unfold require_authorization. do 3 wpe_step; [|done]. wpe_step. by eexists.
  - intros _ c' (h & -> & Ha). apply wpe_on_chain. eapply wpe_mono; [apply wpe_charge|].
    cbv beta. intros [] h' Hc. apply (HQ h'). by eapply charges_same.
Qed.

(** ** Progress of a call

    [progress c0 z w c]: a call that started in [c0] has reached [c], where table [z] may
    be without rows and the accounts owe [w]. *)
Record tables_but (z : option Z) (c : context) : Prop := {
  tb_stores : stores_ok (cx_tables c) c;
  tb_id : forall t x, cx_tables c !! t = Some x -> t < cx_next_table c;
  tb_unique : forall t t' x x', cx_tables c !! t = Some x -> cx_tables c !! t' = Some x' ->
    t_code x = t_code x' -> t_scope x = t_scope x' -> t_table x = t_table x' -> t = t';
  tb_count : forall t x, cx_tables c !! t = Some x ->
    t_count x = row_count t c /\ 0 <= t_count x < 2 ^ 32 /\ (z <> Some t -> 0 < t_count x)
}.
Definition foreign (c : context) (t : Z) : Prop :=
  exists x, cx_tables c !! t = Some x /\ t_code x <> cx_receiver c.
Record progress (c0 : context) (z : option Z) (w : account_name -> Z) (c : context) : Prop := {
  pr_tables : tables_but z c;
  pr_bill : forall a, u64 (unexplained (cx_chain c) a - contract_ram c a + w a)
    = u64 (unexplained (cx_chain c0) a - contract_ram c0 a);
  pr_names : forall t x, t_code x <> cx_receiver c0 -> cx_tables c !! t = Some x <-> cx_tables c0 !! t = Some x;
  pr_rows : same_stores (foreign c0) c0 c;
  pr_frame : cx_receiver c = cx_receiver c0
}.

Lemma tables_but_none c : tables_but None c <-> tables_ok c.
Proof.
  split; intros [H1 H2 H3 H4]; split; try done; intros t x Hx; destruct (H4 t x Hx) as (? & ?); naive_solver lia.
Qed.
Lemma progress_start c : tables_ok c -> progress c None (fun _ => 0) c.
Proof.
  intros Hc. split; try done; [by apply tables_but_none|intros a; f_equal; lia].
Qed.
Lemma progress_charge c0 z w c p d h : progress c0 z w c -> charges (cx_chain c) p d h ->
  progress c0 z (fun a => w a - owes p d a) (with_chain h c).
Proof.
  intros [[] H2 H3 H4 H5] Hc. split; try done. intros a. rewrite <- (H2 a). cbn. rewrite Hc.
  change (contract_ram (with_chain h c) a) with (contract_ram c a).
  destruct (u64_cong (unexplained (cx_chain c) a + owes p d a)) as [k ->]. apply (u64_eq _ _ k). lia.
Qed.

(** ** Changes of tables *)
Lemma rows_in_elem {V} t (s : store V) o r : rows s !! o = Some r -> r_t_id r = t -> 1 <= rows_in t s.
Proof.
  intros Ho Ht. pose proof (map_sum_elem_le (in_table t) (rows s) o r) as Hle.
  unfold in_table at 2 3 in Hle. rewrite Ht, Z.eqb_refl in Hle. apply Hle; [|done].
  intros k a _. unfold in_table. destruct (_ =? _); lia.
Qed.

(** A store stays in order when the tables of its rows stay. *)
Lemma store_ok_tables {V} T T' (s : store V) : store_ok T s ->
  (forall t, 0 < rows_in t s -> is_Some (T !! t) -> is_Some (T' !! t)) -> store_ok T' s.
Proof.
  intros [H1 H2 H3 H4] HT. split; try done. intros o r Ho. apply HT; [|by apply (H2 o)].
  pose proof (rows_in_elem _ s o r Ho eq_refl). lia.
Qed.
Lemma stores_ok_tables T T' c : stores_ok T c ->
  (forall t, 0 < row_count t c -> is_Some (T !! t) -> is_Some (T' !! t)) -> stores_ok T' c.
Proof.
  unfold row_count. intros (H1 & H2 & H3) HT.
  split_and!; (eapply store_ok_tables; [eassumption|]); intros t Ht; apply HT;
    pose proof (rows_in_nonneg t (cx_keyval c)); pose proof (rows_in_nonneg t (cx_idx64 c));
    pose proof (rows_in_nonneg t (cx_idx128 c)); lia.
Qed.
Lemma no_rows T c t : stores_ok T c -> T !! t = None -> row_count t c = 0.
Proof.
  intros (H1 & H2 & H3) Ht. unfold row_count.
  assert (Hz : forall V (s : store V), store_ok T s -> rows_in t s = 0).
  { intros V s [_ Hs _ _]. apply map_sum_zero. intros o r Ho. unfold in_table.
    destruct (Z.eqb_spec (r_t_id r) t) as [<-|]; [|done]. apply Hs in Ho. rewrite Ht in Ho. by destruct Ho. }
  rewrite !Hz by done. done.
Qed.

(** The tables of other contracts are not touched by a change of an own table. *)
Lemma names_insert (T : gmap Z table_id_object) recv t x y u z :
  (T !! t = None \/ T !! t = Some x /\ t_code x = recv) -> t_code y = recv -> t_code z <> recv ->
  <[t := y]> T !! u = Some z <-> T !! u = Some z.
Proof.
  intros Ht Hy Hz. destruct (decide (t = u)) as [<-|]; [|by rewrite lookup_insert_ne].
  rewrite lookup_insert_eq. naive_solver.
Qed.

Section progress.
Context (c0 c : context).

Lemma progress_new_table w code scope table payer :
  progress c0 None w c -> code = cx_receiver c0 ->
  (forall t x, cx_tables c !! t = Some x -> ~ (t_code x = code /\ t_scope x = scope /\ t_table x = table)) ->
  progress c0 (Some (cx_next_table c)) (fun a => w a + owes payer table_id_object_size a)
    (with_tables (<[cx_next_table c := TableId code scope table payer 0]> (cx_tables c)) (cx_next_table c + 1) c).
Proof.
  intros [[H1 H2 H3 H4] Hb Hn Hr Hf] Hc Hnew. set (n := cx_next_table c) in *.
  assert (Hfresh : cx_tables c !! n = None).
  { destruct (cx_tables c !! n) eqn:E; [|done]. apply H2 in E. lia. }
  split; cbn; [split; cbn|..|done|done].
  - eapply stores_ok_tables; [exact H1|]. intros t _ Ht. apply lookup_insert_is_Some'. by right.
  - intros t x [[<- _]|[_ Hx%H2]]%lookup_insert_Some; lia.
  - intros t t' x x' [[<- <-]|[Ht Hx]]%lookup_insert_Some [[<- <-]|[Ht' Hx']]%lookup_insert_Some; cbn; try done.
    + intros. exfalso. by apply (Hnew t' x').
    + intros. exfalso. by apply (Hnew t x).
    + by apply H3.
  - intros t x [[<- <-]|[Ht Hx]]%lookup_insert_Some; cbn.
    + rewrite (no_rows (cx_tables c)) by done. split_and!; try done; lia.
    + destruct (H4 t x Hx) as (? & ? & Hp). split_and!; [done|lia..|]. intros _. apply Hp. done.
  - intros a. rewrite <- (Hb a). f_equal. unfold contract_ram. cbn.
    rewrite map_sum_insert by done. unfold table_ram at 1, owes. cbn. rewrite (Z.eqb_sym a). destruct (_ =? a); lia.
  - intros t x Hx. rewrite <- Hn by done. apply (names_insert _ (cx_receiver c0) _ x); [by left|done|done].
Qed.

Lemma progress_remove_table w t x :
  progress c0 (Some t) w c -> cx_tables c !! t = Some x -> t_count x = 0 -> t_code x = cx_receiver c0 ->
  progress c0 None (fun a => w a - owes (t_payer x) table_id_object_size a)
    (with_tables (delete t (cx_tables c)) (cx_next_table c) c).
Proof.
  intros [[H1 H2 H3 H4] Hb Hn Hr Hf] Hx Hx0 Hc. split; cbn; [split; cbn|..|done|done].
  - apply (stores_ok_tables (cx_tables c) _ c H1). intros u Hu Hs. rewrite lookup_delete_ne; [done|]. intros <-.
    destruct (H4 _ _ Hx). lia.
  - intros u y [_ Hy]%lookup_delete_Some. by apply (H2 u y).
  - intros u u' y y' [_ Hy]%lookup_delete_Some [_ Hy']%lookup_delete_Some. by apply H3.
  - intros u y [Hne Hy]%lookup_delete_Some. destruct (H4 u y Hy) as (? & ? & Hp). split_and!; [done|lia..|].
    intros _. apply Hp. congruence.
  - intros a. rewrite <- (Hb a). f_equal. unfold contract_ram. cbn.
    rewrite (map_sum_delete _ (cx_tables c) t x Hx). unfold table_ram at 2, owes. rewrite (Z.eqb_sym a).
    destruct (_ =? a); lia.
  - intros u y Hy. rewrite <- Hn by done. destruct (decide (u = t)) as [->|]; [|by rewrite lookup_delete_ne].
    rewrite lookup_delete_eq, Hx. split; [done|]. intros [= ->]. done.
Qed.

Lemma progress_settled w t : progress c0 (Some t) w c ->
  (forall x, cx_tables c !! t = Some x -> 0 < t_count x) -> progress c0 None w c.
Proof.
  intros [[H1 H2 H3 H4] Hb Hn Hr Hf] Hp. split; try done. split; try done. intros u y Hy.
  destruct (H4 u y Hy) as (? & ? & Hq). split_and!; [done|lia..|]. intros _.
  destruct (decide (u = t)) as [->|]; [by apply Hp|apply Hq; congruence].
Qed.
End progress.

(** ** Changes of rows *)
Section rows.
Context {V : Type} (I : Index V) `{!IndexLaws I}.
Implicit Types (c : context) (s : store V).

Lemma set_cx_tables s c : cx_tables (set_index s c) = cx_tables c.
Proof. pose proof (set_base s c) as E. unfold base in E. congruence. Qed.
Lemma set_cx_next s c : cx_next_table (set_index s c) = cx_next_table c.
Proof. pose proof (set_base s c) as E. unfold base in E. congruence. Qed.
Lemma set_cx_chain s c : cx_chain (set_index s c) = cx_chain c.
Proof. pose proof (set_base s c) as E. unfold base in E. congruence. Qed.
Lemma set_cx_receiver s c : cx_receiver (set_index s c) = cx_receiver c.
Proof. pose proof (set_base s c) as E. unfold base in E. congruence. Qed.

Lemma same_stores_trans P c1 c2 c3 : same_stores P c1 c2 -> same_stores P c2 c3 -> same_stores P c1 c3.
Proof. unfold same_stores, same_rows. naive_solver. Qed.

(** Rows change in place. *)
Lemma progress_set c0 z w w' c s :
  progress c0 z w c -> store_ok (cx_tables c) s -> (forall t, rows_in t s = rows_in t (index c)) ->
  (forall a, w' a = w a + rows_ram I a s - rows_ram I a (index c)) ->
  same_rows (foreign c0) (index c) s -> progress c0 z w' (set_index s c).
Proof.
  intros [[H1 H2 H3 H4] Hb Hn Hr Hf] Hs Hc Hw Hsame.
  split; [split|..]; rewrite ?set_cx_tables, ?set_cx_next, ?set_cx_chain, ?set_cx_receiver; try done.
  - by apply set_ok.
  - intros t x Hx. rewrite set_count, Hc. destruct (H4 t x Hx) as (? & ? & ?). split_and!; [lia|lia..|done].
  - intros a. rewrite <- (Hb a), set_ram, Hw. f_equal. lia.
  - eapply same_stores_trans; [exact Hr|]. by apply set_same.
Qed.

(** A row comes or goes, and the count of its table with it. *)
Lemma progress_put c0 z w w' c s t x d :
  progress c0 z w c -> store_ok (cx_tables c) s -> z = None \/ z = Some t ->
  cx_tables c !! t = Some x -> t_code x = cx_receiver c0 ->
  (forall u, rows_in u s = rows_in u (index c) + owes t d u) -> 0 <= t_count x + d < 2 ^ 32 ->
  (forall a, w' a = w a + rows_ram I a s - rows_ram I a (index c)) ->
  same_rows (foreign c0) (index c) s ->
  progress c0 (Some t) w' (with_tables
    (<[t := TableId (t_code x) (t_scope x) (t_table x) (t_payer x) (t_count x + d)]> (cx_tables c))
    (cx_next_table c) (set_index s c)).
Proof.
  intros [[H1 H2 H3 H4] Hb Hn Hr Hf] Hs Hz Hx Hcode Hc Hd Hw Hsame.
  assert (Hdom : forall u, is_Some (cx_tables c !! u) -> is_Some (<[t :=
    TableId (t_code x) (t_scope x) (t_table x) (t_payer x) (t_count x + d)]> (cx_tables c) !! u)).
  { intros u Hu. apply lookup_insert_is_Some'. by right. }
  split; cbn; [split; cbn|..|by rewrite set_cx_receiver].
  - apply (stores_ok_tables (cx_tables c) _ (set_index s c)); [by apply set_ok|]. intros u _. apply Hdom.
  - intros u y [[<- _]|[_ Hy]]%lookup_insert_Some; eauto.
  - intros u u' y y' [[<- <-]|[Ht Hy]]%lookup_insert_Some [[<- <-]|[Ht' Hy']]%lookup_insert_Some; cbn; eauto.
  - intros u y Hy. change (row_count u (with_tables _ _ ?a)) with (row_count u a). rewrite set_count, Hc.
    apply lookup_insert_Some in Hy as [[<- <-]|[Hne Hy]]; cbn; unfold owes.
    + rewrite Z.eqb_refl. destruct (H4 t x Hx) as (? & ? & ?). split_and!; [lia..|done].
    + rewrite (proj2 (Z.eqb_neq u t)) by done. destruct (H4 u y Hy) as (? & ? & Hp). split_and!; [lia..|].
      intros _. apply Hp. destruct Hz as [->| ->]; congruence.
  - intros a. rewrite <- (Hb a), set_cx_chain, Hw. pose proof (set_ram a s c) as E. unfold contract_ram in E |- *. cbn.
    rewrite set_cx_tables in E. rewrite (map_sum_update _ _ _ _ _ Hx). unfold table_ram at 2 3. cbn.
    f_equal. lia.
  - intros u y Hy. rewrite <- Hn by done. apply (names_insert _ (cx_receiver c0) _ x); [by right|done|done].
  - eapply same_stores_trans; [exact Hr|]. by apply set_same.
Qed.

(** ** Rows of a store *)
Lemma store_cache T s k : store_ok T s -> cache_ok (rows s) k -> store_ok T (Store (rows s) (next_row s) k).
Proof. intros [H1 H2 H3 H4] Hk. by split. Qed.

Lemma key_compare_refl k : key_compare k k = Eq.
Proof. induction k as [|x k IH]; cbn; [done|]. by rewrite Z.compare_refl. Qed.

Definition add_row (r : table_row V) s : store V := Store (<[next_row s := r]> (rows s)) (next_row s + 1) (cache s).
Lemma next_row_fresh T s : store_ok T s -> rows s !! next_row s = None.
Proof. intros [H1 _ _ _]. destruct (rows s !! next_row s) eqn:E; [|done]. apply H1 in E. lia. Qed.
Lemma store_add T s r : store_ok T s -> is_Some (T !! r_t_id r) ->
  find_row by_primary (by_primary r) (rows s) = None -> store_ok T (add_row r s).
Proof.
  intros Hs Ht Hnew. pose proof (next_row_fresh T s Hs) as Hf. destruct Hs as [H1 H2 H3 H4].
  assert (Hno : forall o r', rows s !! o = Some r' -> by_primary r <> by_primary r').
  { intros o r' Ho E. pose proof (head_filter_None _ _ _ (o, r') Hnew Ho) as Hk.
    cbn [snd] in Hk. by rewrite E, key_compare_refl in Hk. }
  split; cbn.
  - intros o r' [[<- _]|[_ Ho%H1]]%lookup_insert_Some; lia.
  - intros o r' [[_ <-]|[_ Ho%H2]]%lookup_insert_Some; done.
  - intros o o' q q' [[<- <-]|[Ho Hq]]%lookup_insert_Some [[<- <-]|[Ho' Hq']]%lookup_insert_Some E; try done.
    + by apply Hno in Hq'.
    + by apply Hno in Hq.
    + by eapply H3.
  - eapply cache_ok_rows; [exact H4|]. intros o q Hq. exists q. rewrite lookup_insert_ne; [done|]. congruence.
Qed.
Lemma rows_in_add T s r u : store_ok T s -> rows_in u (add_row r s) = rows_in u s + owes (r_t_id r) 1 u.
Proof.
  intros Hs. unfold rows_in. cbn. rewrite map_sum_insert by (by eapply next_row_fresh).
  unfold in_table at 1, owes. rewrite (Z.eqb_sym u). destruct (_ =? u); lia.
Qed.
Lemma rows_ram_add T s r a : store_ok T s ->
  rows_ram I a (add_row r s) = rows_ram I a s + owes (r_payer r) (row_size (r_value r)) a.
Proof.
  intros Hs. unfold rows_ram. cbn. rewrite map_sum_insert by (by eapply next_row_fresh).
  unfold row_ram at 1, owes. rewrite (Z.eqb_sym a). destruct (_ =? a); lia.
Qed.

Lemma same_rows_add T P s r : store_ok T s -> ~ P (r_t_id r) -> same_rows P s (add_row r s).
Proof.
  intros Hs HP o q Hq. cbn. apply next_row_fresh in Hs. destruct (decide (next_row s = o)) as [<-|].
  - rewrite lookup_insert_eq, Hs. split; [by intros [= ->]|done].
  - by rewrite lookup_insert_ne.
Qed.

Definition set_row (o : Z) (r : table_row V) s : store V := Store (<[o := r]> (rows s)) (next_row s) (cache s).
Lemma store_set T s o r r' : store_ok T s -> rows s !! o = Some r -> by_primary r' = by_primary r ->
  store_ok T (set_row o r' s).
Proof.
  intros [H1 H2 H3 H4] Ho E. assert (Et : r_t_id r' = r_t_id r) by (by injection E). split; cbn.
  - intros o' q [[<- _]|[_ Hq]]%lookup_insert_Some; eauto.
  - intros o' q [[_ <-]|[_ Hq]]%lookup_insert_Some; [rewrite Et|]; eauto.
  - intros o1 o2 q q' [[<- <-]|[Hn Hq]]%lookup_insert_Some [[<- <-]|[Hn' Hq']]%lookup_insert_Some Eq; try done;
      eapply H3; eauto; congruence.
  - eapply cache_ok_rows; [exact H4|]. intros o' q Hq. destruct (decide (o = o')) as [<-|].
    + exists r'. rewrite lookup_insert_eq. split; [done|]. congruence.
    + exists q. by rewrite lookup_insert_ne.
Qed.
Lemma rows_in_set s o r r' u : rows s !! o = Some r -> by_primary r' = by_primary r ->
  rows_in u (set_row o r' s) = rows_in u s.
Proof.
  intros Ho E. assert (Et : r_t_id r' = r_t_id r) by (by injection E).
  unfold rows_in. cbn. rewrite (map_sum_update _ _ _ _ _ Ho). unfold in_table at 2 3. rewrite Et. lia.
Qed.
Lemma rows_ram_set s o r r' a : rows s !! o = Some r ->
  rows_ram I a (set_row o r' s) = rows_ram I a s - owes (r_payer r) (row_size (r_value r)) a
                                  + owes (r_payer r') (row_size (r_value r')) a.
Proof.
  intros Ho. unfold rows_ram. cbn. rewrite (map_sum_update _ _ _ _ _ Ho). unfold row_ram at 2 3, owes.
  by rewrite !(Z.eqb_sym a).
Qed.

Lemma same_rows_set P s o r r' : rows s !! o = Some r -> by_primary r' = by_primary r -> ~ P (r_t_id r) ->
  same_rows P s (set_row o r' s).
Proof.
  intros Ho E HP o' q Hq. assert (Et : r_t_id r' = r_t_id r) by (by injection E). cbn.
  destruct (decide (o = o')) as [<-|]; [|by rewrite lookup_insert_ne].
  rewrite lookup_insert_eq, Ho. split; intros [= <-]; congruence.
Qed.

Definition del_row (o : Z) (k : iterator_cache) s : store V := Store (delete o (rows s)) (next_row s) k.
Lemma store_del T s o k : store_ok T s -> cache_ok (delete o (rows s)) k -> store_ok T (del_row o k s).
Proof.
  intros [H1 H2 H3 H4] Hk. split; cbn; [..|done].
  - intros o' q [_ Hq]%lookup_delete_Some; eauto.
  - intros o' q [_ Hq]%lookup_delete_Some; eauto.
  - intros o1 o2 q q' [_ Hq]%lookup_delete_Some [_ Hq']%lookup_delete_Some; eauto.
Qed.
Lemma rows_in_del s o k r u : rows s !! o = Some r -> rows_in u (del_row o k s) = rows_in u s - owes (r_t_id r) 1 u.
Proof.
  intros Ho. unfold rows_in. cbn. rewrite (map_sum_delete _ (rows s) o r Ho). unfold in_table at 2, owes.
  rewrite (Z.eqb_sym u). destruct (_ =? u); lia.
Qed.
Lemma rows_ram_del s o k r a : rows s !! o = Some r ->
  rows_ram I a (del_row o k s) = rows_ram I a s - owes (r_payer r) (row_size (r_value r)) a.
Proof.
  intros Ho. unfold rows_ram. cbn. rewrite (map_sum_delete _ (rows s) o r Ho). unfold row_ram at 2, owes.
  rewrite (Z.eqb_sym a). destruct (_ =? a); lia.
Qed.
Lemma same_rows_del P s o k r : rows s !! o = Some r -> ~ P (r_t_id r) -> same_rows P s (del_row o k s).
Proof.
  intros Ho HP o' q Hq. cbn. destruct (decide (o = o')) as [<-|]; [|by rewrite lookup_delete_ne].
  rewrite lookup_delete_eq, Ho. split; [done|]. intros [= <-]. done.
Qed.
End rows.

(** ** The steps of a call *)
Lemma progress_owes c0 z w w' c : progress c0 z w c -> (forall a, congruent (w' a) (w a)) -> progress c0 z w' c.
Proof.
  intros [H1 H2 H3 H4 H5] Hw. split; try done. intros a. rewrite <- (H2 a). destruct (Hw a) as [k ->].
  apply (u64_eq _ _ k). lia.
Qed.
Abbreviation settled := (fun _ : account_name => 0).

Section calls.
Context `{NativeEnv}.

Lemma wpe_find_table E code scope table Q c :
  (forall t x, cx_tables c !! t = Some x -> t_code x = code -> t_scope x = scope -> t_table x = table -> Q (Some t) c) ->
  ((forall t x, cx_tables c !! t = Some x -> ~ (t_code x = code /\ t_scope x = scope /\ t_table x = table)) -> Q None c) ->
  wpe E (find_table code scope table) Q c.
Proof.
  intros HS HN. unfold find_table. do 3 wpe_step.
  destruct (filter _ _) as [|[t x] l] eqn:Ef; cbn.
  - apply HN. intros t x Hx (E1 & E2 & E3).
    assert (Hin : (t, x) ∈ filter (fun x => named code scope table x = true) (map_to_list (cx_tables c))).
    { apply list_elem_of_filter. split; [|by apply elem_of_map_to_list].
      unfold named. cbn. by rewrite E1, E2, E3, !Z.eqb_refl. }
    rewrite Ef in Hin. by apply not_elem_of_nil in Hin.
  - assert (Hin : (t, x) ∈ filter (fun x => named code scope table x = true) (map_to_list (cx_tables c)))
      by (rewrite Ef; by left).
    apply list_elem_of_filter in Hin as [Hn Hin]. apply elem_of_map_to_list in Hin. unfold named in Hn. cbn in Hn.
    bool_to_prop. by apply (HS t x).
Qed.

(** The table to store a row in. *)
Lemma wpe_find_or_create scope table payer Q c : tables_ok c ->
  (forall z t x c', z = None \/ z = Some t -> progress c z settled c' -> stores c' = stores c ->
     cx_tables c' !! t = Some x -> t_code x = cx_receiver c -> Q t c') ->
  wpe fine (find_or_create_table (cx_receiver c) scope table payer) Q c.
Proof.
  intros Hc HQ. pose proof (progress_start c Hc) as Hp. unfold find_or_create_table, set_tables. wpe_step.
  apply wpe_find_table.
  - intros t x Hx E _ _. cbv beta iota. wpe_step. apply (HQ None t x); [by left|done..].
  - intros Hnew. cbv beta iota. wpe_step. apply wpe_usage. intros h Hh. do 5 wpe_step.
    pose proof (progress_charge _ _ _ _ _ _ _ Hp Hh) as Hp1.
    eapply (progress_new_table _ _ _ (cx_receiver c) scope table payer) in Hp1; [|done|done].
    eapply HQ; [by right|eapply progress_owes; [exact Hp1|]|done|cbn; by rewrite lookup_insert_eq|done].
    intros a. exists 0. lia.
Qed.

Lemma wpe_table_at t x Q c : cx_tables c !! t = Some x -> Q x c -> wpe fine (table_at t) Q c.
Proof. intros Hx HQ. unfold table_at. do 2 wpe_step. rewrite Hx. exact HQ. Qed.

Lemma wpe_change_count t x d Q c : cx_tables c !! t = Some x ->
  Q tt (with_tables (<[t := TableId (t_code x) (t_scope x) (t_table x) (t_payer x) (u32 (t_count x + d))]>
    (cx_tables c)) (cx_next_table c) c) -> wpe fine (change_count t d) Q c.
Proof.
  intros Hx HQ. unfold change_count, set_tables. wpe_step. eapply wpe_table_at; [exact Hx|]. by repeat wpe_step.
Qed.

Context {V : Type} (I : Index V) `{!IndexLaws I}.

(** The row of an iterator, and its table. *)
Lemma wpe_get_row T i Q c : store_ok T (index c) ->
  (forall o r, object_to_iterator (cache (index c)) !! o = Some i -> rows (index c) !! o = Some r -> Q (o, r) c) ->
  wpe fine (get_row I i) Q c.
Proof.
  intros [_ _ _ Hk] HQ. unfold get_row, query_cache, row_at. do 3 wpe_step.
  apply wpe_lift.
  - intros o Ho. apply (cache_get_spec _ _ _ _ Hk) in Ho.
    destruct (ck_live _ _ Hk _ _ Ho) as (r & Hr & _). do 3 wpe_step. rewrite Hr. by apply HQ.
  - intros e He. unfold cache_get in He.
    repeat match type of He with context [bes_assert ?b _] => destruct b; cbn in He; [|by injection He as <-] end.
    destruct (mjoin _); [done|]. by injection He as <-.
Qed.

Lemma wpe_own_table i o r Q c : stores_ok (cx_tables c) c ->
  object_to_iterator (cache (index c)) !! o = Some i -> rows (index c) !! o = Some r ->
  (forall x, cx_tables c !! r_t_id r = Some x -> t_code x = cx_receiver c -> Q (r_t_id r) c) ->
  wpe fine (own_table I (r_t_id r)) Q c.
Proof.
  intros Hs Ho Hr HQ. pose proof (index_ok _ _ Hs) as [_ Ht _ Hk].
  destruct (ck_live _ _ Hk _ _ Ho) as (r' & Hr' & p & Hp). assert (r' = r) as -> by congruence.
  destruct (ck_table _ _ Hk _ _ Hp) as [Hp1 _]. destruct (Ht _ _ Hr) as [x Hx].
  unfold own_table, query_cache, get_table. do 3 wpe_step. rewrite Hp. cbn. rewrite Hp1.
  apply wpe_bind. eapply wpe_table_at; [exact Hx|]. do 5 wpe_step. bool_to_prop. by apply (HQ x).
Qed.

(** Iterators may be added at any time. *)
Lemma progress_cache c0 z w c k : progress c0 z w c -> cache_ok (rows (index c)) k ->
  progress c0 z w (set_index (Store (rows (index c)) (next_row (index c)) k) c).
Proof.
  intros Hp Hk. eapply progress_set; [done|exact Hp| |done|intros a; unfold rows_ram; cbn; lia|done].
  apply store_cache; [|done]. apply index_ok, (pr_tables _ _ _ _ Hp).
Qed.
Lemma progress_index c0 z w c : progress c0 z w c -> store_ok (cx_tables c) (index c).
Proof. intros Hp. apply index_ok, (pr_tables _ _ _ _ Hp). Qed.

(** Giving the contract an iterator on a row. *)
Lemma wpe_cache_table c0 z w t Q c : progress c0 z w c -> cache_room (cache (index c)) ->
  (forall i c', progress c0 z w c' -> rows (index c') = rows (index c) -> cx_tables c' = cx_tables c ->
     is_Some (table_cache (cache (index c')) !! t) ->
     iterator_to_object (cache (index c')) = iterator_to_object (cache (index c)) -> Q i c') ->
  wpe fine (with_cache I (cache_table t)) Q c.
Proof.
  intros Hp Hr HQ. pose proof (progress_index _ _ _ _ Hp) as [_ _ _ Hk].
  destruct (cache_table_ok _ _ t Hk Hr) as (H1 & H2 & H3). unfold wpe, with_cache.
  destruct (cache_table t (cache (index c))) as [k i]. cbn in *.
  apply HQ; rewrite ?index_set; try done; [by apply progress_cache|by apply set_cx_tables].
Qed.
Lemma wpe_cache_add E c0 z w o r Q c : progress c0 z w c ->
  Z.of_nat (length (iterator_to_object (cache (index c)))) < 2 ^ 31 - 1 -> rows (index c) !! o = Some r ->
  is_Some (table_cache (cache (index c)) !! r_t_id r) ->
  (forall i c', progress c0 z w c' -> rows (index c') = rows (index c) ->
     object_to_iterator (cache (index c')) !! o = Some i -> Q i c') ->
  wpe E (with_cache I (cache_add o)) Q c.
Proof.
  intros Hp Hr Ho Ht HQ. pose proof (progress_index _ _ _ _ Hp) as [_ _ _ Hk].
  destruct (cache_add_ok _ _ _ _ Hk Hr Ho Ht) as (H1 & H2). unfold wpe, with_cache.
  destruct (cache_add o (cache (index c))) as [k i]. cbn in *.
  apply HQ; rewrite ?index_set; try done. by apply progress_cache.
Qed.

(** Storing a row in a table of the contract. *)
Definition store_row (t : Z) (r : table_row V) (delta : Z) : MC Z :=
  obj ← create_row I r;
  _ ← change_count t 1;
  _ ← update_db_usage (r_payer r) delta;
  _ ← with_cache I (cache_table t);
  with_cache I (cache_add obj).

Lemma foreign_not_own c0 t x : cx_tables c0 !! t = Some x -> t_code x = cx_receiver c0 -> ~ foreign c0 t.
Proof. intros Hx Hc (y & Hy & Hn). congruence. Qed.
Lemma progress_own c0 z w c t x : progress c0 z w c -> cx_tables c !! t = Some x -> t_code x = cx_receiver c0 ->
  ~ foreign c0 t.
Proof. intros Hp Hx Hc (y & Hy & Hn). apply (pr_names _ _ _ _ Hp) in Hy; [|done]. congruence. Qed.

Lemma wpe_store_row c0 z c r x delta (Q : Z -> context -> Prop) :
  progress c0 z settled c -> z = None \/ z = Some (r_t_id r) ->
  cx_tables c !! r_t_id r = Some x -> t_code x = cx_receiver c0 ->
  cache_room (cache (index c)) -> row_count (r_t_id r) c < 2 ^ 32 - 1 ->
  congruent delta (row_size (r_value r)) ->
  (forall i c', progress c0 None settled c' -> Q i c') ->
  wpe fine (store_row (r_t_id r) r delta) Q c.
Proof.
  intros Hp Hz Hx Hcode Hroom Hcount Hd HQ. pose proof (progress_index _ _ _ _ Hp) as Hs.
  destruct (tb_count _ _ (pr_tables _ _ _ _ Hp) _ _ Hx) as (Hcx & ? & _).
  unfold store_row, create_row, set_rows. repeat wpe_step. bool_to_prop.
  eapply wpe_change_count; [rewrite set_cx_tables by done; exact Hx|].
  rewrite set_cx_tables, set_cx_next, u32_small by (done || lia).
  assert (Hp2 : progress c0 (Some (r_t_id r)) (owes (r_payer r) (row_size (r_value r)))
    (with_tables (<[r_t_id r := TableId (t_code x) (t_scope x) (t_table x) (t_payer x) (t_count x + 1)]> (cx_tables c))
       (cx_next_table c) (set_index (add_row r (index c)) c))).
  { eapply (progress_put I); try eassumption; [apply store_add; eauto|intros u; by eapply rows_in_add|lia| |].
    - intros a. rewrite (rows_ram_add I (cx_tables c)) by done. lia.
    - apply (same_rows_add (cx_tables c)); [done|]. by eapply progress_own. }
  wpe_step. apply wpe_usage. intros h Hh. apply (progress_charge _ _ _ _ _ _ _ Hp2) in Hh. clear Hp2.
  apply progress_settled in Hh; [|cbn; rewrite lookup_insert_eq; intros y [= <-]; cbn; lia].
  match type of Hh with progress _ _ _ ?d => set (c2 := d) in * end.
  match goal with |- wpe _ ?m ?Q _ => change (wpe fine m Q c2) end.
  assert (Hi : index c2 = add_row r (index c)).
  { rewrite <- (index_set (I := I) (add_row r (index c)) c). by apply index_same. }
  wpe_step. eapply wpe_cache_table; [exact Hh|by rewrite Hi|]. intros _ c3 Hp3 Er _ Ht Ei.
  eapply (wpe_cache_add _ _ _ _ _ r); [exact Hp3|rewrite Ei, Hi; apply Hroom|rewrite Er, Hi; apply lookup_insert_eq|done|].
  intros i c4 Hp4 _ _. apply HQ. eapply progress_owes; [exact Hp4|].
  intros a. destruct Hd as [k ->]. exists (if a =? r_payer r then k else 0). unfold owes. destruct (a =? _); lia.
Qed.

Lemma index_tables T n c : index (with_tables T n c) = index c.
Proof. by apply index_same. Qed.
Lemma index_chain h c : index (with_chain h c) = index c.
Proof. by apply index_same. Qed.

Lemma wpe_remove_table t x Q c : cx_tables c !! t = Some x ->
  (forall h, charges (cx_chain c) (t_payer x) (i64 (u64 (- table_id_object_size))) h ->
     Q tt (with_tables (delete t (cx_tables c)) (cx_next_table c) (with_chain h c))) ->
  wpe fine (remove_table t) Q c.
Proof.
  intros Hx HQ. unfold remove_table, set_tables. wpe_step. eapply wpe_table_at; [exact Hx|].
  wpe_step. apply wpe_usage. intros h Hh. repeat wpe_step. by apply (HQ h).
Qed.

(** The end of a removal, where the cache of the removed row is dropped last. *)
Lemma wpe_drop_cache i k s (Q : unit -> context -> Prop) c : index c = s -> cache_remove i (cache s) = Ok k ->
  Q tt (set_index (Store (rows s) (next_row s) k) c) ->
  wpe fine (k ← query_cache I (cache_remove i);
            c ← get; modify_st (set_index (Store (rows (index c)) (next_row (index c)) k))) Q c.
Proof. intros <- Hk HQ. unfold query_cache. do 3 wpe_step. rewrite Hk. by repeat wpe_step. Qed.

Lemma progress_drop c0 c k o r x w :
  progress c0 None w c -> cache_ok (delete o (rows (index c))) k -> rows (index c) !! o = Some r ->
  cx_tables c !! r_t_id r = Some x -> t_code x = cx_receiver c0 ->
  (forall a, congruent (w a) (owes (r_payer r) (row_size (r_value r)) a)) ->
  progress c0 (Some (r_t_id r)) settled (with_tables
    (<[r_t_id r := TableId (t_code x) (t_scope x) (t_table x) (t_payer x) (t_count x + -1)]> (cx_tables c))
    (cx_next_table c) (set_index (del_row o k (index c)) c)).
Proof.
  intros Hp Hk Hr Hx Hcode Hw. pose proof (progress_index _ _ _ _ Hp) as Hs.
  destruct (tb_count _ _ (pr_tables _ _ _ _ Hp) _ _ Hx) as (Hcx & Hrange & Hpos). specialize (Hpos ltac:(done)).
  eapply progress_owes; [eapply (progress_put I)
    with (w' := fun a => w a - owes (r_payer r) (row_size (r_value r)) a)|]; try eassumption.
  - by apply store_del.
  - by left.
  - intros u. rewrite (rows_in_del _ _ _ _ _ Hr). unfold owes. destruct (_ =? _); lia.
  - lia.
  - intros a. rewrite (rows_ram_del I _ _ _ _ _ Hr). lia.
  - eapply same_rows_del; [done|]. by eapply progress_own.
  - intros a. destruct (Hw a) as [m Hm]. exists (- m). lia.
Qed.

Lemma wpe_drop_row c0 c i o r x w (Q : unit -> context -> Prop) :
  progress c0 None w c -> object_to_iterator (cache (index c)) !! o = Some i -> rows (index c) !! o = Some r ->
  cx_tables c !! r_t_id r = Some x -> t_code x = cx_receiver c0 ->
  (forall a, congruent (w a) (owes (r_payer r) (row_size (r_value r)) a)) ->
  (forall c', progress c0 None settled c' -> Q tt c') ->
  wpe fine (drop_row I i o (r_t_id r)) Q c.
Proof.
  intros Hp Ho Hr Hx Hcode Hw HQ. pose proof (progress_index _ _ _ _ Hp) as Hs.
  destruct (cache_remove_ok _ _ _ _ (so_cache _ _ Hs) Ho) as (k & Hk & Hkok).
  destruct (tb_count _ _ (pr_tables _ _ _ _ Hp) _ _ Hx) as (Hcx & Hrange & Hpos). specialize (Hpos ltac:(done)).
  pose proof (progress_drop _ _ _ _ _ _ _ Hp Hkok Hr Hx Hcode Hw) as Hp2.
  unfold drop_row. wpe_step. eapply wpe_change_count; [exact Hx|]. rewrite u32_small by lia.
  match type of Hp2 with progress _ _ _ (with_tables ?T _ _) => set (T' := T) in * end.
  assert (Hx' : T' !! r_t_id r = Some (TableId (t_code x) (t_scope x) (t_table x) (t_payer x) (t_count x + -1)))
    by apply lookup_insert_eq.
  unfold remove_row, set_rows. repeat wpe_step. rewrite index_tables.
  set (s2 := Store (delete o (rows (index c))) (next_row (index c)) (cache (index c))).
  eapply wpe_table_at; [rewrite set_cx_tables by done; exact Hx'|]. do 2 wpe_step; cbn [t_count] in *; bool_to_prop.
  - eapply wpe_remove_table; [rewrite set_cx_tables by done; exact Hx'|]. intros h Hh.
    eapply (wpe_drop_cache _ k s2); [by rewrite index_tables, index_chain, index_set|done|]. apply HQ.
    rewrite set_cx_chain in Hh by done. rewrite !set_cx_tables, !set_cx_next by done.
    rewrite set_with_tables, set_with_chain, set_set, set_with_tables.
    eapply progress_charge in Hp2; [|cbn; rewrite set_cx_chain by done; exact Hh].
    eapply progress_remove_table in Hp2; [|exact Hx'|done|done]. eapply progress_owes; [exact Hp2|].
    intros a. cbn [t_payer]. destruct (i64_cong (u64 (- table_id_object_size))) as [m1 ->].
    destruct (u64_cong (- table_id_object_size)) as [m2 ->].
    exists (if a =? t_payer x then m1 + m2 else 0). unfold owes. destruct (a =? _); lia.
  - wpe_step. eapply (wpe_drop_cache _ k s2); [by rewrite index_set|done|]. apply HQ.
    rewrite set_set, set_with_tables. eapply progress_settled; [exact Hp2|]. cbn. rewrite Hx'. intros y [= <-]. cbn. lia.
Qed.

(** A search gives the contract an iterator on a row that is in the table, or the end. *)
Lemma wpe_search find code scope table Q c : tables_ok c -> stores_room c ->
  (forall t rs o r, find t rs = Some (o, r) -> rs !! o = Some r) ->
  (forall x c', progress c None settled c' -> Q x c') -> wpe fine (search I find code scope table) Q c.
Proof.
  intros Hc Hroom Hfind HQ. pose proof (progress_start c Hc) as Hp. unfold search. wpe_step.
  apply wpe_find_table; cbv beta iota; [|intros _; wpe_step; by apply HQ].
  intros t x _ _ _ _. wpe_step. eapply wpe_cache_table; [exact Hp|by apply index_room|].
  intros i c1 Hp1 Er _ Ht Ei. repeat wpe_step; try (by apply HQ). bool_to_prop. subst.
  eapply wpe_cache_add; [exact Hp1|rewrite Ei; by apply index_room|by eapply Hfind|done|].
  intros j c2 Hp2 _ _. wpe_step. by apply HQ.
Qed.
Lemma wpe_search_end code scope table Q c : tables_ok c -> stores_room c ->
  (forall x c', progress c None settled c' -> Q x c') -> wpe fine (search_end I code scope table) Q c.
Proof.
  intros Hc Hroom HQ. pose proof (progress_start c Hc) as Hp. unfold search_end. wpe_step.
  apply wpe_find_table; cbv beta iota; [|intros _; wpe_step; by apply HQ].
  intros t x _ _ _ _. eapply wpe_cache_table; [exact Hp|by apply index_room|]. intros i c1 Hp1 _ _ _ _. by apply HQ.
Qed.

(** Moving from a row that the contract has an iterator on. *)
Lemma wpe_end_iterator t i o r Q c : store_ok (cx_tables c) (index c) ->
  object_to_iterator (cache (index c)) !! o = Some i -> rows (index c) !! o = Some r -> t = r_t_id r ->
  (forall ei, Q ei c) -> wpe fine (query_cache I (get_end_iterator_by_table_id t)) Q c.
Proof.
  intros [_ _ _ Hk] Ho Hr -> HQ. destruct (ck_live _ _ Hk _ _ Ho) as (r' & Hr' & p & Hp).
  assert (r' = r) as -> by congruence. unfold query_cache, get_end_iterator_by_table_id. do 2 wpe_step.
  rewrite Hp. apply HQ.
Qed.
Lemma wpe_iterator_on c0 w i o r o' r' Q c : progress c0 None w c -> stores_room c ->
  object_to_iterator (cache (index c)) !! o = Some i -> rows (index c) !! o = Some r ->
  rows (index c) !! o' = Some r' -> r_t_id r' = r_t_id r ->
  (forall j c', progress c0 None w c' -> Q (j, Some r') c') ->
  wpe fine (i ← with_cache I (cache_add o'); mret (i, Some r')) Q c.
Proof.
  intros Hp Hroom Ho Hr Hr' Et HQ. destruct (progress_index _ _ _ _ Hp) as [_ _ _ Hk].
  destruct (ck_live _ _ Hk _ _ Ho) as (q & Hq & Hc). assert (q = r) as -> by congruence.
  wpe_step. eapply wpe_cache_add; [exact Hp|by apply index_room|exact Hr'|by rewrite Et|].
  intros j c' Hp' _ _. wpe_step. by apply HQ.
Qed.

Lemma wpe_next_row key i Q c : tables_ok c -> stores_room c ->
  (forall x c', progress c None settled c' -> Q x c') -> wpe fine (next_row_by I key i) Q c.
Proof.
  intros Hc Hroom HQ. pose proof (progress_start c Hc) as Hp. pose proof (progress_index _ _ _ _ Hp) as Hs.
  unfold next_row_by. wpe_step; [wpe_step; by apply HQ|]. wpe_step. eapply wpe_get_row; [exact Hs|].
  intros o r Ho Hr. do 2 wpe_step. destruct (upper_bound _ _ _) as [[o' r']|] eqn:Eu.
  - apply head_filter_elem in Eu as [Hr' _]. cbn in Hr'. wpe_step; bool_to_prop.
    + eapply wpe_iterator_on; eauto.
    + wpe_step. eapply wpe_end_iterator; eauto. intros ei. wpe_step. by apply HQ.
  - wpe_step. eapply wpe_end_iterator; eauto. intros ei. wpe_step. by apply HQ.
Qed.
Lemma wpe_previous_row key i Q c : tables_ok c -> stores_room c -> -1 <= i ->
  (forall x c', progress c None settled c' -> Q x c') -> wpe fine (previous_row_by I key i) Q c.
Proof.
  intros Hc Hroom Hi HQ. pose proof (progress_start c Hc) as Hp. pose proof (progress_index _ _ _ _ Hp) as Hs.
  unfold previous_row_by. wpe_step; bool_to_prop; [lia|]. wpe_step. eapply wpe_get_row; [exact Hs|].
  intros o r Ho Hr. do 2 wpe_step. unfold step_back.
  destruct (before _ _ _) as [[o' r']|] eqn:Eu; [|wpe_step; by apply HQ].
  apply last_filter_elem in Eu as [Hr' _]. cbn in Hr'. wpe_step; bool_to_prop; [|wpe_step; by apply HQ].
  eapply wpe_iterator_on; eauto.
Qed.

(** Moving back from the end of a table: when the table is gone, the pointer to it that
    is followed is no longer valid. *)
Lemma wp_previous_end key i (Q : Z * option (table_row V) -> context -> Prop) c :
  tables_ok c -> stores_room c -> i < -1 ->
  (forall x c', progress c None settled c' -> Q x c') -> wpe (fun _ => True) (previous_row_by I key i) Q c.
Proof.
  intros Hc Hroom Hi HQ. pose proof (progress_start c Hc) as Hp. pose proof (progress_index _ _ _ _ Hp) as Hs.
  unfold previous_row_by, query_cache, table_at. rewrite (proj2 (Z.ltb_lt _ _)) by done. do 3 wpe_step.
  apply wpe_lift; [|done]. intros tab Ht. wpe_step. apply wpe_of_option; [|done]. intros t ->.
  do 3 wpe_step. apply wpe_of_option; [|done]. intros x Hx. do 2 wpe_step. unfold step_back.
  destruct (before_upper _ _ _) as [[o r]|] eqn:Eb; [|wpe_step; by apply HQ].
  apply last_filter_elem in Eb as [Hr _]. cbn in Hr. wpe_step; bool_to_prop; [|wpe_step; by apply HQ].
  unfold find_table_by_end_iterator in Ht. bind_ok Ht as (u & _ & Ht). bind_ok Ht as (n & _ & Ht).
  destruct (_ <=? n); [done|]. injection Ht as Ht. apply (ck_end _ _ (so_cache _ _ Hs)) in Ht.
  wpe_step. eapply wpe_cache_add; [exact Hp|by apply index_room|exact Hr|by rewrite E|].
  intros j c2 Hp2 _ _. wpe_step. by apply HQ.
Qed.
End calls.

(** ** The calls *)
Definition advances (c : context) (_ : unit) (c' : context) : Prop := progress c None settled c'.

Lemma wpe_ignore {A} E (m : MC A) (Q : unit -> context -> Prop) c :
  wpe E m (fun _ c' => Q tt c') c -> wpe E (ignore m) Q c.
Proof. intros Hm. unfold ignore. wpe_step. eapply wpe_mono; [exact Hm|]. intros a c' HQ. by wpe_step. Qed.
Lemma wpe_then {A B} E (m : MC A) (f : A -> B) (Q : B -> context -> Prop) c :
  wpe E m (fun x c' => Q (f x) c') c -> wpe E (x ← m; mret (f x)) Q c.
Proof. intros Hm. wpe_step. eapply wpe_mono; [exact Hm|]. intros a c' HQ. by wpe_step. Qed.

Section run.
Context `{NativeEnv}.

Lemma row_of_bound {V} (key : table_row V -> list Z) k rs (o : Z) r :
  find_row key k rs = Some (o, r) \/ lower_bound key k rs = Some (o, r) \/ upper_bound key k rs = Some (o, r) ->
  rs !! o = Some r.
Proof. intros [Hf|[Hf|Hf]]; by apply head_filter_elem in Hf as [Hf _]. Qed.

(** Paying for a change of payer or size. *)
Lemma wpe_pay c0 w p q d1 d2 m1 m2 c :
  progress c0 None w c -> congruent d1 (- m1) -> congruent d2 m2 ->
  wpe fine (_ ← update_db_usage p d1; update_db_usage q d2)
    (fun _ c' => exists h, c' = with_chain h c /\ progress c0 None (fun a => w a + owes p m1 a - owes q m2 a) c') c.
Proof.
  intros Hp H1 H2. wpe_step. apply wpe_usage. intros h Hh. eapply progress_charge in Hp; [|exact Hh].
  apply wpe_usage. intros h' Hh'. eapply progress_charge in Hp; [|exact Hh'].
  exists h'. split; [done|]. eapply progress_owes; [exact Hp|]. intros a. cbv beta.
  replace (w a + owes p m1 a - owes q m2 a) with (w a - owes p (- m1) a - owes q m2 a) by (rewrite owes_opp; lia).
  apply congruent_sym. auto with congruent.
Qed.
Lemma wpe_pay_change c0 w p m1 m2 c :
  progress c0 None w c ->
  wpe fine (if negb (i64 m1 =? i64 m2) then update_db_usage p (i64 (i64 m2 - i64 m1)) else mret tt)
    (fun _ c' => exists h, c' = with_chain h c /\ progress c0 None (fun a => w a + owes p m1 a - owes p m2 a) c') c.
Proof.
  intros Hp. wpe_step; bool_to_prop.
  - apply wpe_usage. intros h Hh. eapply progress_charge in Hp; [|exact Hh].
    exists h. split; [done|]. eapply progress_owes; [exact Hp|]. intros a. cbv beta. apply congruent_sym.
    replace (w a + owes p m1 a - owes p m2 a) with (w a - owes p (m2 - m1) a) by (unfold owes; destruct (a =? p); lia).
    auto 10 with congruent.
  - wpe_step. exists (cx_chain c). split; [by destruct c|]. eapply progress_owes; [exact Hp|]. intros a.
    destruct (i64_cong m1) as [k1 E1], (i64_cong m2) as [k2 E2].
    exists (if a =? p then k2 - k1 else 0). unfold owes. destruct (a =? p); lia.
Qed.

Section update.
Context {V : Type} (I : Index V) `{!IndexLaws I}.

Lemma wpe_modify_row c0 w h o r v p x c : progress c0 None w (with_chain h c) ->
  (forall a, congruent (w a) (owes (r_payer r) (row_size (r_value r)) a - owes p (row_size v) a)) ->
  rows (index c) !! o = Some r -> cx_tables c !! r_t_id r = Some x -> t_code x = cx_receiver c0 ->
  wpe fine (modify_row I o (TableRow (r_t_id r) (r_primary_key r) p v)) (advances c0) (with_chain h c).
Proof.
  intros Hp Hw Hr Hx Hcode. pose proof (progress_index I _ _ _ _ Hp) as Hs. unfold modify_row, set_rows.
  repeat wpe_step. rewrite index_chain in * by done.
  change (Store (<[o := TableRow (r_t_id r) (r_primary_key r) p v]> (rows (index c))) (next_row (index c)) (cache (index c)))
    with (set_row o (TableRow (r_t_id r) (r_primary_key r) p v) (index c)).
  eapply progress_owes; [eapply (progress_set I) with (w' := fun a => w a - (owes (r_payer r) (row_size (r_value r)) a
    - owes p (row_size v) a)); [exact Hp|..]|].
  - eapply store_set; [exact Hs|exact Hr|done].
  - intros t. rewrite index_chain by done. by eapply rows_in_set.
  - intros a. rewrite index_chain, (rows_ram_set I _ _ _ _ _ Hr) by done. cbn. lia.
  - rewrite index_chain by done. eapply same_rows_set; [exact Hr|done|]. by eapply progress_own.
  - intros a. apply congruent_sym. destruct (Hw a) as [k ->]. exists k. lia.
Qed.
End update.

Lemma db_update_advances i p b c : tables_ok c -> wpe fine (db_update_i64 i p b) (advances c) c.
Proof.
  intros Hc. pose proof (progress_start c Hc) as Hp. pose proof (progress_index keyval _ _ _ _ Hp) as Hs.
  unfold db_update_i64. wpe_step. eapply (wpe_get_row keyval); [exact Hs|]. intros o r Ho Hr. cbv beta iota.
  wpe_step. eapply (wpe_own_table keyval); [apply (to_stores _ Hc)|exact Ho|exact Hr|]. intros x Hx Hcode.
  set (q := if p =? 0 then r_payer r else p). wpe_step.
  set (m1 := Z.of_nat (length (r_value r)) + key_value_object_size).
  set (m2 := Z.of_nat (length b) + key_value_object_size).
  apply wpe_mono with (Q1 := fun _ c' => exists h, c' = with_chain h c /\
    progress c None (fun a => 0 + owes (r_payer r) m1 a - owes q m2 a) c').
  - destruct (Z.eqb_spec (r_payer r) q) as [<-|]; cbn [negb]; [by apply wpe_pay_change|].
    apply wpe_pay; auto with congruent.
  - intros _ c' (h & -> & Hp'). eapply (wpe_modify_row keyval); [exact Hp'| |exact Hr|exact Hx|done].
    intros a. exists 0. cbn [row_size keyval]. fold m1 m2. lia.
Qed.

Lemma row_count_same c c' t : stores c' = stores c -> row_count t c' = row_count t c.
Proof. unfold stores, row_count. by intros [= -> -> ->]. Qed.

Section store.
Context {V : Type} (I : Index V) `{!IndexLaws I}.

Lemma store_row_advances z c c1 t x id p v delta : room c -> progress c z settled c1 -> stores c1 = stores c ->
  z = None \/ z = Some t -> cx_tables c1 !! t = Some x -> t_code x = cx_receiver c ->
  congruent delta (row_size v) ->
  wpe fine (store_row I t (TableRow t id p v) delta) (fun _ c' => advances c tt c') c1.
Proof.
  intros [Hroom Hcount] Hp Es Hz Hx Hcode Hd.
  apply (wpe_store_row I c z c1 (TableRow t id p v) x delta); try done; cbn.
  - rewrite (index_same c1 c) by done. by apply index_room.
  - by rewrite (row_count_same c).
Qed.
Lemma drop_row_advances i o r x w c c1 : progress c None w c1 -> stores c1 = stores c ->
  object_to_iterator (cache (index c)) !! o = Some i -> rows (index c) !! o = Some r ->
  cx_tables c1 !! r_t_id r = Some x -> t_code x = cx_receiver c ->
  (forall a, congruent (w a) (owes (r_payer r) (row_size (r_value r)) a)) ->
  wpe fine (drop_row I i o (r_t_id r)) (advances c) c1.
Proof.
  intros Hp Es Ho Hr Hx Hcode Hw. rewrite <- (index_same c1 c Es) in Ho, Hr. by eapply wpe_drop_row.
Qed.
End store.

Lemma db_store_advances s t p id b c : tables_ok c -> room c ->
  wpe fine (ignore (db_store_i64 s t p id b)) (advances c) c.
Proof.
  intros Hc Hr. apply wpe_ignore. unfold db_store_i64. do 3 wpe_step. apply wpe_find_or_create; [done|].
  intros z tid x c1 Hz Hp Es Hx Hcode. do 2 wpe_step.
  apply (store_row_advances keyval z c c1 tid x id p b); auto with congruent.
Qed.
Lemma db_remove_advances i c : tables_ok c -> wpe fine (db_remove_i64 i) (advances c) c.
Proof.
  intros Hc. pose proof (progress_start c Hc) as Hp. pose proof (progress_index keyval _ _ _ _ Hp) as Hs.
  unfold db_remove_i64. wpe_step. eapply (wpe_get_row keyval); [exact Hs|]. intros o r Ho Hr. cbv beta iota.
  wpe_step. eapply (wpe_own_table keyval); [apply (to_stores _ Hc)|exact Ho|exact Hr|]. intros x Hx Hcode.
  wpe_step. apply wpe_usage. intros h Hh. eapply progress_charge in Hp; [|exact Hh].
  eapply (drop_row_advances keyval); [exact Hp|done|exact Ho|exact Hr|exact Hx|done|].
  intros a. apply congruent_refund. auto with congruent.
Qed.

Section idx.
Context (I : Index Z) `{!IndexLaws I} (Hsize : forall v v', row_size v = row_size v').

Lemma idx_store_advances s t p id v c : tables_ok c -> room c ->
  wpe fine (ignore (idx_store I s t p id v)) (advances c) c.
Proof.
  intros Hc Hr. apply wpe_ignore. unfold idx_store. do 5 wpe_step. apply wpe_find_or_create; [done|].
  intros z tid x c1 Hz Hp Es Hx Hcode.
  apply (store_row_advances I z c c1 tid x id p v); auto with congruent.
Qed.
Lemma idx_remove_advances i c : tables_ok c -> wpe fine (idx_remove I i) (advances c) c.
Proof.
  intros Hc. pose proof (progress_start c Hc) as Hp. pose proof (progress_index I _ _ _ _ Hp) as Hs.
  unfold idx_remove. wpe_step. eapply (wpe_get_row I); [exact Hs|]. intros o r Ho Hr. cbv beta iota.
  wpe_step. apply wpe_usage. intros h Hh. eapply progress_charge in Hp; [|exact Hh].
  wpe_step. eapply (wpe_own_table I); [apply (to_stores _ Hc)|by rewrite index_chain..|]. intros x Hx Hcode.
  eapply (drop_row_advances I); [exact Hp|done|exact Ho|exact Hr|exact Hx|done|].
  intros a. apply congruent_refund. auto with congruent.
Qed.
Lemma idx_update_advances i p v c : tables_ok c -> wpe fine (idx_update I i p v) (advances c) c.
Proof.
  intros Hc. pose proof (progress_start c Hc) as Hp. pose proof (progress_index I _ _ _ _ Hp) as Hs.
  unfold idx_update. wpe_step. eapply (wpe_get_row I); [exact Hs|]. intros o r Ho Hr. cbv beta iota.
  wpe_step. eapply (wpe_own_table I); [apply (to_stores _ Hc)|exact Ho|exact Hr|]. intros x Hx Hcode.
  set (q := if p =? 0 then r_payer r else p). wpe_step. set (m := row_size (r_value r)).
  apply wpe_mono with (Q1 := fun _ c' => exists h, c' = with_chain h c /\
    progress c None (fun a => 0 + owes (r_payer r) m a - owes q m a) c').
  - destruct (Z.eqb_spec (r_payer r) q) as [<-|]; cbn [negb]; [|apply wpe_pay; auto with congruent].
    wpe_step. exists (cx_chain c). split; [by destruct c|]. eapply progress_owes; [exact Hp|].
    intros a. exists 0. lia.
  - intros _ c' (h & -> & Hp'). eapply (wpe_modify_row I); [exact Hp'| |exact Hr|exact Hx|done].
    intros a. rewrite (Hsize v (r_value r)). exists 0. fold m. lia.
Qed.
End idx.

(** Calls that move back from an end iterator. *)
Definition idx_from_end (k : idx_call) : bool :=
  match k with IdxPreviousSecondary i | IdxPreviousPrimary i => i <? -1 | _ => false end.
Definition from_end (k : db_call) : bool :=
  match k with DbPrevious i => i <? -1 | DbIdx64 k | DbIdx128 k => idx_from_end k | _ => false end.
Definition may_throw (b : bool) (e : exn) : Prop := b = true \/ fine e.

Section read.
Context {V : Type} (I : Index V) `{!IndexLaws I}.

Lemma search_advances {A} (f : Z * option (table_row V) -> A) find code scope table c :
  tables_ok c -> room c -> (forall t rs o r, find t rs = Some (o, r) -> rs !! o = Some r) ->
  wpe fine (ignore (x ← search I find code scope table; mret (f x))) (advances c) c.
Proof.
  intros Hc [Hr _] Hf. apply wpe_ignore, wpe_then. by apply wpe_search.
Qed.
Lemma end_advances code scope table c : tables_ok c -> room c ->
  wpe fine (ignore (search_end I code scope table)) (advances c) c.
Proof. intros Hc [Hr _]. apply wpe_ignore. by apply wpe_search_end. Qed.
Lemma next_advances {A} (f : Z * option (table_row V) -> A) key i c : tables_ok c -> room c ->
  wpe fine (ignore (x ← next_row_by I key i; mret (f x))) (advances c) c.
Proof. intros Hc [Hr _]. apply wpe_ignore, wpe_then. by apply wpe_next_row. Qed.
Lemma previous_advances {A} (f : Z * option (table_row V) -> A) key i c : tables_ok c -> room c ->
  wpe (may_throw (i <? -1)) (ignore (x ← previous_row_by I key i; mret (f x))) (advances c) c.
Proof.
  intros Hc [Hr _]. apply wpe_ignore, wpe_then. unfold may_throw. destruct (Z.ltb_spec i (-1)).
  - eapply wpe_weaken; [|by apply wp_previous_end]. by left.
  - eapply wpe_weaken; [|by apply wpe_previous_row]. by right.
Qed.
Lemma get_advances {A} (f : Z * table_row V -> MC A) i c : tables_ok c ->
  (forall x Q, Q c -> wpe fine (f x) (fun _ => Q) c) -> wpe fine (ignore (get_row I i ≫= f)) (advances c) c.
Proof.
  intros Hc Hf. pose proof (progress_start c Hc) as Hp. apply wpe_ignore. wpe_step.
  eapply wpe_get_row; [by eapply progress_index|]. intros. by apply Hf.
Qed.
End read.

(** Reading calls. *)
Ltac reading :=
  lazymatch goal with
  | |- wpe _ (ignore (_ ← search _ _ _ _ _; _)) _ _ =>
      apply search_advances; [apply _|done|done|]; intros; eapply row_of_bound; eauto
  | |- wpe _ (ignore (search_end _ _ _ _)) _ _ => apply end_advances; [apply _|done|done]
  | |- wpe _ (ignore (_ ← next_row_by _ _ _; _)) _ _ => apply next_advances; [apply _|done|done]
    | |- wpe _ (ignore (get_row _ _ ≫= _)) _ _ => apply get_advances; [apply _|done|]; intros [? ?] ? ?; repeat wpe_step; done
  end.

Lemma idx_advances (I : Index Z) `{!IndexLaws I} k c : (forall v v' : Z, row_size v = row_size v') ->
  tables_ok c -> room c -> wpe (may_throw (idx_from_end k)) (run_idx I k) (advances c) c.
Proof.
  intros Hsize Hc Hr. destruct k; cbn [run_idx idx_from_end]; try (by apply previous_advances);
    (apply (wpe_weaken fine); [by right|]); [by apply idx_store_advances|by apply idx_remove_advances|
    by apply idx_update_advances|unfold find_secondary|unfold lowerbound_secondary|unfold upperbound_secondary|
    unfold end_secondary|unfold next_secondary|unfold find_primary|unfold lowerbound_primary|
    unfold upperbound_primary|unfold next_primary|unfold idx_get]; reading.
Qed.

Lemma call_advances k c : tables_ok c -> room c -> wpe (may_throw (from_end k)) (run_call k) (advances c) c.
Proof.
  intros Hc Hr. destruct k; cbn [run_call from_end]; try (apply previous_advances; [apply _|done|done]);
    try (apply idx_advances; [apply _|done|done|done]);
    (apply (wpe_weaken fine); [by right|]); [by apply db_store_advances|by apply db_update_advances|
    by apply db_remove_advances|unfold db_get_i64|unfold db_next_i64|unfold db_find_i64|
    unfold db_lowerbound_i64|unfold db_upperbound_i64|unfold db_end_i64]; reading.
Qed.
End run.

(** ** Reachable contexts

    Tables start empty. A contract makes calls, with room for their iterators and
    rows; between calls another contract may receive the action and the rest of the
    database may change; every action starts without iterators. *)
Definition forget {V} (s : store V) : store V := Store (rows s) (next_row s) new_cache.
Inductive tables_reachable : context -> Prop :=
| tr_empty c : cx_tables c = ∅ -> stores c = (Store ∅ 0 new_cache, Store ∅ 0 new_cache, Store ∅ 0 new_cache) ->
    tables_reachable c
| tr_call (env : NativeEnv) k c c' : tables_reachable c -> room c -> run_call k c = (c', Ok tt) -> tables_reachable c'
| tr_elsewhere c c' : tables_reachable c -> cx_tables c' = cx_tables c -> cx_next_table c' = cx_next_table c ->
    stores c' = stores c -> tables_reachable c'
| tr_action c c' : tables_reachable c -> cx_tables c' = cx_tables c -> cx_next_table c' = cx_next_table c ->
    stores c' = (forget (cx_keyval c), forget (cx_idx64 c), forget (cx_idx128 c)) -> tables_reachable c'.

Lemma empty_store_ok {V} T : store_ok T (Store (V := V) ∅ 0 new_cache).
Proof. split; cbn; intros; try (by rewrite lookup_empty in *). apply new_cache_ok. Qed.
Lemma forget_ok {V} T (s : store V) : store_ok T s -> store_ok T (forget s).
Proof. intros [H1 H2 H3 _]. split; try done. Qed.

Lemma tables_reachable_ok c : tables_reachable c -> tables_ok c.
Proof.
  induction 1 as [c ET ES|env k c c' _ IH Hr Hrun|c c' _ [H1 H2 H3 H4] ET EN ES|c c' _ [H1 H2 H3 H4] ET EN ES].
  - unfold stores in ES. split; rewrite ?ET; intros; try (by rewrite lookup_empty in *).
    injection ES as E1 E2 E3. unfold stores_ok. rewrite E1, E2, E3. split_and!; apply empty_store_ok.
  - pose proof (wpe_ok _ _ _ _ _ _ (call_advances k c IH Hr) Hrun) as [Hp _ _ _ _]. by apply tables_but_none.
  - assert (EC : forall t, row_count t c' = row_count t c) by (intros; by apply row_count_same).
    unfold stores in ES. injection ES as E1 E2 E3.
    split; rewrite ?ET, ?EN; [unfold stores_ok in *; by rewrite E1, E2, E3|done..|]. intros t x. rewrite EC. apply H4.
  - unfold stores in ES. injection ES as E1 E2 E3.
    split; rewrite ?ET, ?EN; [|done..|].
    + destruct H1 as (? & ? & ?). unfold stores_ok. rewrite E1, E2, E3. split_and!; by apply forget_ok.
    + intros t x. unfold row_count. rewrite E1, E2, E3. apply H4.
Qed.

(** C8. Contracts cannot break the tables. In every reachable context the counts of
    tables are exact, tables are never empty, keys are unique and every iterator stands for
    a live row of a cached table. A call that fails then fails with an error of the contract:
    it neither follows an invalid pointer nor finds the invariant broken that the code
    asserts. Moving back from an end iterator is the only exception. *)
Theorem contract_calls_safe (env : NativeEnv) k c : tables_reachable c ->
  tables_ok c /\
  (room c -> from_end k = false -> forall c' e, run_call k c = (c', Throw e) ->
   e <> undefined_behaviour /\ e <> table_not_in_cache).
Proof.
  intros Hc%tables_reachable_ok. split; [done|]. intros Hr Hk c' e Hrun.
  pose proof (call_advances k c Hc Hr) as Hw. unfold wpe in Hw. rewrite Hrun, Hk in Hw. by destruct Hw.
Qed.

(** What an account is charged for. *)
Definition held (c : context) (a : account_name) : Z := native_ram (cx_chain c) a + contract_ram c a.

(** C24. Rows are billed exactly: a call changes what an account is charged by the change
    of the size of the objects held on its behalf, rows, secondary keys and tables included,
    for every account and modulo the 64 bits of the counter. *)
Theorem contract_rows_billed_exactly (env : NativeEnv) k c c' a :
  tables_reachable c -> room c -> run_call k c = (c', Ok tt) ->
  u64 (charged (cx_chain c') a - charged (cx_chain c) a) = u64 (held c' a - held c a).
Proof.
  intros Hc%tables_reachable_ok Hr Hrun.
  pose proof (pr_bill _ _ _ _ (wpe_ok _ _ _ _ _ _ (call_advances k c Hc Hr) Hrun) a) as Hb.
  unfold unexplained, held in *.
  destruct (u64_cong (charged (cx_chain c') a - native_ram (cx_chain c') a)) as [k1 E1].
  destruct (u64_cong (charged (cx_chain c) a - native_ram (cx_chain c) a)) as [k2 E2]. rewrite E1, E2 in Hb.
  match type of Hb with u64 ?x = u64 ?y => destruct (u64_cong x) as [k3 E3], (u64_cong y) as [k4 E4] end.
  rewrite E3, E4 in Hb. apply (u64_eq _ _ (k2 + k4 - k1 - k3)). lia.
Qed.

(** C25. A contract changes only its own tables: the tables of other contracts, and their
    rows in all indices, are the same objects with the same contents after any call. *)
Theorem contract_isolation (env : NativeEnv) k c c' :
  tables_reachable c -> room c -> run_call k c = (c', Ok tt) ->
  (forall t x, t_code x <> cx_receiver c -> cx_tables c' !! t = Some x <-> cx_tables c !! t = Some x) /\
  same_stores (foreign c) c c'.
Proof.
  intros Hc%tables_reachable_ok Hr Hrun.
  pose proof (wpe_ok _ _ _ _ _ _ (call_advances k c Hc Hr) Hrun) as [_ _ Hn Hs _]. done.
Qed.
