(* ===== verification/TablesOrder.v ===== *)
(** * Iteration over a table

    A loop over a table with [db_lowerbound_i64] and [db_next_i64] visits its rows in
    ascending order of their keys, each once. *)
From Stdlib Require Import Ascii String.
From S2P Require Import Prelude Merkle BlockHeaderState Names Raw Authority Transactions.
From S2P Require Import AuthorizationManager ResourceLimits NativeContract Controller Billing ContractTables TablesInvariant.

(** ** Filters *)
Lemma filter_none {A} (P : A -> Prop) `{!forall x, Decision (P x)} (l : list A) :
  (forall x, x ∈ l -> ~ P x) -> filter P l = [].
Proof.
  induction l as [|x l IH]; intros Hl; [done|]. rewrite filter_cons, decide_False by (apply Hl; by left).
  apply IH. set_solver.
Qed.

(** ** The order of primary keys *)
Section order.
Context {V : Type}.
Implicit Types (x y : Z * table_row V) (rs : gmap Z (table_row V)).

Definition after (t p : Z) x : Prop := t < r_t_id x.2 \/ t = r_t_id x.2 /\ p < r_primary_key x.2.
Lemma compare_after x t p : key_compare (by_primary x.2) [t; p] = Gt <-> after t p x.
Proof.
  unfold after, by_primary. cbn. destruct (Z.compare_spec (r_t_id x.2) t) as [E|E|E]; try (split; [done|lia]).
  - destruct (Z.compare_spec (r_primary_key x.2) p); split; try done; lia.
  - split; [by left|done].
Qed.
Lemma compare_not_before x t p : key_compare (by_primary x.2) [t; p] <> Lt <-> after t (p - 1) x.
Proof.
  unfold after, by_primary. cbn. destruct (Z.compare_spec (r_t_id x.2) t) as [E|E|E]; try (split; [done|lia]).
  - destruct (Z.compare_spec (r_primary_key x.2) p); split; try done; lia.
  - split; [by left|done].
Qed.
Lemma entry_le_spec x y : entry_le by_primary x y <->
  r_t_id x.2 < r_t_id y.2 \/ r_t_id x.2 = r_t_id y.2 /\ r_primary_key x.2 <= r_primary_key y.2.
Proof.
  unfold entry_le, by_primary. cbn. destruct (Z.compare_spec (r_t_id x.2) (r_t_id y.2)) as [E|E|E].
  - destruct (Z.compare_spec (r_primary_key x.2) (r_primary_key y.2)); split; try done; lia.
  - split; [by left|done].
  - split; [done|lia].
Qed.
#[global] Instance entry_le_trans : Transitive (entry_le (V := V) by_primary).
Proof. intros x y z. rewrite !entry_le_spec. lia. Qed.
#[global] Instance entry_le_total : Total (entry_le (V := V) by_primary).
Proof. intros x y. rewrite !entry_le_spec. lia. Qed.

(** The rows in order, where no key occurs twice. *)
Definition entry_lt x y : Prop := after (r_t_id x.2) (r_primary_key x.2) y.
Lemma sequence_sorted rs :
  (forall o o' r r', rs !! o = Some r -> rs !! o' = Some r' -> by_primary r = by_primary r' -> o = o') ->
  StronglySorted entry_lt (sequence by_primary rs).
Proof.
  intros Hu. assert (Hs : StronglySorted (entry_le by_primary) (sequence by_primary rs))
    by (apply StronglySorted_merge_sort; apply _).
  assert (Hnd : NoDup (sequence by_primary rs)).
  { unfold sequence. rewrite merge_sort_Permutation. apply NoDup_map_to_list. }
  assert (Hin : forall x, x ∈ sequence by_primary rs -> rs !! x.1 = Some x.2) by (intros x; apply sequence_elem).
  induction Hs as [|x l Hl IH Hx]; [constructor|]. inversion Hnd as [|? ? Hni Hnd']; subst.
  constructor; [by apply IH; [done|set_solver]|]. rewrite Forall_forall in Hx |- *. intros y Hy.
  pose proof (proj1 (entry_le_spec x y) (Hx y Hy)) as Hle. unfold entry_lt, after.
  destruct (decide (r_primary_key x.2 = r_primary_key y.2 /\ r_t_id x.2 = r_t_id y.2)) as [[E1 E2]|]; [|lia].
  destruct Hni. assert (x = y) as ->; [|done]. destruct x as [o r], y as [o' r'].
  pose proof (Hin (o, r) ltac:(set_solver)) as Ho. pose proof (Hin (o', r') ltac:(set_solver)) as Ho'. cbn in *.
  assert (o = o') as <- by (eapply Hu; eauto; unfold by_primary; congruence). congruence.
Qed.

(** The entries of a table above a key. *)
Definition above (t p : Z) (l : list (Z * table_row V)) : list (Z * table_row V) :=
  filter (fun x => r_t_id x.2 = t /\ p < r_primary_key x.2) l.
Definition first_after (t p : Z) (l : list (Z * table_row V)) : option (Z * table_row V) :=
  head (filter (fun x => key_compare (by_primary x.2) [t; p] = Gt) l).

Lemma above_step t p l : StronglySorted entry_lt l ->
  above t p l = match first_after t p l with
                | Some x => if decide (r_t_id x.2 = t) then x :: above t (r_primary_key x.2) l else []
                | None => []
                end.
Proof.
  unfold above, first_after. induction 1 as [|y l Hl IH Hy]; [done|]. rewrite !filter_cons.
  destruct (decide (key_compare (by_primary y.2) [t; p] = Gt)) as [Hgt|Hgt]; rewrite compare_after in Hgt; cbn.
  - clear IH. rewrite Forall_forall in Hy. unfold entry_lt, after in *.
    destruct (decide (r_t_id y.2 = t)) as [Et|Et].
    + rewrite !decide_True, decide_False by lia. f_equal. apply filter_ext_in. intros z Hz. specialize (Hy z Hz). lia.
    + rewrite decide_False by lia. apply filter_none. intros z Hz. specialize (Hy z Hz). lia.
  - rewrite decide_False by (unfold after in Hgt; lia). rewrite IH.
    destruct (head _) as [x|] eqn:Eh; [|done]. destruct (decide _) as [Et|]; [|done].
    assert (after t p x) as Hx.
    { apply compare_after. destruct (filter _ l) as [|x' l'] eqn:Ef; [done|]. injection Eh as ->.
      assert (x ∈ x :: l') as Hin by (by left). rewrite <- Ef in Hin. by apply list_elem_of_filter in Hin as [? _]. }
    rewrite decide_False; [done|]. unfold after in *. lia.
Qed.
End order.

(** ** Walking through a table *)
Section walk.
Context `{NativeEnv}.

(** [for( i = ...; i >= 0; i = db_next_i64( i ) )], with the keys it visits. *)
Fixpoint walk (fuel : nat) (i : Z) : MC (list Z) :=
  match fuel with
  | O => throw runtime_error
  | S fuel =>
      if i <? 0 then mret [] else
      '(_, r) ← get_row keyval i;
      '(j, _) ← db_next_i64 i;
      ps ← walk fuel j;
      mret (r_primary_key r :: ps)
  end.

(** A contract has an iterator on a row, and can have [n] more. *)
Record iterator_on (c : context) (i o : Z) (r : table_row bytes) (n : nat) : Prop := {
  io_ok : store_ok (cx_tables c) (cx_keyval c);
  io_object : object_to_iterator (cache (cx_keyval c)) !! o = Some i;
  io_row : rows (cx_keyval c) !! o = Some r;
  io_room : Z.of_nat (length (iterator_to_object (cache (cx_keyval c))) + n) <= 2 ^ 31 - 1
}.
Abbreviation ordered c := (sequence by_primary (rows (cx_keyval c))).

Lemma get_row_exact c i o r n : iterator_on c i o r n -> 0 <= i /\ get_row keyval i c = (c, Ok (o, r)).
Proof.
  intros [Hs Ho Hr _]. destruct (ck_iterator _ _ (so_cache _ _ Hs) _ _ Ho) as [Hi Hl]. split; [done|].
  pose proof (lookup_lt_Some _ _ _ Hl) as Hlt. unfold get_row, query_cache, cache_get, row_at. run_st. cbn.
  rewrite (proj2 (Z.eqb_neq i (-1))), (proj2 (Z.leb_le 0 i)), (proj2 (Z.ltb_lt i _)) by lia. cbn.
  rewrite Hl. cbn. by rewrite Hr.
Qed.

(** An iterator more. *)
Lemma cache_add_spec (rs : gmap Z (table_row bytes)) k o r :
  cache_ok rs k -> Z.of_nat (length (iterator_to_object k)) < 2 ^ 31 - 1 -> rs !! o = Some r ->
  is_Some (table_cache k !! r_t_id r) ->
  cache_ok rs (cache_add o k).1 /\ object_to_iterator (cache_add o k).1 !! o = Some (cache_add o k).2 /\
  (length (iterator_to_object (cache_add o k).1) <= S (length (iterator_to_object k)))%nat.
Proof.
  intros Hk Hl Ho Ht. destruct (cache_add_ok _ _ _ _ Hk Hl Ho Ht) as [H1 H2]. split_and!; [done..|].
  unfold cache_add. destruct (object_to_iterator k !! o); cbn [fst iterator_to_object]; [lia|].
  rewrite length_app. cbn [length]. lia.
Qed.
Lemma cache_table_end t k q : table_cache (cache_table t k).1 !! t = Some q -> (cache_table t k).2 = q.2.
Proof.
  unfold cache_table. destruct (table_cache k !! t) as [[t' ei]|] eqn:E; cbn; [rewrite E|rewrite lookup_insert_eq];
    by intros [= <-].
Qed.

(** One step of the walk. *)
Lemma db_next_run c i o r n q : iterator_on c i o r n -> table_cache (cache (cx_keyval c)) !! r_t_id r = Some q ->
  db_next_i64 i c = match first_after (r_t_id r) (r_primary_key r) (ordered c) with
    | Some x => if decide (r_t_id x.2 = r_t_id r)
                then let '(k, j) := cache_add x.1 (cache (cx_keyval c)) in
                     (set_index (Index := keyval) (Store (rows (cx_keyval c)) (next_row (cx_keyval c)) k) c,
                      Ok (j, Some (r_primary_key x.2)))
                else (c, Ok (q.2, None))
    | None => (c, Ok (q.2, None))
    end.
Proof.
  intros Hon Hq. destruct (get_row_exact _ _ _ _ _ Hon) as [Hi Hg].
  unfold db_next_i64, next_row_by. rewrite (proj2 (Z.ltb_ge i (-1))) by lia.
  unfold mbind, St_bind. rewrite Hg. cbn [get].
  change (upper_bound by_primary (by_primary r) (rows (index c)))
    with (first_after (r_t_id r) (r_primary_key r) (ordered c)).
  unfold query_cache, get_end_iterator_by_table_id, with_cache. run_st.
  destruct (first_after _ _ _) as [[o' r']|]; cbn; [|by rewrite Hq].
  destruct (decide (r_t_id r' = r_t_id r)) as [->|Hne]; [rewrite Z.eqb_refl|rewrite (proj2 (Z.eqb_neq _ _)) by done].
  - by destruct (cache_add o' (cache (cx_keyval c))).
  - cbn. by rewrite Hq.
Qed.

Lemma first_after_row t p c x : first_after t p (ordered c) = Some x -> rows (cx_keyval c) !! x.1 = Some x.2.
Proof. intros Hx. by apply head_filter_elem in Hx as [? _]. Qed.

Lemma db_next_exact c i o r n : iterator_on c i o r n ->
  match above (r_t_id r) (r_primary_key r) (ordered c) with
  | [] => exists ei, ei < -1 /\ db_next_i64 i c = (c, Ok (ei, None))
  | x :: _ => n <> O -> exists c' j, db_next_i64 i c = (c', Ok (j, Some (r_primary_key x.2))) /\
      rows (cx_keyval c') = rows (cx_keyval c) /\ r_t_id x.2 = r_t_id r /\ iterator_on c' j x.1 x.2 (pred n)
  end.
Proof.
  intros Hon. pose proof Hon as [Hs Ho Hr Hroom]. pose proof (so_cache _ _ Hs) as Hk.
  destruct (ck_live _ _ Hk _ _ Ho) as (r' & Hr' & q & Hq). assert (r' = r) as -> by congruence.
  destruct (ck_table _ _ Hk _ _ Hq) as (_ & m & _ & Hei).
  rewrite above_step by (apply sequence_sorted; apply (so_unique _ _ Hs)).
  rewrite (db_next_run c i o r n q Hon Hq). destruct (first_after _ _ _) as [x|] eqn:Ef; [|exists q.2; by split; [lia|]].
  destruct (decide _) as [Et|]; [|exists q.2; by split; [lia|]]. intros Hn. apply first_after_row in Ef.
  assert (Hlt : Z.of_nat (length (iterator_to_object (cache (cx_keyval c)))) < 2 ^ 31 - 1) by lia.
  assert (Hc : is_Some (table_cache (cache (cx_keyval c)) !! r_t_id x.2)) by (rewrite Et; eauto).
  destruct (cache_add_spec _ _ _ _ Hk Hlt Ef Hc) as (Hk' & Ho' & Hlen).
  destruct (cache_add x.1 (cache (cx_keyval c))) as [k j]. cbn in *. eexists _, j. split_and!; try done.
  split; cbn; try done; [|lia]. by apply store_cache.
Qed.

(** From a row on, the walk returns the keys above in order. *)
Lemma walk_exact fuel c i o r : forall n, iterator_on c i o r n ->
  (length (above (r_t_id r) (r_primary_key r) (ordered c)) <= n)%nat ->
  (length (above (r_t_id r) (r_primary_key r) (ordered c)) + 2 <= fuel)%nat ->
  exists c', walk fuel i c =
    (c', Ok (r_primary_key r :: map (fun x => r_primary_key x.2) (above (r_t_id r) (r_primary_key r) (ordered c)))).
Proof.
  revert c i o r. induction fuel as [|fuel IH]; intros c i o r n Hon Hn Hf; [lia|].
  pose proof (db_next_exact _ _ _ _ _ Hon) as Hnext. pose proof Hon as [Hs _ _ _].
  destruct (get_row_exact _ _ _ _ _ Hon) as [Hi Hg]. cbn [walk]. rewrite (proj2 (Z.ltb_ge i 0)) by lia.
  erewrite St_bind_run by exact Hg. cbv beta iota.
  pose proof (above_step (r_t_id r) (r_primary_key r) (ordered c)
    ltac:(apply sequence_sorted; apply (so_unique _ _ Hs))) as Hstep.
  destruct (above (r_t_id r) (r_primary_key r) (ordered c)) as [|x l].
  - destruct Hnext as (ei & Hei & Hrun). exists c. erewrite St_bind_run by exact Hrun. cbv beta iota.
    destruct fuel as [|fuel]; [cbn in Hf; lia|]. cbn [walk]. by rewrite (proj2 (Z.ltb_lt ei 0)) by lia.
  - destruct Hnext as (c1 & j & Hrun & Er & Et & Hon1); [cbn in Hn; lia|].
    assert (El : l = above (r_t_id x.2) (r_primary_key x.2) (ordered c1)).
    { destruct (first_after _ _ _) as [y|]; [|done]. destruct (decide _); [|done]. injection Hstep as -> ->.
      by rewrite Er, Et. }
    destruct (IH c1 j x.1 x.2 (pred n) Hon1) as [c2 Hwalk]; [rewrite <- El; cbn in *; lia..|].
    exists c2. erewrite St_bind_run by exact Hrun. cbv beta iota. erewrite St_bind_run by exact Hwalk.
    cbn. by rewrite El.
Qed.

Lemma find_table_exact code scope table t x c : tables_ok c -> cx_tables c !! t = Some x ->
  t_code x = code -> t_scope x = scope -> t_table x = table -> find_table code scope table c = (c, Ok (Some t)).
Proof.
  intros Hc Hx E1 E2 E3.
  assert (Hw : wpe (fun _ => False) (find_table code scope table) (fun o c' => o = Some t /\ c' = c) c).
  { apply wpe_find_table.
    - intros u y Hy ???. split; [|done]. f_equal. apply (to_unique _ Hc _ _ _ _ Hy Hx); congruence.
    - intros Hn. by destruct (Hn t x Hx). }
  unfold wpe in Hw. destruct (find_table code scope table c) as [c' [o|e]]; [|done]. by destruct Hw as [-> ->].
Qed.

Lemma lower_bound_after t lo c :
  lower_bound by_primary [t; lo] (rows (cx_keyval c)) = first_after t (lo - 1) (ordered c).
Proof.
  unfold lower_bound, first_after. f_equal. apply filter_ext_in. intros y _.
  rewrite compare_not_before. by rewrite compare_after.
Qed.

(** The start of the walk. *)
Lemma db_lowerbound_exact code scope table lo t x c n : tables_ok c -> cx_tables c !! t = Some x ->
  t_code x = code -> t_scope x = scope -> t_table x = table -> stores_room c -> n <> O ->
  Z.of_nat (length (iterator_to_object (cache (cx_keyval c))) + n) <= 2 ^ 31 - 1 ->
  exists c' i, db_lowerbound_i64 code scope table lo c = (c', Ok i) /\ rows (cx_keyval c') = rows (cx_keyval c) /\
    match first_after t (lo - 1) (ordered c) with
    | Some y => if decide (r_t_id y.2 = t) then iterator_on c' i y.1 y.2 (pred n) else i < 0
    | None => i < 0
    end.
Proof.
  intros Hc Hx E1 E2 E3 (Hroom & _ & _) Hn Hlen. pose proof (to_stores _ Hc) as (Hs & _ & _).
  destruct (cache_table_ok _ _ t (so_cache _ _ Hs) Hroom) as (Hk & [q Hq] & Ei).
  destruct (ck_table _ _ Hk _ _ Hq) as (_ & m & _ & Hei).
  pose proof (cache_table_end _ _ _ Hq) as Hend.
  unfold db_lowerbound_i64, search, mbind, St_bind. erewrite find_table_exact by eassumption.
  unfold with_cache at 1. cbn [index set_index keyval]. destruct (cache_table t (cache (cx_keyval c))) as [k1 e1]. cbn in Hk, Hq, Ei, Hend. rewrite <- Ei in Hlen.
  run_st.
  cbn [index cx_keyval rows keyval]. rewrite lower_bound_after.
  destruct (first_after t (lo - 1) (ordered c)) as [[o r]|] eqn:Ef; [|by eexists _, e1; split_and!; [reflexivity|done|lia]].
  destruct (decide (r_t_id r = t)) as [Et|Et]; cbn [snd].
  - rewrite Et, Z.eqb_refl. apply first_after_row in Ef. cbn in Ef.
    destruct (cache_add_spec (rows (cx_keyval c)) k1 o r) as (Hk' & Ho' & Hl'); [done|lia|done|rewrite Et; eauto|].
    unfold with_cache. cbn. destruct (cache_add o k1) as [k2 i]. cbn in *.
    eexists _, i. split_and!; [reflexivity|done|]. split; cbn; try done; [|lia]. by apply store_cache.
  - rewrite (proj2 (Z.eqb_neq _ _)) by done. by eexists _, e1; split_and!; [reflexivity|done|lia].
Qed.

Lemma above_length t p (c : context) : (length (above t p (ordered c)) <= size (rows (cx_keyval c)))%nat.
Proof.
  unfold above. etransitivity; [apply length_filter|]. unfold sequence.
  by rewrite merge_sort_Permutation, length_map_to_list.
Qed.
Lemma above_elem t p c k : k ∈ map (fun x => r_primary_key x.2) (above t p (ordered c)) <->
  p < k /\ exists o r, rows (cx_keyval c) !! o = Some r /\ r_t_id r = t /\ r_primary_key r = k.
Proof.
  rewrite list_elem_of_fmap. unfold above. split.
  - intros ([o r] & -> & [[Ht Hp] Hin]%list_elem_of_filter). apply sequence_elem in Hin. cbn in *. eauto 10.
  - intros (Hp & o & r & Hr & Ht & <-). exists (o, r). split; [done|]. apply list_elem_of_filter.
    by rewrite sequence_elem.
Qed.
Lemma above_sorted t p (l : list (Z * table_row bytes)) : StronglySorted entry_lt l ->
  StronglySorted Z.lt (map (fun x => r_primary_key x.2) (above t p l)).
Proof.
  unfold above. induction 1 as [|x l Hl IH Hx]; [constructor|]. rewrite filter_cons.
  destruct (decide _) as [[Et _]|]; [|done]. cbn. constructor; [done|].
  apply Forall_forall. rewrite Forall_forall in Hx. intros k (y & -> & [[Hy _] Hin]%list_elem_of_filter)%list_elem_of_fmap.
  specialize (Hx y Hin). unfold entry_lt, after in Hx. lia.
Qed.

Lemma walk_above code scope table lo t x fuel c : tables_ok c -> stores_room c ->
  cx_tables c !! t = Some x -> t_code x = code -> t_scope x = scope -> t_table x = table ->
  Z.of_nat (length (iterator_to_object (cache (cx_keyval c))) + size (rows (cx_keyval c))) < 2 ^ 31 - 1 ->
  (size (rows (cx_keyval c)) + 2 <= fuel)%nat ->
  exists c', (i ← db_lowerbound_i64 code scope table lo; walk fuel i) c =
    (c', Ok (map (fun x => r_primary_key x.2) (above t (lo - 1) (ordered c)))).
Proof.
  intros Hc Hr Hx E1 E2 E3 Hlen Hf. pose proof (to_stores _ Hc) as (Hs & _ & _).
  destruct (db_lowerbound_exact code scope table lo t x c (S (size (rows (cx_keyval c)))))
    as (c1 & i & Hrun & Er & Hi); try done; [lia|].
  erewrite St_bind_run by exact Hrun. pose proof (above_length t (lo - 1) c) as Hal.
  rewrite above_step in Hal |- * by (apply sequence_sorted; apply (so_unique _ _ Hs)).
  destruct fuel as [|fuel]; [lia|].
  assert (Hend : i < 0 -> exists c', walk (S fuel) i c1 = (c', Ok [])).
  { intros Hlt. exists c1. cbn [walk]. by rewrite (proj2 (Z.ltb_lt i 0)). }
  destruct (first_after t (lo - 1) (ordered c)) as [y|]; [|by apply Hend]. destruct (decide _) as [Et|]; [|by apply Hend].
  replace (above t (r_primary_key y.2) (ordered c)) with (above (r_t_id y.2) (r_primary_key y.2) (ordered c1)) in *
    by (by rewrite Er, Et).
  eapply walk_exact; [exact Hi|..]; cbn in Hal |- *; lia.
Qed.
End walk.

(** C26. A loop from [db_lowerbound_i64] with [db_next_i64] to the end of a table terminates and
    visits exactly the rows of the table with a key of at least the bound, each once and in
    ascending order. The context is one that contracts can reach, with room in its caches
    of iterators, in that of rows for all rows. *)
Theorem table_walk_complete (env : NativeEnv) code scope table lo t x fuel c :
  tables_reachable c -> stores_room c ->
  cx_tables c !! t = Some x -> t_code x = code -> t_scope x = scope -> t_table x = table ->
  Z.of_nat (length (iterator_to_object (cache (cx_keyval c))) + size (rows (cx_keyval c))) < 2 ^ 31 - 1 ->
  (size (rows (cx_keyval c)) + 2 <= fuel)%nat ->
  exists c' ps, (i ← db_lowerbound_i64 code scope table lo; walk fuel i) c = (c', Ok ps) /\
    StronglySorted Z.lt ps /\
    forall p, p ∈ ps <-> lo <= p /\ exists o r, rows (cx_keyval c) !! o = Some r /\ r_t_id r = t /\ r_primary_key r = p.
Proof.
  intros Hc%tables_reachable_ok Hr Hx E1 E2 E3 Hlen Hf. pose proof (to_stores _ Hc) as (Hs & _ & _).
  destruct (walk_above code scope table lo t x fuel c) as [c' Hrun]; try done.
  eexists c', _. split_and!; [exact Hrun| |].
  - apply above_sorted, sequence_sorted, (so_unique _ _ Hs).
  - intros p. rewrite above_elem. split; intros [Hp Hex]; (split; [lia|done]).
Qed.

(** ** A contract at work *)
Module TablesSample.
Import ChainSample.
Abbreviation me := system_account_name.
Definition start : context :=
  Context genesis ∅ 0 (Store ∅ 0 new_cache) (Store ∅ 0 new_cache) (Store ∅ 0 new_cache) me false sample_link_action.
Lemma start_reachable : tables_reachable start.
Proof. by apply tr_empty. Qed.

(** Decides whether there is room, for the tables of these samples. *)
Definition room_check (c : context) : bool :=
  let small (k : iterator_cache) := (Z.of_nat (length (iterator_to_object k)) <? 2 ^ 31 - 1)
    && (Z.of_nat (length (end_iterator_to_table k)) <? 2 ^ 31 - 2) in
  small (cache (cx_keyval c)) && small (cache (cx_idx64 c)) && small (cache (cx_idx128 c))
  && (Z.of_nat (size (rows (cx_keyval c)) + size (rows (cx_idx64 c)) + size (rows (cx_idx128 c))) <? 2 ^ 32 - 1).
Lemma rows_in_size {V} t (s : store V) : rows_in t s <= Z.of_nat (size (rows s)).
Proof.
  unfold rows_in. induction (rows s) as [|o r m Ho IH] using map_ind; [done|].
  rewrite map_sum_insert, map_size_insert_None by done. unfold in_table at 1. destruct (_ =? _); lia.
Qed.
Lemma room_check_ok c : room_check c = true -> room c.
Proof.
  unfold room_check. intros Hc. bool_to_prop. split; [by repeat split|]. intros t. unfold row_count.
  pose proof (rows_in_size t (cx_keyval c)). pose proof (rows_in_size t (cx_idx64 c)).
  pose proof (rows_in_size t (cx_idx128 c)). lia.
Qed.

(** Two rows and a secondary key. *)
Definition first_call : db_call := DbStore 1 2 me 5 [].
Definition after_first : context := Eval vm_compute in (run_call first_call start).1.
Definition second_call : db_call := DbIdx64 (IdxStore 1 2 me 5 9).
Definition after_second : context := Eval vm_compute in (run_call second_call after_first).1.
Definition third_call : db_call := DbStore 1 2 me 3 [].
Definition after_third : context := Eval vm_compute in (run_call third_call after_second).1.

Lemma first_run : run_call first_call start = (after_first, Ok tt).
Proof. by vm_compute. Qed.
Lemma second_run : run_call second_call after_first = (after_second, Ok tt).
Proof. by vm_compute. Qed.
Lemma third_run : run_call third_call after_second = (after_third, Ok tt).
Proof. by vm_compute. Qed.
Lemma third_reachable : tables_reachable after_third.
Proof.
  assert (Hr1 : room start) by (apply room_check_ok; vm_compute; reflexivity).
  assert (Hr2 : room after_first) by (apply room_check_ok; vm_compute; reflexivity).
  assert (Hr3 : room after_second) by (apply room_check_ok; vm_compute; reflexivity).
  exact (tr_call _ _ _ _ (tr_call _ _ _ _ (tr_call _ _ _ _ start_reachable Hr1 first_run) Hr2 second_run) Hr3 third_run).
Qed.
End TablesSample.
Import TablesSample.

(** The end iterator of a table keeps a pointer to the table. A contract that removes
    the last row, and the table with it, and then moves back from the end iterator it
    still holds makes the node follow a pointer to an object that no longer exists. *)
Theorem stale_end_iterator : exists c,
  for_each run_call [first_call; DbEnd system_account_name 1 2; DbRemove 0] start = (c, Ok tt) /\
  cx_tables c = ∅ /\ (db_previous_i64 (-2) c).2 = Throw undefined_behaviour.
Proof. eexists. split; [vm_compute; reflexivity|]. split; vm_compute; reflexivity. Qed.

Lemma contract_calls_safe_witness : exists c' e, run_call (DbRemove 7) after_third = (c', Throw e) /\
  tables_ok after_third /\ e <> undefined_behaviour /\ e <> table_not_in_cache.
Proof.
  exists (run_call (DbRemove 7) after_third).1, invalid_table_iterator.
  assert (run_call (DbRemove 7) after_third = ((run_call (DbRemove 7) after_third).1, Throw invalid_table_iterator))
    as Hrun by (vm_compute; reflexivity).
  destruct (contract_calls_safe _ (DbRemove 7) after_third third_reachable) as [Hok Hsafe].
  split; [exact Hrun|]. split; [exact Hok|].
  exact (Hsafe ltac:(apply room_check_ok; vm_compute; reflexivity) eq_refl _ _ Hrun).
Defined.

Lemma contract_rows_billed_exactly_witness : exists c',
  run_call (DbRemove 0) after_third = (c', Ok tt) /\
  u64 (charged (cx_chain c') system_account_name - charged (cx_chain after_third) system_account_name)
  = u64 (- key_value_object_size).
Proof.
  exists (run_call (DbRemove 0) after_third).1.
  assert (run_call (DbRemove 0) after_third = ((run_call (DbRemove 0) after_third).1, Ok tt)) as Hrun
    by (vm_compute; reflexivity).
  split; [exact Hrun|].
  rewrite (contract_rows_billed_exactly _ (DbRemove 0) after_third _ system_account_name third_reachable
    ltac:(apply room_check_ok; vm_compute; reflexivity) Hrun).
  vm_compute. reflexivity.
Defined.

Lemma contract_isolation_witness : exists c',
  run_call (DbRemove 0) after_third = (c', Ok tt) /\ same_stores (foreign after_third) after_third c'.
Proof.
  exists (run_call (DbRemove 0) after_third).1.
  assert (run_call (DbRemove 0) after_third = ((run_call (DbRemove 0) after_third).1, Ok tt)) as Hrun
    by (vm_compute; reflexivity).
  split; [exact Hrun|].
  exact (proj2 (contract_isolation _ (DbRemove 0) after_third _ third_reachable
    ltac:(apply room_check_ok; vm_compute; reflexivity) Hrun)).
Defined.

(** The walk from key 3 visits the rows 3 and 5, which were stored in the other order. *)
Lemma table_walk_complete_witness : exists c',
  (i ← db_lowerbound_i64 system_account_name 1 2 3; walk 4 i) after_third = (c', Ok [3; 5]) /\
  StronglySorted Z.lt [3; 5] /\
  forall p, p ∈ [3; 5] <-> 3 <= p /\ exists o r, rows (cx_keyval after_third) !! o = Some r /\ r_t_id r = 0 /\ r_primary_key r = p.
Proof.
  destruct (table_walk_complete _ system_account_name 1 2 3 0 (TableId system_account_name 1 2 system_account_name 3)
    4 after_third) as (c' & ps & Hrun & Hs & Hp).
  - exact third_reachable.
  - exact (proj1 (room_check_ok after_third ltac:(vm_compute; reflexivity))).
  - vm_compute. reflexivity.
  - reflexivity.
  - reflexivity.
  - reflexivity.
  - vm_compute. reflexivity.
  - vm_compute. lia.
  - assert (Hres : ((i ← db_lowerbound_i64 system_account_name 1 2 3; walk 4 i) after_third).2 = Ok [3; 5])
      by (vm_compute; reflexivity).
    rewrite Hrun in Hres. cbn [snd] in Hres. injection Hres as ->. exists c'. exact (conj Hrun (conj Hs Hp)).
Defined.
