(* ===== verification/TransactionContext.v ===== *)
(** * Transaction contexts

    Model of [transaction_context.cpp] and [chain_config.cpp] under [libraries/chain]: the
    limits of network and CPU usage under which a transaction runs, its deadline and
    billing timer, the recording of transactions, and the billing at its end. The
    execution of an action is an interface ([Dispatch]); the clock of the machine is a
    sequence of readings. *)
From S2P Require Import Prelude ContractTables Merkle BlockHeaderState BlockApply Raw Authority Transactions.
From S2P Require Import AuthorizationManager ResourceLimits NativeContract Controller.

(** ** Parameters of the chain *)
Record chain_config := ChainConfig {
  cc_max_block_net_usage : Z;
  cc_target_block_net_usage_pct : Z;
  cc_max_transaction_net_usage : Z;
  cc_base_per_transaction_net_usage : Z;
  cc_net_usage_leeway : Z;
  cc_context_free_discount_net_usage_num : Z;
  cc_context_free_discount_net_usage_den : Z;
  cc_max_block_cpu_usage : Z;
  cc_target_block_cpu_usage_pct : Z;
  cc_max_transaction_cpu_usage : Z;
  cc_min_transaction_cpu_usage : Z;
  cc_max_transaction_lifetime : Z;
  cc_deferred_trx_expiration_window : Z;
  cc_max_transaction_delay : Z;
  cc_max_inline_action_size : Z;
  cc_max_inline_action_depth : Z;
  cc_max_authority_depth : Z
}.

Definition percent_1 : Z := 100.
Definition percent_100 : Z := 10000.
Definition min_net_usage_delta_between_base_and_max_for_trx : Z := 10 * 1024.
Definition transaction_id_net_usage : Z := 32.

(** The differences are computed in 32 bits. *)
Definition validate_config (c : chain_config) : result unit :=
  let check b := bes_assert b action_validate_exception in
  _ ← check (cc_target_block_net_usage_pct c <=? percent_100);
  _ ← check (percent_1 / 10 <=? cc_target_block_net_usage_pct c);
  _ ← check (cc_target_block_cpu_usage_pct c <=? percent_100);
  _ ← check (percent_1 / 10 <=? cc_target_block_cpu_usage_pct c);
  _ ← check (cc_max_transaction_net_usage c <? cc_max_block_net_usage c);
  _ ← check (cc_max_transaction_cpu_usage c <? cc_max_block_cpu_usage c);
  _ ← check (cc_base_per_transaction_net_usage c <? cc_max_transaction_net_usage c);
  _ ← check (min_net_usage_delta_between_base_and_max_for_trx <=?
             u32 (cc_max_transaction_net_usage c - cc_base_per_transaction_net_usage c));
  _ ← check (0 <? cc_context_free_discount_net_usage_den c);
  _ ← check (cc_context_free_discount_net_usage_num c <=? cc_context_free_discount_net_usage_den c);
  _ ← check (cc_min_transaction_cpu_usage c <=? cc_max_transaction_cpu_usage c);
  _ ← check (cc_max_transaction_cpu_usage c <? u32 (cc_max_block_cpu_usage c - cc_min_transaction_cpu_usage c));
  check (1 <=? cc_max_authority_depth c).

(** ** Settings of the node *)
Inductive validation_mode := FULL | LIGHT.

(** What does not change while a transaction runs: the configuration of the node and the
    pending block. [in_trx_requiring_checks] is restored by a scope guard wherever it is
    set. *)
Record setting := Setting {
  g_conf : controller_config;
  block_validation_mode : validation_mode;
  actor_whitelist : gset Z;
  actor_blacklist : gset Z;
  resource_greylist : gset Z;
  subjective_cpu_leeway : option Z;
  chain_id : digest;
  replay_head_time : option Z;
  head_block_id : digest;
  g_status : block_status;
  in_trx_requiring_checks : bool;
  clock : nat -> Z
}.

Definition light_validation_allowed (g : setting) (replay_opts_disabled_by_policy : bool) : bool :=
  if in_trx_requiring_checks g then false else
  (bool_decide (g_status g = status_irreversible) || bool_decide (g_status g = status_validated))
    && negb replay_opts_disabled_by_policy
  || bool_decide (g_status g = status_complete) && (if block_validation_mode g is LIGHT then true else false).
Definition skip_auth_check (g : setting) : bool := light_validation_allowed g (force_all_checks (g_conf g)).
Definition skip_trx_checks (g : setting) : bool := light_validation_allowed g (disable_replay_opts (g_conf g)).
Definition skip_sessions (g : setting) : bool :=
  skip_db_sessions (g_conf g) (in_trx_requiring_checks g) (g_status g).
Definition producing_block (g : setting) : bool := bool_decide (g_status g = status_incomplete).

(** ** The database *)
Record node := Node {
  nd_chain : chain;
  nd_config : chain_config;
  (* the recorded transactions with their expiration *)
  nd_transactions : gmap digest Z;
  nd_summaries : Z -> digest;
  (* the number of actions executed since genesis *)
  nd_global_sequence : Z;
  nd_tables : contract_rows
}.
Definition set_chain (c : chain) (n : node) : node :=
  Node c (nd_config n) (nd_transactions n) (nd_summaries n) (nd_global_sequence n) (nd_tables n).
Definition nd_limits (n : node) : rl_db := ch_limits (nd_chain n).
Definition pending_time (n : node) : Z := pending_block_time (ch_auth (nd_chain n)).
Definition pending_slot (n : node) : Z := Timestamp.set_time_point (pending_time n).

(** ** The context *)

(** What the caller sets. *)
Record trx_args := TrxArgs {
  ta_trx : transaction;
  ta_id : digest;
  start : Z;
  published : Z;
  delay : Z;
  is_input : bool;
  apply_context_free : bool;
  can_subjectively_fail : bool;
  deadline : Z;
  leeway : Z;
  explicit_billed_cpu_time : bool
}.
Record net_limits := NetLimits {
  net_limit : Z;
  net_limit_due_to_block : bool;
  net_limit_due_to_greylist : bool;
  eager_net_limit : Z
}.
Record cpu_limits := CpuLimits {
  objective_duration_limit : Z;
  initial_objective_duration_limit : Z;
  cpu_limit_due_to_greylist : bool
}.
Record timer := Timer {
  tm_deadline : Z;
  deadline_exception_code : exn;
  billing_timer_exception_code : exn;
  pseudo_start : Z;
  billed_time : Z;
  billing_timer_duration_limit : Z
}.
Record transaction_context := TransactionContext {
  tc_args : trx_args;
  tc_executed : list digest;
  bill_to_accounts : gset Z;
  billed_cpu_time_us : Z;
  is_initialized : bool;
  tc_net_usage : Z;
  tc_net : net_limits;
  tc_cpu : cpu_limits;
  tc_timer : timer
}.

Section setters.
Implicit Types c : transaction_context.
Definition set_args (f : trx_args -> trx_args) c : transaction_context :=
  TransactionContext (f (tc_args c)) (tc_executed c) (bill_to_accounts c) (billed_cpu_time_us c)
    (is_initialized c) (tc_net_usage c) (tc_net c) (tc_cpu c) (tc_timer c).
Definition set_executed (l : list digest) c : transaction_context :=
  TransactionContext (tc_args c) l (bill_to_accounts c) (billed_cpu_time_us c)
    (is_initialized c) (tc_net_usage c) (tc_net c) (tc_cpu c) (tc_timer c).
Definition set_bill_to (s : gset Z) c : transaction_context :=
  TransactionContext (tc_args c) (tc_executed c) s (billed_cpu_time_us c)
    (is_initialized c) (tc_net_usage c) (tc_net c) (tc_cpu c) (tc_timer c).
Definition set_billed (z : Z) c : transaction_context :=
  TransactionContext (tc_args c) (tc_executed c) (bill_to_accounts c) z
    (is_initialized c) (tc_net_usage c) (tc_net c) (tc_cpu c) (tc_timer c).
Definition set_initialized c : transaction_context :=
  TransactionContext (tc_args c) (tc_executed c) (bill_to_accounts c) (billed_cpu_time_us c)
    true (tc_net_usage c) (tc_net c) (tc_cpu c) (tc_timer c).
Definition set_net_usage (z : Z) c : transaction_context :=
  TransactionContext (tc_args c) (tc_executed c) (bill_to_accounts c) (billed_cpu_time_us c)
    (is_initialized c) z (tc_net c) (tc_cpu c) (tc_timer c).
Definition set_net (f : net_limits -> net_limits) c : transaction_context :=
  TransactionContext (tc_args c) (tc_executed c) (bill_to_accounts c) (billed_cpu_time_us c)
    (is_initialized c) (tc_net_usage c) (f (tc_net c)) (tc_cpu c) (tc_timer c).
Definition set_cpu (f : cpu_limits -> cpu_limits) c : transaction_context :=
  TransactionContext (tc_args c) (tc_executed c) (bill_to_accounts c) (billed_cpu_time_us c)
    (is_initialized c) (tc_net_usage c) (tc_net c) (f (tc_cpu c)) (tc_timer c).
Definition set_timer (f : timer -> timer) c : transaction_context :=
  TransactionContext (tc_args c) (tc_executed c) (bill_to_accounts c) (billed_cpu_time_us c)
    (is_initialized c) (tc_net_usage c) (tc_net c) (tc_cpu c) (f (tc_timer c)).
End setters.

Definition maximum_time : Z := 2 ^ 63 - 1.

(** The members of a new context, besides its session. *)
Definition new_context (args : trx_args) (billed : Z) : transaction_context :=
  TransactionContext args [] ∅ billed false 0 (NetLimits 0 true false 0) (CpuLimits 0 0 false)
    (Timer maximum_time block_cpu_usage_exceeded block_cpu_usage_exceeded (start args) 0 0).

(** The database, the context and the number of readings of the clock. *)
Record world := World { w_node : node; w_tc : transaction_context; w_ticks : nat }.

Class Dispatch := {
  dispatch_action : setting -> action -> account_name -> bool -> St world unit
}.

Section context.
Context (g : setting).
Notation M := (St world).

Definition now : M Z := fun w => (World (w_node w) (w_tc w) (S (w_ticks w)), Ok (clock g (w_ticks w))).
Definition tc_get : M transaction_context := gets w_tc.
Definition tc_mod (f : transaction_context -> transaction_context) : M unit :=
  modify_st (fun w => World (w_node w) (f (w_tc w)) (w_ticks w)).
Definition node_mod (f : node -> node) : M unit :=
  modify_st (fun w => World (f (w_node w)) (w_tc w) (w_ticks w)).
Definition on_chain {A} (m : St chain A) : M A := fun w =>
  let '(c, r) := m (nd_chain (w_node w)) in (World (set_chain c (w_node w)) (w_tc w) (w_ticks w), r).
Definition cfg : M chain_config := gets (fun w => nd_config (w_node w)).

(** ** Checks *)
Definition check_net_usage : M unit :=
  c ← tc_get;
  if skip_trx_checks g then mret tt
  else if eager_net_limit (tc_net c) <? tc_net_usage c then
    if net_limit_due_to_block (tc_net c) then throw block_net_usage_exceeded
    else if net_limit_due_to_greylist (tc_net c) then throw greylist_net_usage_exceeded
    else throw tx_net_usage_exceeded
  else mret tt.

Definition add_net_usage (u : Z) : M unit :=
  _ ← tc_mod (fun c => set_net_usage (u64 (tc_net_usage c + u)) c);
  check_net_usage.

Definition checktime : M unit :=
  if skip_trx_checks g then mret tt else
  now ← now;
  c ← tc_get;
  if tm_deadline (tc_timer c) <? now then
    let code := deadline_exception_code (tc_timer c) in
    if explicit_billed_cpu_time (tc_args c) || bool_decide (code = deadline_exception) then throw deadline_exception
    else if decide (code = block_cpu_usage_exceeded) then throw block_cpu_usage_exceeded
    else if decide (code = tx_cpu_usage_exceeded) then
      if cpu_limit_due_to_greylist (tc_cpu c) then throw greylist_cpu_usage_exceeded
      else throw tx_cpu_usage_exceeded
    else if decide (code = leeway_deadline_exception) then throw leeway_deadline_exception
    else throw transaction_exception
  else mret tt.

Definition validate_cpu_usage_to_bill (billed_us : Z) (check_minimum : bool) : M unit :=
  if skip_trx_checks g then mret tt else
  cfg ← cfg;
  c ← tc_get;
  _ ← (if check_minimum then st_assert (cc_min_transaction_cpu_usage cfg <=? billed_us) transaction_exception
       else mret tt);
  let within := billed_us <=? objective_duration_limit (tc_cpu c) in
  if decide (billing_timer_exception_code (tc_timer c) = block_cpu_usage_exceeded)
  then st_assert within block_cpu_usage_exceeded
  else if cpu_limit_due_to_greylist (tc_cpu c) then st_assert within greylist_cpu_usage_exceeded
  else st_assert within tx_cpu_usage_exceeded.

(** ** The billing timer *)
Definition pause_billing_timer : M unit :=
  c ← tc_get;
  if explicit_billed_cpu_time (tc_args c) || (pseudo_start (tc_timer c) =? 0) then mret tt else
  now ← now;
  tc_mod (set_timer (fun t => Timer (tm_deadline t) deadline_exception (billing_timer_exception_code t) 0
                                (now - pseudo_start t) (billing_timer_duration_limit t))).

Definition resume_billing_timer : M unit :=
  c ← tc_get;
  if explicit_billed_cpu_time (tc_args c) || negb (pseudo_start (tc_timer c) =? 0) then mret tt else
  now ← now;
  tc_mod (fun c => set_timer (fun t =>
    let pseudo := now - billed_time t in
    let limit := billing_timer_duration_limit t in
    if pseudo + limit <=? deadline (tc_args c)
    then Timer (pseudo + limit) (billing_timer_exception_code t) (billing_timer_exception_code t) pseudo
           (billed_time t) limit
    else Timer (deadline (tc_args c)) deadline_exception (billing_timer_exception_code t) pseudo
           (billed_time t) limit) c).

Definition update_billed_cpu_time (now : Z) : M Z :=
  c ← tc_get;
  if explicit_billed_cpu_time (tc_args c) then mret (u32 (billed_cpu_time_us c)) else
  cfg ← cfg;
  let billed := Z.max (now - pseudo_start (tc_timer c)) (cc_min_transaction_cpu_usage cfg) in
  _ ← tc_mod (set_billed billed);
  mret (u32 billed).

(** ** What the billed accounts can pay *)
Definition large_number_no_overflow : Z := (2 ^ 63 - 1) / 2.

Record bandwidth := Bandwidth {
  account_net_limit : Z;
  account_cpu_limit : Z;
  greylisted_net : bool;
  greylisted_cpu : bool
}.
Definition account_bandwidth (force_elastic_limits : bool) (a : account_name) (b : bandwidth) : M bandwidth :=
  let elastic := force_elastic_limits || negb (producing_block g && bool_decide (a ∈ resource_greylist g)) in
  n ← on_chain (on_limits (get_account_net_limit_ex a elastic));
  let net := arl_available n in
  c ← on_chain (on_limits (get_account_cpu_limit_ex a elastic));
  let cpu := arl_available c in
  mret (Bandwidth
    (if 0 <=? net then Z.min (account_net_limit b) net else account_net_limit b)
    (if 0 <=? cpu then Z.min (account_cpu_limit b) cpu else account_cpu_limit b)
    (greylisted_net b || (0 <=? net) && negb elastic)
    (greylisted_cpu b || (0 <=? cpu) && negb elastic)).
Fixpoint bandwidth_loop (force_elastic_limits : bool) (l : list account_name) (b : bandwidth) : M bandwidth :=
  match l with
  | [] => mret b
  | a :: l => b ← account_bandwidth force_elastic_limits a b; bandwidth_loop force_elastic_limits l b
  end.
Definition max_bandwidth_billed_accounts_can_pay (force_elastic_limits : bool) : M bandwidth :=
  c ← tc_get;
  bandwidth_loop force_elastic_limits (asc_elements (bill_to_accounts c))
    (Bandwidth large_number_no_overflow large_number_no_overflow false false).

(** ** Initialization *)

(** The limits of the block, of the chain and of the transaction itself. *)
Definition init_limits (cfg : chain_config) (rl : rl_db) (c : transaction_context) : transaction_context :=
  let h := trx_header (ta_trx (tc_args c)) in
  let nl := get_block_net_limit rl in
  let cl := i64 (get_block_cpu_limit rl) in
  let due := net_limit_due_to_block (tc_net c) in
  let code := billing_timer_exception_code (tc_timer c) in
  let '(nl, due) := if cc_max_transaction_net_usage cfg <=? nl
                     then (cc_max_transaction_net_usage cfg, false) else (nl, due) in
  let '(cl, code) := if cc_max_transaction_cpu_usage cfg <=? cl
                      then (cc_max_transaction_cpu_usage cfg, tx_cpu_usage_exceeded) else (cl, code) in
  let words := max_net_usage_words h * 8 in
  let '(nl, due) := if (0 <? words) && (words <=? nl) then (words, false) else (nl, due) in
  let ms := max_cpu_usage_ms h * 1000 in
  let '(cl, code) := if (0 <? max_cpu_usage_ms h) && (ms <=? cl) then (ms, tx_cpu_usage_exceeded)
                      else (cl, code) in
  set_net (fun n => NetLimits nl due (net_limit_due_to_greylist n) (eager_net_limit n))
    (set_cpu (fun p => CpuLimits cl cl (cpu_limit_due_to_greylist p))
    (set_timer (fun t => Timer (start (tc_args c) + cl) (deadline_exception_code t) code (pseudo_start t)
                           (billed_time t) (billing_timer_duration_limit t)) c)).

(** What the accounts can pay lowers the limit that is checked early, and the
    deadline. *)
Definition init_deadline (cfg : chain_config) (b : bandwidth) (c : transaction_context) : transaction_context :=
  let n := tc_net c in
  let t := tc_timer c in
  let s := start (tc_args c) in
  let eager := net_limit n in
  let new_eager := Z.min eager (u64 (account_net_limit b + cc_net_usage_leeway cfg)) in
  let due := if new_eager <? eager then false else net_limit_due_to_block n in
  let pay := account_cpu_limit b + leeway (tc_args c) in
  let '(d, code) := if pay <=? tm_deadline t - s then (s + pay, leeway_deadline_exception)
                    else (tm_deadline t, billing_timer_exception_code t) in
  let '(d', dcode) := if explicit_billed_cpu_time (tc_args c) || (deadline (tc_args c) <? d)
                      then (deadline (tc_args c), deadline_exception) else (d, code) in
  set_net (fun n => NetLimits (net_limit n) due (net_limit_due_to_greylist n || greylisted_net b)
                      (new_eager / 8 * 8))
    (set_cpu (fun p => CpuLimits (objective_duration_limit p) (initial_objective_duration_limit p)
                         (cpu_limit_due_to_greylist p || greylisted_cpu b))
    (set_timer (fun t => Timer d' dcode code (pseudo_start t) (billed_time t) (d - s)) c)).

Definition billed_actors (t : transaction) : gset Z :=
  list_to_set (actor <$> (trx_actions t ≫= act_authorization)).

Definition init (initial_net_usage : Z) : M unit :=
  w ← get;
  _ ← st_assert (negb (is_initialized (w_tc w))) transaction_exception;
  cfg ← cfg;
  _ ← tc_mod (init_limits cfg (nd_limits (w_node w)));
  let billed := billed_cpu_time_us (w_tc w) in
  _ ← (if 0 <? billed then validate_cpu_usage_to_bill billed false else mret tt);
  _ ← tc_mod (fun c => set_bill_to (bill_to_accounts c ∪ billed_actors (ta_trx (tc_args c))) c);
  c ← tc_get;
  _ ← on_chain (on_limits (update_account_usage (asc_elements (bill_to_accounts c)) (pending_slot (w_node w))));
  b ← max_bandwidth_billed_accounts_can_pay false;
  _ ← tc_mod (init_deadline cfg b);
  _ ← (if 0 <? initial_net_usage then add_net_usage initial_net_usage else mret tt);
  _ ← checktime;
  tc_mod set_initialized.

Definition set_published (t : Z) : transaction_context -> transaction_context :=
  set_args (fun a => TrxArgs (ta_trx a) (ta_id a) (start a) t (delay a) (is_input a) (apply_context_free a)
    (can_subjectively_fail a) (deadline a) (leeway a) (explicit_billed_cpu_time a)).
Definition set_input : transaction_context -> transaction_context :=
  set_args (fun a => TrxArgs (ta_trx a) (ta_id a) (start a) (published a) (delay a) true (apply_context_free a)
    (can_subjectively_fail a) (deadline a) (leeway a) (explicit_billed_cpu_time a)).
Definition set_no_context_free : transaction_context -> transaction_context :=
  set_args (fun a => TrxArgs (ta_trx a) (ta_id a) (start a) (published a) (delay a) (is_input a) false
    (can_subjectively_fail a) (deadline a) (leeway a) (explicit_billed_cpu_time a)).
Definition set_objective : transaction_context -> transaction_context :=
  set_args (fun a => TrxArgs (ta_trx a) (ta_id a) (start a) (published a) (delay a) (is_input a)
    (apply_context_free a) false (deadline a) (leeway a) (explicit_billed_cpu_time a)).
Definition set_delay (d : Z) : transaction_context -> transaction_context :=
  set_args (fun a => TrxArgs (ta_trx a) (ta_id a) (start a) (published a) d (is_input a) (apply_context_free a)
    (can_subjectively_fail a) (deadline a) (leeway a) (explicit_billed_cpu_time a)).

Definition init_for_implicit_trx : M unit :=
  w ← get;
  _ ← tc_mod (set_published (pending_time (w_node w)));
  init 0.

Definition init_for_deferred_trx (p : Z) : M unit :=
  _ ← tc_mod (set_published p);
  _ ← tc_mod set_no_context_free;
  init 0.

(** The object of a transaction in the index of recorded transactions. *)
Definition record_transaction (id : digest) (expire : Z) : M unit :=
  w ← get;
  let n := w_node w in
  _ ← st_assert (bool_decide (nd_transactions n !! id = None)) tx_duplicate;
  node_mod (fun n => Node (nd_chain n) (nd_config n) (<[id := expire]> (nd_transactions n)) (nd_summaries n)
                          (nd_global_sequence n) (nd_tables n)).

(** In 64 bits. *)
Definition discounted_size (cfg : chain_config) (prunable : Z) : Z :=
  let num := cc_context_free_discount_net_usage_num cfg in
  let den := cc_context_free_discount_net_usage_den cfg in
  if (0 <? den) && (num <? den) then u64 (u64 (u64 (prunable * num) + den) - 1) / den else prunable.
Definition input_net_usage (cfg : chain_config) (delay_sec unprunable prunable : Z) : Z :=
  let base := cc_base_per_transaction_net_usage cfg in
  let usage := u64 (base + unprunable + discounted_size cfg prunable) in
  if 0 <? delay_sec then u64 (usage + base + transaction_id_net_usage) else usage.

Definition init_for_input_trx (packed_trx_unprunable_size packed_trx_prunable_size : Z)
    (skip_recording : bool) : M unit :=
  w ← get;
  cfg ← cfg;
  let t := ta_trx (tc_args (w_tc w)) in
  let initial_net_usage := input_net_usage cfg (delay_sec (trx_header t)) packed_trx_unprunable_size
                             packed_trx_prunable_size in
  _ ← tc_mod (set_published (pending_time (w_node w)));
  _ ← tc_mod set_input;
  _ ← (if skip_trx_checks g then mret tt else
         _ ← lift (validate_expiration (pending_time (w_node w)) (cc_max_transaction_lifetime cfg) (trx_header t));
         _ ← lift (validate_tapos (nd_summaries (w_node w)) (trx_header t));
         lift (validate_referenced_accounts (nd_chain (w_node w)) t));
  _ ← init initial_net_usage;
  if skip_recording then mret tt else record_transaction (ta_id (tc_args (w_tc w))) (expiration (trx_header t)).

(** ** Execution *)
Section exec.
Context `{Dispatch}.

(** A delayed transaction becomes an object of its own, which its first authorizer
    pays for. *)
Definition schedule_transaction : M unit :=
  w ← get;
  cfg ← cfg;
  let a := tc_args (w_tc w) in
  let t := ta_trx a in
  _ ← (if delay_sec (trx_header t) =? 0
       then add_net_usage (u64 (cc_base_per_transaction_net_usage cfg + transaction_id_net_usage)) else mret tt);
  let first_auth := first_authorizor t in
  packed ← lift (pack_value c_transaction t);
  let published := pending_time (w_node w) in
  let delay_until := published + delay a in
  let gto := GeneratedTransaction (ta_id a) 0 (transaction_id_to_sender_id (ta_id a)) first_auth delay_until
               (delay_until + seconds (cc_deferred_trx_expiration_window cfg)) published packed in
  _ ← on_chain (on_auth (
        db ← get;
        _ ← st_assert (forallb (fun o => negb (bool_decide (gt_trx_id o = gt_trx_id gto)) &&
                          negb (by_sender_id (gt_sender gto) (gt_sender_id gto) o)) (generated db)) logic_error;
        set_generated (generated db ++ [gto])));
  on_chain (add_ram_usage first_auth (generated_transaction_object_size + u32 (Z.of_nat (length packed)))).

Definition exec : M unit :=
  c ← tc_get;
  _ ← st_assert (is_initialized c) transaction_exception;
  let t := ta_trx (tc_args c) in
  _ ← (if apply_context_free (tc_args c)
       then for_each (fun a => dispatch_action g a (act_account a) true) (context_free_actions t) else mret tt);
  if delay (tc_args c) =? 0
  then for_each (fun a => dispatch_action g a (act_account a) false) (trx_actions t)
  else schedule_transaction.

(** ** Billing *)
Definition finalize_usage : M unit :=
  c ← tc_get;
  if is_input (tc_args c) then
    for_each (fun l => on_chain (
      p ← auth_query (fun db => get_permission db l); on_auth (update_permission_usage p)))
      (trx_actions (ta_trx (tc_args c)) ≫= act_authorization)
  else mret tt.

(** What the accounts can pay lowers the limits, now without leeway. *)
Definition finalize_limits (b : bandwidth) (c : transaction_context) : transaction_context :=
  let n := tc_net c in
  let account_net := u64 (account_net_limit b) in
  let '(nl, due) := if account_net <=? net_limit n then (account_net, false)
                     else (net_limit n, net_limit_due_to_block n) in
  let p := tc_cpu c in
  let t := tc_timer c in
  let '(cl, code) := if account_cpu_limit b <=? objective_duration_limit p
                      then (account_cpu_limit b, tx_cpu_usage_exceeded)
                      else (objective_duration_limit p, billing_timer_exception_code t) in
  set_net (fun n => NetLimits nl due (net_limit_due_to_greylist n || greylisted_net b) nl)
    (set_cpu (fun p => CpuLimits cl (initial_objective_duration_limit p)
                         (cpu_limit_due_to_greylist p || greylisted_cpu b))
    (set_timer (fun t => Timer (tm_deadline t) (deadline_exception_code t) code (pseudo_start t)
                           (billed_time t) (billing_timer_duration_limit t))
    (set_net_usage (u64 (u64 (tc_net_usage c + 7) / 8 * 8)) c))).

Definition finalize_checks : M unit :=
  c ← tc_get;
  _ ← st_assert (is_initialized c) transaction_exception;
  _ ← finalize_usage;
  w ← get;
  _ ← for_each (fun a => on_chain (on_limits (verify_account_ram_usage a)))
        (asc_elements (ch_validate_ram (nd_chain (w_node w))));
  b ← max_bandwidth_billed_accounts_can_pay false;
  _ ← tc_mod (finalize_limits b);
  _ ← check_net_usage;
  now ← now;
  _ ← update_billed_cpu_time now;
  c ← tc_get;
  validate_cpu_usage_to_bill (billed_cpu_time_us c) true.

Definition finalize : M unit :=
  _ ← finalize_checks;
  w ← get;
  let c := w_tc w in
  on_chain (on_limits (add_transaction_usage (asc_elements (bill_to_accounts c))
    (u64 (billed_cpu_time_us c)) (tc_net_usage c) (pending_slot (w_node w)))).
End exec.
End context.
