(* ===== verification/TrxBilling.v ===== *)
(** * Billing a transaction

    The limits of [transaction_context]: they are the minimum of what the block, the chain,
    the transaction and the billed accounts allow, and a transaction that passes the
    checks at its end can be billed. *)
From S2P Require Import Prelude Merkle BlockHeaderState BlockApply Raw Authority Transactions.
From S2P Require Import AuthorizationManager ResourceLimits NativeContract Controller TransactionContext.

(** ** Queries of the resource limits *)
Lemma cpu_limit_state a b db : exists r, get_account_cpu_limit_ex a b db = (db, r).
Proof.
  unfold get_account_cpu_limit_ex, get_usage, get_account_limits, get_limits. run_st.
  destruct (rl_usage db !! a); [|by eexists]. destruct (rl_pending db !! a); [by eexists|].
  destruct (rl_limits db !! a); by eexists.
Qed.
Lemma net_limit_state a b db : exists r, get_account_net_limit_ex a b db = (db, r).
Proof.
  unfold get_account_net_limit_ex, get_usage, get_account_limits, get_limits. run_st.
  destruct (rl_usage db !! a); [|by eexists]. destruct (rl_pending db !! a); [by eexists|].
  destruct (rl_limits db !! a); by eexists.
Qed.

Lemma limits_query {A} (m : St rl_db A) r (w : world) :
  m (nd_limits (w_node w)) = (nd_limits (w_node w), r) -> on_chain (on_limits m) w = (w, r).
Proof.
  intros Hm. unfold on_chain, on_limits. unfold nd_limits in Hm. rewrite Hm.
  by destruct w as [[[] ? ? ?] ? ?].
Qed.

(** An account is unlimited, or something is available. *)
Lemma available_cases weight total capacity window v lim :
  account_limit_ex weight total capacity window v = Ok lim ->
  arl_available lim = -1 \/ 0 <= arl_available lim.
Proof.
  unfold account_limit_ex. destruct (_ || _); [intros [= <-]; by left|]. intros Hl. right.
  bind_ok Hl as (used & _ & Hl). bind_ok Hl as (av & Ha & Hl). bind_ok Hl as (u & _ & Hl).
  bind_ok Hl as (m & _ & [= <-]). cbn. destruct (_ <=? _); [by injection Ha as <-|].
  unfold downgrade_i64 in Ha. bind_ok Ha as ([] & _ & [= <-]). apply Z.mod_pos_bound. lia.
Qed.

Lemma cpu_available a b db l : get_account_cpu_limit_ex a b db = (db, Ok l) ->
  arl_available l = -1 \/ 0 <= arl_available l.
Proof.
  unfold get_account_cpu_limit_ex. rewrite St_bind_ok. intros (? & ? & _ & Hl).
  rewrite St_bind_ok in Hl. destruct Hl as (? & ? & _ & Hl). rewrite St_bind_ok in Hl.
  destruct Hl as (? & ? & _ & Hl). unfold lift in Hl. injection Hl as _ Hl. by eapply available_cases.
Qed.
Lemma net_available a b db l : get_account_net_limit_ex a b db = (db, Ok l) ->
  arl_available l = -1 \/ 0 <= arl_available l.
Proof.
  unfold get_account_net_limit_ex. rewrite St_bind_ok. intros (? & ? & _ & Hl).
  rewrite St_bind_ok in Hl. destruct Hl as (? & ? & _ & Hl). rewrite St_bind_ok in Hl.
  destruct Hl as (? & ? & _ & Hl). unfold lift in Hl. injection Hl as _ Hl. by eapply available_cases.
Qed.

(** ** What the billed accounts can pay *)
Section bandwidth.
Context (g : setting).

(** The account has at least the limits [b] available. *)
Definition affords (db : rl_db) (b : bandwidth) (a : Z) : Prop := exists lc ln,
  get_account_cpu_limit_ex a true db = (db, Ok lc) /\ get_account_net_limit_ex a true db = (db, Ok ln) /\
  (arl_available lc = -1 \/ account_cpu_limit b <= arl_available lc) /\
  (arl_available ln = -1 \/ account_net_limit b <= arl_available ln).

Definition elastic (a : Z) : Prop := producing_block g && bool_decide (a ∈ resource_greylist g) = false.

Lemma affords_less db b b' a : account_cpu_limit b' <= account_cpu_limit b ->
  account_net_limit b' <= account_net_limit b -> affords db b a -> affords db b' a.
Proof. intros ?? (lc & ln & ? & ? & ? & ?). exists lc, ln. intuition lia. Qed.

Lemma account_bandwidth_affords fe a b w w' b' : fe = true \/ elastic a ->
  account_bandwidth g fe a b w = (w', Ok b') ->
  w' = w /\ account_cpu_limit b' <= account_cpu_limit b /\ account_net_limit b' <= account_net_limit b /\
  (0 <= account_cpu_limit b -> 0 <= account_cpu_limit b') /\
  (0 <= account_net_limit b -> 0 <= account_net_limit b') /\ affords (nd_limits (w_node w)) b' a.
Proof.
  intros He. unfold account_bandwidth.
  assert (fe || negb (producing_block g && bool_decide (a ∈ resource_greylist g)) = true) as ->.
  { destruct He as [->|He]; [done|]. unfold elastic in He. rewrite He. apply orb_true_r. }
  destruct (net_limit_state a true (nd_limits (w_node w))) as [[ln|e] Hn].
  2: { unfold mbind, St_bind. by rewrite (limits_query _ _ _ Hn). }
  rewrite (St_bind_run _ _ _ _ _ (limits_query _ _ _ Hn)).
  destruct (cpu_limit_state a true (nd_limits (w_node w))) as [[lc|e] Hc].
  2: { unfold mbind, St_bind. by rewrite (limits_query _ _ _ Hc). }
  rewrite (St_bind_run _ _ _ _ _ (limits_query _ _ _ Hc)). intros [= <- <-]. cbn.
  pose proof (cpu_available _ _ _ _ Hc). pose proof (net_available _ _ _ _ Hn).
  split; [done|]. split; [destruct (0 <=? _); lia|]. split; [destruct (0 <=? _); lia|].
  split; [destruct (0 <=? _) eqn:?; lia|]. split; [destruct (0 <=? _) eqn:?; lia|].
  exists lc, ln. split; [done|]. split; [done|]. cbn.
  split; destruct (0 <=? _) eqn:E; bool_to_prop; lia.
Qed.

Lemma bandwidth_loop_affords fe l b w w' b' : (forall a, a ∈ l -> fe = true \/ elastic a) ->
  bandwidth_loop g fe l b w = (w', Ok b') ->
  w' = w /\ account_cpu_limit b' <= account_cpu_limit b /\ account_net_limit b' <= account_net_limit b /\
  (0 <= account_cpu_limit b -> 0 <= account_cpu_limit b') /\
  (0 <= account_net_limit b -> 0 <= account_net_limit b') /\
  forall a, a ∈ l -> affords (nd_limits (w_node w)) b' a.
Proof.
  revert b w. induction l as [|a l IH]; intros b w He; cbn [bandwidth_loop].
  { intros [= <- <-]. split_and!; try done. by intros a Ha%elem_of_nil. }
  rewrite St_bind_ok. intros (b1 & w1 & H1 & Hl).
  apply account_bandwidth_affords in H1 as (-> & Hc1 & Hn1 & Pc1 & Pn1 & Ha1); [|apply He; by left].
  apply IH in Hl as (-> & Hc2 & Hn2 & Pc2 & Pn2 & Ha2); [|intros x Hx; apply He; by right].
  split; [done|]. split; [lia|]. split; [lia|]. split; [auto|]. split; [auto|].
  intros x [->|Hx]%elem_of_cons; [by eapply affords_less|by apply Ha2].
Qed.
End bandwidth.

(** ** Billing a set of accounts *)

(** An account whose accumulators can take the usage of a transaction. *)
Definition account_room (db : rl_db) (slot : Z) (a : Z) : Prop := exists u, rl_usage db !! a = Some u /\
  accumulator_ok (cpu_usage u) /\ accumulator_ok (net_usage u) /\
  forall units, 0 <= units < 2 ^ 32 ->
    accumulator_room units slot (account_cpu_usage_average_window (rl_config db)) (cpu_usage u) /\
    accumulator_room units slot (account_net_usage_average_window (rl_config db)) (net_usage u).

Record windows_ok (db : rl_db) : Prop := {
  wo_cpu : 0 < account_cpu_usage_average_window (rl_config db) <= rate_limiting_precision;
  wo_net : 0 < account_net_usage_average_window (rl_config db) <= rate_limiting_precision
}.

(** Two databases that agree on everything but the usage of other accounts. *)
Definition same_for (a : Z) (db db' : rl_db) : Prop :=
  rl_config db' = rl_config db /\ rl_state db' = rl_state db /\ rl_limits db' = rl_limits db /\
  rl_pending db' = rl_pending db /\ rl_usage db' !! a = rl_usage db !! a.

Lemma affords_same a b db db' : same_for a db db' -> affords db b a -> affords db' b a.
Proof.
  intros (Hc & Hs & Hl & Hp & Hu) (lc & ln & Hlc & Hln & Hac & Han). exists lc, ln.
  unfold get_account_cpu_limit_ex, get_account_net_limit_ex, get_usage, get_account_limits, get_limits in *.
  run_st in Hlc. run_st in Hln. run_st. rewrite Hc, Hs, Hp, Hu.
  destruct (rl_usage db !! a); [|done]. destruct (rl_pending db !! a) as [l|].
  - injection Hlc as ->. injection Hln as ->. done.
  - rewrite Hl. destruct (rl_limits db !! a); [|done]. injection Hlc as ->. injection Hln as ->. done.
Qed.

Lemma room_same a slot db db' : same_for a db db' -> account_room db slot a -> account_room db' slot a.
Proof. intros (Hc & _ & _ & _ & Hu) (u & Hr). exists u. by rewrite Hc, Hu. Qed.

Lemma bill_accounts_run (db : rl_db) (b : bandwidth) (l : list Z) (cpu_units net_units slot : Z) :
  0 <= slot < 2 ^ 32 -> windows_ok db -> NoDup l ->
  (forall a, a ∈ l -> affords db b a /\ account_room db slot a) ->
  0 < cpu_units < 2 ^ 32 -> 0 < net_units < 2 ^ 32 ->
  cpu_units <= account_cpu_limit b -> net_units <= account_net_limit b ->
  exists us, for_each (bill_account cpu_units net_units slot) l db =
    (RlDb (rl_config db) (rl_state db) (rl_limits db) (rl_pending db) us, Ok tt).
Proof.
  intros Hs Hw Hnd Hl Hcu Hnu Hcb Hnb.
  destruct (for_each_total (bill_account cpu_units net_units slot) (fun rest db' => NoDup rest /\
      rl_config db' = rl_config db /\ rl_state db' = rl_state db /\ rl_limits db' = rl_limits db /\
      rl_pending db' = rl_pending db /\
      forall a, a ∈ rest -> a ∈ l /\ rl_usage db' !! a = rl_usage db !! a) l db) as (db' & Hrun & Hi).
  - intros a rest db1 (Hnd1 & Hc & Hst & Hli & Hp & Hu). apply NoDup_cons in Hnd1 as [Hna Hnd1].
    destruct (Hu a ltac:(by left)) as [Hin Hua]. destruct (Hl a Hin) as [Haf Hro].
    assert (Hsame : same_for a db db1) by done.
    destruct (room_same _ _ _ _ Hsame Hro) as (u & Hu1 & Huc & Hun & Hroom).
    destruct (affords_same _ _ _ _ Hsame Haf) as (lc & ln & Hlc & Hln & Hac & Han).
    destruct Hw as [Hwc Hwn]. rewrite <- Hc in Hwc, Hwn.
    destruct (bill_account_run db1 a cpu_units net_units slot u lc ln) as [u' Hrun]; try done; try lia.
    + apply Hroom. lia.
    + apply Hroom. lia.
    + eexists. split; [exact Hrun|]. cbn. split_and!; try done.
      intros x Hx. destruct (Hu x ltac:(by right)) as [Hxl Hxu]. split; [done|].
      rewrite lookup_insert_ne; [done|]. by intros ->.
  - split_and!; done.
  - exists (rl_usage db'). rewrite Hrun. destruct Hi as (_ & <- & <- & <- & <- & _). by destruct db'.
Qed.

(** ** The limits of a context *)

(** The chain parameters are unsigned 32-bit numbers, and the block has room for its
    pending usage. *)
Record config_ok (c : chain_config) : Prop := {
  co_net : 0 <= cc_max_transaction_net_usage c < 2 ^ 32;
  co_cpu : 0 <= cc_max_transaction_cpu_usage c < 2 ^ 32;
  co_min : 0 < cc_min_transaction_cpu_usage c < 2 ^ 32
}.
Record block_ok (db : rl_db) : Prop := {
  bo_net : 0 <= pending_net_usage (rl_state db) <= ep_max (net_limit_parameters (rl_config db));
  bo_cpu : 0 <= pending_cpu_usage (rl_state db) <= ep_max (cpu_limit_parameters (rl_config db));
  bo_net_max : ep_max (net_limit_parameters (rl_config db)) < 2 ^ 63;
  bo_cpu_max : ep_max (cpu_limit_parameters (rl_config db)) < 2 ^ 63
}.
Definition net_left (db : rl_db) : Z :=
  ep_max (net_limit_parameters (rl_config db)) - pending_net_usage (rl_state db).
Definition cpu_left (db : rl_db) : Z :=
  ep_max (cpu_limit_parameters (rl_config db)) - pending_cpu_usage (rl_state db).

Lemma block_limits db : block_ok db ->
  get_block_net_limit db = net_left db /\ i64 (get_block_cpu_limit db) = cpu_left db.
Proof.
  intros [Hn Hc Hnm Hcm]. unfold get_block_net_limit, get_block_cpu_limit, net_left, cpu_left.
  rewrite !u64_small by lia. split; [done|]. apply i64_small. lia.
Qed.

(** The limit a transaction header asks for; zero is none. *)
Definition requested (limit v : Z) : Z := if 0 <? v then Z.min limit v else limit.

Lemma init_limits_min cfg db c : block_ok db ->
  let h := trx_header (ta_trx (tc_args c)) in
  0 <= max_net_usage_words h -> 0 <= max_cpu_usage_ms h ->
  let c' := init_limits cfg db c in
  net_limit (tc_net c') = requested (Z.min (net_left db) (cc_max_transaction_net_usage cfg)) (max_net_usage_words h * 8) /\
  objective_duration_limit (tc_cpu c') =
    requested (Z.min (cpu_left db) (cc_max_transaction_cpu_usage cfg)) (max_cpu_usage_ms h * 1000) /\
  tm_deadline (tc_timer c') = start (tc_args c) + objective_duration_limit (tc_cpu c').
Proof.
  intros Hb h Hw Hm c'. destruct (block_limits db Hb) as [Hn Hc]. unfold c', init_limits, requested.
  fold h. rewrite Hn, Hc. clear Hn Hc.
  repeat match goal with
  | |- context [if ?b then _ else _] => let E := fresh "E" in destruct b eqn:E
  end; cbn; bool_to_prop; split_and!; lia.
Qed.

(** The limits lie within the block and within 32 bits. *)
Record fits (w : world) : Prop := {
  fi_net : net_limit (tc_net (w_tc w)) <= net_left (nd_limits (w_node w));
  fi_cpu : objective_duration_limit (tc_cpu (w_tc w)) <= cpu_left (nd_limits (w_node w));
  fi_net32 : 0 <= net_limit (tc_net (w_tc w)) < 2 ^ 32;
  fi_cpu32 : objective_duration_limit (tc_cpu (w_tc w)) < 2 ^ 32
}.

(** The part of the state that [fits] reads. *)
Definition rl_block (db : rl_db) :=
  (rl_config db, pending_net_usage (rl_state db), pending_cpu_usage (rl_state db)).
Definition limit_part (w : world) :=
  (rl_block (nd_limits (w_node w)), net_limit (tc_net (w_tc w)), objective_duration_limit (tc_cpu (w_tc w))).
Lemma fits_same w w' : limit_part w' = limit_part w -> fits w -> fits w'.
Proof.
  unfold limit_part, rl_block. intros [= E1 E2 E3 E4 E5] []. unfold net_left, cpu_left in *.
  split; unfold net_left, cpu_left; by rewrite ?E1, ?E2, ?E3, ?E4, ?E5.
Qed.

(** Contracts and native actions change neither the limits of the transaction nor the
    usage of the block. *)
Class DispatchLaws `{Dispatch} := {
  dispatch_limits : forall g a r cf, keeps limit_part (dispatch_action g a r cf)
}.

Lemma keeps_block_chain {A} (m : St chain A) :
  keeps (fun c => rl_block (ch_limits c)) m -> keeps limit_part (on_chain m).
Proof.
  intros Hm w. specialize (Hm (nd_chain (w_node w))). unfold on_chain.
  destruct (m (nd_chain (w_node w))) as [c r]. cbn in Hm. unfold limit_part, nd_limits. cbn. by rewrite Hm.
Qed.
Lemma keeps_chain_limits {A} (m : St rl_db A) :
  keeps rl_block m -> keeps (fun c => rl_block (ch_limits c)) (on_limits m).
Proof.
  intros Hm c. specialize (Hm (ch_limits c)). unfold on_limits. by destruct (m (ch_limits c)) as [l r].
Qed.
Lemma keeps_block_limits {A} (m : St rl_db A) :
  keeps rl_block m -> keeps limit_part (on_chain (on_limits m)).
Proof. intros Hm. by apply keeps_block_chain, keeps_chain_limits. Qed.
Lemma keeps_update_usage l slot : keeps rl_block (update_account_usage l slot).
Proof. apply keeps_for_each. intros a. unfold add_usage, get_usage, set_usage. keeps_step. Qed.
#[export] Hint Resolve keeps_block_limits keeps_update_usage : keeps.

Section fits.
Context (g : setting).

Lemma bandwidth_keeps fe l b : keeps (fun w => w) (bandwidth_loop g fe l b).
Proof.
  revert b. induction l as [|a l IH]; intros b; cbn [bandwidth_loop]; [apply keeps_ret|].
  apply keeps_bind; [|done]. unfold account_bandwidth.
  repeat (apply keeps_bind; [|intros ?]); [| |apply keeps_ret]; intros w.
  - destruct (net_limit_state a (fe || negb (producing_block g && bool_decide (a ∈ resource_greylist g)))
      (nd_limits (w_node w))) as [r Hr]. by rewrite (limits_query _ _ _ Hr).
  - destruct (cpu_limit_state a (fe || negb (producing_block g && bool_decide (a ∈ resource_greylist g)))
      (nd_limits (w_node w))) as [r Hr]. by rewrite (limits_query _ _ _ Hr).
Qed.
Lemma keeps_id {S T A} (f : S -> T) (m : St S A) : keeps (fun s => s) m -> keeps f m.
Proof. intros Hm s. by rewrite Hm. Qed.
Lemma max_bandwidth_keeps {T} (f : world -> T) fe : keeps f (max_bandwidth_billed_accounts_can_pay g fe).
Proof. unfold max_bandwidth_billed_accounts_can_pay, tc_get. apply keeps_bind; [done|]. intros c. apply keeps_id, bandwidth_keeps. Qed.

Lemma check_net_usage_keeps {T} (f : world -> T) : keeps f (check_net_usage g).
Proof. unfold check_net_usage, tc_get. apply keeps_bind; [done|]. intros c. keeps_step. Qed.
Lemma add_net_usage_keeps u : keeps limit_part (add_net_usage g u).
Proof. apply keeps_bind; [apply keeps_modify; done|intros _; apply check_net_usage_keeps]. Qed.
Lemma now_keeps : keeps limit_part (now g).
Proof. done. Qed.
Lemma checktime_keeps : keeps limit_part (checktime g).
Proof.
  unfold checktime, tc_get. destruct (skip_trx_checks g); [apply keeps_ret|].
  apply keeps_bind; [apply now_keeps|]. intros t. apply keeps_bind; [done|]. intros c. keeps_step.
Qed.
Lemma validate_cpu_keeps {T} (f : world -> T) b m : keeps f (validate_cpu_usage_to_bill g b m).
Proof.
  unfold validate_cpu_usage_to_bill, cfg, tc_get. destruct (skip_trx_checks g); [apply keeps_ret|].
  do 2 (apply keeps_bind; [done|]; intros ?). keeps_step.
Qed.
Lemma update_billed_keeps n : keeps limit_part (update_billed_cpu_time n).
Proof.
  unfold update_billed_cpu_time, cfg, tc_get, tc_mod. apply keeps_bind; [done|]. intros c.
  destruct (explicit_billed_cpu_time _); [apply keeps_ret|]. apply keeps_bind; [done|]. intros ?.
  apply keeps_bind; [by apply keeps_modify|]. intros _. apply keeps_ret.
Qed.

(** A context with limits for the block of [db]. *)
Definition limited (db : rl_db) (w : world) : Prop := fits w /\ rl_block (nd_limits (w_node w)) = rl_block db.

Lemma wp_keep_fits {A} (m : St world A) (Q : A -> world -> Prop) db w :
  keeps limit_part m -> limited db w -> (forall a w', limited db w' -> Q a w') -> wp m Q w.
Proof.
  intros Hm [Hf Hb] HQ. apply (wp_keeps limit_part); [done|]. intros a w' E. apply HQ. split; [by eapply fits_same|].
  rewrite <- Hb. change ((limit_part w').1.1 = (limit_part w).1.1). by rewrite E.
Qed.

(** Initialization leaves limits that fit into the block. *)
Lemma init_fits n w : config_ok (nd_config (w_node w)) -> block_ok (nd_limits (w_node w)) ->
  0 <= max_net_usage_words (trx_header (ta_trx (tc_args (w_tc w)))) ->
  0 <= max_cpu_usage_ms (trx_header (ta_trx (tc_args (w_tc w)))) ->
  wp (init g n) (fun _ w' => limited (nd_limits (w_node w)) w') w.
Proof.
  intros Hc Hb Hnw Hcm. unfold init. do 4 wp_step.
  apply wp_bind, wp_run. intros w0 c0 [= <- <-]. apply wp_bind, wp_modify. cbv beta.
  destruct (init_limits_min (nd_config (w_node w)) (nd_limits (w_node w)) (w_tc w) Hb Hnw Hcm) as (Hn & Ho & _).
  set (c1 := init_limits (nd_config (w_node w)) (nd_limits (w_node w)) (w_tc w)) in *.
  eapply wp_keep_fits; [| |done].
  - apply keeps_bind; [destruct (0 <? _); [apply validate_cpu_keeps|apply keeps_ret]|]. intros _.
    apply keeps_bind; [by apply keeps_modify|]. intros _. apply keeps_bind; [done|]. intros c.
    apply keeps_bind; [eauto with keeps|]. intros _. apply keeps_bind; [apply max_bandwidth_keeps|]. intros b.
    apply keeps_bind; [apply keeps_modify|].
    { intros s. unfold init_deadline.
      repeat match goal with |- context [if ?b then _ else _] => destruct b end; done. }
    intros _. apply keeps_bind; [destruct (0 <? _); [apply add_net_usage_keeps|apply keeps_ret]|]. intros _.
    apply keeps_bind; [apply checktime_keeps|]. intros _. by apply keeps_modify.
  - split; [|done]. destruct Hc, Hb. unfold requested in *. split; cbn; rewrite ?Hn, ?Ho; unfold net_left, cpu_left in *;
      repeat match goal with |- context [if ?b then _ else _] => destruct b eqn:? end; bool_to_prop; lia.
Qed.

Lemma init_for_implicit_fits w : config_ok (nd_config (w_node w)) -> block_ok (nd_limits (w_node w)) ->
  0 <= max_net_usage_words (trx_header (ta_trx (tc_args (w_tc w)))) ->
  0 <= max_cpu_usage_ms (trx_header (ta_trx (tc_args (w_tc w)))) ->
  wp (init_for_implicit_trx g) (fun _ w' => limited (nd_limits (w_node w)) w') w.
Proof. intros. unfold init_for_implicit_trx, tc_mod. do 4 wp_step. by apply (init_fits 0 (World _ _ _)). Qed.

Lemma init_for_deferred_fits p w : config_ok (nd_config (w_node w)) -> block_ok (nd_limits (w_node w)) ->
  0 <= max_net_usage_words (trx_header (ta_trx (tc_args (w_tc w)))) ->
  0 <= max_cpu_usage_ms (trx_header (ta_trx (tc_args (w_tc w)))) ->
  wp (init_for_deferred_trx g p) (fun _ w' => limited (nd_limits (w_node w)) w') w.
Proof. intros. unfold init_for_deferred_trx, tc_mod. do 4 wp_step. by apply (init_fits 0 (World _ _ _)). Qed.

Lemma init_for_input_fits u p skip w : config_ok (nd_config (w_node w)) -> block_ok (nd_limits (w_node w)) ->
  0 <= max_net_usage_words (trx_header (ta_trx (tc_args (w_tc w)))) ->
  0 <= max_cpu_usage_ms (trx_header (ta_trx (tc_args (w_tc w)))) ->
  wp (init_for_input_trx g u p skip) (fun _ w' => limited (nd_limits (w_node w)) w') w.
Proof.
  intros. unfold init_for_input_trx, tc_mod. do 2 wp_step. apply wp_bind, wp_run. intros w0 c0 [= <- <-].
  do 4 wp_step. apply wp_bind. eapply (wp_keeps (fun w => w)).
  { destruct (skip_trx_checks g); keeps_step. }
  intros _ w1 ->. apply wp_bind. eapply wp_mono; [by apply (init_fits _ (World _ _ _))|]. intros [] w2 Hw2. cbv beta.
  destruct skip; [done|]. unfold record_transaction, node_mod.
  eapply wp_keep_fits; [|done|done]. keeps_step.
Qed.

Lemma exec_keeps `{DispatchLaws} : keeps limit_part (exec g).
Proof.
  unfold exec, tc_get. apply keeps_bind; [done|]. intros c. apply keeps_bind; [eauto with keeps|]. intros _.
  apply keeps_bind; [destruct (apply_context_free _); [|apply keeps_ret]|intros _].
  { apply keeps_for_each. intros a. apply dispatch_limits. }
  destruct (_ =? _); [apply keeps_for_each; intros a; apply dispatch_limits|].
  unfold schedule_transaction. apply keeps_bind; [done|]. intros w. apply keeps_bind; [done|]. intros cf.
  apply keeps_bind; [destruct (_ =? _); [apply add_net_usage_keeps|apply keeps_ret]|]. intros _.
  apply keeps_bind; [done|]. intros d. apply keeps_bind; [apply keeps_block_chain|intros _].
  - intros ch. unfold on_auth. by destruct ((_ : St auth_db unit) (ch_auth ch)).
  - apply keeps_block_chain. unfold add_ram_usage. apply keeps_bind; [|intros _; keeps_step].
    apply keeps_chain_limits. unfold add_pending_ram_usage, get_usage, set_usage. keeps_step.
Qed.
End fits.

(** ** The end of a transaction *)
Section finalize.
Context (g : setting).

(** What the first half of [finalize] leaves alone. *)
Definition billing_part (w : world) :=
  (nd_limits (w_node w), nd_config (w_node w), pending_time (w_node w), w_tc w).

Lemma finalize_usage_keeps : keeps billing_part finalize_usage.
Proof.
  unfold finalize_usage, tc_get. apply keeps_bind; [done|]. intros c. destruct (is_input _); [|apply keeps_ret].
  apply keeps_for_each. intros l w. unfold billing_part, on_chain, nd_limits, pending_time.
  assert (Hk : keeps (fun c => (ch_limits c, pending_block_time (ch_auth c)))
    (p ← auth_query (fun db => get_permission db l); on_auth (update_permission_usage p))).
  { apply keeps_bind; [apply keeps_auth_query|]. intros p. unfold update_permission_usage, set_usages.
    intros ch. unfold on_auth. run_st. by destruct (usages (ch_auth ch) !! _). }
  specialize (Hk (nd_chain (w_node w))).
  destruct ((_ : St chain unit) (nd_chain (w_node w))) as [ch r]. cbn in Hk |- *. by injection Hk as -> ->.
Qed.

Lemma verify_ram_keeps a : keeps (fun w => w) (on_chain (on_limits (verify_account_ram_usage a))).
Proof.
  intros w. assert (exists r, verify_account_ram_usage a (nd_limits (w_node w)) = (nd_limits (w_node w), r)) as [r Hr].
  { unfold verify_account_ram_usage, get_account_limits, get_limits, get_usage. run_st.
    destruct (rl_pending _ !! a) as [l|]; [|destruct (rl_limits _ !! a) as [l|]; [|by eexists]];
      (destruct (rl_usage _ !! a); [|by eexists]; destruct (0 <=? _); [|by eexists]; by destruct (_ <=? _); eexists). }
  by rewrite (limits_query _ _ _ Hr).
Qed.

Lemma update_billed_context t :
  keeps (fun w => (w_node w, tc_cpu (w_tc w), tc_net_usage (w_tc w), bill_to_accounts (w_tc w)))
    (update_billed_cpu_time t).
Proof.
  unfold update_billed_cpu_time, cfg, tc_get, tc_mod. apply keeps_bind; [done|]. intros c.
  destruct (explicit_billed_cpu_time _); [apply keeps_ret|]. apply keeps_bind; [done|]. intros ?.
  apply keeps_bind; [by apply keeps_modify|]. intros _. apply keeps_ret.
Qed.

Lemma validate_cpu_bound us w w' : skip_trx_checks g = false ->
  validate_cpu_usage_to_bill g us true w = (w', Ok tt) ->
  w' = w /\ cc_min_transaction_cpu_usage (nd_config (w_node w)) <= us /\
  us <= objective_duration_limit (tc_cpu (w_tc w)).
Proof.
  intros Hskip. unfold validate_cpu_usage_to_bill. rewrite Hskip. intros Hv.
  apply St_bind_ok in Hv as (c0 & w0 & Hg & Hv). injection Hg as <- <-.
  apply St_bind_ok in Hv as (c0 & w0 & Hg & Hv). injection Hg as <- <-.
  apply St_bind_ok in Hv as ([] & w0 & Ha & Hv). unfold st_assert, lift, bes_assert in *.
  destruct (_ <=? us) eqn:E1; [|done]. injection Ha as <-.
  destruct (us <=? _) eqn:E2.
  - bool_to_prop. split_and!; [|done..]. destruct (decide _); [|destruct (cpu_limit_due_to_greylist _)]; by injection Hv as <-.
  - by destruct (decide _); [|destruct (cpu_limit_due_to_greylist _)].
Qed.

(** The checks after the accounts were asked what they can pay. *)
Definition finalize_rest (b : bandwidth) : St world unit :=
  _ ← tc_mod (finalize_limits b);
  _ ← check_net_usage g;
  now ← now g;
  _ ← update_billed_cpu_time now;
  c ← tc_get;
  validate_cpu_usage_to_bill g (billed_cpu_time_us c) true.

Lemma finalize_tail b w w' : skip_trx_checks g = false ->
  0 <= account_net_limit b < 2 ^ 63 -> finalize_rest b w = (w', Ok tt) ->
  let c := w_tc w' in
  w_node w' = w_node w /\ bill_to_accounts c = bill_to_accounts (w_tc w) /\
  tc_net_usage c = u64 (u64 (tc_net_usage (w_tc w) + 7) / 8 * 8) /\
  tc_net_usage c <= Z.min (account_net_limit b) (net_limit (tc_net (w_tc w))) /\
  cc_min_transaction_cpu_usage (nd_config (w_node w)) <= billed_cpu_time_us c /\
  billed_cpu_time_us c <= Z.min (account_cpu_limit b) (objective_duration_limit (tc_cpu (w_tc w))).
Proof.
  intros Hskip Hb Hrun. unfold finalize_rest in Hrun.
  apply St_bind_ok in Hrun as ([] & w1 & Hm & Hrun). injection Hm as <-.
  set (c1 := finalize_limits b (w_tc w)) in *.
  assert (Hc1 : net_limit (tc_net c1) = Z.min (account_net_limit b) (net_limit (tc_net (w_tc w))) /\
    eager_net_limit (tc_net c1) = net_limit (tc_net c1) /\
    objective_duration_limit (tc_cpu c1) = Z.min (account_cpu_limit b) (objective_duration_limit (tc_cpu (w_tc w))) /\
    tc_net_usage c1 = u64 (u64 (tc_net_usage (w_tc w) + 7) / 8 * 8) /\
    bill_to_accounts c1 = bill_to_accounts (w_tc w)).
  { unfold c1, finalize_limits. rewrite u64_small by lia.
    repeat match goal with |- context [if ?b then _ else _] => destruct b eqn:? end; cbn; bool_to_prop;
      split_and!; try done; lia. }
  destruct Hc1 as (N1 & N2 & O1 & U1 & B1). clearbody c1.
  apply St_bind_ok in Hrun as ([] & w1 & Hc & Hrun). unfold check_net_usage in Hc. rewrite Hskip in Hc.
  apply St_bind_ok in Hc as (c0 & w0 & Hg & Hc). injection Hg as <- <-. cbn [w_tc] in Hc.
  destruct (_ <? _) eqn:En; [by destruct (net_limit_due_to_block _); [|destruct (net_limit_due_to_greylist _)]|].
  injection Hc as <-. bool_to_prop.
  apply St_bind_ok in Hrun as (t & w1 & Hn & Hrun). injection Hn as <- <-.
  apply St_bind_ok in Hrun as (us & w1 & Hup & Hrun).
  apply St_bind_ok in Hrun as (c0 & w0 & Hg & Hrun). injection Hg as <- <-.
  cbn [w_node w_tc w_ticks] in Hup. pose proof (update_billed_context (clock g (w_ticks w)) (World (w_node w) c1 (S (w_ticks w)))) as K.
  rewrite Hup in K. cbn in K. injection K as K1 K2 K3 K4.
  apply validate_cpu_bound in Hrun as (-> & V1 & V2); [|done]. cbn. rewrite K1 in *. rewrite K2, K3, K4 in *.
  split_and!; try done; lia.
Qed.

(** A transaction that passes the checks is within the limits of every billed account,
    and within the limits it ran with. *)
Lemma finalize_checks_inv w w' : skip_trx_checks g = false ->
  (forall a, a ∈ bill_to_accounts (w_tc w) -> elastic g a) ->
  0 <= net_limit (tc_net (w_tc w)) ->
  finalize_checks g w = (w', Ok tt) ->
  let c := w_tc w' in
  nd_limits (w_node w') = nd_limits (w_node w) /\ pending_time (w_node w') = pending_time (w_node w) /\
  bill_to_accounts c = bill_to_accounts (w_tc w) /\
  tc_net_usage c = u64 (u64 (tc_net_usage (w_tc w) + 7) / 8 * 8) /\
  tc_net_usage c <= net_limit (tc_net (w_tc w)) /\
  cc_min_transaction_cpu_usage (nd_config (w_node w)) <= billed_cpu_time_us c /\
  billed_cpu_time_us c <= objective_duration_limit (tc_cpu (w_tc w)) /\
  exists b, tc_net_usage c <= account_net_limit b /\ billed_cpu_time_us c <= account_cpu_limit b /\
    forall a, a ∈ bill_to_accounts c -> affords (nd_limits (w_node w')) b a.
Proof.
  intros Hskip Hel Hnl Hrun. unfold finalize_checks in Hrun.
  apply St_bind_ok in Hrun as (c0 & w0 & Hg & Hrun). injection Hg as <- <-.
  apply St_bind_ok in Hrun as ([] & w0 & Ha & Hrun). injection Ha as <- _.
  apply St_bind_ok in Hrun as ([] & wa & Hu & Hrun).
  pose proof (finalize_usage_keeps w) as K. rewrite Hu in K. unfold billing_part in K. cbn [fst] in K.
  injection K as K1 K2 K3 K4. clear Hu.
  apply St_bind_ok in Hrun as (wg & w0 & Hg & Hrun). injection Hg as <- <-.
  apply St_bind_ok in Hrun as ([] & w0 & Hv & Hrun).
  pose proof (keeps_for_each (fun w => w) _ (asc_elements (ch_validate_ram (nd_chain (w_node wa))))
    verify_ram_keeps wa) as Kv.
  rewrite Hv in Kv. cbn [fst] in Kv. subst w0. clear Hv.
  apply St_bind_ok in Hrun as (b & wb & Hb & Hrun). unfold max_bandwidth_billed_accounts_can_pay in Hb.
  apply St_bind_ok in Hb as (c0 & w0 & Hg & Hb). injection Hg as <- <-.
  apply bandwidth_loop_affords in Hb as (-> & Hb1 & Hb2 & Hb3 & Hb4 & Hb5).
  2: { intros a Ha%elem_of_asc_elements. right. apply Hel. by rewrite <- K4. }
  assert (Hl : 0 <= large_number_no_overflow < 2 ^ 63) by done.
  assert (Hbn : 0 <= account_net_limit b < 2 ^ 63) by (cbn [account_net_limit] in *; specialize (Hb4 (proj1 Hl)); lia).
  destruct (finalize_tail b wa w' Hskip Hbn Hrun) as (T1 & T3 & T4 & T5 & T6 & T7). clear Hrun.
  cbv zeta. rewrite K4 in T3, T4, T5, T7, Hb5. rewrite K2 in T6. rewrite T1. split_and!; try done; [lia|lia|].
  exists b. split; [lia|]. split; [lia|]. intros a Ha. apply Hb5, elem_of_asc_elements. by rewrite <- T3.
Qed.
End finalize.

(** The usage of a block after it took a transaction. *)
Lemma add_transaction_usage_run (db : rl_db) (b : bandwidth) (l : list Z) (cpu_units net_units slot : Z) :
  0 <= slot < 2 ^ 32 -> windows_ok db -> block_ok db -> NoDup l ->
  (forall a, a ∈ l -> affords db b a /\ account_room db slot a) ->
  0 < cpu_units < 2 ^ 32 -> 0 < net_units < 2 ^ 32 ->
  cpu_units <= account_cpu_limit b -> net_units <= account_net_limit b ->
  cpu_units <= cpu_left db -> net_units <= net_left db ->
  exists db', add_transaction_usage l cpu_units net_units slot db = (db', Ok tt) /\
    pending_cpu_usage (rl_state db') = pending_cpu_usage (rl_state db) + cpu_units /\
    pending_net_usage (rl_state db') = pending_net_usage (rl_state db) + net_units /\
    rl_config db' = rl_config db.
Proof.
  intros Hs Hw [Bn Bc Bnm Bcm] Hnd Hl Hc Hn Hcb Hnb Hcl Hnl. unfold cpu_left, net_left in *.
  destruct (bill_accounts_run db b l cpu_units net_units slot) as [us Hrun]; [done..|].
  unfold add_transaction_usage, set_state. rewrite (St_bind_run _ _ _ _ _ Hrun). run_st. cbn.
  rewrite !u64_small by lia. rewrite (proj2 (Z.leb_le _ _)) by lia. rewrite (proj2 (Z.leb_le _ _)) by lia.
  eexists. split; [done|]. done.
Qed.

(** ** Claims *)

(** C13. The last step of a transaction "should never fail" (a comment of the code): when
    an input transaction was initialized and executed, and its checks at the end pass,
    then billing it succeeds for every billed account at once. The block is charged
    exactly the network and CPU usage of the transaction, which stay within what the
    block has left and within what the transaction was allowed; both fit into the
    32-bit fields of a receipt. Conditions: the checks of transactions are not skipped,
    the transaction uses the network, no account that pays is on the greylist of a
    producing node, and the usage and weights of these accounts leave room for the
    arithmetic ([account_room]). Deferred transactions are not covered: for them the
    comment is wrong, since a failed one is billed without these checks and
    [add_transaction_usage] throws for an overdrawn account
    ([PushOverdrawn.overdrawn_hard_failure]). *)
Theorem billing_never_fails `{DispatchLaws} (g : setting) (u p : Z) (skip : bool) (w w1 w2 w3 : world) :
  let n := w_node w2 in
  skip_trx_checks g = false -> config_ok (nd_config (w_node w)) -> block_ok (nd_limits (w_node w)) ->
  0 <= max_net_usage_words (trx_header (ta_trx (tc_args (w_tc w)))) ->
  0 <= max_cpu_usage_ms (trx_header (ta_trx (tc_args (w_tc w)))) ->
  init_for_input_trx g u p skip w = (w1, Ok tt) -> exec g w1 = (w2, Ok tt) ->
  finalize_checks g w2 = (w3, Ok tt) ->
  0 <= pending_slot n < 2 ^ 32 -> windows_ok (nd_limits n) -> 0 < cc_min_transaction_cpu_usage (nd_config n) ->
  (forall a, a ∈ bill_to_accounts (w_tc w2) -> elastic g a /\ account_room (nd_limits n) (pending_slot n) a) ->
  0 < tc_net_usage (w_tc w2) < 2 ^ 63 ->
  exists w', finalize g w2 = (w', Ok tt) /\
    let cpu := billed_cpu_time_us (w_tc w3) in
    let net := tc_net_usage (w_tc w3) in
    let before := rl_state (nd_limits (w_node w)) in
    let after := rl_state (nd_limits (w_node w')) in
    pending_cpu_usage after = pending_cpu_usage before + cpu /\
    pending_net_usage after = pending_net_usage before + net /\
    cpu <= objective_duration_limit (tc_cpu (w_tc w2)) <= cpu_left (nd_limits (w_node w)) /\
    net <= net_limit (tc_net (w_tc w2)) <= net_left (nd_limits (w_node w)) /\
    u32 (u64 cpu) = cpu /\ u32 (net / 8) * 8 = net.
Proof.
  intros n Hskip Hcfg Hblk Hnw Hcm Hinit Hexec Hfin Hslot Hwin Hmin Hacc Hnet. subst n.
  pose proof (wp_ok _ _ _ _ _ (init_for_input_fits g u p skip w Hcfg Hblk Hnw Hcm) Hinit) as [Hf1 Hb1].
  pose proof (exec_keeps g w1) as Hk. rewrite Hexec in Hk. cbn [fst] in Hk.
  pose proof (fits_same _ _ Hk Hf1) as [F1 F2 F3 F4].
  assert (Hb2 : rl_block (nd_limits (w_node w2)) = rl_block (nd_limits (w_node w))).
  { rewrite <- Hb1. change ((limit_part w2).1.1 = (limit_part w1).1.1). by rewrite Hk. }
  unfold rl_block in Hb2. injection Hb2 as Hb2 Hb3 Hb4.
  assert (Hblk2 : block_ok (nd_limits (w_node w2))) by (destruct Hblk; split; by rewrite ?Hb2, ?Hb3, ?Hb4).
  destruct (finalize_checks_inv g w2 w3 Hskip) as (E1 & E2 & E3 & E4 & E5 & E6 & E7 & b & E8 & E9 & E10);
    [intros a Ha; by apply Hacc|lia|done|].
  set (cpu_units := billed_cpu_time_us (w_tc w3)) in *. set (net_units := tc_net_usage (w_tc w3)) in *.
  assert (Hr : 0 < net_units /\ net_units mod 8 = 0).
  { rewrite E4. set (v := tc_net_usage (w_tc w2)) in *. rewrite (u64_small (v + 7)) by lia.
    pose proof (Z.div_mod (v + 7) 8 ltac:(lia)). pose proof (Z.mod_pos_bound (v + 7) 8 ltac:(lia)).
    rewrite u64_small by lia. split; [lia|]. by rewrite Z.mod_mul. }
  destruct (add_transaction_usage_run (nd_limits (w_node w2)) b (asc_elements (bill_to_accounts (w_tc w3)))
    cpu_units net_units (pending_slot (w_node w2))) as (db' & Hrun & P1 & P2 & _); try done; try lia.
  { apply NoDup_asc_elements. }
  { intros a Ha%elem_of_asc_elements. split; [rewrite <- E1; by apply E10|apply Hacc; by rewrite <- E3]. }
  unfold finalize. rewrite (St_bind_run _ _ _ _ _ Hfin). cbv zeta.
  change (St world unit) with (world -> world * result unit). unfold mbind at 1, St_bind, get.
  assert (pending_slot (w_node w3) = pending_slot (w_node w2)) as -> by (unfold pending_slot; by rewrite E2).
  unfold on_chain, on_limits. change (ch_limits (nd_chain (w_node w3))) with (nd_limits (w_node w3)).
  rewrite E1. rewrite (u64_small (billed_cpu_time_us (w_tc w3))) by (fold cpu_units; lia).
  fold cpu_units net_units. rewrite Hrun. eexists. split; [done|]. cbn.
  rewrite Hb3, Hb4 in *. unfold net_left, cpu_left in *. rewrite Hb2, Hb3, Hb4 in *.
  split_and!; try done; try lia.
  - rewrite u64_small, u32_small by lia. done.
  - pose proof (Z.div_mod net_units 8 ltac:(lia)). rewrite u32_small by lia. lia.
Qed.

(** ** A concrete transaction *)
Module BillingSample.
Export ChainSample.

(** Actions that only leave a receipt. *)
#[global] Instance sample_dispatch : Dispatch := {
  dispatch_action _ _ _ _ := tc_mod (fun c => set_executed (tc_executed c ++ [digest_nil]) c)
}.
#[global] Instance sample_dispatch_laws : DispatchLaws.
Proof. split. intros g a r cf. by apply keeps_modify. Qed.

Definition sample_config : chain_config :=
  ChainConfig 1048576 1000 524288 12 500 20 100 200000 1000 150000 100 3600 600 3888000 4096 4 6.
Definition sample_node : node := Node genesis sample_config ∅ (fun _ => digest_nil) 0 ContractTables.no_rows.
Definition validating : setting :=
  Setting (ControllerConfig SPECULATIVE false false) FULL ∅ ∅ ∅ None digest_nil None digest_nil status_complete
    false (fun n => 10 + Z.of_nat n).
Definition sample_transfer : transaction :=
  Transaction (TransactionHeader 2 0 0 0 0 0) []
    [Action null_account_name onramusage_name [PermissionLevel system_account_name active_name] []] [].
Definition sample_args (t : transaction) : trx_args :=
  TrxArgs t digest_nil 5 0 0 false true true maximum_time 3000 false.
Definition sample_world : world := World sample_node (new_context (sample_args sample_transfer) 0) 0.

Definition after_init : world := (init_for_input_trx validating 100 66 false sample_world).1.
Definition after_exec : world := (exec validating after_init).1.
Definition after_checks : world := (finalize_checks validating after_exec).1.

(** The usage of an account that has used nothing yet. *)
Lemma idle_room : account_room (nd_limits (w_node after_exec)) (pending_slot (w_node after_exec)) system_account_name.
Proof.
  eexists. split; [vm_compute; reflexivity|].
  assert (account_cpu_usage_average_window (rl_config (nd_limits (w_node after_exec))) = 172800) as -> by (by vm_compute).
  assert (account_net_usage_average_window (rl_config (nd_limits (w_node after_exec))) = 172800) as -> by (by vm_compute).
  assert (pending_slot (w_node after_exec) = 649251041) as -> by (by vm_compute).
  cbn [cpu_usage net_usage]. split; [by split; cbn|]. split; [by split; cbn|]. intros units Hu.
  assert (max_raw_value = 18446744073709) by done. assert (rate_limiting_precision = 1000000) by done.
  pose proof (div_ceil_bounds (units * rate_limiting_precision) 172800 ltac:(lia)).
  split; split; cbn [last_ordinal consumed value_ex]; lia.
Qed.
End BillingSample.
Import BillingSample.

Lemma billing_never_fails_witness : exists w', finalize validating after_exec = (w', Ok tt) /\
  pending_net_usage (rl_state (nd_limits (w_node w'))) = 128.
Proof.
  destruct (billing_never_fails validating 100 66 false sample_world after_init after_exec after_checks)
    as (w' & Hw & _ & Hn & _).
  - done.
  - by vm_compute.
  - by vm_compute.
  - done.
  - done.
  - vm_compute. reflexivity.
  - vm_compute. reflexivity.
  - vm_compute. reflexivity.
  - by vm_compute.
  - by vm_compute.
  - by vm_compute.
  - intros a Ha. assert (a = system_account_name) as ->.
    { assert (bill_to_accounts (w_tc after_exec) = {[system_account_name]}) as Hb by (by vm_compute).
      rewrite Hb in Ha. by apply elem_of_singleton in Ha. }
    split; [done|]. exact idle_room.
  - by vm_compute.
  - exists w'. split; [exact Hw|]. rewrite Hn. by vm_compute.
Defined.
