(* ===== verification/PushTransaction.v ===== *)
(** * Pushing transactions

    Model of the part of [controller_impl] in [libraries/chain/controller.cpp] that runs
    transactions in the pending block: [push_transaction], [push_scheduled_transaction]
    with the error handlers of deferred transactions, receipts, restore points and the
    undo sessions around them; with [packed_transaction] of [transaction.cpp] and
    [transaction_metadata.hpp]. Compression is an interface ([Zlib]). *)
From Stdlib Require Import Ascii String.
From S2P Require Import Prelude Merkle BlockHeaderState ForkDatabase BlockApply Names Raw Authority Transactions.
From S2P Require Import AuthorizationManager ResourceLimits NativeContract Controller TransactionContext.

(** ** Packed transactions *)
Definition sig_base : Z := 256 ^ 65.
Definition sig_parts (s : signature) : Z * bytes := (s / sig_base, rev (le_bytes 65 (s mod sig_base))).
Definition sig_of_parts (p : Z * bytes) : signature := p.1 * sig_base + le_value (rev p.2).
Definition c_signature : codec signature := c_struct sig_parts sig_of_parts (c_variant 2 (c_array 65)).

Record packed_transaction := PackedTransaction {
  pt_signatures : list signature;
  (* 0 for none, 1 for zlib *)
  pt_compression : Z;
  packed_context_free_data : bytes;
  packed_trx : bytes
}.
Definition c_packed_transaction : codec packed_transaction :=
  c_struct
    (fun p => (pt_signatures p, (pt_compression p, (packed_context_free_data p, packed_trx p))))
    (fun '(s, (c, (d, t))) => PackedTransaction s c d t)
    (c_pair (c_vector c_signature) (c_pair (c_uint 1) (c_pair c_bytes c_bytes))).
(** The bytes that stand for the transaction in a receipt. *)
Definition packed_bytes (p : packed_transaction) : bytes :=
  match pack_value c_packed_transaction p with Ok b => b | Throw _ => [] end.

Definition fixed_net_overhead_of_packed_trx : Z := 16.
Definition get_unprunable_size (p : packed_transaction) : result Z :=
  let size := fixed_net_overhead_of_packed_trx + Z.of_nat (length (packed_trx p)) in
  _ ← bes_assert (size <=? 2 ^ 32 - 1) tx_too_big; mret size.
Definition get_prunable_size (p : packed_transaction) : result Z :=
  n ← pack_size (c_vector c_signature) (pt_signatures p);
  let size := n + Z.of_nat (length (packed_context_free_data p)) in
  _ ← bes_assert (size <=? 2 ^ 32 - 1) tx_too_big; mret size.

Definition pack_context_free_data (cfd : list bytes) : result bytes :=
  match cfd with [] => mret [] | _ => pack_value (c_vector c_bytes) cfd end.
Definition unpack_context_free_data (d : bytes) : result (list bytes) :=
  match d with [] => mret [] | _ => unpack_value (c_vector c_bytes) d end.

(** A signed transaction, and its packed form without compression. *)
Record signed_transaction := SignedTransaction {
  st_trx : transaction;
  st_signatures : list signature;
  st_context_free_data : list bytes
}.
Definition pack_signed (t : signed_transaction) : result packed_transaction :=
  trx ← pack_value c_transaction (st_trx t);
  cfd ← pack_context_free_data (st_context_free_data t);
  mret (PackedTransaction (st_signatures t) 0 cfd trx).

Class Zlib := { zlib_decompress : bytes -> result bytes }.

Definition get_signed_transaction `{Zlib} (p : packed_transaction) : result signed_transaction :=
  '(trx, cfd) ← (if pt_compression p =? 0 then mret (packed_trx p, packed_context_free_data p)
                 else if pt_compression p =? 1 then
                   t ← zlib_decompress (packed_trx p);
                   d ← (match packed_context_free_data p with [] => mret [] | d => zlib_decompress d end);
                   mret (t, d)
                 else Throw unknown_transaction_compression);
  t ← unpack_value c_transaction trx;
  d ← unpack_context_free_data cfd;
  mret (SignedTransaction t (pt_signatures p) d).

Section metadata.
Context `{TrxCrypto}.

(** The flags [accepted] and [scheduled] are for signals only. *)
Record transaction_metadata := TransactionMetadata {
  md_id : digest;
  signed_id : digest;
  md_trx : signed_transaction;
  md_packed : packed_transaction;
  signing_keys : option (digest * gset Z);
  implicit : bool
}.
Definition metadata_of_signed (t : signed_transaction) : result transaction_metadata :=
  p ← pack_signed t;
  id ← trx_id (st_trx t);
  mret (TransactionMetadata id (sha256 (packed_bytes p)) t p None false).
Definition metadata_of_packed `{Zlib} (p : packed_transaction) : result transaction_metadata :=
  t ← get_signed_transaction p;
  id ← trx_id (st_trx t);
  mret (TransactionMetadata id (sha256 (packed_bytes p)) t p None false).
Definition set_implicit (m : transaction_metadata) : transaction_metadata :=
  TransactionMetadata (md_id m) (signed_id m) (md_trx m) (md_packed m) (signing_keys m) true.
End metadata.

(** ** Failures *)
Definition failure_is_subjective (e : exn) : bool :=
  match e with
  | subjective_block_production_exception | block_net_usage_exceeded | greylist_net_usage_exceeded
  | block_cpu_usage_exceeded | greylist_cpu_usage_exceeded | deadline_exception | leeway_deadline_exception
  | actor_whitelist_exception | actor_blacklist_exception | contract_whitelist_exception
  | contract_blacklist_exception | action_blacklist_exception | key_blacklist_exception => true
  | _ => false
  end.
Definition scheduled_failure_is_subjective (e : exn) : bool :=
  match e with tx_cpu_usage_exceeded => true | _ => failure_is_subjective e end.

Record transaction_trace := TransactionTrace {
  tr_id : digest;
  tr_receipt : option (status_enum * Z * Z);
  tr_net_usage : Z;
  tr_scheduled : bool;
  tr_except : option exn
}.

(** ** The state *)
Record pushing := Pushing {
  pu_node : node;
  pu_block : block_state;
  pu_actions : list digest;
  pu_unapplied : gset digest;
  pu_cache : list cached_pub_key;
  pu_ticks : nat
}.
Notation M := (St pushing).
Notation MC := (St (pushing * transaction_context)).

Definition set_node (n : node) (p : pushing) : pushing :=
  Pushing n (pu_block p) (pu_actions p) (pu_unapplied p) (pu_cache p) (pu_ticks p).
Definition set_lists (f : list transaction_receipt -> list transaction_receipt) (h : list digest -> list digest)
    (s : block_state) : block_state :=
  BlockState (bs_header s) (SignedBlock (blk_header (bs_block s)) (f (transactions (bs_block s)))
    (block_extensions (bs_block s))) (validated s) (in_current_chain s) (h (trxs s)).
Definition set_block (b : block_state) (p : pushing) : pushing :=
  Pushing (pu_node p) b (pu_actions p) (pu_unapplied p) (pu_cache p) (pu_ticks p).
Definition append_actions (l : list digest) (p : pushing) : pushing :=
  Pushing (pu_node p) (pu_block p) (pu_actions p ++ l) (pu_unapplied p) (pu_cache p) (pu_ticks p).
Definition erase_unapplied (d : digest) (p : pushing) : pushing :=
  Pushing (pu_node p) (pu_block p) (pu_actions p) (pu_unapplied p ∖ {[d]}) (pu_cache p) (pu_ticks p).

(** Code of a context, and code of the controller next to one. *)
Definition in_context {A} (m : St world A) : MC A := fun '(p, c) =>
  let '(w, r) := m (World (pu_node p) c (pu_ticks p)) in
  ((Pushing (w_node w) (pu_block p) (pu_actions p) (pu_unapplied p) (pu_cache p) (w_ticks w), w_tc w), r).
Definition beside {A} (m : M A) : MC A := fun '(p, c) => let '(p', r) := m p in ((p', c), r).
Definition with_tc {A} (c : transaction_context) (m : St world A) : M A := fun p =>
  let '((p', _), r) := in_context m (p, c) in (p', r).
Definition push_chain {A} (m : St chain A) : M A := fun p =>
  let '(c, r) := m (nd_chain (pu_node p)) in (set_node (set_chain c (pu_node p)) p, r).
Definition read_clock (g : setting) : M Z := fun p =>
  (Pushing (pu_node p) (pu_block p) (pu_actions p) (pu_unapplied p) (pu_cache p) (S (pu_ticks p)),
   Ok (clock g (pu_ticks p))).

(** ** Sessions and restore points *)

(** A session that ends with its scope; the flag says that it was squashed. *)
Definition in_session {A} (g : setting) (m : M (A * bool)) : M A := fun p =>
  let undo p' := if skip_sessions g then p' else set_node (pu_node p) p' in
  match m p with
  | (p', Ok (a, true)) => (p', Ok a)
  | (p', Ok (a, false)) => (undo p', Ok a)
  | (p', Throw e) => (undo p', Throw e)
  end.

(** [validate_ram_usage] belongs to the context, although the model keeps it with the
    tables. *)
Definition set_validate_ram (s : gset Z) (p : pushing) : pushing :=
  let c := nd_chain (pu_node p) in
  set_node (set_chain (Chain (ch_auth c) (ch_limits c) (ch_accounts c) (ch_sequences c) s
    (ch_used_authorizations c)) (pu_node p)) p.

(** The scope of a [transaction_context]. *)
Definition in_transaction {A} (g : setting) (args : trx_args) (billed : Z) (m : MC (A * bool)) : M A :=
  in_session g (fun p =>
    let '((p', _), r) := (_ ← st_assert (bool_decide (transaction_extensions (ta_trx args) = [])) unsupported_feature; m)
                           (set_validate_ram ∅ p, new_context args billed) in
    (set_validate_ram (ch_validate_ram (nd_chain (pu_node p))) p', r)).

(** [make_block_restore_point]; the flag says that the guard was cancelled. *)
Definition resized (p p' : pushing) : pushing :=
  Pushing (pu_node p')
    (set_lists (take (length (transactions (bs_block (pu_block p))))) (take (length (trxs (pu_block p)))) (pu_block p'))
    (take (length (pu_actions p)) (pu_actions p')) (pu_unapplied p') (pu_cache p') (pu_ticks p').
Definition restore_point {A} (m : MC (A * bool)) : MC A := fun s =>
  match m s with
  | (s', Ok (a, true)) => (s', Ok a)
  | ((p', c'), Ok (a, false)) => ((resized s.1 p', c'), Ok a)
  | ((p', c'), Throw e) => ((resized s.1 p', c'), Throw e)
  end.

(** The fields of a receipt have 32 bits. *)
Definition push_receipt (t : digest + list Z) (s : status_enum) (cpu_usage_us net_usage : Z)
    : M (status_enum * Z * Z) :=
  let net_usage_words := net_usage / 8 in
  _ ← st_assert (u64 (net_usage_words * 8) =? net_usage) transaction_exception;
  _ ← modify_st (fun p => set_block (set_lists (fun l => l ++
        [TransactionReceipt s (u32 cpu_usage_us) (u32 net_usage_words) t]) (fun l => l) (pu_block p)) p);
  mret (s, u32 cpu_usage_us, u32 net_usage_words).

Section push.
Context `{MetaSet} `{TrxCrypto} `{Dispatch}.

Definition check_actor_list (g : setting) (actors : gset Z) : result unit :=
  if decide (actor_whitelist g = ∅) then
    if decide (actor_blacklist g = ∅) then mret tt
    else bes_assert (bool_decide (actors ∩ actor_blacklist g = ∅)) actor_blacklist_exception
  else bes_assert (bool_decide (actors ∖ actor_whitelist g = ∅)) actor_whitelist_exception.

(** [recover_keys]: the keys that the metadata holds, or those of the signatures. *)
Definition md_recover_keys (g : setting) (m : transaction_metadata) : M (gset Z) :=
  let recover : M (gset Z) := fun p =>
    let '(cache, r) := get_signature_keys (st_signatures (md_trx m)) (chain_id g)
                         (st_context_free_data (md_trx m)) false true (st_trx (md_trx m)) (pu_cache p) in
    (Pushing (pu_node p) (pu_block p) (pu_actions p) (pu_unapplied p) cache (pu_ticks p), r) in
  match signing_keys m with
  | Some (id, ks) => if decide (id = chain_id g) then mret ks else capture_and_rethrow recover
  | None => capture_and_rethrow recover
  end.

Definition trace_of (c : transaction_context) (scheduled : bool) (r : option (status_enum * Z * Z))
    (e : option exn) : transaction_trace :=
  TransactionTrace (ta_id (tc_args c)) r (tc_net_usage c) scheduled e.

(** *** Input and implicit transactions *)
Definition default_leeway : Z := 3000.
Definition input_args (g : setting) (m : transaction_metadata) (start deadline : Z) (explicit : bool) : trx_args :=
  TrxArgs (st_trx (md_trx m)) (md_id m) start 0 0 false true true deadline
    (match subjective_cpu_leeway g with
     | Some l => if producing_block g then l else default_leeway
     | None => default_leeway
     end) explicit.

Definition init_trx (g : setting) (m : transaction_metadata) : MC unit :=
  if implicit m then
    _ ← in_context (init_for_implicit_trx g);
    in_context (tc_mod set_objective)
  else
    let skip_recording := match replay_head_time g with
                          | Some t => seconds (expiration (trx_header (st_trx (md_trx m)))) <=? t
                          | None => false
                          end in
    unprunable ← lift (get_unprunable_size (md_packed m));
    prunable ← lift (get_prunable_size (md_packed m));
    in_context (init_for_input_trx g unprunable prunable skip_recording).

(** The end of a successful transaction; the flag says that its changes are kept. *)
Definition conclude_trx (g : setting) (m : transaction_metadata) : MC (transaction_trace * bool) :=
  restore_point (
    '(_, c) ← get;
    r ← (if implicit m then mret (executed, u32 (billed_cpu_time_us c), u32 (tc_net_usage c / 8)) else
           let s := if delay (tc_args c) =? 0 then executed else delayed in
           r ← beside (push_receipt (inr (packed_bytes (md_packed m))) s (u64 (billed_cpu_time_us c)) (tc_net_usage c));
           _ ← beside (modify_st (fun p => set_block (set_lists (fun l => l) (fun l => l ++ [signed_id m])
                                     (pu_block p)) p));
           mret r);
    _ ← beside (modify_st (append_actions (tc_executed c)));
    let keep := bool_decide (read_mode (g_conf g) = SPECULATIVE) || negb (producing_block g) in
    _ ← (if implicit m then mret tt else beside (modify_st (erase_unapplied (signed_id m))));
    mret (trace_of c false (Some r) None, keep, keep)).

(** Every push of an input transaction pushes a notification; [fuel] bounds this
    recursion. *)
Fixpoint push_transaction (fuel : nat) (g : setting) (m : transaction_metadata) (deadline billed : Z)
    (explicit : bool) : M transaction_trace :=
  match fuel with
  | O => throw undefined_behaviour
  | S fuel =>
      _ ← st_assert (negb (deadline =? 0)) transaction_exception;
      capture_and_rethrow (
        start ← read_clock g;
        in_transaction g (input_args g m start deadline explicit) billed (
          catch_fc (
            _ ← init_trx g m;
            '(_, c) ← get;
            _ ← (if can_subjectively_fail (tc_args c) && producing_block g
                 then lift (check_actor_list g (bill_to_accounts c)) else mret tt);
            let trx := st_trx (md_trx m) in
            _ ← in_context (tc_mod (set_delay (seconds (delay_sec (trx_header trx)))));
            _ ← (if negb (skip_auth_check g) && negb (implicit m) then
                   keys ← beside (md_recover_keys g m);
                   '(p, c) ← get;
                   _ ← lift (check_authorization (ch_auth (nd_chain (pu_node p))) (trx_actions trx)
                               (asc_elements keys) [] (delay (tc_args c)) false);
                   actor ← lift (notified_actor trx);
                   t ← lift (get_on_upramusage_transaction (head_block_id g) (pending_time (pu_node p)) actor);
                   n ← lift (metadata_of_signed (SignedTransaction t [] []));
                   _ ← beside (push_transaction fuel g n maximum_time 1 true);
                   mret tt
                 else mret tt);
            _ ← in_context (exec g);
            _ ← in_context (finalize g);
            conclude_trx g m)
          (fun e =>
            '(_, c) ← get;
            _ ← (if failure_is_subjective e then mret tt else beside (modify_st (erase_unapplied (signed_id m))));
            mret (trace_of c false None (Some e), false))))
  end.

(** *** Deferred transactions *)
Definition remove_scheduled_transaction (gto : generated_transaction) : M unit :=
  push_chain (
    _ ← on_limits (add_pending_ram_usage (gt_payer gto)
          (- (generated_transaction_object_size + Z.of_nat (length (gt_packed_trx gto)))));
    on_auth (db ← get; set_generated (filter (fun o => gt_trx_id o <> gt_trx_id gto) (generated db)))).

Definition onerror_name : Z := Eval vm_compute in N "onerror".
Definition c_onerror : codec (Z * bytes) := c_pair (c_uint 16) c_bytes.

(** The transaction that delivers a failed one back to its sender. *)
Definition onerror_action (gtrx : generated_transaction) : result action :=
  data ← pack_value c_onerror (gt_sender_id gtrx, gt_packed_trx gtrx);
  mret (Action system_account_name onerror_name [PermissionLevel (gt_sender gtrx) active_name] data).
Definition onerror_transaction (g : setting) (n : node) (act : action) : transaction :=
  let h := set_reference_block (head_block_id g) (TransactionHeader 0 0 0 0 0 0) in
  let expiration := u32 (Z.quot (pending_time n + 999999) 1000000) in
  Transaction (TransactionHeader expiration (ref_block_num h) (ref_block_prefix h)
                 (max_net_usage_words h) (max_cpu_usage_ms h) (delay_sec h)) [] [act] [].

(** A receipt and the executed actions; what comes next squashes the session. *)
Definition conclude_scheduled (id : digest) (s : status_enum) (scheduled : bool) : MC transaction_trace :=
  restore_point (
    '(_, c) ← get;
    r ← beside (push_receipt (inl id) s (u64 (billed_cpu_time_us c)) (tc_net_usage c));
    _ ← beside (modify_st (append_actions (tc_executed c)));
    mret (trace_of c scheduled (Some r) None, true)).

(** What a failed context leaves: the exception, the context and the time to bill. *)
Definition failed_context (g : setting) (e : exn) : MC (exn * transaction_context * Z) :=
  now ← beside (read_clock g);
  cpu ← in_context (update_billed_cpu_time now);
  '(_, c) ← get;
  mret (e, c, cpu).

Definition apply_onerror (g : setting) (gtrx : generated_transaction) (deadline start billed : Z) (explicit : bool)
    : M (transaction_trace + (exn * transaction_context * Z)) :=
  p ← get;
  act ← lift (onerror_action gtrx);
  let etrx := onerror_transaction g (pu_node p) act in
  id ← lift (trx_id etrx);
  in_transaction g (TrxArgs etrx id start 0 0 false true true deadline default_leeway explicit) billed (
    catch_fc (
      _ ← in_context (init_for_implicit_trx g);
      _ ← in_context (tc_mod (set_published (gt_published gtrx)));
      _ ← in_context (dispatch_action g act (gt_sender gtrx) false);
      _ ← in_context (finalize g);
      t ← conclude_scheduled (gt_trx_id gtrx) soft_fail false;
      mret (inl t, true))
    (fun e => f ← failed_context g e; mret (inr f, false))).

Definition requiring_checks (g : setting) : setting :=
  Setting (g_conf g) (block_validation_mode g) (actor_whitelist g) (actor_blacklist g) (resource_greylist g)
    (subjective_cpu_leeway g) (chain_id g) (replay_head_time g) (head_block_id g) (g_status g) true (clock g).

(** Running the transaction; [inr] when it fails. *)
Definition run_scheduled (g : setting) (gtrx : generated_transaction) (dtrx : transaction) (deadline billed : Z)
    (explicit : bool) : M (transaction_trace + (exn * transaction_context * Z)) :=
  start ← read_clock g;
  in_transaction g (TrxArgs dtrx (gt_trx_id gtrx) start 0 0 false true true deadline 0 explicit) billed (
    catch_fc (
      _ ← in_context (init_for_deferred_trx g (gt_published gtrx));
      _ ← in_context (exec g);
      _ ← in_context (finalize g);
      t ← conclude_scheduled (gt_trx_id gtrx) executed true;
      mret (inl t, true))
    (fun e => f ← failed_context g e; mret (inr f, false))).

(** A failure that counts: the accounts are billed for the time, as far as they can
    pay. *)
Definition bill_hard_failure (g : setting) (gtrx : generated_transaction) (c : transaction_context) (cpu : Z)
    (explicit : bool) : M (status_enum * Z * Z) :=
  p ← get;
  let slot := pending_slot (pu_node p) in
  let accounts := asc_elements (bill_to_accounts c) in
  cpu ← (if explicit then mret cpu else
           _ ← push_chain (on_limits (update_account_usage accounts slot));
           b ← with_tc c (max_bandwidth_billed_accounts_can_pay g true);
           mret (u32 (Z.min (Z.min cpu (account_cpu_limit b)) (initial_objective_duration_limit (tc_cpu c)))));
  _ ← push_chain (on_limits (add_transaction_usage accounts cpu 0 slot));
  push_receipt (inl (gt_trx_id gtrx)) hard_fail cpu 0.

(** The rest, after the transaction failed with [e] and its session was undone. *)
Definition retire_failed (g : setting) (gtrx : generated_transaction) (deadline billed : Z) (explicit : bool)
    (e : exn) (c : transaction_context) (us : Z) : M (transaction_trace * bool) :=
  let handled := negb (gt_sender gtrx =? 0) && negb (failure_is_subjective e) in
  r ← (if handled then apply_onerror g gtrx deadline (pseudo_start (tc_timer c)) billed explicit
       else mret (inr (e, c, us)));
  match r with
  | inl t => mret (t, true)
  | inr (e, ce, us) =>
      let subjective := if explicit then failure_is_subjective e else scheduled_failure_is_subjective e in
      if negb subjective then
        r ← bill_hard_failure g gtrx c us explicit;
        mret (trace_of ce (negb handled) (Some r) (Some e), true)
      else mret (trace_of ce (negb handled) None (Some e), false)
  end.

Definition push_scheduled (g : setting) (gtrx : generated_transaction) (deadline billed : Z) (explicit : bool)
    : M transaction_trace :=
  capture_and_rethrow (in_session g (
    _ ← remove_scheduled_transaction gtrx;
    p ← get;
    _ ← st_assert (gt_delay_until gtrx <=? pending_time (pu_node p)) transaction_exception;
    dtrx ← lift (unpack_value c_transaction (gt_packed_trx gtrx));
    if gt_expiration gtrx <? pending_time (pu_node p) then
      r ← push_receipt (inl (gt_trx_id gtrx)) expired billed 0;
      mret (TransactionTrace (gt_trx_id gtrx) (Some r) 0 true None, true)
    else
      let g := requiring_checks g in
      r ← run_scheduled g gtrx dtrx deadline billed explicit;
      match r with
      | inl t => mret (t, true)
      | inr (e, c, us) => retire_failed g gtrx deadline billed explicit e c us
      end)).

Definition push_scheduled_transaction (g : setting) (trxid : digest) (deadline billed : Z) (explicit : bool)
    : M transaction_trace :=
  p ← get;
  gto ← lift (of_option unknown_transaction_exception (find_generated (ch_auth (nd_chain (pu_node p))) trxid));
  push_scheduled g gto deadline billed explicit.
End push.
