(* ===== verification/PushAtomic.v ===== *)
(** * Transactions are atomic

    A transaction that is pushed into the pending block leaves one receipt, or no trace in
    the database and the block, whatever the execution of its actions does. *)
From S2P Require Import Prelude Merkle BlockHeaderState ForkDatabase BlockApply Raw Authority Transactions.
From S2P Require Import AuthorizationManager ResourceLimits NativeContract Controller TransactionContext.
From S2P Require Import TrxBilling PushTransaction.

(** What a transaction that is given up leaves as it was. *)
Definition unchanged (p p' : pushing) : Prop :=
  pu_node p' = pu_node p /\ pu_block p' = pu_block p /\ pu_actions p' = pu_actions p /\
  pu_unapplied p' ⊆ pu_unapplied p.

Lemma unchanged_refl p : unchanged p p.
Proof. by split_and!. Qed.

(** ** Scopes *)

(** The block and the queue while a context runs. *)
Definition same_block (p p' : pushing) : Prop :=
  pu_block p' = pu_block p /\ pu_actions p' = pu_actions p /\ pu_unapplied p' ⊆ pu_unapplied p.

Lemma same_block_refl p : same_block p p.
Proof. by split_and!. Qed.
Lemma same_block_trans p1 p2 p3 : same_block p1 p2 -> same_block p2 p3 -> same_block p1 p3.
Proof. unfold same_block. intros (E1 & E2 & ?) (E3 & E4 & ?). rewrite E3, E4. split_and!; [done..|]. by etrans. Qed.

Lemma in_session_run {A} g (m : St pushing (A * bool)) p : skip_sessions g = false ->
  in_session g m p =
    match m p with
    | (p', Ok (a, true)) => (p', Ok a)
    | (p', Ok (a, false)) => (set_node (pu_node p) p', Ok a)
    | (p', Throw e) => (set_node (pu_node p) p', Throw e)
    end.
Proof. intros Hs. unfold in_session. by rewrite Hs. Qed.

Lemma in_transaction_run {A} g args billed (m : St (pushing * transaction_context) (A * bool)) p :
  skip_sessions g = false ->
  in_transaction g args billed m p =
    match (_ ← st_assert (bool_decide (transaction_extensions (ta_trx args) = [])) unsupported_feature; m)
            (set_validate_ram ∅ p, new_context args billed) with
    | ((p', _), Ok (a, true)) => (set_validate_ram (ch_validate_ram (nd_chain (pu_node p))) p', Ok a)
    | ((p', _), Ok (a, false)) => (set_node (pu_node p) p', Ok a)
    | ((p', _), Throw e) => (set_node (pu_node p) p', Throw e)
    end.
Proof.
  intros Hs. unfold in_transaction. rewrite in_session_run by done.
  destruct ((_ : St (pushing * transaction_context) (A * bool)) _) as [[p' c'] [[a []]|e]]; done.
Qed.

(** ** Both outcomes of a step

    [wpx E m Q s]: the state and the value that [m] returns satisfy [Q], and the state and
    the exception that it throws satisfy [E]. *)
Definition wpx {S A} (E : exn -> S -> Prop) (m : St S A) (Q : A -> S -> Prop) (s : S) : Prop :=
  match m s with
  | (s', Ok a) => Q a s'
  | (s', Throw e) => E e s'
  end.

Section wpx.
Context {S : Type} (E : exn -> S -> Prop).
Lemma wpx_ret {A} (a : A) (Q : A -> S -> Prop) s : Q a s -> wpx E (mret a) Q s.
Proof. done. Qed.
Lemma wpx_bind {A B} (m : St S A) (k : A -> St S B) Q s :
  wpx E m (fun a s' => wpx E (k a) Q s') s -> wpx E (m ≫= k) Q s.
Proof. unfold wpx, mbind, St_bind. by destruct (m s) as [s' [a|e]]. Qed.
Lemma wpx_get (Q : S -> S -> Prop) s : Q s s -> wpx E get Q s.
Proof. done. Qed.
Lemma wpx_lift {A} (r : result A) (Q : A -> S -> Prop) s :
  (forall a, r = Ok a -> Q a s) -> (forall e, r = Throw e -> E e s) -> wpx E (lift r) Q s.
Proof. unfold wpx, lift. destruct r; auto. Qed.
Lemma wpx_mono {A} (m : St S A) (Q1 Q2 : A -> S -> Prop) s :
  wpx E m Q1 s -> (forall a s', Q1 a s' -> Q2 a s') -> wpx E m Q2 s.
Proof. unfold wpx. destruct (m s) as [s' [a|e]]; auto. Qed.
Lemma wpx_weaken {A} (E' : exn -> S -> Prop) (m : St S A) Q s :
  (forall e s', E' e s' -> E e s') -> wpx E' m Q s -> wpx E m Q s.
Proof. unfold wpx. destruct (m s) as [s' [a|e]]; auto. Qed.
Lemma wpx_catch {A} (m : St S A) (h : exn -> St S A) Q s :
  wpx (fun e s' => if fc_exception e then wpx E (h e) Q s' else E e s') m Q s -> wpx E (catch_fc m h) Q s.
Proof. unfold wpx, catch_fc. destruct (m s) as [s' [a|e]]; [done|]. by destruct (fc_exception e). Qed.
End wpx.

Lemma wpx_keeps {S A T} (f : S -> T) E (m : St S A) (Q : A -> S -> Prop) s : keeps f m ->
  (forall a s', f s' = f s -> Q a s') -> (forall e s', f s' = f s -> E e s') -> wpx E m Q s.
Proof. intros Hm HQ HE. specialize (Hm s). unfold wpx. destruct (m s) as [s' [a|e]]; auto. Qed.

Lemma wpx_capture {S A} (E : exn -> S -> Prop) (m : St S A) Q s :
  wpx (fun e s' => E (captured e) s') m Q s -> wpx E (capture_and_rethrow m) Q s.
Proof. unfold wpx, capture_and_rethrow. by destruct (m s) as [s' [a|e]]. Qed.
Lemma wpx_beside {A} E (m : St pushing A) (Q : A -> pushing * transaction_context -> Prop) p c :
  wpx (fun e p' => E e (p', c)) m (fun a p' => Q a (p', c)) p -> wpx E (beside m) Q (p, c).
Proof. unfold wpx, beside. by destruct (m p) as [p' [a|e]]. Qed.

Lemma wpx_in_transaction {A} E g args billed (m : St (pushing * transaction_context) (A * bool)) Q p :
  skip_sessions g = false -> E unsupported_feature p ->
  wpx (fun e s => E e (set_node (pu_node p) s.1)) m
    (fun ak s => Q ak.1 (if ak.2 : bool then set_validate_ram (ch_validate_ram (nd_chain (pu_node p))) s.1
                         else set_node (pu_node p) s.1))
    (set_validate_ram ∅ p, new_context args billed) ->
  wpx E (in_transaction g args billed m) Q p.
Proof.
  intros Hs He Hm. unfold wpx. rewrite in_transaction_run by done. unfold mbind, St_bind, st_assert, lift.
  destruct (bool_decide _); cbn [bes_assert].
  - unfold wpx in Hm. by destruct (m _) as [[p' c'] [[a []]|e]].
  - by destruct p.
Qed.

Lemma wpx_read_clock E g (Q : Z -> pushing -> Prop) p :
  Q (clock g (pu_ticks p)) (Pushing (pu_node p) (pu_block p) (pu_actions p) (pu_unapplied p) (pu_cache p) (S (pu_ticks p))) ->
  wpx E (read_clock g) Q p.
Proof. done. Qed.
Lemma wpx_tc_mod E f (Q : unit -> pushing * transaction_context -> Prop) p c :
  Q tt (p, f c) -> wpx E (in_context (tc_mod f)) Q (p, c).
Proof. by destruct p. Qed.

(** Runs that agree on the states that are reached. *)
Lemma bind_same {S A B} (m : St S A) (k1 k2 : A -> St S B) s :
  (forall a s', m s = (s', Ok a) -> k1 a s' = k2 a s') -> (m ≫= k1) s = (m ≫= k2) s.
Proof. intros Hk. unfold mbind, St_bind. destruct (m s) as [s' [a|e]]; [by apply Hk|done]. Qed.
Lemma lift_same {S A B} (r : result A) (k1 k2 : A -> St S B) s :
  (forall a, r = Ok a -> k1 a s = k2 a s) -> (lift r ≫= k1) s = (lift r ≫= k2) s.
Proof. intros Hk. unfold mbind, St_bind, lift. destruct r as [a|e]; [by apply Hk|done]. Qed.
Lemma bind_first {S A B} (m1 m2 : St S A) (k : A -> St S B) s : m1 s = m2 s -> (m1 ≫= k) s = (m2 ≫= k) s.
Proof. unfold mbind, St_bind. by intros ->. Qed.
Lemma beside_same {A} (m1 m2 : St pushing A) p c : m1 p = m2 p -> beside m1 (p, c) = beside m2 (p, c).
Proof. unfold beside. by intros ->. Qed.
Lemma catch_same {S A} (m1 m2 : St S A) h s : m1 s = m2 s -> catch_fc m1 h s = catch_fc m2 h s.
Proof. unfold catch_fc. by intros ->. Qed.
Lemma capture_same {S A} (m1 m2 : St S A) s : m1 s = m2 s -> capture_and_rethrow m1 s = capture_and_rethrow m2 s.
Proof. unfold capture_and_rethrow. by intros ->. Qed.
Lemma in_transaction_same {A} g args billed (m1 m2 : St (pushing * transaction_context) (A * bool)) p :
  m1 (set_validate_ram ∅ p, new_context args billed) = m2 (set_validate_ram ∅ p, new_context args billed) ->
  in_transaction g args billed m1 p = in_transaction g args billed m2 p.
Proof.
  intros Hm. unfold in_transaction, in_session. unfold mbind, St_bind, st_assert, lift.
  destruct (bes_assert _ _); by rewrite ?Hm.
Qed.

(** ** Steps beside a context *)
Definition outside (s : pushing * transaction_context) := (pu_block s.1, pu_actions s.1, pu_unapplied s.1).

Lemma in_context_outside {A} (m : St world A) : keeps outside (in_context m).
Proof. intros [p c]. unfold in_context. by destruct (m _) as [w r]. Qed.

Lemma in_context_auth {A} (m : St world A) :
  keeps (fun w => ch_auth (nd_chain (w_node w))) m ->
  keeps (fun s : pushing * transaction_context => (outside s, ch_auth (nd_chain (pu_node s.1)))) (in_context m).
Proof.
  intros Hm [p c]. specialize (Hm (World (pu_node p) c (pu_ticks p))). unfold in_context.
  destruct (m _) as [w r]. cbn in *. by rewrite Hm.
Qed.

(** *** Initialization reads the permissions only *)
Definition auth_of (w : world) : auth_db := ch_auth (nd_chain (w_node w)).

Lemma auth_on_limits {A} (m : St rl_db A) : keeps auth_of (on_chain (on_limits m)).
Proof. intros w. unfold on_chain, on_limits. by destruct (m _) as [l r]. Qed.
Lemma auth_tc_mod f : keeps auth_of (tc_mod f).
Proof. by apply keeps_modify. Qed.
Lemma auth_gets {A} (f : world -> A) : keeps auth_of (gets f).
Proof. done. Qed.
Lemma auth_now g : keeps auth_of (now g).
Proof. done. Qed.
#[local] Hint Resolve auth_on_limits auth_tc_mod auth_gets auth_now : keeps.

Lemma auth_bandwidth g fe l b : keeps auth_of (bandwidth_loop g fe l b).
Proof.
  revert b. induction l as [|a l IH]; intros b; cbn [bandwidth_loop]; [apply keeps_ret|].
  apply keeps_bind; [|done]. unfold account_bandwidth. keeps_step.
Qed.
Lemma auth_check_net g : keeps auth_of (check_net_usage g).
Proof. unfold check_net_usage, tc_get. keeps_step. Qed.
Lemma auth_validate_cpu g us b : keeps auth_of (validate_cpu_usage_to_bill g us b).
Proof. unfold validate_cpu_usage_to_bill, cfg, tc_get. keeps_step. Qed.
Lemma auth_checktime g : keeps auth_of (checktime g).
Proof. unfold checktime, tc_get. keeps_step. Qed.
#[local] Hint Resolve auth_bandwidth auth_check_net auth_validate_cpu auth_checktime : keeps.

Lemma auth_max_bandwidth g fe : keeps auth_of (max_bandwidth_billed_accounts_can_pay g fe).
Proof. unfold max_bandwidth_billed_accounts_can_pay, tc_get. keeps_step. Qed.
#[local] Hint Resolve auth_max_bandwidth : keeps.
Lemma auth_init g n : keeps auth_of (init g n).
Proof.
  unfold init, add_net_usage, cfg, tc_get. keeps_step.
Qed.
#[local] Hint Resolve auth_init : keeps.
Lemma auth_init_implicit g : keeps auth_of (init_for_implicit_trx g).
Proof. unfold init_for_implicit_trx. keeps_step. Qed.
Lemma auth_init_input g u p skip : keeps auth_of (init_for_input_trx g u p skip).
Proof. unfold init_for_input_trx, record_transaction, node_mod, cfg. keeps_step. Qed.

Definition steady (s : pushing * transaction_context) := (outside s, ch_auth (nd_chain (pu_node s.1))).

Lemma outside_same p0 s s' : outside s' = outside s -> same_block p0 s.1 -> same_block p0 s'.1.
Proof. destruct s, s'. unfold outside, same_block. cbn. intros [= -> -> ->]. done. Qed.
Lemma steady_same p0 s s' : steady s' = steady s -> same_block p0 s.1 ->
  same_block p0 s'.1 /\ ch_auth (nd_chain (pu_node s'.1)) = ch_auth (nd_chain (pu_node s.1)).
Proof. intros Hst Hs. injection Hst as S1 S2 S3 S4. split; [|done]. eapply outside_same; [|done]. unfold outside. congruence. Qed.

Lemma steady_init_trx g m : keeps steady (init_trx g m).
Proof.
  unfold init_trx. destruct (implicit m).
  - apply keeps_bind; [apply in_context_auth, auth_init_implicit|]. intros _.
    apply in_context_auth, auth_tc_mod.
  - do 2 (apply keeps_bind; [done|]; intros ?). apply in_context_auth, auth_init_input.
Qed.

(** ** The notification is rejected *)
Section atomic.
Context `{MetaSetLaws} `{TrxCrypto} `{Dispatch}.

(** Every permission needs something, so that nobody is authorized by no keys. *)
Record guarded_db (db : auth_db) : Prop := {
  gd_weights : forall i p, permissions db !! i = Some p -> weights_ok (po_auth p);
  gd_guarded : forall i p, permissions db !! i = Some p -> po_name p <> 0 -> guarded (po_auth p);
  gd_delay : 0 < max_transaction_delay db < 2 ^ 32
}.

Lemma no_signatures_no_keys g m p : signing_keys m = None -> st_signatures (md_trx m) = [] ->
  wpx (fun _ p' => p' = p) (md_recover_keys g m) (fun ks p' => ks = ∅ /\ same_block p p' /\ pu_node p' = pu_node p) p.
Proof.
  intros Hk Hs. unfold md_recover_keys. rewrite Hk, Hs. unfold wpx, capture_and_rethrow, get_signature_keys.
  unfold mbind, St_bind, lift. destruct (sig_digest _ _ _) as [d|e]; cbn; [|by destruct p].
  split; [done|]. by split_and!.
Qed.

(** The handler of an exception drops at most the transaction from the queue. *)
Definition handle_failure (m : transaction_metadata) (e : exn)
    : St (pushing * transaction_context) (transaction_trace * bool) :=
  '(_, c) ← get;
  _ ← (if failure_is_subjective e then mret tt else beside (modify_st (erase_unapplied (signed_id m))));
  mret (trace_of c false None (Some e), false).

Definition gave_up (m : transaction_metadata) (p0 : pushing) (tk : transaction_trace * bool) (p' : pushing) : Prop :=
  tk.2 = false /\ same_block p0 p' /\ tr_receipt tk.1 = None /\
  exists e, tr_except tk.1 = Some e /\ (failure_is_subjective e = false -> signed_id m ∉ pu_unapplied p').

Lemma wpx_try p0 (m : transaction_metadata) body (Q : transaction_trace * bool -> pushing * transaction_context -> Prop) s :
  wpx (fun _ s' => same_block p0 s'.1) body Q s ->
  (forall tk s', gave_up m p0 tk s'.1 -> Q tk s') ->
  wpx (fun _ s' => same_block p0 s'.1) (catch_fc body (handle_failure m)) Q s.
Proof.
  intros Hb HQ. apply wpx_catch. unfold wpx in *. destruct (body s) as [[p c] [a|e]]; [done|].
  destruct (fc_exception e); [|done]. destruct Hb as (B1 & B2 & B3). unfold gave_up, same_block in HQ.
  unfold handle_failure. destruct (failure_is_subjective e) eqn:Es; cbn; apply HQ; cbn in *; split_and!; try done.
  - exists e. by rewrite Es.
  - set_solver.
  - exists e. split; [done|]. intros _. set_solver.
Qed.

(** What an authorization check leaves to a metadata without signatures. *)
Lemma notification_leaves_nothing fuel g hd a t n p :
  skip_sessions g = false -> skip_auth_check g = false -> guarded_db (ch_auth (nd_chain (pu_node p))) ->
  get_on_upramusage_transaction hd (pending_time (pu_node p)) a = Ok t ->
  metadata_of_signed (SignedTransaction t [] []) = Ok n ->
  wpx (fun _ p' => unchanged p p') (push_transaction (S fuel) g n maximum_time 1 true) (fun _ p' => unchanged p p') p.
Proof.
  intros Hs Ha [Gw Gg Gd] Ht Hn.
  assert (Hn' : implicit n = false /\ signing_keys n = None /\ md_trx n = SignedTransaction t [] []).
  { unfold metadata_of_signed in Hn. bind_ok Hn as (pk & _ & Hn). by bind_ok Hn as (i & _ & [= <-]). }
  clear Hn. destruct Hn' as (Hi & Hk & Hm). cbn [push_transaction]. apply wpx_bind. apply wpx_ret.
  apply wpx_capture, wpx_bind, wpx_read_clock. set (p1 := Pushing _ _ _ _ _ _).
  apply wpx_in_transaction; [done|by split_and!|].
  assert (HE : forall (s : pushing * transaction_context), same_block p s.1 -> unchanged p (set_node (pu_node p1) s.1)).
  { intros [p2 c2] (E1 & E2 & E3). by split_and!. }
  eapply wpx_weaken; [intros e s; apply HE|].
  eapply wpx_mono; [apply (wpx_try p n _ (fun tk s => tk.2 = false /\ same_block p s.1))|].
  2: { intros tk s (G1 & G2 & _). done. }
  2: { intros [tr k] s [E1 E2]. cbn in E1 |- *. subst k. by apply HE. }
  apply wpx_bind. eapply (wpx_keeps steady); [apply steady_init_trx| |].
  2: { intros e s2 Hst. by eapply steady_same in Hst as [Hst _]. }
  intros [] [p2 c2] Hst. eapply steady_same in Hst as [Hp2 Hau]; [|by split_and!]. cbn in Hp2, Hau.
  apply wpx_bind, wpx_get. apply wpx_bind.
  eapply (wpx_keeps (fun s => s)); [destruct (_ && _); keeps_step| |intros e s ->; done].
  intros [] s ->. apply wpx_bind, wpx_tc_mod. rewrite Ha, Hi. cbn [negb andb].
  do 2 apply wpx_bind. apply wpx_beside. eapply wpx_weaken; [|eapply wpx_mono; [apply no_signatures_no_keys; [done|by rewrite Hm]|]].
  { intros e p3 ->. done. }
  intros ks p3 (-> & Hb3 & Hn3). pose proof (same_block_trans _ _ _ Hp2 Hb3) as Hp3.
  apply wpx_bind, wpx_get, wpx_bind, wpx_lift; [|done].
  intros [] Hc. exfalso. revert Hc. rewrite Hn3, Hau, Hm. 
  apply (notification_unauthorized _ hd a); try done.
Qed.

(** ** A transaction that succeeds *)
Definition receipted (m : transaction_metadata) (r : status_enum * Z * Z) (b : block_state) : block_state :=
  if implicit m then b
  else set_lists (fun l => l ++ [TransactionReceipt r.1.1 r.1.2 r.2 (inr (packed_bytes (md_packed m)))])
         (fun l => l ++ [signed_id m]) b.

Definition kept (g : setting) : bool := bool_decide (read_mode (g_conf g) = SPECULATIVE) || negb (producing_block g).

Definition concluded (g : setting) (m : transaction_metadata) (p0 : pushing) (tk : transaction_trace * bool)
    (p' : pushing) : Prop :=
  tk.2 = kept g /\ tr_except tk.1 = None /\ pu_unapplied p' ⊆ pu_unapplied p0 /\
  (implicit m = false -> signed_id m ∉ pu_unapplied p') /\
  exists r, tr_receipt tk.1 = Some r /\
    if kept g then pu_block p' = receipted m r (pu_block p0) /\ exists l, pu_actions p' = pu_actions p0 ++ l
    else pu_block p' = pu_block p0 /\ pu_actions p' = pu_actions p0.

Lemma conclude_trx_run g m p0 s : same_block p0 s.1 ->
  wpx (fun _ s' => same_block p0 s'.1) (conclude_trx g m) (fun tk s' => concluded g m p0 tk s'.1) s.
Proof.
  destruct s as [p c]. destruct p as [n [bh [h txs ext] v ic ids] acts un cache ticks].
  intros (B1 & B2 & B3). cbn in B1, B2, B3. unfold wpx, conclude_trx, restore_point. fold (kept g).
  unfold concluded, receipted, same_block. rewrite <- B1, <- B2. unfold push_receipt, resized, set_lists.
  unfold mbind, St_bind, beside, st_assert, lift, modify_st, mret, St_ret.
  destruct (implicit m) eqn:Hi; cbn -[u64 Z.div Z.mul u32]; [|destruct (u64 _ =? _); cbn -[u32 Z.div]].
  3: { rewrite !take_ge by done. by split_and!. }
  all: destruct (kept g); cbn; split_and!; try done; try set_solver.
  all: eexists; split; [done|]; rewrite ?take_app_length, ?take_ge by done.
  all: split; [done|]; done || by eexists.
Qed.

(** What a push leaves: nothing when it throws or reports an exception; one receipt, for a
    transaction that is not implicit, when it succeeds and the node keeps its effects. *)
Definition pushed (g : setting) (m : transaction_metadata) (p p' : pushing) (r : result transaction_trace) : Prop :=
  match r with
  | Throw _ => unchanged p p'
  | Ok t =>
      match tr_except t, tr_receipt t with
      | Some e, None => unchanged p p' /\ (failure_is_subjective e = false -> signed_id m ∉ pu_unapplied p')
      | None, Some r =>
          pu_unapplied p' ⊆ pu_unapplied p /\ (implicit m = false -> signed_id m ∉ pu_unapplied p') /\
          if kept g then pu_block p' = receipted m r (pu_block p) /\ exists l, pu_actions p' = pu_actions p ++ l
          else unchanged p p'
      | _, _ => False
      end
  end.


Lemma execution_run g m p s : same_block p s.1 ->
  wpx (fun _ s' => same_block p s'.1) (_ ← in_context (exec g); _ ← in_context (finalize g); conclude_trx g m)
    (fun tk s' => gave_up m p tk s'.1 \/ concluded g m p tk s'.1) s.
Proof.
  intros Hs. apply wpx_bind.
  eapply (wpx_keeps outside); [apply in_context_outside| |intros e s4 Ho; by eapply outside_same].
  intros [] s4 Ho4. pose proof (outside_same _ _ _ Ho4 Hs). apply wpx_bind.
  eapply (wpx_keeps outside); [apply in_context_outside| |intros e s5 Ho; by eapply outside_same].
  intros [] s5 Ho5. eapply wpx_mono; [apply conclude_trx_run; by eapply outside_same|intros; by right].
Qed.

Lemma recover_keys_beside g m p :
  wpx (fun _ p' => same_block p p' /\ pu_node p' = pu_node p) (md_recover_keys g m)
    (fun _ p' => same_block p p' /\ pu_node p' = pu_node p) p.
Proof.
  assert (Hp : same_block p p /\ pu_node p = pu_node p) by by split_and!.
  unfold md_recover_keys. destruct (signing_keys m) as [[i ks]|]; [destruct (decide _); [done|]|].
  all: apply wpx_capture; unfold wpx; by destruct (get_signature_keys _ _ _ _ _ _ _) as [c [ks'|e]].
Qed.

(** The authorization check and the notification. *)
Lemma authorize_run fuel g m p s : skip_sessions g = false -> skip_auth_check g = false ->
  guarded_db (ch_auth (nd_chain (pu_node s.1))) -> same_block p s.1 ->
  wpx (fun _ s' => same_block p s'.1)
    (keys ← beside (md_recover_keys g m);
     '(p, c) ← get;
     _ ← lift (check_authorization (ch_auth (nd_chain (pu_node p))) (trx_actions (st_trx (md_trx m)))
                 (asc_elements keys) [] (delay (tc_args c)) false);
     actor ← lift (notified_actor (st_trx (md_trx m)));
     t ← lift (get_on_upramusage_transaction (head_block_id g) (pending_time (pu_node p)) actor);
     n ← lift (metadata_of_signed (SignedTransaction t [] []));
     _ ← beside (push_transaction (S fuel) g n maximum_time 1 true);
     mret tt)
    (fun _ s' => same_block p s'.1) s.
Proof.
  intros Hs Ha Hg Hp. destruct s as [p2 c2]. cbn in Hg, Hp. apply wpx_bind, wpx_beside.
  eapply wpx_weaken; [|eapply wpx_mono; [apply recover_keys_beside|]].
  { intros e p3 [Hb _]. by eapply same_block_trans. }
  intros ks p3 (Hb3 & Hn3). pose proof (same_block_trans _ _ _ Hp Hb3) as Hp3.
  apply wpx_bind, wpx_get, wpx_bind, wpx_lift; [|done]. intros _ _.
  apply wpx_bind, wpx_lift; [|done]. intros a _.
  apply wpx_bind, wpx_lift; [|done]. intros t Ht.
  apply wpx_bind, wpx_lift; [|done]. intros n Hn.
  assert (Hend : forall p', unchanged p3 p' -> same_block p p').
  { intros p' (U1 & U2 & U3 & U4). eapply same_block_trans; [exact Hp3|]. by split_and!. }
  apply wpx_bind, wpx_beside. eapply wpx_weaken; [|eapply wpx_mono; [apply (notification_leaves_nothing fuel g (head_block_id g) a t n p3 Hs Ha); [by rewrite Hn3|exact Ht|exact Hn]|]].
  - intros e p'. apply Hend.
  - intros tr p' Hu. apply wpx_ret. by apply Hend.
Qed.

Lemma push_transaction_outcome fuel g m deadline billed explicit p : skip_sessions g = false ->
  (skip_auth_check g = false -> implicit m = false -> guarded_db (ch_auth (nd_chain (pu_node p)))) ->
  wpx (fun e p' => pushed g m p p' (Throw e)) (push_transaction (S (S fuel)) g m deadline billed explicit)
    (fun t p' => pushed g m p p' (Ok t)) p.
Proof.
  intros Hs Hg. remember (S fuel) as k eqn:Hk. cbn [push_transaction]. subst k. apply wpx_bind, wpx_lift; [|intros e _; apply unchanged_refl].
  intros [] _. apply wpx_capture, wpx_bind, wpx_read_clock.
  set (p1 := Pushing _ _ _ _ _ _). apply wpx_in_transaction; [done|by split_and!|].
  assert (HE : forall (s : pushing * transaction_context), same_block p s.1 -> unchanged p (set_node (pu_node p1) s.1)).
  { intros [p2 c2] (E1 & E2 & E3). by split_and!. }
  eapply wpx_weaken; [intros e s; apply HE|].
  eapply wpx_mono; [apply (wpx_try p m _ (fun tk s => gave_up m p tk s.1 \/ concluded g m p tk s.1))|].
  2: { intros tk s Hgu. by left. }
  2: { intros [tr kp] s [(G1 & G2 & G3 & e & G4 & G5)|(C1 & C2 & C3 & C4 & r & C5 & C6)]; cbn in * |-.
       - subst kp. cbn [fst snd pushed]. rewrite G3, G4. split; [by apply HE|done].
       - subst kp. cbn [fst snd pushed]. rewrite C2, C5. destruct (kept g), C6 as [D1 D2].
         + by split_and!.
         + split_and!; try done. }
  apply wpx_bind. eapply (wpx_keeps steady); [apply steady_init_trx| |].
  2: { intros e s2 Hst. by eapply steady_same in Hst as [Hst _]. }
  intros [] [p2 c2] Hst. eapply steady_same in Hst as [Hp2 Hau]; [|by split_and!]. cbn in Hp2, Hau.
  apply wpx_bind, wpx_get. apply wpx_bind.
  eapply (wpx_keeps (fun s => s)); [destruct (_ && _); keeps_step| |intros e s ->; done].
  intros [] s ->. apply wpx_bind, wpx_tc_mod. apply wpx_bind.
  eapply (wpx_mono _ _ (fun _ s' => same_block p s'.1)); [|intros [] s; apply execution_run].
  destruct (skip_auth_check g) eqn:Ha, (implicit m) eqn:Hi; cbn [negb andb]; try done.
  apply authorize_run; [exact Hs|exact Ha| |exact Hp2]. cbn [fst]. rewrite Hau. by apply Hg.
Qed.

(** ** The recursion ends

    Two runs agree when they agree on the states that are reached. *)
Lemma notification_fuel fuel g hd a t n p :
  skip_auth_check g = false -> guarded_db (ch_auth (nd_chain (pu_node p))) ->
  get_on_upramusage_transaction hd (pending_time (pu_node p)) a = Ok t ->
  metadata_of_signed (SignedTransaction t [] []) = Ok n ->
  push_transaction (S fuel) g n maximum_time 1 true p = push_transaction 1 g n maximum_time 1 true p.
Proof.
  intros Ha [Gw Gg Gd] Ht Hn.
  assert (Hn' : implicit n = false /\ signing_keys n = None /\ md_trx n = SignedTransaction t [] []).
  { unfold metadata_of_signed in Hn. bind_ok Hn as (pk & _ & Hn). by bind_ok Hn as (i & _ & [= <-]). }
  clear Hn. destruct Hn' as (Hi & Hk & Hm). cbn [push_transaction].
  apply bind_same. intros [] s1 [= <-]. apply capture_same, bind_same. intros st s1 [= <- <-].
  apply in_transaction_same, catch_same, bind_same. intros [] [p2 c2] Hinit.
  apply (f_equal fst) in Hinit. apply (f_equal steady) in Hinit. cbn [fst] in Hinit.
  rewrite (steady_init_trx g n) in Hinit. injection Hinit as _ _ _ Hau. cbn in Hau.
  apply bind_same. intros s2 s3 [= <- <-].
  apply bind_same. intros [] s4 H4.
  assert (s4 = (p2, c2)) as ->.
  { destruct (can_subjectively_fail _ && _); [|by injection H4]. unfold lift in H4. by injection H4. }
  apply bind_same. intros [] [p5 c5] H5.
  injection H5 as H5n H5c. apply (f_equal pu_node) in H5n. cbn in H5n. clear H4.
  apply bind_first. rewrite Ha, Hi. cbn [negb andb]. apply bind_same. intros ks [p6 c6] H6.
  assert (Hks : ks = ∅ /\ pu_node p6 = pu_node p5 /\ c6 = c5).
  { unfold beside in H6. destruct (md_recover_keys g n p5) as [p7 r] eqn:Hr. injection H6 as <- <- ->.
    pose proof (no_signatures_no_keys g n p5 Hk) as Hno. rewrite Hm in Hno. specialize (Hno eq_refl).
    unfold wpx in Hno. rewrite Hr in Hno. by destruct Hno as (E1 & _ & E2). }
  destruct Hks as (-> & H6n & ->). apply bind_same. intros s7 s8 [= <- <-]. apply lift_same. intros [] H9.
  exfalso. revert H9. rewrite H6n, <- H5n, <- Hau, <- H5c, Hm.
  apply (notification_unauthorized _ hd a); try done.
Qed.

Lemma push_transaction_fuel fuel g m deadline billed explicit p :
  (skip_auth_check g = false -> implicit m = false -> guarded_db (ch_auth (nd_chain (pu_node p)))) ->
  push_transaction (S (S fuel)) g m deadline billed explicit p = push_transaction 2 g m deadline billed explicit p.
Proof.
  intros Hg. remember (S fuel) as k eqn:Hk. remember 1%nat as k1 eqn:Hk1. cbn [push_transaction].
  apply lift_same. intros [] _. apply capture_same, bind_same. intros st s1 [= <- <-].
  apply in_transaction_same, catch_same, bind_same. intros [] [p2 c2] Hinit.
  apply (f_equal fst) in Hinit. apply (f_equal steady) in Hinit. cbn [fst] in Hinit.
  rewrite (steady_init_trx g m) in Hinit. injection Hinit as _ _ _ Hau. cbn in Hau.
  apply bind_same. intros s2 s3 [= <- <-].
  apply bind_same. intros [] s4 H4.
  assert (s4 = (p2, c2)) as ->.
  { destruct (can_subjectively_fail _ && _); [|by injection H4]. unfold lift in H4. by injection H4. }
  apply bind_same. intros [] [p5 c5] H5.
  assert (pu_node p5 = pu_node p2) as H5n by (injection H5 as <- _; done). clear H4 H5.
  apply bind_first. destruct (skip_auth_check g) eqn:Ha, (implicit m) eqn:Hi; cbn [negb andb]; [reflexivity..|].
  apply bind_same. intros ks [p6 c6] H6.
  assert (Hn6 : pu_node p6 = pu_node p5).
  { unfold beside in H6. destruct (md_recover_keys g m p5) as [p7 r] eqn:Hr. injection H6 as <- <- ->.
    pose proof (recover_keys_beside g m p5) as Hno. unfold wpx in Hno. rewrite Hr in Hno. apply Hno. }
  apply bind_same. intros s7 s8 [= <- <-].
  apply lift_same. intros [] _. apply lift_same. intros a _.
  apply lift_same. intros t Ht. apply lift_same. intros n Hn.
  apply bind_first, beside_same. subst k k1.
  apply (notification_fuel fuel g (head_block_id g) a t); [exact Ha| |exact Ht|exact Hn].
  rewrite Hn6, H5n, <- Hau. by apply Hg.
Qed.
End atomic.

(** C3 A push of a transaction with undo sessions leaves one receipt or nothing. When it
    throws or reports an exception, the tables, the block and its action digests are as
    before, and a failure that is not subjective drops the transaction from the queue of
    unapplied ones; when it succeeds, its receipt is the last of the block and its digests
    follow those of the block, unless the node does not keep speculative effects. The
    notification that each push starts is rejected at once, so its recursion ends after
    one level and leaves nothing. *)
Theorem push_transaction_atomic `{MetaSetLaws} `{TrxCrypto} `{Dispatch} (fuel : nat) (g : setting)
    (m : transaction_metadata) (deadline billed : Z) (explicit : bool) (p p' : pushing) (r : result transaction_trace) :
  skip_sessions g = false ->
  (skip_auth_check g = false -> implicit m = false -> guarded_db (ch_auth (nd_chain (pu_node p)))) ->
  push_transaction (S (S fuel)) g m deadline billed explicit p = (p', r) ->
  push_transaction 2 g m deadline billed explicit p = (p', r) /\ pushed g m p p' r.
Proof.
  intros Hs Hg Hr. split; [by rewrite <- (push_transaction_fuel fuel)|].
  pose proof (push_transaction_outcome fuel g m deadline billed explicit p Hs Hg) as Ho. unfold wpx in Ho.
  rewrite Hr in Ho. by destruct r.
Qed.

(** ** A transfer of the system account *)
Module TransferSample.
Export AuthSample BillingSample.
#[global] Existing Instance TrxSample.short_crypto.

Definition sample_block : block_state :=
  BlockState (Sample.genesis Sample.one) (SignedBlock signed_header_default [] []) true true [].
(** Its keys were recovered before. *)
Definition sample_metadata : transaction_metadata := Eval vm_compute in
  match metadata_of_signed (SignedTransaction sample_transfer [] []) with
  | Ok m => TransactionMetadata (md_id m) (signed_id m) (md_trx m) (md_packed m) (Some (digest_nil, {[7]})) false
  | Throw _ => TransactionMetadata digest_nil digest_nil (SignedTransaction sample_transfer [] [])
                 (PackedTransaction [] 0 [] []) None false
  end.
Definition transfer_before : pushing := Pushing sample_node sample_block [] {[signed_id sample_metadata]} [] 0.
Definition transfer_after : pushing := (push_transaction 3 validating sample_metadata maximum_time 0 false transfer_before).1.

Lemma genesis_guarded_db : guarded_db (ch_auth genesis).
Proof. split; [exact genesis_weights|exact genesis_guarded|by vm_compute]. Qed.
End TransferSample.
Import TransferSample.

Lemma push_transaction_atomic_witness : exists r,
  tr_receipt r = Some (executed, 100, 10) /\ pushed validating sample_metadata transfer_before transfer_after (Ok r).
Proof.
  destruct (push_transaction_atomic 1 validating sample_metadata maximum_time 0 false transfer_before transfer_after
    (Ok (TransactionTrace (Digest 2619 0 0 0) (Some (executed, 100, 10)) 80 false None))) as [_ Hp].
  - by vm_compute.
  - intros _ _. exact genesis_guarded_db.
  - vm_compute. reflexivity.
  - eexists. split; [|exact Hp]. reflexivity.
Defined.
