(* ===== verification/PushScheduled.v ===== *)
(** * Deferred transactions are retired once

    What [push_scheduled_transaction] leaves: a deferred transaction is executed, handed to
    the error handler of its sender, retired with a hard failure or expired, each with one
    receipt in the block; or nothing happens and it stays in the queue. *)
From S2P Require Import Prelude Merkle BlockHeaderState ForkDatabase BlockApply Raw Authority Transactions.
From S2P Require Import AuthorizationManager ResourceLimits NativeContract Controller TransactionContext.
From S2P Require Import PushTransaction PushAtomic.

Definition block_part (p : pushing) := (pu_block p, pu_actions p, pu_unapplied p).
Definition auth_part (p : pushing) : auth_db := ch_auth (nd_chain (pu_node p)).

(** The queue without a transaction. *)
Definition unqueued (gtrx : generated_transaction) (db : auth_db) : auth_db :=
  (set_generated (filter (fun o => gt_trx_id o <> gt_trx_id gtrx) (generated db)) db).1.

Definition receipt_for (gtrx : generated_transaction) (r : status_enum * Z * Z) : transaction_receipt :=
  TransactionReceipt r.1.1 r.1.2 r.2 (inl (gt_trx_id gtrx)).
Definition with_receipt (gtrx : generated_transaction) (r : status_enum * Z * Z) (b : block_state) : block_state :=
  set_lists (fun l => l ++ [receipt_for gtrx r]) (fun l => l) b.

Lemma push_receipt_run gtrx s us words p :
  wpx (fun _ p' => p' = p) (push_receipt (inl (gt_trx_id gtrx)) s us words)
    (fun r p' => r.1.1 = s /\ p' = set_block (with_receipt gtrx r (pu_block p)) p) p.
Proof.
  unfold push_receipt. apply wpx_bind, wpx_lift; [|done]. intros _ _. by apply wpx_bind.
Qed.

Lemma remove_scheduled_run gtrx p :
  wpx (fun _ p' => block_part p' = block_part p) (remove_scheduled_transaction gtrx)
    (fun _ p' => block_part p' = block_part p /\ auth_part p' = unqueued gtrx (auth_part p)) p.
Proof.
  unfold remove_scheduled_transaction, push_chain, wpx. unfold mbind at 1, St_bind, on_limits.
  by destruct (add_pending_ram_usage _ _ _) as [l [[]|e]].
Qed.

Section scheduled.
Context `{MetaSet} `{TrxCrypto} `{Dispatch}.

(** ** The end of a context *)
Definition recorded (gtrx : generated_transaction) (s : status_enum) (p0 : pushing) (t : transaction_trace)
    (p' : pushing) : Prop :=
  exists r l, tr_receipt t = Some r /\ tr_except t = None /\ r.1.1 = s /\
    block_part p' = (with_receipt gtrx r (pu_block p0), pu_actions p0 ++ l, pu_unapplied p0).

Lemma conclude_scheduled_run gtrx s scheduled p0 st : block_part st.1 = block_part p0 ->
  wpx (fun _ s' => block_part s'.1 = block_part p0) (conclude_scheduled (gt_trx_id gtrx) s scheduled)
    (fun t s' => recorded gtrx s p0 t s'.1) st.
Proof.
  destruct st as [p c]. intros [= B1 B2 B3]. unfold conclude_scheduled, restore_point, wpx.
  pose proof (push_receipt_run gtrx s (u64 (billed_cpu_time_us c)) (tc_net_usage c) p) as Hr. unfold wpx in Hr.
  unfold mbind, St_bind, get, beside. destruct (push_receipt _ _ _ _ p) as [p1 [r|e]]; cbn.
  - destruct Hr as [Hs ->]. exists r, (tc_executed c). split_and!; [done..|].
    unfold block_part. cbn. by rewrite B1, B2, B3.
  - subst p1. unfold block_part, resized. cbn. rewrite B1, B2, B3, take_ge by done. 
    by destruct (pu_block p0) as [? [] ? ? ?]; unfold set_lists; cbn; rewrite !take_ge.
Qed.

(** A context that runs, and is undone when it fails. *)
Definition attempted (gtrx : generated_transaction) (s : status_enum) (p0 : pushing)
    (r : transaction_trace + (exn * transaction_context * Z)) (p' : pushing) : Prop :=
  match r with
  | inl t => recorded gtrx s p0 t p'
  | inr _ => block_part p' = block_part p0 /\ auth_part p' = auth_part p0
  end.

Lemma failed_context_outside g e : keeps outside (failed_context g e).
Proof.
  unfold failed_context. apply keeps_bind; [by intros [p c]|]. intros t.
  apply keeps_bind; [apply in_context_outside|]. intros us. apply keeps_bind; [done|]. by intros [p c].
Qed.

Lemma attempt_run g gtrx s args billed m p : skip_sessions g = false ->
  wpx (fun _ st => block_part st.1 = block_part p) m
    (fun tk st => tk.2 = true /\ exists t, tk.1 = inl t /\ recorded gtrx s p t st.1) (set_validate_ram ∅ p, new_context args billed) ->
  wpx (fun _ p' => block_part p' = block_part p)
    (in_transaction g args billed (catch_fc m (fun e => f ← failed_context g e; mret (inr f, false))))
    (attempted gtrx s p) p.
Proof.
  intros Hs Hm. apply wpx_in_transaction; [done..|].
  apply (wpx_mono _ _ (fun tk st => (tk.2 = true /\ exists t, tk.1 = inl t /\ recorded gtrx s p t st.1) \/
                             (tk.2 = false /\ (exists f, tk.1 = inr f) /\ block_part st.1 = block_part p))).
  - apply wpx_catch. eapply wpx_weaken; [|eapply wpx_mono; [exact Hm|]].
    + intros e st Hst. cbn beta in Hst. destruct (fc_exception e); [|done]. apply wpx_bind.
      eapply (wpx_keeps outside); [apply failed_context_outside| |].
      * intros f st' Ho. apply wpx_ret. right. split; [done|]. split; [by eexists|]. by rewrite <- Hst.
      * intros e' st' Ho. by rewrite <- Hst.
    + intros tk st Ht. by left.
  - intros [r k] st [(Hk & t & Ht & Hr)|(Hk & (f & Hf) & Hb)]; cbn in Hk |- *; subst k; cbn in *; subst r; done.
Qed.

Lemma wpx_outside {A B} p0 (m : St world A) (k : A -> St (pushing * transaction_context) B) Q s :
  block_part s.1 = block_part p0 ->
  (forall a s', block_part s'.1 = block_part p0 -> wpx (fun _ st => block_part st.1 = block_part p0) (k a) Q s') ->
  wpx (fun _ st => block_part st.1 = block_part p0) (a ← in_context m; k a) Q s.
Proof.
  intros Hs Hk. apply wpx_bind. eapply (wpx_keeps outside); [apply in_context_outside| |].
  - intros a s' Ho. apply Hk. by rewrite <- Hs.
  - intros e s' Ho. by rewrite <- Hs.
Qed.

Lemma wpx_conclude gtrx s scheduled p0 st : block_part st.1 = block_part p0 ->
  wpx (fun _ s' => block_part s'.1 = block_part p0)
    (t ← conclude_scheduled (gt_trx_id gtrx) s scheduled;
     mret (M := St (pushing * transaction_context)) (inl t : transaction_trace + (exn * transaction_context * Z), true))
    (fun tk s' => tk.2 = true /\ exists t, tk.1 = inl t /\ recorded gtrx s p0 t s'.1) st.
Proof.
  intros Hs. apply wpx_bind. eapply wpx_mono; [by apply conclude_scheduled_run|].
  intros t s' Ht. apply wpx_ret. split; [done|]. by exists t.
Qed.

Lemma run_scheduled_run g gtrx dtrx deadline billed explicit p : skip_sessions g = false ->
  wpx (fun _ p' => block_part p' = block_part p) (run_scheduled g gtrx dtrx deadline billed explicit)
    (attempted gtrx executed p) p.
Proof.
  intros Hs. apply wpx_bind, wpx_read_clock. set (p1 := Pushing _ _ _ _ _ _).
  apply (attempt_run g gtrx executed _ _ _ p1); [done|].
  do 3 (apply wpx_outside; [done|]; intros ???). by apply wpx_conclude.
Qed.

Lemma apply_onerror_run g gtrx deadline start billed explicit p : skip_sessions g = false ->
  wpx (fun _ p' => block_part p' = block_part p) (apply_onerror g gtrx deadline start billed explicit)
    (attempted gtrx soft_fail p) p.
Proof.
  intros Hs. apply wpx_bind, wpx_get. apply wpx_bind, wpx_lift; [|done]. intros act _.
  apply wpx_bind, wpx_lift; [|done]. intros i _. apply attempt_run; [done|].
  do 4 (apply wpx_outside; [done|]; intros ???). by apply wpx_conclude.
Qed.

(** ** Failures *)
Lemma push_chain_limits {A} (m : St rl_db A) : keeps (fun p => (block_part p, auth_part p)) (push_chain (on_limits m)).
Proof. intros p. unfold push_chain, on_limits. by destruct (m _) as [l r]. Qed.
Lemma with_tc_auth {A} c (m : St world A) : keeps auth_of m ->
  keeps (fun p => (block_part p, auth_part p)) (with_tc c m).
Proof.
  intros Hm p. unfold with_tc. pose proof (in_context_auth m Hm (p, c)) as Hk.
  destruct (in_context m (p, c)) as [[p' c'] r]. injection Hk as K1 K2 K3 K4. cbn.
  unfold block_part, auth_part. by rewrite K1, K2, K3, K4.
Qed.

Lemma bill_hard_failure_run g gtrx c us explicit p :
  wpx (fun _ p' => block_part p' = block_part p) (bill_hard_failure g gtrx c us explicit)
    (fun r p' => r.1.1 = hard_fail /\ auth_part p' = auth_part p /\
       block_part p' = (with_receipt gtrx r (pu_block p), pu_actions p, pu_unapplied p)) p.
Proof.
  apply wpx_bind, wpx_get. apply wpx_bind.
  eapply (wpx_keeps (fun p => (block_part p, auth_part p))).
  { destruct explicit; [done|]. apply keeps_bind; [apply push_chain_limits|]. intros _.
    apply keeps_bind; [|done]. apply with_tc_auth, auth_max_bandwidth. }
  2: { intros e p' Hp. by apply (f_equal fst) in Hp. }
  intros us' p1 Hp1. apply wpx_bind. eapply (wpx_keeps (fun p => (block_part p, auth_part p))); [apply push_chain_limits| |].
  2: { intros e p2 Hp2. rewrite Hp1 in Hp2. by apply (f_equal fst) in Hp2. }
  intros [] p2 Hp2. rewrite Hp1 in Hp2. injection Hp2 as B1 B2 B3 Ha.
  eapply wpx_weaken; [|eapply wpx_mono; [apply push_receipt_run|]].
  - intros e p3 ->. unfold block_part. congruence.
  - intros r p3 [Hr ->]. split_and!; [done..|]. unfold block_part. cbn. congruence.
Qed.

(** What a push of a deferred transaction leaves. *)
Definition retired (gtrx : generated_transaction) (p p' : pushing) (t : transaction_trace) : Prop :=
  exists s us words, tr_receipt t = Some (s, us, words) /\
    pu_block p' = with_receipt gtrx (s, us, words) (pu_block p) /\ pu_unapplied p' = pu_unapplied p /\
    match s with
    | executed | soft_fail => tr_except t = None /\ exists l, pu_actions p' = pu_actions p ++ l
    | hard_fail => tr_except t <> None /\ pu_actions p' = pu_actions p /\ auth_part p' = unqueued gtrx (auth_part p)
    | expired => tr_except t = None /\ pu_actions p' = pu_actions p /\ auth_part p' = unqueued gtrx (auth_part p)
    | delayed => False
    end.

Definition waits (explicit : bool) (p p' : pushing) (t : transaction_trace) : Prop :=
  tr_receipt t = None /\ pu_node p' = pu_node p /\ block_part p' = block_part p /\
  exists e, tr_except t = Some e /\
    (if explicit then failure_is_subjective e else scheduled_failure_is_subjective e) = true.

(** The same inside the session, before it is squashed or undone. *)
Definition retiring (gtrx : generated_transaction) (explicit : bool) (p : pushing) (tk : transaction_trace * bool)
    (p' : pushing) : Prop :=
  if tk.2 then retired gtrx p p' tk.1 else waits explicit p (set_node (pu_node p) p') tk.1.

Lemma recorded_retiring gtrx explicit s p p1 t p' : s = executed \/ s = soft_fail -> block_part p1 = block_part p ->
  recorded gtrx s p1 t p' -> retiring gtrx explicit p (t, true) p'.
Proof.
  intros Hs [= B1 B2 B3] (r & l & Hr & He & Hrs & [= C1 C2 C3]). destruct r as [[s' us] words]. cbn in Hrs. subst s'.
  exists s, us, words. rewrite C1, C2, C3, B1, B2, B3. split_and!; [done..|].
  destruct Hs as [-> | ->]; (split; [done|]; by exists l).
Qed.

Lemma retire_failed_run g gtrx deadline billed explicit e c us p p1 : skip_sessions g = false ->
  block_part p1 = block_part p -> auth_part p1 = unqueued gtrx (auth_part p) ->
  wpx (fun _ p' => block_part p' = block_part p) (retire_failed g gtrx deadline billed explicit e c us)
    (retiring gtrx explicit p) p1.
Proof.
  intros Hs Hb Ha. apply wpx_bind. rewrite <- Hb.
  apply (wpx_mono _ _ (attempted gtrx soft_fail p1)).
  { destruct (_ && _); [by apply apply_onerror_run|]. by apply wpx_ret. }
  intros [t|[[e' ce] us']] p2 Hp2.
  { apply wpx_ret. eapply recorded_retiring; [by right|done|done]. }
  destruct Hp2 as [Hb2 Ha2]. rewrite <- Hb2.
  destruct (if explicit then failure_is_subjective e' else scheduled_failure_is_subjective e') eqn:Hsub; cbn [negb].
  - apply wpx_ret. split_and!; [done..| |by exists e'].
    unfold block_part in *. cbn. congruence.
  - apply wpx_bind. eapply wpx_mono; [apply bill_hard_failure_run|].
    intros [[s us2] words] p3 (Hr & Ha3 & [= C1 C2 C3]). cbn in Hr. subst s. apply wpx_ret.
    exists hard_fail, us2, words. unfold block_part in *. split_and!; [done| | |done| |]; congruence.
Qed.

Lemma push_scheduled_outcome g gtrx deadline billed explicit p : skip_sessions g = false ->
  wpx (fun _ p' => pu_node p' = pu_node p /\ block_part p' = block_part p)
    (push_scheduled g gtrx deadline billed explicit)
    (fun t p' => retired gtrx p p' t \/ waits explicit p p' t) p.
Proof.
  intros Hs. apply wpx_capture. unfold wpx. rewrite in_session_run by done.
  match goal with |- context [match ?m p with _ => _ end] => assert (Hm : wpx (fun _ p' => block_part p' = block_part p) m (retiring gtrx explicit p) p) end.
  2: { unfold wpx in Hm. destruct ((_ : St pushing (transaction_trace * bool)) p) as [p' [[t []]|e]]; [by left|by right|].
       split; [done|]. by destruct p'. }
  apply wpx_bind. eapply wpx_mono; [apply remove_scheduled_run|]. intros [] p1 [Hb Ha].
  apply wpx_bind, wpx_get. apply wpx_bind, wpx_lift; [|done]. intros [] _.
  apply wpx_bind, wpx_lift; [|done]. intros dtrx _. destruct (_ <? _).
  - apply wpx_bind. eapply wpx_weaken; [|eapply wpx_mono; [apply push_receipt_run|]].
    + by intros e p2 ->.
    + intros [[s us] words] p2 [Hr ->]. cbn in Hr. subst s. injection Hb as B1 B2 B3. apply wpx_ret.
      exists expired, us, words. cbn. rewrite B1. by split_and!.
  - set (g' := requiring_checks g). apply wpx_bind.
    assert (Hs' : skip_sessions g' = false) by apply andb_false_r.
    eapply wpx_weaken; [|eapply wpx_mono; [by apply run_scheduled_run|]].
    + intros e p2. by rewrite Hb.
    + intros [t|[[e c] us]] p2 Hp2.
      * apply wpx_ret. eapply recorded_retiring; [by left|done|done].
      * destruct Hp2 as [Hb2 Ha2]. apply retire_failed_run; [done|congruence|congruence].
Qed.
End scheduled.

(** C4 A push of a deferred transaction, with undo sessions, retires it or leaves it. When
    it throws, or reports a failure of the node rather than of the transaction, the tables,
    the block and the queue are as before. Otherwise the block ends with one receipt of the
    transaction: it was executed, or its failure was handled by its sender ([soft_fail]),
    or it failed for good or expired, and then it has left the queue and no action of it is
    in the block. *)
Theorem push_scheduled_retires `{MetaSet} `{TrxCrypto} `{Dispatch} (g : setting) (trxid : digest)
    (deadline billed : Z) (explicit : bool) (p p' : pushing) (r : result transaction_trace) :
  skip_sessions g = false ->
  push_scheduled_transaction g trxid deadline billed explicit p = (p', r) ->
  match r with
  | Throw _ => pu_node p' = pu_node p /\ block_part p' = block_part p
  | Ok t => exists gtrx, find_generated (auth_part p) trxid = Some gtrx /\
              (retired gtrx p p' t \/ waits explicit p p' t)
  end.
Proof.
  intros Hs Hr. unfold push_scheduled_transaction in Hr. unfold mbind, St_bind, get in Hr.
  change (find_generated (ch_auth (nd_chain (pu_node p))) trxid) with (find_generated (auth_part p) trxid) in Hr.
  destruct (find_generated (auth_part p) trxid) as [gtrx|]; cbn [lift of_option] in Hr; [|by injection Hr as <- <-].
  pose proof (push_scheduled_outcome g gtrx deadline billed explicit p Hs) as Ho. unfold wpx in Ho.
  unfold lift in Hr. rewrite Hr in Ho. destruct r as [t|e]; [|done]. by exists gtrx.
Qed.

(** ** A deferred transfer of the system account *)
Module DeferredSample.
Export TransferSample.
Definition deferred : generated_transaction :=
  GeneratedTransaction (md_id sample_metadata) 0 0 system_account_name 0 2000000 0 (packed_trx (md_packed sample_metadata)).
Definition deferred_limits : rl_db :=
  let l := nd_limits sample_node in
  (add_pending_ram_usage system_account_name 1000 l).1.
Definition deferred_node : node :=
  let c := nd_chain sample_node in
  set_chain (Chain (set_generated [deferred] (ch_auth c)).1 deferred_limits (ch_accounts c) (ch_sequences c)
    (ch_validate_ram c) (ch_used_authorizations c)) sample_node.
Definition deferred_before : pushing := Pushing deferred_node sample_block [] ∅ [] 0.
Definition deferred_after : pushing :=
  (push_scheduled_transaction validating (md_id sample_metadata) maximum_time 0 false deferred_before).1.
End DeferredSample.
Import DeferredSample.

Lemma push_scheduled_retires_witness : exists t, tr_receipt t = Some (executed, 100, 0) /\
  (retired deferred deferred_before deferred_after t \/ waits false deferred_before deferred_after t).
Proof.
  destruct (push_scheduled_retires validating (md_id sample_metadata) maximum_time 0 false deferred_before deferred_after
    (Ok (TransactionTrace (Digest 2619 0 0 0) (Some (executed, 100, 0)) 0 true None))) as (gtrx & Hg & Hp).
  - by vm_compute.
  - vm_compute. reflexivity.
  - assert (gtrx = deferred) as ->.
    { assert (Hf : find_generated (auth_part deferred_before) (md_id sample_metadata) = Some deferred) by (vm_compute; reflexivity).
      rewrite Hf in Hg. by injection Hg as <-. }
    eexists. split; [|exact Hp]. reflexivity.
Defined.
