(* ===== verification/PushOverdrawn.v ===== *)
(** * Hard failures of overdrawn accounts

    The last step of a failed deferred transaction bills its accounts; it fails itself when
    one of them is above its share of the bandwidth. *)
From S2P Require Import Prelude Merkle BlockHeaderState ForkDatabase BlockApply Raw Authority Transactions.
From S2P Require Import AuthorizationManager ResourceLimits NativeContract Controller TransactionContext TrxBilling.
From S2P Require Import PushTransaction PushAtomic PushScheduled.

(** The decayed use of the account is above its share. *)
Definition overdrawn (db : rl_db) (slot a : Z) : Prop :=
  let window := account_net_usage_average_window (rl_config db) in
  exists u l, rl_usage db !! a = Some u /\ accumulator_ok (net_usage u) /\
    get_account_limits a db = (db, Ok l) /\ 0 <= net_weight l /\ 0 < total_net_weight (rl_state db) /\
    max_user_use_in_window (virtual_net_limit (rl_state db)) window (net_weight l) (total_net_weight (rl_state db)) <
      used_in_window (decayed (net_usage u) slot window) window.

(** What an account's billing depends on. *)
Definition view (a : Z) (db : rl_db) :=
  (rl_config db, rl_state db, rl_limits db, rl_pending db, rl_usage db !! a).

Lemma overdrawn_view a slot db db' : view a db' = view a db -> overdrawn db slot a -> overdrawn db' slot a.
Proof.
  destruct db as [c s li pe us], db' as [c' s' li' pe' us']. unfold view.
  cbn [rl_config rl_state rl_limits rl_pending rl_usage].
  intros [= -> -> -> -> E5] (u & l & Hu & Hok & Hl & Hr). exists u, l. cbn in *. rewrite E5.
  split; [done|]. split; [done|]. split; [|done].
  revert Hl. unfold get_account_limits, get_limits. run_st. cbn.
  destruct (pe !! a) as [x|]; cbn; [congruence|]. destruct (li !! a) as [y|]; cbn; congruence.
Qed.

Lemma view_set_usage a b u : a <> b -> keeps (view a) (set_usage b u).
Proof. intros Hab. apply keeps_modify. intros db. unfold view. cbn. by rewrite lookup_insert_ne. Qed.
Lemma view_add_usage a b net us slot : a <> b -> keeps (view a) (add_usage b net us slot).
Proof. intros Hab. unfold add_usage, get_usage. pose proof (view_set_usage a b) as Hset. keeps_step; by apply Hset. Qed.
Lemma view_bill_account a b us net slot : a <> b -> keeps (view a) (bill_account us net slot b).
Proof.
  intros Hab. unfold bill_account, get_usage, get_account_limits, get_limits, check_share.
  pose proof (view_add_usage a b net us slot Hab). keeps_step.
Qed.

(** The accumulator after an update. *)
Lemma accumulator_add_zero slot window u n : accumulator_ok u -> 0 <= slot < 2 ^ 32 -> 0 < window < 2 ^ 32 ->
  accumulator_add 0 slot window u = Ok n ->
  accumulator_ok n /\ value_ex n = decayed u slot window /\ decayed n slot window = decayed u slot window.
Proof.
  intros Hu Hs Hw (Hle & Hok & ->)%accumulator_add_inv; [|done..]. split; [done|]. cbn [value_ex].
  assert (div_ceil (0 * rate_limiting_precision) window = 0) as ->.
  { pose proof (div_ceil_bounds (0 * rate_limiting_precision) window ltac:(lia)). nia. }
  rewrite Z.add_0_r. split; [done|]. unfold decayed at 1. cbn. by rewrite Z.eqb_refl.
Qed.

(** An update that succeeds. *)
Lemma add_usage_inv b net us slot db db' : add_usage b net us slot db = (db', Ok tt) ->
  exists u n c, rl_usage db !! b = Some u /\
    accumulator_add net slot (account_net_usage_average_window (rl_config db)) (net_usage u) = Ok n /\
    db' = RlDb (rl_config db) (rl_state db) (rl_limits db) (rl_pending db)
            (<[b := ResourceUsageObject n c (ram_usage u)]> (rl_usage db)).
Proof.
  unfold add_usage, get_usage, set_usage. run_st. destruct (rl_usage db !! b) as [u|]; [|done]. cbn [of_option].
  destruct (accumulator_add net _ _ _) as [n|e] eqn:Hn; [|done].
  destruct (accumulator_add us _ _ _) as [c|e]; [|done]. cbn. intros [= <-]. exists u, n, c. by rewrite insert_insert_eq.
Qed.

Lemma limits_of_account a db us :
  get_account_limits a (RlDb (rl_config db) (rl_state db) (rl_limits db) (rl_pending db) us) =
    (RlDb (rl_config db) (rl_state db) (rl_limits db) (rl_pending db) us, (get_account_limits a db).2).
Proof.
  unfold get_account_limits, get_limits, mbind, St_bind, get, lift.
  cbn [rl_pending rl_limits]. destruct (rl_pending db !! a); done.
Qed.

Lemma update_overdrawn slot a b db db' : 0 <= slot < 2 ^ 32 -> windows_ok db -> overdrawn db slot a ->
  add_usage b 0 0 slot db = (db', Ok tt) -> overdrawn db' slot a /\ windows_ok db'.
Proof.
  intros Hs Hw Ho Hb. destruct (decide (a = b)) as [->|Hab].
  2: { pose proof (view_add_usage a b 0 0 slot Hab db) as Hv. rewrite Hb in Hv. cbn in Hv.
       split; [by eapply overdrawn_view|]. injection Hv as E1 _. destruct Hw. split; by rewrite E1. }
  destruct Ho as (u & l & Hu & Hok & Hl & Hr). apply add_usage_inv in Hb as (u' & n & c & Hu' & Hn & ->).
  assert (u' = u) as -> by congruence. pose proof Hw as [_ Hwn]. assert (rate_limiting_precision = 1000000) by done.
  apply accumulator_add_zero in Hn as (Hnok & _ & Hd); [|done|done|lia].
  split; [|by destruct Hw]. eexists _, l. cbn. rewrite lookup_insert_eq. split; [done|]. split; [done|].
  split; [by rewrite limits_of_account, Hl|]. cbn. by rewrite Hd.
Qed.

Lemma bill_overdrawn us slot a db : 0 <= slot < 2 ^ 32 -> windows_ok db -> overdrawn db slot a ->
  exists db' e, bill_account us 0 slot a db = (db', Throw e).
Proof.
  intros Hs Hw (u & l & Hu & Hok & Hl & Hwt & Ht & Hr). unfold bill_account.
  assert (Hg : forall db x, rl_usage db !! a = Some x -> get_usage a db = (db, Ok x)).
  { intros db0 x Hx. unfold get_usage, mbind, St_bind, get, lift. by rewrite Hx. }
  rewrite (St_bind_run _ _ _ _ _ (Hg _ _ Hu)), (St_bind_run _ _ _ _ _ Hl).
  unfold mbind at 1, St_bind at 1. destruct (add_usage a 0 us slot db) as [db1 [[]|e]] eqn:Ha; [|by eexists _, _].
  apply add_usage_inv in Ha as (u' & n & c & Hu' & Hn & ->). assert (u' = u) as -> by congruence.
  destruct Hw as [_ Hwn]. assert (rate_limiting_precision = 1000000) by done.
  apply accumulator_add_zero in Hn as (_ & Hv & _); [|done|done|lia].
  rewrite (St_bind_run get _ _ _ _ eq_refl). erewrite (St_bind_run (get_usage a)).
  2: { apply Hg. apply lookup_insert_eq. }
  cbn [rl_usage rl_config rl_state net_usage cpu_usage]. unfold mbind, St_bind.
  destruct (check_share (cpu_weight l) _ _ _ _ _ _) as [db2 [[]|e]]; [|by eexists _, _].
  unfold check_share. rewrite Hv. replace ((0 <=? net_weight l) && _) with true by (symmetry; apply andb_true_iff; lia).
  unfold st_assert, lift. replace (_ <=? _) with false by lia. by eexists _, _.
Qed.

Lemma bill_loop_overdrawn us slot a l db : 0 <= slot < 2 ^ 32 -> windows_ok db -> overdrawn db slot a -> a ∈ l ->
  exists db' e, for_each (bill_account us 0 slot) l db = (db', Throw e).
Proof.
  revert db. induction l as [|b l IH]; intros db Hs Hw Ho Hl; [by apply elem_of_nil in Hl|].
  cbn [for_each]. unfold mbind, St_bind. destruct (decide (a = b)) as [->|Hab].
  { destruct (bill_overdrawn us slot b db) as (db' & e & ->); [done..|]. by eexists _, _. }
  apply elem_of_cons in Hl as [Hl|Hl]; [done|]. pose proof (view_bill_account a b us 0 slot Hab db) as Hv.
  destruct (bill_account us 0 slot b db) as [db1 [[]|e]]; [|by eexists _, _]. cbn in Hv.
  apply IH; [done| |by eapply overdrawn_view|done]. injection Hv as E1 _. destruct Hw. split; by rewrite E1.
Qed.

Lemma update_loop_overdrawn slot a l db db' : 0 <= slot < 2 ^ 32 -> windows_ok db -> overdrawn db slot a ->
  update_account_usage l slot db = (db', Ok tt) -> overdrawn db' slot a /\ windows_ok db'.
Proof.
  intros Hs. unfold update_account_usage. revert db. induction l as [|b l IH]; intros db Hw Ho; cbn [for_each].
  { by intros [= <-]. }
  rewrite St_bind_ok. intros ([] & db1 & Hb & Hl). destruct (update_overdrawn slot a b db db1) as [Ho1 Hw1]; [done..|].
  by apply (IH db1).
Qed.

Lemma push_chain_ok {A} (m : St rl_db A) p p' (r : result A) : push_chain (on_limits m) p = (p', r) ->
  m (nd_limits (pu_node p)) = (nd_limits (pu_node p'), r).
Proof. unfold push_chain, on_limits, nd_limits. destruct (m _) as [l r']. by intros [= <- <-]. Qed.

Lemma with_tc_bandwidth `{Dispatch} g c p p' b :
  with_tc c (max_bandwidth_billed_accounts_can_pay g true) p = (p', Ok b) -> pu_node p' = pu_node p.
Proof.
  unfold with_tc, in_context. destruct (max_bandwidth_billed_accounts_can_pay g true _) as [w r] eqn:Hm.
  intros [= <- ->]. unfold max_bandwidth_billed_accounts_can_pay in Hm. rewrite St_bind_ok in Hm.
  destruct Hm as (l & w1 & [= <- <-] & Hm). apply bandwidth_loop_affords in Hm as (-> & _); [done|by left].
Qed.

(** Retiring a failed deferred transaction can fail: when one of the accounts that pay is
    above its share of the network bandwidth, billing it nothing still throws, explicitly
    billed or not. No receipt is pushed, so that the transaction is not retired. *)
Theorem overdrawn_hard_failure `{MetaSet} `{TrxCrypto} `{Dispatch} (g : setting) (gtrx : generated_transaction)
    (c : transaction_context) (us : Z) (explicit : bool) (p : pushing) (a : account_name) :
  0 <= pending_slot (pu_node p) < 2 ^ 32 -> windows_ok (nd_limits (pu_node p)) ->
  a ∈ bill_to_accounts c -> overdrawn (nd_limits (pu_node p)) (pending_slot (pu_node p)) a ->
  exists p' e, bill_hard_failure g gtrx c us explicit p = (p', Throw e) /\ block_part p' = block_part p.
Proof.
  intros Hs Hw Ha Ho. pose proof (bill_hard_failure_run g gtrx c us explicit p) as Hr. unfold wpx in Hr.
  destruct (bill_hard_failure g gtrx c us explicit p) as [p' [r|e]] eqn:Hb; [exfalso|by eexists _, _].
  clear Hr. unfold bill_hard_failure in Hb. rewrite (St_bind_run get _ _ _ _ eq_refl), St_bind_ok in Hb.
  destruct Hb as (us' & p1 & H1' & Hb). rewrite St_bind_ok in Hb. destruct Hb as ([] & p2 & H2' & _).
  assert (Ho1 : overdrawn (nd_limits (pu_node p1)) (pending_slot (pu_node p)) a /\ windows_ok (nd_limits (pu_node p1))).
  { destruct explicit; [by injection H1' as <- _|]. rewrite St_bind_ok in H1'. destruct H1' as ([] & p3 & H3 & H1').
    rewrite St_bind_ok in H1'. destruct H1' as (b & p4 & H4 & H1'). injection H1' as <- _.
    apply with_tc_bandwidth in H4 as ->. apply push_chain_ok in H3. by eapply update_loop_overdrawn. }
  destruct Ho1 as [Ho1 Hw1]. apply push_chain_ok in H2'. unfold add_transaction_usage in H2'.
  rewrite St_bind_ok in H2'. destruct H2' as ([] & db1 & Hf & _).
  destruct (bill_loop_overdrawn us' (pending_slot (pu_node p)) a (asc_elements (bill_to_accounts c)) (nd_limits (pu_node p1)))
    as (db' & e & He); [done..|by apply elem_of_asc_elements|]. congruence.
Qed.


(** ** An account above its share *)
Module OverdrawnSample.
Export DeferredSample.
(** The system account holds one of the million shares and has used the capacity of one
    block in this slot. *)
Definition overdrawn_usage : resource_usage_object :=
  ResourceUsageObject (UsageAccumulator (pending_slot sample_node) 6000000000 1000000) accumulator_init 0.
Definition overdrawn_limits : rl_db :=
  let l := nd_limits sample_node in let s := rl_state l in
  RlDb (rl_config l)
    (ResourceLimitsState (average_block_net_usage s) (average_block_cpu_usage s) 0 0 1000000000 0 0
       (virtual_net_limit s) (virtual_cpu_limit s))
    (<[system_account_name := ResourceLimitsObject 1 (-1) (-1)]> (rl_limits l)) ∅
    (<[system_account_name := overdrawn_usage]> (rl_usage l)).
Definition overdrawn_node : node :=
  let c := nd_chain sample_node in
  set_chain (Chain (ch_auth c) overdrawn_limits (ch_accounts c) (ch_sequences c) (ch_validate_ram c)
    (ch_used_authorizations c)) sample_node.
Definition overdrawn_pushing : pushing := Pushing overdrawn_node sample_block [] ∅ [] 0.

Lemma system_overdrawn : overdrawn overdrawn_limits (pending_slot overdrawn_node) system_account_name.
Proof.
  exists overdrawn_usage, (ResourceLimitsObject 1 (-1) (-1)). split; [by vm_compute|]. split; [by split; vm_compute|].
  split; [vm_compute; reflexivity|]. by vm_compute.
Qed.
End OverdrawnSample.
Import OverdrawnSample.

Lemma overdrawn_hard_failure_witness : exists p' e,
  bill_hard_failure validating deferred (w_tc after_exec) 100 false overdrawn_pushing = (p', Throw e) /\
  block_part p' = block_part overdrawn_pushing.
Proof.
  apply (overdrawn_hard_failure validating deferred (w_tc after_exec) 100 false overdrawn_pushing system_account_name).
  - by vm_compute.
  - by split; vm_compute.
  - by vm_compute.
  - exact system_overdrawn.
Defined.
