(* ===== verification/PackSize.v ===== *)
(** * What packing and unpacking guarantee

    Arrays and lists are bounded when they are packed, so that whatever can be packed at
    all has a bounded size; and whatever can be unpacked fits its types, so that it can be
    packed again. *)
From S2P Require Import Prelude Raw Transactions.

(** Something that sends at most [bound] bytes, or fails whatever the stream. *)
Definition bounded (m : forall S, Stream S -> St S unit) (bound : Z) : Prop :=
  (exists cs, (forall S (H : Stream S) (s : S), m S H s = for_each write cs s) /\ blen cs <= bound) \/
  forall S (H : Stream S) (s : S), exists e, (m S H s).2 = Throw e.
Definition sized {A} (c : codec A) (bound : Z) : Prop := forall a, bounded (fun S H => pack c a) bound.

Lemma bounded_weaken m b b' : b <= b' -> bounded m b -> bounded m b'.
Proof. intros Hb [(cs & ? & ?)|?]; [left|by right]. exists cs. split; [done|lia]. Qed.
Lemma bounded_ret : bounded (fun S H => mret tt) 0.
Proof. left. by exists []. Qed.
Lemma bounded_write d : bounded (fun S H => write d) (Z.of_nat (length d)).
Proof.
  left. exists [d]. split; [|unfold blen; cbn; rewrite app_nil_r; lia]. intros S H s. cbn. unfold mbind, St_bind.
  by destruct (write d s) as [s' [[]|e]].
Qed.
(** One after another: a failure of either is a failure of both. *)
Lemma bounded_seq m k b1 b2 : bounded m b1 -> bounded k b2 -> bounded (fun S H => _ ← m S H; k S H) (b1 + b2).
Proof.
  intros [(cs1 & E1 & L1)|F1]; [intros [(cs2 & E2 & L2)|F2]|intros _].
  - left. exists (cs1 ++ cs2). split; [|rewrite blen_app; lia]. intros S H s. by apply for_each_seq.
  - right. intros S H s. unfold mbind, St_bind. rewrite E1.
    destruct (for_each write cs1 s) as [s1 [[]|e]]; [apply F2|by exists e].
  - right. intros S H s. destruct (F1 S H s) as [e He]. unfold mbind, St_bind.
    destruct (m S H s) as [s1 [a|e']]; [done|by exists e'].
Qed.
Lemma bounded_assert (c : bool) k b : (c = true -> bounded k b) -> bounded (fun S H => _ ← fc_assert c; k S H) b.
Proof.
  intros Hk. destruct c; [apply (Hk eq_refl)|]. right. intros S H s. by eexists.
Qed.
Lemma bounded_for_each {A} (f : A -> forall S, Stream S -> St S unit) b l : 0 <= b -> (forall a, bounded (f a) b) ->
  bounded (fun S H => for_each (fun a => f a S H) l) (Z.of_nat (length l) * b).
Proof.
  intros Hb Hf. induction l as [|a l IH]; [apply bounded_ret|]. cbn [for_each length].
  eapply bounded_weaken; [|apply (bounded_seq _ _ _ _ (Hf a) IH)]. lia.
Qed.

Lemma sized_weaken {A} (c : codec A) b b' : b <= b' -> sized c b -> sized c b'.
Proof. intros Hb Hc a. by eapply bounded_weaken. Qed.
Lemma sized_uint n : sized (c_uint n) (Z.of_nat n).
Proof.
  intros v. eapply bounded_weaken; [|apply (bounded_write (le_bytes n v))]. by rewrite (proj2 (le_bytes_ok n v)).
Qed.
Lemma sized_pair {A B} (c1 : codec A) (c2 : codec B) b1 b2 : sized c1 b1 -> sized c2 b2 -> sized (c_pair c1 c2) (b1 + b2).
Proof. intros H1 H2 [x y]. exact (bounded_seq _ _ _ _ (H1 x) (H2 y)). Qed.
Lemma sized_struct {A B} (f : A -> B) (g : B -> A) c b : sized c b -> sized (c_struct f g c) b.
Proof. intros Hc a. apply (Hc (f a)). Qed.
Lemma bounded_varint fuel : forall val, bounded (fun S H => pack_varint fuel val) (Z.of_nat fuel).
Proof.
  induction fuel as [|fuel IH]; intros val; cbn [pack_varint]; [right; intros S H s; by eexists|].
  replace (Z.of_nat (S fuel)) with (1 + Z.of_nat fuel) by lia.
  apply (bounded_seq (fun S H => write _)); [apply (bounded_write [_])|].
  destruct (_ =? 0); [|apply IH]. eapply bounded_weaken; [|apply bounded_ret]. lia.
Qed.
Lemma sized_unsigned : sized c_unsigned_int 10.
Proof. intros v. apply (bounded_varint max_groups). Qed.
Lemma sized_bytes : sized c_bytes (10 + MAX_SIZE_OF_BYTE_ARRAYS).
Proof.
  intros v. apply bounded_assert. intros Hl. bool_to_prop.
  apply (bounded_seq (fun S H => pack c_unsigned_int _)); [apply sized_unsigned|].
  destruct (_ =? 0)%nat; [eapply bounded_weaken; [|apply bounded_ret]; done|].
  eapply bounded_weaken; [|apply bounded_write]. done.
Qed.
Lemma sized_vector {A} (c : codec A) b : 0 <= b -> sized c b -> sized (c_vector c) (10 + MAX_NUM_ARRAY_ELEMENTS * b).
Proof.
  intros Hb Hc v. apply bounded_assert. intros Hl. bool_to_prop.
  apply (bounded_seq (fun S H => pack c_unsigned_int _)); [apply sized_unsigned|].
  eapply bounded_weaken; [|apply (bounded_for_each (fun a S H => pack c a) b v Hb Hc)]. nia.
Qed.

Lemma sized_action : sized c_action (2 ^ 26).
Proof.
  eapply sized_weaken; [|apply sized_struct, sized_pair, sized_pair, sized_pair, sized_bytes;
    [apply sized_uint..|apply (sized_vector _ 16); [done|]; apply (sized_struct _ _ _ 16), (sized_pair _ _ 8 8); apply sized_uint]].
  done.
Qed.
Lemma sized_header : sized c_transaction_header 31.
Proof.
  apply sized_struct, (sized_pair _ _ 4 27), (sized_pair _ _ 2 25), (sized_pair _ _ 4 21), (sized_pair _ _ 10 11),
    (sized_pair _ _ 1 10); first [apply sized_uint|apply sized_unsigned].
Qed.
Lemma sized_transaction : sized c_transaction (2 ^ 48).
Proof.
  eapply sized_weaken; [|apply sized_struct, sized_pair, sized_pair, sized_pair, sized_vector;
    [apply sized_header|apply (sized_vector _ (2 ^ 26)); [done|apply sized_action]..| |apply sized_pair, sized_bytes; apply sized_uint]]; done.
Qed.

(** ** Whole values *)
Lemma count_chunks cs : forall n, 0 <= n -> exists n', for_each write cs n = (n', Ok tt) /\ 0 <= n' <= n + blen cs.
Proof.
  induction cs as [|d cs IH]; intros n Hn; [exists n; split; [done|unfold blen; cbn; lia]|].
  cbn [for_each write size_stream]. run_st. destruct (IH (u64 (n + Z.of_nat (length d)))) as (n' & Hn' & Hb).
  { apply u64_range. }
  exists n'. split; [done|]. assert (u64 (n + Z.of_nat (length d)) <= n + Z.of_nat (length d)) by (apply Z.mod_le; lia).
  unfold blen in *. cbn. rewrite length_app. lia.
Qed.
Lemma fill_chunks cs : forall b b', 0 <= room b -> for_each write cs b = (b', Ok tt) ->
  0 <= room b' /\ Z.of_nat (length (written b')) + room b' = Z.of_nat (length (written b)) + room b.
Proof.
  induction cs as [|d cs IH]; intros b b' Hb; cbn [for_each]; [by intros [= <-]|].
  rewrite St_bind_ok. intros ([] & b1 & Hw & Hr). cbn in Hw.
  destruct (i32 _ <=? room b); [|done]. destruct (_ <=? room b) eqn:E; [|done]. injection Hw as <-. bool_to_prop.
  apply IH in Hr as [Hr1 Hr2]; cbn in *; [|lia]. rewrite length_app in Hr2. split; [done|lia].
Qed.
Lemma pack_value_bound {A} (c : codec A) b a d : sized c b -> pack_value c a = Ok d -> Z.of_nat (length d) <= b.
Proof.
  intros Hc Hd. destruct (Hc a) as [(cs & Hcs & Hl)|Hf].
  - unfold pack_value, pack_size in Hd. rewrite !Hcs in Hd.
    destruct (count_chunks cs 0 ltac:(done)) as (n & Hn & Hb). rewrite Hn in Hd. cbn in Hd.
    destruct (n =? 0) eqn:E; [injection Hd as <-; cbn; lia|]. rewrite Hcs in Hd.
    destruct (for_each write cs (Buffer [] n)) as [b' [[]|e]] eqn:Eb; [|discriminate Hd]. injection Hd as <-.
    apply fill_chunks in Eb as [H1 H2]; cbn in *; [|lia]. rewrite length_app, repeat_length. lia.
  - unfold pack_value, pack_size in Hd. destruct (Hf Z _ 0) as [e He]. destruct (pack c a 0) as [n r]. cbn in He. by subst r.
Qed.

(** ** Unpacked values *)

(** What unpacking gives, from bytes. *)
Definition yields {A} (c : codec A) (P : A -> Prop) : Prop :=
  forall d d' a, Forall byte_ok d -> unpack c d = (d', Ok a) -> Forall byte_ok d' /\ P a.
Lemma le_value_in_range d : Forall byte_ok d -> 0 <= le_value d < 256 ^ Z.of_nat (length d).
Proof.
  induction d as [|b d IH]; intros Hd; [cbn; lia|]. apply Forall_cons in Hd as [Hb Hd]. specialize (IH Hd).
  unfold byte_ok in Hb. cbn [le_value length]. rewrite Nat2Z.inj_succ, Z.pow_succ_r by lia. lia.
Qed.
Lemma yields_uint n : yields (c_uint n) (fun v => 0 <= v < 256 ^ Z.of_nat n).
Proof.
  intros d d' v Hd. cbn [unpack c_uint]. rewrite St_bind_ok. intros (x & d1 & Hr & [= <- <-]). unfold read in Hr.
  destruct (n <=? length d)%nat eqn:E; [|done]. injection Hr as <- <-. apply Nat.leb_le in E. split; [by apply Forall_drop|].
  pose proof (le_value_in_range (take n d) (Forall_take _ _ _ Hd)) as Hl. by rewrite length_take_le in Hl.
Qed.
Lemma yields_pair {A B} (c1 : codec A) (c2 : codec B) P Q : yields c1 P -> yields c2 Q ->
  yields (c_pair c1 c2) (fun x => P x.1 /\ Q x.2).
Proof.
  intros H1 H2 d d' x Hd. cbn [unpack c_pair]. rewrite St_bind_ok. intros (a & d1 & Ha & Hr).
  rewrite St_bind_ok in Hr. destruct Hr as (b & d2 & Hb & [= <- <-]). destruct (H1 _ _ _ Hd Ha) as [Hd1 HP].
  destruct (H2 _ _ _ Hd1 Hb) as [Hd2 HQ]. done.
Qed.
Lemma yields_struct {A B} (f : A -> B) (h : B -> A) c P Q : yields c P -> (forall x, P x -> Q (h x)) -> yields (c_struct f h c) Q.
Proof.
  intros Hc HQ d d' a Hd. cbn [unpack c_struct]. rewrite St_bind_ok. intros (x & d1 & Hx & [= <- <-]).
  destruct (Hc _ _ _ Hd Hx) as [Hd1 HP]. auto.
Qed.
Lemma unpack_unsigned_yields fuel : forall v by_ d d' a, Forall byte_ok d -> unpack_unsigned fuel v by_ d = (d', Ok a) ->
  Forall byte_ok d' /\ 0 <= a < 2 ^ 32.
Proof.
  induction fuel as [|fuel IH]; intros v by_ d d' a Hd; cbn [unpack_unsigned]; [done|].
  rewrite St_bind_ok. intros (b & d1 & Hb & Hr). destruct d as [|b' d]; [done|]. injection Hb as <- <-.
  apply Forall_cons in Hd as [_ Hd]. cbv zeta in Hr. destruct (_ && _); [by eapply IH|].
  injection Hr as <- <-. split; [done|apply u32_range].
Qed.
Lemma yields_unsigned : yields c_unsigned_int (fun v => 0 <= v < 2 ^ 32).
Proof. intros d d' a Hd. by apply unpack_unsigned_yields. Qed.
Lemma yields_bytes : yields c_bytes bytes_valid.
Proof.
  intros d d' a Hd. cbn [unpack c_bytes]. rewrite St_bind_ok. intros (n & d1 & Hn & Hr).
  destruct (yields_unsigned _ _ _ Hd Hn) as [Hd1 Hn1].
  unfold fc_assert, st_assert, lift, bes_assert, mbind, St_bind in Hr.
  destruct (n <=? MAX_SIZE_OF_BYTE_ARRAYS) eqn:E; [|done]. bool_to_prop. destruct (n =? 0).
  - injection Hr as <- <-. split; [done|]. by vm_compute.
  - unfold read in Hr. destruct (_ <=? length d1)%nat eqn:El; [|done]. apply Nat.leb_le in El. injection Hr as <- <-.
    split; [by apply Forall_drop|]. split; [rewrite length_take; lia|by apply Forall_take].
Qed.
Lemma unpack_n_yields {A} (c : codec A) P n : yields c P -> forall d d' l, Forall byte_ok d -> unpack_n c n d = (d', Ok l) ->
  Forall byte_ok d' /\ length l = n /\ Forall P l.
Proof.
  intros Hc. induction n as [|n IH]; intros d d' l Hd; cbn [unpack_n]; [by intros [= <- <-]|].
  rewrite St_bind_ok. intros (x & d1 & Hx & Hr). rewrite St_bind_ok in Hr. destruct Hr as (l' & d2 & Hl & [= <- <-]).
  destruct (Hc _ _ _ Hd Hx) as [Hd1 HP]. destruct (IH _ _ _ Hd1 Hl) as (Hd2 & Hlen & Hall).
  split; [done|]. split; [cbn; by rewrite Hlen|by constructor].
Qed.
Lemma yields_vector {A} (c : codec A) P : yields c P -> yields (c_vector c) (few P).
Proof.
  intros Hc d d' l Hd. cbn [unpack c_vector]. rewrite St_bind_ok. intros (n & d1 & Hn & Hr).
  destruct (yields_unsigned _ _ _ Hd Hn) as [Hd1 Hn1].
  unfold fc_assert, st_assert, lift, bes_assert, mbind, St_bind in Hr.
  destruct (n <=? MAX_NUM_ARRAY_ELEMENTS) eqn:E; [|done]. bool_to_prop.
  destruct (unpack_n_yields c P _ Hc _ _ _ Hd1 Hr) as (Hd2 & Hl & Hall). split; [done|]. split; [lia|done].
Qed.

Lemma yields_name : yields c_name name_valid.
Proof. exact (yields_uint 8). Qed.
Lemma yields_level : yields c_permission_level level_valid.
Proof. eapply yields_struct; [apply yields_pair; apply yields_name|]. by intros [a p]. Qed.
Lemma yields_action : yields c_action action_valid.
Proof.
  eapply yields_struct; [apply yields_pair, yields_pair, yields_pair, yields_bytes; [apply yields_name..|apply yields_vector, yields_level]|].
  by intros (a & n & au & d).
Qed.
Lemma yields_header : yields c_transaction_header header_valid.
Proof.
  eapply yields_struct; [apply yields_pair, yields_pair, yields_pair, yields_pair, yields_pair, yields_unsigned;
    first [apply yields_unsigned|apply yields_uint]|].
  by intros (e & n & p & w & m & d).
Qed.
Lemma yields_transaction : yields c_transaction transaction_valid.
Proof.
  eapply yields_struct; [apply yields_pair, yields_pair, yields_pair, yields_vector;
    [apply yields_header|apply yields_vector, yields_action..|apply yields_pair, yields_bytes; apply yields_uint]|].
  by intros (h & c & a & e).
Qed.

(** ** Claims *)

(** C21 Whatever bytes a peer or a contract sends, what unpacks as a transaction is one: every
    field fits its type, lists and data are within the limits of serialization. It
    therefore packs again, and the result unpacks to the same transaction, although it
    need not be the bytes that were sent. *)
Theorem received_transaction_typed (d : bytes) (t : transaction) :
  Forall byte_ok d -> unpack_value c_transaction d = Ok t ->
  transaction_valid t /\ exists d', pack_value c_transaction t = Ok d' /\ Z.of_nat (length d') <= 2 ^ 48 /\
    unpack_value c_transaction d' = Ok t.
Proof.
  intros Hd. unfold unpack_value. destruct (unpack c_transaction d) as [rest r] eqn:E. cbn. intros ->.
  destruct (yields_transaction _ _ _ Hd E) as [_ Ht]. split; [done|].
  destruct (pack_value_ok _ _ _ t c_transaction_ok ltac:(done) Ht) as (d' & Hp & _ & Hl & _ & Hu).
  exists d'. split; [done|]. split; [done|]. specialize (Hu []). by rewrite app_nil_r in Hu.
Qed.

(** A number that takes two bytes where one would do. *)
Definition long_form : bytes := [1; 0; 0; 0; 2; 0; 3; 0; 0; 0; 128; 0; 4; 5; 0; 0; 0].
Lemma received_transaction_typed_witness : exists t d', unpack_value c_transaction long_form = Ok t /\ transaction_valid t /\
  pack_value c_transaction t = Ok d' /\ unpack_value c_transaction d' = Ok t /\ d' <> long_form.
Proof.
  exists (Transaction (TransactionHeader 1 2 3 0 4 5) [] [] []).
  destruct (received_transaction_typed long_form (Transaction (TransactionHeader 1 2 3 0 4 5) [] [] [])) as (Hv & d' & Hp & _ & Hu).
  - repeat constructor; done.
  - vm_compute. reflexivity.
  - exists d'. split; [vm_compute; reflexivity|]. split; [exact Hv|]. split; [exact Hp|]. split; [exact Hu|].
    intros ->. vm_compute in Hp. discriminate Hp.
Defined.
