(* ===== verification/ApplyContext.v ===== *)
(** * Executing actions

    Model of [apply_context::exec] and its callers ([chain/apply_context.cpp],
    [apply_context.hpp], [transaction_context.cpp]): receivers and notifications, native
    handlers and contracts, inline and deferred actions, receipts. A contract is a program
    of calls of the host, chosen by the WebAssembly runtime ([Wasm]); the calls that change
    state are those of [chain/wasm_interface.cpp]. *)
From S2P Require Import Prelude ContractTables Merkle BlockHeaderState BlockApply Names Raw Authority Transactions.
From S2P Require Import AuthorizationManager ResourceLimits NativeContract Controller TransactionContext.

(** ** Receipts *)
Record action_receipt := ActionReceipt {
  ar_receiver : account_name;
  ar_act_digest : digest;
  ar_global_sequence : Z;
  ar_recv_sequence : Z;
  ar_auth_sequence : gmap Z Z;
  ar_code_sequence : Z;
  ar_abi_sequence : Z
}.
Definition c_sequences : codec (list (Z * Z)) := c_vector (c_pair c_name (c_uint 8)).
Definition c_receipt : codec (Z * (digest * (Z * (Z * (list (Z * Z) * (Z * Z)))))) :=
  c_pair c_name (c_pair c_digest (c_pair (c_uint 8) (c_pair (c_uint 8) (c_pair c_sequences
    (c_pair c_unsigned_int c_unsigned_int))))).

(** ** The context *)

(** [used_authorizations] is kept with the tables; the action, whether it is context free
    and its depth do not change. *)
Record apply_context := ApplyContext {
  ap_receiver : account_name;
  ap_privileged : bool;
  ap_notified : list account_name;
  ap_inline_actions : list action;
  ap_cfa_inline_actions : list action;
  ap_keyval_cache : iterator_cache;
  ap_idx64_cache : iterator_cache;
  ap_idx128_cache : iterator_cache
}.
Definition new_apply_context (receiver : account_name) : apply_context :=
  ApplyContext receiver false [] [] [] new_cache new_cache new_cache.
Record applying := Applying { ap_world : world; ap_ctx : apply_context }.

(** ** Contracts *)
Inductive host_call :=
| CallChecktime
| CallRequireAuth (account : account_name)
| CallRequireAuth2 (account : account_name) (permission : permission_name)
| CallRequireRecipient (recipient : account_name)
| CallSendInline (data : bytes)
| CallSendContextFreeInline (data : bytes)
| CallSendDeferred (sender_id : Z) (payer : account_name) (data : bytes) (replace_existing : bool)
| CallCancelDeferred (sender_id : Z)
| CallDb (k : db_call)
| CallSetResourceLimits (account : account_name) (ram net cpu : Z)
| CallSetBlockchainParameters (data : bytes)
| CallSetPrivileged (account : account_name) (is_priv : bool).

(** What a contract does next may depend on everything; it returns (or exits), traps or
    fails an assertion, or calls the host. *)
Inductive program :=
| Return
| Trap (e : exn)
| Then (k : host_call) (next : applying -> program).

(** The runtime: whether the code was compiled before, its compilation, and its
    execution for a receiver and an action. *)
Class Wasm := {
  wasm_cached : world -> digest -> bool;
  wasm_compile : bytes -> result unit;
  wasm_apply : bytes -> account_name -> action -> applying -> program
}.

Definition env_at `{NativeEnv} (g : setting) : NativeEnv := {|
  conf := conf;
  is_producing_block := producing_block g;
  code_hash := code_hash;
  validate_code := validate_code
|}.

Section apply.
Context `{MetaSet} `{TrxCrypto} `{NativeEnv} `{Wasm} (g : setting).

Notation W := (St world).
Notation A := (St applying).

Definition in_world {T} (m : W T) : A T := fun s =>
  let '(w, r) := m (ap_world s) in (Applying w (ap_ctx s), r).
Definition ctx : A apply_context := gets ap_ctx.
Definition ctx_mod (f : apply_context -> apply_context) : A unit :=
  modify_st (fun s => Applying (ap_world s) (f (ap_ctx s))).

(** ** Authorization of inline and deferred actions

    [check_authorization] with [checktime] for a callback. *)
Fixpoint timed_auths (db : auth_db) (act : action) (special : bool) (delay : Z)
    (auths : list permission_level) (m : delays) : W delays :=
  match auths with
  | [] => mret m
  | declared_auth :: auths =>
      _ ← checktime g;
      _ ← lift (if special then mret tt else check_minimum db act declared_auth);
      timed_auths db act special delay auths (add_level declared_auth delay m)
  end.
Fixpoint timed_actions (db : auth_db) (effective : Z) (acts : list action) (m : delays) : W delays :=
  match acts with
  | [] => mret m
  | act :: acts =>
      m ← (match check_special db act effective with
           | Some r => delay ← lift r; timed_auths db act true delay (act_authorization act) m
           | None => timed_auths db act false effective (act_authorization act) m
           end);
      timed_actions db effective acts m
  end.
Fixpoint timed_levels (ck : checker) (l : list (permission_level * Z)) (used : list bool) : W (list bool) :=
  match l with
  | [] => mret used
  | (level, delay) :: l =>
      _ ← checktime g;
      let '(used, r) := satisfied_level (with_delay delay ck) level used in
      b ← lift r;
      _ ← st_assert b unsatisfied_authorization;
      timed_levels ck l used
  end.
Definition timed_check_authorization (acts : list action) (perms : list permission_level) (provided_delay : Z)
    : W unit :=
  w ← get;
  let db := ch_auth (nd_chain (w_node w)) in
  let effective := effective_delay db provided_delay in
  let ck := make_checker db [] perms effective in
  levels ← timed_actions db effective acts ∅;
  used ← timed_levels ck (level_items levels) (initial_marks ck);
  st_assert (all_keys_used used) tx_irrelevant_sig.

Definition is_account (n : node) (a : account_name) : bool := bool_decide (is_Some (ch_accounts (nd_chain n) !! a)).

(** Every declared authorization names an account and a permission that exist. *)
Definition check_inline_auth (n : node) (l : permission_level) : result unit :=
  _ ← bes_assert (is_account n (actor l)) action_validate_exception;
  p ← find_permission (ch_auth (nd_chain n)) l;
  bes_assert (bool_decide (is_Some p)) action_validate_exception.

Definition execute_inline (a : action) : A unit :=
  s ← get;
  let w := ap_world s in
  let n := w_node w in
  let c := ap_ctx s in
  _ ← st_assert (is_account n (act_account a)) action_validate_exception;
  _ ← lift (for_all (check_inline_auth n) (act_authorization a));
  _ ← (if negb (skip_auth_check g) && negb (ap_privileged c) && negb (act_account a =? ap_receiver c) then
         in_world (timed_check_authorization [a] [PermissionLevel (ap_receiver c) besio_code_name]
                     (pending_time n - published (tc_args (w_tc w))))
       else mret tt);
  ctx_mod (fun c => ApplyContext (ap_receiver c) (ap_privileged c) (ap_notified c) (ap_inline_actions c ++ [a])
                      (ap_cfa_inline_actions c) (ap_keyval_cache c) (ap_idx64_cache c) (ap_idx128_cache c)).

Definition execute_context_free_inline (a : action) : A unit :=
  s ← get;
  _ ← st_assert (is_account (w_node (ap_world s)) (act_account a)) action_validate_exception;
  _ ← st_assert (bool_decide (act_authorization a = [])) action_validate_exception;
  ctx_mod (fun c => ApplyContext (ap_receiver c) (ap_privileged c) (ap_notified c) (ap_inline_actions c)
                      (ap_cfa_inline_actions c ++ [a]) (ap_keyval_cache c) (ap_idx64_cache c) (ap_idx128_cache c)).

(** ** Recipients *)
Definition require_recipient (recipient : account_name) : A unit :=
  ctx_mod (fun c => if decide (recipient ∈ ap_notified c) then c else
    ApplyContext (ap_receiver c) (ap_privileged c) (ap_notified c ++ [recipient]) (ap_inline_actions c)
      (ap_cfa_inline_actions c) (ap_keyval_cache c) (ap_idx64_cache c) (ap_idx128_cache c)).

(** ** Deferred transactions *)
Section action.
Context (act : action) (context_free : bool).

Fixpoint mark_used_level (account : account_name) (permission_ : permission_name) (auths : list permission_level)
    (used : list bool) : option (list bool) :=
  match auths, used with
  | l :: auths, u :: used =>
      if (actor l =? account) && (permission l =? permission_) then Some (true :: used)
      else cons u <$> mark_used_level account permission_ auths used
  | _, _ => None
  end.
Definition require_authorization2 (account : account_name) (permission_ : permission_name) : St chain unit :=
  c ← get;
  match mark_used_level account permission_ (act_authorization act) (ch_used_authorizations c) with
  | Some used => modify_st (fun c => Chain (ch_auth c) (ch_limits c) (ch_accounts c) (ch_sequences c)
                                       (ch_validate_ram c) used)
  | None => throw missing_auth_exception
  end.

Definition onto_chain {T} (m : St chain T) : A T := in_world (TransactionContext.on_chain m).

(** A transaction with the id or the sender's id of another one is no new object. *)
Definition create_generated (gto : generated_transaction) : St auth_db unit :=
  db ← get;
  _ ← st_assert (forallb (fun o => negb (bool_decide (gt_trx_id o = gt_trx_id gto)) &&
                    negb (by_sender_id (gt_sender gto) (gt_sender_id gto) o)) (generated db)) logic_error;
  set_generated (generated db ++ [gto]).
Definition replace_generated (sender : account_name) (sender_id : Z)
    (f : generated_transaction -> generated_transaction) : St auth_db unit :=
  db ← get;
  set_generated (map (fun o => if by_sender_id sender sender_id o then f o else o) (generated db)).

Definition schedule_deferred_transaction (sender_id : Z) (payer : account_name) (trx : transaction)
    (replace_existing : bool) : A unit :=
  _ ← st_assert (bool_decide (context_free_actions trx = [])) cfa_inside_generated_tx;
  s ← get;
  let n := w_node (ap_world s) in
  let c := ap_ctx s in
  let cfg := nd_config n in
  let h := set_reference_block (head_block_id g) (trx_header trx) in
  let trx := Transaction (TransactionHeader (u32 (Z.quot (pending_time n + 999999) 1000000)) (ref_block_num h)
                (ref_block_prefix h) (max_net_usage_words h) (max_cpu_usage_ms h) (delay_sec h))
               (context_free_actions trx) (trx_actions trx) (transaction_extensions trx) in
  _ ← lift (validate_referenced_accounts (nd_chain n) trx);
  _ ← in_world (add_net_usage g (u64 (cc_base_per_transaction_net_usage cfg + transaction_id_net_usage)));
  let delay := seconds (delay_sec (trx_header trx)) in
  _ ← (if negb (skip_auth_check g) && negb (ap_privileged c) then
         _ ← (if negb (payer =? ap_receiver c) then onto_chain (require_authorization act payer) else mret tt);
         if existsb (fun a => negb (act_account a =? ap_receiver c)) (trx_actions trx) then
           in_world (timed_check_authorization (trx_actions trx) [PermissionLevel (ap_receiver c) besio_code_name] delay)
         else mret tt
       else mret tt);
  packed ← lift (pack_value c_transaction trx);
  let published := pending_time n in
  let delay_until := published + delay in
  let expiration := delay_until + seconds (cc_deferred_trx_expiration_window cfg) in
  _ ← (if existsb (by_sender_id (ap_receiver c) sender_id) (generated (ch_auth (nd_chain n))) then
         _ ← st_assert replace_existing deferred_tx_duplicate;
         _ ← st_assert (negb (producing_block g)) subjective_block_production_exception;
         onto_chain (on_auth (replace_generated (ap_receiver c) sender_id (fun o =>
           GeneratedTransaction (gt_trx_id o) (ap_receiver c) sender_id payer delay_until expiration published packed)))
       else
         id ← lift (trx_id trx);
         onto_chain (on_auth (create_generated
           (GeneratedTransaction id (ap_receiver c) sender_id payer delay_until expiration published packed))));
  _ ← st_assert (@is_ram_billing_in_notify_allowed (env_at g) || (ap_receiver c =? act_account act)
                 || (ap_receiver c =? payer) || ap_privileged c) subjective_block_production_exception;
  onto_chain (add_ram_usage payer (generated_transaction_object_size + u32 (Z.of_nat (length packed)))).

(** ** Calls of a contract *)

(** The database interface on the tables of the node and the iterators of the context. *)
Definition table_context (s : applying) : context :=
  let n := w_node (ap_world s) in
  let t := nd_tables n in
  let c := ap_ctx s in
  Context (nd_chain n) (cr_tables t) (cr_next_table t) (Store (cr_keyval t).1 (cr_keyval t).2 (ap_keyval_cache c))
    (Store (cr_idx64 t).1 (cr_idx64 t).2 (ap_idx64_cache c)) (Store (cr_idx128 t).1 (cr_idx128 t).2 (ap_idx128_cache c))
    (ap_receiver c) (ap_privileged c) act.
Definition set_table_context (k : context) (s : applying) : applying :=
  let w := ap_world s in
  let n := w_node w in
  let c := ap_ctx s in
  let rows_of {V} (t : store V) := (rows t, next_row t) in
  Applying
    (World (Node (cx_chain k) (nd_config n) (nd_transactions n) (nd_summaries n) (nd_global_sequence n)
              (ContractRows (cx_tables k) (cx_next_table k) (rows_of (cx_keyval k)) (rows_of (cx_idx64 k))
                 (rows_of (cx_idx128 k)))) (w_tc w) (w_ticks w))
    (ApplyContext (ap_receiver c) (ap_privileged c) (ap_notified c) (ap_inline_actions c) (ap_cfa_inline_actions c)
       (ContractTables.cache (cx_keyval k)) (ContractTables.cache (cx_idx64 k)) (ContractTables.cache (cx_idx128 k))).
Definition db_access (k : db_call) : A unit := fun s =>
  let '(t, r) := @run_call (env_at g) k (table_context s) in (set_table_context t s, r).

(** The constructors of the classes of the interface. *)
Definition aware (m : A unit) : A unit :=
  _ ← st_assert (negb context_free) unaccessible_api; m.
Definition privileged_api (m : A unit) : A unit :=
  aware (c ← ctx; _ ← st_assert (ap_privileged c) unaccessible_api; m).

Definition set_resource_limits (account : account_name) (ram net cpu : Z) : A unit :=
  _ ← st_assert (-1 <=? ram) wasm_execution_error;
  _ ← st_assert (-1 <=? net) wasm_execution_error;
  _ ← st_assert (-1 <=? cpu) wasm_execution_error;
  decreased ← onto_chain (on_limits (set_account_limits account ram net cpu));
  if decreased : bool then
    onto_chain (modify_st (fun c => Chain (ch_auth c) (ch_limits c) (ch_accounts c) (ch_sequences c)
                             ({[account]} ∪ ch_validate_ram c) (ch_used_authorizations c)))
  else mret tt.

Definition c_chain_config : codec chain_config :=
  let u4 := c_uint 4 in
  c_struct
    (fun c => (cc_max_block_net_usage c, (cc_target_block_net_usage_pct c, (cc_max_transaction_net_usage c,
       (cc_base_per_transaction_net_usage c, (cc_net_usage_leeway c, (cc_context_free_discount_net_usage_num c,
       (cc_context_free_discount_net_usage_den c, (cc_max_block_cpu_usage c, (cc_target_block_cpu_usage_pct c,
       (cc_max_transaction_cpu_usage c, (cc_min_transaction_cpu_usage c, (cc_max_transaction_lifetime c,
       (cc_deferred_trx_expiration_window c, (cc_max_transaction_delay c, (cc_max_inline_action_size c,
       (cc_max_inline_action_depth c, cc_max_authority_depth c)))))))))))))))))
    (fun '(a, (b, (c, (d, (e, (f, (h, (i, (j, (k, (l, (m, (n, (o, (p, (q, r)))))))))))))))) =>
       ChainConfig a b c d e f h i j k l m n o p q r)
    (c_pair (c_uint 8) (c_pair u4 (c_pair u4 (c_pair u4 (c_pair u4 (c_pair u4 (c_pair u4 (c_pair u4 (c_pair u4
    (c_pair u4 (c_pair u4 (c_pair u4 (c_pair u4 (c_pair u4 (c_pair u4 (c_pair (c_uint 2) (c_uint 2))))))))))))))))).

(** The authorization manager reads two of the parameters from its own state. *)
Definition set_blockchain_parameters_packed (data : bytes) : A unit :=
  cfg ← lift (unpack_value c_chain_config data);
  _ ← lift (validate_config cfg);
  in_world (node_mod (fun n =>
    let c := nd_chain n in
    let a := ch_auth c in
    Node (Chain (AuthDb (permissions a) (next_permission a) (usages a) (next_usage a) (links a) (generated a)
                   (pending_block_time a) (cc_max_authority_depth cfg) (cc_max_transaction_delay cfg))
            (ch_limits c) (ch_accounts c) (ch_sequences c) (ch_validate_ram c) (ch_used_authorizations c))
      cfg (nd_transactions n) (nd_summaries n) (nd_global_sequence n) (nd_tables n))).

Definition send_action (f : action -> A unit) (data : bytes) : A unit :=
  s ← get;
  _ ← st_assert (Z.of_nat (length data) <? cc_max_inline_action_size (nd_config (w_node (ap_world s)))) inline_action_too_big;
  a ← lift (unpack_value c_action data);
  f a.

Definition run_host (k : host_call) : A unit :=
  match k with
  | CallChecktime => in_world (checktime g)
  | CallRequireAuth a => aware (onto_chain (require_authorization act a))
  | CallRequireAuth2 a p => aware (onto_chain (require_authorization2 a p))
  | CallRequireRecipient a => aware (require_recipient a)
  | CallSendInline d => aware (send_action execute_inline d)
  | CallSendContextFreeInline d => aware (send_action execute_context_free_inline d)
  | CallSendDeferred i p d b => aware (capture_and_rethrow (
      t ← lift (unpack_value c_transaction d); schedule_deferred_transaction i p t b))
  | CallCancelDeferred i => aware (c ← ctx; _ ← onto_chain (cancel_deferred_transaction i (ap_receiver c)); mret tt)
  | CallDb k => aware (db_access k)
  | CallSetResourceLimits a r n c => privileged_api (set_resource_limits a r n c)
  | CallSetBlockchainParameters d => privileged_api (set_blockchain_parameters_packed d)
  | CallSetPrivileged a b => privileged_api (onto_chain (set_privileged a b))
  end.

Fixpoint run_program (p : program) : A unit :=
  match p with
  | Return => mret tt
  | Trap e => throw e
  | Then k next => _ ← run_host k; s ← get; run_program (next s)
  end.

(** ** One receiver *)
Definition check_lists (receiver : account_name) : A unit :=
  s ← get;
  if can_subjectively_fail (tc_args (w_tc (ap_world s))) && producing_block g then
    _ ← lift (check_contract_list conf receiver);
    lift (check_action_list conf (act_account act) (act_name act))
  else mret tt.

(** The time of a compilation is not billed. *)
Definition get_instantiated_module (code_id : digest) (code : bytes) : A unit :=
  s ← get;
  if wasm_cached (ap_world s) code_id then mret tt else
  _ ← in_world (pause_billing_timer g);
  _ ← in_world (resume_billing_timer g);
  lift (wasm_compile code).

Definition set_privileged_flag (b : bool) (c : apply_context) : apply_context :=
  ApplyContext (ap_receiver c) b (ap_notified c) (ap_inline_actions c) (ap_cfa_inline_actions c)
    (ap_keyval_cache c) (ap_idx64_cache c) (ap_idx128_cache c).
Definition set_receiver (r : account_name) (c : apply_context) : apply_context :=
  ApplyContext r (ap_privileged c) (ap_notified c) (ap_inline_actions c) (ap_cfa_inline_actions c)
    (ap_keyval_cache c) (ap_idx64_cache c) (ap_idx128_cache c).

(** The native handler and the contract of the receiver. The account is a reference, so its
    code is the one after the native handler. *)
Definition run_receiver : A unit :=
  c ← ctx;
  let receiver := ap_receiver c in
  a ← onto_chain (get_account receiver);
  _ ← ctx_mod (set_privileged_flag (ac_privileged a));
  _ ← (match @find_apply_handler (env_at g) receiver (act_account act) (act_name act) with
       | Some native => _ ← check_lists receiver; onto_chain (native act)
       | None => mret tt
       end);
  a ← onto_chain (get_account receiver);
  let is_setcode := (act_account act =? system_account_name) && (act_name act =? setcode_name)
                    && (receiver =? system_account_name) in
  if bool_decide (ac_code a <> []) && negb is_setcode then
    _ ← check_lists receiver;
    _ ← get_instantiated_module (ac_code_version a) (ac_code a);
    s ← get;
    run_program (wasm_apply (ac_code a) receiver act s)
  else mret tt.

Definition next_global_sequence : A Z :=
  _ ← in_world (node_mod (fun n => Node (nd_chain n) (nd_config n) (nd_transactions n) (nd_summaries n)
                                     (u64 (nd_global_sequence n + 1)) (nd_tables n)));
  s ← get; mret (nd_global_sequence (w_node (ap_world s))).
Definition get_sequences (a : account_name) : St chain account_sequence_object :=
  c ← get; lift (of_option out_of_range (ch_sequences c !! a)).
Definition next_recv_sequence (receiver : account_name) : St chain Z :=
  o ← get_sequences receiver;
  c ← get;
  let r := u64 (as_recv_sequence o + 1) in
  _ ← NativeContract.set_sequences (<[receiver := AccountSequence r (as_auth_sequence o) (as_code_sequence o)
                                         (as_abi_sequence o)]> (ch_sequences c));
  mret r.
Definition next_auth_sequence (actor : account_name) : St chain Z :=
  o ← get_sequences actor;
  c ← get;
  let r := u64 (as_auth_sequence o + 1) in
  _ ← NativeContract.set_sequences (<[actor := AccountSequence (as_recv_sequence o) r (as_code_sequence o)
                                         (as_abi_sequence o)]> (ch_sequences c));
  mret r.
Fixpoint auth_sequences (l : list permission_level) (m : gmap Z Z) : St chain (gmap Z Z) :=
  match l with
  | [] => mret m
  | p :: l => n ← next_auth_sequence (actor p); auth_sequences l (<[actor p := n]> m)
  end.

Definition receipt_digest (r : action_receipt) : digest :=
  match result_of (pack c_receipt (ar_receiver r, (ar_act_digest r, (ar_global_sequence r, (ar_recv_sequence r,
          (asc_items (ar_auth_sequence r), (ar_code_sequence r, ar_abi_sequence r)))))) (Encoder [])) with
  | Ok d => d
  | Throw _ => digest_nil
  end.
Definition make_receipt : A action_receipt :=
  c ← ctx;
  d ← lift (result_of (pack c_action act (Encoder [])));
  n ← next_global_sequence;
  r ← onto_chain (next_recv_sequence (ap_receiver c));
  o ← onto_chain (get_sequences (act_account act));
  l ← onto_chain (auth_sequences (act_authorization act) ∅);
  mret (ActionReceipt (ap_receiver c) d n r l (as_code_sequence o) (as_abi_sequence o)).

Definition exec_one : A unit :=
  _ ← in_world (now g);
  _ ← capture_and_rethrow run_receiver;
  r ← make_receipt;
  _ ← in_world (tc_mod (fun c => set_executed (tc_executed c ++ [receipt_digest r]) c));
  _ ← in_world (now g);
  mret tt.

(** ** All receivers and the inline actions *)

(** No account is notified twice and every receiver has an account, so that there are at
    most as many turns as accounts. *)
Fixpoint notify (fuel i : nat) : A unit :=
  match fuel with
  | O => throw undefined_behaviour
  | S fuel =>
      c ← ctx;
      match ap_notified c !! i with
      | None => mret tt
      | Some receiver => _ ← ctx_mod (set_receiver receiver); _ ← exec_one; notify fuel (S i)
      end
  end.

Definition apply_exec (rec : action -> bool -> W unit) (recurse_depth : Z) : A unit :=
  _ ← ctx_mod (fun c => ApplyContext (ap_receiver c) (ap_privileged c) (ap_notified c ++ [ap_receiver c])
                          (ap_inline_actions c) (ap_cfa_inline_actions c) (ap_keyval_cache c) (ap_idx64_cache c)
                          (ap_idx128_cache c));
  _ ← exec_one;
  s ← get;
  _ ← notify (S (size (ch_accounts (nd_chain (w_node (ap_world s)))))) 1;
  s ← get;
  let c := ap_ctx s in
  _ ← (if bool_decide (ap_cfa_inline_actions c <> []) || bool_decide (ap_inline_actions c <> []) then
         st_assert (recurse_depth <? cc_max_inline_action_depth (nd_config (w_node (ap_world s)))) transaction_exception
       else mret tt);
  _ ← for_each (fun a => in_world (rec a true)) (ap_cfa_inline_actions c);
  for_each (fun a => in_world (rec a false)) (ap_inline_actions c).
End action.

(** A new [apply_context], for which no authorization is used yet. *)
Definition set_used (l : list bool) (w : world) : world :=
  let c := nd_chain (w_node w) in
  World (set_chain (Chain (ch_auth c) (ch_limits c) (ch_accounts c) (ch_sequences c) (ch_validate_ram c) l) (w_node w))
    (w_tc w) (w_ticks w).
Definition with_apply_context (a : action) (receiver : account_name) (m : A unit) : W unit := fun w =>
  let '(s, r) := m (Applying (set_used (replicate (length (act_authorization a)) false) w) (new_apply_context receiver)) in
  (set_used (ch_used_authorizations (nd_chain (w_node w))) (ap_world s), r).

(** [dispatch_action] for inline actions up to a depth. *)
Fixpoint dispatch (fuel : nat) (recurse_depth : Z) (a : action) (receiver : account_name) (context_free : bool)
    : W unit :=
  match fuel with
  | O => throw undefined_behaviour
  | S fuel =>
      with_apply_context a receiver (apply_exec a context_free
        (fun i cf => dispatch fuel (recurse_depth + 1) i (act_account i) cf) recurse_depth)
  end.
End apply.

(** The depth of the recursion is a 16-bit parameter of the chain. *)
Definition dispatch_depth : nat := Z.to_nat (2 ^ 16).
Definition apply_dispatch `{MetaSet} `{TrxCrypto} `{NativeEnv} `{Wasm} : Dispatch := {|
  TransactionContext.dispatch_action g a receiver cf := dispatch g dispatch_depth 0 a receiver cf
|}.
