(* ===== verification/ApplyFrame.v ===== *)
(** * What actions can change

    A relation between states that holds across the elementary steps of an action, and is
    reflexive and transitive, holds across the whole of it, whatever a contract does. *)
From S2P Require Import Prelude ContractTables Merkle BlockHeaderState BlockApply Names Raw Authority Transactions.
From S2P Require Import AuthorizationManager ResourceLimits NativeContract Controller TransactionContext TrxBilling.
From S2P Require Import ApplyContext.

(** ** Database calls *)

(** Changes of memory usage stay in the range of their type. *)
Definition delta_ok (d : Z) : Prop := - 2 ^ 64 < d.
Lemma delta_i64 z : delta_ok (i64 z).
Proof. unfold delta_ok. pose proof (i64_range z). lia. Qed.
Lemma delta_table : delta_ok table_id_object_size.
Proof. done. Qed.
#[export] Hint Resolve delta_i64 delta_table : moves.

Section calls.
Context (env : NativeEnv) (R : context -> context -> Prop) `{!PreOrder R}.
(** Tables, rows and iterators do not matter; memory is charged in one place. *)
Definition apart (c : context) := (cx_chain c, cx_receiver c, cx_privileged c, cx_act c).
Hypothesis R_apart : forall c c', apart c' = apart c -> R c c'.
Hypothesis R_usage : forall p d, delta_ok d -> moves R (update_db_usage p d).

Lemma moves_modify_apart f : (forall c, apart (f c) = apart c) -> moves R (modify_st f).
Proof. intros Hf c. apply R_apart, Hf. Qed.
Lemma moves_set_tables T n : moves R (set_tables T n).
Proof. by apply moves_modify_apart. Qed.
#[local] Hint Resolve R_usage moves_set_tables : moves.

Lemma moves_find_table code scope table : moves R (find_table code scope table).
Proof. unfold find_table. moves_step. Qed.
#[local] Hint Resolve moves_find_table : moves.
Lemma moves_find_or_create code scope table payer : moves R (find_or_create_table code scope table payer).
Proof. unfold find_or_create_table. moves_step. Qed.
Lemma moves_table_at t : moves R (table_at t).
Proof. unfold table_at. moves_step. Qed.
#[local] Hint Resolve moves_find_or_create moves_table_at : moves.
Lemma moves_remove_table t : moves R (remove_table t).
Proof. unfold remove_table. moves_step. Qed.
Lemma moves_change_count t d : moves R (change_count t d).
Proof. unfold change_count. moves_step. Qed.
#[local] Hint Resolve moves_remove_table moves_change_count : moves.

Section index.
Context {V : Type} (I : Index V).
Hypothesis I_apart : forall s c, apart (set_index s c) = apart c.

Lemma moves_with_cache f : moves R (with_cache I f).
Proof. intros c. unfold with_cache. destruct (f _) as [k i]. apply R_apart, I_apart. Qed.
Lemma moves_query_cache {A} (f : iterator_cache -> result A) : moves R (query_cache I f).
Proof. unfold query_cache. moves_step. Qed.
Lemma moves_set_rows m n : moves R (set_rows I m n).
Proof. apply moves_modify_apart. intros c. apply I_apart. Qed.
#[local] Hint Resolve moves_with_cache moves_query_cache moves_set_rows : moves.
Lemma moves_row_at o : moves R (row_at I o).
Proof. unfold row_at. moves_step. Qed.
#[local] Hint Resolve moves_row_at : moves.
Lemma moves_get_row i : moves R (get_row I i).
Proof. unfold get_row. moves_step. Qed.
Lemma moves_create_row r : moves R (create_row I r).
Proof. unfold create_row. moves_step. Qed.
Lemma moves_modify_row o r : moves R (modify_row I o r).
Proof. unfold modify_row. moves_step. Qed.
Lemma moves_remove_row o : moves R (remove_row I o).
Proof. unfold remove_row. moves_step. Qed.
Lemma moves_own_table t : moves R (own_table I t).
Proof. unfold own_table. moves_step. Qed.
#[local] Hint Resolve moves_get_row moves_create_row moves_modify_row moves_remove_row moves_own_table : moves.
Lemma moves_drop_row i o t : moves R (drop_row I i o t).
Proof.
  unfold drop_row. moves_step. apply moves_modify_apart. intros c. apply I_apart.
Qed.
Lemma moves_search find code scope table : moves R (search I find code scope table).
Proof. unfold search. moves_step. Qed.
Lemma moves_search_end code scope table : moves R (search_end I code scope table).
Proof. unfold search_end. moves_step. Qed.
Lemma moves_next_row key i : moves R (next_row_by I key i).
Proof. unfold next_row_by. moves_step. Qed.
Lemma moves_step_back t x : moves R (step_back I t x).
Proof. unfold step_back. moves_step. Qed.
#[local] Hint Resolve moves_step_back : moves.
Lemma moves_previous_row key i : moves R (previous_row_by I key i).
Proof. unfold previous_row_by. moves_step. Qed.
End index.

Lemma keyval_apart s c : apart (set_index (Index := keyval) s c) = apart c.
Proof. done. Qed.
Lemma idx64_apart s c : apart (set_index (Index := idx64) s c) = apart c.
Proof. done. Qed.
Lemma idx128_apart s c : apart (set_index (Index := idx128) s c) = apart c.
Proof. done. Qed.
#[local] Hint Resolve keyval_apart idx64_apart idx128_apart : moves.
#[local] Hint Resolve moves_with_cache moves_query_cache moves_get_row moves_create_row moves_modify_row moves_remove_row
  moves_own_table moves_drop_row moves_search moves_search_end moves_next_row moves_previous_row : moves.

Lemma run_idx_moves (I : Index Z) k : (forall s c, apart (set_index s c) = apart c) ->
  (forall v, delta_ok (row_size v)) -> (forall v, delta_ok (- row_size v)) -> moves R (run_idx I k).
Proof.
  intros HI Hp Hn. destruct k; cbn [run_idx]; unfold ignore, idx_store, idx_remove, idx_update, find_secondary, lowerbound_secondary,
    upperbound_secondary, end_secondary, next_secondary, previous_secondary, find_primary, lowerbound_primary,
    upperbound_primary, next_primary, previous_primary, idx_get; moves_step.
Qed.
Lemma run_call_moves k : moves R (run_call k).
Proof.
  destruct k; cbn [run_call]; unfold ignore, db_store_i64, db_update_i64, db_remove_i64, db_get_i64, db_next_i64,
    db_previous_i64, db_find_i64, db_lowerbound_i64, db_upperbound_i64, db_end_i64;
    [moves_step..|by apply run_idx_moves|by apply run_idx_moves].
Qed.
End calls.

(** A part of the chain that requiring authorizations and charging memory keep is kept. *)
Lemma run_call_keeps (env : NativeEnv) {T} (f : chain -> T) k :
  (forall act a, keeps f (require_authorization act a)) -> (forall a d, keeps f (add_ram_usage a d)) ->
  keeps (fun c => f (cx_chain c)) (run_call k).
Proof.
  intros Hreq Hram. apply moves_keeps, run_call_moves; [apply _|by intros c c' [= -> _ _ _]|].
  intros p d _. apply moves_keeps. unfold update_db_usage. keeps_step; intros c; unfold ContractTables.on_chain.
  - match goal with |- context [require_authorization ?act _] => specialize (Hreq act p (cx_chain c)) end. by destruct (require_authorization _ _ _).
  - specialize (Hram p d (cx_chain c)). by destruct (add_ram_usage _ _ _).
Qed.

(** ** Contracts *)
Lemma run_program_moves `{MetaSet} `{TrxCrypto} `{NativeEnv} (R : applying -> applying -> Prop) `{!PreOrder R}
    g act cf p :
  (forall k, moves R (run_host g act cf k)) -> moves R (run_program g act cf p).
Proof.
  intros Hk. induction p as [|e|k next IH]; cbn [run_program]; [moves_step..|].
  apply moves_bind; [done|apply Hk|]. intros _ s. apply IH.
Qed.

(** ** What the calls of a contract leave alone *)
Section host.
Context `{MetaSet} `{TrxCrypto} `{NativeEnv} (g : setting) (act : action) (context_free : bool).

(** What the clock and the network usage leave alone. *)
Definition tc_fixed (c : transaction_context) :=
  (tc_args c, tc_executed c, bill_to_accounts c, net_limit (tc_net c), objective_duration_limit (tc_cpu c)).
Definition still (w : world) := (w_node w, tc_fixed (w_tc w)).
Lemma checktime_still : keeps still (checktime g).
Proof.
  unfold checktime, tc_get. destruct (skip_trx_checks g); [apply keeps_ret|].
  apply keeps_bind; [done|]. intros t. apply keeps_bind; [done|]. intros c. keeps_step.
Qed.
Lemma add_net_still u : keeps still (add_net_usage g u).
Proof. apply keeps_bind; [by apply keeps_modify|intros _; apply check_net_usage_keeps]. Qed.
#[local] Hint Resolve checktime_still : keeps.
Lemma timed_auths_still db a special delay l m : keeps still (timed_auths g db a special delay l m).
Proof. revert m. induction l; intros m; cbn [timed_auths]; keeps_step. Qed.
#[local] Hint Resolve timed_auths_still : keeps.
Lemma timed_actions_still db effective l m : keeps still (timed_actions g db effective l m).
Proof. revert m. induction l; intros m; cbn [timed_actions]; keeps_step. Qed.
Lemma timed_levels_still ck l used : keeps still (timed_levels g ck l used).
Proof. revert used. induction l as [|[level delay] l IH]; intros used; cbn [timed_levels]; keeps_step. Qed.
#[local] Hint Resolve timed_actions_still timed_levels_still : keeps.
Lemma timed_check_still acts perms delay : keeps still (timed_check_authorization g acts perms delay).
Proof. unfold timed_check_authorization. keeps_step. Qed.
#[local] Hint Resolve add_net_still timed_check_still : keeps.

(** Of the chain: the usage of the block, the sequence numbers and which accounts there are. *)
Definition block_usage (c : chain) := rl_block (ch_limits c).
Definition host_chain (c : chain) := (block_usage c, ch_sequences c, dom (ch_accounts c)).
Definition node_rest (n : node) := (nd_transactions n, nd_summaries n, nd_global_sequence n).
Definition host_part (s : applying) :=
  let w := ap_world s in (host_chain (nd_chain (w_node w)), node_rest (w_node w), tc_fixed (w_tc w)).

Lemma host_on_auth {A} (m : St auth_db A) : keeps host_chain (on_auth m).
Proof. intros c. unfold on_auth. by destruct (m (ch_auth c)). Qed.
Lemma host_on_limits {A} (m : St rl_db A) : keeps rl_block m -> keeps host_chain (on_limits m).
Proof.
  intros Hm c. specialize (Hm (ch_limits c)). unfold on_limits. destruct (m (ch_limits c)) as [l r].
  unfold host_chain, block_usage. cbn in Hm |- *. by rewrite Hm.
Qed.
Lemma host_require a : keeps host_chain (require_authorization act a).
Proof. unfold require_authorization. keeps_step. Qed.
Lemma host_require2 a p : keeps host_chain (require_authorization2 act a p).
Proof. unfold require_authorization2. keeps_step. Qed.
Lemma keeps_pending_ram a d : keeps rl_block (add_pending_ram_usage a d).
Proof. unfold add_pending_ram_usage, get_usage, set_usage. keeps_step. Qed.
Lemma keeps_set_limits a x y z : keeps rl_block (set_account_limits a x y z).
Proof. unfold set_account_limits, get_limits, put_pending. keeps_step. Qed.
#[local] Hint Resolve host_on_auth host_on_limits host_require host_require2 keeps_pending_ram keeps_set_limits : keeps.
Lemma host_ram a d : keeps host_chain (add_ram_usage a d).
Proof. unfold add_ram_usage. keeps_step. Qed.
#[local] Hint Resolve host_ram : keeps.
Lemma host_cancel i a : keeps host_chain (cancel_deferred_transaction i a).
Proof. unfold cancel_deferred_transaction. keeps_step. Qed.
Lemma host_privileged a b : keeps host_chain (set_privileged a b).
Proof.
  intros c. unfold set_privileged, get_account, set_accounts. run_st. destruct (ch_accounts c !! a) as [o|] eqn:E; [|done].
  unfold host_chain. cbn. f_equal. apply dom_insert_lookup_L. by exists o.
Qed.
#[local] Hint Resolve host_cancel host_privileged : keeps.

Lemma host_onto_chain {A} (m : St chain A) : keeps host_chain m -> keeps host_part (onto_chain m).
Proof.
  intros Hm s. specialize (Hm (nd_chain (w_node (ap_world s)))). unfold onto_chain, in_world, TransactionContext.on_chain.
  destruct (m _) as [c r]. unfold host_part. cbn in Hm |- *. by rewrite Hm.
Qed.
Lemma host_still {A} (m : St world A) : keeps still m -> keeps host_part (in_world m).
Proof.
  intros Hm s. specialize (Hm (ap_world s)). unfold in_world. destruct (m (ap_world s)) as [w r].
  pose proof (f_equal fst Hm) as Hn. pose proof (f_equal snd Hm) as Ht. cbn [still fst snd] in Hn, Ht.
  unfold host_part. cbn [fst ap_world]. by rewrite Hn, Ht.
Qed.
Lemma host_ctx : keeps host_part ctx.
Proof. done. Qed.
Lemma host_ctx_mod f : keeps host_part (ctx_mod f).
Proof. by apply keeps_modify. Qed.
Lemma keeps_capture {S A T} (f : S -> T) (m : St S A) : keeps f m -> keeps f (capture_and_rethrow m).
Proof. intros Hm s. specialize (Hm s). unfold capture_and_rethrow. by destruct (m s) as [s' [a|e]]. Qed.
#[local] Hint Resolve host_onto_chain host_still host_ctx host_ctx_mod keeps_capture : keeps.
Lemma host_db k : keeps host_part (db_access g act k).
Proof.
  intros s. unfold db_access. epose proof (run_call_keeps (env_at g) host_chain k _ host_ram (table_context act s)) as Hk.
  destruct (run_call k _) as [t r]. unfold host_part. cbn in Hk |- *. by rewrite Hk.
  Unshelve. intros a x. unfold require_authorization. keeps_step.
Qed.
#[local] Hint Resolve host_db : keeps.

Lemma run_host_keeps k : keeps host_part (run_host g act context_free k).
Proof.
  destruct k; cbn [run_host]; unfold aware, privileged_api, require_recipient, send_action, execute_inline,
    execute_context_free_inline, schedule_deferred_transaction, set_resource_limits, set_blockchain_parameters_packed;
    cbv zeta; keeps_step.
  apply keeps_capture. keeps_step.
Qed.
Lemma run_program_keeps p : keeps host_part (run_program g act context_free p).
Proof. apply moves_keeps, run_program_moves; [apply _|]. intros k. apply run_host_keeps. Qed.

(** The receiver stays while a contract runs, and recipients are only added, none twice. *)
Definition called (s : applying) := (ap_receiver (ap_ctx s), ap_notified (ap_ctx s)).
Definition recipients (s s' : applying) : Prop :=
  ap_receiver (ap_ctx s') = ap_receiver (ap_ctx s) /\
  exists new, ap_notified (ap_ctx s') = ap_notified (ap_ctx s) ++ new /\
    (NoDup (ap_notified (ap_ctx s)) -> NoDup (ap_notified (ap_ctx s'))).
#[export] Instance recipients_preorder : PreOrder recipients.
Proof.
  split; [intros s; split; [done|]; exists []; by rewrite app_nil_r|].
  intros s s1 s2 [R1 (n1 & N1 & D1)] [R2 (n2 & N2 & D2)]. split; [congruence|]. exists (n1 ++ n2).
  rewrite N2, N1, app_assoc. split; [done|]. rewrite <- N1, <- N2. auto.
Qed.
Lemma recipients_keeps {A} (m : St applying A) : keeps called m -> moves recipients m.
Proof.
  intros Hm s. specialize (Hm s). unfold called in Hm. injection Hm as Hr Hn. split; [done|]. exists [].
  rewrite app_nil_r. split; [done|]. by rewrite Hn.
Qed.
Lemma called_in_world {A} (m : St world A) : keeps called (in_world m).
Proof. intros s. unfold in_world. by destruct (m (ap_world s)). Qed.
Lemma called_chain {A} (m : St chain A) : keeps called (onto_chain m).
Proof. apply called_in_world. Qed.
Lemma called_ctx : keeps called ctx.
Proof. done. Qed.
Lemma called_ctx_mod f : (forall c, ap_receiver (f c) = ap_receiver c) -> (forall c, ap_notified (f c) = ap_notified c) ->
  keeps called (ctx_mod f).
Proof. intros Hr Hn s. unfold called. cbn. by rewrite Hr, Hn. Qed.
Lemma called_db k : keeps called (db_access g act k).
Proof. intros s. unfold db_access. by destruct (run_call k _). Qed.
#[local] Hint Resolve called_in_world called_chain called_ctx called_db : keeps.
Lemma require_recipients a : moves recipients (require_recipient a).
Proof.
  intros s. cbn. split; [by destruct (decide _)|].
  destruct (decide (a ∈ ap_notified (ap_ctx s))) as [Ha|Ha]; [exists []; by rewrite app_nil_r|].
  exists [a]. split; [done|]. intros Hd. apply NoDup_app. split; [done|]. split; [|apply NoDup_singleton].
  intros x Hx ->%list_elem_of_singleton. done.
Qed.
Lemma run_host_recipients k : moves recipients (run_host g act context_free k).
Proof.
  destruct k; cbn [run_host]; try (apply recipients_keeps; unfold aware, privileged_api, send_action,
      execute_inline, execute_context_free_inline, schedule_deferred_transaction, set_resource_limits,
      set_blockchain_parameters_packed; cbv zeta; keeps_step; try (by apply called_ctx_mod);
      try (apply keeps_capture; keeps_step); fail).
  apply moves_bind; [apply _|apply moves_assert; apply _|]. intros _. apply require_recipients.
Qed.
Lemma run_program_recipients p : moves recipients (run_program g act context_free p).
Proof. apply run_program_moves; [apply _|]. intros k. apply run_host_recipients. Qed.
End host.
