(* ===== verification/ApplyLimits.v ===== *)
(** * Executing actions within the limits of the transaction

    The executor of [ApplyContext] meets the laws billing asks of it: whatever native
    handlers and contracts do, the limits of the transaction and the usage of the block
    stay. *)
From S2P Require Import Prelude ContractTables Merkle BlockHeaderState BlockApply Names Raw Authority Transactions.
From S2P Require Import AuthorizationManager ResourceLimits NativeContract Controller TransactionContext TrxBilling.
From S2P Require Import ApplyContext ApplyFrame.

(** ** Native handlers *)
Lemma usage_on_auth {A} (m : St auth_db A) : keeps block_usage (on_auth m).
Proof. intros c. unfold on_auth. by destruct (m (ch_auth c)). Qed.
Lemma usage_set_accounts m : keeps block_usage (set_accounts m).
Proof. by apply keeps_modify. Qed.
Lemma usage_set_sequences m : keeps block_usage (set_sequences m).
Proof. by apply keeps_modify. Qed.
Lemma usage_require act a : keeps block_usage (require_authorization act a).
Proof. unfold require_authorization. keeps_step. Qed.
Lemma usage_ram a d : keeps block_usage (add_ram_usage a d).
Proof.
  unfold add_ram_usage. apply keeps_bind; [|intros _; keeps_step]. apply keeps_chain_limits.
  unfold add_pending_ram_usage, get_usage, set_usage. keeps_step.
Qed.
Lemma usage_initialize a : keeps block_usage (on_limits (initialize_account a)).
Proof. apply keeps_chain_limits. unfold initialize_account, set_limits, set_usage. keeps_step. Qed.
#[export] Hint Resolve usage_on_auth usage_set_accounts usage_set_sequences usage_require usage_ram usage_initialize : keeps.

Lemma usage_native `{NativeEnv} receiver scope name h act :
  find_apply_handler receiver scope name = Some h -> keeps block_usage (h act).
Proof.
  intros Hh. pattern h. apply (find_apply_handler_cases _ _ _ _ _ Hh);
    unfold apply_besio_newaccount, apply_besio_setcode, apply_besio_setabi, apply_besio_updateauth,
      apply_besio_deleteauth, apply_besio_linkauth, apply_besio_unlinkauth, apply_besio_canceldelay,
      cancel_deferred_transaction; keeps_step.
Qed.

(** ** Actions *)
Section actions.
Context `{MetaSet} `{TrxCrypto} `{NativeEnv} `{Wasm} (g : setting).
Definition limits_at (s : applying) := limit_part (ap_world s).

Lemma limits_host {A} (m : St applying A) : keeps host_part m -> keeps limits_at m.
Proof.
  intros Hm s. specialize (Hm s).
  exact (f_equal (fun x => (x.1.1.1.1, x.2.1.2, x.2.2)) Hm).
Qed.
Lemma limits_in_world {A} (m : St world A) : keeps limit_part m -> keeps limits_at (in_world m).
Proof. intros Hm s. specialize (Hm (ap_world s)). unfold in_world. by destruct (m (ap_world s)). Qed.
Lemma limits_onto_chain {A} (m : St chain A) : keeps block_usage m -> keeps limits_at (onto_chain m).
Proof. intros Hm. by apply limits_in_world, keeps_block_chain. Qed.
Lemma limits_ctx : keeps limits_at ctx.
Proof. done. Qed.
Lemma limits_ctx_mod f : keeps limits_at (ctx_mod f).
Proof. by apply keeps_modify. Qed.
Lemma run_program_limits act cf p : keeps limits_at (run_program g act cf p).
Proof. apply limits_host, run_program_keeps. Qed.
#[local] Hint Resolve limits_in_world limits_onto_chain limits_ctx limits_ctx_mod keeps_capture run_program_limits now_keeps : keeps.

Lemma pause_limits : keeps limit_part (pause_billing_timer g).
Proof. unfold pause_billing_timer, tc_get. apply keeps_bind; [done|]. intros c. keeps_step. Qed.
Lemma resume_limits : keeps limit_part (resume_billing_timer g).
Proof.
  unfold resume_billing_timer, tc_get. apply keeps_bind; [done|]. intros c. keeps_step.
Qed.
#[local] Hint Resolve pause_limits resume_limits : keeps.
Lemma run_receiver_limits act cf : keeps limits_at (run_receiver g act cf).
Proof.
  unfold run_receiver, check_lists, get_instantiated_module. cbv zeta.
  apply keeps_bind; [apply limits_ctx|]. intros c. destruct (find_apply_handler _ _ _) as [h|] eqn:Eh; [|keeps_step].
  pose proof (usage_native _ _ _ _ act Eh). keeps_step.
Qed.
Lemma next_sequence_limits : keeps limits_at next_global_sequence.
Proof. unfold next_global_sequence. keeps_step. Qed.
Lemma auth_sequences_usage l m : keeps block_usage (auth_sequences l m).
Proof.
  revert m. induction l as [|p l IH]; intros m; cbn [auth_sequences]; [keeps_step|].
  unfold next_auth_sequence, get_sequences. keeps_step.
Qed.
Lemma next_recv_usage a : keeps block_usage (next_recv_sequence a).
Proof. unfold next_recv_sequence, get_sequences. keeps_step. Qed.
Lemma get_sequences_usage a : keeps block_usage (get_sequences a).
Proof. unfold get_sequences. keeps_step. Qed.
#[local] Hint Resolve run_receiver_limits next_sequence_limits auth_sequences_usage next_recv_usage get_sequences_usage : keeps.
Lemma exec_one_limits act cf : keeps limits_at (exec_one g act cf).
Proof. unfold exec_one, make_receipt. keeps_step. Qed.
#[local] Hint Resolve exec_one_limits : keeps.
Lemma notify_limits act cf fuel i : keeps limits_at (notify g act cf fuel i).
Proof.
  revert i. induction fuel as [|fuel IH]; intros i; cbn [notify]; [keeps_step|].
  apply keeps_bind; [apply limits_ctx|]. intros c. destruct (_ !! i); keeps_step.
Qed.
#[local] Hint Resolve notify_limits : keeps.
Lemma dispatch_keeps fuel depth a r cf : keeps limit_part (dispatch g fuel depth a r cf).
Proof.
  revert depth a r cf. induction fuel as [|fuel IH]; intros depth a r cf; cbn [dispatch]; [keeps_step|].
  intros w. unfold with_apply_context.
  assert (Hk : keeps limits_at (apply_exec g a cf (fun i cf => dispatch g fuel (depth + 1) i (act_account i) cf) depth)).
  { unfold apply_exec. keeps_step. }
  match goal with |- context [apply_exec _ _ _ _ _ ?s] => specialize (Hk s) end.
  by destruct (apply_exec _ _ _ _ _ _) as [s res].
Qed.
End actions.

#[export] Instance apply_dispatch_laws `{MetaSet} `{TrxCrypto} `{NativeEnv} `{Wasm} : @DispatchLaws apply_dispatch.
Proof.
  split. intros g a r cf. unfold apply_dispatch. generalize dispatch_depth. intros fuel.
  apply (dispatch_keeps g fuel 0 a r cf).
Qed.
