(* ===== verification/ApplyConfined.v ===== *)
(** * What a contract can do

    Whatever a contract without privileges calls, it stays confined: permissions, links,
    accounts, limits and parameters stay, only its own account and those that authorized
    the action pay for memory, other senders' deferred transactions stay, and an inline
    action to another account carries only authorizations that the contract's own
    [besio.code] permission satisfies. *)
From S2P Require Import Prelude ContractTables Merkle BlockHeaderState BlockApply Names Raw Authority Transactions.
From S2P Require Import AuthorizationManager ResourceLimits NativeContract Controller TransactionContext TrxBilling.
From S2P Require Import PackSize ApplyContext ApplyFrame ApplyLimits.

(** ** The chain *)
Definition ram_of (c : chain) (b : account_name) : Z :=
  match rl_usage (ch_limits c) !! b with Some u => ram_usage u | None => 0 end.
(** Permissions and links, with what else the authorization manager reads but the deferred
    transactions; limits and the rates of network and CPU usage; accounts. *)
Definition auth_fixed (db : auth_db) :=
  (permissions db, next_permission db, usages db, next_usage db, links db, pending_block_time db,
   max_authority_depth db, max_transaction_delay db).
Definition rates (u : resource_usage_object) := (net_usage u, cpu_usage u).
Definition limits_fixed (db : rl_db) :=
  (rl_config db, rl_state db, rl_limits db, rl_pending db, rates <$> rl_usage db).
Definition chain_fixed (c : chain) :=
  (auth_fixed (ch_auth c), limits_fixed (ch_limits c), ch_accounts c, ch_sequences c).
Definition others (owner : account_name) (c : chain) : list generated_transaction :=
  filter (fun o => gt_sender o <> owner) (generated (ch_auth c)).
(** Stored transactions are no longer than what can be packed. *)
Definition stored_ok (c : chain) : Prop :=
  Forall (fun o => Z.of_nat (length (gt_packed_trx o)) <= 2 ^ 48) (generated (ch_auth c)).

(** [owner] runs, on behalf of [payers]. *)
Record chain_confined (owner : account_name) (payers : list account_name) (c c' : chain) : Prop := {
  cn_fixed : chain_fixed c' = chain_fixed c;
  cn_others : others owner c' = others owner c;
  cn_stored : stored_ok c -> stored_ok c';
  cn_ram : stored_ok c -> forall b, b <> owner -> b ∉ payers -> ram_of c' b <= ram_of c b;
  cn_checked : ch_validate_ram c ⊆ ch_validate_ram c';
  cn_grown : forall b, ram_of c b < ram_of c' b -> b ∈ ch_validate_ram c'
}.
#[export] Instance chain_confined_preorder owner payers : PreOrder (chain_confined owner payers).
Proof.
  split.
  - intros c. split; try done. intros b Hb. lia.
  - intros c c1 c2 [F1 O1 S1 R1 V1 G1] [F2 O2 S2 R2 V2 G2]. split.
    + by rewrite F2.
    + by rewrite O2.
    + auto.
    + intros Hs b Hb Hn. specialize (R1 Hs b Hb Hn). specialize (R2 (S1 Hs) b Hb Hn). lia.
    + set_solver.
    + intros b Hb. destruct (Z_lt_le_dec (ram_of c b) (ram_of c1 b)) as [Hl|Hl]; [set_solver|]. apply G2. lia.
Qed.

Section chain.
Context (owner : account_name) (payers : list account_name).
Notation R := (chain_confined owner payers).

(** Only which authorizations were used, or which accounts are to be checked. *)
Lemma confined_marks c c' : ch_auth c' = ch_auth c -> ch_limits c' = ch_limits c -> ch_accounts c' = ch_accounts c ->
  ch_sequences c' = ch_sequences c -> ch_validate_ram c ⊆ ch_validate_ram c' -> R c c'.
Proof.
  intros Ea El Ec Es Ev. split; try done; unfold chain_fixed, others, stored_ok, ram_of; rewrite ?Ea, ?El, ?Ec, ?Es; try done.
  intros b Hb. lia.
Qed.
Lemma require_confined act a : moves R (require_authorization act a).
Proof.
  unfold require_authorization. apply moves_bind; [apply _|apply moves_get; apply _|]. intros c.
  destruct (mark_used _ _ _); [|apply moves_throw; apply _]. intros c'. by apply confined_marks.
Qed.
Lemma require2_confined act a p : moves R (require_authorization2 act a p).
Proof.
  unfold require_authorization2. apply moves_bind; [apply _|apply moves_get; apply _|]. intros c.
  destruct (mark_used_level _ _ _ _); [|apply moves_throw; apply _]. intros c'. by apply confined_marks.
Qed.

(** Charging memory to the owner or a payer, or giving it back. *)
Lemma usage_case a d (db : rl_db) : 
  let '(db', r) := add_pending_ram_usage a d db in
  db' = db \/ exists u, r = Ok tt /\ rl_usage db !! a = Some u /\ (d <= 0 -> u64 (- d) <= ram_usage u) /\
    db' = RlDb (rl_config db) (rl_state db) (rl_limits db) (rl_pending db)
      (<[a := ResourceUsageObject (net_usage u) (cpu_usage u) (u64 (ram_usage u + d))]> (rl_usage db)).
Proof.
  unfold add_pending_ram_usage, get_usage, set_usage. destruct (d =? 0) eqn:E0; [by left|]. run_st. bool_to_prop.
  destruct (rl_usage db !! a) as [u|] eqn:Eu; cbn; [|by left]. destruct (_ || _); cbn; [|by left].
  destruct ((0 <=? d) || _) eqn:E; cbn; [|by left]. right. exists u. do 2 (split; [done|]). split; [|done].
  intros Hd. apply orb_true_iff in E as [E|E]; bool_to_prop; [lia|done].
Qed.
(** One account's memory changed. *)
Definition recharged (a : account_name) (d : Z) (u : resource_usage_object) (c : chain) : chain :=
  let l := ch_limits c in
  Chain (ch_auth c) (RlDb (rl_config l) (rl_state l) (rl_limits l) (rl_pending l)
      (<[a := ResourceUsageObject (net_usage u) (cpu_usage u) (u64 (ram_usage u + d))]> (rl_usage l)))
    (ch_accounts c) (ch_sequences c) (if 0 <? d then {[a]} ∪ ch_validate_ram c else ch_validate_ram c)
    (ch_used_authorizations c).
Lemma recharged_ram a d u c b : ram_of (recharged a d u c) b = if decide (a = b) then u64 (ram_usage u + d) else ram_of c b.
Proof. unfold ram_of, recharged. cbn. destruct (decide (a = b)) as [->|]; [by rewrite lookup_insert_eq|by rewrite lookup_insert_ne]. Qed.
Lemma refund u d : delta_ok d -> d <= 0 -> u64 (- d) <= ram_usage u -> u64 (ram_usage u + d) <= ram_usage u.
Proof.
  unfold delta_ok. intros H1 H2 Hu. rewrite u64_small in Hu by lia.
  assert (u64 (ram_usage u + d) <= ram_usage u + d) by (apply Z.mod_le; lia). lia.
Qed.
Lemma recharged_confined a d u c : delta_ok d -> rl_usage (ch_limits c) !! a = Some u -> (d <= 0 -> u64 (- d) <= ram_usage u) ->
  (stored_ok c -> d <= 0 \/ a = owner \/ a ∈ payers) -> R c (recharged a d u c).
Proof.
  intros Hd Hu Hr Ha.
  assert (Hra : ram_of c a = ram_usage u) by (unfold ram_of; by rewrite Hu).
  split; try done.
  - unfold chain_fixed, limits_fixed. cbn. do 3 f_equal. rewrite fmap_insert. change (rates _) with (rates u).
    rewrite insert_id; [done|]. by rewrite lookup_fmap, Hu.
  - intros Hs b Hb Hn. rewrite recharged_ram. destruct (decide (a = b)) as [<-|]; [|done].
    destruct (Ha Hs) as [Hle|[->|Hin]]; [|done..]. rewrite Hra. by apply refund; auto.
  - cbn. destruct (0 <? d); set_solver.
  - intros b. rewrite recharged_ram. destruct (decide (a = b)) as [<-|]; [|lia]. rewrite Hra. intros Hlt. cbn.
    destruct (0 <? d) eqn:E; [set_solver|]. bool_to_prop. pose proof (refund u d Hd E (Hr E)). lia.
Qed.
Lemma ram_confined_at a d c : delta_ok d -> (stored_ok c -> d <= 0 \/ a = owner \/ a ∈ payers) ->
  R c (add_ram_usage a d c).1.
Proof.
  intros Hd Ha. unfold add_ram_usage, on_limits, mbind, St_bind. pose proof (usage_case a d (ch_limits c)) as Hu.
  destruct (add_pending_ram_usage a d (ch_limits c)) as [l r]. destruct Hu as [->|(u & -> & Hu & Hr & ->)].
  - destruct r; [destruct (0 <? d)|]; apply confined_marks; cbn; set_solver.
  - etransitivity; [by apply (recharged_confined a d u)|]. unfold recharged. destruct (0 <? d); apply confined_marks; done.
Qed.
Lemma ram_confined a d : delta_ok d -> d <= 0 \/ a = owner \/ a ∈ payers -> moves R (add_ram_usage a d).
Proof. intros Hd Ha c. by apply ram_confined_at. Qed.

(** ** Deferred transactions *)
Lemma generated_confined l c : 
  filter (fun o => gt_sender o <> owner) l = others owner c ->
  (stored_ok c -> Forall (fun o => Z.of_nat (length (gt_packed_trx o)) <= 2 ^ 48) l) ->
  R c (on_auth (set_generated l) c).1.
Proof. intros Ho Hs. split; try done. intros b Hb. unfold ram_of in Hb. cbn in Hb. lia. Qed.
Lemma create_confined gto : gt_sender gto = owner -> Z.of_nat (length (gt_packed_trx gto)) <= 2 ^ 48 ->
  moves R (on_auth (create_generated gto)).
Proof.
  intros Hs Hl c. unfold create_generated, on_auth, mbind, St_bind. cbn. destruct (forallb _ _); cbn; [|by apply confined_marks].
  apply generated_confined.
  - rewrite filter_app. cbn. destruct (decide _) as [Hn|]; [done|]. by rewrite app_nil_r.
  - intros Hc. apply Forall_app. split; [done|]. by constructor.
Qed.
Lemma replace_confined i f : (forall o, gt_sender (f o) = owner) -> (forall o, Z.of_nat (length (gt_packed_trx (f o))) <= 2 ^ 48) ->
  moves R (on_auth (replace_generated owner i f)).
Proof.
  intros Hs Hl c. unfold replace_generated. change (R c (on_auth (set_generated
    (map (fun o => if by_sender_id owner i o then f o else o) (generated (ch_auth c)))) c).1). apply generated_confined.
  - unfold others. induction (generated (ch_auth c)) as [|o l IH]; [done|]. cbn [map].
    unfold by_sender_id at 1. destruct (gt_sender o =? owner) eqn:E; bool_to_prop; cbn [andb].
    + rewrite !filter_cons. rewrite (decide_False (P := gt_sender o <> owner)) by (intros Hn; by apply Hn).
      rewrite decide_False; [done|]. destruct (_ =? i); intros Hn; by apply Hn.
    + rewrite !filter_cons. by destruct (decide _); rewrite IH.
  - unfold stored_ok. intros Hc. apply Forall_map. eapply Forall_impl; [exact Hc|]. intros o Ho. by destruct (by_sender_id _ _ _).
Qed.
Lemma take_generated_spec P l g rest : take_generated P l = Some (g, rest) -> exists l1 l2, l = l1 ++ g :: l2 /\ rest = l1 ++ l2 /\ P g = true.
Proof.
  revert g rest. induction l as [|h l IH]; intros g rest; [done|]. cbn [take_generated].
  destruct (P h) eqn:E; [intros [= <- <-]; by exists [], l|].
  destruct (take_generated P l) as [[h' l']|]; [|done]. intros [= <- <-].
  destruct (IH _ _ eq_refl) as (l1 & l2 & -> & -> & HP). by exists (h :: l1), l2.
Qed.
Lemma cancel_confined i : moves R (cancel_deferred_transaction i owner).
Proof.
  intros c. unfold cancel_deferred_transaction. unfold mbind at 1, St_bind at 1, get at 1.
  destruct (take_generated _ _) as [[gto rest]|] eqn:Et; [|cbn; reflexivity].
  apply take_generated_spec in Et as (l1 & l2 & El & -> & Hg). unfold by_sender_id in Hg. bool_to_prop.
  set (d := i64 _).
  assert (Hc : R c (add_ram_usage (gt_payer gto) d c).1).
  { apply ram_confined_at; [apply delta_i64|]. unfold stored_ok. rewrite El. intros [_ Hl%Forall_cons_1]%Forall_app.
    destruct Hl as [Hl _]. left. subst d. unfold u64, i64. rewrite Zplus_mod_idemp_l. change (i64 (- (generated_transaction_object_size
      + Z.of_nat (length (gt_packed_trx gto)))) <= 0). change generated_transaction_object_size with 272 in *.
    rewrite i64_small; lia. }
  unfold mbind, St_bind. pose proof (keeps_auth_add_ram_usage (gt_payer gto) d c) as Hk.
  destruct (add_ram_usage _ _ c) as [c1 [[]|e]]; [|done]. cbn in Hc, Hk |- *. etransitivity; [exact Hc|].
  apply generated_confined.
  - unfold others. rewrite Hk, El, !filter_app, filter_cons, decide_False; [done|]. by intros [].
  - unfold stored_ok. rewrite Hk, El, !Forall_app. intros [? [_ ?]%Forall_cons]. done.
Qed.
End chain.

(** ** Checks with a deadline *)
Section timed.
Context `{MetaSet} `{TrxCrypto} `{NativeEnv} (g : setting).

Lemma timed_auths_run db act special delay l m : forall w w' m',
  timed_auths g db act special delay l m w = (w', Ok m') -> collect_auths db act special delay l m = Ok m'.
Proof.
  revert m. induction l as [|a l IH]; intros m w w' m'; cbn [timed_auths collect_auths]; [by intros [= _ <-]|].
  rewrite St_bind_ok. intros ([] & w1 & _ & Hr). rewrite St_bind_ok in Hr. destruct Hr as ([] & w2 & Hm & Hr).
  unfold lift in Hm. injection Hm as _ ->. apply IH in Hr. exact Hr.
Qed.
Lemma timed_actions_run db effective l m : forall w w' m',
  timed_actions g db effective l m w = (w', Ok m') -> collect_actions db effective l m = Ok m'.
Proof.
  revert m. induction l as [|a l IH]; intros m w w' m'; cbn [timed_actions collect_actions]; [by intros [= _ <-]|].
  rewrite St_bind_ok. intros (m1 & w1 & Hm & Hr%IH). rewrite result_bind_ok. exists m1. split; [|done].
  destruct (check_special db a effective) as [r|]; [|by apply timed_auths_run in Hm].
  rewrite St_bind_ok in Hm. destruct Hm as (d & w2 & Hd & Hm%timed_auths_run). unfold lift in Hd. by injection Hd as _ ->.
Qed.
Lemma timed_levels_run ck l used : forall w w' used',
  timed_levels g ck l used w = (w', Ok used') -> check_levels ck l used = (used', Ok tt).
Proof.
  revert used. induction l as [|[level d] l IH]; intros used w w' used'; cbn [timed_levels check_levels]; [by intros [= _ <-]|].
  rewrite St_bind_ok. intros ([] & w1 & _ & Hr). unfold mbind at 1, St_bind at 1.
  destruct (satisfied_level (with_delay d ck) level used) as [used1 r].
  rewrite St_bind_ok in Hr. destruct Hr as (b & w2 & Hb & Hr). unfold lift in Hb. injection Hb as _ ->.
  rewrite St_bind_ok in Hr. destruct Hr as ([] & w3 & Ha & Hr%IH). destruct b; [|discriminate Ha].
  run_st. exact Hr.
Qed.
Lemma timed_check_run acts perms d w w' : timed_check_authorization g acts perms d w = (w', Ok tt) ->
  check_authorization (ch_auth (nd_chain (w_node w))) acts [] perms d false = Ok tt.
Proof.
  unfold timed_check_authorization, check_authorization. rewrite St_bind_ok. intros (w0 & w1 & [= -> ->] & Hr). cbv zeta in Hr |- *.
  rewrite St_bind_ok in Hr. destruct Hr as (m & w2 & Hm%timed_actions_run & Hr). rewrite result_bind_ok. exists m. split; [done|].
  rewrite St_bind_ok in Hr. destruct Hr as (used & w3 & Hu%timed_levels_run & Hr). rewrite Hu.
  unfold st_assert, lift in Hr. by injection Hr as _ Hr.
Qed.
End timed.

(** ** Contexts *)
Definition with_generated (l : list generated_transaction) (db : auth_db) : auth_db :=
  AuthDb (permissions db) (next_permission db) (usages db) (next_usage db) (links db) l (pending_block_time db)
    (max_authority_depth db) (max_transaction_delay db).
Lemma with_generated_fixed l db db' : auth_fixed db' = auth_fixed db -> with_generated l db' = with_generated l db.
Proof. unfold auth_fixed, with_generated. by intros [= -> -> -> -> -> -> -> ->]. Qed.
Lemma with_generated_id db : with_generated (generated db) db = db.
Proof. by destruct db. Qed.

Definition chain_at (s : applying) : chain := nd_chain (w_node (ap_world s)).
Definition node_fixed (n : node) := (nd_config n, nd_transactions n, nd_summaries n, nd_global_sequence n).
(** The time since the transaction was published. *)
Definition waited (s : applying) : Z :=
  pending_time (w_node (ap_world s)) - published (tc_args (w_tc (ap_world s))).

(** An inline action to the contract itself, or one that its code is authorized to send. *)
Definition inline_allowed `{MetaSet} (owner : account_name) (s : applying) (a : action) : Prop :=
  act_account a = owner \/ exists l, check_authorization (with_generated l (ch_auth (chain_at s))) [a] []
    [PermissionLevel owner besio_code_name] (waited s) false = Ok tt.

Record confined `{MetaSet} (owner : account_name) (payers : list account_name) (s s' : applying) : Prop := {
  co_receiver : ap_receiver (ap_ctx s') = ap_receiver (ap_ctx s);
  co_privileged : ap_privileged (ap_ctx s') = ap_privileged (ap_ctx s);
  co_chain : chain_confined owner payers (chain_at s) (chain_at s');
  co_node : node_fixed (w_node (ap_world s')) = node_fixed (w_node (ap_world s));
  co_tc : tc_fixed (w_tc (ap_world s')) = tc_fixed (w_tc (ap_world s));
  co_inline : exists new, ap_inline_actions (ap_ctx s') = ap_inline_actions (ap_ctx s) ++ new /\
    Forall (inline_allowed owner s) new;
  co_free : exists new, ap_cfa_inline_actions (ap_ctx s') = ap_cfa_inline_actions (ap_ctx s) ++ new /\
    Forall (fun a => act_authorization a = []) new
}.
Definition runs_for (owner : account_name) (s : applying) : Prop :=
  ap_receiver (ap_ctx s) = owner /\ ap_privileged (ap_ctx s) = false.

Lemma inline_allowed_earlier `{MetaSet} owner s s' a :
  auth_fixed (ch_auth (chain_at s')) = auth_fixed (ch_auth (chain_at s)) ->
  tc_fixed (w_tc (ap_world s')) = tc_fixed (w_tc (ap_world s)) -> inline_allowed owner s' a -> inline_allowed owner s a.
Proof.
  intros Hf Ht [Ha|[l Hl]]; [by left|right]. exists l. rewrite (with_generated_fixed _ _ _ Hf) in Hl.
  assert (waited s' = waited s) as <-; [|done]. unfold waited, pending_time.
  unfold auth_fixed, chain_at in Hf. injection Hf as _ _ _ _ _ -> _ _. unfold tc_fixed in Ht. by injection Ht as -> _ _ _ _.
Qed.

Section contexts.
Context `{MetaSet} (owner : account_name) (payers : list account_name).
Notation conf := (confined owner payers).
Definition steps (s s' : applying) : Prop := runs_for owner s -> conf s s'.

Lemma auth_fixed_chain c c' : chain_fixed c' = chain_fixed c -> auth_fixed (ch_auth c') = auth_fixed (ch_auth c).
Proof. intros E. apply (f_equal (fun x => x.1.1.1)) in E. exact E. Qed.

#[export] Instance steps_preorder : PreOrder steps.
Proof.
  split.
  - intros s _. split; try done; exists []; by rewrite app_nil_r.
  - intros s s1 s2 H1 H2 [Hr Hp]. specialize (H1 (conj Hr Hp)). destruct H1 as [A1 A2 A3 A4 A5 (i1 & I1 & J1) (f1 & F1 & K1)].
    destruct H2 as [B1 B2 B3 B4 B5 (i2 & I2 & J2) (f2 & F2 & K2)]; [split; congruence|].
    split; [congruence..|by etransitivity|congruence|congruence| |].
    + exists (i1 ++ i2). rewrite I2, I1, app_assoc. split; [done|]. apply Forall_app. split; [done|].
      eapply Forall_impl; [exact J2|]. intros a. apply inline_allowed_earlier; [|done]. apply auth_fixed_chain, A3.
    + exists (f1 ++ f2). rewrite F2, F1, app_assoc. split; [done|]. by apply Forall_app.
Qed.

(** The state is known to run for the owner. *)
Lemma steps_get {A} (k : applying -> St applying A) : (forall s, runs_for owner s -> moves steps (k s)) -> moves steps (get ≫= k).
Proof. intros Hk s Hs. unfold mbind, St_bind, get. by apply Hk. Qed.
Lemma steps_ctx {A} (k : apply_context -> St applying A) :
  (forall c, ap_receiver c = owner -> ap_privileged c = false -> moves steps (k c)) -> moves steps (ctx ≫= k).
Proof. intros Hk s [Hr Hp]. unfold mbind, St_bind, ctx, gets. by apply Hk. Qed.
Lemma moves_bind_post {A B} (Q : A -> Prop) (m : St applying A) (k : A -> St applying B) :
  moves steps m -> (forall s a s', m s = (s', Ok a) -> Q a) -> (forall a, Q a -> moves steps (k a)) -> moves steps (m ≫= k).
Proof.
  intros Hm HQ Hk s. unfold mbind, St_bind. specialize (Hm s). specialize (HQ s). destruct (m s) as [s' [a|e]]; [|done].
  etransitivity; [exact Hm|]. apply Hk. by eapply HQ.
Qed.

Lemma steps_chain {A} (m : St chain A) : moves (chain_confined owner payers) m -> moves steps (onto_chain m).
Proof.
  intros Hm s _. specialize (Hm (chain_at s)). unfold onto_chain, in_world, TransactionContext.on_chain, chain_at in *.
  destruct (m _) as [c r]. split; try done; exists []; by rewrite app_nil_r.
Qed.
Lemma steps_still {A} (m : St world A) : keeps still m -> moves steps (in_world m).
Proof.
  intros Hm s _. specialize (Hm (ap_world s)). unfold in_world. destruct (m (ap_world s)) as [w r].
  pose proof (f_equal fst Hm) as Hn. pose proof (f_equal snd Hm) as Ht. cbn [still fst snd] in Hn, Ht.
  split; unfold chain_at; cbn [fst ap_world ap_ctx]; rewrite ?Hn; try first [done|reflexivity]; exists []; by rewrite app_nil_r.
Qed.
End contexts.

(** ** Calls of a contract *)
Lemma mark_used_actor a auths : forall used used', mark_used a auths used = Some used' -> a ∈ map actor auths.
Proof.
  induction auths as [|l auths IH]; intros [|u used] used'; cbn [mark_used map]; try done.
  destruct (actor l =? a) eqn:E; bool_to_prop; [intros _; apply elem_of_cons; by left|].
  intros (x & Hx & _)%fmap_Some. apply elem_of_cons. right. by eapply IH.
Qed.
Lemma require_actor act a c c' : require_authorization act a c = (c', Ok tt) -> a ∈ map actor (act_authorization act).
Proof.
  unfold require_authorization. run_st. destruct (mark_used _ _ _) as [used|] eqn:E; [|done]. intros _. by eapply mark_used_actor.
Qed.

Section calls.
Context `{MetaSet} `{TrxCrypto} `{NativeEnv} (g : setting) (act : action) (context_free : bool).
Context (owner : account_name).
Hypothesis Hcheck : skip_auth_check g = false.
Notation payers := (map actor (act_authorization act)).
Notation steps := (steps owner payers).

Lemma confined_ctx s f :
  ap_receiver (f (ap_ctx s)) = ap_receiver (ap_ctx s) -> ap_privileged (f (ap_ctx s)) = ap_privileged (ap_ctx s) ->
  (exists new, ap_inline_actions (f (ap_ctx s)) = ap_inline_actions (ap_ctx s) ++ new /\ Forall (inline_allowed owner s) new) ->
  (exists new, ap_cfa_inline_actions (f (ap_ctx s)) = ap_cfa_inline_actions (ap_ctx s) ++ new /\
     Forall (fun a => act_authorization a = []) new) ->
  confined owner payers s (ctx_mod f s).1.
Proof. intros Hr Hp Hi Hf. by split. Qed.

Lemma steps_recipient a : moves steps (require_recipient a).
Proof.
  intros s _. apply confined_ctx; destruct (decide _); try done; exists []; by rewrite app_nil_r.
Qed.
Lemma steps_free a : moves steps (execute_context_free_inline a).
Proof.
  unfold execute_context_free_inline. apply steps_get. intros s _. apply moves_bind; [apply _|apply moves_assert; apply _|].
  intros _. destruct (bool_decide (act_authorization a = [])) eqn:E; bool_to_prop.
  - apply moves_bind; [apply _|apply moves_assert; apply _|]. intros _ s' _. apply confined_ctx; try done.
    + exists []. by rewrite app_nil_r.
    + exists [a]. split; [done|]. by constructor.
  - intros s'. unfold mbind, St_bind, st_assert, lift. cbn. reflexivity.
Qed.
Lemma steps_inline a : moves steps (execute_inline g a).
Proof.
  unfold execute_inline. intros s [Hr Hp]. unfold mbind at 1, St_bind at 1, get at 1. cbv zeta. revert Hr Hp.
  assert (Hadd : forall s', steps s s' -> runs_for owner s -> inline_allowed owner s' a -> steps s (ctx_mod (fun c =>
    ApplyContext (ap_receiver c) (ap_privileged c) (ap_notified c) (ap_inline_actions c ++ [a]) (ap_cfa_inline_actions c)
      (ap_keyval_cache c) (ap_idx64_cache c) (ap_idx128_cache c)) s').1).
  { intros s' Hs' Hrun Ha. etransitivity; [exact Hs'|]. intros _. apply confined_ctx; try done.
    - exists [a]. split; [done|]. by constructor.
    - exists []. by rewrite app_nil_r. }
  intros Hr Hp. assert (Hrun : runs_for owner s) by done. rewrite Hcheck, Hp. cbn [negb andb].
  unfold st_assert, lift. unfold mbind at 1, St_bind at 1. destruct (bes_assert _ _); [|by apply steps_preorder].
  unfold mbind at 1, St_bind at 1. destruct (for_all _ _); [|by apply steps_preorder].
  unfold mbind, St_bind. destruct (act_account a =? ap_receiver (ap_ctx s)) eqn:E; bool_to_prop; cbn [negb].
  - apply Hadd; [by apply steps_preorder|done|left; by rewrite E|done].
  - pose proof (steps_still owner payers (timed_check_authorization g [a] [PermissionLevel (ap_receiver (ap_ctx s)) besio_code_name]
      (pending_time (w_node (ap_world s)) - published (tc_args (w_tc (ap_world s))))) (timed_check_still _ _ _ _) s) as Hs.
    unfold in_world in *. destruct (timed_check_authorization _ _ _ _ _) as [w r] eqn:Et. destruct r as [[]|e]; [|by apply Hs].
    apply timed_check_run in Et. apply Hadd; [done|done| |done]. 
    eapply (inline_allowed_earlier owner (Applying w (ap_ctx s)) s); [| |right].
    + apply auth_fixed_chain. symmetry. apply Hs, Hrun.
    + symmetry. apply Hs, Hrun.
    + exists (generated (ch_auth (chain_at s))). rewrite with_generated_id, <- Hr. exact Et.
Qed.

(** A context without privileges keeps its receiver and action, and the chain confined. *)
Definition table_steps (c c' : context) : Prop :=
  (cx_receiver c', cx_privileged c', cx_act c') = (cx_receiver c, cx_privileged c, cx_act c) /\
  (cx_receiver c = owner -> cx_privileged c = false -> cx_act c = act -> chain_confined owner payers (cx_chain c) (cx_chain c')).
#[local] Instance table_steps_preorder : PreOrder table_steps.
Proof.
  split; [intros c; split; [done|intros ???; reflexivity]|]. intros c c1 c2 [E1 H1'] [E2 H2']. split; [by rewrite E2|].
  injection E1 as E3 E4 E5. intros. etransitivity; [by apply H1'|]. apply H2'; congruence.
Qed.
Lemma table_steps_chain {A} (m : St chain A) : moves (chain_confined owner payers) m -> moves table_steps (ContractTables.on_chain m).
Proof.
  intros Hm c. specialize (Hm (cx_chain c)). unfold ContractTables.on_chain. destruct (m (cx_chain c)) as [c' r]. by split.
Qed.
Lemma update_usage_fixed p d : keeps (fun c => (cx_receiver c, cx_privileged c, cx_act c)) (@update_db_usage (env_at g) p d).
Proof.
  unfold update_db_usage. keeps_step; intros c; unfold ContractTables.on_chain;
    by destruct ((_ : St chain unit) (cx_chain c)).
Qed.
Lemma update_usage_moves p d : delta_ok d -> moves table_steps (@update_db_usage (env_at g) p d).
Proof.
  intros Hd c. split; [apply update_usage_fixed|]. intros Hr Hp Ha. unfold update_db_usage.
  unfold mbind at 1, St_bind at 1, get. rewrite Hr, Hp, Ha. cbn [orb].
  assert (Hram : forall k, d <= 0 \/ p = owner \/ p ∈ payers ->
    chain_confined owner payers (cx_chain k) (cx_chain (ContractTables.on_chain (add_ram_usage p d) k).1)).
  { intros k Hpay. pose proof (ram_confined owner payers p d Hd Hpay (cx_chain k)) as Hc. unfold ContractTables.on_chain.
    by destruct (add_ram_usage p d (cx_chain k)) as [c' r]. }
  destruct ((0 <? d) && negb (p =? owner)) eqn:E.
  - unfold mbind, St_bind, st_assert, lift. destruct (bes_assert _ _) as [[]|e]; [|cbn; reflexivity].
    destruct (ContractTables.on_chain (require_authorization act p) c) as [k r] eqn:Ek.
    unfold ContractTables.on_chain in Ek. pose proof (require_confined owner payers act p (cx_chain c)) as Hc.
    destruct (require_authorization act p (cx_chain c)) as [c1 r1] eqn:Er. injection Ek as <- <-.
    destruct r1 as [[]|e]; [|exact Hc]. etransitivity; [exact Hc|]. apply (Hram (Context c1 _ _ _ _ _ _ _ _)).
    right. right. by eapply require_actor.
  - unfold mbind, St_bind, mret, St_ret. apply Hram. apply andb_false_iff in E as [E|E]; bool_to_prop; [by left|right; by left].
Qed.

(** Every change of memory of a database call is charged by [update_db_usage]. *)
Lemma steps_db k : moves steps (db_access g act k).
Proof.
  intros s [Hr Hp]. unfold db_access.
  assert (moves table_steps (@run_call (env_at g) k)) as Hk.
  { apply run_call_moves; [apply _| |].
    - intros c c' [= Ec Er Ep Ea]. split; [by rewrite Er, Ep, Ea|]. intros _ _ _. rewrite Ec. reflexivity.
    - intros p d Hd. apply update_usage_moves. done. }
  specialize (Hk (table_context act s)). destruct (run_call k _) as [t r]. destruct Hk as [_ Hk].
  specialize (Hk Hr Hp eq_refl). split; try first [done|exact Hk]; exists []; by rewrite app_nil_r.
Qed.

Lemma steps_schedule i p trx b : moves steps (schedule_deferred_transaction g act i p trx b).
Proof.
  unfold schedule_deferred_transaction. apply moves_bind; [apply _|apply moves_assert; apply _|]. intros _.
  apply steps_get. intros s [Hr Hp]. cbv zeta. rewrite Hcheck, Hp, Hr. cbn [negb andb].
  apply moves_bind; [apply _|apply moves_lift; apply _|]. intros _.
  apply moves_bind; [apply _|apply steps_still, add_net_still|]. intros _.
  apply (moves_bind_post owner payers (fun _ => p = owner \/ p ∈ payers)).
  { apply moves_bind; [apply _| |].
    - destruct (p =? owner); [apply moves_ret; apply _|apply steps_chain, require_confined].
    - intros _. destruct (existsb _ _); [apply steps_still, timed_check_still|apply moves_ret; apply _]. }
  { intros s1 [] s2 Hs. destruct (p =? owner) eqn:E; bool_to_prop; [by left|right]. cbn [negb] in Hs.
    rewrite St_bind_ok in Hs. destruct Hs as ([] & s3 & Hs & _). revert Hs. unfold onto_chain, in_world, TransactionContext.on_chain.
    destruct (require_authorization act p _) as [c r] eqn:Ec. intros [= _ ->]. by eapply require_actor. }
  intros _ Hpay.
  apply (moves_bind_post owner payers (fun d => Z.of_nat (length d) <= 2 ^ 48)); [apply moves_lift; apply _| |].
  { intros s1 d s2. unfold lift. intros [= _ Hd]. by eapply pack_value_bound, Hd; apply sized_transaction. }
  intros packed Hlen.
  apply moves_bind; [apply _| |intros _].
  { destruct (existsb _ _).
    - do 2 (apply moves_bind; [apply _|apply moves_assert; apply _|intros _]). apply steps_chain. by apply replace_confined.
    - apply moves_bind; [apply _|apply moves_lift; apply _|intros id]. apply steps_chain. by apply create_confined. }
  apply moves_bind; [apply _|apply moves_assert; apply _|intros _]. apply steps_chain, ram_confined; [|by right].
  unfold delta_ok. pose proof (u32_range (Z.of_nat (length packed))). change generated_transaction_object_size with 272. lia.
Qed.

Lemma steps_aware m : moves steps m -> moves steps (aware context_free m).
Proof. intros Hm. apply moves_bind; [apply _|apply moves_assert; apply _|by intros _]. Qed.
Lemma steps_privileged m : moves steps (privileged_api context_free m).
Proof.
  apply steps_aware, steps_ctx. intros c _ Hp. rewrite Hp. intros s. unfold mbind, St_bind, st_assert, lift. cbn. reflexivity.
Qed.
Lemma steps_send f d : (forall a, moves steps (f a)) -> moves steps (send_action f d).
Proof.
  intros Hf. unfold send_action. apply steps_get. intros s _. apply moves_bind; [apply _|apply moves_assert; apply _|].
  intros _. apply moves_bind; [apply _|apply moves_lift; apply _|done].
Qed.

Lemma run_host_steps k : moves steps (run_host g act context_free k).
Proof.
  destruct k; cbn [run_host]; try apply steps_privileged; apply steps_aware || apply steps_still, checktime_still.
  - apply steps_chain, require_confined.
  - apply steps_chain, require2_confined.
  - apply steps_recipient.
  - apply steps_send, steps_inline.
  - apply steps_send, steps_free.
  - apply moves_capture, moves_bind; [apply _|apply moves_lift; apply _|]. intros trx. apply steps_schedule.
  - apply steps_ctx. intros c Hr _. rewrite Hr. apply moves_bind; [apply _|apply steps_chain, cancel_confined|].
    intros b. apply moves_ret. apply _.
  - apply steps_db.
Qed.
Lemma run_program_steps p : moves steps (run_program g act context_free p).
Proof. apply run_program_moves; [apply _|]. apply run_host_steps. Qed.
End calls.

(** ** Example: a contract whose account accepts its code *)
Module ContractSample.
Export BillingSample.
#[export] Existing Instance TrxSample.short_crypto.

Definition by_code : permission_object := PermissionObject 2 1 1 system_account_name active_name 1000000
  (Authority 1 [] [PermissionLevelWeight (PermissionLevel system_account_name besio_code_name) 1] []).
Definition coded_chain : chain :=
  let a := ch_auth genesis in
  Chain (AuthDb (<[2 := by_code]> (permissions a)) (next_permission a) (usages a) (next_usage a) (links a) (generated a)
           (pending_block_time a) (max_authority_depth a) (max_transaction_delay a))
    (ch_limits genesis) (ch_accounts genesis) (ch_sequences genesis) ∅ [false].
Definition coded_world : world :=
  World (Node coded_chain sample_config ∅ (fun _ => digest_nil) 0 ContractTables.no_rows)
    (new_context (sample_args sample_transfer) 0) 0.
Definition coded : applying := Applying coded_world (new_apply_context system_account_name).
Definition coded_action : action := Action system_account_name 5 [PermissionLevel system_account_name active_name] [].
Definition coded_inline : action :=
  Action null_account_name onramusage_name [PermissionLevel system_account_name active_name] [].
(** Stores a row and sends an action to another account. *)
Definition coded_program : program :=
  Then (CallDb (DbStore 1 2 system_account_name 3 [4; 5])) (fun _ =>
  match pack_value c_action coded_inline with
  | Ok d => Then (CallSendInline d) (fun _ => Return)
  | Throw e => Trap e
  end).
Definition coded_after : applying := (run_program validating coded_action false coded_program coded).1.
Lemma coded_weights i q : permissions (ch_auth coded_chain) !! i = Some q -> weights_ok (po_auth q).
Proof.
  change (permissions (ch_auth coded_chain)) with (<[2 := by_code]> (permissions (ch_auth genesis))).
  rewrite lookup_insert_Some. intros [[_ <-]|[_ Hq]]; [|exact (genesis_weights i q Hq)].
  constructor; [cbn; lia|constructor].
Qed.
Lemma coded_stored : stored_ok coded_chain.
Proof.
  unfold stored_ok. assert (generated (ch_auth coded_chain) = []) as -> by (vm_compute; reflexivity). constructor.
Qed.
End ContractSample.
Import ContractSample.

(** ** Claims *)

(** C5 Whatever a contract without privileges calls, in whatever order, and whether it
    returns or fails: permissions, links, accounts, sequence numbers, resource limits and
    chain parameters stay, and so do the deferred transactions of other senders and the
    receipts and limits of the transaction. The memory used by an account other than the
    contract's own and those that authorized the action does not grow; an account whose
    memory use grew is checked at the end of the transaction. An inline action to another
    account is queued only if each of its authorizations is derivable from the
    contract's [besio.code] permission alone; an ordinary one within the time the
    transaction has waited, and by at least the permission that the action is linked to.
    Context-free inline actions carry no authorization. *)
Theorem contract_confined `{MetaSetLaws} `{TrxCrypto} `{NativeEnv} (g : setting) (act : action) (cf : bool) (p : program)
    (s s' : applying) (r : result unit) :
  let owner := ap_receiver (ap_ctx s) in
  let c := chain_at s in
  let c' := chain_at s' in
  skip_auth_check g = false -> ap_privileged (ap_ctx s) = false -> stored_ok c ->
  (forall i q, permissions (ch_auth c) !! i = Some q -> weights_ok (po_auth q)) ->
  run_program g act cf p s = (s', r) ->
  chain_fixed c' = chain_fixed c /\ node_fixed (w_node (ap_world s')) = node_fixed (w_node (ap_world s)) /\
  tc_fixed (w_tc (ap_world s')) = tc_fixed (w_tc (ap_world s)) /\ others owner c' = others owner c /\
  (forall b, b <> owner -> b ∉ map actor (act_authorization act) -> ram_of c' b <= ram_of c b) /\
  (forall b, ram_of c b < ram_of c' b -> b ∈ ch_validate_ram c') /\
  (exists new, ap_inline_actions (ap_ctx s') = ap_inline_actions (ap_ctx s) ++ new /\
     forall a auth, a ∈ new -> act_account a <> owner -> auth ∈ act_authorization a ->
     exists d, level_ok (make_checker (ch_auth c) [] [PermissionLevel owner besio_code_name] d) auth /\
       (act_account a <> system_account_name ->
          d <= effective_delay (ch_auth c) (waited s) /\ minimum_met (ch_auth c) a auth)) /\
  (exists new, ap_cfa_inline_actions (ap_ctx s') = ap_cfa_inline_actions (ap_ctx s) ++ new /\
     Forall (fun a => act_authorization a = []) new).
Proof.
  intros owner c c' Hskip Hp Hst Hw Hrun. pose proof (run_program_steps g act cf owner Hskip p s (conj eq_refl Hp)) as Hs.
  rewrite Hrun in Hs. destruct Hs as [_ _ [C1 C2 _ C4 _ C6] N T (new & Hn & Hall) F]. split_and!; try done; [by apply C4|].
  exists new. split; [done|]. intros a auth Ha Hne Hauth. rewrite Forall_forall in Hall.
  destruct (Hall a Ha) as [?|[l Hl]]; [done|].
  destruct (authorization_granted (with_generated l (ch_auth c)) Hw _ _ _ _ _ Hl a auth) as (d & Hd & Hsp); [by left|done|].
  exists d. split; [exact Hd|]. intros Hsys. unfold check_special in Hsp.
  rewrite (proj2 (Z.eqb_neq _ _) Hsys) in Hsp. exact Hsp.
Qed.

Lemma contract_confined_witness :
  run_program validating coded_action false coded_program coded = (coded_after, Ok tt) /\
  system_account_name ∈ ch_validate_ram (chain_at coded_after) /\
  exists d, level_ok (make_checker (ch_auth (chain_at coded)) [] [PermissionLevel system_account_name besio_code_name] d)
    (PermissionLevel system_account_name active_name).
Proof.
  assert (Hrun : run_program validating coded_action false coded_program coded = (coded_after, Ok tt)) by (vm_compute; reflexivity).
  destruct (contract_confined validating coded_action false coded_program coded coded_after (Ok tt))
    as (_ & _ & _ & _ & _ & Hgrown & (new & Hnew & Hall) & _).
  - done.
  - done.
  - exact coded_stored.
  - exact coded_weights.
  - exact Hrun.
  - split; [exact Hrun|]. split; [apply Hgrown; by vm_compute|].
    assert (new = [coded_inline]) as -> by (symmetry; etransitivity; [|exact Hnew]; vm_compute; reflexivity).
    destruct (Hall coded_inline (PermissionLevel system_account_name active_name)) as (d & Hd & _); [by left|done|by left|].
    exists d. exact Hd.
Defined.
