(* ===== verification/ApplyReceipts.v ===== *)
(** * Receipts of actions

    A transaction leaves one receipt for every receiver of every action it executed.
    Receipts are numbered: by the chain, by their receiver and by the accounts that
    authorized the action. *)
From S2P Require Import Prelude ContractTables Merkle BlockHeaderState BlockApply Names Raw Authority Transactions.
From S2P Require Import AuthorizationManager ResourceLimits NativeContract Controller TransactionContext TrxBilling.
From S2P Require Import PackSize ApplyContext ApplyFrame ApplyLimits ApplyConfined.

(** ** Numbers *)
Lemma u64_shift a b n k : u64 a = u64 (b + n) -> u64 (a + k) = u64 (b + (n + k)).
Proof.
  unfold u64. intros E. rewrite <- Zplus_mod_idemp_l, E, Zplus_mod_idemp_l. f_equal. lia.
Qed.
Lemma u64_u64 a : u64 (u64 a) = u64 a.
Proof. apply Z.mod_mod. lia. Qed.

(** The action and the receipt, in the order of execution. *)
Abbreviation log := (list (action * action_receipt)).
Definition received (x : account_name) (l : log) : Z := Z.of_nat (length (filter (fun e => ar_receiver e.2 = x) l)).
Definition authorized (x : account_name) (l : log) : Z :=
  Z.of_nat (length (filter (fun p => actor p = x) (concat (map (fun e => act_authorization e.1) l)))).
Lemma received_app x l1 l2 : received x (l1 ++ l2) = received x l1 + received x l2.
Proof. unfold received. rewrite filter_app, length_app. lia. Qed.
Lemma authorized_app x l1 l2 : authorized x (l1 ++ l2) = authorized x l1 + authorized x l2.
Proof. unfold authorized. rewrite map_app, concat_app, filter_app, length_app. lia. Qed.

Definition seq_of (w : world) : gmap Z account_sequence_object := ch_sequences (nd_chain (w_node w)).
Definition global_of (w : world) : Z := nd_global_sequence (w_node w).

(** What executing actions with this log leaves: the digests of the receipts, and the
    sequence numbers advanced by the receipts, which carry them. *)
Record logged `{TrxCrypto} (l : log) (w w' : world) : Prop := {
  lg_executed : tc_executed (w_tc w') = tc_executed (w_tc w) ++ map (fun e => receipt_digest e.2) l;
  lg_global : u64 (global_of w') = u64 (global_of w + Z.of_nat (length l));
  lg_numbered : forall i e, l !! i = Some e -> ar_global_sequence e.2 = u64 (global_of w + (Z.of_nat i + 1));
  lg_received : forall i e o, l !! i = Some e -> seq_of w !! ar_receiver e.2 = Some o ->
    ar_recv_sequence e.2 = u64 (as_recv_sequence o + received (ar_receiver e.2) (take (S i) l));
  lg_sequences : forall x o, seq_of w !! x = Some o -> exists o', seq_of w' !! x = Some o' /\
    u64 (as_recv_sequence o') = u64 (as_recv_sequence o + received x l) /\
    u64 (as_auth_sequence o') = u64 (as_auth_sequence o + authorized x l)
}.

Section logged.
Context `{TrxCrypto}.
Lemma logged_refl w : logged [] w w.
Proof.
  split; try done; rewrite ?app_nil_r, ?Z.add_0_r; try done.
  intros x o Ho. exists o. change (received x []) with 0. change (authorized x []) with 0. by rewrite !Z.add_0_r.
Qed.
Lemma logged_app l1 l2 w w1 w2 : logged l1 w w1 -> logged l2 w1 w2 -> logged (l1 ++ l2) w w2.
Proof.
  intros [E1 G1 N1 R1 S1] [E2 G2 N2 R2 S2]. split.
  - by rewrite E2, E1, map_app, app_assoc.
  - rewrite G2, length_app, Nat2Z.inj_add. by apply u64_shift.
  - intros i e [Hi|[Hl Hi]]%lookup_app_Some; [by apply N1|]. rewrite (N2 _ _ Hi).
    rewrite (u64_shift _ _ _ _ G1). f_equal. lia.
  - intros i e o [Hi|[Hl Hi]]%lookup_app_Some Ho.
    + rewrite take_app_le by (apply lookup_lt_Some in Hi; lia). by apply R1.
    + destruct (S1 _ _ Ho) as (o1 & Ho1 & Hr & _). rewrite (R2 _ _ _ Hi Ho1), (u64_shift _ _ _ _ Hr), take_app_ge by lia.
      rewrite received_app. replace (S i - length l1)%nat with (S (i - length l1)) by lia. done.
  - intros x o Ho. destruct (S1 _ _ Ho) as (o1 & Ho1 & Hr1 & Ha1). destruct (S2 _ _ Ho1) as (o2 & Ho2 & Hr2 & Ha2).
    exists o2. rewrite received_app, authorized_app. split; [done|].
    by rewrite Hr2, Ha2, (u64_shift _ _ _ _ Hr1), (u64_shift _ _ _ _ Ha1).
Qed.

(** Nothing is executed and no account loses its numbers. *)
Definition numbers (o : account_sequence_object) := (as_recv_sequence o, as_auth_sequence o).
Definition seq_quiet (c c' : chain) : Prop :=
  forall x o, ch_sequences c !! x = Some o -> exists o', ch_sequences c' !! x = Some o' /\ numbers o' = numbers o.
Lemma logged_quiet w w' : tc_executed (w_tc w') = tc_executed (w_tc w) -> global_of w' = global_of w ->
  seq_quiet (nd_chain (w_node w)) (nd_chain (w_node w')) -> logged [] w w'.
Proof.
  intros He Hg Hs. split; try done.
  - by rewrite He, app_nil_r.
  - by rewrite Hg, Z.add_0_r.
  - intros x o Ho. destruct (Hs x o Ho) as (o' & Ho' & [= Hr Ha]). exists o'.
    change (received x []) with 0. change (authorized x []) with 0. by rewrite Hr, Ha, !Z.add_0_r.
Qed.
End logged.

(** ** Native handlers *)
Lemma seq_on_auth {A} (m : St auth_db A) : keeps ch_sequences (on_auth m).
Proof. intros c. unfold on_auth. by destruct (m (ch_auth c)). Qed.
Lemma seq_on_limits {A} (m : St rl_db A) : keeps ch_sequences (on_limits m).
Proof. intros c. unfold on_limits. by destruct (m (ch_limits c)). Qed.
Lemma seq_set_accounts m : keeps ch_sequences (set_accounts m).
Proof. by apply keeps_modify. Qed.
Lemma seq_require act a : keeps ch_sequences (require_authorization act a).
Proof. unfold require_authorization. keeps_step. Qed.
#[local] Hint Resolve seq_on_auth seq_on_limits seq_set_accounts seq_require : keeps.
Lemma seq_ram a d : keeps ch_sequences (add_ram_usage a d).
Proof. unfold add_ram_usage. keeps_step. Qed.
#[local] Hint Resolve seq_ram : keeps.

Lemma wp_seq_keep {A B} (m : M A) (k : A -> M B) (Q : B -> chain -> Prop) (c : chain) seqs :
  ch_sequences c = seqs -> keeps ch_sequences m -> (forall a c', ch_sequences c' = seqs -> wp (k a) Q c') -> wp (m ≫= k) Q c.
Proof.
  intros Hc Hm Hk. apply wp_bind. apply (wp_keeps ch_sequences); [done|]. intros a c' Hc'. apply Hk. by rewrite Hc'.
Qed.
Ltac seq_keep Hc := eapply wp_seq_keep; [exact Hc|solve [keeps_step]|]; clear Hc; intros ? ? Hc; cbv beta.
Lemma quiet_keeps {A} (m : M A) c c1 : seq_quiet c c1 -> keeps ch_sequences m -> wp m (fun _ c' => seq_quiet c c') c1.
Proof. intros Hc Hm. apply (wp_keeps ch_sequences); [done|]. intros a c' E x o Ho. rewrite E. by apply Hc. Qed.
Lemma quiet_replace c c1 x o o' : ch_sequences c !! x = Some o -> numbers o' = numbers o ->
  ch_sequences c1 = <[x := o']> (ch_sequences c) -> seq_quiet c c1.
Proof.
  intros Ho Hn E y p Hp. rewrite E. destruct (decide (x = y)) as [<-|Hne]; [|exists p; by rewrite lookup_insert_ne].
  exists o'. rewrite lookup_insert_eq. split; [done|]. congruence.
Qed.
Lemma quiet_fresh c c1 x o' : ch_sequences c !! x = None -> ch_sequences c1 = <[x := o']> (ch_sequences c) -> seq_quiet c c1.
Proof. intros Ho E y p Hp. exists p. rewrite E, lookup_insert_ne; [done|]. congruence. Qed.

Section native.
Context `{NativeEnv}.
Lemma setcode_quiet act c : wp (apply_besio_setcode act) (fun _ c' => seq_quiet c c') c.
Proof.
  unfold apply_besio_setcode. assert (Hc : ch_sequences c = ch_sequences c) by done. revert Hc.
  generalize c at 1 4. intros c1 Hc. do 6 seq_keep Hc. cbv zeta. seq_keep Hc. wp_step. wp_step. rewrite Hc. seq_keep Hc.
  wp_step. wp_step. destruct (ch_sequences c !! _) as [o|] eqn:Eo; [|done]. cbn in *. simplify_eq.
  wp_step. unfold set_sequences at 1. wp_step. apply quiet_keeps; [|keeps_step].
  eapply quiet_replace; [exact Eo| |done]. done.
Qed.
Lemma setabi_quiet act c : wp (apply_besio_setabi act) (fun _ c' => seq_quiet c c') c.
Proof.
  unfold apply_besio_setabi. assert (Hc : ch_sequences c = ch_sequences c) by done. revert Hc.
  generalize c at 1 4. intros c1 Hc. do 3 seq_keep Hc. cbv zeta. wp_step. wp_step. rewrite Hc. seq_keep Hc.
  wp_step. wp_step. destruct (ch_sequences c !! _) as [o|] eqn:Eo; [|done]. cbn in *. simplify_eq.
  wp_step. unfold set_sequences at 1. wp_step. apply quiet_keeps; [|keeps_step].
  eapply quiet_replace; [exact Eo| |done]. done.
Qed.
Lemma newaccount_quiet act c : wp (apply_besio_newaccount act) (fun _ c' => seq_quiet c c') c.
Proof.
  unfold apply_besio_newaccount. assert (Hc : ch_sequences c = ch_sequences c) by done. revert Hc.
  generalize c at 1 4. intros c1 Hc. do 4 seq_keep Hc. cbv zeta. do 4 seq_keep Hc. wp_step. wp_step. rewrite Hc.
  do 2 seq_keep Hc. wp_step. wp_step. bool_to_prop. wp_step. unfold set_sequences at 1. wp_step.
  apply quiet_keeps; [by eapply quiet_fresh|]. keeps_step.
Qed.
Lemma native_quiet receiver scope name h act c :
  find_apply_handler receiver scope name = Some h -> wp (h act) (fun _ c' => seq_quiet c c') c.
Proof.
  intros Hh. assert (Hrefl : seq_quiet c c) by (intros x o Ho; by exists o).
  pattern h. apply (find_apply_handler_cases _ _ _ _ _ Hh);
    [apply newaccount_quiet|apply setcode_quiet|apply setabi_quiet|apply quiet_keeps; [done|]..];
    unfold apply_besio_updateauth, apply_besio_deleteauth, apply_besio_linkauth, apply_besio_unlinkauth,
      apply_besio_canceldelay, cancel_deferred_transaction; keeps_step.
Qed.
End native.

(** ** Numbering *)
Definition actors_of (x : account_name) (l : list permission_level) : Z :=
  Z.of_nat (length (filter (fun p => actor p = x) l)).
Lemma auth_sequences_spec l m c : wp (auth_sequences l m) (fun _ c' =>
  forall x o, ch_sequences c !! x = Some o -> exists o', ch_sequences c' !! x = Some o' /\
    as_recv_sequence o' = as_recv_sequence o /\ u64 (as_auth_sequence o') = u64 (as_auth_sequence o + actors_of x l)) c.
Proof.
  revert m c. induction l as [|p l IH]; intros m c; cbn [auth_sequences].
  { wp_step. intros x o Ho. exists o. change (actors_of x []) with 0. by rewrite Z.add_0_r. }
  apply wp_bind. unfold next_auth_sequence, get_sequences, set_sequences. do 4 wp_step.
  destruct (ch_sequences c !! actor p) as [q|] eqn:Eq; [|done]. cbn in *. simplify_eq. do 5 wp_step.
  eapply wp_mono; [apply IH|]. cbn [ch_sequences]. intros _ c' Hc x o Ho.
  unfold actors_of in *. rewrite filter_cons. destruct (decide (actor p = x)) as [<-|Hne].
  - rewrite Eq in Ho. injection Ho as <-. destruct (Hc (actor p) _ (lookup_insert_eq _ _ _)) as (o' & Ho' & Hr & Ha).
    exists o'. split; [done|]. split; [done|]. cbn [as_auth_sequence] in Ha. rewrite Ha. cbn [length].
    unfold u64. rewrite Zplus_mod_idemp_l. f_equal. lia.
  - apply Hc. by rewrite lookup_insert_ne.
Qed.
Lemma next_recv_spec x c : wp (next_recv_sequence x) (fun n c' => exists o, ch_sequences c !! x = Some o /\
  n = u64 (as_recv_sequence o + 1) /\ ch_sequences c' = <[x := AccountSequence n (as_auth_sequence o) (as_code_sequence o)
    (as_abi_sequence o)]> (ch_sequences c)) c.
Proof.
  unfold next_recv_sequence, get_sequences, set_sequences. do 4 wp_step.
  destruct (ch_sequences c !! x) as [q|] eqn:Eq; [|done]. cbn in *. simplify_eq. do 5 wp_step. by exists a.
Qed.

(** ** What contracts ask for *)

(** The accounts to notify, once each, and the actions to execute, in the order of the
    calls. *)
Fixpoint notified (l : list account_name) (calls : list host_call) : list account_name :=
  match calls with
  | [] => l
  | CallRequireRecipient a :: calls => notified (if decide (a ∈ l) then l else l ++ [a]) calls
  | _ :: calls => notified l calls
  end.
Definition sent_inline (calls : list host_call) : list action :=
  omap (fun k => match k with
    | CallSendInline d => match unpack_value c_action d with Ok a => Some a | Throw _ => None end
    | _ => None end) calls.
Definition sent_context_free (calls : list host_call) : list action :=
  omap (fun k => match k with
    | CallSendContextFreeInline d => match unpack_value c_action d with Ok a => Some a | Throw _ => None end
    | _ => None end) calls.
Lemma notified_app l c1 c2 : notified l (c1 ++ c2) = notified (notified l c1) c2.
Proof. revert l. induction c1 as [|k c1 IH]; intros l; [done|]. by destruct k; cbn. Qed.
Lemma sent_inline_app c1 c2 : sent_inline (c1 ++ c2) = sent_inline c1 ++ sent_inline c2.
Proof. apply omap_app. Qed.
Lemma sent_context_free_app c1 c2 : sent_context_free (c1 ++ c2) = sent_context_free c1 ++ sent_context_free c2.
Proof. apply omap_app. Qed.
Lemma notified_prefix l calls : exists new, notified l calls = l ++ new /\ (NoDup l -> NoDup (notified l calls)).
Proof.
  revert l. induction calls as [|k calls IH]; intros l; [exists []; by rewrite app_nil_r|].
  destruct k; cbn [notified]; try apply IH. destruct (decide (recipient ∈ l)) as [Ha|Ha]; [apply IH|].
  destruct (IH (l ++ [recipient])) as (new & Hn & Hd). exists ([recipient] ++ new). rewrite app_assoc. split; [done|].
  intros Hl. apply Hd, NoDup_app. split; [done|]. split; [|apply NoDup_singleton].
  intros x Hx ->%list_elem_of_singleton. done.
Qed.

(** ** One receiver *)
Section receivers.
Context `{MetaSet} `{TrxCrypto} `{NativeEnv} `{Wasm} (g : setting) (act : action) (cf : bool).

(** The calls of a program that returns. *)
Inductive calls_of : program -> applying -> list host_call -> applying -> Prop :=
| calls_return s : calls_of Return s [] s
| calls_then k next s s1 l s' : run_host g act cf k s = (s1, Ok tt) -> calls_of (next s1) s1 l s' ->
    calls_of (Then k next) s (k :: l) s'.

(** Running a receiver from [s] to [s']: behind the native handler, in the state [s1], the
    contract of the receiver makes these calls, unless there is none to run. *)
Definition runs_contract (receiver : account_name) (a : account_object) : bool :=
  bool_decide (ac_code a <> []) &&
  negb ((act_account act =? system_account_name) && (act_name act =? setcode_name) && (receiver =? system_account_name)).
Definition receiver_calls (s s' : applying) (l : list host_call) : Prop :=
  let receiver := ap_receiver (ap_ctx s) in
  exists s1 a, ch_accounts (nd_chain (w_node (ap_world s1))) !! receiver = Some a /\
    (if runs_contract receiver a then calls_of (wasm_apply (ac_code a) receiver act s1) s1 l s'
     else l = [] /\ s1 = s').

(** A call changes these parts of the context the way it says. *)
Definition asked (s : applying) :=
  (ap_notified (ap_ctx s), ap_inline_actions (ap_ctx s), ap_cfa_inline_actions (ap_ctx s)).
Definition answered (l : list host_call) (s s' : applying) : Prop :=
  asked s' = (notified (ap_notified (ap_ctx s)) l,
    ap_inline_actions (ap_ctx s) ++ sent_inline l, ap_cfa_inline_actions (ap_ctx s) ++ sent_context_free l).
Lemma answered_nil s s' : asked s' = asked s -> answered [] s s'.
Proof. intros E. unfold answered. rewrite E, !app_nil_r. done. Qed.
Lemma answered_app l1 l2 s s1 s2 : answered l1 s s1 -> answered l2 s1 s2 -> answered (l1 ++ l2) s s2.
Proof.
  unfold answered, asked. intros [= E2 E3 E4] ->.
  by rewrite E2, E3, E4, notified_app, sent_inline_app, sent_context_free_app, !app_assoc.
Qed.
Lemma asked_in_world {A} (m : St world A) : keeps asked (in_world m).
Proof. intros s. unfold in_world. by destruct (m (ap_world s)). Qed.
Lemma asked_still {A} (m : St world A) : keeps w_node m ->
  keeps (fun s => (asked s, ch_accounts (nd_chain (w_node (ap_world s))))) (in_world m).
Proof. intros Hm s. specialize (Hm (ap_world s)). unfold in_world. destruct (m (ap_world s)). cbn in *. by rewrite Hm. Qed.
Lemma asked_chain {A} (m : St chain A) : keeps asked (onto_chain m).
Proof. apply asked_in_world. Qed.
Lemma asked_ctx : keeps asked ctx.
Proof. done. Qed.
Lemma asked_db k : keeps asked (db_access g act k).
Proof. intros s. unfold db_access. by destruct (run_call k _). Qed.
#[local] Hint Resolve asked_in_world asked_chain asked_ctx asked_db keeps_capture : keeps.

Lemma execute_inline_asked a s : wp (execute_inline g a) (fun _ s' => asked s' =
  (ap_notified (ap_ctx s), ap_inline_actions (ap_ctx s) ++ [a], ap_cfa_inline_actions (ap_ctx s))) s.
Proof.
  unfold execute_inline. apply wp_bind, wp_get. cbv zeta. apply wp_bind, wp_assert. intros _.
  apply wp_bind, wp_lift. intros _ _. apply wp_bind. apply (wp_keeps asked); [keeps_step|]. intros [] s1 E.
  unfold asked in *. injection E as E2 E3 E4. unfold ctx_mod, modify_st, wp. cbn. congruence.
Qed.
Lemma execute_context_free_inline_asked a s : wp (execute_context_free_inline a) (fun _ s' => asked s' =
  (ap_notified (ap_ctx s), ap_inline_actions (ap_ctx s), ap_cfa_inline_actions (ap_ctx s) ++ [a])) s.
Proof.
  unfold execute_context_free_inline. apply wp_bind, wp_get. cbv zeta. apply wp_bind, wp_assert. intros _.
  apply wp_bind, wp_assert. intros _. done.
Qed.

Lemma run_host_answered k s s' : run_host g act cf k s = (s', Ok tt) -> answered [k] s s'.
Proof.
  assert (Hkeep : keeps asked (run_host g act cf k) -> notified (ap_notified (ap_ctx s)) [k] = ap_notified (ap_ctx s) ->
    sent_inline [k] = [] -> sent_context_free [k] = [] -> run_host g act cf k s = (s', Ok tt) -> answered [k] s s').
  { intros Hk E1 E2 E3 Hrun. specialize (Hk s). rewrite Hrun in Hk. cbn [fst] in Hk.
    unfold answered. by rewrite E1, E2, E3, !app_nil_r, Hk. }
  destruct k; try (apply Hkeep; [|done..]; cbn [run_host]; unfold aware, privileged_api, send_action,
      execute_inline, execute_context_free_inline, schedule_deferred_transaction, set_resource_limits,
      set_blockchain_parameters_packed; cbv zeta; keeps_step; try (apply keeps_capture; keeps_step); fail).
  all: apply (wp_ok _ (fun _ s' => answered _ s s')); cbn [run_host]; unfold aware;
    apply wp_bind, wp_assert; intros _; clear Hkeep.
  - unfold answered, asked. cbn. rewrite !app_nil_r. by destruct (decide _).
  - unfold send_action. apply wp_bind, wp_get, wp_bind, wp_assert. intros _. apply wp_bind, wp_lift. intros a Ha.
    eapply wp_mono; [apply execute_inline_asked|]. intros [] s1 E. unfold answered. rewrite E.
    unfold sent_inline, sent_context_free. cbn [omap list_omap]. by rewrite Ha, app_nil_r.
  - unfold send_action. apply wp_bind, wp_get, wp_bind, wp_assert. intros _. apply wp_bind, wp_lift. intros a Ha.
    eapply wp_mono; [apply execute_context_free_inline_asked|]. intros [] s1 E. unfold answered. rewrite E.
    unfold sent_inline, sent_context_free. cbn [omap list_omap]. by rewrite Ha, app_nil_r.
Qed.

Lemma calls_answered p s l s' : calls_of p s l s' -> answered l s s'.
Proof.
  induction 1 as [s|k next s s1 l s' Hk _ IH]; [by apply answered_nil|].
  apply (answered_app [k] l _ s1); [by apply run_host_answered|done].
Qed.
Lemma program_calls p s : wp (run_program g act cf p) (fun _ s' => exists l, calls_of p s l s') s.
Proof.
  revert s. induction p as [|e|k next IH]; intros s; cbn [run_program]; [exists []; constructor|done|].
  apply wp_bind. unfold wp at 1. destruct (run_host g act cf k s) as [s1 [[]|e]] eqn:Ek; [|done].
  apply wp_bind, wp_get. eapply wp_mono; [apply IH|]. intros [] s' (l & Hl). exists (k :: l). by econstructor.
Qed.

Lemma wp_onto_chain {A} (m : St chain A) (Q : A -> applying -> Prop) s :
  wp m (fun a c => Q a (Applying (World (set_chain c (w_node (ap_world s))) (w_tc (ap_world s)) (w_ticks (ap_world s))) (ap_ctx s)))
    (nd_chain (w_node (ap_world s))) -> wp (onto_chain m) Q s.
Proof.
  unfold wp, onto_chain, in_world, TransactionContext.on_chain. by destruct (m _) as [c [a|e]].
Qed.

(** The calls of a receiver, and what they leave in the context. *)
Lemma receiver_answered s : wp (run_receiver g act cf) (fun _ s' => exists l, receiver_calls s s' l /\ answered l s s') s.
Proof.
  unfold run_receiver. apply wp_bind. unfold ctx, gets, wp at 1. cbv zeta.
  apply wp_bind. apply (wp_keeps asked); [apply asked_chain|]. intros a0 s1 E1.
  apply wp_bind. unfold ctx_mod, modify_st, wp at 1. set (s2 := Applying _ _).
  apply wp_bind. apply (wp_keeps asked).
  { destruct (find_apply_handler _ _ _); [|apply keeps_ret]. unfold check_lists. keeps_step. }
  intros [] s3 E3. change (asked s2) with (asked s1) in E3. rewrite E1 in E3. clearbody s2.
  apply wp_bind, wp_onto_chain. unfold get_account. apply wp_bind, wp_get, wp_lift. intros a Ha.
  match goal with |- wp _ _ ?s0 => assert (E4 : asked s0 = asked s) by exact E3;
    assert (Ha4 : ch_accounts (nd_chain (w_node (ap_world s0))) !! ap_receiver (ap_ctx s) = Some a);
    [|generalize dependent s0; intros s4 E4 Ha4] end.
  { cbn. destruct (ch_accounts _ !! _) as [b|]; [|done]. cbn in Ha. congruence. }
  fold (runs_contract (ap_receiver (ap_ctx s)) a). destruct (runs_contract (ap_receiver (ap_ctx s)) a) eqn:Er.
  - apply wp_bind. apply (wp_keeps (fun s => (asked s, ch_accounts (nd_chain (w_node (ap_world s)))))).
    { unfold check_lists. keeps_step. }
    intros [] s5 H5. pose proof (f_equal fst H5) as E5. pose proof (f_equal snd H5) as Ha5. cbn [fst snd] in E5, Ha5.
    apply wp_bind.
    apply (wp_keeps (fun s => (asked s, ch_accounts (nd_chain (w_node (ap_world s)))))).
    { unfold get_instantiated_module, pause_billing_timer, resume_billing_timer, tc_get. apply keeps_bind; [done|].
      intros s0. destruct (wasm_cached _ _); [apply keeps_ret|].
      apply keeps_bind; [apply asked_still, keeps_bind; [done|]; intros c; keeps_step|intros _].
      apply keeps_bind; [apply asked_still, keeps_bind; [done|]; intros c; keeps_step|intros _]. keeps_step. }
    intros [] s6 H6. pose proof (f_equal fst H6) as E6. pose proof (f_equal snd H6) as Ha6. cbn [fst snd] in E6, Ha6.
    apply wp_bind, wp_get. eapply wp_mono; [apply program_calls|].
    intros [] s7 (l & Hl). exists l. split; [exists s6, a; rewrite Er, Ha6, Ha5; done|].
    apply (answered_app [] l _ s6); [|by eapply calls_answered]. apply answered_nil. congruence.
  - exists []. split; [exists s4, a; by rewrite Er|by apply answered_nil].
Qed.

(** [m] executes nothing that leaves a receipt. *)
Definition silent {A} (m : St applying A) : Prop :=
  forall s, wp m (fun _ s' => logged [] (ap_world s) (ap_world s')) s.
Lemma silent_bind {A B} (m : St applying A) (k : A -> St applying B) :
  silent m -> (forall a, silent (k a)) -> silent (m ≫= k).
Proof.
  intros Hm Hk s. apply wp_bind. eapply wp_mono; [apply Hm|]. intros a s1 H1'. eapply wp_mono; [apply Hk|].
  intros b s2 H2'. exact (logged_app [] [] _ _ _ H1' H2').
Qed.
Lemma silent_same {A} (m : St applying A) : keeps ap_world m -> silent m.
Proof. intros Hm s. apply (wp_keeps ap_world); [done|]. intros a s' ->. apply logged_refl. Qed.
Lemma silent_ret {A} (a : A) : silent (mret a).
Proof. by apply silent_same. Qed.
Lemma silent_lift {A} (r : result A) : silent (lift r).
Proof. by apply silent_same. Qed.
Lemma silent_still {A} (m : St world A) : keeps (fun w => (w_node w, tc_executed (w_tc w))) m -> silent (in_world m).
Proof.
  intros Hm s. specialize (Hm (ap_world s)). unfold wp, in_world. destruct (m (ap_world s)) as [w [a|e]]; [|done].
  cbn in Hm. injection Hm as Hn He. apply logged_quiet; cbn; unfold global_of; rewrite ?Hn; [done..|].
  intros x o Ho. by exists o.
Qed.
Lemma silent_chain {A} (m : St chain A) : (forall c, wp m (fun _ c' => seq_quiet c c') c) -> silent (onto_chain m).
Proof.
  intros Hm s. specialize (Hm (nd_chain (w_node (ap_world s)))). revert Hm. unfold wp, onto_chain, in_world, TransactionContext.on_chain.
  destruct (m _) as [c [a|e]]; [|done]. intros Hc. by apply logged_quiet.
Qed.
Lemma silent_program p : silent (run_program g act cf p).
Proof.
  intros s. apply (wp_keeps host_part); [apply run_program_keeps|]. intros a s' E. apply logged_quiet.
  - exact (f_equal (fun x => x.2.1.1.1.2) E).
  - exact (f_equal (fun x => x.1.2.2) E).
  - intros x o Ho. exists o. split; [|done].
    assert (ch_sequences (nd_chain (w_node (ap_world s'))) = ch_sequences (nd_chain (w_node (ap_world s)))) as ->; [|done].
    exact (f_equal (fun x => x.1.1.1.2) E).
Qed.

Lemma silent_if {A} (b : bool) (m k : St applying A) : silent m -> silent k -> silent (if b then m else k).
Proof. by destruct b. Qed.
Lemma silent_pause : silent (in_world (pause_billing_timer g)).
Proof. apply silent_still. unfold pause_billing_timer, tc_get. apply keeps_bind; [done|]. intros c. keeps_step. Qed.
Lemma silent_resume : silent (in_world (resume_billing_timer g)).
Proof.
  apply silent_still. unfold resume_billing_timer, tc_get. apply keeps_bind; [done|]. intros c. keeps_step.
Qed.
Lemma silent_account a : silent (onto_chain (get_account a)).
Proof. apply silent_chain. intros c. apply quiet_keeps; [intros x o Ho; by exists o|apply keeps_get_account]. Qed.
Lemma silent_lists a : silent (check_lists g act a).
Proof.
  unfold check_lists. apply silent_bind; [by apply silent_same|]. intros s. apply silent_if; [|apply silent_ret].
  apply silent_bind; intros; apply silent_lift.
Qed.
Lemma silent_module i c : silent (get_instantiated_module g i c).
Proof.
  unfold get_instantiated_module. apply silent_bind; [by apply silent_same|]. intros s. apply silent_if; [apply silent_ret|].
  apply silent_bind; [apply silent_pause|intros _]. apply silent_bind; [apply silent_resume|intros _]. apply silent_lift.
Qed.
Lemma silent_receiver : silent (run_receiver g act cf).
Proof.
  unfold run_receiver. apply silent_bind; [by apply silent_same|]. intros c. cbv zeta.
  apply silent_bind; [apply silent_account|]. intros a. apply silent_bind; [by apply silent_same|]. intros _.
  apply silent_bind; [|intros _; apply silent_bind; [apply silent_account|]; intros b; apply silent_if; [|apply silent_ret]].
  - destruct (find_apply_handler _ _ _) as [h|] eqn:Eh; [|apply silent_ret]. apply silent_bind; [apply silent_lists|intros _].
    apply silent_chain. intros c'. exact (@native_quiet (env_at g) _ _ _ _ act c' Eh).
  - apply silent_bind; [apply silent_lists|intros _]. apply silent_bind; [apply silent_module|intros _].
    apply silent_bind; [by apply silent_same|]. intros s. apply silent_program.
Qed.

Lemma receiver_recipients : moves recipients (run_receiver g act cf).
Proof.
  assert (Hk : forall A (m : St applying A), keeps called m -> moves recipients m) by (intros; by apply recipients_keeps).
  unfold run_receiver, check_lists, get_instantiated_module. apply moves_bind; [apply _|apply Hk, called_ctx|]. intros c. cbv zeta.
  apply moves_bind; [apply _|apply Hk, called_chain|]. intros a.
  apply moves_bind; [apply _|by apply Hk; apply called_ctx_mod|]. intros _.
  apply moves_bind; [apply _|apply Hk|intros _].
  { destruct (find_apply_handler _ _ _); keeps_step; apply called_chain. }
  apply moves_bind; [apply _|apply Hk, called_chain|]. intros b. destruct (_ && _); [|apply moves_ret; apply _].
  apply moves_bind; [apply _|apply Hk; keeps_step|intros _].
  apply moves_bind; [apply _|apply Hk; keeps_step; apply called_in_world|intros _].
  apply moves_bind; [apply _|apply moves_get; apply _|]. intros s. apply run_program_recipients.
Qed.

Lemma make_receipt_spec s : wp (make_receipt act) (fun r s' =>
  ar_receiver r = ap_receiver (ap_ctx s) /\ ap_ctx s' = ap_ctx s /\
  tc_executed (w_tc (ap_world s')) = tc_executed (w_tc (ap_world s)) /\
  ar_global_sequence r = u64 (global_of (ap_world s) + 1) /\ global_of (ap_world s') = u64 (global_of (ap_world s) + 1) /\
  (forall o, seq_of (ap_world s) !! ar_receiver r = Some o -> ar_recv_sequence r = u64 (as_recv_sequence o + 1)) /\
  forall x o, seq_of (ap_world s) !! x = Some o -> exists o', seq_of (ap_world s') !! x = Some o' /\
    u64 (as_recv_sequence o') = u64 (as_recv_sequence o + (if decide (ar_receiver r = x) then 1 else 0)) /\
    u64 (as_auth_sequence o') = u64 (as_auth_sequence o + actors_of x (act_authorization act))) s.
Proof.
  unfold make_receipt, ctx, gets. apply wp_bind. unfold wp at 1. apply wp_bind, wp_lift. intros d _.
  apply wp_bind. unfold next_global_sequence. apply wp_bind. unfold wp at 1. cbn [in_world node_mod modify_st].
  do 3 wp_step. cbn [ap_world w_node nd_global_sequence ap_ctx].
  apply wp_bind, wp_onto_chain. eapply wp_mono; [apply next_recv_spec|]. cbv beta. cbn [ap_world w_node w_tc ap_ctx nd_chain set_chain].
  intros n c1 (o & Ho & Hn & Hc1).
  apply wp_bind, wp_onto_chain. unfold get_sequences. wp_step. wp_step. wp_step. cbn [ap_world w_node w_tc ap_ctx nd_chain set_chain].
  apply wp_bind, wp_onto_chain. eapply wp_mono; [apply auth_sequences_spec|]. cbv beta. cbn [ap_world w_node w_tc ap_ctx nd_chain set_chain].
  intros m c2 Hc2. wp_step. cbn. split_and!; try done.
  - intros o' Ho'. unfold seq_of in Ho'. congruence.
  - intros x p Hp. rewrite Hc1 in Hc2. unfold seq_of in *. destruct (decide (ap_receiver (ap_ctx s) = x)) as [<-|Hne].
    + assert (p = o) as -> by congruence. destruct (Hc2 _ _ (lookup_insert_eq _ _ _)) as (o' & Ho' & Hr & Ha).
      exists o'. split; [exact Ho'|]. split; [|exact Ha]. rewrite Hr. cbn [as_recv_sequence]. rewrite Hn. apply u64_u64.
    + destruct (Hc2 x p) as (o' & Ho' & Hr & Ha); [by rewrite lookup_insert_ne|]. exists o'.
      split; [exact Ho'|]. rewrite Hr, Z.add_0_r. done.
Qed.

(** A run of the receiver of the receipt, with its calls. *)
Definition run_of (r : action_receipt) (calls : list host_call) : Prop := exists s s',
  ap_receiver (ap_ctx s) = ar_receiver r /\ run_receiver g act cf s = (s', Ok tt) /\ receiver_calls s s' calls.

(** One receipt, for the receiver. *)
Lemma exec_one_logged s : wp (exec_one g act cf) (fun _ s' => exists r, ar_receiver r = ap_receiver (ap_ctx s) /\
  logged [(act, r)] (ap_world s) (ap_world s') /\ recipients s s' /\
  exists calls, run_of r calls /\ answered calls s s') s.
Proof.
  unfold exec_one. apply wp_bind. unfold in_world at 1, now at 1, wp at 1.
  set (s1 := Applying _ _). apply wp_bind. unfold capture_and_rethrow.
  pose proof (silent_receiver s1) as Hs. pose proof (receiver_recipients s1) as Hrec.
  pose proof (receiver_answered s1) as Hans. unfold wp in Hans. unfold wp in Hs |- * at 1.
  destruct (run_receiver g act cf s1) as [s2 [[]|e]] eqn:Erun; [|done]. cbn in Hrec. destruct Hans as (calls & Hcalls & Hans).
  apply wp_bind. eapply wp_mono; [apply make_receipt_spec|]. cbv beta.
  intros r s3 (R1 & R2 & R3 & R4 & R5 & R6 & R7). apply wp_bind. unfold in_world at 1, tc_mod, modify_st, wp at 1.
  apply wp_bind. unfold in_world at 1, now at 1, wp at 1. wp_step. exists r.
  destruct Hrec as [Hr (new & Hn & Hd)]. change (ap_ctx s1) with (ap_ctx s) in *. split; [by rewrite R1, Hr|].
  split; [|split; [split; cbn; rewrite R2; [done|by exists new]|]].
  2: { exists calls. split; [exists s1, s2; by rewrite R1, Hr|]. unfold answered, asked in *. cbn [ap_ctx]. rewrite R2.
       exact Hans. }
  change [(act, r)] with ([] ++ [(act, r)]). assert (Hq : logged [] (ap_world s) (ap_world s1)).
  { apply logged_quiet; [done..|]. intros x o Ho. by exists o. }
  eapply logged_app; [exact (logged_app [] [] _ _ _ Hq Hs)|]. split; cbn.
  - by rewrite R3.
  - unfold global_of in *. cbn. rewrite R5. apply u64_u64.
  - intros [|i] e; [|done]. intros [= <-]. exact R4.
  - intros [|i] e o; [|done]. intros [= <-] Ho. cbn in *. rewrite (R6 o Ho). unfold received. rewrite filter_cons. by rewrite decide_True.
  - intros x o Ho. destruct (R7 x o Ho) as (o' & Ho' & Hr' & Ha'). exists o'. split; [exact Ho'|].
    unfold received, authorized. rewrite filter_cons. cbn. rewrite app_nil_r. split; [|exact Ha'].
    rewrite Hr'. by destruct (decide _).
Qed.
End receivers.

(** ** All receivers and the inline actions *)

Section actions.
Context `{MetaSet} `{TrxCrypto} `{NativeEnv} `{Wasm} (g : setting).

(** The receipts of one action, and after them those of the actions that its receivers
    sent. The receivers are the account of the action, then the accounts that the
    receivers themselves asked to notify, in the order in which they were first asked
    for; the actions sent are executed in the order of the calls, the context-free ones
    first. *)
Inductive segment : bool -> action -> account_name -> log -> Prop :=
| segment_exec cf a receiver (runs : list (action_receipt * list host_call)) free inline :
    let calls := concat runs.*2 in
    Forall (fun x => run_of g a cf x.1 x.2) runs ->
    ar_receiver <$> runs.*1 = notified [receiver] calls ->
    Forall2 (fun i l => segment true i (act_account i) l) (sent_context_free calls) free ->
    Forall2 (fun i l => segment false i (act_account i) l) (sent_inline calls) inline ->
    segment cf a receiver (map (pair a) runs.*1 ++ concat free ++ concat inline).

Lemma notify_logged act cf fuel : forall i s, NoDup (ap_notified (ap_ctx s)) ->
  wp (notify g act cf fuel i) (fun _ s' => exists runs, logged (map (pair act) runs.*1) (ap_world s) (ap_world s') /\
    Forall (fun x => run_of g act cf x.1 x.2) runs /\ answered (concat runs.*2) s s' /\
    ar_receiver <$> runs.*1 = drop i (ap_notified (ap_ctx s'))) s.
Proof.
  induction fuel as [|fuel IH]; intros i s Hd; cbn [notify]; [wp_step|].
  apply wp_bind. unfold ctx, gets, wp at 1. destruct (ap_notified (ap_ctx s) !! i) as [r|] eqn:Ei.
  - apply wp_bind. unfold ctx_mod, modify_st, wp at 1. apply wp_bind. eapply wp_mono; [apply exec_one_logged|]. cbv beta.
    intros [] s1 (r0 & Hr0 & Hl & [_ (new & Hn & Hd1)] & calls & Hrun & Hans). cbn in Hr0, Hl, Hn, Hd1. specialize (Hd1 Hd).
    eapply wp_mono; [by apply IH|]. cbv beta. intros [] s2 (runs & Hl2 & Hruns & Hans2 & Hrs).
    exists ((r0, calls) :: runs). rewrite !fmap_cons. cbn [map concat fst snd].
    assert (Hpre : exists more, ap_notified (ap_ctx s2) = ap_notified (ap_ctx s1) ++ more).
    { destruct (notified_prefix (ap_notified (ap_ctx s1)) (concat runs.*2)) as (more & Hmore & _). exists more.
      unfold answered, asked in Hans2. congruence. }
    destruct Hpre as [more Hmore].
    split_and!; [exact (logged_app [_] _ _ _ _ Hl Hl2)|by constructor|by eapply answered_app|].
    rewrite Hrs, Hr0. symmetry. apply drop_S. rewrite Hmore, Hn. by do 2 apply lookup_app_l_Some.
  - wp_step. exists []. split_and!; [apply logged_refl|done|by apply answered_nil|].
    rewrite drop_ge; [done|]. by apply lookup_ge_None.
Qed.

Lemma for_each_logged (P : action -> log -> Prop) (f : action -> St applying unit) l :
  (forall a s, wp (f a) (fun _ s' => exists l', P a l' /\ logged l' (ap_world s) (ap_world s')) s) ->
  forall s, wp (for_each f l) (fun _ s' => exists ls, Forall2 P l ls /\ logged (concat ls) (ap_world s) (ap_world s')) s.
Proof.
  intros Hf. induction l as [|a l IH]; intros s; cbn [for_each]; [wp_step; exists []; split; [done|apply logged_refl]|].
  apply wp_bind. eapply wp_mono; [apply Hf|]. intros [] s1 (l1 & HP & H1'). eapply wp_mono; [apply IH|].
  intros [] s2 (ls & HPs & H2'). exists (l1 :: ls). split; [by constructor|]. by eapply logged_app.
Qed.

Lemma apply_exec_logged a cf (rec : action -> bool -> St world unit) depth s :
  ap_notified (ap_ctx s) = [] -> ap_inline_actions (ap_ctx s) = [] -> ap_cfa_inline_actions (ap_ctx s) = [] ->
  (forall i c w, wp (rec i c) (fun _ w' => exists l, segment c i (act_account i) l /\ logged l w w') w) ->
  wp (apply_exec g a cf rec depth) (fun _ s' => exists l, segment cf a (ap_receiver (ap_ctx s)) l /\
    logged l (ap_world s) (ap_world s')) s.
Proof.
  intros Hnil Hinl Hcfa Hrec. unfold apply_exec. apply wp_bind. unfold ctx_mod, modify_st, wp at 1. rewrite Hnil. cbn [app].
  apply wp_bind. eapply wp_mono; [apply exec_one_logged|]. cbv beta.
  intros [] s1 (r0 & Hr0 & Hl & [_ (new & Hn & Hd)] & calls & Hrun & Hans).
  cbn in Hr0, Hl, Hn, Hd. specialize (Hd (NoDup_singleton _)). apply wp_bind, wp_get, wp_bind.
  eapply wp_mono; [by apply notify_logged|]. cbv beta. intros [] s2 (runs & Hl2 & Hruns & Hans2 & Hrs).
  pose proof (answered_app _ _ _ _ _ Hans Hans2) as Hall. unfold answered, asked in Hall. cbn [ap_ctx ap_notified
    ap_inline_actions ap_cfa_inline_actions] in Hall. rewrite Hinl, Hcfa in Hall. cbn [app] in Hall.
  injection Hall as Hno Hin Hcf.
  apply wp_bind, wp_get. cbv zeta. apply wp_bind. apply (wp_keeps (fun s => s)); [keeps_step|]. intros [] s3 ->.
  assert (Hinw : forall c i s, wp (in_world (rec i c)) (fun _ s' => exists l, segment c i (act_account i) l /\
    logged l (ap_world s) (ap_world s')) s).
  { intros c i s0. specialize (Hrec i c (ap_world s0)). unfold wp, in_world in *. by destruct (rec i c (ap_world s0)) as [w [[]|e]]. }
  apply wp_bind. eapply wp_mono; [apply for_each_logged, Hinw|]. intros [] s4 (free & Hf4 & H4).
  eapply wp_mono; [apply for_each_logged, Hinw|]. intros [] s5 (inline & Hf5 & H5).
  exists (map (pair a) ((r0, calls) :: runs).*1 ++ concat free ++ concat inline). split.
  - apply segment_exec; rewrite ?fmap_cons; cbn [concat map fst snd].
    + by constructor.
    + rewrite Hrs, Hr0. rewrite <- Hno. rewrite Hno.
      destruct (notified_prefix [ap_receiver (ap_ctx s)] (calls ++ concat runs.*2)) as (more & -> & _). done.
    + by rewrite <- Hcf.
    + by rewrite <- Hin.
  - rewrite fmap_cons. cbn [map fst]. eapply logged_app; [exact (logged_app [_] _ _ _ _ Hl Hl2)|]. by eapply logged_app.
Qed.

Lemma dispatch_logged fuel : forall depth a r cf w,
  wp (dispatch g fuel depth a r cf) (fun _ w' => exists l, segment cf a r l /\ logged l w w') w.
Proof.
  induction fuel as [|fuel IH]; intros depth a r cf w; cbn [dispatch]; [wp_step|].
  unfold wp, with_apply_context.
  set (s := Applying _ _).
  pose proof (apply_exec_logged a cf (fun i c => dispatch g fuel (depth + 1) i (act_account i) c) depth s eq_refl
    eq_refl eq_refl) as Hx.
  lapply Hx; [clear Hx; intros Hx|intros i c w0; apply IH].
  unfold wp in Hx. destruct (apply_exec g a cf _ depth s) as [s' [[]|e]]; [|done]. destruct Hx as (l & Hseg & Hl).
  exists l. split; [exact Hseg|]. destruct Hl as [L1 L2 L3 L4 L5]. by split.
Qed.

(** ** Transactions *)
Lemma dispatch_action_logged a r cf w :
  wp (@dispatch_action apply_dispatch g a r cf) (fun _ w' => exists l, segment cf a r l /\ logged l w w') w.
Proof. unfold dispatch_action, apply_dispatch. generalize dispatch_depth. intros fuel. apply dispatch_logged. Qed.
Lemma actions_logged cf l : forall w,
  wp (for_each (fun a => @dispatch_action apply_dispatch g a (act_account a) cf) l) (fun _ w' =>
    exists segs, Forall2 (fun a s => segment cf a (act_account a) s) l segs /\ logged (concat segs) w w') w.
Proof.
  induction l as [|a l IH]; intros w; cbn [for_each]; [wp_step; exists []; split; [done|apply logged_refl]|].
  apply wp_bind. eapply wp_mono; [apply dispatch_action_logged|]. intros [] w1 (s & Hs & Hl).
  eapply wp_mono; [apply IH|]. intros [] w2 (segs & Hsegs & Hl2). exists (s :: segs). split; [by constructor|].
  cbn. by eapply logged_app.
Qed.
Lemma schedule_quiet w : wp (schedule_transaction g) (fun _ w' => logged [] w w') w.
Proof.
  apply (wp_keeps (fun w => (seq_of w, global_of w, tc_executed (w_tc w)))).
  - unfold schedule_transaction. apply keeps_bind; [done|]. intros w0. apply keeps_bind; [done|]. intros c. cbv zeta.
    assert (Hch : forall A (m : St chain A), keeps ch_sequences m ->
      keeps (fun w => (seq_of w, global_of w, tc_executed (w_tc w))) (TransactionContext.on_chain m)).
    { intros A m Hm w1. specialize (Hm (nd_chain (w_node w1))). unfold TransactionContext.on_chain, seq_of.
      destruct (m _) as [c1 r]. cbn in Hm |- *. by rewrite Hm. }
    apply keeps_bind; [destruct (_ =? 0); [|apply keeps_ret]|intros _].
    { apply keeps_bind; [by apply keeps_modify|intros _; apply check_net_usage_keeps]. }
    apply keeps_bind; [apply keeps_lift|]. intros packed.
    apply keeps_bind; [apply Hch, seq_on_auth|intros _; apply Hch, seq_ram].
  - intros [] w' [= Es Eg Ee]. apply logged_quiet; [done..|]. intros x o Ho. exists o. split; [|done].
    change (seq_of w' !! x = Some o). by rewrite Es.
Qed.
End actions.

(** The actions a transaction executes now, and whether they are context free. *)
Definition executed_now (a : trx_args) : list (bool * action) :=
  (if apply_context_free a then pair true <$> context_free_actions (ta_trx a) else []) ++
  (if delay a =? 0 then pair false <$> trx_actions (ta_trx a) else []).
Lemma segments_tagged `{MetaSet} `{TrxCrypto} `{NativeEnv} `{Wasm} g cf l segs :
  Forall2 (fun a s => segment g cf a (act_account a) s) l segs ->
  Forall2 (fun x s => segment g x.1 x.2 (act_account x.2) s) (pair cf <$> l) segs.
Proof. intros Hf. by apply Forall2_fmap_l. Qed.

(** ** Example: a contract that notifies an account and sends itself an action *)
Module ReceiptSample.
Export ContractSample.
Definition echo : action := Action null_account_name 5 [] [].
Definition echo_program : program :=
  Then (CallRequireRecipient system_account_name) (fun _ =>
  match pack_value c_action echo with
  | Ok d => Then (CallSendInline d) (fun _ => Return)
  | Throw e => Trap e
  end).
#[export] Instance echo_wasm : Wasm := {
  wasm_cached _ _ := false;
  wasm_compile _ := Ok tt;
  wasm_apply _ receiver a _ :=
    if (receiver =? null_account_name) && (act_name a =? onramusage_name) then echo_program else Return
}.
Definition echo_account : account_object := AccountObject 0 0 false 0 digest_nil 0 [1] [].
Definition echo_chain : chain :=
  Chain (ch_auth genesis) (ch_limits genesis) (<[null_account_name := echo_account]> (ch_accounts genesis))
    (ch_sequences genesis) ∅ [].
Definition echo_world : world :=
  World (Node echo_chain sample_config ∅ (fun _ => digest_nil) 6 ContractTables.no_rows) (w_tc after_init) 0.
Definition echo_after : world := (@exec validating apply_dispatch echo_world).1.
End ReceiptSample.
Import ReceiptSample.

(** ** Claims *)

(** C14 Executing a transaction leaves, for each of its actions in order, the receipts of
    the action's receivers and then those of the actions sent by them, recursively. The
    receivers are exactly the account of the action and the accounts that the contracts of
    the receivers asked to notify, each once, in the order of the first request; the
    actions sent are exactly those of the contracts' calls, in their order, the
    context-free ones first. The digests of all receipts are appended to the transaction.
    The receipts are numbered consecutively after the global sequence number, and those of
    a receiver consecutively after that account's own number; the global number, and the
    number of each account as a receiver and as an authorizer, advance by exactly the
    number of its receipts and authorizations. A delayed transaction executes only its
    context-free actions. *)
Theorem transaction_receipts `{MetaSet} `{TrxCrypto} `{NativeEnv} `{Wasm} (g : setting) (w w' : world) :
  @exec g apply_dispatch w = (w', Ok tt) ->
  exists segs, Forall2 (fun x s => segment g x.1 x.2 (act_account x.2) s) (executed_now (tc_args (w_tc w))) segs /\
    logged (concat segs) w w'.
Proof.
  apply (wp_ok _ (fun _ w' => exists segs, Forall2 (fun x s => segment g x.1 x.2 (act_account x.2) s)
    (executed_now (tc_args (w_tc w))) segs /\ logged (concat segs) w w')). unfold exec, tc_get, gets. apply wp_bind. unfold wp at 1.
  apply wp_bind, wp_assert. intros _. cbv zeta. apply wp_bind.
  eapply wp_mono with (Q1 := fun _ w1 => exists segs, Forall2 (fun x s => segment g x.1 x.2 (act_account x.2) s)
    (if apply_context_free (tc_args (w_tc w)) then pair true <$> context_free_actions (ta_trx (tc_args (w_tc w))) else []) segs /\
    logged (concat segs) w w1).
  { destruct (apply_context_free _); [|wp_step; exists []; split; [done|apply logged_refl]].
    eapply wp_mono; [apply actions_logged|]. intros [] w1 (segs & Hs & Hl). exists segs. by split; [apply segments_tagged|]. }
  intros [] w1 (s1 & Hs1 & Hl1). unfold executed_now. destruct (delay _ =? 0).
  - eapply wp_mono; [apply actions_logged|]. intros [] w2 (s2 & Hs2%segments_tagged & Hl2). exists (s1 ++ s2).
    split; [by apply Forall2_app|]. rewrite concat_app. by eapply logged_app.
  - eapply wp_mono; [apply schedule_quiet|]. intros [] w2 Hl2. exists s1. rewrite app_nil_r. split; [done|].
    rewrite <- (app_nil_r (concat s1)). by eapply logged_app.
Qed.

(** Two receivers of the action, then the action sent. *)
Lemma transaction_receipts_witness : exists segs,
  Forall2 (fun x s => segment validating x.1 x.2 (act_account x.2) s) (executed_now (tc_args (w_tc echo_world))) segs /\
  logged (concat segs) echo_world echo_after /\ length (concat segs) = 3%nat /\
  nd_global_sequence (w_node echo_after) = 9.
Proof.
  destruct (transaction_receipts validating echo_world echo_after) as (segs & Hsegs & Hl).
  - vm_compute. reflexivity.
  - exists segs. split; [exact Hsegs|]. split; [exact Hl|]. split; [|by vm_compute]. destruct Hl as [He _ _ _ _].
    apply (f_equal length) in He. rewrite length_app, length_map in He.
    assert (length (tc_executed (w_tc echo_after)) = 3%nat) as E1 by (by vm_compute).
    assert (length (tc_executed (w_tc echo_world)) = 0%nat) as E2 by (by vm_compute). lia.
Defined.
