(* ===== verification/ApplyTerminates.v ===== *)
(** * Actions end

    The rules of executing actions, without bounds: the receivers of an action are called
    until none is left, and the actions they sent are executed in turn. When the runs of the
    contracts end, every execution ends by these rules: no account is notified twice, every receiver has an account, and
    actions send actions only up to the depth of the chain's parameters. *)
From S2P Require Import Prelude ContractTables Merkle BlockHeaderState BlockApply Names Raw Authority Transactions.
From S2P Require Import AuthorizationManager ResourceLimits NativeContract Controller TransactionContext TrxBilling.
From S2P Require Import PackSize ApplyContext ApplyFrame ApplyLimits ApplyConfined ApplyReceipts.

(** ** Rules *)
Section rules.
Context `{MetaSet} `{TrxCrypto} `{NativeEnv} `{Wasm} (g : setting).

Definition at_receiver (r : account_name) (s : applying) : applying := Applying (ap_world s) (set_receiver r (ap_ctx s)).
Inductive notifies (act : action) (cf : bool) : nat -> applying -> applying -> result unit -> Prop :=
| notifies_end i s : ap_notified (ap_ctx s) !! i = None -> notifies act cf i s s (Ok tt)
| notifies_fails i s r s' e : ap_notified (ap_ctx s) !! i = Some r ->
    exec_one g act cf (at_receiver r s) = (s', Throw e) -> notifies act cf i s s' (Throw e)
| notifies_next i s r s1 s' res : ap_notified (ap_ctx s) !! i = Some r ->
    exec_one g act cf (at_receiver r s) = (s1, Ok tt) -> notifies act cf (S i) s1 s' res -> notifies act cf i s s' res.

(** The receiver is the first of those notified. *)
Definition enter (s : applying) : applying :=
  let c := ap_ctx s in
  Applying (ap_world s) (ApplyContext (ap_receiver c) (ap_privileged c) (ap_notified c ++ [ap_receiver c])
    (ap_inline_actions c) (ap_cfa_inline_actions c) (ap_keyval_cache c) (ap_idx64_cache c) (ap_idx128_cache c)).
Definition begin (a : action) (r : account_name) (w : world) : applying :=
  Applying (set_used (replicate (length (act_authorization a)) false) w) (new_apply_context r).
Definition leave (w : world) (s : applying) : world := set_used (ch_used_authorizations (nd_chain (w_node w))) (ap_world s).
(** The actions sent, context-free ones first. *)
Definition sent (s : applying) : list (action * bool) :=
  map (fun a => (a, true)) (ap_cfa_inline_actions (ap_ctx s)) ++ map (fun a => (a, false)) (ap_inline_actions (ap_ctx s)).
Definition max_depth (s : applying) : Z := cc_max_inline_action_depth (nd_config (w_node (ap_world s))).

Inductive dispatches : Z -> action -> account_name -> bool -> world -> world -> result unit -> Prop :=
| dispatches_exec depth a r cf w s res :
    executes depth a cf (begin a r w) s res -> dispatches depth a r cf w (leave w s) res
with executes : Z -> action -> bool -> applying -> applying -> result unit -> Prop :=
| executes_fails depth a cf s s1 e :
    exec_one g a cf (enter s) = (s1, Throw e) -> executes depth a cf s s1 (Throw e)
| executes_notify_fails depth a cf s s1 s2 e :
    exec_one g a cf (enter s) = (s1, Ok tt) -> notifies a cf 1 s1 s2 (Throw e) -> executes depth a cf s s2 (Throw e)
| executes_too_deep depth a cf s s1 s2 :
    exec_one g a cf (enter s) = (s1, Ok tt) -> notifies a cf 1 s1 s2 (Ok tt) ->
    sent s2 <> [] -> max_depth s2 <= depth -> executes depth a cf s s2 (Throw transaction_exception)
| executes_sends depth a cf s s1 s2 s3 res :
    exec_one g a cf (enter s) = (s1, Ok tt) -> notifies a cf 1 s1 s2 (Ok tt) ->
    (sent s2 <> [] -> depth < max_depth s2) -> sends (depth + 1) (sent s2) s2 s3 res -> executes depth a cf s s3 res
with sends : Z -> list (action * bool) -> applying -> applying -> result unit -> Prop :=
| sends_none depth s : sends depth [] s s (Ok tt)
| sends_fails depth a cf l s w e :
    dispatches depth a (act_account a) cf (ap_world s) w (Throw e) ->
    sends depth ((a, cf) :: l) s (Applying w (ap_ctx s)) (Throw e)
| sends_next depth a cf l s w s' res :
    dispatches depth a (act_account a) cf (ap_world s) w (Ok tt) -> sends depth l (Applying w (ap_ctx s)) s' res ->
    sends depth ((a, cf) :: l) s s' res.
End rules.

(** ** The parameters keep their width *)

(** A contract passes bytes. *)
Definition call_ok (k : host_call) : Prop :=
  match k with CallSetBlockchainParameters d => Forall byte_ok d | _ => True end.
Inductive program_ok : program -> Prop :=
| ok_return : program_ok Return
| ok_trap e : program_ok (Trap e)
| ok_then k next : call_ok k -> (forall s, program_ok (next s)) -> program_ok (Then k next).
Class WasmLaws `{Wasm} := {
  wasm_bytes : forall code receiver act s, program_ok (wasm_apply code receiver act s)
}.
Definition depth_ok (s : applying) : Prop := max_depth s < 2 ^ 16.

Lemma config_depth d cfg : Forall byte_ok d -> unpack_value c_chain_config d = Ok cfg -> cc_max_inline_action_depth cfg < 2 ^ 16.
Proof.
  intros Hd. unfold unpack_value. destruct (unpack c_chain_config d) as [d' r] eqn:E. cbn. intros ->.
  refine (proj2 (yields_struct _ _ _ _ (fun c => cc_max_inline_action_depth c < 2 ^ 16) _ _ d d' cfg Hd E)).
  - repeat (apply yields_pair; [apply yields_uint|]). apply yields_uint.
  - intros (x1 & x2 & x3 & x4 & x5 & x6 & x7 & x8 & x9 & x10 & x11 & x12 & x13 & x14 & x15 & x16 & x17). cbn. intuition lia.
Qed.

Section depth.
Context `{MetaSet} `{TrxCrypto} `{NativeEnv} (g : setting) (act : action) (context_free : bool).
Definition config_at (s : applying) := nd_config (w_node (ap_world s)).
Definition keeps_depth (s s' : applying) : Prop := depth_ok s -> depth_ok s'.
#[export] Instance keeps_depth_preorder : PreOrder keeps_depth.
Proof. split; [by intros s Hs|]. intros s s1 s2 H1' H2' Hs. auto. Qed.
Lemma depth_config {A} (m : St applying A) : keeps config_at m -> moves keeps_depth m.
Proof. intros Hm s. specialize (Hm s). unfold keeps_depth, depth_ok, max_depth, config_at in *. by rewrite Hm. Qed.
Lemma config_still {A} (m : St world A) : keeps still m -> keeps config_at (in_world m).
Proof.
  intros Hm s. specialize (Hm (ap_world s)). unfold in_world. destruct (m (ap_world s)) as [w r].
  apply (f_equal fst) in Hm. cbn [still fst] in Hm. unfold config_at. cbn [fst ap_world]. by rewrite Hm.
Qed.
Lemma config_chain {A} (m : St chain A) : keeps config_at (onto_chain m).
Proof. intros s. unfold onto_chain, in_world, TransactionContext.on_chain. by destruct (m _). Qed.
Lemma config_ctx : keeps config_at ctx.
Proof. done. Qed.
Lemma config_ctx_mod f : keeps config_at (ctx_mod f).
Proof. done. Qed.
Lemma config_db k : keeps config_at (db_access g act k).
Proof. intros s. unfold db_access. by destruct (run_call k _). Qed.
#[local] Hint Resolve config_still config_chain config_ctx config_ctx_mod config_db checktime_still add_net_still
  timed_check_still : keeps.
Lemma run_host_depth k : call_ok k -> moves keeps_depth (run_host g act context_free k).
Proof.
  intros Hk. destruct k; cbn [run_host]; try (apply depth_config; unfold aware, privileged_api, require_recipient, send_action,
      execute_inline, execute_context_free_inline, schedule_deferred_transaction, set_resource_limits; cbv zeta; keeps_step;
      try (apply keeps_capture; keeps_step); fail).
  do 3 (apply moves_bind; [apply _|apply moves_assert || apply moves_gets; apply _|intros ?]).
  intros s. unfold set_blockchain_parameters_packed, mbind, St_bind, lift.
  destruct (unpack_value c_chain_config data) as [cfg|e] eqn:E; [|cbn; reflexivity].
  destruct (validate_config cfg) as [[]|e]; [|cbn; reflexivity]. intros _. by apply (config_depth data cfg).
Qed.
Lemma run_program_depth p : program_ok p -> moves keeps_depth (run_program g act context_free p).
Proof.
  intros Hp. induction Hp as [|e|k next Hk Hn IH]; cbn [run_program]; [apply moves_ret; apply _|apply moves_throw; apply _|].
  apply moves_bind; [apply _|by apply run_host_depth|]. intros _ s. apply IH.
Qed.
End depth.

(** ** Receivers *)
Lemma find_apply_handler_self `{NativeEnv} receiver scope name h :
  find_apply_handler receiver scope name = Some h -> receiver = scope.
Proof.
  unfold find_apply_handler. intros (x & Hx & _)%fmap_Some.
  assert (x ∈ filter (fun h => h.1 = (receiver, scope, name)) apply_handlers) as [Hk Hin]%list_elem_of_filter.
  { destruct (filter _ _); [done|]. injection Hx as ->. by left. }
  unfold apply_handlers in Hin. cbn in Hin. rewrite !elem_of_cons in Hin.
  repeat destruct Hin as [->|Hin]; [cbn in Hk; congruence..|by apply elem_of_nil in Hin].
Qed.

Section receivers.
Context `{MetaSet} `{TrxCrypto} `{NativeEnv} `{WasmLaws} (g : setting) (act : action) (cf : bool).
Definition accounts_at (s : applying) : gset Z := dom (ch_accounts (nd_chain (w_node (ap_world s)))).

Lemma pause_still : keeps still (pause_billing_timer g).
Proof. unfold pause_billing_timer, tc_get. apply keeps_bind; [done|]. intros c. keeps_step. Qed.
Lemma resume_still : keeps still (resume_billing_timer g).
Proof. unfold resume_billing_timer, tc_get. apply keeps_bind; [done|]. intros c. keeps_step. Qed.
Lemma accounts_host {A} (m : St applying A) : keeps host_part m -> keeps accounts_at m.
Proof. intros Hm s. specialize (Hm s). exact (f_equal (fun x => x.1.1.2) Hm). Qed.
#[local] Hint Resolve config_still config_chain config_ctx config_ctx_mod pause_still resume_still : keeps.

Lemma receiver_depth : moves keeps_depth (run_receiver g act cf).
Proof.
  assert (Hk : forall A (m : St applying A), keeps config_at m -> moves keeps_depth m) by (intros; by apply depth_config).
  unfold run_receiver, check_lists, get_instantiated_module. apply moves_bind; [apply _|apply Hk, config_ctx|]. intros c. cbv zeta.
  apply moves_bind; [apply _|apply Hk, config_chain|]. intros a.
  apply moves_bind; [apply _|apply Hk, config_ctx_mod|]. intros _.
  apply moves_bind; [apply _|apply Hk; destruct (find_apply_handler _ _ _); keeps_step|intros _].
  apply moves_bind; [apply _|apply Hk, config_chain|]. intros b. destruct (_ && _); [|apply moves_ret; apply _].
  apply moves_bind; [apply _|apply Hk; keeps_step|intros _]. apply moves_bind; [apply _|apply Hk; keeps_step|intros _].
  apply moves_bind; [apply _|apply moves_get; apply _|]. intros s. apply run_program_depth, wasm_bytes.
Qed.

Lemma wp_account a (Q : account_object -> applying -> Prop) s :
  (forall o, a ∈ accounts_at s -> Q o s) -> wp (onto_chain (get_account a)) Q s.
Proof.
  intros HQ. apply wp_onto_chain. unfold get_account. do 3 wp_step.
  destruct (ch_accounts _ !! a) as [o|] eqn:E; [|done]. destruct s as [[n c k] x]. unfold set_chain. destruct n. cbn.
  apply HQ. unfold accounts_at. cbn. apply elem_of_dom. by exists o.
Qed.
Lemma receiver_accounts s : wp (run_receiver g act cf) (fun _ s' => ap_receiver (ap_ctx s) ∈ accounts_at s' /\
  (ap_receiver (ap_ctx s) <> act_account act -> accounts_at s' = accounts_at s)) s.
Proof.
  unfold run_receiver. apply wp_bind. unfold ctx, gets, wp at 1. cbv zeta. set (r := ap_receiver (ap_ctx s)).
  apply wp_bind, wp_account. intros a _. apply wp_bind. unfold ctx_mod, modify_st, wp at 1. apply wp_bind.
  eapply wp_mono with (Q1 := fun _ s1 => r <> act_account act -> accounts_at s1 = accounts_at s).
  { destruct (find_apply_handler r _ _) eqn:Eh; [|by wp_step]. apply find_apply_handler_self in Eh.
    apply wp_run. intros; done. }
  intros [] s1 Hs1. apply wp_bind, wp_account. intros b Hb.
  apply (wp_keeps accounts_at); [|intros _ s2 ->; done]. destruct (_ && _); [|apply keeps_ret].
  unfold check_lists, get_instantiated_module. apply keeps_bind; [keeps_step|intros _].
  apply keeps_bind; [apply accounts_host; keeps_step; apply host_still; eauto with keeps|intros _].
  apply keeps_bind; [done|]. intros s2. apply accounts_host, run_program_keeps.
Qed.

Definition outer (s : applying) := (config_at s, accounts_at s).
Lemma outer_sequences {A} (m : St chain A) : keeps ch_accounts m -> keeps outer (onto_chain m).
Proof.
  intros Hm s. specialize (Hm (nd_chain (w_node (ap_world s)))). unfold outer, accounts_at, onto_chain, in_world, TransactionContext.on_chain.
  destruct (m _) as [c r]. cbn in Hm |- *. by rewrite Hm.
Qed.
Lemma auth_sequences_accounts l m : keeps ch_accounts (auth_sequences l m).
Proof.
  revert m. induction l as [|p l IH]; intros m; cbn [auth_sequences]; [keeps_step|].
  apply keeps_bind; [|intros n; apply IH]. unfold next_auth_sequence, get_sequences, set_sequences. keeps_step.
Qed.
Lemma make_receipt_outer : keeps outer (make_receipt act).
Proof.
  unfold make_receipt. apply keeps_bind; [done|]. intros c. apply keeps_bind; [done|]. intros d.
  apply keeps_bind; [unfold next_global_sequence; apply keeps_bind; [done|]; intros _; apply keeps_bind; done|]. intros n.
  apply keeps_bind; [apply outer_sequences; unfold next_recv_sequence, get_sequences, set_sequences; keeps_step|]. intros k.
  apply keeps_bind; [apply outer_sequences; unfold get_sequences; keeps_step|]. intros o.
  apply keeps_bind; [apply outer_sequences, auth_sequences_accounts|]. intros l. apply keeps_ret.
Qed.
Lemma exec_one_ends s s' : exec_one g act cf s = (s', Ok tt) ->
  recipients s s' /\ (depth_ok s -> depth_ok s') /\ ap_receiver (ap_ctx s) ∈ accounts_at s' /\
  (ap_receiver (ap_ctx s) <> act_account act -> accounts_at s' = accounts_at s).
Proof.
  intros Hrun. split; [destruct (wp_ok _ _ _ _ _ (exec_one_logged g act cf s) Hrun) as (r & _ & _ & Hr & _); exact Hr|].
  revert Hrun. apply (wp_ok _ (fun _ s' => (depth_ok s -> depth_ok s') /\ ap_receiver (ap_ctx s) ∈ accounts_at s' /\
    (ap_receiver (ap_ctx s) <> act_account act -> accounts_at s' = accounts_at s))).
  unfold exec_one. apply wp_bind. unfold in_world at 1, now at 1, wp at 1. set (s1 := Applying _ _). apply wp_bind.
  pose proof (receiver_depth s1) as Hd. pose proof (receiver_accounts s1) as Ha. unfold capture_and_rethrow, wp at 1. unfold wp in Ha.
  destruct (run_receiver g act cf s1) as [s2 [[]|e]]; [|done]. cbn in Hd. destruct Ha as [Ha1 Ha2].
  apply (wp_keeps outer).
  - apply keeps_bind; [apply make_receipt_outer|]. intros r. apply keeps_bind; [done|]. intros _. by apply keeps_bind.
  - intros [] s3 [= Ec Ea]. rewrite Ea. split; [|done]. unfold keeps_depth, depth_ok, max_depth in *.
    change (nd_config (w_node (ap_world s3))) with (config_at s3). rewrite Ec. exact Hd.
Qed.
End receivers.

(** ** Termination *)
Section termination.
Context `{MetaSet} `{TrxCrypto} `{NativeEnv} `{WasmLaws} (g : setting).

(** The receivers so far have accounts, so there are no more of them than accounts. *)
Lemma notify_ends act cf fuel : forall i s, NoDup (ap_notified (ap_ctx s)) ->
  ap_notified (ap_ctx s) !! 0%nat = Some (act_account act) -> (0 < i)%nat ->
  (forall r, r ∈ take i (ap_notified (ap_ctx s)) -> r ∈ accounts_at s) -> (i <= length (ap_notified (ap_ctx s)))%nat ->
  (size (accounts_at s) + 2 <= fuel + i)%nat -> depth_ok s ->
  notifies g act cf i s (notify g act cf fuel i s).1 (notify g act cf fuel i s).2 /\
  ((notify g act cf fuel i s).2 = Ok tt -> depth_ok (notify g act cf fuel i s).1).
Proof.
  induction fuel as [|fuel IH]; intros i s Hnd Hfirst Hi Hin Hlen Hfuel Hdep.
  { exfalso. assert (i <= size (accounts_at s))%nat; [|lia].
    rewrite <- (length_take_le (ap_notified (ap_ctx s)) i) by done. rewrite <- (size_list_to_set (C := gset Z)) by (eapply sublist_NoDup; [exact Hnd|apply sublist_take]).
    apply subseteq_size. intros r Hr. apply Hin. by apply elem_of_list_to_set in Hr. }
  cbn [notify]. unfold mbind, St_bind, ctx, gets, ctx_mod, modify_st.
  destruct (ap_notified (ap_ctx s) !! i) as [r|] eqn:Ei; [|split; [by constructor|done]].
  change (Applying (ap_world s) (set_receiver r (ap_ctx s))) with (at_receiver r s).
  destruct (exec_one g act cf (at_receiver r s)) as [s1 [[]|e]] eqn:Ex; [|split; [by eapply notifies_fails|done]].
  destruct (exec_one_ends g act cf _ _ Ex) as ([_ (new & Hn & Hd1)] & Hdep1 & Hr & Hacc). cbn in Hn, Hd1, Hr, Hacc.
  assert (Hne : r <> act_account act).
  { intros ->. assert (0 = i)%nat; [|lia]. by eapply NoDup_lookup. }
  specialize (Hacc Hne). change (accounts_at s1 = accounts_at s) in Hacc.
  assert (Hlen1 : (S i <= length (ap_notified (ap_ctx s)))%nat) by (apply lookup_lt_Some in Ei; lia).
  destruct (IH (S i) s1) as [Hnot Hd]; [by apply Hd1|rewrite Hn; by apply lookup_app_l_Some|lia| | | |by apply Hdep1|].
  - rewrite Hn, take_app_le, Hacc by done. rewrite (take_S_r _ _ _ Ei). intros x. rewrite elem_of_app, list_elem_of_singleton.
    intros [Hx| ->]; [by apply Hin|]. by rewrite Hacc in Hr.
  - rewrite Hn, length_app. lia.
  - rewrite Hacc. lia.
  - split; [by eapply notifies_next|done].
Qed.

Lemma for_each_map {S A B} (f : B -> St S unit) (h : A -> B) l s : for_each f (map h l) s = for_each (fun a => f (h a)) l s.
Proof.
  revert s. induction l as [|a l IH]; intros s; [done|]. cbn [map for_each]. unfold mbind, St_bind.
  destruct (f (h a) s) as [s1 [[]|e]]; [apply IH|done].
Qed.
Definition send_each (rec : action -> bool -> St world unit) : list (action * bool) -> St applying unit :=
  for_each (fun x => in_world (rec x.1 x.2)).
Definition ends_at (depth : Z) (rec : action -> bool -> St world unit) : Prop := forall a cf s, depth_ok s ->
  dispatches g depth a (act_account a) cf (ap_world s) (rec a cf (ap_world s)).1 (rec a cf (ap_world s)).2 /\
  ((rec a cf (ap_world s)).2 = Ok tt -> depth_ok (Applying (rec a cf (ap_world s)).1 (ap_ctx s))).

Lemma sends_end depth rec l : ends_at depth rec -> forall s, depth_ok s ->
  sends g depth l s (send_each rec l s).1 (send_each rec l s).2 /\
  ((send_each rec l s).2 = Ok tt -> depth_ok (send_each rec l s).1).
Proof.
  intros Hrec. induction l as [|[a cf] l IH]; intros s Hs; [split; [constructor|done]|].
  destruct (Hrec a cf s Hs) as [Hd Ho]. unfold send_each. cbn [for_each fst snd]. unfold mbind, St_bind, in_world at 1 3 5 7.
  destruct (rec a cf (ap_world s)) as [w [[]|e]]; [|split; [by constructor|done]].
  destruct (IH (Applying w (ap_ctx s)) (Ho eq_refl)) as [H1' H2']. split; [by eapply sends_next|done].
Qed.

Lemma send_all rec s s2 :
  (x ← for_each (fun a => in_world (rec a true)) (ap_cfa_inline_actions (ap_ctx s));
   for_each (fun a => in_world (rec a false)) (ap_inline_actions (ap_ctx s))) s2 = send_each rec (sent s) s2.
Proof.
  unfold send_each, sent. rewrite for_each_app. unfold mbind, St_bind. rewrite for_each_map. cbn [fst snd].
  destruct (for_each _ _ s2) as [s3 [[]|e]]; [|done]. by rewrite for_each_map.
Qed.
Lemma sent_nonempty s : bool_decide (ap_cfa_inline_actions (ap_ctx s) <> []) || bool_decide (ap_inline_actions (ap_ctx s) <> [])
  = bool_decide (sent s <> []).
Proof.
  unfold sent. destruct (ap_cfa_inline_actions (ap_ctx s)); [|done]. by destruct (ap_inline_actions (ap_ctx s)).
Qed.

(** From the end of the notifications on. *)
Lemma sending_ends depth a cf rec s s1 s2 s' res :
  exec_one g a cf (enter s) = (s1, Ok tt) -> notifies g a cf 1 s1 s2 (Ok tt) -> depth_ok s2 ->
  (depth + 1 < 2 ^ 16 -> ends_at (depth + 1) rec) ->
  (_ ← (if bool_decide (sent s2 <> []) then st_assert (depth <? max_depth s2) transaction_exception else mret tt);
   send_each rec (sent s2)) s2 = (s', res) ->
  executes g depth a cf s s' res /\ (res = Ok tt -> depth_ok s').
Proof.
  intros Hx Hn Hd Hrec. destruct (bool_decide (sent s2 <> [])) eqn:E; bool_to_prop.
  - unfold mbind, St_bind, st_assert, lift, bes_assert. destruct (depth <? max_depth s2) eqn:El; bool_to_prop.
    + intros Hrun. unfold depth_ok in Hd. destruct (sends_end (depth + 1) rec (sent s2)) with (s := s2) as [Hs Ho]; [apply Hrec; lia|done|].
      rewrite Hrun in Hs, Ho. split; [by eapply executes_sends|done].
    + intros [= <- <-]. split; [by eapply executes_too_deep|done].
  - apply dec_stable in E. rewrite E. intros [= <- <-]. split; [|done].
    eapply executes_sends; [done..| |]; rewrite E; [done|constructor].
Qed.

Lemma apply_exec_ends depth a cf rec s s' res : ap_notified (ap_ctx s) = [] -> ap_receiver (ap_ctx s) = act_account a ->
  depth_ok s -> (depth + 1 < 2 ^ 16 -> ends_at (depth + 1) rec) -> apply_exec g a cf rec depth s = (s', res) ->
  executes g depth a cf s s' res /\ (res = Ok tt -> depth_ok s').
Proof.
  intros Hnil Hrcv Hs Hrec Hrun. unfold apply_exec in Hrun. unfold mbind at 1, St_bind at 1 in Hrun.
  change (ctx_mod _ s) with (enter s, Ok tt) in Hrun. unfold mbind at 1, St_bind at 1 in Hrun.
  destruct (exec_one g a cf (enter s)) as [s1 [[]|e]] eqn:E1; [|injection Hrun as <- <-; split; [by apply executes_fails|done]].
  destruct (exec_one_ends g a cf _ _ E1) as ([_ (new & Hn & Hd1)] & Hdep1 & Hr & _). cbn in Hn, Hd1, Hr.
  rewrite Hnil in Hn, Hd1. cbn in Hn, Hd1. rewrite Hrcv in *. specialize (Hd1 (NoDup_singleton _)).
  destruct (notify_ends a cf (S (size (ch_accounts (nd_chain (w_node (ap_world s1)))))) 1 s1) as [Hnot Hdep2];
    [done|by rewrite Hn|lia|rewrite Hn; cbn; by intros r ->%list_elem_of_singleton|rewrite Hn; cbn; lia| |by apply Hdep1|].
  { unfold accounts_at. rewrite size_dom. lia. }
  unfold mbind at 1, St_bind at 1, get at 1 in Hrun. unfold mbind at 1, St_bind at 1 in Hrun.
  destruct (notify g a cf _ 1 s1) as [s2 [[]|e]]; [|injection Hrun as <- <-; split; [by eapply executes_notify_fails|done]].
  cbn [fst snd] in Hnot, Hdep2. eapply sending_ends; [exact E1|exact Hnot|by apply Hdep2|exact Hrec|]. 
  unfold mbind at 1, St_bind at 1, get at 1 in Hrun. cbv zeta in Hrun. rewrite sent_nonempty in Hrun. fold (max_depth s2) in Hrun.
  unfold mbind at 1, St_bind at 1 in Hrun. unfold mbind at 1, St_bind at 1.
  destruct (bool_decide _); [unfold st_assert, lift, bes_assert in *; destruct (depth <? max_depth s2); [|done]|];
    (etransitivity; [symmetry; apply (send_all rec s2 s2)|exact Hrun]).
Qed.

Lemma dispatch_ends fuel : forall depth, depth < 2 ^ 16 -> 2 ^ 16 <= Z.of_nat fuel + depth ->
  ends_at depth (fun a cf => dispatch g fuel depth a (act_account a) cf).
Proof.
  induction fuel as [|fuel IH]; intros depth Hd Hf a cf s Hs; [lia|]. cbn [dispatch]. unfold with_apply_context.
  fold (begin a (act_account a) (ap_world s)).
  destruct (apply_exec g a cf _ depth (begin a (act_account a) (ap_world s))) as [s' res] eqn:E.
  apply apply_exec_ends in E as [Hx Ho]; [|done|done|exact Hs|intros Hd'; apply (IH (depth + 1)); lia].
  split; [by apply dispatches_exec|exact Ho].
Qed.
End termination.

(** ** Claims *)

(** C15 Executing an action ends when every run of a contract does. A contract that runs is
    a finite tree of calls of the host ([program]), as the time limit makes it be, which is
    not part of this model; the theorem is about what the host adds to it, the loops
    over the receivers and the nested actions. From any state whose depth parameter has
    its width, the rules of execution (call the receiver; call each account that is to be
    notified, those added meanwhile included; then execute the actions that were sent,
    unless they are nested too deeply) lead to an end, which is the one the executor
    computes, although the rules bound neither the notifications nor the nesting. *)
Theorem action_terminates `{MetaSet} `{TrxCrypto} `{NativeEnv} `{WasmLaws} (g : setting) (a : action) (cf : bool) (w : world) :
  0 <= cc_max_inline_action_depth (nd_config (w_node w)) < 2 ^ 16 ->
  exists w' res, @dispatch_action apply_dispatch g a (act_account a) cf w = (w', res) /\
    dispatches g 0 a (act_account a) cf w w' res.
Proof.
  intros Hw. destruct (dispatch_ends g dispatch_depth 0 ltac:(lia) ltac:(unfold dispatch_depth; lia) a cf
    (Applying w (new_apply_context 0))) as [Hd _]; [unfold depth_ok, max_depth; cbn; lia|].
  unfold dispatch_action, apply_dispatch. revert Hd. generalize dispatch_depth. intros fuel. cbn [ap_world].
  destruct (dispatch g fuel 0 a (act_account a) cf w) as [w' res]. intros Hd. by exists w', res.
Qed.

Module TerminationSample.
Export ReceiptSample.
Definition echo_call : action :=
  Action null_account_name onramusage_name [PermissionLevel system_account_name active_name] [].
#[export] Instance echo_laws : WasmLaws.
Proof.
  split. intros code receiver act s. unfold wasm_apply, echo_wasm. destruct (_ && _); [|constructor].
  constructor; [done|]. intros _. destruct (pack_value c_action echo); constructor; [done|]. intros _. constructor.
Qed.
End TerminationSample.
Import TerminationSample.

Lemma action_terminates_witness : exists w',
  dispatches validating 0 echo_call null_account_name false echo_world w' (Ok tt) /\ nd_global_sequence (w_node w') = 9.
Proof.
  destruct (action_terminates validating echo_call false echo_world) as (w' & res & Hrun & Hd); [by vm_compute|].
  assert (Hres : (@dispatch_action apply_dispatch validating echo_call null_account_name false echo_world).2 = Ok tt)
    by (vm_compute; reflexivity).
  assert (Hgs : nd_global_sequence (w_node (@dispatch_action apply_dispatch validating echo_call null_account_name false echo_world).1) = 9)
    by (vm_compute; reflexivity).
  change (act_account echo_call) with null_account_name in Hrun. rewrite Hrun in Hres, Hgs. cbn [fst snd] in Hres, Hgs. subst res.
  exists w'. split; [exact Hd|exact Hgs].
Defined.
