(* ===== verification/Token.v ===== *)
(** * The token contract

    Model of [contracts/besio.token] with the parts of [contracts/besiolib] it uses:
    symbols and assets of contracts ([symbol.hpp], [asset.hpp]), the tables of
    [multi_index.hpp] it reads and writes, and its dispatch. The rows of a table record the
    account that pays for them. *)
From Stdlib Require Import Ascii String.
From S2P Require Import Prelude BlockHeaderState Names Asset.

Definition besio_assert (b : bool) : result unit := bes_assert b besio_assert_message_exception.

(** ** Symbols and assets of besiolib *)
Module Lib.
(** The inner loop of [is_valid_symbol]: only zeros may follow the name. *)
Fixpoint zeros_follow (n : nat) (sym : Z) : bool :=
  match n with
  | O => true
  | S n =>
      let sym := Z.shiftr sym 8 in
      if negb (Z.land sym 255 =? 0) then false else zeros_follow n sym
  end.
(** [n] characters are left to look at. *)
Fixpoint valid_symbol_loop (n : nat) (sym : Z) : bool :=
  match n with
  | O => true
  | S n' =>
      let c := Z.land sym 255 in
      if negb ((65 <=? c) && (c <=? 90)) then false else
      let sym := Z.shiftr sym 8 in
      if Z.land sym 255 =? 0 then zeros_follow n sym else valid_symbol_loop n' sym
  end.
Definition is_valid_symbol (sym : Z) : bool := valid_symbol_loop 7 (Z.shiftr sym 8).
Definition name (sym : Z) : Z := Z.shiftr sym 8.

Definition is_valid (a : asset) : bool := is_amount_within_range a && is_valid_symbol (sym a).

Definition isub (this a : asset) : result asset :=
  _ ← besio_assert (sym a =? sym this);
  let r := i64 (amount this - amount a) in
  _ ← besio_assert (- max_amount <=? r);
  _ ← besio_assert (r <=? max_amount);
  mret (Asset r (sym this)).
Definition iadd (this a : asset) : result asset :=
  _ ← besio_assert (sym a =? sym this);
  let r := i64 (amount this + amount a) in
  _ ← besio_assert (- max_amount <=? r);
  _ ← besio_assert (r <=? max_amount);
  mret (Asset r (sym this)).
End Lib.

(** ** Tables *)
Record currency_stats := CurrencyStats {
  supply : asset;
  max_supply : asset;
  issuer : account_name
}.
Record row (A : Type) := Row { payer : account_name; obj : A }.
Arguments Row {_} _ _.
Arguments payer {_} _.
Arguments obj {_} _.

(** An inline transfer the contract sends. *)
Record transfer_args := TransferArgs {
  t_from : account_name;
  t_to : account_name;
  t_quantity : asset;
  t_memo : list ascii
}.

(** Balances by owner and symbol name, statistics by symbol name; in both tables of
    statistics the scope is the key. Notified accounts and inline actions are collected
    for the node. *)
Record token_db := TokenDb {
  accounts : gmap (Z * Z) (row asset);
  stats : gmap Z (row currency_stats);
  recipients : list account_name;
  inline_actions : list transfer_args
}.
Abbreviation M := (St token_db).

Definition set_accounts (m : gmap (Z * Z) (row asset)) : M unit :=
  modify_st (fun db => TokenDb m (stats db) (recipients db) (inline_actions db)).
Definition set_stats (m : gmap Z (row currency_stats)) : M unit :=
  modify_st (fun db => TokenDb (accounts db) m (recipients db) (inline_actions db)).
Definition require_recipient (a : account_name) : M unit :=
  modify_st (fun db => TokenDb (accounts db) (stats db) (recipients db ++ [a]) (inline_actions db)).
Definition send_inline (t : transfer_args) : M unit :=
  modify_st (fun db => TokenDb (accounts db) (stats db) (recipients db) (inline_actions db ++ [t])).

(** ** The contract *)
Section contract.
(** The account of the contract, the accounts that authorized the action, and the
    accounts that exist. *)
Context (self : account_name) (authorized : list account_name) (is_account : account_name -> bool).

Definition require_auth (a : account_name) : M unit :=
  st_assert (bool_decide (a ∈ authorized)) missing_auth_exception.
Definition check (b : bool) : M unit := st_assert b besio_assert_message_exception.

Definition sub_balance (owner : account_name) (value : asset) : M unit :=
  db ← get;
  from ← lift (of_option besio_assert_message_exception (accounts db !! (owner, Lib.name (sym value))));
  _ ← check (amount value <=? amount (obj from));
  if amount (obj from) =? amount value then
    set_accounts (delete (owner, Lib.name (sym value)) (accounts db))
  else
    b ← lift (Lib.isub (obj from) value);
    set_accounts (<[(owner, Lib.name (sym value)) := Row owner b]> (accounts db)).

Definition add_balance (owner : account_name) (value : asset) (ram_payer : account_name) : M unit :=
  db ← get;
  match accounts db !! (owner, Lib.name (sym value)) with
  | None => set_accounts (<[(owner, Lib.name (sym value)) := Row ram_payer value]> (accounts db))
  | Some to =>
      b ← lift (Lib.iadd (obj to) value);
      set_accounts (<[(owner, Lib.name (sym value)) := Row (payer to) b]> (accounts db))
  end.

Definition create (issuer : account_name) (maximum_supply : asset) : M unit :=
  _ ← require_auth self;
  let s := sym maximum_supply in
  _ ← check (Lib.is_valid_symbol s);
  _ ← check (Lib.is_valid maximum_supply);
  _ ← check (0 <? amount maximum_supply);
  db ← get;
  _ ← check (bool_decide (stats db !! Lib.name s = None));
  set_stats (<[Lib.name s := Row self (CurrencyStats (Asset 0 s) maximum_supply issuer)]> (stats db)).

Definition issue (to : account_name) (quantity : asset) (memo : list ascii) : M unit :=
  let s := sym quantity in
  _ ← check (Lib.is_valid_symbol s);
  _ ← check (Z.of_nat (length memo) <=? 256);
  db ← get;
  existing ← lift (of_option besio_assert_message_exception (stats db !! Lib.name s));
  let st := obj existing in
  _ ← require_auth (issuer st);
  _ ← check (Lib.is_valid quantity);
  _ ← check (0 <? amount quantity);
  _ ← check (sym quantity =? sym (supply st));
  _ ← check (amount quantity <=? i64 (amount (max_supply st) - amount (supply st)));
  s' ← lift (Lib.iadd (supply st) quantity);
  _ ← set_stats (<[Lib.name s := Row (payer existing) (CurrencyStats s' (max_supply st) (issuer st))]> (stats db));
  _ ← add_balance (issuer st) quantity (issuer st);
  if to =? issuer st then mret tt else send_inline (TransferArgs (issuer st) to quantity memo).

Definition transfer (from to : account_name) (quantity : asset) (memo : list ascii) : M unit :=
  _ ← check (negb (from =? to));
  _ ← require_auth from;
  _ ← check (is_account to);
  db ← get;
  r ← lift (of_option besio_assert_message_exception (stats db !! Lib.name (sym quantity)));
  let st := obj r in
  _ ← require_recipient from;
  _ ← require_recipient to;
  _ ← check (Lib.is_valid quantity);
  _ ← check (0 <? amount quantity);
  _ ← check (sym quantity =? sym (supply st));
  _ ← check (Z.of_nat (length memo) <=? 256);
  _ ← sub_balance from quantity;
  add_balance to quantity from.
End contract.

(** ** Dispatch *)
Inductive token_action :=
| Create (issuer : account_name) (maximum_supply : asset)
| Issue (to : account_name) (quantity : asset) (memo : list ascii)
| Transfer (args : transfer_args).

(** [apply]: a notification, where the code is another account, runs nothing. *)
Definition apply (receiver code : account_name) (authorized : list account_name)
    (is_account : account_name -> bool) (act : token_action) : M unit :=
  if negb (code =? receiver) then mret tt else
  match act with
  | Create i m => create receiver authorized i m
  | Issue to q memo => issue authorized to q memo
  | Transfer a => transfer authorized is_account (t_from a) (t_to a) (t_quantity a) (t_memo a)
  end.

Definition get_supply (db : token_db) (sym_name : Z) : result asset :=
  r ← of_option besio_assert_message_exception (stats db !! sym_name); mret (supply (obj r)).
Definition get_balance (db : token_db) (owner : account_name) (sym_name : Z) : result asset :=
  r ← of_option besio_assert_message_exception (accounts db !! (owner, sym_name)); mret (obj r).

(** ** The ledger *)
Definition balance (db : token_db) (owner : account_name) (n : Z) : Z :=
  match accounts db !! (owner, n) with Some r => amount (obj r) | None => 0 end.
Definition amount_in (n : Z) (k : Z * Z) (r : row asset) : Z := if k.2 =? n then amount (obj r) else 0.
(** The sum of all balances of a symbol. *)
Definition total (n : Z) (db : token_db) : Z := map_sum (amount_in n) (accounts db).

(** [ledger n d db]: the tables are consistent, and the supply of symbol [n] is [d] more
    than the balances of it. *)
Record ledger (n d : Z) (db : token_db) : Prop := {
  lg_stats : forall m r, stats db !! m = Some r ->
    Lib.name (sym (supply (obj r))) = m /\ sym (max_supply (obj r)) = sym (supply (obj r)) /\
    0 <= amount (supply (obj r)) <= amount (max_supply (obj r)) /\ amount (max_supply (obj r)) <= max_amount;
  lg_balances : forall o m r, accounts db !! (o, m) = Some r -> 0 < amount (obj r) /\
    exists s, stats db !! m = Some s /\ sym (obj r) = sym (supply (obj s));
  lg_total : forall m r, stats db !! m = Some r ->
    total m db + (if m =? n then d else 0) = amount (supply (obj r))
}.
Definition token_ok (db : token_db) : Prop := ledger 0 0 db.

Lemma ledger_any n n' db : ledger n 0 db -> ledger n' 0 db.
Proof. intros [H1 H2 H3]. split; [done..|]. intros m r Hr. rewrite <- (H3 m r Hr). by destruct (m =? n), (m =? n'). Qed.

Lemma amount_in_nonneg n d db m k r : ledger n d db -> accounts db !! k = Some r -> 0 <= amount_in m k r.
Proof. intros HL Hr. destruct k as [o k]. apply (lg_balances _ _ _ HL) in Hr as [Hr _]. unfold amount_in. case_match; lia. Qed.

Lemma balance_range n d db o m : ledger n d db -> 0 <= balance db o m <= total m db.
Proof.
  intros HL. unfold balance, total. destruct (accounts db !! (o, m)) as [r|] eqn:Hr.
  - pose proof (lg_balances _ _ _ HL _ _ _ Hr) as [Hp _].
    pose proof (map_sum_elem_le (amount_in m) _ _ _ (fun k a => amount_in_nonneg n d db m k a HL) Hr) as Hle.
    unfold amount_in in Hle at 1. cbn in Hle. rewrite Z.eqb_refl in Hle. lia.
  - split; [done|]. apply map_sum_nonneg_in. intros k a. by apply (amount_in_nonneg n d).
Qed.

Lemma supply_le n d db m r : ledger n d db -> stats db !! m = Some r ->
  total m db + (if m =? n then d else 0) <= max_amount.
Proof. intros HL Hr. rewrite (lg_total _ _ _ HL m r Hr). destruct (lg_stats _ _ _ HL m r Hr). lia. Qed.

(** Writing a balance: the total changes by the difference. *)
Lemma total_insert db o n m r a s :
  total m (TokenDb (<[(o, n) := r]> (accounts db)) s (recipients db) a) =
    total m db + (if n =? m then amount (obj r) - balance db o n else 0).
Proof.
  unfold total, balance. cbn [accounts]. destruct (accounts db !! (o, n)) as [r'|] eqn:Hr.
  - rewrite (map_sum_update _ _ _ _ _ Hr). unfold amount_in. cbn. case_match; lia.
  - rewrite map_sum_insert by done. unfold amount_in at 1. cbn. case_match; lia.
Qed.

Definition put_balance (o n : Z) (r : row asset) (db : token_db) : token_db :=
  TokenDb (<[(o, n) := r]> (accounts db)) (stats db) (recipients db) (inline_actions db).
Definition drop_balance (o n : Z) (db : token_db) : token_db :=
  TokenDb (delete (o, n) (accounts db)) (stats db) (recipients db) (inline_actions db).

Lemma ledger_put n d db o r s : ledger n d db -> stats db !! n = Some s -> 0 < amount (obj r) ->
  sym (obj r) = sym (supply (obj s)) ->
  ledger n (d - (amount (obj r) - balance db o n)) (put_balance o n r db).
Proof.
  intros HL Hs Hp Hsym. split; cbn [put_balance accounts stats].
  - exact (lg_stats _ _ _ HL).
  - intros o' m r' [[[= <- <-] <-]|[_ Hr]]%lookup_insert_Some; [by eauto|]. by apply (lg_balances _ _ _ HL o').
  - intros m r' Hr. rewrite <- (lg_total _ _ _ HL m r' Hr). unfold put_balance. rewrite total_insert.
    destruct (Z.eqb_spec n m), (Z.eqb_spec m n); lia.
Qed.

Lemma ledger_drop n d db o : ledger n d db -> ledger n (d + balance db o n) (drop_balance o n db).
Proof.
  intros HL. split; cbn [drop_balance accounts stats].
  - exact (lg_stats _ _ _ HL).
  - intros o' m r' [_ Hr]%lookup_delete_Some. by apply (lg_balances _ _ _ HL o').
  - intros m r' Hr. rewrite <- (lg_total _ _ _ HL m r' Hr). unfold total, balance, drop_balance. cbn [accounts].
    destruct (accounts db !! (o, n)) as [r|] eqn:E.
    + rewrite (map_sum_delete (amount_in m) (accounts db) _ _ E). unfold amount_in at 2. cbn.
      destruct (Z.eqb_spec n m), (Z.eqb_spec m n); lia.
    + rewrite delete_id by done. destruct (m =? n); lia.
Qed.

Lemma balance_put db o n r o' m :
  balance (put_balance o n r db) o' m = if bool_decide ((o', m) = (o, n)) then amount (obj r) else balance db o' m.
Proof.
  unfold balance, put_balance. cbn [accounts]. case_bool_decide as E; [rewrite E, lookup_insert_eq; done|].
  by rewrite lookup_insert_ne.
Qed.
Lemma balance_drop db o n o' m :
  balance (drop_balance o n db) o' m = if bool_decide ((o', m) = (o, n)) then 0 else balance db o' m.
Proof.
  unfold balance, drop_balance. cbn [accounts]. case_bool_decide as E; [rewrite E, lookup_delete_eq; done|].
  by rewrite lookup_delete_ne.
Qed.

(** Checked addition and subtraction of amounts in range. *)
Lemma iadd_run a b : sym b = sym a -> - max_amount <= amount a + amount b <= max_amount ->
  Lib.iadd a b = Ok (Asset (amount a + amount b) (sym a)).
Proof.
  intros Hs Hr. unfold Lib.iadd, besio_assert. rewrite Hs, Z.eqb_refl, i64_small by (unfold max_amount in *; lia).
  by rewrite !(proj2 (Z.leb_le _ _)) by lia.
Qed.
Lemma isub_run a b : sym b = sym a -> - max_amount <= amount a - amount b <= max_amount ->
  Lib.isub a b = Ok (Asset (amount a - amount b) (sym a)).
Proof.
  intros Hs Hr. unfold Lib.isub, besio_assert. rewrite Hs, Z.eqb_refl, i64_small by (unfold max_amount in *; lia).
  by rewrite !(proj2 (Z.leb_le _ _)) by lia.
Qed.

(** Adding what the balances lack. *)
Lemma add_balance_run n q db owner value p s :
  ledger n q db -> 0 < q -> amount value = q -> Lib.name (sym value) = n ->
  stats db !! n = Some s -> sym value = sym (supply (obj s)) ->
  exists r, add_balance owner value p db = (put_balance owner n r db, Ok tt) /\
    amount (obj r) = balance db owner n + q /\ ledger n 0 (put_balance owner n r db).
Proof.
  intros HL Hq Ha <- Hs Hsym. pose proof (balance_range _ _ _ owner (Lib.name (sym value)) HL) as Hb.
  pose proof (supply_le _ _ _ _ _ HL Hs) as Hm. rewrite Z.eqb_refl in Hm.
  assert (Hput : forall r, amount (obj r) = balance db owner (Lib.name (sym value)) + q -> sym (obj r) = sym value ->
    ledger (Lib.name (sym value)) 0 (put_balance owner (Lib.name (sym value)) r db)).
  { intros r Hr Hrs. replace 0 with (q - (amount (obj r) - balance db owner (Lib.name (sym value)))) by lia.
    apply (ledger_put _ _ _ _ _ s); [done|done|lia|congruence]. }
  unfold add_balance. run_st. destruct (accounts db !! _) as [r|] eqn:Hr.
  - destruct (lg_balances _ _ _ HL _ _ _ Hr) as (Hpos & s' & Hs' & Hrs).
    assert (Hbal : balance db owner (Lib.name (sym value)) = amount (obj r)) by (unfold balance; by rewrite Hr).
    rewrite iadd_run by (congruence || lia). eexists. split; [reflexivity|]. cbn [obj amount].
    split; [lia|]. apply Hput; cbn; [lia|congruence].
  - assert (Hbal : balance db owner (Lib.name (sym value)) = 0) by (unfold balance; by rewrite Hr).
    eexists. split; [reflexivity|]. cbn [obj amount]. split; [lia|]. apply Hput; cbn; [lia|done].
Qed.

(** Taking from a balance. *)
Lemma sub_balance_run n db owner value s :
  ledger n 0 db -> 0 < amount value -> Lib.name (sym value) = n ->
  stats db !! n = Some s -> sym value = sym (supply (obj s)) ->
  if amount value <=? balance db owner n then
    exists db', sub_balance owner value db = (db', Ok tt) /\ ledger n (amount value) db' /\
      stats db' = stats db /\ inline_actions db' = inline_actions db /\ recipients db' = recipients db /\
      forall o m, balance db' o m = balance db o m - (if bool_decide ((o, m) = (owner, n)) then amount value else 0)
  else sub_balance owner value db = (db, Throw besio_assert_message_exception).
Proof.
  intros HL Hq <- Hs Hsym. pose proof (balance_range _ _ _ owner (Lib.name (sym value)) HL) as Hb.
  pose proof (supply_le _ _ _ _ _ HL Hs) as Hm. rewrite Z.eqb_refl in Hm.
  unfold sub_balance, check, besio_assert. run_st.
  destruct (accounts db !! (owner, Lib.name (sym value))) as [r|] eqn:Hr;
    [assert (Hbal : balance db owner (Lib.name (sym value)) = amount (obj r)) by (unfold balance; by rewrite Hr)
    |assert (Hbal : balance db owner (Lib.name (sym value)) = 0) by (unfold balance; by rewrite Hr)].
  2: { rewrite Hbal. by replace (amount value <=? 0) with false by lia. }
  destruct (lg_balances _ _ _ HL _ _ _ Hr) as (Hpos & s' & Hs' & Hrs). rewrite Hbal.
  destruct (amount value <=? amount (obj r)) eqn:Hle; [|done]. bool_to_prop.
  destruct (Z.eqb_spec (amount (obj r)) (amount value)) as [E|E].
  - exists (drop_balance owner (Lib.name (sym value)) db). split_and!; try done.
    + replace (amount value) with (0 + balance db owner (Lib.name (sym value))) by lia. by apply ledger_drop.
    + intros o m. rewrite balance_drop. case_bool_decide as Eo; [injection Eo as -> ->|]; lia.
  - rewrite isub_run by (congruence || unfold max_amount in *; lia).
    eexists (put_balance owner (Lib.name (sym value)) (Row owner (Asset (amount (obj r) - amount value) (sym (obj r)))) db).
    split_and!; try done.
    + pose proof (ledger_put _ _ _ owner (Row owner (Asset (amount (obj r) - amount value) (sym (obj r)))) s HL Hs) as HP.
      cbn [obj amount sym] in HP. rewrite Hbal in HP.
      replace (0 - (amount (obj r) - amount value - amount (obj r))) with (amount value) in HP by lia.
      apply HP; [lia|congruence].
    + intros o m. rewrite balance_put. cbn. case_bool_decide as Eo; [injection Eo as -> ->|]; lia.
Qed.

Lemma ledger_same n d db db' : accounts db' = accounts db -> stats db' = stats db -> ledger n d db -> ledger n d db'.
Proof.
  intros Ea Es [H1 H2 H3]. split; unfold total; rewrite ?Ea, ?Es; [done|done|].
  intros m r Hr. by apply H3.
Qed.

Section actions.
Context (self : account_name) (authorized : list account_name) (is_account : account_name -> bool).

(** What [transfer] requires. *)
Definition transfer_allowed (db : token_db) (from to : account_name) (q : asset) (memo : list ascii) : Prop :=
  from <> to /\ from ∈ authorized /\ is_account to = true /\ Lib.is_valid q = true /\ 0 < amount q /\
  (exists r, stats db !! Lib.name (sym q) = Some r /\ sym q = sym (supply (obj r))) /\
  Z.of_nat (length memo) <= 256 /\ amount q <= balance db from (Lib.name (sym q)).

(** The state after the notifications of [transfer]. *)
Definition notified (from to : account_name) (db : token_db) : token_db :=
  TokenDb (accounts db) (stats db) ((recipients db ++ [from]) ++ [to]) (inline_actions db).

Lemma transfer_run db from to q memo : token_ok db -> transfer_allowed db from to q memo ->
  exists db', transfer authorized is_account from to q memo db = (db', Ok tt) /\ token_ok db' /\
    stats db' = stats db /\ inline_actions db' = inline_actions db /\ recipients db' = recipients db ++ [from; to] /\
    forall o m, balance db' o m = balance db o m
      - (if bool_decide ((o, m) = (from, Lib.name (sym q))) then amount q else 0)
      + (if bool_decide ((o, m) = (to, Lib.name (sym q))) then amount q else 0).
Proof.
  intros HL (Hne & Hauth & Hacc & Hv & Hq & (r & Hr & Hs) & Hmemo & Hb).
  assert (HL' : ledger (Lib.name (sym q)) 0 (notified from to db)).
  { apply (ledger_same _ _ db); [done|done|]. by apply (ledger_any 0). }
  pose proof (sub_balance_run _ _ from q r HL' Hq eq_refl Hr Hs) as Hsub.
  change (balance (notified from to db)) with (balance db) in Hsub. rewrite (proj2 (Z.leb_le _ _) Hb) in Hsub.
  destruct Hsub as (db1 & Hsub & HL1 & Es & Ei & Er & Hb1).
  assert (Hr1 : stats db1 !! Lib.name (sym q) = Some r) by (by rewrite Es).
  destruct (add_balance_run _ _ db1 to q from r HL1 Hq eq_refl eq_refl Hr1 Hs) as (row & Hadd & Hrow & HL2).
  exists (put_balance to (Lib.name (sym q)) row db1). split.
  - unfold transfer, check, require_auth, besio_assert, require_recipient.
    replace (negb (from =? to)) with true by lia. rewrite bool_decide_eq_true_2, Hacc by done. run_st. rewrite Hr. run_st.
    rewrite Hv, (proj2 (Z.ltb_lt _ _) Hq), Hs, Z.eqb_refl, (proj2 (Z.leb_le _ _) Hmemo).
    change (TokenDb _ _ _ _) with (notified from to db). rewrite Hsub. run_st. rewrite Hadd, Hs. done.
  - split; [by apply (ledger_any (Lib.name (sym q)))|]. cbn. rewrite Es, Ei, Er. cbn. rewrite <- app_assoc.
    split_and!; [done..|]. intros o m. rewrite balance_put, Hrow, !Hb1.
    repeat case_bool_decide; simplify_eq; lia.
Qed.

Lemma wp_const {A} (m : M A) (P : Prop) db : P -> wp m (fun _ _ => P) db.
Proof. intros HP. unfold wp. by destruct (m db) as [? []]. Qed.

Lemma transfer_only db from to q memo : token_ok db ->
  wp (transfer authorized is_account from to q memo) (fun _ _ => transfer_allowed db from to q memo) db.
Proof.
  intros HL. unfold transfer, check, require_auth, besio_assert, require_recipient. do 10 wp_step. bool_to_prop.
  do 13 wp_step. bool_to_prop. rename a into st.
  match goal with E : of_option _ _ = Ok st |- _ => apply of_option_ok in E; rename E into Hr end.
  match goal with |- wp _ _ ?s => change s with (notified from to db) end.
  assert (HL' : ledger (Lib.name (sym q)) 0 (notified from to db)).
  { apply (ledger_same _ _ db); [done|done|]. by apply (ledger_any 0). }
  pose proof (sub_balance_run _ _ from q st HL' ltac:(lia) eq_refl Hr ltac:(lia)) as Hsub.
  change (balance (notified from to db)) with (balance db) in Hsub.
  destruct (amount q <=? _) eqn:Hle; bool_to_prop.
  - destruct Hsub as (db1 & Hsub & _). unfold wp at 1. rewrite Hsub. apply wp_const.
    split_and!; try done. by exists st.
  - unfold wp. by rewrite Hsub.
Qed.

(** Raising the supply, the balances lack what was added. *)
Lemma ledger_issue n db r q rs ia : ledger n 0 db -> stats db !! n = Some r -> 0 < q ->
  amount (supply (obj r)) + q <= amount (max_supply (obj r)) ->
  ledger n q (TokenDb (accounts db) (<[n := Row (payer r) (CurrencyStats
    (Asset (amount (supply (obj r)) + q) (sym (supply (obj r)))) (max_supply (obj r)) (issuer (obj r)))]> (stats db))
    rs ia).
Proof.
  intros HL Hr Hq Hmax. destruct (lg_stats _ _ _ HL n r Hr) as (S1 & S2 & S3 & S4). split; cbn [accounts stats].
  - intros m s [[<- <-]|[_ Hs]]%lookup_insert_Some; [cbn; split_and!; (done || lia)|]. by apply (lg_stats _ _ _ HL).
  - intros o m b Hb. destruct (lg_balances _ _ _ HL _ _ _ Hb) as (Hp & s & Hs & Hsym). split; [done|].
    destruct (decide (m = n)) as [->|]; [eexists; rewrite lookup_insert_eq; split; [done|]|].
    + cbn. congruence.
    + exists s. by rewrite lookup_insert_ne.
  - intros m s [[<- <-]|[Hne Hs]]%lookup_insert_Some; cbn.
    + rewrite Z.eqb_refl. pose proof (lg_total _ _ _ HL n r Hr) as Ht. rewrite Z.eqb_refl in Ht.
      unfold total in *. cbn. lia.
    + pose proof (lg_total _ _ _ HL m s Hs) as Ht. replace (m =? n) with false in * by lia. done.
Qed.

(** Issuing adds to the balance of the issuer, who passes it on. *)
Lemma issue_effect db to q memo : token_ok db ->
  wp (issue authorized to q memo) (fun _ db' => token_ok db' /\ exists i, i ∈ authorized /\ 0 < amount q /\
    (forall o n, balance db' o n = balance db o n + (if bool_decide ((o, n) = (i, Lib.name (sym q))) then amount q else 0)) /\
    inline_actions db' = inline_actions db ++ (if to =? i then [] else [TransferArgs i to q memo])) db.
Proof.
  intros HL. unfold issue, check, require_auth, set_stats, send_inline. do 20 wp_step. bool_to_prop.
  match goal with E : of_option _ _ = Ok a |- _ => apply of_option_ok in E; rename E into Hr end.
  match goal with E : Lib.iadd _ _ = _ |- _ => rename E into Hadd end.
  set (n := Lib.name (sym q)) in *. assert (HLn : ledger n 0 db) by (by apply (ledger_any 0)).
  destruct (lg_stats _ _ _ HLn n a Hr) as (S1 & S2 & S3 & S4).
  assert (Hcap : amount q <= amount (max_supply (obj a)) - amount (supply (obj a)))
    by (rewrite i64_small in H6; unfold max_amount in S4; lia).
  rewrite iadd_run in Hadd by (congruence || unfold max_amount in *; lia). injection Hadd as <-.
  do 3 wp_step. match goal with |- wp _ _ ?s => set (db1 := s) end.
  assert (HL1 : ledger n (amount q) db1) by (apply ledger_issue; (done || lia)).
  assert (Hs1 : exists s, stats db1 !! n = Some s /\ sym q = sym (supply (obj s))).
  { eexists. split; [apply lookup_insert_eq|done]. }
  destruct Hs1 as (s & Hs & Hsym).
  destruct (add_balance_run n (amount q) db1 (issuer (obj a)) q (issuer (obj a)) s) as (r & Hrun & Hamt & HL2); try done.
  unfold wp at 1. rewrite Hrun. cbv beta iota. apply (ledger_any n 0) in HL2.
  assert (Hbal : forall o m, balance (put_balance (issuer (obj a)) n r db1) o m =
    balance db o m + (if bool_decide ((o, m) = (issuer (obj a), n)) then amount q else 0)).
  { intros o m. rewrite balance_put. change (balance db1) with (balance db) in *. case_bool_decide as Eo; [injection Eo as -> ->; lia|lia]. }
  wp_step; wp_step.
  - split; [done|]. exists (issuer (obj a)). by rewrite E, app_nil_r.
  - split; [by apply (ledger_same _ _ (put_balance (issuer (obj a)) n r db1))|]. exists (issuer (obj a)). by rewrite E.
Qed.
Lemma issue_ok db to q memo : token_ok db -> wp (issue authorized to q memo) (fun _ db' => token_ok db') db.
Proof. intros HL. eapply wp_mono; [by apply issue_effect|]. by intros ? ? [? _]. Qed.

Lemma create_ok db i m : token_ok db -> wp (create self authorized i m) (fun _ db' => token_ok db') db.
Proof.
  intros HL. unfold create, check, require_auth, set_stats. do 13 wp_step. bool_to_prop.
  unfold Lib.is_valid, is_amount_within_range in *. bool_to_prop.
  match goal with E : stats db !! _ = None |- _ => rename E into Hnew end.
  split; cbn [accounts stats].
  - intros n s [[<- <-]|[_ Hs]]%lookup_insert_Some; [cbn; split_and!; (done || lia)|]. by apply (lg_stats _ _ _ HL).
  - intros o n b Hb. destruct (lg_balances _ _ _ HL _ _ _ Hb) as (Hp & s & Hs & Hsym). split; [done|].
    exists s. rewrite lookup_insert_ne; [done|congruence].
  - intros n s [[<- <-]|[_ Hs]]%lookup_insert_Some; cbn; [|by apply (lg_total _ _ _ HL)].
    unfold total. cbn. rewrite map_sum_zero; [by destruct (_ =? 0)|]. intros [o k] r Hr.
    unfold amount_in. cbn. destruct (Z.eqb_spec k (Lib.name (sym m))) as [->|]; [|done].
    destruct (lg_balances _ _ _ HL _ _ _ Hr) as (_ & s & Hs & _). congruence.
Qed.
End actions.

(** ** Reachable states

    From empty tables, by any actions of anyone; the node consumes the notifications and
    inline actions, and executes the latter as actions. *)
Inductive token_reachable (self : account_name) : token_db -> Prop :=
| tr_empty : token_reachable self (TokenDb ∅ ∅ [] [])
| tr_action code authorized is_account act db db' :
    token_reachable self db -> apply self code authorized is_account act db = (db', Ok tt) ->
    token_reachable self db'
| tr_consumed db rs ia : token_reachable self db -> token_reachable self (TokenDb (accounts db) (stats db) rs ia).

Lemma apply_ok receiver code authorized is_account act db :
  token_ok db -> wp (apply receiver code authorized is_account act) (fun _ db' => token_ok db') db.
Proof.
  intros HL. unfold apply. wp_step; [by wp_step|]. destruct act as [i m|to q memo|[from to q memo]].
  - by apply create_ok.
  - by apply issue_ok.
  - apply wp_run. intros db' [] Hrun. cbn in Hrun.
    pose proof (wp_ok _ _ _ _ _ (transfer_only authorized is_account db from to q memo HL) Hrun) as Hal.
    destruct (transfer_run _ _ _ _ _ _ _ HL Hal) as (db1 & Hrun' & Hok & _). congruence.
Qed.

Lemma token_inv self db : token_reachable self db -> token_ok db.
Proof.
  induction 1 as [|code authorized is_account act db db' _ IH Hrun|db rs ia _ IH].
  - split; cbn; [intros m r Hr; by rewrite lookup_empty in Hr|intros o m r Hr; by rewrite lookup_empty in Hr|].
    intros m r Hr. by rewrite lookup_empty in Hr.
  - exact (wp_ok _ _ _ _ _ (apply_ok self code authorized is_account act db IH) Hrun).
  - by apply (ledger_same _ _ db).
Qed.

(** C34 Whatever actions are applied, for every token the balances of all accounts add up to
    its supply exactly, the supply is between zero and the maximum it was created with,
    and every stored balance is positive and of the token's own symbol. *)
Theorem token_supply_is_sum (self : account_name) (db : token_db) (n : Z) (r : row currency_stats) :
  token_reachable self db -> stats db !! n = Some r ->
  total n db = amount (supply (obj r)) /\
  0 <= amount (supply (obj r)) <= amount (max_supply (obj r)) /\ amount (max_supply (obj r)) <= max_amount /\
  (forall o b, accounts db !! (o, n) = Some b -> 0 < amount (obj b) /\ sym (obj b) = sym (supply (obj r))).
Proof.
  intros HL%token_inv Hr. destruct (lg_stats _ _ _ HL n r Hr) as (_ & _ & S3 & S4).
  pose proof (lg_total _ _ _ HL n r Hr) as Ht. split_and!; [destruct (n =? 0); lia|lia|lia|lia|].
  intros o b Hb. destruct (lg_balances _ _ _ HL _ _ _ Hb) as (Hp & s & Hs & Hsym). split; [done|congruence].
Qed.

(** C35 In every reachable state [transfer] succeeds exactly when it is authorized by the sender,
    the receiver is another existing account, the quantity is valid, positive, of the
    token's symbol and covered by the sender's balance, and the memo is short: no
    overflow can refuse it. It then moves exactly the quantity, changes no other
    balance and no statistics, and notifies the two accounts. *)
Theorem transfer_exact (self : account_name) (db : token_db) (authorized : list account_name) (is_account : account_name -> bool)
    (from to : account_name) (q : asset) (memo : list ascii) :
  token_reachable self db ->
  (transfer_allowed authorized is_account db from to q memo <->
   exists db', transfer authorized is_account from to q memo db = (db', Ok tt)) /\
  forall db', transfer authorized is_account from to q memo db = (db', Ok tt) ->
    stats db' = stats db /\ recipients db' = recipients db ++ [from; to] /\
    forall o m, balance db' o m = balance db o m
      - (if bool_decide ((o, m) = (from, Lib.name (sym q))) then amount q else 0)
      + (if bool_decide ((o, m) = (to, Lib.name (sym q))) then amount q else 0).
Proof.
  intros HL%token_inv.
  assert (Honly : forall db', transfer authorized is_account from to q memo db = (db', Ok tt) ->
    transfer_allowed authorized is_account db from to q memo).
  { intros db' Hrun. exact (wp_ok _ _ _ _ _ (transfer_only authorized is_account db from to q memo HL) Hrun). }
  split; [split|].
  - intros Hal. destruct (transfer_run _ _ _ _ _ _ _ HL Hal) as (db' & Hrun & _). by exists db'.
  - intros (db' & Hrun). by eapply Honly.
  - intros db' Hrun. destruct (transfer_run _ _ _ _ _ _ _ HL (Honly _ Hrun)) as (db1 & Hrun' & _ & E1 & _ & E2 & E3).
    rewrite Hrun in Hrun'. by injection Hrun' as <-.
Qed.

(** ** Examples: a token is created, issued and transferred *)
Module TokenSample.
Definition self : Z := Eval vm_compute in Names.N "besio.token".
Definition alice : Z := Eval vm_compute in Names.N "alice".
Definition bob : Z := Eval vm_compute in Names.N "bob".
Definition any_account (_ : account_name) : bool := true.
Definition coins (a : Z) : asset := Asset a AssetSample.bes.

Definition created : token_db := Eval vm_compute in
  (apply self self [self] any_account (Create alice (coins 1000)) (TokenDb ∅ ∅ [] [])).1.
Definition issued : token_db := Eval vm_compute in
  (apply self self [alice] any_account (Issue alice (coins 500) []) created).1.

Lemma issued_reachable : token_reachable self issued.
Proof.
  apply (tr_action self self [alice] any_account (Issue alice (coins 500) []) created); [|by vm_compute].
  apply (tr_action self self [self] any_account (Create alice (coins 1000)) (TokenDb ∅ ∅ [] [])); [|by vm_compute].
  apply tr_empty.
Qed.
End TokenSample.
Import TokenSample.

Lemma token_supply_is_sum_witness : total (Lib.name AssetSample.bes) issued = 500.
Proof.
  destruct (token_supply_is_sum TokenSample.self issued (Lib.name AssetSample.bes)
    (Row TokenSample.self (CurrencyStats (coins 500) (coins 1000) alice))) as [Ht _].
  - exact issued_reachable.
  - vm_compute. reflexivity.
  - exact Ht.
Defined.

Lemma transfer_exact_witness :
  exists db', transfer [alice] any_account alice bob (coins 20) [] issued = (db', Ok tt) /\
    balance db' bob (Lib.name AssetSample.bes) = 20.
Proof.
  destruct (transfer_exact TokenSample.self issued [alice] any_account alice bob (coins 20) []) as [Hiff Heff].
  - exact issued_reachable.
  - destruct (proj1 Hiff) as (db' & Hrun).
    + split_and!; try (by vm_compute); [by left|]. eexists. split; [vm_compute; reflexivity|by vm_compute].
    + exists db'. split; [exact Hrun|]. destruct (Heff db' Hrun) as (_ & _ & Hb). rewrite Hb. by vm_compute.
Defined.
