(* ===== verification/Multisig.v ===== *)
(** * The multi-signature contract

    Model of [contracts/besio.msig]: proposing a transaction, approving it, withdrawing an
    approval, cancelling and executing, with the streams of [contracts/besiolib] it reads
    and the call [check_transaction_authorization] of [chain/wasm_interface.cpp] it relies
    on. What it executes was proposed, and is authorized by approvals that stand. *)
From S2P Require Import Prelude Merkle BlockHeaderState Names Raw Authority Transactions AuthorizationManager ResourceLimits.
From S2P Require Import NativeContract Controller.

(** ** Streams of contracts *)
Definition ds_read (n : nat) : St bytes bytes := fun s =>
  if (n <=? length s)%nat then (drop n s, Ok (take n s)) else (s, Throw besio_assert_message_exception).
Definition ds_uint (n : nat) : St bytes Z := d ← ds_read n; mret (le_value d).

(** The loop has no bound; a shift by 32 or more is not defined. *)
Fixpoint ds_varint_loop (s : bytes) (v by_ : Z) : bytes * result Z :=
  match s with
  | [] => ([], Throw besio_assert_message_exception)
  | b :: s =>
      if 32 <=? by_ then (s, Throw undefined_behaviour) else
      let v := Z.lor v (u32 (Z.shiftl (Z.land b 127) by_)) in
      if negb (Z.land b 128 =? 0) then ds_varint_loop s v (by_ + 7) else (s, Ok (u32 v))
  end.
Definition ds_varint : St bytes Z := fun s => ds_varint_loop s 0 0.

Definition ds_level : St bytes permission_level :=
  a ← ds_uint 8; p ← ds_uint 8; mret (PermissionLevel a p).
Fixpoint ds_times {A} (m : St bytes A) (n : nat) : St bytes (list A) :=
  match n with
  | O => mret []
  | S n => x ← m; l ← ds_times m n; mret (x :: l)
  end.
Definition ds_levels : St bytes (list permission_level) := n ← ds_varint; ds_times ds_level (Z.to_nat n).
Definition ds_header : St bytes transaction_header :=
  e ← ds_uint 4; n ← ds_uint 2; p ← ds_uint 4; w ← ds_varint; m ← ds_uint 1; d ← ds_varint;
  mret (TransactionHeader e n p w m d).

(** ** check_transaction_authorization *)
Definition authorization_exception (e : exn) : bool :=
  match e with
  | tx_duplicate_sig | tx_irrelevant_sig | unsatisfied_authorization | missing_auth_exception
  | irrelevant_auth_exception | invalid_permission | unlinkable_min_permission_action => true
  | _ => false
  end.
(** Without keys. The deadline of the transaction is left out. *)
Definition check_transaction_authorization `{MetaSet} (db : auth_db) (trx_data : bytes) (perms : list permission_level)
    : result bool :=
  trx ← unpack_value c_transaction trx_data;
  _ ← bes_assert (Z.of_nat (length perms) <=? MAX_NUM_ARRAY_ELEMENTS) assert_exception;
  match check_authorization db (trx_actions trx) [] (remove_dups perms) (seconds (delay_sec (trx_header trx))) false with
  | Ok _ => mret true
  | Throw e => if authorization_exception e then mret false else Throw e
  end.

(** ** State *)
Record proposal := Proposal { prop_payer : account_name; packed_transaction : bytes }.
Record approvals_info := ApprovalsInfo {
  app_payer : account_name;
  requested_approvals : list permission_level;
  provided_approvals : list permission_level
}.
Record deferred := Deferred { df_sender_id : Z; df_payer : account_name; df_data : bytes }.

(** Both tables by proposer and name of the proposal, and what was sent. *)
Abbreviation key := (Z * Z)%type.
Record msig_db := MsigDb {
  proposals : gmap key proposal;
  approvals : gmap key approvals_info;
  sent : list deferred
}.
Abbreviation M := (St msig_db).
Definition set_proposals (m : gmap key proposal) : M unit := modify_st (fun db => MsigDb m (approvals db) (sent db)).
Definition set_approvals (m : gmap key approvals_info) : M unit := modify_st (fun db => MsigDb (proposals db) m (sent db)).
Definition send_deferred (d : deferred) : M unit := modify_st (fun db => MsigDb (proposals db) (approvals db) (sent db ++ [d])).

(** What an action runs in: its authorizations, the time and the permissions. *)
Record call_env := CallEnv { ce_auths : list permission_level; ce_now : Z; ce_db : auth_db }.

(** ** The contract *)
Section contract.
Context `{MetaSet} (env : call_env).

Definition check (b : bool) : M unit := st_assert b besio_assert_message_exception.
Definition require_auth (a : account_name) : M unit :=
  st_assert (existsb (fun l => actor l =? a) (ce_auths env)) missing_auth_exception.
Definition require_auth_level (l : permission_level) : M unit :=
  st_assert (bool_decide (l ∈ ce_auths env)) missing_auth_exception.
Definition find_in {A} (m : gmap key A) (k : key) : M A := lift (of_option besio_assert_message_exception (m !! k)).

(** The proposer, the name, the requested approvals, and the rest, which is the transaction. *)
Definition parse_propose (data : bytes) : bytes * result (account_name * Z * list permission_level) :=
  (p ← ds_uint 8; n ← ds_uint 8; r ← ds_levels; mret (p, n, r)) data.
Definition propose (data : bytes) : M unit :=
  let '(trx, r) := parse_propose data in
  '(proposer, proposal_name, requested) ← lift r;
  header ← lift (ds_header trx).2;
  _ ← require_auth proposer;
  _ ← check (ce_now env <=? expiration header);
  db ← get;
  _ ← check (bool_decide (proposals db !! (proposer, proposal_name) = None));
  res ← lift (check_transaction_authorization (ce_db env) trx requested);
  _ ← check res;
  _ ← set_proposals (<[(proposer, proposal_name) := Proposal proposer trx]> (proposals db));
  _ ← st_assert (bool_decide (approvals db !! (proposer, proposal_name) = None)) logic_error;
  set_approvals (<[(proposer, proposal_name) := ApprovalsInfo proposer requested []]> (approvals db)).

(** [std::find] and [erase]. *)
Fixpoint erase (l : permission_level) (ls : list permission_level) : option (list permission_level) :=
  match ls with
  | [] => None
  | x :: ls => if decide (x = l) then Some ls else cons x <$> erase l ls
  end.

Definition approve (proposer : account_name) (proposal_name : Z) (level : permission_level) : M unit :=
  _ ← require_auth_level level;
  db ← get;
  apps ← find_in (approvals db) (proposer, proposal_name);
  requested ← lift (of_option besio_assert_message_exception (erase level (requested_approvals apps)));
  set_approvals (<[(proposer, proposal_name) :=
    ApprovalsInfo proposer requested (provided_approvals apps ++ [level])]> (approvals db)).

Definition unapprove (proposer : account_name) (proposal_name : Z) (level : permission_level) : M unit :=
  _ ← require_auth_level level;
  db ← get;
  apps ← find_in (approvals db) (proposer, proposal_name);
  provided ← lift (of_option besio_assert_message_exception (erase level (provided_approvals apps)));
  set_approvals (<[(proposer, proposal_name) :=
    ApprovalsInfo proposer (requested_approvals apps ++ [level]) provided]> (approvals db)).

Definition cancel (proposer : account_name) (proposal_name : Z) (canceler : account_name) : M unit :=
  _ ← require_auth canceler;
  db ← get;
  prop ← find_in (proposals db) (proposer, proposal_name);
  _ ← (if negb (canceler =? proposer) then
         header ← lift (ds_header (packed_transaction prop)).2;
         check (expiration header <? ce_now env)
       else mret tt);
  _ ← find_in (approvals db) (proposer, proposal_name);
  _ ← set_proposals (delete (proposer, proposal_name) (proposals db));
  set_approvals (delete (proposer, proposal_name) (approvals db)).

Definition exec (proposer : account_name) (proposal_name : Z) (executer : account_name) : M unit :=
  _ ← require_auth executer;
  db ← get;
  prop ← find_in (proposals db) (proposer, proposal_name);
  apps ← find_in (approvals db) (proposer, proposal_name);
  header ← lift (ds_header (packed_transaction prop)).2;
  _ ← check (ce_now env <=? expiration header);
  res ← lift (check_transaction_authorization (ce_db env) (packed_transaction prop) (provided_approvals apps));
  _ ← check res;
  _ ← send_deferred (Deferred (Z.lor (Z.shiftl proposer 64) proposal_name) executer (packed_transaction prop));
  _ ← set_proposals (delete (proposer, proposal_name) (proposals db));
  set_approvals (delete (proposer, proposal_name) (approvals db)).
End contract.

Inductive call :=
| Propose (data : bytes)
| Approve (proposer : account_name) (proposal_name : Z) (level : permission_level)
| Unapprove (proposer : account_name) (proposal_name : Z) (level : permission_level)
| Cancel (proposer : account_name) (proposal_name : Z) (canceler : account_name)
| Exec (proposer : account_name) (proposal_name : Z) (executer : account_name).
Definition run_action `{MetaSet} (env : call_env) (k : call) : M unit :=
  match k with
  | Propose d => propose env d
  | Approve p n l => approve env p n l
  | Unapprove p n l => unapprove env p n l
  | Cancel p n c => cancel env p n c
  | Exec p n e => exec env p n e
  end.

(** ** Histories

    The actions that succeeded, the latest first, each in its environment. *)
Abbreviation event := (call * call_env)%type.
Inductive history `{MetaSet} : list event -> msig_db -> Prop :=
| history_start : history [] (MsigDb ∅ ∅ [])
| history_next t db k env db' :
    history t db -> run_action env k db = (db', Ok tt) -> history ((k, env) :: t) db'.

(** The key and the transaction that an action proposes. *)
Definition proposed (k : call) : option (key * bytes) :=
  match k with
  | Propose d => match parse_propose d with (trx, Ok (p, n, _)) => Some ((p, n), trx) | _ => None end
  | _ => None
  end.
Definition closes (x : key) (k : call) : bool :=
  match k with
  | Cancel p n _ | Exec p n _ => bool_decide ((p, n) = x)
  | _ => false
  end.
(** The transaction that stands proposed under a key. *)
Fixpoint standing (x : key) (t : list event) : option bytes :=
  match t with
  | [] => None
  | (k, _) :: t =>
      match proposed k with
      | Some (y, trx) => if decide (y = x) then Some trx else standing x t
      | None => if closes x k then None else standing x t
      end
  end.
(** How often a permission approved since the proposal was made, by actions that carry it,
    less how often it withdrew. *)
Definition weighs (x : key) (l : permission_level) (ev : event) : Z :=
  match ev with
  | (Approve p n m, env) => if decide ((p, n) = x /\ m = l /\ l ∈ ce_auths env) then 1 else 0
  | (Unapprove p n m, env) => if decide ((p, n) = x /\ m = l /\ l ∈ ce_auths env) then -1 else 0
  | _ => 0
  end.
Fixpoint net_approvals (x : key) (l : permission_level) (t : list event) : Z :=
  match t with
  | [] => 0
  | (k, env) :: t =>
      match proposed k with
      | Some (y, _) => if decide (y = x) then 0 else net_approvals x l t
      | None => weighs x l (k, env) + net_approvals x l t
      end
  end.

(** ** The tables against the history *)
Definition occurs (l : permission_level) (ls : list permission_level) : Z := Z.of_nat (length (filter (fun m => m = l) ls)).
Record agrees (t : list event) (db : msig_db) : Prop := {
  ag_proposals : forall x, packed_transaction <$> proposals db !! x = standing x t;
  ag_approvals : forall x, is_Some (approvals db !! x) <-> is_Some (proposals db !! x);
  ag_provided : forall x apps l, approvals db !! x = Some apps -> occurs l (provided_approvals apps) = net_approvals x l t
}.

Lemma occurs_app l ls ms : occurs l (ls ++ ms) = occurs l ls + occurs l ms.
Proof. unfold occurs. rewrite filter_app, length_app. lia. Qed.
Lemma occurs_one l m : occurs l [m] = if decide (m = l) then 1 else 0.
Proof. unfold occurs. rewrite filter_cons. by destruct (decide (m = l)). Qed.
Lemma occurs_erase l m ls ls' : erase m ls = Some ls' -> occurs l ls' = occurs l ls - (if decide (m = l) then 1 else 0).
Proof.
  revert ls'. induction ls as [|x ls IH]; intros ls'; [done|]. cbn [erase]. change (x :: ls) with ([x] ++ ls).
  rewrite occurs_app, occurs_one. destruct (decide (x = m)) as [->|Hne].
  - intros [= <-]. lia.
  - intros (ls1 & Hls & ->)%fmap_Some. change (x :: ls1) with ([x] ++ ls1). rewrite occurs_app, occurs_one, (IH _ Hls). lia.
Qed.
Lemma occurs_pos l ls : l ∈ ls -> 0 < occurs l ls.
Proof.
  intros Hl. unfold occurs. assert (l ∈ filter (fun m => m = l) ls) as Hf by (by apply list_elem_of_filter).
  destruct (filter _ ls); [by apply elem_of_nil in Hf|cbn; lia].
Qed.

Section agreement.
Context `{MetaSet} (env : call_env).

Lemma propose_agrees t db d : agrees t db -> wp (propose env d) (fun _ db' => agrees ((Propose d, env) :: t) db') db.
Proof.
  intros [A1 A2 A3]. unfold propose. destruct (parse_propose d) as [trx r] eqn:Ep. apply wp_bind, wp_lift.
  intros [[p n] req] ->. unfold require_auth, check, set_proposals, set_approvals. do 8 wp_step.
  apply wp_bind, wp_assert. intros Hn%bool_decide_eq_true. do 6 wp_step. apply wp_bind, wp_assert. intros Ha%bool_decide_eq_true.
  wp_step. assert (Hp : proposed (Propose d) = Some ((p, n), trx)) by (unfold proposed; by rewrite Ep).
  split; cbn [standing net_approvals proposals approvals]; rewrite ?Hp.
  - intros x. destruct (decide ((p, n) = x)) as [<-|Hne]; [by rewrite lookup_insert_eq|by rewrite lookup_insert_ne].
  - intros x. destruct (decide ((p, n) = x)) as [<-|Hne].
    + rewrite !lookup_insert_eq. split; by eexists.
    + by rewrite !lookup_insert_ne.
  - intros x apps l. rewrite lookup_insert_Some. intros [[<- <-]|[Hne Hx]]; [by rewrite decide_True|].
    rewrite decide_False by done. by apply A3.
Qed.

(** An approval or its withdrawal. *)
Lemma move_agrees t db k p n m apps apps' :
  agrees t db -> m ∈ ce_auths env -> k = Approve p n m \/ k = Unapprove p n m -> approvals db !! (p, n) = Some apps ->
  (forall l, occurs l (provided_approvals apps') = weighs (p, n) l (k, env) + occurs l (provided_approvals apps)) ->
  agrees ((k, env) :: t) (MsigDb (proposals db) (<[(p, n) := apps']> (approvals db)) (sent db)).
Proof.
  intros [A1 A2 A3] Hm Hk Ha Ho. assert (proposed k = None) as Hp by (by destruct Hk as [->| ->]).
  assert (forall x, closes x k = false) as Hc by (by destruct Hk as [->| ->]).
  split; cbn [standing net_approvals proposals approvals]; rewrite ?Hp.
  - intros x. by rewrite Hc.
  - intros x. destruct (decide ((p, n) = x)) as [<-|Hne]; [|by rewrite lookup_insert_ne].
    rewrite lookup_insert_eq, <- A2, Ha. split; by eexists.
  - intros x a l. rewrite lookup_insert_Some. intros [[<- <-]|[Hne Hx]]; [by rewrite Ho, (A3 _ _ l Ha)|].
    rewrite (A3 _ _ l Hx). assert (weighs x l (k, env) = 0) as ->; [|lia].
    destruct Hk as [->| ->]; cbn; rewrite decide_False; [done|by intros (? & _)|done|by intros (? & _)].
Qed.
Lemma approve_agrees t db p n m : agrees t db ->
  wp (approve env p n m) (fun _ db' => agrees ((Approve p n m, env) :: t) db') db.
Proof.
  intros Ht. unfold approve, require_auth_level, find_in, set_approvals. apply wp_bind, wp_assert. intros Hm%bool_decide_eq_true.
  do 4 wp_step. apply of_option_ok in H0. do 2 wp_step. apply of_option_ok in H1. wp_step.
  eapply move_agrees; [done|done|by left|exact H0|]. intros l. cbn [provided_approvals weighs]. rewrite occurs_app, occurs_one.
  destruct (decide (m = l)) as [<-|]; [rewrite decide_True by done|rewrite decide_False by (by intros (_ & ? & _))]; lia.
Qed.
Lemma unapprove_agrees t db p n m : agrees t db ->
  wp (unapprove env p n m) (fun _ db' => agrees ((Unapprove p n m, env) :: t) db') db.
Proof.
  intros Ht. unfold unapprove, require_auth_level, find_in, set_approvals. apply wp_bind, wp_assert. intros Hm%bool_decide_eq_true.
  do 4 wp_step. apply of_option_ok in H0. do 2 wp_step. apply of_option_ok in H1. wp_step.
  eapply move_agrees; [done|done|by right|exact H0|]. intros l. cbn [provided_approvals weighs]. rewrite (occurs_erase l _ _ _ H1).
  destruct (decide (m = l)) as [<-|]; [rewrite decide_True by done|rewrite decide_False by (by intros (_ & ? & _))]; lia.
Qed.

(** A proposal is closed. *)
Lemma close_agrees t db k p n c out : agrees t db -> k = Cancel p n c \/ k = Exec p n c ->
  agrees ((k, env) :: t) (MsigDb (delete (p, n) (proposals db)) (delete (p, n) (approvals db)) out).
Proof.
  intros [A1 A2 A3] Hk. assert (proposed k = None) as Hp by (by destruct Hk as [->| ->]).
  assert (forall x, closes x k = bool_decide ((p, n) = x)) as Hc by (by destruct Hk as [->| ->]).
  assert (forall x l, weighs x l (k, env) = 0) as Hw by (by destruct Hk as [->| ->]).
  split; cbn [standing net_approvals proposals approvals]; rewrite ?Hp.
  - intros x. rewrite Hc. destruct (decide ((p, n) = x)) as [<-|Hne].
    + by rewrite lookup_delete_eq, bool_decide_true.
    + by rewrite lookup_delete_ne, bool_decide_false.
  - intros x. destruct (decide ((p, n) = x)) as [<-|Hne]; [by rewrite !lookup_delete_eq|by rewrite !lookup_delete_ne].
  - intros x a l. rewrite lookup_delete_Some, Hw. intros [Hne Hx]. rewrite (A3 _ _ l Hx). lia.
Qed.
Lemma cancel_agrees t db p n c : agrees t db -> wp (cancel env p n c) (fun _ db' => agrees ((Cancel p n c, env) :: t) db') db.
Proof.
  intros Ht. unfold cancel, require_auth, find_in, set_proposals, set_approvals, check. do 6 wp_step.
  apply wp_bind, (wp_keeps (fun db => db)); [keeps_step|]. intros [] db1 ->. do 5 wp_step.
  eapply close_agrees; [done|by left].
Qed.

(** What [exec] checked, and what it sent. *)
Lemma exec_inv db p n e db' : exec env p n e db = (db', Ok tt) -> exists prop apps,
  proposals db !! (p, n) = Some prop /\ approvals db !! (p, n) = Some apps /\
  check_transaction_authorization (ce_db env) (packed_transaction prop) (provided_approvals apps) = Ok true /\
  db' = MsigDb (delete (p, n) (proposals db)) (delete (p, n) (approvals db))
    (sent db ++ [Deferred (Z.lor (Z.shiftl p 64) n) e (packed_transaction prop)]).
Proof.
  apply (wp_ok _ (fun _ db' => exists prop apps, proposals db !! (p, n) = Some prop /\ approvals db !! (p, n) = Some apps /\
    check_transaction_authorization (ce_db env) (packed_transaction prop) (provided_approvals apps) = Ok true /\
    db' = MsigDb (delete (p, n) (proposals db)) (delete (p, n) (approvals db))
      (sent db ++ [Deferred (Z.lor (Z.shiftl p 64) n) e (packed_transaction prop)]))).
  unfold exec, require_auth, find_in, send_deferred, set_proposals, set_approvals, check. do 4 wp_step.
  apply wp_bind, wp_lift. intros prop Hp%of_option_ok. apply wp_bind, wp_lift. intros apps Ha%of_option_ok. do 4 wp_step.
  apply wp_bind, wp_lift. intros res Hres. apply wp_bind, wp_assert. intros ->. do 5 wp_step. by exists prop, apps.
Qed.
Lemma run_agrees t db k db' : agrees t db -> run_action env k db = (db', Ok tt) -> agrees ((k, env) :: t) db'.
Proof.
  intros Ht Hrun. destruct k; cbn [run_action] in Hrun.
  - exact (wp_ok _ _ _ _ _ (propose_agrees t db data Ht) Hrun).
  - exact (wp_ok _ _ _ _ _ (approve_agrees t db _ _ _ Ht) Hrun).
  - exact (wp_ok _ _ _ _ _ (unapprove_agrees t db _ _ _ Ht) Hrun).
  - exact (wp_ok _ _ _ _ _ (cancel_agrees t db _ _ _ Ht) Hrun).
  - apply exec_inv in Hrun as (prop & apps & _ & _ & _ & ->). eapply close_agrees; [done|by right].
Qed.
End agreement.

Lemma history_agrees `{MetaSet} t db : history t db -> agrees t db.
Proof.
  induction 1 as [|t db k env db' _ IH Hrun]; [|by eapply run_agrees].
  split; cbn; [by intros x; rewrite lookup_empty|by intros x; rewrite !lookup_empty|by intros x apps l; rewrite lookup_empty].
Qed.

(** ** Claims *)

(** C33 The contract executes what was proposed and approved. After any history of its
    actions, executing a proposal sends, once, the very transaction that stands proposed
    under the name, and every authorization that an action of the transaction declares
    is derivable, with the permissions as they are now, from approvals that stand: each
    was given, by actions that carried exactly that permission, more often than it was
    withdrawn since the proposal was made. An authorization of an ordinary action is
    moreover at least the permission the action is linked to. *)
Theorem executed_as_approved `{MetaSetLaws} (t : list event) (db db' : msig_db) (env : call_env) (p n e : Z) :
  history t db -> (forall i q, permissions (ce_db env) !! i = Some q -> weights_ok (po_auth q)) ->
  run_action env (Exec p n e) db = (db', Ok tt) ->
  exists data trx, standing (p, n) t = Some data /\ unpack_value c_transaction data = Ok trx /\
    sent db' = sent db ++ [Deferred (Z.lor (Z.shiftl p 64) n) e data] /\ proposals db' !! (p, n) = None /\
    exists approved, (forall l, l ∈ approved -> 0 < net_approvals (p, n) l t) /\
    forall act auth, act ∈ trx_actions trx -> auth ∈ act_authorization act ->
    exists d, level_ok (make_checker (ce_db env) [] approved d) auth /\
      (act_account act <> system_account_name ->
         d <= effective_delay (ce_db env) (seconds (delay_sec (trx_header trx))) /\ minimum_met (ce_db env) act auth).
Proof.
  intros Ht%history_agrees Hw Hrun. destruct Ht as [A1 _ A3].
  apply exec_inv in Hrun as (prop & apps & Hp & Ha & Hc & ->). unfold check_transaction_authorization in Hc.
  bind_ok Hc as (trx & Htrx & Hc). bind_ok Hc as ([] & _ & Hc).
  destruct (check_authorization _ _ _ _ _ _) as [[]|x] eqn:Ec; [|by destruct (authorization_exception x)].
  exists (packed_transaction prop), trx. split_and!; [by rewrite <- A1, Hp|done|done|apply lookup_delete_eq|].
  exists (remove_dups (provided_approvals apps)). split.
  - intros l Hl. apply (proj1 (elem_of_remove_dups _ _)) in Hl. rewrite <- (A3 _ _ l Ha). by apply occurs_pos.
  - intros act auth Hact Hauth. destruct (authorization_granted _ Hw _ _ _ _ _ Ec act auth Hact Hauth) as (d & Hd & Hs).
    exists d. split; [exact Hd|]. intros Hsys. unfold check_special in Hs. by rewrite (proj2 (Z.eqb_neq _ _) Hsys) in Hs.
Qed.

(** ** Example: the system account approves its own transaction *)
Module MsigSample.
Export ChainSample.
Definition lv : permission_level := PermissionLevel system_account_name active_name.
Definition sample_trx : transaction :=
  Transaction (TransactionHeader 100 0 0 0 0 0) [] [Action null_account_name onramusage_name [lv] []] [].
Definition packed_of {A} (c : codec A) (a : A) : bytes := match pack_value c a with Ok d => d | Throw _ => [] end.
Definition sample_data : bytes :=
  packed_of c_name system_account_name ++ packed_of c_name 7 ++ packed_of (c_vector c_permission_level) [lv]
  ++ packed_of c_transaction sample_trx.
Definition sample_call : call_env := CallEnv [lv] 5 (ch_auth genesis).
(** The latest first. *)
Definition sample_calls : list call :=
  [Approve system_account_name 7 lv; Unapprove system_account_name 7 lv; Approve system_account_name 7 lv; Propose sample_data].
Definition after (l : list call) : msig_db := foldr (fun k db => (run_action sample_call k db).1) (MsigDb ∅ ∅ []) l.
Definition sample_history : list event := map (fun k => (k, sample_call)) sample_calls.
Lemma history_step t db k : history t db -> (run_action sample_call k db).2 = Ok tt ->
  history ((k, sample_call) :: t) (run_action sample_call k db).1.
Proof. intros Ht Hk. eapply history_next; [exact Ht|]. rewrite <- Hk. by destruct (run_action _ _ _). Qed.
Lemma sample_reached : history sample_history (after sample_calls).
Proof. do 4 (apply history_step; [|vm_compute; reflexivity]). apply history_start. Qed.
Definition sample_exec : call := Exec system_account_name 7 system_account_name.
End MsigSample.
Import MsigSample.

Lemma executed_as_approved_witness : exists db' approved,
  run_action sample_call sample_exec (after sample_calls) = (db', Ok tt) /\ length (sent db') = 1%nat /\
  (forall l, l ∈ approved -> 0 < net_approvals (system_account_name, 7) l sample_history) /\
  exists d, level_ok (make_checker (ch_auth genesis) [] approved d) lv.
Proof.
  exists (run_action sample_call sample_exec (after sample_calls)).1.
  assert (Hrun : run_action sample_call sample_exec (after sample_calls) =
    ((run_action sample_call sample_exec (after sample_calls)).1, Ok tt)) by (vm_compute; reflexivity).
  destruct (executed_as_approved sample_history (after sample_calls) _ sample_call system_account_name 7 system_account_name
    sample_reached genesis_weights Hrun) as (data & trx & Hst & Hun & Hsent & _ & approved & Happ & Hall).
  exists approved. split; [exact Hrun|]. split; [by vm_compute|]. split; [exact Happ|].
  assert (data = packed_of c_transaction sample_trx) as -> by (vm_compute in Hst; vm_compute; congruence).
  assert (trx = sample_trx) as ->.
  { assert (unpack_value c_transaction (packed_of c_transaction sample_trx) = Ok sample_trx) as E by (vm_compute; reflexivity). congruence. }
  destruct (Hall (Action null_account_name onramusage_name [lv] []) lv) as (d & Hd & _); [by left|by left|].
  exists d. exact Hd.
Defined.
