(* ===== verification/SystemState.v ===== *)
(** * The system contract: its data

    Model of the state of [contracts/besio.system] ([besio.system.hpp], [exchange_state.hpp],
    the tables of [delegate_bandwidth.cpp]), of the doubles it computes with and of the
    calls of [contracts/besiolib] and of the node it makes. Its actions are in
    [SystemVoting], [SystemStaking] and [SystemContract]. *)
From Stdlib Require Import Ascii String SpecFloat.
From S2P Require Import Prelude BlockHeaderState Names Asset TransactionContext Token.

(** ** Doubles

    The node computes with IEEE doubles in software, so that all nodes agree. *)
Abbreviation double := spec_float.
Definition dadd : double -> double -> double := SFadd 53 1024.
Definition dsub : double -> double -> double := SFsub 53 1024.
Definition dmul : double -> double -> double := SFmul 53 1024.
Definition ddiv : double -> double -> double := SFdiv 53 1024.
Definition dneg : double -> double := SFopp.
Definition dabs : double -> double := SFabs.
Definition dlt : double -> double -> bool := SFltb.
Definition dle : double -> double -> bool := SFleb.
Definition is_nan (d : double) : bool := match d with S754_nan => true | _ => false end.
Definition of_int (z : Z) : double := binary_normalize 53 1024 z 0 false.
Definition zero : double := S754_zero false.
Definition half : double := ddiv (of_int 1) (of_int 2).

(** [_besio_f64_trunc_i64s]. *)
Definition truncate (d : double) : Z :=
  match d with
  | S754_finite s m e =>
      let v := if 0 <=? e then Z.pos m * 2 ^ e else Z.pos m / 2 ^ (- e) in
      if s then - v else v
  | _ => 0
  end.
Definition to_int64 (d : double) : result Z :=
  _ ← bes_assert (negb (dle (of_int (2 ^ 63)) d || dlt d (of_int (- 2 ^ 63)))) wasm_execution_error;
  _ ← bes_assert (negb (is_nan d)) wasm_execution_error;
  mret (truncate d).

(** The symbol of the core token is chosen at build time; [pow] is of the C library. *)
Definition S_RAM : Z := Eval vm_compute in match string_to_symbol 0 (lit "RAM") with Ok v => v | Throw _ => 0 end.
Definition S_RAMCORE : Z := Eval vm_compute in match string_to_symbol 4 (lit "RAMCORE") with Ok v => v | Throw _ => 0 end.
Class SystemLib := {
  CORE_SYMBOL : Z;
  pow : double -> double -> double;
  core_valid : Lib.is_valid_symbol CORE_SYMBOL = true;
  core_fresh : CORE_SYMBOL <> S_RAM /\ CORE_SYMBOL <> S_RAMCORE
}.

(** ** Accounts of the system *)
Definition n_besio : Z := Eval vm_compute in Names.N "besio".
Definition n_stake : Z := Eval vm_compute in Names.N "besio.stake".
Definition n_ram : Z := Eval vm_compute in Names.N "besio.ram".
Definition n_ramfee : Z := Eval vm_compute in Names.N "besio.ramfee".
Definition n_names : Z := Eval vm_compute in Names.N "besio.names".
Definition n_saving : Z := Eval vm_compute in Names.N "besio.saving".
Definition n_bpay : Z := Eval vm_compute in Names.N "besio.bpay".
Definition n_vpay : Z := Eval vm_compute in Names.N "besio.vpay".
Definition n_b1 : Z := Eval vm_compute in Names.N "b1".

(** ** Rows *)
Record besio_global_state := GlobalState {
  gs_params : chain_config;
  max_ram_size : Z;
  total_ram_bytes_reserved : Z;
  total_ram_stake : Z;
  last_producer_schedule_update : Z;
  last_pervote_bucket_fill : Z;
  pervote_bucket : Z;
  perblock_bucket : Z;
  total_unpaid_blocks : Z;
  total_activated_stake : Z;
  thresh_activated_stake_time : Z;
  last_producer_schedule_size : Z;
  total_producer_vote_weight : double;
  last_name_close : Z
}.
Record producer_info := ProducerInfo {
  pi_owner : account_name;
  total_votes : double;
  pi_key : public_key;
  is_active : bool;
  pi_url : list ascii;
  unpaid_blocks : Z;
  last_claim_time : Z;
  pi_location : Z
}.
(** The reserved fields are left out: nothing reads or writes them. *)
Record voter_info := VoterInfo {
  vi_owner : account_name;
  vi_proxy : account_name;
  vi_producers : list account_name;
  staked : Z;
  last_vote_weight : double;
  proxied_vote_weight : double;
  is_proxy : bool
}.
(** A negative [high_bid] is of an auction that is closed and not yet claimed. *)
Record name_bid := NameBid {
  newname : account_name;
  high_bidder : account_name;
  high_bid : Z;
  last_bid_time : Z
}.
Record connector := Connector { c_balance : asset; c_weight : double }.
Record exchange_state := ExchangeState { ex_supply : asset; ex_base : connector; ex_quote : connector }.
Record user_resources := UserResources {
  ur_owner : account_name;
  ur_net_weight : asset;
  ur_cpu_weight : asset;
  ur_ram_bytes : Z
}.
Record delegated_bandwidth := DelegatedBandwidth {
  db_from : account_name;
  db_to : account_name;
  db_net_weight : asset;
  db_cpu_weight : asset
}.
Record refund_request := RefundRequest {
  rf_owner : account_name;
  rf_request_time : Z;
  rf_net_amount : asset;
  rf_cpu_amount : asset
}.

Definition set_gs_params (v : chain_config) (g : besio_global_state) : besio_global_state :=
  GlobalState v (max_ram_size g) (total_ram_bytes_reserved g) (total_ram_stake g)
    (last_producer_schedule_update g) (last_pervote_bucket_fill g) (pervote_bucket g) (perblock_bucket g)
    (total_unpaid_blocks g) (total_activated_stake g) (thresh_activated_stake_time g)
    (last_producer_schedule_size g) (total_producer_vote_weight g) (last_name_close g).
Definition set_max_ram_size (v : Z) (g : besio_global_state) : besio_global_state :=
  GlobalState (gs_params g) v (total_ram_bytes_reserved g) (total_ram_stake g) (last_producer_schedule_update
    g) (last_pervote_bucket_fill g) (pervote_bucket g) (perblock_bucket g) (total_unpaid_blocks g)
    (total_activated_stake g) (thresh_activated_stake_time g) (last_producer_schedule_size g)
    (total_producer_vote_weight g) (last_name_close g).
Definition set_total_ram_bytes_reserved (v : Z) (g : besio_global_state) : besio_global_state :=
  GlobalState (gs_params g) (max_ram_size g) v (total_ram_stake g) (last_producer_schedule_update g)
    (last_pervote_bucket_fill g) (pervote_bucket g) (perblock_bucket g) (total_unpaid_blocks g)
    (total_activated_stake g) (thresh_activated_stake_time g) (last_producer_schedule_size g)
    (total_producer_vote_weight g) (last_name_close g).
Definition set_total_ram_stake (v : Z) (g : besio_global_state) : besio_global_state :=
  GlobalState (gs_params g) (max_ram_size g) (total_ram_bytes_reserved g) v (last_producer_schedule_update g)
    (last_pervote_bucket_fill g) (pervote_bucket g) (perblock_bucket g) (total_unpaid_blocks g)
    (total_activated_stake g) (thresh_activated_stake_time g) (last_producer_schedule_size g)
    (total_producer_vote_weight g) (last_name_close g).
Definition set_last_producer_schedule_update (v : Z) (g : besio_global_state) : besio_global_state :=
  GlobalState (gs_params g) (max_ram_size g) (total_ram_bytes_reserved g) (total_ram_stake g) v
    (last_pervote_bucket_fill g) (pervote_bucket g) (perblock_bucket g) (total_unpaid_blocks g)
    (total_activated_stake g) (thresh_activated_stake_time g) (last_producer_schedule_size g)
    (total_producer_vote_weight g) (last_name_close g).
Definition set_last_pervote_bucket_fill (v : Z) (g : besio_global_state) : besio_global_state :=
  GlobalState (gs_params g) (max_ram_size g) (total_ram_bytes_reserved g) (total_ram_stake g)
    (last_producer_schedule_update g) v (pervote_bucket g) (perblock_bucket g) (total_unpaid_blocks g)
    (total_activated_stake g) (thresh_activated_stake_time g) (last_producer_schedule_size g)
    (total_producer_vote_weight g) (last_name_close g).
Definition set_pervote_bucket (v : Z) (g : besio_global_state) : besio_global_state :=
  GlobalState (gs_params g) (max_ram_size g) (total_ram_bytes_reserved g) (total_ram_stake g)
    (last_producer_schedule_update g) (last_pervote_bucket_fill g) v (perblock_bucket g) (total_unpaid_blocks
    g) (total_activated_stake g) (thresh_activated_stake_time g) (last_producer_schedule_size g)
    (total_producer_vote_weight g) (last_name_close g).
Definition set_perblock_bucket (v : Z) (g : besio_global_state) : besio_global_state :=
  GlobalState (gs_params g) (max_ram_size g) (total_ram_bytes_reserved g) (total_ram_stake g)
    (last_producer_schedule_update g) (last_pervote_bucket_fill g) (pervote_bucket g) v (total_unpaid_blocks
    g) (total_activated_stake g) (thresh_activated_stake_time g) (last_producer_schedule_size g)
    (total_producer_vote_weight g) (last_name_close g).
Definition set_total_unpaid_blocks (v : Z) (g : besio_global_state) : besio_global_state :=
  GlobalState (gs_params g) (max_ram_size g) (total_ram_bytes_reserved g) (total_ram_stake g)
    (last_producer_schedule_update g) (last_pervote_bucket_fill g) (pervote_bucket g) (perblock_bucket g) v
    (total_activated_stake g) (thresh_activated_stake_time g) (last_producer_schedule_size g)
    (total_producer_vote_weight g) (last_name_close g).
Definition set_total_activated_stake (v : Z) (g : besio_global_state) : besio_global_state :=
  GlobalState (gs_params g) (max_ram_size g) (total_ram_bytes_reserved g) (total_ram_stake g)
    (last_producer_schedule_update g) (last_pervote_bucket_fill g) (pervote_bucket g) (perblock_bucket g)
    (total_unpaid_blocks g) v (thresh_activated_stake_time g) (last_producer_schedule_size g)
    (total_producer_vote_weight g) (last_name_close g).
Definition set_thresh_activated_stake_time (v : Z) (g : besio_global_state) : besio_global_state :=
  GlobalState (gs_params g) (max_ram_size g) (total_ram_bytes_reserved g) (total_ram_stake g)
    (last_producer_schedule_update g) (last_pervote_bucket_fill g) (pervote_bucket g) (perblock_bucket g)
    (total_unpaid_blocks g) (total_activated_stake g) v (last_producer_schedule_size g)
    (total_producer_vote_weight g) (last_name_close g).
Definition set_last_producer_schedule_size (v : Z) (g : besio_global_state) : besio_global_state :=
  GlobalState (gs_params g) (max_ram_size g) (total_ram_bytes_reserved g) (total_ram_stake g)
    (last_producer_schedule_update g) (last_pervote_bucket_fill g) (pervote_bucket g) (perblock_bucket g)
    (total_unpaid_blocks g) (total_activated_stake g) (thresh_activated_stake_time g) v
    (total_producer_vote_weight g) (last_name_close g).
Definition set_total_producer_vote_weight (v : double) (g : besio_global_state) : besio_global_state :=
  GlobalState (gs_params g) (max_ram_size g) (total_ram_bytes_reserved g) (total_ram_stake g)
    (last_producer_schedule_update g) (last_pervote_bucket_fill g) (pervote_bucket g) (perblock_bucket g)
    (total_unpaid_blocks g) (total_activated_stake g) (thresh_activated_stake_time g)
    (last_producer_schedule_size g) v (last_name_close g).
Definition set_last_name_close (v : Z) (g : besio_global_state) : besio_global_state :=
  GlobalState (gs_params g) (max_ram_size g) (total_ram_bytes_reserved g) (total_ram_stake g)
    (last_producer_schedule_update g) (last_pervote_bucket_fill g) (pervote_bucket g) (perblock_bucket g)
    (total_unpaid_blocks g) (total_activated_stake g) (thresh_activated_stake_time g)
    (last_producer_schedule_size g) (total_producer_vote_weight g) v.
Definition set_total_votes (v : double) (p : producer_info) : producer_info :=
  ProducerInfo (pi_owner p) v (pi_key p) (is_active p) (pi_url p) (unpaid_blocks p) (last_claim_time p)
    (pi_location p).
Definition set_unpaid_blocks (v : Z) (p : producer_info) : producer_info :=
  ProducerInfo (pi_owner p) (total_votes p) (pi_key p) (is_active p) (pi_url p) v (last_claim_time p)
    (pi_location p).
Definition set_last_claim_time (v : Z) (p : producer_info) : producer_info :=
  ProducerInfo (pi_owner p) (total_votes p) (pi_key p) (is_active p) (pi_url p) (unpaid_blocks p) v
    (pi_location p).
Definition set_staked (v : Z) (r : voter_info) : voter_info :=
  VoterInfo (vi_owner r) (vi_proxy r) (vi_producers r) v (last_vote_weight r) (proxied_vote_weight r)
    (is_proxy r).
Definition set_last_vote_weight (v : double) (r : voter_info) : voter_info :=
  VoterInfo (vi_owner r) (vi_proxy r) (vi_producers r) (staked r) v (proxied_vote_weight r) (is_proxy r).
Definition set_proxied_vote_weight (v : double) (r : voter_info) : voter_info :=
  VoterInfo (vi_owner r) (vi_proxy r) (vi_producers r) (staked r) (last_vote_weight r) v (is_proxy r).
Definition set_is_proxy (v : bool) (r : voter_info) : voter_info :=
  VoterInfo (vi_owner r) (vi_proxy r) (vi_producers r) (staked r) (last_vote_weight r) (proxied_vote_weight r)
    v.
Definition by_votes (p : producer_info) : double := if is_active p then dneg (total_votes p) else total_votes p.
Definition deactivate (p : producer_info) : producer_info :=
  ProducerInfo (pi_owner p) (total_votes p) no_key false (pi_url p) (unpaid_blocks p) (last_claim_time p) (pi_location p).
Definition by_high_bid (b : name_bid) : Z := u64 (- high_bid b).
Definition free_ram (g : besio_global_state) : Z := u64 (max_ram_size g - total_ram_bytes_reserved g).

(** ** State

    What the contract asks of the node, in order: inline actions of the token contract with
    the account whose active permission they carry, deferred refunds by sender id, the rest
    of its privileged calls. *)
Inductive effect :=
| Inline (auth : account_name) (act : token_action)
| Defer_refund (sender_id payer : account_name) (delay : Z)
| Cancel_deferred (sender_id : account_name)
| Notify (a : account_name)
| Set_proposed_producers (ps : list producer_key)
| Set_parameters (c : chain_config)
| Set_privileged (a : account_name) (is_priv : bool).

(** The tables, all in the scope of the contract or of the account that is their key, save
    [delband], which is in the scope of the delegating account; [gstate] is the copy of
    [global] in the contract object. [limits] are the resource limits last set. *)
Record sys := Sys {
  voters : gmap Z (row voter_info);
  producers : gmap Z (row producer_info);
  global : option (row besio_global_state);
  gstate : besio_global_state;
  rammarket : option (row exchange_state);
  namebids : gmap Z (row name_bid);
  userres : gmap Z (row user_resources);
  delband : gmap (Z * Z) (row delegated_bandwidth);
  refunds : gmap Z (row refund_request);
  limits : gmap Z (Z * Z * Z);
  outbox : list effect
}.
Definition set_voters (x : gmap Z (row voter_info)) (s : sys) : sys :=
  Sys x (producers s) (global s) (gstate s) (rammarket s) (namebids s) (userres s) (delband s) (refunds s)
    (limits s) (outbox s).
Definition set_producers (x : gmap Z (row producer_info)) (s : sys) : sys :=
  Sys (voters s) x (global s) (gstate s) (rammarket s) (namebids s) (userres s) (delband s) (refunds s)
    (limits s) (outbox s).
Definition set_global (x : option (row besio_global_state)) (s : sys) : sys :=
  Sys (voters s) (producers s) x (gstate s) (rammarket s) (namebids s) (userres s) (delband s) (refunds s)
    (limits s) (outbox s).
Definition set_gstate (x : besio_global_state) (s : sys) : sys :=
  Sys (voters s) (producers s) (global s) x (rammarket s) (namebids s) (userres s) (delband s) (refunds s)
    (limits s) (outbox s).
Definition set_rammarket (x : option (row exchange_state)) (s : sys) : sys :=
  Sys (voters s) (producers s) (global s) (gstate s) x (namebids s) (userres s) (delband s) (refunds s)
    (limits s) (outbox s).
Definition set_namebids (x : gmap Z (row name_bid)) (s : sys) : sys :=
  Sys (voters s) (producers s) (global s) (gstate s) (rammarket s) x (userres s) (delband s) (refunds s)
    (limits s) (outbox s).
Definition set_userres (x : gmap Z (row user_resources)) (s : sys) : sys :=
  Sys (voters s) (producers s) (global s) (gstate s) (rammarket s) (namebids s) x (delband s) (refunds s)
    (limits s) (outbox s).
Definition set_delband (x : gmap (Z * Z) (row delegated_bandwidth)) (s : sys) : sys :=
  Sys (voters s) (producers s) (global s) (gstate s) (rammarket s) (namebids s) (userres s) x (refunds s)
    (limits s) (outbox s).
Definition set_refunds (x : gmap Z (row refund_request)) (s : sys) : sys :=
  Sys (voters s) (producers s) (global s) (gstate s) (rammarket s) (namebids s) (userres s) (delband s) x
    (limits s) (outbox s).
Definition set_limits (x : gmap Z (Z * Z * Z)) (s : sys) : sys :=
  Sys (voters s) (producers s) (global s) (gstate s) (rammarket s) (namebids s) (userres s) (delband s)
    (refunds s) x (outbox s).
Definition set_outbox (x : list effect) (s : sys) : sys :=
  Sys (voters s) (producers s) (global s) (gstate s) (rammarket s) (namebids s) (userres s) (delband s)
    (refunds s) (limits s) x.
Abbreviation M := (St sys).

(** What an action runs in; [ce_accepts] is whether the node accepts a proposed schedule. *)
Record call_env := CallEnv {
  ce_self : account_name;
  ce_auths : list account_name;
  ce_time : Z;
  ce_is_account : account_name -> bool;
  ce_token : token_db;
  ce_params : chain_config;
  ce_accepts : bool
}.
Definition current_time (env : call_env) : Z := ce_time env.
Definition now (env : call_env) : Z := u32 (ce_time env / 1000000).

Definition check (b : bool) : M unit := st_assert b besio_assert_message_exception.
Definition require_auth (env : call_env) (a : account_name) : M unit :=
  st_assert (bool_decide (a ∈ ce_auths env)) missing_auth_exception.
Definition send (e : effect) : M unit := modify_st (fun s => set_outbox (outbox s ++ [e]) s).
Definition send_transfer (from to : account_name) (q : asset) (memo : list ascii) : M unit :=
  send (Inline from (Transfer (TransferArgs from to q memo))).
Definition set_gstate_with (f : besio_global_state -> besio_global_state) : M unit :=
  modify_st (fun s => set_gstate (f (gstate s)) s).

Definition set_resource_limits (env : call_env) (a : account_name) (ram net cpu : Z) : M unit :=
  _ ← st_assert (-1 <=? ram) wasm_execution_error;
  _ ← st_assert (-1 <=? net) wasm_execution_error;
  _ ← st_assert (-1 <=? cpu) wasm_execution_error;
  _ ← st_assert (ce_is_account env a) out_of_range;
  modify_st (fun s => set_limits (<[a := (ram, net, cpu)]> (limits s)) s).

(** ** Tables

    The key of a new row is unique; payer 0 in [modify] keeps the payer of the row. The key
    of an index of doubles is a number. *)
Record table (K A : Type) `{Countable K} := Table {
  rows : sys -> gmap K (row A);
  set_rows : gmap K (row A) -> sys -> sys;
  storable : A -> bool
}.
Arguments Table {_ _ _ _} _ _ _.
Arguments rows {_ _ _ _} _ _.
Arguments set_rows {_ _ _ _} _ _ _.
Arguments storable {_ _ _ _} _ _.

Section table.
Context {K A : Type} `{Countable K} (t : table K A).
Definition find (k : K) : M (option A) := gets (fun s => obj <$> rows t s !! k).
Definition get_row (k : K) : M A :=
  o ← find k; lift (of_option besio_assert_message_exception o).
Definition emplace (p : account_name) (k : K) (a : A) : M unit :=
  s ← get;
  _ ← st_assert (bool_decide (rows t s !! k = None)) logic_error;
  _ ← st_assert (storable t a) transaction_exception;
  modify_st (set_rows t (<[k := Row p a]> (rows t s))).
Definition modify (p : account_name) (k : K) (f : A -> A) : M unit :=
  s ← get;
  r ← lift (of_option besio_assert_message_exception (rows t s !! k));
  _ ← st_assert (storable t (f (obj r))) transaction_exception;
  modify_st (set_rows t (<[k := Row (if p =? 0 then payer r else p) (f (obj r))]> (rows t s))).
Definition erase (k : K) : M unit := modify_st (fun s => set_rows t (delete k (rows t s)) s).
End table.

Definition any {A} (_ : A) : bool := true.
Definition _voters : table Z voter_info := Table voters set_voters any.
Definition _producers : table Z producer_info := Table producers set_producers (fun p => negb (is_nan (by_votes p))).
Definition name_bid_table : table Z name_bid := Table namebids set_namebids any.
Definition user_resources_table : table Z user_resources := Table userres set_userres any.
Definition del_bandwidth_table : table (Z * Z) delegated_bandwidth := Table delband set_delband any.
Definition refunds_table : table Z refund_request := Table refunds set_refunds any.

(** ** Assets of besiolib

    Comparing assets of different symbols fails. *)
Section assets.
Context `{SystemLib}.
Definition core (a : Z) : asset := Asset a CORE_SYMBOL.
Definition core_asset (a : Z) : result asset :=
  _ ← besio_assert (is_amount_within_range (core a)); mret (core a).
Definition asset_eq (a b : asset) : result bool := _ ← besio_assert (sym a =? sym b); mret (amount a =? amount b).
Definition asset_ne (a b : asset) : result bool := b ← asset_eq a b; mret (negb b).
Definition asset_lt (a b : asset) : result bool := _ ← besio_assert (sym a =? sym b); mret (amount a <? amount b).
Definition asset_le (a b : asset) : result bool := _ ← besio_assert (sym a =? sym b); mret (amount a <=? amount b).
Definition asset_neg (a : asset) : asset := Asset (i64 (- amount a)) (sym a).
End assets.
