(* ===== verification/SystemVoting.v ===== *)
(** * The system contract: votes and the election

    Model of [contracts/besio.system/voting.cpp]: registering as a producer, voting, proxies,
    and electing the schedule. *)
From Stdlib Require Import Ascii String SpecFloat.
From S2P Require Import Prelude BlockHeaderState Names Asset TransactionContext Token SystemState.

Definition min_activated_stake : Z := 1500000000000.
Definition seconds_per_day : Z := 24 * 3600.

Section voting.
Context `{SystemLib} (env : call_env).

(** ** Producers *)
Definition regproducer (producer : account_name) (producer_key : public_key) (url : list ascii) (location : Z) : M unit :=
  _ ← check (Z.of_nat (length url) <? 512);
  _ ← check (negb (producer_key =? no_key));
  _ ← require_auth env producer;
  prod ← find _producers producer;
  match prod with
  | Some _ =>
      modify _producers producer producer (fun info =>
        ProducerInfo (pi_owner info) (total_votes info) producer_key true url (unpaid_blocks info) (last_claim_time info) location)
  | None => emplace _producers producer producer (ProducerInfo producer zero producer_key true url 0 0 location)
  end.

Definition unregprod (producer : account_name) : M unit :=
  _ ← require_auth env producer;
  _ ← get_row _producers producer;
  modify _producers 0 producer deactivate.

(** The index [prototalvote]: by votes, then by name. *)
Definition vote_order (a b : producer_info) : Prop :=
  dlt (by_votes a) (by_votes b) = true \/ (dlt (by_votes b) (by_votes a) = false /\ pi_owner a <= pi_owner b).
#[global] Instance vote_order_dec a b : Decision (vote_order a b).
Proof. unfold vote_order. apply _. Defined.
Definition prototalvote (s : sys) : list producer_info :=
  merge_sort vote_order ((fun kr => obj kr.2) <$> map_to_list (producers s)).

Fixpoint elect (n : nat) (idx : list producer_info) : list producer_info :=
  match n, idx with
  | S n, p :: idx => if dlt zero (total_votes p) && is_active p then p :: elect n idx else []
  | _, _ => []
  end.
(** Producer keys compare by name. *)
Definition name_order (a b : producer_info) : Prop :=
  pi_owner a < pi_owner b \/ (pi_owner a <= pi_owner b /\ pi_location a <= pi_location b).
#[global] Instance name_order_dec a b : Decision (name_order a b).
Proof. unfold name_order. apply _. Defined.
Definition schedule_key (p : producer_info) : producer_key := ProducerKey (pi_owner p) (pi_key p).

Definition update_elected_producers (block_time : Z) : M unit :=
  _ ← set_gstate_with (set_last_producer_schedule_update block_time);
  s ← get;
  let top_producers := elect 21 (prototalvote s) in
  if Z.of_nat (length top_producers) <? last_producer_schedule_size (gstate s) then mret tt else
  _ ← send (Set_proposed_producers (schedule_key <$> merge_sort name_order top_producers));
  if ce_accepts env then
    set_gstate_with (set_last_producer_schedule_size (u16 (Z.of_nat (length top_producers))))
  else mret tt.

(** ** Votes *)
Definition stake2vote (staked : Z) : double :=
  let weight := ddiv (of_int (Z.quot (now env - 946684800) (seconds_per_day * 7))) (of_int 52) in
  dmul (of_int staked) (pow (of_int 2) weight).

(** The rows are shared objects: [v] names the row that the reference is to. The recursion
    has no bound of its own; one step for each voter is enough. *)
Fixpoint propagate_weight_change (fuel : nat) (v : account_name) : M unit :=
  match fuel with
  | O => throw deadline_exception
  | S fuel =>
      voter ← get_row _voters v;
      _ ← check ((vi_proxy voter =? 0) || negb (is_proxy voter));
      let new_weight := stake2vote (staked voter) in
      let new_weight := if is_proxy voter then dadd new_weight (proxied_vote_weight voter) else new_weight in
      let delta := dsub new_weight (last_vote_weight voter) in
      _ ← (if dlt (of_int 1) (dabs delta) then
             if negb (vi_proxy voter =? 0) then
               _ ← get_row _voters (vi_proxy voter);
               _ ← modify _voters 0 (vi_proxy voter)
                     (fun p => set_proxied_vote_weight (dadd (proxied_vote_weight p) delta) p);
               propagate_weight_change fuel (vi_proxy voter)
             else
               for_each (fun acnt =>
                 _ ← get_row _producers acnt;
                 _ ← modify _producers 0 acnt (fun p => set_total_votes (dadd (total_votes p) delta) p);
                 set_gstate_with (fun g => set_total_producer_vote_weight (dadd (total_producer_vote_weight g) delta) g))
                 (vi_producers voter)
           else mret tt);
      modify _voters 0 v (set_last_vote_weight new_weight)
  end.
Definition propagate (v : account_name) : M unit :=
  s ← get; propagate_weight_change (S (size (voters s))) v.

Fixpoint sorted_unique (producers : list account_name) : bool :=
  match producers with
  | a :: (b :: _) as l => (a <? b) && sorted_unique l
  | _ => true
  end.

(** A [flat_map] from producers to the change of votes and whether it is of the new set. *)
Abbreviation deltas := (list (account_name * (double * bool))).
Fixpoint change_delta (p : account_name) (f : double -> double) (is_new : bool) (l : deltas) : deltas :=
  match l with
  | [] => [(p, (f zero, is_new))]
  | (q, d) :: l' =>
      if p <? q then (p, (f zero, is_new)) :: l
      else if p =? q then (p, (f d.1, is_new)) :: l'
      else (q, d) :: change_delta p f is_new l'
  end.

Definition validate_vote (voter_name proxy : account_name) (producers : list account_name) : M unit :=
  if negb (proxy =? 0) then
    _ ← check (Z.of_nat (length producers) =? 0);
    _ ← check (negb (voter_name =? proxy));
    send (Notify proxy)
  else
    _ ← check (Z.of_nat (length producers) <=? 30);
    check (sorted_unique producers).

(** The first vote activates the stake. *)
Definition activate_stake (voter : voter_info) : M unit :=
  if dle (last_vote_weight voter) zero then
    _ ← set_gstate_with (fun g => set_total_activated_stake (i64 (total_activated_stake g + staked voter)) g);
    g ← gets gstate;
    if (min_activated_stake <=? total_activated_stake g) && (thresh_activated_stake_time g =? 0)
    then set_gstate_with (set_thresh_activated_stake_time (current_time env))
    else mret tt
  else mret tt.

(** Undoing the last vote. *)
Definition undo_vote (voter : voter_info) : M deltas :=
  if dlt zero (last_vote_weight voter) then
    if negb (vi_proxy voter =? 0) then
      _ ← get_row _voters (vi_proxy voter);
      _ ← modify _voters 0 (vi_proxy voter)
            (fun vp => set_proxied_vote_weight (dsub (proxied_vote_weight vp) (last_vote_weight voter)) vp);
      _ ← propagate (vi_proxy voter);
      mret []
    else mret (foldl (fun l p => change_delta p (fun d => dsub d (last_vote_weight voter)) false l) [] (vi_producers voter))
  else mret [].

(** Casting the new one. *)
Definition cast_vote (new_vote_weight : double) (proxy : account_name) (producers : list account_name) (voting : bool)
    (l : deltas) : M deltas :=
  if negb (proxy =? 0) then
    new_proxy ← get_row _voters proxy;
    _ ← check (negb voting || is_proxy new_proxy);
    if dle zero new_vote_weight then
      _ ← modify _voters 0 proxy (fun vp => set_proxied_vote_weight (dadd (proxied_vote_weight vp) new_vote_weight) vp);
      _ ← propagate proxy;
      mret l
    else mret l
  else if dle zero new_vote_weight then
    mret (foldl (fun l p => change_delta p (fun d => dadd d new_vote_weight) true l) l producers)
  else mret l.

Definition apply_delta (voting : bool) (pd : account_name * (double * bool)) : M unit :=
  let '(p, (d, is_new)) := pd in
  pitr ← find _producers p;
  match pitr with
  | Some prod =>
      _ ← check (negb voting || is_active prod || negb is_new);
      _ ← modify _producers 0 p (fun p =>
            let v := dadd (total_votes p) d in
            set_total_votes (if dlt v zero then zero else v) p);
      set_gstate_with (fun g => set_total_producer_vote_weight (dadd (total_producer_vote_weight g) d) g)
  | None => check (negb is_new)
  end.

Definition update_votes (voter_name proxy : account_name) (producers : list account_name) (voting : bool) : M unit :=
  _ ← validate_vote voter_name proxy producers;
  voter ← get_row _voters voter_name;
  _ ← check ((proxy =? 0) || negb (is_proxy voter));
  _ ← activate_stake voter;
  let new_vote_weight := stake2vote (staked voter) in
  let new_vote_weight := if is_proxy voter then dadd new_vote_weight (proxied_vote_weight voter) else new_vote_weight in
  l ← undo_vote voter;
  l ← cast_vote new_vote_weight proxy producers voting l;
  _ ← for_each (apply_delta voting) l;
  modify _voters 0 voter_name (fun av =>
    VoterInfo (vi_owner av) proxy producers (staked av) new_vote_weight (proxied_vote_weight av) (is_proxy av)).

Definition voteproducer (voter_name proxy : account_name) (producers : list account_name) : M unit :=
  _ ← require_auth env voter_name;
  update_votes voter_name proxy producers true.

Definition regproxy (proxy : account_name) (isproxy : bool) : M unit :=
  _ ← require_auth env proxy;
  pitr ← find _voters proxy;
  match pitr with
  | Some v =>
      _ ← check (negb (Bool.eqb isproxy (is_proxy v)));
      _ ← check (negb isproxy || (vi_proxy v =? 0));
      _ ← modify _voters 0 proxy (set_is_proxy isproxy);
      propagate proxy
  | None => emplace _voters proxy proxy (VoterInfo proxy 0 [] 0 zero zero isproxy)
  end.
End voting.
