(* ===== verification/SystemStaking.v ===== *)
(** * The system contract: bandwidth, refunds and the RAM market

    Model of [contracts/besio.system/delegate_bandwidth.cpp] and [exchange_state.cpp]. *)
From Stdlib Require Import Ascii String SpecFloat.
From S2P Require Import Prelude BlockHeaderState Names Asset TransactionContext Token SystemState SystemVoting.

(** ** The exchange *)
Definition lib_asset (a s : Z) : result asset := _ ← besio_assert (Lib.is_valid (Asset a s)); mret (Asset a s).
(** Conditions with a short circuit. *)
Definition or_else (a b : result bool) : result bool := x ← a; if x : bool then mret true else b.
Definition and_then (a b : result bool) : result bool := x ← a; if x : bool then b else mret false.

Section exchange.
Context `{SystemLib}.
(** Both return the supply and the connector they leave, and what they convert to. *)
Definition convert_to_exchange (supply : asset) (c : connector) (inp : asset) : result (asset * connector * asset) :=
  let R := of_int (amount supply) in
  let C := of_int (i64 (amount (c_balance c) + amount inp)) in
  let F := ddiv (c_weight c) (of_int 1000) in
  let T := of_int (amount inp) in
  let ONE := of_int 1 in
  let E := dmul (dneg R) (dsub ONE (pow (dadd ONE (ddiv T C)) F)) in
  issued ← to_int64 E;
  let supply' := Asset (i64 (amount supply + issued)) (sym supply) in
  let c' := Connector (Asset (i64 (amount (c_balance c) + amount inp)) (sym (c_balance c))) (c_weight c) in
  out ← lib_asset issued (sym supply);
  mret (supply', c', out).

Definition convert_from_exchange (supply : asset) (c : connector) (inp : asset) : result (asset * connector * asset) :=
  _ ← besio_assert (sym inp =? sym supply);
  let R := of_int (i64 (amount supply - amount inp)) in
  let C := of_int (amount (c_balance c)) in
  let F := ddiv (of_int 1000) (c_weight c) in
  let E := of_int (amount inp) in
  let ONE := of_int 1 in
  let T := dmul C (dsub (pow (dadd ONE (ddiv E R)) F) ONE) in
  out ← to_int64 T;
  let supply' := Asset (i64 (amount supply - amount inp)) (sym supply) in
  let c' := Connector (Asset (i64 (amount (c_balance c) - out)) (sym (c_balance c))) (c_weight c) in
  r ← lib_asset out (sym (c_balance c));
  mret (supply', c', r).

(** One conversion, and again until the symbol is the one asked for. *)
Definition convert_step (ex : exchange_state) (from : asset) (to : Z) : result (exchange_state * asset) :=
  if negb (sym from =? sym (ex_supply ex)) then
    if sym from =? sym (c_balance (ex_base ex)) then
      '(s, c, r) ← convert_to_exchange (ex_supply ex) (ex_base ex) from; mret (ExchangeState s c (ex_quote ex), r)
    else if sym from =? sym (c_balance (ex_quote ex)) then
      '(s, c, r) ← convert_to_exchange (ex_supply ex) (ex_quote ex) from; mret (ExchangeState s (ex_base ex) c, r)
    else Throw besio_assert_message_exception
  else
    if to =? sym (c_balance (ex_base ex)) then
      '(s, c, r) ← convert_from_exchange (ex_supply ex) (ex_base ex) from; mret (ExchangeState s c (ex_quote ex), r)
    else if to =? sym (c_balance (ex_quote ex)) then
      '(s, c, r) ← convert_from_exchange (ex_supply ex) (ex_quote ex) from; mret (ExchangeState s (ex_base ex) c, r)
    else Throw besio_assert_message_exception.
Fixpoint convert (fuel : nat) (ex : exchange_state) (from : asset) (to : Z) : result (exchange_state * asset) :=
  match fuel with
  | O => Throw deadline_exception
  | S fuel =>
      '(ex, from) ← convert_step ex from to;
      if negb (to =? sym from) then convert fuel ex from to else mret (ex, from)
  end.
(** Into the exchange and out of it. *)
Definition convert_depth : nat := 2.
End exchange.

(** ** RAM *)
Definition refund_delay : Z := 3 * 24 * 3600.
Definition seconds_per_year : Z := 52 * 7 * 24 * 3600.

Section staking.
Context `{SystemLib} (env : call_env).

Definition modify_market {A} (f : exchange_state -> result (exchange_state * A)) : M A :=
  m ← gets rammarket;
  r ← lift (of_option besio_assert_message_exception m);
  '(ex, a) ← lift (f (obj r));
  _ ← modify_st (set_rammarket (Some (Row (payer r) ex)));
  mret a.

(** The resources of the receiver grow by the bytes bought. *)
Definition reserve_ram (receiver : account_name) (bytes_out : Z) : M unit :=
  res_itr ← find user_resources_table receiver;
  _ ← match res_itr with
      | None => emplace user_resources_table receiver receiver (UserResources receiver (core 0) (core 0) bytes_out)
      | Some _ => modify user_resources_table receiver receiver (fun res =>
          UserResources (ur_owner res) (ur_net_weight res) (ur_cpu_weight res) (i64 (ur_ram_bytes res + bytes_out)))
      end;
  res ← get_row user_resources_table receiver;
  set_resource_limits env (ur_owner res) (ur_ram_bytes res) (amount (ur_net_weight res)) (amount (ur_cpu_weight res)).
Definition buyram (pay receiver : account_name) (quant : asset) : M unit :=
  _ ← require_auth env pay;
  _ ← check (0 <? amount quant);
  let fee := Asset (Z.quot (i64 (amount quant + 199)) 200) (sym quant) in
  let quant_after_fee := Asset (i64 (amount quant - amount fee)) (sym quant) in
  _ ← send_transfer pay n_ram quant_after_fee (lit "buy ram");
  _ ← (if 0 <? amount fee then send_transfer pay n_ramfee fee (lit "ram fee") else mret tt);
  bytes_out ← modify_market (fun ex => convert convert_depth ex quant_after_fee S_RAM);
  let bytes_out := amount bytes_out in
  _ ← check (0 <? bytes_out);
  _ ← set_gstate_with (fun g => set_total_ram_bytes_reserved (u64 (total_ram_bytes_reserved g + bytes_out)) g);
  _ ← set_gstate_with (fun g => set_total_ram_stake (i64 (total_ram_stake g + amount quant_after_fee)) g);
  reserve_ram receiver bytes_out.

(** Without a market the iterator is the end and is dereferenced. *)
Definition buyrambytes (pay receiver : account_name) (bytes : Z) : M unit :=
  m ← gets rammarket;
  r ← lift (of_option undefined_behaviour m);
  inp ← lift (lib_asset bytes S_RAM);
  '(_, besout) ← lift (convert convert_depth (obj r) inp CORE_SYMBOL);
  buyram pay receiver besout.

(** The resources of the seller shrink. *)
Definition release_ram (account : account_name) (bytes : Z) : M unit :=
  _ ← modify user_resources_table account account (fun res =>
        UserResources (ur_owner res) (ur_net_weight res) (ur_cpu_weight res) (i64 (ur_ram_bytes res - bytes)));
  res ← get_row user_resources_table account;
  set_resource_limits env (ur_owner res) (ur_ram_bytes res) (amount (ur_net_weight res)) (amount (ur_cpu_weight res)).
Definition sellram (account : account_name) (bytes : Z) : M unit :=
  _ ← require_auth env account;
  _ ← check (0 <? bytes);
  res ← get_row user_resources_table account;
  _ ← check (bytes <=? ur_ram_bytes res);
  inp ← lift (lib_asset bytes S_RAM);
  tokens_out ← modify_market (fun ex => convert convert_depth ex inp CORE_SYMBOL);
  _ ← check (1 <? amount tokens_out);
  _ ← set_gstate_with (fun g => set_total_ram_bytes_reserved (u64 (total_ram_bytes_reserved g - bytes)) g);
  _ ← set_gstate_with (fun g => set_total_ram_stake (i64 (total_ram_stake g - amount tokens_out)) g);
  g ← gets gstate;
  _ ← check (0 <=? total_ram_stake g);
  _ ← release_ram account bytes;
  _ ← send_transfer n_ram account tokens_out (lit "sell ram");
  let fee := Z.quot (i64 (amount tokens_out + 199)) 200 in
  if 0 <? fee then
    fee ← lift (core_asset fee);
    send_transfer account n_ramfee fee (lit "sell ram fee")
  else mret tt.

(** ** Bandwidth *)
Definition validate_b1_vesting (stake : Z) : M unit :=
  let base_time := 1527811200 in
  let max_claimable := 1000000000000 in
  claimable ← lift (to_int64 (ddiv (dmul (of_int max_claimable) (of_int (now env - base_time)))
                                   (of_int (10 * seconds_per_year))));
  check (i64 (max_claimable - claimable) <=? stake).

(** The stake that [from] delegates to [receiver]. *)
Definition write_delegation (from receiver : account_name) (net cpu : asset) : M unit :=
  itr ← find del_bandwidth_table (from, receiver);
  match itr with
  | None => emplace del_bandwidth_table from (from, receiver) (DelegatedBandwidth from receiver net cpu)
  | Some dbo =>
      n ← lift (Lib.iadd (db_net_weight dbo) net);
      c ← lift (Lib.iadd (db_cpu_weight dbo) cpu);
      modify del_bandwidth_table 0 (from, receiver) (fun dbo => DelegatedBandwidth (db_from dbo) (db_to dbo) n c)
  end.
Definition update_delegation (from receiver : account_name) (net cpu : asset) : M unit :=
  _ ← write_delegation from receiver net cpu;
  dbo ← get_row del_bandwidth_table (from, receiver);
  b ← lift (asset_le (core 0) (db_net_weight dbo)); _ ← check b;
  b ← lift (asset_le (core 0) (db_cpu_weight dbo)); _ ← check b;
  b ← lift (and_then (asset_eq (db_net_weight dbo) (core 0)) (asset_eq (db_cpu_weight dbo) (core 0)));
  if b : bool then erase del_bandwidth_table (from, receiver) else mret tt.

(** The totals of [receiver]. *)
Definition write_totals (from receiver : account_name) (net cpu : asset) : M unit :=
  tot_itr ← find user_resources_table receiver;
  match tot_itr with
  | None => emplace user_resources_table from receiver (UserResources receiver net cpu 0)
  | Some tot =>
      n ← lift (Lib.iadd (ur_net_weight tot) net);
      c ← lift (Lib.iadd (ur_cpu_weight tot) cpu);
      modify user_resources_table (if from =? receiver then from else 0) receiver
        (fun tot => UserResources (ur_owner tot) n c (ur_ram_bytes tot))
  end.
Definition update_totals (from receiver : account_name) (net cpu : asset) : M unit :=
  _ ← write_totals from receiver net cpu;
  tot ← get_row user_resources_table receiver;
  b ← lift (asset_le (core 0) (ur_net_weight tot)); _ ← check b;
  b ← lift (asset_le (core 0) (ur_cpu_weight tot)); _ ← check b;
  _ ← set_resource_limits env receiver (ur_ram_bytes tot) (amount (ur_net_weight tot)) (amount (ur_cpu_weight tot));
  b ← lift (and_then (asset_eq (ur_net_weight tot) (core 0)) (and_then (asset_eq (ur_cpu_weight tot) (core 0))
             (mret (ur_ram_bytes tot =? 0))));
  if b : bool then erase user_resources_table receiver else mret tt.

(** What is left in a refund, and what is left to transfer. *)
Definition take_refund (r balance : asset) : result (asset * asset) :=
  r ← Lib.isub r balance;
  b ← asset_lt r (core 0);
  if b : bool then mret (core 0, asset_neg r) else mret (r, core 0).
Definition make_refund (balance : asset) : result (asset * asset) :=
  b ← asset_lt balance (core 0);
  if b : bool then mret (asset_neg balance, core 0) else mret (core 0, balance).

(** Returns what is left to transfer, and whether a deferred refund is needed. *)
Definition change_refund (from : account_name) (net cpu : asset) : M (asset * asset * bool) :=
  req ← find refunds_table from;
  match req with
  | Some r =>
      b ← lift (or_else (asset_lt net (core 0)) (asset_lt cpu (core 0)));
      let t := if b : bool then now env else rf_request_time r in
      '(rn, net) ← lift (take_refund (rf_net_amount r) net);
      '(rc, cpu) ← lift (take_refund (rf_cpu_amount r) cpu);
      _ ← modify refunds_table 0 from (fun r => RefundRequest (rf_owner r) t rn rc);
      b ← lift (asset_le (core 0) rn); _ ← check b;
      b ← lift (asset_le (core 0) rc); _ ← check b;
      b ← lift (and_then (asset_eq rn (core 0)) (asset_eq rc (core 0)));
      if b : bool then _ ← erase refunds_table from; mret (net, cpu, false) else mret (net, cpu, true)
  | None =>
      b ← lift (or_else (asset_lt net (core 0)) (asset_lt cpu (core 0)));
      if b : bool then
        '(rn, net) ← lift (make_refund net);
        '(rc, cpu) ← lift (make_refund cpu);
        _ ← emplace refunds_table from from (RefundRequest from (now env) rn rc);
        mret (net, cpu, true)
      else mret (net, cpu, false)
  end.

Definition update_refund (source_stake_from from receiver : account_name) (net cpu : asset) (transfer : bool) : M unit :=
  if source_stake_from =? n_stake then mret tt else
  let is_undelegating := i64 (amount net + amount cpu) <? 0 in
  let is_delegating_to_self := negb transfer && (from =? receiver) in
  '(net, cpu, need_deferred_trx) ←
    (if is_delegating_to_self || is_undelegating then change_refund from net cpu else mret (net, cpu, false));
  _ ← (if need_deferred_trx : bool then
         _ ← send (Cancel_deferred from);
         send (Defer_refund from from refund_delay)
       else send (Cancel_deferred from));
  transfer_amount ← lift (Lib.iadd net cpu);
  b ← lift (asset_lt (core 0) transfer_amount);
  if b : bool then send_transfer source_stake_from n_stake transfer_amount (lit "stake bandwidth") else mret tt.

Definition write_stake (from : account_name) (delta : Z) : M unit :=
  from_voter ← find _voters from;
  match from_voter with
  | None => emplace _voters from from (VoterInfo from 0 [] delta zero zero false)
  | Some _ => modify _voters 0 from (fun v => set_staked (i64 (staked v + delta)) v)
  end.
Definition update_voter (from : account_name) (net cpu : asset) : M unit :=
  total_update ← lift (Lib.iadd net cpu);
  _ ← write_stake from (amount total_update);
  v ← get_row _voters from;
  _ ← check (0 <=? staked v);
  _ ← (if from =? n_b1 then validate_b1_vesting (staked v) else mret tt);
  if negb (Z.of_nat (length (vi_producers v)) =? 0) || negb (vi_proxy v =? 0) then
    update_votes env from (vi_proxy v) (vi_producers v) false
  else mret tt.

Definition changebw (from receiver : account_name) (net cpu : asset) (transfer : bool) : M unit :=
  _ ← require_auth env from;
  b ← lift (or_else (asset_ne net (core 0)) (asset_ne cpu (core 0))); _ ← check b;
  total ← lift (Lib.iadd net cpu);
  _ ← check (Z.max (i64 (Z.abs (amount net))) (i64 (Z.abs (amount cpu))) <=? i64 (Z.abs (amount total)));
  let source_stake_from := from in
  let from := if transfer then receiver else from in
  _ ← update_delegation from receiver net cpu;
  _ ← update_totals from receiver net cpu;
  _ ← update_refund source_stake_from from receiver net cpu transfer;
  update_voter from net cpu.

Definition delegatebw (from receiver : account_name) (net cpu : asset) (transfer : bool) : M unit :=
  b ← lift (asset_le (core 0) cpu); _ ← check b;
  b ← lift (asset_le (core 0) net); _ ← check b;
  total ← lift (Lib.iadd net cpu);
  b ← lift (asset_lt (core 0) total); _ ← check b;
  _ ← check (negb transfer || negb (from =? receiver));
  changebw from receiver net cpu transfer.

Definition undelegatebw (from receiver : account_name) (net cpu : asset) : M unit :=
  b ← lift (asset_le (core 0) cpu); _ ← check b;
  b ← lift (asset_le (core 0) net); _ ← check b;
  total ← lift (Lib.iadd cpu net);
  b ← lift (asset_lt (core 0) total); _ ← check b;
  g ← gets gstate;
  _ ← check (min_activated_stake <=? total_activated_stake g);
  changebw from receiver (asset_neg net) (asset_neg cpu) false.

Definition refund (owner : account_name) : M unit :=
  _ ← require_auth env owner;
  req ← get_row refunds_table owner;
  _ ← check (u32 (rf_request_time req + refund_delay) <=? now env);
  q ← lift (Lib.iadd (rf_net_amount req) (rf_cpu_amount req));
  _ ← send_transfer n_stake (rf_owner req) q (lit "unstake");
  erase refunds_table owner.
End staking.
