(* ===== verification/SystemContract.v ===== *)
(** * The system contract: pay, names and dispatch

    Model of [contracts/besio.system/producer_pay.cpp] and [besio.system.cpp]: what a block
    and a claim of rewards do, the auction of names, the parameters, new accounts, and the
    object that lives for one action. *)
From Stdlib Require Import Ascii String SpecFloat.
From S2P Require Import Prelude BlockHeaderState Names Asset TransactionContext Token.
From S2P Require Import SystemState SystemVoting SystemStaking.

Definition min_pervote_daily_pay : Z := 1000000.
Definition continuous_rate : double := Eval vm_compute in ddiv (of_int 4879) (of_int 100000).
Definition blocks_per_day : Z := 2 * 24 * 3600.
Definition useconds_per_day : Z := 24 * 3600 * 1000000.
Definition useconds_per_year : Z := seconds_per_year * 1000000.

(** ** Names *)
(** [n] characters are left; the bits after the last dot that is followed by a character,
    and after the last dot. *)
Fixpoint suffix_loop (n : nat) (bits name after tmp : Z) : Z * Z :=
  match n with
  | O => (after, tmp)
  | S n =>
      let c := Z.land (Z.shiftr name bits) 31 in
      if c =? 0 then suffix_loop n (bits - 5) name after bits else suffix_loop n (bits - 5) name tmp tmp
  end.
Definition name_suffix (name : Z) : Z :=
  let '(after, tmp) := suffix_loop 12 59 name 0 0 in
  let thirteenth_character := Z.land name 15 in
  let after := if negb (thirteenth_character =? 0) then tmp else after in
  if after =? 0 then name else
  let mask := u64 (Z.shiftl 1 after - 16) in
  let shift := 64 - after in
  u64 (u64 (Z.shiftl (Z.land name mask) shift) + u64 (Z.shiftl thirteenth_character (shift - 1))).
Fixpoint has_dot (n : nat) (tmp : Z) : bool :=
  match n with
  | O => false
  | S n => (Z.land tmp 31 =? 0) || has_dot n (Z.shiftr tmp 5)
  end.

(** The index [highbid]. *)
Definition bid_order (a b : name_bid) : Prop :=
  by_high_bid a < by_high_bid b \/ (by_high_bid a = by_high_bid b /\ newname a <= newname b).
#[global] Instance bid_order_dec a b : Decision (bid_order a b).
Proof. unfold bid_order. apply _. Defined.
Definition highbid (s : sys) : list name_bid :=
  merge_sort bid_order ((fun kr => obj kr.2) <$> map_to_list (namebids s)).

Section contract.
Context `{SystemLib} (env : call_env).

(** ** Blocks and rewards *)
Definition close_auction (timestamp : Z) : M unit :=
  s ← get;
  match highbid s with
  | [] => mret tt
  | highest :: _ =>
      if (0 <? high_bid highest) && (last_bid_time highest <? u64 (current_time env - useconds_per_day)) &&
         (0 <? thresh_activated_stake_time (gstate s)) &&
         (14 * useconds_per_day <? u64 (current_time env - thresh_activated_stake_time (gstate s)))
      then
        _ ← set_gstate_with (set_last_name_close timestamp);
        modify name_bid_table 0 (newname highest) (fun b =>
          NameBid (newname b) (high_bidder b) (i64 (- high_bid b)) (last_bid_time b))
      else mret tt
  end.

Definition onblock (timestamp : Z) (producer : account_name) : M unit :=
  _ ← require_auth env n_besio;
  g ← gets gstate;
  if total_activated_stake g <? min_activated_stake then mret tt else
  _ ← (if last_pervote_bucket_fill g =? 0 then set_gstate_with (set_last_pervote_bucket_fill (current_time env)) else mret tt);
  prod ← find _producers producer;
  _ ← match prod with
      | Some _ =>
          _ ← set_gstate_with (fun g => set_total_unpaid_blocks (u32 (total_unpaid_blocks g + 1)) g);
          modify _producers 0 producer (fun p => set_unpaid_blocks (u32 (unpaid_blocks p + 1)) p)
      | None => mret tt
      end;
  g ← gets gstate;
  if 120 <? u32 (timestamp - last_producer_schedule_update g) then
    _ ← update_elected_producers env timestamp;
    g ← gets gstate;
    if blocks_per_day <? u32 (timestamp - last_name_close g) then close_auction timestamp else mret tt
  else mret tt.

(** The tokens of the inflation since the last claim, and their shares. *)
Definition fill_buckets (ct : Z) : M unit :=
  g ← gets gstate;
  token_supply ← lift (get_supply (ce_token env) (Lib.name CORE_SYMBOL));
  let usecs_since_last_fill := u64 (ct - last_pervote_bucket_fill g) in
  if (0 <? usecs_since_last_fill) && (0 <? last_pervote_bucket_fill g) then
    new_tokens ← lift (to_int64 (ddiv (dmul (dmul continuous_rate (of_int (amount token_supply))) (of_int usecs_since_last_fill))
                                      (of_int useconds_per_year)));
    let to_producers := Z.quot new_tokens 5 in
    let to_savings := new_tokens - to_producers in
    let to_per_block_pay := Z.quot to_producers 4 in
    let to_per_vote_pay := to_producers - to_per_block_pay in
    q ← lift (core_asset new_tokens);
    _ ← send (Inline n_besio (Issue n_besio q (lit "issue tokens for producer pay and savings")));
    q ← lift (core_asset to_savings);
    _ ← send_transfer n_besio n_saving q (lit "unallocated inflation");
    q ← lift (core_asset to_per_block_pay);
    _ ← send_transfer n_besio n_bpay q (lit "fund per-block bucket");
    q ← lift (core_asset to_per_vote_pay);
    _ ← send_transfer n_besio n_vpay q (lit "fund per-vote bucket");
    _ ← set_gstate_with (fun g => set_pervote_bucket (i64 (pervote_bucket g + to_per_vote_pay)) g);
    _ ← set_gstate_with (fun g => set_perblock_bucket (i64 (perblock_bucket g + to_per_block_pay)) g);
    set_gstate_with (set_last_pervote_bucket_fill ct)
  else mret tt.

Definition block_pay (g : besio_global_state) (prod : producer_info) : Z :=
  if 0 <? total_unpaid_blocks g then Z.quot (i64 (perblock_bucket g * unpaid_blocks prod)) (total_unpaid_blocks g) else 0.
Definition vote_pay (g : besio_global_state) (prod : producer_info) : result Z :=
  pay ← (if dlt zero (total_producer_vote_weight g) then
           to_int64 (ddiv (dmul (of_int (pervote_bucket g)) (total_votes prod)) (total_producer_vote_weight g))
         else mret 0);
  mret (if pay <? min_pervote_daily_pay then 0 else pay).

Definition claimrewards (owner : account_name) : M unit :=
  _ ← require_auth env owner;
  prod ← get_row _producers owner;
  _ ← check (is_active prod);
  g ← gets gstate;
  _ ← check (min_activated_stake <=? total_activated_stake g);
  let ct := current_time env in
  _ ← check (useconds_per_day <? u64 (ct - last_claim_time prod));
  _ ← fill_buckets ct;
  g ← gets gstate;
  let producer_per_block_pay := block_pay g prod in
  producer_per_vote_pay ← lift (vote_pay g prod);
  _ ← set_gstate_with (fun g => set_pervote_bucket (i64 (pervote_bucket g - producer_per_vote_pay)) g);
  _ ← set_gstate_with (fun g => set_perblock_bucket (i64 (perblock_bucket g - producer_per_block_pay)) g);
  _ ← set_gstate_with (fun g => set_total_unpaid_blocks (u32 (total_unpaid_blocks g - unpaid_blocks prod)) g);
  _ ← modify _producers 0 owner (fun p => set_unpaid_blocks 0 (set_last_claim_time ct p));
  _ ← (if 0 <? producer_per_block_pay then
         q ← lift (core_asset producer_per_block_pay);
         send_transfer n_bpay owner q (lit "producer block pay")
       else mret tt);
  if 0 <? producer_per_vote_pay then
    q ← lift (core_asset producer_per_vote_pay);
    send_transfer n_vpay owner q (lit "producer vote pay")
  else mret tt.

(** ** Parameters *)
Definition setram (max : Z) : M unit :=
  _ ← require_auth env (ce_self env);
  g ← gets gstate;
  _ ← check (max_ram_size g <? max);
  _ ← check (max <? 1024 * 1024 * 1024 * 1024 * 1024);
  _ ← check (total_ram_bytes_reserved g <? max);
  let delta := i64 (max - max_ram_size g) in
  _ ← modify_market (fun m =>
        let b := ex_base m in
        Ok (ExchangeState (ex_supply m)
          (Connector (Asset (i64 (amount (c_balance b) + delta)) (sym (c_balance b))) (c_weight b)) (ex_quote m), tt));
  _ ← set_gstate_with (set_max_ram_size max);
  modify_st (fun s => set_global (Some (Row (ce_self env) (gstate s))) s).

Definition setparams (params : chain_config) : M unit :=
  _ ← require_auth env n_besio;
  _ ← set_gstate_with (set_gs_params params);
  _ ← check (3 <=? cc_max_authority_depth params);
  _ ← lift (validate_config params);
  send (Set_parameters params).

Definition setpriv (account : account_name) (ispriv : Z) : M unit :=
  _ ← require_auth env (ce_self env);
  send (Set_privileged account (negb (ispriv =? 0))).

Definition rmvproducer (producer : account_name) : M unit :=
  _ ← require_auth env (ce_self env);
  _ ← get_row _producers producer;
  modify _producers 0 producer deactivate.

(** ** Names and accounts *)
Definition bidname (bidder name : account_name) (bid : asset) : M unit :=
  _ ← require_auth env bidder;
  _ ← check (name_suffix name =? name);
  _ ← check (negb (name =? 0));
  _ ← check (Z.land name 15 =? 0);
  _ ← check (Z.land name 496 =? 0);
  _ ← check (negb (ce_is_account env name));
  _ ← check (sym bid =? CORE_SYMBOL);
  _ ← check (0 <? amount bid);
  _ ← send_transfer bidder n_names bid (lit "bid name " ++ to_string name)%list;
  current ← find name_bid_table name;
  match current with
  | None => emplace name_bid_table bidder name (NameBid name bidder (amount bid) (current_time env))
  | Some b =>
      _ ← check (0 <? high_bid b);
      _ ← check (Z.quot (high_bid b) 10 <? i64 (amount bid - high_bid b));
      _ ← check (negb (high_bidder b =? bidder));
      q ← lift (core_asset (high_bid b));
      _ ← send_transfer n_names (high_bidder b) q (lit "refund bid on name " ++ to_string name)%list;
      modify name_bid_table bidder name (fun b => NameBid (newname b) bidder (amount bid) (current_time env))
  end.

Definition newaccount (creator newact : account_name) : M unit :=
  _ ← (if negb (creator =? ce_self env) && has_dot 12 (Z.shiftr newact 4) then
         let suffix := name_suffix newact in
         if suffix =? newact then
           current ← get_row name_bid_table newact;
           _ ← check (high_bidder current =? creator);
           _ ← check (high_bid current <? 0);
           erase name_bid_table newact
         else check (creator =? suffix)
       else mret tt);
  _ ← emplace user_resources_table newact newact (UserResources newact (core 0) (core 0) 0);
  set_resource_limits env newact 0 0 0.

(** ** The contract object *)
Definition get_default_parameters : besio_global_state :=
  GlobalState (ce_params env) (64 * 1024 * 1024 * 1024) 0 0 0 0 0 0 0 0 0 0 zero 0.
Definition construct : M unit :=
  _ ← modify_st (fun s => set_gstate (match global s with Some r => obj r | None => get_default_parameters end) s);
  s ← get;
  match rammarket s with
  | Some _ => mret tt
  | None =>
      system_token_supply ← lift (get_supply (ce_token env) (Lib.name CORE_SYMBOL));
      let supply := amount system_token_supply in
      if 0 <? supply then
        modify_st (set_rammarket (Some (Row (ce_self env)
          (ExchangeState (Asset 100000000000000 S_RAMCORE)
            (Connector (Asset (i64 (free_ram (gstate s))) S_RAM) half)
            (Connector (Asset (Z.quot supply 1000) CORE_SYMBOL) half)))))
      else mret tt
  end.
Definition destruct_contract : M unit := modify_st (fun s => set_global (Some (Row (ce_self env) (gstate s))) s).

Inductive call :=
| Newaccount (creator newact : account_name)
| Native
| Setram (max : Z)
| Setparams (params : chain_config)
| Setpriv (account : account_name) (ispriv : Z)
| Rmvproducer (producer : account_name)
| Bidname (bidder name : account_name) (bid : asset)
| Buyrambytes (pay receiver : account_name) (bytes : Z)
| Buyram (pay receiver : account_name) (quant : asset)
| Sellram (account : account_name) (bytes : Z)
| Delegatebw (from receiver : account_name) (net cpu : asset) (transfer : bool)
| Undelegatebw (from receiver : account_name) (net cpu : asset)
| Refund (owner : account_name)
| Regproducer (producer : account_name) (producer_key : public_key) (url : list ascii) (location : Z)
| Unregprod (producer : account_name)
| Voteproducer (voter_name proxy : account_name) (producers : list account_name)
| Regproxy (proxy : account_name) (isproxy : bool)
| Onblock (timestamp : Z) (producer : account_name)
| Claimrewards (owner : account_name).

Definition run_action (k : call) : M unit :=
  match k with
  | Newaccount c n => newaccount c n
  | Native => mret tt
  | Setram m => setram m
  | Setparams p => setparams p
  | Setpriv a p => setpriv a p
  | Rmvproducer p => rmvproducer p
  | Bidname b n q => bidname b n q
  | Buyrambytes p r b => buyrambytes env p r b
  | Buyram p r q => buyram env p r q
  | Sellram a b => sellram env a b
  | Delegatebw f r n c t => delegatebw env f r n c t
  | Undelegatebw f r n c => undelegatebw env f r n c
  | Refund o => refund env o
  | Regproducer p k u l => regproducer env p k u l
  | Unregprod p => unregprod env p
  | Voteproducer v p ps => voteproducer env v p ps
  | Regproxy p b => regproxy env p b
  | Onblock t p => onblock t p
  | Claimrewards o => claimrewards o
  end.
(** [apply]: the object is made, runs the action, and stores the globals at its end. *)
Definition apply (k : call) : M unit :=
  _ ← construct; _ ← run_action k; destruct_contract.
End contract.

Definition no_globals (c : chain_config) : besio_global_state := GlobalState c 0 0 0 0 0 0 0 0 0 0 0 zero 0.
Definition empty (c : chain_config) : sys := Sys ∅ ∅ None (no_globals c) None ∅ ∅ ∅ ∅ ∅ [].

(** ** Examples: a chain whose token is the one of the token contract's examples, with the
    powers near one, [1 + y * (x - 1)] *)
Module SystemSample.
#[export] Instance sample_lib : SystemLib.
Proof. refine {| CORE_SYMBOL := AssetSample.bes; pow := fun x y => dadd (of_int 1) (dmul y (dsub x (of_int 1))) |}; [by vm_compute|by vm_compute]. Defined.
Definition params : chain_config := ChainConfig 1048576 1000 524288 12 500 20 100 200000 1000 150000 100 3600 600 3888000 4096 4 6.
Definition alice : Z := TokenSample.alice.
Definition bob : Z := TokenSample.bob.
Definition at_time (t : Z) (auths : list account_name) : call_env :=
  CallEnv n_besio auths t (fun _ => true) TokenSample.issued params true.
Definition day : Z := 1577836800000000.
(** Alice stakes 30 and 20 for Bob. *)
Definition staked_for_bob : sys := Eval vm_compute in
  (apply (at_time day [alice]) (Delegatebw alice bob (core 30) (core 20) false) (empty params)).1.
Lemma staked_for_bob_run :
  apply (at_time day [alice]) (Delegatebw alice bob (core 30) (core 20) false) (empty params) = (staked_for_bob, Ok tt).
Proof. by vm_compute. Qed.
End SystemSample.
