(* ===== verification/SystemFrame.v ===== *)
(** * The system contract: what each part leaves alone

    The books of the contract, its tables and totals apart from the weights of votes, and
    the parts of the contract that do not touch them. *)
From Stdlib Require Import Ascii String SpecFloat.
From S2P Require Import Prelude BlockHeaderState Names Asset TransactionContext Token.
From S2P Require Import SystemState SystemVoting SystemStaking SystemContract.

(** ** Reading and writing tables *)
Section table.
Context {K A : Type} `{Countable K} (t : table K A).
Lemma keeps_find {T} (f : sys -> T) k : keeps f (find t k).
Proof. done. Qed.
Lemma keeps_get_row {T} (f : sys -> T) k : keeps f (get_row t k).
Proof. unfold get_row. apply keeps_bind; [done|keeps_step]. Qed.
(** Writing another table. *)
Lemma keeps_table {T} (f : sys -> T) : (forall m s, f (set_rows t m s) = f s) ->
  (forall p k a, keeps f (emplace t p k a)) /\ (forall p k g, keeps f (modify t p k g)) /\ (forall k, keeps f (erase t k)).
Proof. intros Hf. split_and!; intros; unfold emplace, modify, erase; keeps_step; apply keeps_modify; intros; apply Hf. Qed.

Lemma wp_find k Q s : Q (obj <$> rows t s !! k) s -> wp (find t k) Q s.
Proof. done. Qed.
Lemma wp_get_row k Q s : (forall r, rows t s !! k = Some r -> Q (obj r) s) -> wp (get_row t k) Q s.
Proof. intros HQ. unfold wp, get_row, find. run_st. destruct (rows t s !! k) eqn:E; [|done]. cbn. by apply HQ. Qed.
Lemma wp_emplace p k a Q s : (rows t s !! k = None -> Q tt (set_rows t (<[k := Row p a]> (rows t s)) s)) -> wp (emplace t p k a) Q s.
Proof. intros HQ. unfold emplace. do 6 wp_step. bool_to_prop. wp_step. auto. Qed.
Lemma wp_modify_row p k g Q s :
  (forall r, rows t s !! k = Some r -> Q tt (set_rows t (<[k := Row (if p =? 0 then payer r else p) (g (obj r))]> (rows t s)) s)) ->
  wp (modify t p k g) Q s.
Proof. intros HQ. unfold modify. do 6 wp_step. wp_step. apply HQ. by apply of_option_ok in H0. Qed.
Lemma wp_erase k Q s : Q tt (set_rows t (delete k (rows t s)) s) -> wp (erase t k) Q s.
Proof. done. Qed.
End table.
#[export] Hint Resolve keeps_find keeps_get_row : keeps.

(** The same for a preorder that does not look at the table. *)
Section table_moves.
Context {K A : Type} `{Countable K} (t : table K A) (R : sys -> sys -> Prop) `{!PreOrder R}.
Lemma moves_find k : moves R (find t k).
Proof. intros s. cbn. reflexivity. Qed.
Lemma moves_row_get k : moves R (get_row t k).
Proof. unfold get_row. apply moves_bind; [done|apply moves_find|]. intros o. by apply moves_lift. Qed.
Hypothesis blind : forall m s, R s (set_rows t m s).
Lemma moves_emplace p k a : moves R (emplace t p k a).
Proof. intros s. unfold emplace. run_st. destruct (bool_decide _); [|reflexivity]. destruct (storable _ _); [apply blind|reflexivity]. Qed.
Lemma moves_row_modify p k g : moves R (modify t p k g).
Proof. intros s. unfold modify. run_st. destruct (rows t s !! k); [|reflexivity]. destruct (storable _ _); [apply blind|reflexivity]. Qed.
Lemma moves_erase k : moves R (erase t k).
Proof. intros s. apply blind. Qed.
End table_moves.
#[export] Hint Resolve moves_find moves_row_get : moves.
Lemma moves_modify {S} (R : S -> S -> Prop) f : (forall s, R s (f s)) -> moves R (modify_st f).
Proof. intros Hf s. apply Hf. Qed.

(** ** The books *)
Definition inlines (l : list effect) : list (account_name * token_action) :=
  omap (fun e => match e with Inline a t => Some (a, t) | _ => None end) l.
Definition stakes (s : sys) : gmap Z Z := (fun r => staked (obj r)) <$> voters s.
Definition unpaid (s : sys) : gmap Z Z := (fun r => unpaid_blocks (obj r)) <$> producers s.
Definition ram_state (g : besio_global_state) : Z * Z * Z := (max_ram_size g, total_ram_bytes_reserved g, total_ram_stake g).
Definition tables (s : sys) := (delband s, userres s, refunds s, limits s, namebids s, rammarket s, global s).
Definition totals (g : besio_global_state) := (ram_state g, total_unpaid_blocks g, perblock_bucket g, pervote_bucket g).
Definition rest (s : sys) := (tables s, totals (gstate s), unpaid s, inlines (outbox s)).
(** Everything but votes, weights and notifications. *)
Definition books (s : sys) := (rest s, stakes s).
Lemma books_eq s s' : books s' = books s -> rest s' = rest s /\ stakes s' = stakes s.
Proof. intros E. exact (conj (f_equal fst E) (f_equal snd E)). Qed.

Lemma fmap_insert_id {A B} (f : A -> B) (m : gmap Z A) k a b : m !! k = Some a -> f b = f a -> f <$> <[k := b]> m = f <$> m.
Proof. intros Hk Hf. rewrite fmap_insert. apply insert_id. rewrite lookup_fmap, Hk. cbn. by rewrite Hf. Qed.

Lemma inlines_app l l' : inlines (l ++ l') = inlines l ++ inlines l'.
Proof. apply omap_app. Qed.

Lemma keeps_modify_voter p k g : (forall v, staked (g v) = staked v) -> keeps books (modify _voters p k g).
Proof.
  intros Hg s. unfold modify. run_st. cbn [rows set_rows storable _voters any].
  destruct (voters s !! k) as [r|] eqn:E; [|done]. unfold books, rest, stakes. cbn.
  by rewrite (fmap_insert_id _ _ _ _ _ E) by apply Hg.
Qed.
Lemma keeps_modify_producer p k g : (forall v, unpaid_blocks (g v) = unpaid_blocks v) -> keeps books (modify _producers p k g).
Proof.
  intros Hg s. unfold modify. run_st. cbn [rows set_rows storable _producers].
  destruct (producers s !! k) as [r|] eqn:E; [|done]. destruct (negb _); [|done]. unfold books, rest, unpaid. cbn.
  by rewrite (fmap_insert_id _ _ _ _ _ E) by apply Hg.
Qed.
Lemma keeps_gstate_books g : (forall x, totals (g x) = totals x) -> keeps books (set_gstate_with g).
Proof. intros Hg s. unfold books, rest. cbn. by rewrite Hg. Qed.
Lemma keeps_send_books e : inlines [e] = [] -> keeps books (send e).
Proof. intros He s. unfold books, rest. cbn. rewrite inlines_app, He. by rewrite app_nil_r. Qed.
Lemma keeps_gets {S A T} (f : S -> T) (g : S -> A) : keeps f (gets g).
Proof. done. Qed.
#[export] Hint Resolve keeps_gets : keeps.
#[export] Hint Extern 1 (keeps books (modify _voters _ _ _)) => apply keeps_modify_voter; reflexivity : keeps.
#[export] Hint Extern 1 (keeps books (modify _producers _ _ _)) => apply keeps_modify_producer; reflexivity : keeps.
#[export] Hint Extern 1 (keeps books (set_gstate_with _)) => apply keeps_gstate_books; reflexivity : keeps.
#[export] Hint Extern 1 (keeps books (send _)) => apply keeps_send_books; reflexivity : keeps.

Section frame.
Context `{SystemLib} (env : call_env).

Lemma keeps_propagate fuel v : keeps books (propagate_weight_change env fuel v).
Proof.
  revert v. induction fuel as [|fuel IH]; intros v; cbn [propagate_weight_change]; [done|].
  unfold check. keeps_step.
Qed.
Hint Resolve keeps_propagate : keeps.
Lemma keeps_undo_vote v : keeps books (undo_vote env v).
Proof. unfold undo_vote, propagate. keeps_step. Qed.
Lemma keeps_cast_vote w p l b d : keeps books (cast_vote env w p l b d).
Proof. unfold cast_vote, propagate, check. keeps_step. Qed.
Lemma keeps_apply_delta b d : keeps books (apply_delta b d).
Proof. unfold apply_delta, check. destruct d as [? []]. keeps_step. Qed.
Lemma keeps_validate_vote v p l : keeps books (validate_vote v p l).
Proof. unfold validate_vote, check. keeps_step. Qed.
Lemma keeps_activate_stake v : keeps books (activate_stake env v).
Proof. unfold activate_stake. keeps_step. Qed.
Hint Resolve keeps_undo_vote keeps_cast_vote keeps_apply_delta keeps_validate_vote keeps_activate_stake : keeps.
Lemma keeps_update_votes v p l b : keeps books (update_votes env v p l b).
Proof. unfold update_votes, check. keeps_step. Qed.
Lemma keeps_elected t : keeps books (update_elected_producers env t).
Proof. unfold update_elected_producers. keeps_step. Qed.
End frame.
#[export] Hint Resolve keeps_update_votes keeps_elected : keeps.
