(* ===== verification/SystemBooks.v ===== *)
(** * The system contract: delegations, totals and refunds

    What changing a delegation does to each table: the sums of the delegations, the totals of
    the receiver, the refund and the stake of the voter change by the amounts, exactly. *)
From Stdlib Require Import Ascii String SpecFloat.
From S2P Require Import Prelude BlockHeaderState Names Asset TransactionContext Token.
From S2P Require Import SystemState SystemVoting SystemStaking SystemContract SystemFrame.

Section books.
Context `{SystemLib}.

(** ** Amounts of the core token *)
Definition in_core (lo : Z) (a : asset) : Prop := sym a = CORE_SYMBOL /\ lo <= amount a <= max_amount.
Definition held (a b : asset) : Prop := in_core 0 a /\ in_core 0 b.
Definition moved (a b : asset) : Prop := in_core (- max_amount) a /\ in_core (- max_amount) b.

Lemma iadd_exact a b c : in_core (- max_amount) a -> in_core (- max_amount) b -> Lib.iadd a b = Ok c ->
  in_core (- max_amount) c /\ amount c = amount a + amount b.
Proof.
  intros [Sa Ha] [Sb Hb]. unfold Lib.iadd, besio_assert. intros E. bind_ok E as ([] & _ & E). bind_ok E as ([] & E1 & E).
  bind_ok E as ([] & E2 & E). injection E as <-. apply bes_assert_ok in E1, E2. bool_to_prop. unfold in_core. cbn.
  rewrite i64_small in * by (unfold max_amount in *; lia). done.
Qed.
Lemma isub_exact a b c : in_core (- max_amount) a -> in_core (- max_amount) b -> Lib.isub a b = Ok c ->
  in_core (- max_amount) c /\ amount c = amount a - amount b.
Proof.
  intros [Sa Ha] [Sb Hb]. unfold Lib.isub, besio_assert. intros E. bind_ok E as ([] & _ & E). bind_ok E as ([] & E1 & E).
  bind_ok E as ([] & E2 & E). injection E as <-. apply bes_assert_ok in E1, E2. bool_to_prop. unfold in_core. cbn.
  rewrite i64_small in * by (unfold max_amount in *; lia). done.
Qed.
Lemma asset_lt_ok a b x : asset_lt a b = Ok x -> sym a = sym b /\ x = (amount a <? amount b).
Proof. unfold asset_lt, besio_assert. intros E. bind_ok E as ([] & E1 & E). apply bes_assert_ok in E1. bool_to_prop. by injection E. Qed.
Lemma asset_le_ok a b x : asset_le a b = Ok x -> sym a = sym b /\ x = (amount a <=? amount b).
Proof. unfold asset_le, besio_assert. intros E. bind_ok E as ([] & E1 & E). apply bes_assert_ok in E1. bool_to_prop. by injection E. Qed.
Lemma asset_eq_ok a b x : asset_eq a b = Ok x -> sym a = sym b /\ x = (amount a =? amount b).
Proof. unfold asset_eq, besio_assert. intros E. bind_ok E as ([] & E1 & E). apply bes_assert_ok in E1. bool_to_prop. by injection E. Qed.
Lemma and_then_ok a b : and_then a b = Ok true -> a = Ok true /\ b = Ok true.
Proof. unfold and_then. intros E. bind_ok E as ([] & -> & E); [done|]. by injection E. Qed.
Lemma both_zero a b : and_then (asset_eq a (core 0)) (asset_eq b (core 0)) = Ok true -> amount a = 0 /\ amount b = 0.
Proof. intros [[_ E1]%asset_eq_ok [_ E2]%asset_eq_ok]%and_then_ok. cbn in *. lia. Qed.
Lemma in_core_weaken lo lo' a : lo' <= lo -> in_core lo a -> in_core lo' a.
Proof. intros Hle [Hs Ha]. split; [done|lia]. Qed.
Lemma in_core_neg a : in_core (- max_amount) a -> in_core (- max_amount) (asset_neg a) /\ amount (asset_neg a) = - amount a.
Proof. intros [Hs Ha]. unfold in_core, asset_neg. cbn. rewrite i64_small by (unfold max_amount in *; lia). split_and!; (done || lia). Qed.
Lemma in_core_zero lo : lo <= 0 -> in_core lo (core 0).
Proof. intros Hlo. split; [done|]. cbn. unfold max_amount. lia. Qed.

(** ** Delegations *)
Definition delband_ok (m : gmap (Z * Z) (row delegated_bandwidth)) : Prop :=
  forall k r, m !! k = Some r -> held (db_net_weight (obj r)) (db_cpu_weight (obj r)).
(** A weighted sum of what is delegated. *)
Definition delegated (f g : Z * Z -> Z) (s : sys) : Z :=
  map_sum (fun k r => f k * amount (db_net_weight (obj r)) + g k * amount (db_cpu_weight (obj r))) (delband s).

Lemma delegated_insert f g s k r :
  delegated f g (set_delband (<[k := r]> (delband s)) s) = delegated f g s +
    f k * (amount (db_net_weight (obj r)) - match delband s !! k with Some r => amount (db_net_weight (obj r)) | None => 0 end) +
    g k * (amount (db_cpu_weight (obj r)) - match delband s !! k with Some r => amount (db_cpu_weight (obj r)) | None => 0 end).
Proof.
  unfold delegated. cbn [delband set_delband]. destruct (delband s !! k) as [r'|] eqn:E.
  - rewrite (map_sum_update _ _ _ _ _ E). lia.
  - rewrite map_sum_insert by done. lia.
Qed.
Lemma delegated_delete f g s k r : delband s !! k = Some r ->
  amount (db_net_weight (obj r)) = 0 /\ amount (db_cpu_weight (obj r)) = 0 ->
  delegated f g (set_delband (delete k (delband s)) s) = delegated f g s.
Proof. intros E [En Ec]. unfold delegated at 2. rewrite (map_sum_delete _ _ _ _ E), En, Ec. unfold delegated. cbn [delband set_delband]. lia. Qed.

(** The row that is written. *)
Lemma write_delegation_spec from receiver net cpu s : delband_ok (delband s) -> moved net cpu ->
  wp (write_delegation from receiver net cpu)
    (fun _ s' => exists p dbo, s' = set_delband (<[(from, receiver) := Row p dbo]> (delband s)) s /\
      moved (db_net_weight dbo) (db_cpu_weight dbo) /\
      forall f g, delegated f g s' = delegated f g s + f (from, receiver) * amount net + g (from, receiver) * amount cpu) s.
Proof.
  intros Hok [Hn Hc]. unfold write_delegation. wp_step. apply wp_find. cbn [rows del_bandwidth_table].
  destruct (delband s !! (from, receiver)) as [r|] eqn:E; cbn [fmap option_fmap option_map].
  - destruct (Hok _ _ E) as [Hrn Hrc].
    wp_step. wp_step. wp_step. wp_step. apply wp_modify_row. intros r' E'. cbn [rows set_rows del_bandwidth_table] in *.
    assert (r' = r) as -> by congruence.
    match goal with E : Lib.iadd _ net = _ |- _ => apply iadd_exact in E as [N1 N2] end; [|by apply (in_core_weaken 0); [unfold max_amount; lia|]|done].
    match goal with E : Lib.iadd _ cpu = _ |- _ => apply iadd_exact in E as [C1 C2] end; [|by apply (in_core_weaken 0); [unfold max_amount; lia|]|done].
    eexists _, _. split_and!; [reflexivity|done|]. intros f g. rewrite delegated_insert, E. cbn. lia.
  - apply wp_emplace. intros _. cbn [rows set_rows del_bandwidth_table].
    eexists _, _. split_and!; [reflexivity|done|]. intros f g. rewrite delegated_insert, E. cbn. lia.
Qed.

Lemma in_core_checked lo a b : in_core lo a -> asset_le (core 0) a = Ok b -> b = true -> in_core 0 a.
Proof. intros [Hs Ha] [_ ->]%asset_le_ok Hb. cbn in Hb. split; [done|lia]. Qed.

Lemma update_delegation_spec from receiver net cpu s : delband_ok (delband s) -> moved net cpu ->
  wp (update_delegation from receiver net cpu)
    (fun _ s' => delband_ok (delband s') /\ s' = set_delband (delband s') s /\
      forall f g, delegated f g s' = delegated f g s + f (from, receiver) * amount net + g (from, receiver) * amount cpu) s.
Proof.
  intros Hok Hm. unfold update_delegation, check. wp_step. eapply wp_mono; [by apply write_delegation_spec|].
  intros [] s1 (p & dbo & -> & [Hn Hc] & Hsum). wp_step. apply wp_get_row. intros r Hr.
  cbn [rows del_bandwidth_table delband set_delband] in Hr. rewrite lookup_insert_eq in Hr. injection Hr as <-. cbn [obj].
  wp_step. wp_step. wp_step. wp_step. wp_step. wp_step. wp_step. wp_step. wp_step. wp_step.
  assert (held (db_net_weight dbo) (db_cpu_weight dbo)) as Hh by (split; by eapply in_core_checked).
  set (s1 := set_delband _ s) in *.
  assert (Hok1 : delband_ok (delband s1)).
  { intros k r. cbn. intros [[<- <-]|[_ Hk]]%lookup_insert_Some; [done|by eapply Hok]. }
  wp_step.
  - apply wp_erase. cbn [rows set_rows del_bandwidth_table]. split_and!.
    + intros k r. cbn. intros [_ Hk]%lookup_delete_Some. by apply Hok1 in Hk.
    + reflexivity.
    + intros f g. rewrite <- Hsum. eapply delegated_delete; [apply lookup_insert_eq|]. cbn. subst. by apply both_zero.
  - wp_step. done.
Qed.

(** ** Totals *)
Definition userres_ok (m : gmap Z (row user_resources)) : Prop := forall a r, m !! a = Some r ->
  ur_owner (obj r) = a /\ held (ur_net_weight (obj r)) (ur_cpu_weight (obj r)) /\ 0 <= ur_ram_bytes (obj r) < 2 ^ 63.
Definition net_of (s : sys) (a : Z) : Z := match userres s !! a with Some r => amount (ur_net_weight (obj r)) | None => 0 end.
Definition cpu_of (s : sys) (a : Z) : Z := match userres s !! a with Some r => amount (ur_cpu_weight (obj r)) | None => 0 end.
Definition ram_of (s : sys) (a : Z) : Z := match userres s !! a with Some r => ur_ram_bytes (obj r) | None => 0 end.
Definition ram_sum (s : sys) : Z := map_sum (fun _ r => ur_ram_bytes (obj r)) (userres s).
(** The node's limits are those of the row; without a row nothing is granted. *)
Definition limits_ok (s : sys) : Prop := forall a,
  match userres s !! a with
  | Some _ => limits s !! a = Some (ram_of s a, net_of s a, cpu_of s a)
  | None => limits s !! a = None \/ limits s !! a = Some (0, 0, 0)
  end.
Definition with_row (a : Z) (p : account_name) (r : user_resources) (s : sys) : sys := set_userres (<[a := Row p r]> (userres s)) s.

Lemma ram_sum_with a p r s : ram_sum (with_row a p r s) = ram_sum s + ur_ram_bytes r - ram_of s a.
Proof.
  unfold ram_sum, ram_of, with_row. cbn. destruct (userres s !! a) as [r'|] eqn:E.
  - rewrite (map_sum_update _ _ _ _ _ E). cbn. lia.
  - rewrite map_sum_insert by done. cbn. lia.
Qed.
Lemma of_with_row a p r s b :
  net_of (with_row a p r s) b = (if b =? a then amount (ur_net_weight r) else net_of s b) /\
  cpu_of (with_row a p r s) b = (if b =? a then amount (ur_cpu_weight r) else cpu_of s b) /\
  ram_of (with_row a p r s) b = (if b =? a then ur_ram_bytes r else ram_of s b).
Proof.
  unfold net_of, cpu_of, ram_of, with_row. cbn. destruct (Z.eqb_spec b a) as [->|Hne]; [by rewrite lookup_insert_eq|].
  by rewrite lookup_insert_ne by done.
Qed.
Lemma userres_ok_with a p r s : userres_ok (userres s) -> ur_owner r = a -> held (ur_net_weight r) (ur_cpu_weight r) ->
  0 <= ur_ram_bytes r < 2 ^ 63 -> userres_ok (userres (with_row a p r s)).
Proof. intros Hok Ho Hh Hr b r'. cbn. intros [[<- <-]|[_ Hb]]%lookup_insert_Some; [done|by apply Hok]. Qed.
Lemma ram_of_range s a : userres_ok (userres s) -> 0 <= ram_of s a < 2 ^ 63.
Proof. intros Hok. unfold ram_of. destruct (userres s !! a) as [r|] eqn:E; [|lia]. by destruct (Hok _ _ E) as (_ & _ & ?). Qed.

Lemma write_totals_spec from receiver net cpu s : userres_ok (userres s) -> moved net cpu ->
  wp (write_totals from receiver net cpu)
    (fun _ s' => exists p tot, s' = with_row receiver p tot s /\ ur_owner tot = receiver /\
      moved (ur_net_weight tot) (ur_cpu_weight tot) /\ ur_ram_bytes tot = ram_of s receiver /\
      amount (ur_net_weight tot) = net_of s receiver + amount net /\
      amount (ur_cpu_weight tot) = cpu_of s receiver + amount cpu) s.
Proof.
  intros Hok [Hn Hc]. unfold write_totals, ram_of, net_of, cpu_of. wp_step. apply wp_find. cbn [rows user_resources_table].
  destruct (userres s !! receiver) as [r|] eqn:E; cbn [fmap option_fmap option_map].
  - destruct (Hok _ _ E) as (Ho & [Hrn Hrc] & Hram).
    wp_step. wp_step. wp_step. wp_step. apply wp_modify_row. intros r' E'. cbn [rows set_rows user_resources_table] in *.
    assert (r' = r) as -> by congruence.
    match goal with E : Lib.iadd _ net = _ |- _ => apply iadd_exact in E as [N1 N2] end; [|by apply (in_core_weaken 0); [unfold max_amount; lia|]|done].
    match goal with E : Lib.iadd _ cpu = _ |- _ => apply iadd_exact in E as [C1 C2] end; [|by apply (in_core_weaken 0); [unfold max_amount; lia|]|done].
    eexists _, _. split_and!; [reflexivity|done..].
  - apply wp_emplace. intros _. cbn [rows set_rows user_resources_table]. eexists _, _. split_and!; [reflexivity|done..].
Qed.

Lemma wp_set_resource_limits env a ram net cpu Q s :
  (-1 <= ram -> Q tt (set_limits (<[a := (ram, net, cpu)]> (limits s)) s)) -> wp (set_resource_limits env a ram net cpu) Q s.
Proof. intros HQ. unfold set_resource_limits. do 9 wp_step. apply HQ. bool_to_prop. lia. Qed.

(** A row written together with its limits. *)
Lemma limits_ok_with s a p r :
  limits_ok s -> limits_ok (set_limits (<[a := (ur_ram_bytes r, amount (ur_net_weight r), amount (ur_cpu_weight r))]> (limits s)) (with_row a p r s)).
Proof.
  intros Hl b. specialize (Hl b). cbn. unfold net_of, cpu_of, ram_of in *. cbn. destruct (decide (b = a)) as [->|Hne].
  - by rewrite !lookup_insert_eq.
  - by rewrite !lookup_insert_ne by done.
Qed.

Lemma update_totals_spec env from receiver net cpu s : userres_ok (userres s) -> limits_ok s -> moved net cpu ->
  wp (update_totals env from receiver net cpu)
    (fun _ s' => userres_ok (userres s') /\ limits_ok s' /\ s' = set_userres (userres s') (set_limits (limits s') s) /\
      ram_sum s' = ram_sum s /\
      forall a, net_of s' a = net_of s a + (if a =? receiver then amount net else 0) /\
                cpu_of s' a = cpu_of s a + (if a =? receiver then amount cpu else 0)) s.
Proof.
  intros Hok Hl Hm. unfold update_totals, check. wp_step. eapply wp_mono; [by apply write_totals_spec|].
  intros [] s1 (p & tot & -> & Ho & [Hn Hc] & Hram & En & Ec). wp_step. apply wp_get_row. intros r Hr.
  cbn [rows user_resources_table userres with_row set_userres] in Hr. rewrite lookup_insert_eq in Hr. injection Hr as <-. cbn [obj].
  do 9 wp_step. apply wp_set_resource_limits. intros _. wp_step. wp_step.
  assert (held (ur_net_weight tot) (ur_cpu_weight tot)) as Hh by (split; by eapply in_core_checked).
  pose proof (ram_of_range s receiver Hok) as Hrr.
  pose proof (userres_ok_with receiver p tot s Hok Ho Hh ltac:(lia)) as Hok1.
  pose proof (limits_ok_with s receiver p tot Hl) as Hl1. pose proof (ram_sum_with receiver p tot s) as Hs1.
  pose proof (of_with_row receiver p tot s) as Hof. set (s1 := with_row receiver p tot s) in *.
  wp_step.
  - match goal with E : and_then _ _ = Ok true |- _ => apply and_then_ok in E as [[_ Z1]%asset_eq_ok [[_ Z2]%asset_eq_ok [= Z3]]%and_then_ok] end.
    bool_to_prop. cbn [amount core] in *. apply wp_erase. cbn [rows set_rows user_resources_table].
    assert (Hrow : userres s1 !! receiver = Some (Row p tot)) by apply lookup_insert_eq. split_and!.
    + intros b r. cbn [userres set_userres set_limits]. intros [_ Hb]%lookup_delete_Some. by apply Hok1.
    + intros b. specialize (Hl1 b). unfold net_of, cpu_of, ram_of in *. cbn in *. destruct (decide (b = receiver)) as [->|Hne].
      * rewrite lookup_delete_eq. right. rewrite lookup_insert_eq. do 2 f_equal; [f_equal|]; lia.
      * by rewrite lookup_delete_ne by done.
    + reflexivity.
    + unfold ram_sum at 1. cbn. unfold ram_sum in Hs1 at 1. rewrite (map_sum_delete _ _ _ _ Hrow) in Hs1. cbn in Hs1. lia.
    + intros b. destruct (Hof b) as (O1 & O2 & _). unfold net_of, cpu_of in *. cbn in *.
      destruct (Z.eqb_spec b receiver) as [Eb|Hne]; [rewrite Eb, lookup_delete_eq; lia|]. rewrite lookup_delete_ne by done.
      rewrite O1, O2. lia.
  - wp_step. split_and!; [done|done|reflexivity|unfold ram_sum in *; cbn in *; lia|].
    intros b. destruct (Hof b) as (O1 & O2 & _). unfold net_of, cpu_of in *. cbn in *. rewrite O1, O2.
    destruct (Z.eqb_spec b receiver) as [Eb|Hne]; [rewrite Eb|]; lia.
Qed.

(** ** Refunds *)
Definition refunds_ok (m : gmap Z (row refund_request)) : Prop := forall a r, m !! a = Some r ->
  rf_owner (obj r) = a /\ held (rf_net_amount (obj r)) (rf_cpu_amount (obj r)).
Definition refund_of (r : row refund_request) : Z := amount (rf_net_amount (obj r)) + amount (rf_cpu_amount (obj r)).
Definition refunded (s : sys) : Z := map_sum (fun _ => refund_of) (refunds s).

(** What an inline action brings into an account, in the core token. *)
Definition brings (vault : account_name) (c : account_name * token_action) : Z :=
  match c.2 with
  | Transfer t =>
      if Lib.name (sym (t_quantity t)) =? Lib.name CORE_SYMBOL then
        (if t_to t =? vault then amount (t_quantity t) else 0) - (if t_from t =? vault then amount (t_quantity t) else 0)
      else 0
  | _ => 0
  end.
Definition flow (vault : account_name) (l : list (account_name * token_action)) : Z := foldr (fun c n => brings vault c + n) 0 l.
Definition sent (vault : account_name) (s : sys) : Z := flow vault (inlines (outbox s)).
Lemma flow_app v l l' : flow v (l ++ l') = flow v l + flow v l'.
Proof. unfold flow. induction l as [|c l IH]; cbn [foldr app]; lia. Qed.
Lemma sent_app v l e s : sent v (set_outbox (l ++ [e]) s) = flow v (inlines l) + flow v (inlines [e]).
Proof. unfold sent. cbn [outbox set_outbox]. by rewrite inlines_app, flow_app. Qed.

Lemma take_refund_spec r bal rn b : in_core 0 r -> in_core (- max_amount) bal -> take_refund r bal = Ok (rn, b) ->
  held rn b /\ amount rn - amount b = amount r - amount bal.
Proof.
  intros Hr Hb E. unfold take_refund in E. bind_ok E as (d & E1 & E). bind_ok E as (x & [_ ->]%asset_lt_ok & E).
  apply isub_exact in E1 as [[Sd Hd] Ed]; [|by apply (in_core_weaken 0); [unfold max_amount; lia|]|done].
  cbn [amount core] in E. destruct (Z.ltb_spec (amount d) 0); injection E as <- <-.
  - destruct (in_core_neg d) as [[S1 R1] E1]; [done|]. split; [split|]; [by apply in_core_zero|split; [done|lia]|cbn [amount core]; lia].
  - split; [split|]; [split; [done|lia]|by apply in_core_zero|cbn [amount core]; lia].
Qed.
Lemma make_refund_spec bal rn b : in_core (- max_amount) bal -> make_refund bal = Ok (rn, b) ->
  held rn b /\ amount rn - amount b = - amount bal.
Proof.
  intros Hb E. unfold make_refund in E. bind_ok E as (x & [_ ->]%asset_lt_ok & E).
  cbn [amount core] in E. destruct (in_core_neg bal Hb) as [[S1 R1] E1]. destruct Hb as [Sb Hb].
  destruct (Z.ltb_spec (amount bal) 0); injection E as <- <-.
  - split; [split|]; [split; [done|lia]|by apply in_core_zero|cbn [amount core]; lia].
  - split; [split|]; [by apply in_core_zero|split; [done|lia]|cbn [amount core]; lia].
Qed.

Lemma refunds_ok_insert m a p r : refunds_ok m -> rf_owner r = a -> held (rf_net_amount r) (rf_cpu_amount r) ->
  refunds_ok (<[a := Row p r]> m).
Proof. intros Hok Ho Hh b r'. intros [[<- <-]|[_ Hb]]%lookup_insert_Some; [done|by apply Hok]. Qed.
Lemma refunds_ok_delete m a : refunds_ok m -> refunds_ok (delete a m).
Proof. intros Hok b r' [_ Hb]%lookup_delete_Some. by apply Hok. Qed.
Lemma or_else_ok a b x : or_else a b = Ok x -> (a = Ok true /\ x = true) \/ (a = Ok false /\ b = Ok x).
Proof. unfold or_else. intros E. bind_ok E as ([] & -> & E); [left; by injection E|right; done]. Qed.
Lemma not_negative a b x : or_else (asset_lt a (core 0)) (asset_lt b (core 0)) = Ok x -> x = false -> 0 <= amount a /\ 0 <= amount b.
Proof. intros [[_ ->]|[[_ E1]%asset_lt_ok [_ E2]%asset_lt_ok]]%or_else_ok Hx; [done|]. cbn [amount core] in *. subst x. lia. Qed.

Lemma change_refund_spec env from net cpu s : refunds_ok (refunds s) -> moved net cpu ->
  wp (change_refund env from net cpu)
    (fun '(net', cpu', _) s' => refunds_ok (refunds s') /\ s' = set_refunds (refunds s') s /\ held net' cpu' /\
      refunded s' = refunded s - amount net - amount cpu + amount net' + amount cpu') s.
Proof.
  intros Hok [Hn Hc]. unfold change_refund, check. wp_step. apply wp_find. cbn [rows refunds_table].
  destruct (refunds s !! from) as [r|] eqn:E; cbn [fmap option_fmap option_map].
  - destruct (Hok _ _ E) as (Ho & Hrn & Hrc). do 8 wp_step.
    destruct (take_refund_spec _ _ _ _ Hrn Hn H1) as [[Hrn1 Hn1] En]. destruct (take_refund_spec _ _ _ _ Hrc Hc H2) as [[Hrc1 Hc1] Ec].
    wp_step. apply wp_modify_row. intros r' E'. cbn [rows set_rows refunds_table] in *. assert (r' = r) as -> by congruence.
    set (row1 := Row _ _). do 10 wp_step.
    assert (Hsum : map_sum (fun _ => refund_of) (<[from := row1]> (refunds s)) = refunded s - refund_of r + refund_of row1)
      by exact (map_sum_update _ _ _ _ _ E). unfold refund_of in Hsum at 2 3. cbn in Hsum.
    wp_step.
    + wp_step. apply wp_erase. wp_step. cbn [rows set_rows refunds_table refunds set_refunds].
      match goal with E : and_then _ _ = Ok true |- _ => apply both_zero in E end.
      split_and!; [by apply refunds_ok_delete, refunds_ok_insert|reflexivity|done|]. unfold refunded at 1. cbn.
      rewrite (map_sum_delete _ _ from row1) in Hsum by apply lookup_insert_eq. unfold refund_of in Hsum at 1. cbn in Hsum. lia.
    + wp_step. split_and!; [by apply refunds_ok_insert|reflexivity|done|]. unfold refunded at 1. cbn [refunds set_refunds]. lia.
  - wp_step. wp_step. wp_step.
    + do 6 wp_step. destruct (make_refund_spec _ _ _ Hn H1) as [[Hrn1 Hn1] En]. destruct (make_refund_spec _ _ _ Hc H2) as [[Hrc1 Hc1] Ec].
      wp_step. apply wp_emplace. intros _. wp_step. cbn [rows set_rows refunds_table refunds set_refunds].
      split_and!; [by apply refunds_ok_insert|reflexivity|done|]. unfold refunded at 1. cbn [refunds set_refunds].
      rewrite map_sum_insert by done. unfold refund_of at 1. cbn. unfold refunded. lia.
    + wp_step. apply not_negative in H0 as [Zn Zc]; [|done]. destruct Hn, Hc.
      split_and!; [done|by destruct s|split; (split; [done|lia])|lia].
Qed.

(** Amounts of one sign, whose sum is in range. *)
Definition one_way (net cpu : asset) : Prop :=
  moved net cpu /\ - max_amount <= amount net + amount cpu <= max_amount /\
  ((0 <= amount net /\ 0 <= amount cpu) \/ (amount net <= 0 /\ amount cpu <= 0)).

Lemma core_name_refl : (Lib.name CORE_SYMBOL =? Lib.name CORE_SYMBOL) = true.
Proof. apply Z.eqb_refl. Qed.

Lemma wp_send e Q s : Q tt (set_outbox (outbox s ++ [e]) s) -> wp (send e) Q s.
Proof. done. Qed.
Lemma brings_transfer v from to q memo : sym q = CORE_SYMBOL ->
  flow v (inlines [Inline from (Transfer (TransferArgs from to q memo))]) =
    (if to =? v then amount q else 0) - (if from =? v then amount q else 0).
Proof. intros Hs. cbn. unfold brings. cbn. rewrite Hs, Z.eqb_refl. lia. Qed.

Lemma update_refund_spec env source from receiver net cpu transfer s :
  refunds_ok (refunds s) -> one_way net cpu -> source <> n_stake ->
  wp (update_refund env source from receiver net cpu transfer)
    (fun _ s' => refunds_ok (refunds s') /\ s' = set_refunds (refunds s') (set_outbox (outbox s') s) /\
      refunded s' + amount net + amount cpu - sent n_stake s' = refunded s - sent n_stake s /\
      forall v, v <> n_stake -> v <> source -> sent v s' = sent v s) s.
Proof.
  intros Hok (Hm & Hrange & Hsign) Hsrc. unfold update_refund. rewrite (proj2 (Z.eqb_neq _ _) Hsrc). wp_step.
  eapply wp_mono with (Q1 := fun '(net', cpu', _) s1 => refunds_ok (refunds s1) /\ s1 = set_refunds (refunds s1) s /\ held net' cpu' /\
      refunded s1 = refunded s - amount net - amount cpu + amount net' + amount cpu').
  - wp_step; [by apply change_refund_spec|]. wp_step. apply orb_false_iff in E as [_ E]. bool_to_prop.
    rewrite i64_small in E by (unfold max_amount in *; lia).
    split_and!; [done|by destruct s|destruct Hm as [[] []]; split; (split; [done|lia])|lia].
  - intros [[net' cpu'] need] s1 (Hok1 & Hs1 & [Hn Hc] & Hsum). wp_step.
    eapply wp_mono with (Q1 := fun _ s2 => s2 = set_outbox (outbox s2) s1 /\ forall v, sent v s2 = sent v s1).
    { wp_step; [wp_step; apply wp_send; cbv beta|]; apply wp_send; (split; [reflexivity|]); intros v; rewrite sent_app; cbn [outbox set_outbox].
      - rewrite inlines_app, flow_app. unfold sent. cbn. lia.
      - unfold sent. cbn. lia. }
    intros [] s2 [Hs2 Hsent]. wp_step. wp_step. rename a into total. wp_step. wp_step.
    assert (Hr2 : refunds s2 = refunds s1) by (by rewrite Hs2).
    assert (Hsh : s2 = set_refunds (refunds s2) (set_outbox (outbox s2) s)) by (rewrite Hr2, Hs2 at 1; by rewrite Hs1).
    assert (Hsv : forall v, sent v s1 = sent v s) by (intros v; unfold sent; by rewrite Hs1).
    assert (in_core (- max_amount) total /\ amount total = amount net' + amount cpu') as [[St Rt] Et].
    { apply iadd_exact; [apply (in_core_weaken 0); [unfold max_amount; lia|done]..|done]. }
    match goal with E : asset_lt _ _ = Ok _ |- _ => apply asset_lt_ok in E as [_ ->] end. cbn [amount core] in *.
    assert (Hrf : refunded s2 = refunded s1) by (unfold refunded; by rewrite Hr2).
    destruct Hn as [_ Hn], Hc as [_ Hc]. wp_step.
    + unfold send_transfer. apply wp_send. change (refunds (set_outbox _ s2)) with (refunds s2). split_and!.
      * by rewrite Hr2.
      * transitivity (set_outbox (outbox s2 ++ [Inline source (Transfer (TransferArgs source n_stake total (lit "stake bandwidth")))])
          (set_refunds (refunds s2) (set_outbox (outbox s2) s))); [by rewrite <- Hsh|reflexivity].
      * rewrite sent_app, brings_transfer by done. rewrite Z.eqb_refl, (proj2 (Z.eqb_neq _ _) Hsrc).
        change (refunded (set_outbox _ s2)) with (refunded s2). change (flow n_stake (inlines (outbox s2))) with (sent n_stake s2).
        rewrite Hsent, Hsv. lia.
      * intros v Hv1 Hv2. rewrite sent_app, brings_transfer by done. change (flow v (inlines (outbox s2))) with (sent v s2).
        rewrite Hsent, Hsv. destruct (Z.eqb_spec n_stake v), (Z.eqb_spec source v); (done || lia).
    + wp_step. split_and!; [by rewrite Hr2|done|rewrite Hsent, Hsv; lia|]. intros v _ _. by rewrite Hsent, Hsv.
Qed.

Lemma update_refund_any env source from receiver net cpu transfer s :
  refunds_ok (refunds s) -> one_way net cpu ->
  wp (update_refund env source from receiver net cpu transfer)
    (fun _ s' => refunds_ok (refunds s') /\ s' = set_refunds (refunds s') (set_outbox (outbox s') s) /\
      (if source =? n_stake then refunded s' = refunded s /\ sent n_stake s' = sent n_stake s
       else refunded s' + amount net + amount cpu - sent n_stake s' = refunded s - sent n_stake s) /\
      forall v, v <> n_stake -> v <> source -> sent v s' = sent v s) s.
Proof.
  intros Hok Hm. destruct (decide (source = n_stake)) as [->|Hne].
  - unfold update_refund. rewrite Z.eqb_refl. wp_step. split_and!; [done|by destruct s|done..].
  - eapply wp_mono; [by apply update_refund_spec|]. intros _ s' (H1 & H2 & H3 & H4). rewrite (proj2 (Z.eqb_neq _ _) Hne).
    by split_and!.
Qed.

(** ** Stakes of voters *)
Definition stake_of (s : sys) (a : Z) : Z := default 0 (stakes s !! a).
Definition stakes_ok (s : sys) : Prop := forall a z, stakes s !! a = Some z -> 0 <= z < 2 ^ 63.

(** Where a result is not negative, one addition did not wrap around. *)
Lemma i64_nonneg z : - 2 ^ 63 <= z < 2 ^ 64 -> 0 <= i64 z -> i64 z = z /\ 0 <= z < 2 ^ 63.
Proof.
  intros Hz Hi. destruct (decide (z < 2 ^ 63)); [rewrite i64_small in *; lia|]. exfalso. unfold i64 in Hi.
  replace (z + 2 ^ 63) with ((z - 2 ^ 63) + 1 * 2 ^ 64) in Hi by lia. rewrite Z.mod_add, Z.mod_small in Hi; lia.
Qed.

Lemma keeps_b1 env z : keeps books (validate_b1_vesting env z).
Proof. unfold validate_b1_vesting, check. keeps_step. Qed.

Lemma write_stake_spec from d s : stakes_ok s -> - max_amount <= d <= max_amount ->
  wp (write_stake from d) (fun _ s' => stakes s' = <[from := i64 (stake_of s from + d)]> (stakes s) /\ rest s' = rest s) s.
Proof.
  intros Hok Hd. unfold write_stake. wp_step. apply wp_find. cbn [rows _voters].
  destruct (voters s !! from) as [r|] eqn:E; cbn [fmap option_fmap option_map].
  - apply wp_modify_row. intros r' E'. cbn [rows set_rows _voters] in *. assert (r' = r) as -> by congruence.
    split; [|done]. unfold stakes, stake_of, stakes. cbn [voters set_voters]. rewrite fmap_insert. cbn. by rewrite lookup_fmap, E.
  - apply wp_emplace. intros _. cbn [rows set_rows _voters].
    split; [|done]. unfold stakes, stake_of, stakes. cbn [voters set_voters]. rewrite fmap_insert, lookup_fmap, E. cbn.
    rewrite i64_small by (unfold max_amount in *; lia). done.
Qed.

Lemma update_voter_spec env from net cpu s : stakes_ok s -> one_way net cpu ->
  wp (update_voter env from net cpu)
    (fun _ s' => stakes_ok s' /\ rest s' = rest s /\
      forall a, stake_of s' a = stake_of s a + (if a =? from then amount net + amount cpu else 0)) s.
Proof.
  intros Hok (Hm & Hr & _). unfold update_voter, check. wp_step. wp_step.
  match goal with E : Lib.iadd _ _ = Ok _ |- _ => apply iadd_exact in E as [_ ->]; [|apply Hm..] end.
  wp_step. eapply wp_mono; [by apply write_stake_spec|]. intros [] s1 [Hs1 Hrest]. wp_step. apply wp_get_row. intros r Hrow.
  cbn [rows _voters] in Hrow. wp_step. wp_step. match goal with E : (0 <=? staked _) = true |- _ => rename E into Hpos end. bool_to_prop.
  assert (Hst : stakes s1 !! from = Some (staked (obj r))) by (unfold stakes; by rewrite lookup_fmap, Hrow).
  rewrite Hs1, lookup_insert_eq in Hst. injection Hst as Hst. rewrite <- Hst in Hpos.
  assert (0 <= stake_of s from < 2 ^ 63) as Hsf.
  { unfold stake_of. destruct (stakes s !! from) eqn:E; cbn; [by apply Hok in E|lia]. }
  apply i64_nonneg in Hpos as [Hex Hrg]; [|unfold max_amount in *; lia]. rewrite Hex in Hs1.
  assert (Hend : forall s', books s' = books s1 -> stakes_ok s' /\ rest s' = rest s /\
    forall a, stake_of s' a = stake_of s a + (if a =? from then amount net + amount cpu else 0)).
  { intros s' [Eb1 Eb2]%books_eq. unfold stakes_ok, stake_of. rewrite Eb1, Eb2, Hs1. split_and!; [|done|].
    - intros b z [[<- <-]|[_ Ha]]%lookup_insert_Some; [done|by eapply Hok].
    - intros b. destruct (Z.eqb_spec b from) as [->|Hne]; [by rewrite lookup_insert_eq|].
      rewrite lookup_insert_ne by done. lia. }
  wp_step. eapply (wp_keeps books); [keeps_step; apply keeps_b1|]. intros [] s2 Hs2. wp_step.
  - eapply (wp_keeps books); [keeps_step|]. intros [] s3 Hs3. apply Hend. congruence.
  - wp_step. by apply Hend.
Qed.

(** ** A change of bandwidth *)
Record sound (s : sys) : Prop := {
  so_delband : delband_ok (delband s);
  so_userres : userres_ok (userres s);
  so_limits : limits_ok s;
  so_refunds : refunds_ok (refunds s);
  so_stakes : stakes_ok s
}.
Definition aside (s : sys) := (namebids s, rammarket s, global s, totals (gstate s), unpaid s).
(** [n] and [c] are added to what [from] delegates to [receiver]; [source] pays, or
    nobody does where it is [besio.stake]. *)
Record changed (source from receiver : account_name) (n c : Z) (s s' : sys) : Prop := {
  ch_sound : sound s';
  ch_delegated : forall f g, delegated f g s' = delegated f g s + f (from, receiver) * n + g (from, receiver) * c;
  ch_net : forall a, net_of s' a = net_of s a + (if a =? receiver then n else 0);
  ch_cpu : forall a, cpu_of s' a = cpu_of s a + (if a =? receiver then c else 0);
  ch_ram : ram_sum s' = ram_sum s;
  ch_stake : forall a, stake_of s' a = stake_of s a + (if a =? from then n + c else 0);
  ch_refunds : if source =? n_stake then refunded s' = refunded s /\ sent n_stake s' = sent n_stake s
    else refunded s' + n + c - sent n_stake s' = refunded s - sent n_stake s;
  ch_sent : forall v, v <> n_stake -> v <> source -> sent v s' = sent v s;
  ch_aside : aside s' = aside s
}.

(** What depends on some of the tables only. *)
Lemma rest_eq s s' : rest s' = rest s ->
  delband s' = delband s /\ userres s' = userres s /\ refunds s' = refunds s /\ limits s' = limits s /\
  aside s' = aside s /\ forall v, sent v s' = sent v s.
Proof.
  unfold rest, tables, aside, sent, totals, ram_state. intros E. injection E. clear E. intros.
  split_and!; [congruence..|]. intros v. congruence.
Qed.
Lemma delegated_same f g s s' : delband s' = delband s -> delegated f g s' = delegated f g s.
Proof. unfold delegated. by intros ->. Qed.
Lemma limits_ok_same s s' : userres s' = userres s -> limits s' = limits s -> limits_ok s -> limits_ok s'.
Proof. unfold limits_ok, ram_of, net_of, cpu_of. by intros -> ->. Qed.

Lemma changebw_spec env from receiver net cpu (transfer : bool) s : sound s -> one_way net cpu ->
  wp (changebw env from receiver net cpu transfer)
    (fun _ s' => from ∈ ce_auths env /\
      changed from (if transfer then receiver else from) receiver (amount net) (amount cpu) s s') s.
Proof.
  intros [Hd Hu Hl Hr Hs] Hm. pose proof Hm as (Hmv & _). unfold changebw, check, require_auth. do 9 wp_step. wp_step. bool_to_prop. cbv zeta.
  set (f := if transfer then receiver else from).
  wp_step. eapply wp_mono; [by apply update_delegation_spec|]. intros [] s1 (Hd1 & E1 & D1).
  wp_step. eapply wp_mono; [apply update_totals_spec; [by rewrite E1| |done]|].
  { apply (limits_ok_same s); [by rewrite E1..|done]. }
  intros [] s2 (Hu2 & Hl2 & E2 & R2 & T2).
  wp_step. eapply wp_mono; [apply update_refund_any; [by rewrite E2, E1|done]|]. intros [] s3 (Hr3 & E3 & R3 & S3).
  assert (stakes s3 = stakes s) as Es by (by rewrite E3, E2, E1).
  eapply wp_mono; [apply update_voter_spec; [unfold stakes_ok; by rewrite Es|done]|]. intros [] s4 (Hs4 & E4 & S4).
  apply rest_eq in E4 as (F1 & F2 & F3 & F4 & F5 & F6).
  assert (U3 : userres s3 = userres s2) by (by rewrite E3). assert (U1 : userres s1 = userres s) by (by rewrite E1).
  split; [done|]. split.
  - split; [rewrite F1, E3, E2; exact Hd1|by rewrite F2, U3|apply (limits_ok_same s3); [done..|]|by rewrite F3|done].
    apply (limits_ok_same s2); [by rewrite E3..|done].
  - intros f' g'. rewrite <- D1. apply delegated_same. by rewrite F1, E3, E2.
  - intros b. destruct (T2 b) as [T _]. unfold net_of in *. by rewrite F2, U3, T, U1.
  - intros b. destruct (T2 b) as [_ T]. unfold cpu_of in *. by rewrite F2, U3, T, U1.
  - unfold ram_sum in *. by rewrite F2, U3, R2, U1.
  - intros b. rewrite S4. unfold stake_of. by rewrite Es.
  - rewrite !F6. unfold refunded, sent in *. rewrite !F3. rewrite E2, E1 in R3. destruct (from =? n_stake); exact R3.
  - intros v Hv1 Hv2. rewrite F6, S3 by done. unfold sent. by rewrite E2, E1.
  - rewrite F5, E3, E2, E1. done.
Qed.

(** ** A change of RAM *)
Record granted (d : Z) (s s' : sys) : Prop := {
  gr_shape : s' = set_userres (userres s') (set_limits (limits s') s);
  gr_userres : userres_ok (userres s');
  gr_limits : limits_ok s';
  gr_net : forall a, net_of s' a = net_of s a;
  gr_cpu : forall a, cpu_of s' a = cpu_of s a;
  gr_ram : ram_sum s' = ram_sum s + d
}.
Lemma granted_row a p r s : userres_ok (userres s) -> limits_ok s -> ur_owner r = a -> held (ur_net_weight r) (ur_cpu_weight r) ->
  amount (ur_net_weight r) = net_of s a -> amount (ur_cpu_weight r) = cpu_of s a -> 0 <= ur_ram_bytes r < 2 ^ 63 ->
  granted (ur_ram_bytes r - ram_of s a) s
    (set_limits (<[a := (ur_ram_bytes r, amount (ur_net_weight r), amount (ur_cpu_weight r))]> (limits s)) (with_row a p r s)).
Proof.
  intros Hok Hl Ho Hh En Ec Hr. pose proof (of_with_row a p r s) as Hof. pose proof (ram_sum_with a p r s) as Hs. split.
  - done.
  - by apply (userres_ok_with a p r s).
  - by apply limits_ok_with.
  - intros b. destruct (Hof b) as (O & _). unfold net_of in *. cbn in *. rewrite O. destruct (Z.eqb_spec b a) as [Eb|]; [by rewrite Eb, En|done].
  - intros b. destruct (Hof b) as (_ & O & _). unfold cpu_of in *. cbn in *. rewrite O. destruct (Z.eqb_spec b a) as [Eb|]; [by rewrite Eb, Ec|done].
  - unfold ram_sum in *. cbn in *. lia.
Qed.

Lemma i64_limit z : 0 <= z < 2 ^ 64 - 1 -> -1 <= i64 z -> i64 z = z /\ 0 <= z < 2 ^ 63.
Proof.
  intros Hz Hi. destruct (decide (z < 2 ^ 63)); [rewrite i64_small in *; lia|]. exfalso. unfold i64 in Hi.
  replace (z + 2 ^ 63) with ((z - 2 ^ 63) + 1 * 2 ^ 64) in Hi by lia. rewrite Z.mod_add, Z.mod_small in Hi; lia.
Qed.

Lemma write_limits_spec env a p r s : userres_ok (userres s) -> limits_ok s -> ur_owner r = a -> held (ur_net_weight r) (ur_cpu_weight r) ->
  amount (ur_net_weight r) = net_of s a -> amount (ur_cpu_weight r) = cpu_of s a ->
  (-1 <= ur_ram_bytes r -> 0 <= ur_ram_bytes r < 2 ^ 63) ->
  wp (res ← get_row user_resources_table a;
      set_resource_limits env (ur_owner res) (ur_ram_bytes res) (amount (ur_net_weight res)) (amount (ur_cpu_weight res)))
    (fun _ s' => -1 <= ur_ram_bytes r /\ granted (ur_ram_bytes r - ram_of s a) s s') (with_row a p r s).
Proof.
  intros Hok Hl Ho Hh En Ec Hr. wp_step. apply wp_get_row. intros r' Hr'. cbn in Hr'. rewrite lookup_insert_eq in Hr'. injection Hr' as <-.
  cbn [obj]. apply wp_set_resource_limits. intros Hm. split; [done|]. rewrite Ho. exact (granted_row a p r s Hok Hl Ho Hh En Ec (Hr Hm)).
Qed.

Lemma reserve_ram_spec env a b s : userres_ok (userres s) -> limits_ok s -> 0 < b <= max_amount ->
  wp (reserve_ram env a b) (fun _ s' => granted b s s') s.
Proof.
  intros Hok Hl Hb. pose proof (ram_of_range s a Hok) as Hra. unfold reserve_ram. wp_step. apply wp_find. cbn [rows user_resources_table].
  destruct (userres s !! a) as [r|] eqn:E; cbn [fmap option_fmap option_map].
  - destruct (Hok _ _ E) as (Ho & Hh & Hrr). assert (ram_of s a = ur_ram_bytes (obj r)) as Er by (unfold ram_of; by rewrite E).
    wp_step. apply wp_modify_row. intros r' E'. cbn [rows set_rows user_resources_table] in *. assert (r' = r) as -> by congruence.
    eapply wp_mono; [apply (write_limits_spec env a _ (UserResources _ _ _ _) s); try done; unfold net_of, cpu_of; rewrite ?E; try done|].
    + cbn [ur_ram_bytes]. intros Hm. apply i64_limit in Hm as [-> ?]; [lia|unfold max_amount in *; lia].
    + cbn [ur_ram_bytes]. intros [] s' [Hm Hg]. apply i64_limit in Hm as [Hm _]; [|unfold max_amount in *; lia].
      replace b with (i64 (ur_ram_bytes (obj r) + b) - ram_of s a) by lia. done.
  - wp_step. apply wp_emplace. intros _.
    eapply wp_mono; [apply (write_limits_spec env a _ (UserResources _ _ _ _) s); try done; unfold net_of, cpu_of; rewrite ?E; try done|].
    + intros _. cbn. unfold max_amount in Hb. lia.
    + cbn. intros [] s' [_ Hg]. unfold ram_of in Hg. rewrite E in Hg. by rewrite Z.sub_0_r in Hg.
Qed.

Lemma release_ram_spec env a b s : userres_ok (userres s) -> limits_ok s -> 0 < b <= ram_of s a ->
  wp (release_ram env a b) (fun _ s' => granted (- b) s s') s.
Proof.
  intros Hok Hl Hb. pose proof (ram_of_range s a Hok) as Hra. unfold release_ram. wp_step. apply wp_modify_row. intros r E.
  cbn [rows set_rows user_resources_table] in *. destruct (Hok _ _ E) as (Ho & Hh & Hrr).
  assert (ram_of s a = ur_ram_bytes (obj r)) as Er by (unfold ram_of; by rewrite E).
  eapply wp_mono; [apply (write_limits_spec env a _ (UserResources _ _ _ _) s); try done; unfold net_of, cpu_of; rewrite ?E; try done|].
  - cbn [ur_ram_bytes]. rewrite i64_small by lia. lia.
  - cbn [ur_ram_bytes]. rewrite i64_small by lia. intros [] s' [_ Hg]. by replace (- b) with (ur_ram_bytes (obj r) - b - ram_of s a) by lia.
Qed.

Lemma newaccount_spec env creator newact s : userres_ok (userres s) -> limits_ok s ->
  wp (newaccount env creator newact) (fun _ s' => exists s1, (s1 = s \/
    (exists r, namebids s !! newact = Some r /\ high_bid (obj r) < 0 /\ high_bidder (obj r) = creator /\ s1 = set_namebids (delete newact (namebids s)) s))
    /\ granted 0 s1 s') s.
Proof.
  intros Hok Hl. unfold newaccount, check. wp_step.
  eapply wp_mono with (Q1 := fun _ s1 => s1 = s \/
    (exists r, namebids s !! newact = Some r /\ high_bid (obj r) < 0 /\ high_bidder (obj r) = creator /\ s1 = set_namebids (delete newact (namebids s)) s)).
  { wp_step; [wp_step; [|by wp_step; left]|by wp_step; left]. wp_step. apply wp_get_row. intros r Hr. do 4 wp_step. bool_to_prop.
    apply wp_erase. right. exists r. split_and!; (done || lia). }
  intros [] s1 Hs1. assert (userres s1 = userres s /\ limits s1 = limits s) as [Eu El] by (by destruct Hs1 as [->|(r & _ & _ & _ & ->)]).
  wp_step. apply wp_emplace. intros Hnone. apply wp_set_resource_limits. intros _. exists s1. split; [done|].
  cbn [rows set_rows user_resources_table] in *.
  assert (net_of s1 newact = 0 /\ cpu_of s1 newact = 0 /\ ram_of s1 newact = 0) as (E1 & E2 & E3) by (unfold net_of, cpu_of, ram_of; by rewrite Hnone).
  replace 0 with (0 - ram_of s1 newact) at 1 by lia.
  apply (granted_row newact newact (UserResources newact (core 0) (core 0) 0) s1); try done; [by rewrite Eu|by apply (limits_ok_same s)].
Qed.
End books.
