(* ===== verification/SystemTrade.v ===== *)
(** * The system contract: trading RAM

    What buying and selling RAM does, and that the market conserves: whatever the prices
    are, the bytes on sale and the bytes sold add up to the RAM of the chain, the connector
    of tokens grows and shrinks by what was paid, and the supply of the exchange is constant. *)
From Stdlib Require Import Ascii String SpecFloat.
From S2P Require Import Prelude BlockHeaderState Names Asset TransactionContext Token.
From S2P Require Import SystemState SystemVoting SystemStaking SystemContract SystemFrame SystemBooks.

(** ** Arithmetic modulo the width *)
Lemma i64_add_l a b : i64 (i64 a + b) = i64 (a + b).
Proof.
  unfold i64. replace ((a + 2 ^ 63) mod 2 ^ 64 - 2 ^ 63 + b + 2 ^ 63) with ((a + 2 ^ 63) mod 2 ^ 64 + b) by lia.
  rewrite Zplus_mod_idemp_l. f_equal. f_equal. lia.
Qed.
Lemma i64_sub_l a b : i64 (i64 a - b) = i64 (a - b).
Proof. rewrite <- !Z.add_opp_r. apply i64_add_l. Qed.
Lemma i64_sub_r a b : i64 (a - i64 b) = i64 (a - b).
Proof.
  unfold i64. replace (a - ((b + 2 ^ 63) mod 2 ^ 64 - 2 ^ 63) + 2 ^ 63) with (a + 2 ^ 64 - (b + 2 ^ 63) mod 2 ^ 64) by lia.
  rewrite Zminus_mod_idemp_r. f_equal. f_equal. lia.
Qed.
Lemma i64_u64 a : i64 (u64 a) = i64 a.
Proof. unfold i64, u64. by rewrite Zplus_mod_idemp_l. Qed.
Lemma u64_add_l a b : u64 (u64 a + b) = u64 (a + b).
Proof. apply Zplus_mod_idemp_l. Qed.
Lemma i64_sub_u64 a b : i64 (a - u64 b) = i64 (a - b).
Proof.
  unfold i64, u64. replace (a - b mod 2 ^ 64 + 2 ^ 63) with (a + 2 ^ 63 - b mod 2 ^ 64) by lia. rewrite Zminus_mod_idemp_r.
  f_equal. f_equal. lia.
Qed.

Section trade.
Context `{SystemLib}.

(** ** The exchange *)
Definition RAMCORE_supply : Z := 100000000000000.
Record market_syms (ex : exchange_state) : Prop := {
  ms_supply : ex_supply ex = Asset RAMCORE_supply S_RAMCORE;
  ms_base : sym (c_balance (ex_base ex)) = S_RAM;
  ms_quote : sym (c_balance (ex_quote ex)) = CORE_SYMBOL
}.

Lemma lib_asset_ok a s r : lib_asset a s = Ok r -> r = Asset a s /\ - max_amount <= a <= max_amount.
Proof.
  unfold lib_asset, besio_assert, Lib.is_valid, is_amount_within_range. intros E. bind_ok E as ([] & Hv & E). injection E as <-.
  apply bes_assert_ok in Hv. bool_to_prop. cbn in *. done.
Qed.
Lemma to_exchange_ok s c q s' c' r : convert_to_exchange s c q = Ok (s', c', r) -> exists issued,
  s' = Asset (i64 (amount s + issued)) (sym s) /\ r = Asset issued (sym s) /\ - max_amount <= issued <= max_amount /\
  c' = Connector (Asset (i64 (amount (c_balance c) + amount q)) (sym (c_balance c))) (c_weight c).
Proof.
  unfold convert_to_exchange. intros E. bind_ok E as (issued & _ & E). bind_ok E as (out & [-> Ho]%lib_asset_ok & E).
  injection E as <- <- <-. by exists issued.
Qed.
Lemma from_exchange_ok s c q s' c' r : convert_from_exchange s c q = Ok (s', c', r) -> exists out,
  s' = Asset (i64 (amount s - amount q)) (sym s) /\ r = Asset out (sym (c_balance c)) /\ - max_amount <= out <= max_amount /\
  c' = Connector (Asset (i64 (amount (c_balance c) - out)) (sym (c_balance c))) (c_weight c).
Proof.
  unfold convert_from_exchange. intros E. bind_ok E as ([] & _ & E). bind_ok E as (out & _ & E).
  bind_ok E as (r' & [-> Ho]%lib_asset_ok & E). injection E as <- <- <-. by exists out.
Qed.

(** What is converted is of the symbol asked for, and in range. *)
Lemma convert_step_range ex q to ex' r : convert_step ex q to = Ok (ex', r) -> - max_amount <= amount r <= max_amount.
Proof.
  unfold convert_step. repeat case_match; try done; intros E; bind_ok E as ([[s c] r'] & E1 & E); injection E as <- <-;
    (apply to_exchange_ok in E1 as (i & _ & -> & Hi & _) || apply from_exchange_ok in E1 as (i & _ & -> & Hi & _)); done.
Qed.
Lemma convert_range fuel ex q to ex' r : convert fuel ex q to = Ok (ex', r) -> - max_amount <= amount r <= max_amount.
Proof.
  revert ex q. induction fuel as [|fuel IH]; intros ex q; cbn [convert]; [done|]. intros E. bind_ok E as ([ex1 q1] & E1 & E).
  destruct (negb _); [by eapply IH|]. injection E as <- <-. by eapply convert_step_range.
Qed.

(** Through the exchange, from one connector to the other. *)
Lemma convert_buy ex q ex' r : market_syms ex -> sym q = CORE_SYMBOL -> convert convert_depth ex q S_RAM = Ok (ex', r) ->
  market_syms ex' /\ amount (c_balance (ex_base ex')) = i64 (amount (c_balance (ex_base ex)) - amount r) /\
  amount (c_balance (ex_quote ex')) = i64 (amount (c_balance (ex_quote ex)) + amount q).
Proof.
  intros [Ms Mb Mq] Hq. destruct core_fresh as [F1 F2]. unfold convert_depth. cbn [convert]. unfold convert_step.
  rewrite Ms, Mb, Mq, Hq. cbn [sym]. rewrite (proj2 (Z.eqb_neq _ _) F1), (proj2 (Z.eqb_neq _ _) F2), Z.eqb_refl. cbn [negb].
  intros E. bind_ok E as ([ex1 q1] & E1 & E). bind_ok E1 as ([[s1 c1] r1] & (i & -> & -> & Hi & ->)%to_exchange_ok & E1).
  injection E1 as <- <-. cbn [sym amount ex_supply ex_base ex_quote c_balance c_weight] in E.
  change (S_RAM =? S_RAMCORE) with false in E. rewrite Z.eqb_refl in E. cbn [negb] in E. rewrite Mb in E. rewrite Z.eqb_refl in E. cbn [negb] in E.
  bind_ok E as ([ex2 q2] & E2 & E). bind_ok E2 as ([[s2 c2] r2] & (o & -> & -> & Ho & ->)%from_exchange_ok & E2).
  injection E2 as <- <-. cbn [sym amount ex_supply ex_base ex_quote c_balance c_weight] in E. rewrite Mb, Z.eqb_refl in E. cbn [negb] in E.
  injection E as <- <-. cbn. split_and!; [split; cbn; [|done|done]|done|done].
  rewrite i64_sub_l. f_equal. rewrite Z.add_simpl_r, i64_small by (unfold RAMCORE_supply; lia). done.
Qed.
Lemma convert_sell ex q ex' r : market_syms ex -> sym q = S_RAM -> convert convert_depth ex q CORE_SYMBOL = Ok (ex', r) ->
  market_syms ex' /\ amount (c_balance (ex_base ex')) = i64 (amount (c_balance (ex_base ex)) + amount q) /\
  amount (c_balance (ex_quote ex')) = i64 (amount (c_balance (ex_quote ex)) - amount r) /\ sym r = CORE_SYMBOL.
Proof.
  intros [Ms Mb Mq] Hq. destruct core_fresh as [F1 F2]. unfold convert_depth. cbn [convert]. unfold convert_step.
  rewrite Ms, Mb, Mq, Hq. cbn [sym]. change (S_RAM =? S_RAMCORE) with false. rewrite Z.eqb_refl. cbn [negb].
  intros E. bind_ok E as ([ex1 q1] & E1 & E). bind_ok E1 as ([[s1 c1] r1] & (i & -> & -> & Hi & ->)%to_exchange_ok & E1).
  injection E1 as <- <-. cbn [sym amount ex_supply ex_base ex_quote c_balance c_weight] in E.
  rewrite (proj2 (Z.eqb_neq _ _) F2), Z.eqb_refl in E. cbn [negb] in E. rewrite Mb, Mq in E. 
  rewrite (proj2 (Z.eqb_neq _ _) F1), Z.eqb_refl in E. cbn [negb] in E.
  bind_ok E as ([ex2 q2] & E2 & E). bind_ok E2 as ([[s2 c2] r2] & (o & -> & -> & Ho & ->)%from_exchange_ok & E2).
  injection E2 as <- <-. cbn [sym amount ex_supply ex_base ex_quote c_balance c_weight] in E. rewrite Mq, Z.eqb_refl in E. cbn [negb] in E.
  injection E as <- <-. cbn. split_and!; [split; cbn; [|done|done]|done|done|done].
  rewrite i64_sub_l. f_equal. rewrite Z.add_simpl_r, i64_small by (unfold RAMCORE_supply; lia). done.
Qed.

(** What is paid with is one of the three tokens of the market. *)
Lemma convert_paid ex q to ex' r : market_syms ex -> convert convert_depth ex q to = Ok (ex', r) ->
  sym q = CORE_SYMBOL \/ sym q = S_RAM \/ sym q = S_RAMCORE.
Proof.
  intros [Ms Mb Mq] E. unfold convert_depth in E. cbn [convert] in E. bind_ok E as ([ex1 q1] & E1 & _). unfold convert_step in E1.
  rewrite Ms, Mb, Mq in E1. cbn [sym] in E1.
  destruct (Z.eqb_spec (sym q) S_RAMCORE) as [?|_]; [auto|]. destruct (Z.eqb_spec (sym q) S_RAM) as [?|_]; [auto|].
  destruct (Z.eqb_spec (sym q) CORE_SYMBOL) as [?|_]; [auto|]. done.
Qed.

(** ** Trades *)
(** [d] bytes are bought by [who] for [paid]; both are negative for a sale. The market moves
    accordingly if the payment is not in RAM or in shares of the market itself. *)
Record traded (who : account_name) (d paid : Z) (in_token : Prop) (s s' : sys) : Prop := {
  td_userres : userres_ok (userres s');
  td_limits : limits_ok s';
  td_net : forall a, net_of s' a = net_of s a;
  td_cpu : forall a, cpu_of s' a = cpu_of s a;
  td_ram : ram_sum s' = ram_sum s + d;
  td_same : (delband s', refunds s', namebids s', global s', voters s', producers s') =
            (delband s, refunds s, namebids s, global s, voters s, producers s);
  td_totals : totals (gstate s') = (max_ram_size (gstate s), u64 (total_ram_bytes_reserved (gstate s) + d),
      i64 (total_ram_stake (gstate s) + paid), total_unpaid_blocks (gstate s), perblock_bucket (gstate s), pervote_bucket (gstate s));
  td_market : exists r r', rammarket s = Some r /\ rammarket s' = Some r' /\
    (in_token -> market_syms (obj r) -> market_syms (obj r') /\
      amount (c_balance (ex_base (obj r'))) = i64 (amount (c_balance (ex_base (obj r))) - d) /\
      amount (c_balance (ex_quote (obj r'))) = i64 (amount (c_balance (ex_quote (obj r))) + paid));
  td_sent : forall v, v <> who -> v <> n_ram -> v <> n_ramfee -> sent v s' = sent v s
}.

Lemma wp_modify_market {A} (f : exchange_state -> result (exchange_state * A)) Q s :
  (forall r ex a, rammarket s = Some r -> f (obj r) = Ok (ex, a) -> Q a (set_rammarket (Some (Row (payer r) ex)) s)) ->
  wp (modify_market f) Q s.
Proof.
  intros HQ. unfold modify_market. apply wp_bind. change (wp (gets rammarket) ?P s) with (P (rammarket s) s). cbv beta.
  do 5 wp_step. wp_step. wp_step. apply HQ; [by apply of_option_ok in H0|done].
Qed.
(** Transfers among other accounts. *)
Lemma flow_transfer v from to q memo l : v <> from -> v <> to ->
  flow v (inlines (l ++ [Inline from (Transfer (TransferArgs from to q memo))])) = flow v (inlines l).
Proof.
  intros H1 H2. rewrite inlines_app, flow_app. cbn. unfold brings. cbn.
  rewrite (proj2 (Z.eqb_neq to v)), (proj2 (Z.eqb_neq from v)) by congruence. case_match; lia.
Qed.
(** What was set apart from the row and its limits. *)
Lemma granted_traded who d paid (in_token : Prop) s s1 s' : granted d s1 s' ->
  (delband s1, refunds s1, namebids s1, global s1, voters s1, producers s1, userres s1) =
    (delband s, refunds s, namebids s, global s, voters s, producers s, userres s) ->
  totals (gstate s1) = (max_ram_size (gstate s), u64 (total_ram_bytes_reserved (gstate s) + d),
      i64 (total_ram_stake (gstate s) + paid), total_unpaid_blocks (gstate s), perblock_bucket (gstate s), pervote_bucket (gstate s)) ->
  (exists r r', rammarket s = Some r /\ rammarket s1 = Some r' /\
    (in_token -> market_syms (obj r) -> market_syms (obj r') /\
      amount (c_balance (ex_base (obj r'))) = i64 (amount (c_balance (ex_base (obj r))) - d) /\
      amount (c_balance (ex_quote (obj r'))) = i64 (amount (c_balance (ex_quote (obj r))) + paid))) ->
  (forall v, v <> who -> v <> n_ram -> v <> n_ramfee -> sent v s1 = sent v s) ->
  traded who d paid in_token s s'.
Proof.
  intros [Gs G1 G2 G3 G4 G5] Es Et Em Ev. injection Es as E1 E2 E3 E4 E5 E6 E7. split.
  - done.
  - done.
  - intros a. rewrite G3. unfold net_of. by rewrite E7.
  - intros a. rewrite G4. unfold cpu_of. by rewrite E7.
  - rewrite G5. unfold ram_sum. by rewrite E7.
  - rewrite Gs. cbn. congruence.
  - by rewrite Gs.
  - by rewrite Gs.
  - intros v ? ? ?. rewrite <- Ev by done. by rewrite Gs.
Qed.

Definition int64 (z : Z) : Prop := - 2 ^ 63 <= z < 2 ^ 63.
Lemma buyram_spec env pay receiver quant s : userres_ok (userres s) -> limits_ok s ->
  wp (buyram env pay receiver quant)
    (fun _ s' => pay ∈ ce_auths env /\ exists d paid, 0 < d <= max_amount /\
      traded pay d paid (sym quant <> S_RAM /\ sym quant <> S_RAMCORE) s s') s.
Proof.
  intros Hok Hl. unfold buyram, require_auth, check. do 4 wp_step. bool_to_prop. cbv zeta.
  set (qaf := Asset _ _). set (fee := Asset _ _). unfold send_transfer. wp_step. apply wp_send. wp_step.
  eapply wp_mono with (Q1 := fun _ s1 => s1 = set_outbox (outbox s1) s /\
    forall v, v <> pay -> v <> n_ram -> v <> n_ramfee -> sent v s1 = sent v s).
  { wp_step; [apply wp_send|wp_step]; (split; [reflexivity|]); intros v ? ? ?; unfold sent; cbn [outbox set_outbox];
      rewrite !flow_transfer by done; done. }
  intros [] s1 [Es1 Hs1]. wp_step. apply wp_modify_market. intros r ex out Hr Hconv. pose proof (convert_range _ _ _ _ _ _ Hconv) as Hrange.
  do 2 wp_step. bool_to_prop. unfold set_gstate_with. do 4 wp_step.
  eapply wp_mono; [apply (reserve_ram_spec env receiver (amount out)); [cbn; by rewrite Es1| |lia]|].
  { apply (limits_ok_same s); [cbn; by rewrite Es1..|done]. }
  intros [] s' Hg. split; [done|]. exists (amount out), (amount qaf). split; [lia|].
  apply (granted_traded _ _ _ _ s _ s' Hg); [rewrite Es1; reflexivity..| |].
  - exists r, (Row (payer r) ex). split_and!; [by rewrite Es1 in Hr|done|]. intros [Hq1 Hq2] Hms. cbn [obj].
    apply (convert_buy (obj r) qaf); try done. by destruct (convert_paid _ _ _ _ _ Hms Hconv) as [?|[?|?]].
  - intros v H1' H2' H3'. rewrite <- Hs1 by done. done.
Qed.
Lemma wp_buyrambytes env pay receiver bytes Q s :
  (forall q, ((forall r, rammarket s = Some r -> market_syms (obj r)) -> sym q = CORE_SYMBOL) -> wp (buyram env pay receiver q) Q s) ->
  wp (buyrambytes env pay receiver bytes) Q s.
Proof.
  intros HQ. unfold buyrambytes. apply wp_bind. change (wp (gets rammarket) ?P s) with (P (rammarket s) s). cbv beta.
  do 6 wp_step. wp_step. apply of_option_ok in H0. apply lib_asset_ok in H1 as [-> _]. apply HQ. intros Hms.
  match goal with E : convert _ _ _ _ = Ok _ |- _ => by apply convert_sell in E as (_ & _ & _ & Hs); [|apply Hms|] end.
Qed.
Lemma sellram_spec env account bytes s : userres_ok (userres s) -> limits_ok s ->
  wp (sellram env account bytes)
    (fun _ s' => account ∈ ce_auths env /\ exists paid, 0 < bytes <= ram_of s account /\ traded account (- bytes) (- paid) True s s') s.
Proof.
  intros Hok Hl. unfold sellram, require_auth, check. do 5 wp_step. apply wp_get_row. intros row Hrow. cbn [rows user_resources_table] in Hrow.
  do 4 wp_step. bool_to_prop. match goal with E : lib_asset _ _ = _ |- _ => apply lib_asset_ok in E as [-> _] end.
  assert (Hram : ram_of s account = ur_ram_bytes (obj row)) by (unfold ram_of; by rewrite Hrow).
  wp_step. apply wp_modify_market. intros r ex out Hr Hconv. do 2 wp_step. unfold set_gstate_with. do 4 wp_step.
  wp_step. change (wp (gets gstate) ?P ?s) with (P (gstate s) s). cbv beta. do 2 wp_step. wp_step.
  eapply wp_mono; [apply (release_ram_spec env account bytes); [done|by apply (limits_ok_same s)|]|].
  { match goal with |- context [ram_of ?x _] => change (ram_of x account) with (ram_of s account) end. lia. }
  intros [] s1 Hg. unfold send_transfer.
  assert (Ht : traded account (- bytes) (- amount out) True s s1).
  { apply (granted_traded _ _ _ _ s _ s1 Hg); [reflexivity|reflexivity| |done].
    exists r, (Row (payer r) ex). split_and!; [done..|]. intros _ Hms. cbn [obj].
    destruct (convert_sell _ (Asset bytes S_RAM) _ _ Hms eq_refl Hconv) as (C1 & C2 & C3 & _). cbn [amount] in C2.
    rewrite C2, C3. split_and!; [done|f_equal; lia|f_equal; lia]. }
  assert (Hend : forall s', s' = set_outbox (outbox s') s1 -> (forall v, v <> account -> v <> n_ram -> v <> n_ramfee -> sent v s' = sent v s1) ->
    traded account (- bytes) (- amount out) True s s').
  { intros s' Es Hs. destruct Ht as [T1 T2 T3 T4 T5 T6 T7 T8 T9]. split; try (by rewrite Es). intros v ? ? ?. by rewrite Hs, T9. }
  assert (Hr2 : 0 < bytes <= ram_of s account) by lia.
  wp_step. apply wp_send. wp_step.
  - wp_step. wp_step. apply wp_send. split; [done|]. exists (amount out). split; [done|]. apply Hend; [reflexivity|].
    intros v ? ? ?. unfold sent. cbn [outbox set_outbox]. by rewrite !flow_transfer.
  - wp_step. split; [done|]. exists (amount out). split; [done|]. apply Hend; [reflexivity|].
    intros v ? ? ?. unfold sent. cbn [outbox set_outbox]. by rewrite !flow_transfer.
Qed.

(** ** The market *)
Definition base_of (r : row exchange_state) : Z := amount (c_balance (ex_base (obj r))).
Definition quote_of (r : row exchange_state) : Z := amount (c_balance (ex_quote (obj r))).
Record market_ok (s : sys) : Prop := {
  mk_reserved : total_ram_bytes_reserved (gstate s) = u64 (ram_sum s);
  mk_syms : forall r, rammarket s = Some r -> market_syms (obj r);
  mk_base : forall r, rammarket s = Some r -> base_of r = i64 (max_ram_size (gstate s) - ram_sum s)
}.
(** What the tokens of the connector exceed those staked by. *)
Definition own_tokens (s : sys) : option Z := (fun r => i64 (quote_of r - total_ram_stake (gstate s))) <$> rammarket s.

Lemma market_traded who d paid s s' : traded who d paid True s s' -> market_ok s ->
  market_ok s' /\ own_tokens s' = own_tokens s /\ max_ram_size (gstate s') = max_ram_size (gstate s).
Proof.
  intros [_ _ _ _ Hram _ Ht (r & r' & E1 & E2 & E3) _] [M1 M2 M3]. unfold totals, ram_state in Ht. injection Ht as T1 T2 T3 _ _ _.
  destruct (E3 I (M2 r E1)) as (S1 & S2 & S3). split_and!; [split| |done].
  - by rewrite T2, M1, Hram, u64_add_l.
  - intros q Hq. by replace q with r' by congruence.
  - intros q Hq. replace q with r' by congruence. unfold base_of in *. rewrite S2, (M3 r E1), T1, Hram, i64_sub_l. f_equal. lia.
  - unfold own_tokens, quote_of. rewrite E1, E2. cbn. f_equal. rewrite S3, T3. rewrite i64_sub_l, i64_sub_r. f_equal. lia.
Qed.
End trade.
