(* ===== verification/SystemAccounts.v ===== *)
(** * The system contract: every stake is accounted for

    Whatever actions run, the totals of an account are the sums of what is delegated to it,
    the stake a voter votes with is the sum of what it delegates, and the resource limits
    the node enforces are those totals. *)
From Stdlib Require Import Ascii String SpecFloat.
From S2P Require Import Prelude BlockHeaderState Names Asset TransactionContext Token.
From S2P Require Import SystemState SystemVoting SystemStaking SystemContract SystemFrame SystemBooks SystemTrade.

Section accounts.
Context `{SystemLib}.

(** ** Actions that leave the accounts alone *)
Record same_accounts (s s' : sys) : Prop := {
  sa_delband : delband s' = delband s;
  sa_userres : userres s' = userres s;
  sa_refunds : refunds s' = refunds s;
  sa_limits : limits s' = limits s;
  sa_stake : forall a, stake_of s' a = stake_of s a;
  sa_stakes : stakes_ok s -> stakes_ok s'
}.
#[export] Instance same_accounts_preorder : PreOrder same_accounts.
Proof.
  split; [by intros s|]. intros s t u [? ? ? ? A1 A2] [? ? ? ? B1 B2]. split; [congruence..| |auto].
  intros a. by rewrite B1, A1.
Qed.

Lemma same_of_view s s' : delband s' = delband s -> userres s' = userres s -> refunds s' = refunds s -> limits s' = limits s ->
  stakes s' = stakes s -> same_accounts s s'.
Proof. intros. split; [done..| |]; unfold stake_of, stakes_ok; by rewrite H4. Qed.
Lemma moves_view {A} (m : M A) : keeps (fun s => (delband s, userres s, refunds s, limits s, stakes s)) m -> moves same_accounts m.
Proof. intros Hm s. specialize (Hm s). injection Hm as ? ? ? ? ?. by apply same_of_view. Qed.
Lemma moves_books {A} (m : M A) : keeps books m -> moves same_accounts m.
Proof. intros Hm s. destruct (books_eq _ _ (Hm s)) as [(? & ? & ? & ? & _)%rest_eq ?]. by apply same_of_view. Qed.

Lemma moves_emplace_voter p k v : staked v = 0 -> moves same_accounts (emplace _voters p k v).
Proof.
  intros Hv s. unfold emplace. run_st. cbn [rows set_rows storable _voters any].
  destruct (bool_decide _) eqn:E; [|done]. bool_to_prop.
  assert (Hs : stakes (set_voters (<[k := Row p v]> (voters s)) s) = <[k := 0]> (stakes s)).
  { unfold stakes. cbn [voters set_voters]. rewrite fmap_insert. cbn. by rewrite Hv. }
  cbn [fst]. split; try done.
  - intros a. unfold stake_of. rewrite Hs. destruct (decide (a = k)) as [->|Hne]; [|by rewrite lookup_insert_ne].
    rewrite lookup_insert_eq. unfold stakes. by rewrite lookup_fmap, E.
  - intros Hok a z. rewrite Hs. intros [[<- <-]|[_ Ha]]%lookup_insert_Some; [lia|by eapply Hok].
Qed.

Hint Extern 1 (moves same_accounts (modify _producers _ _ _)) => apply moves_row_modify; [apply _|done] : moves.
Hint Extern 1 (moves same_accounts (emplace _producers _ _ _)) => apply moves_emplace; [apply _|done] : moves.
Hint Extern 1 (moves same_accounts (modify name_bid_table _ _ _)) => apply moves_row_modify; [apply _|done] : moves.
Hint Extern 1 (moves same_accounts (emplace name_bid_table _ _ _)) => apply moves_emplace; [apply _|done] : moves.
Hint Extern 1 (moves same_accounts (erase name_bid_table _)) => apply moves_erase; done : moves.
Hint Extern 1 (moves same_accounts (set_gstate_with _)) => apply moves_modify; done : moves.
Hint Extern 1 (moves same_accounts (modify_st _)) => apply moves_modify; done : moves.
Hint Extern 1 (moves same_accounts (send _)) => apply moves_modify; done : moves.
Hint Extern 1 (moves same_accounts (emplace _voters _ _ _)) => apply moves_emplace_voter; reflexivity : moves.
Hint Extern 2 (moves same_accounts _) => apply moves_books; solve [eauto with keeps] : moves.

Section actions.
Context (env : call_env).
Lemma moves_modify_market {A} (f : exchange_state -> result (exchange_state * A)) : moves same_accounts (modify_market f).
Proof. unfold modify_market. moves_step. Qed.
Lemma moves_propagate v : moves same_accounts (propagate env v).
Proof. unfold propagate. moves_step. apply moves_books, keeps_propagate. Qed.
Hint Resolve moves_modify_market moves_propagate : moves.
Lemma moves_construct : moves same_accounts (construct env).
Proof. unfold construct. moves_step. Qed.
Lemma moves_destruct : moves same_accounts (destruct_contract env).
Proof. unfold destruct_contract. moves_step. Qed.

(** The actions that do not concern accounts. *)
Definition touches_accounts (k : call) : bool :=
  match k with
  | Newaccount _ _ | Buyrambytes _ _ _ | Buyram _ _ _ | Sellram _ _ | Delegatebw _ _ _ _ _ | Undelegatebw _ _ _ _ | Refund _ => true
  | _ => false
  end.
Lemma moves_action k : touches_accounts k = false -> moves same_accounts (run_action env k).
Proof.
  destruct k; cbn [run_action touches_accounts]; intros [=];
  unfold setram, setparams, setpriv, rmvproducer, bidname, regproducer, unregprod, voteproducer, regproxy, onblock, close_auction,
    claimrewards, fill_buckets, send_transfer, check, require_auth; moves_step.
Qed.
End actions.

(** ** Actions on accounts *)
(** What is delegated to and by an account. *)
Definition into (a : Z) (k : Z * Z) : Z := if k.2 =? a then 1 else 0.
Definition out_of (a : Z) (k : Z * Z) : Z := if k.1 =? a then 1 else 0.
Definition none (_ : Z * Z) : Z := 0.
Definition booked (s : sys) : Prop := forall a,
  net_of s a = delegated (into a) none s /\ cpu_of s a = delegated none (into a) s /\
  stake_of s a = delegated (out_of a) (out_of a) s.
Definition accounted (s : sys) : Prop := sound s /\ booked s.

Lemma accounted_same s s' : same_accounts s s' -> accounted s -> accounted s'.
Proof.
  intros [E1 E2 E3 E4 E5 E6] [[S1 S2 S3 S4 S5] B]. split.
  - split; [by rewrite E1|by rewrite E2|by apply (limits_ok_same s)|by rewrite E3|auto].
  - intros a. destruct (B a) as (B1 & B2 & B3). rewrite E5, !(delegated_same _ _ s s') by done.
    unfold net_of, cpu_of in *. by rewrite E2.
Qed.
Lemma accounted_changed source from receiver n c s s' : changed source from receiver n c s s' -> accounted s -> accounted s'.
Proof.
  intros [C0 C1 C2 C3 _ C4 _ _ _] [_ B]. split; [done|]. intros a. destruct (B a) as (B1 & B2 & B3).
  rewrite C2, C3, C4, !C1, B1, B2, B3. unfold into, out_of, none. cbn. 
  rewrite (Z.eqb_sym a receiver), (Z.eqb_sym a from). split_and!; repeat case_match; lia.
Qed.
Lemma accounted_traded who d paid P s s' : traded who d paid P s s' -> accounted s -> accounted s'.
Proof.
  intros [T1 T2 T3 T4 _ T5 _ _ _] [[S1 S2 S3 S4 S5] B]. injection T5 as E1 E2 E3 E4 E5 E6. split.
  - split; [by rewrite E1|done|done|by rewrite E2|]. unfold stakes_ok, stakes. by rewrite E5.
  - intros a. destruct (B a) as (B1 & B2 & B3). rewrite T3, T4, !(delegated_same _ _ s s') by done.
    unfold stake_of, stakes in *. by rewrite E5.
Qed.
Lemma accounted_granted d s s' : granted d s s' -> accounted s -> accounted s'.
Proof.
  intros [G1 G2 G3 G4 G5 _] [[S1 S2 S3 S4 S5] B]. split.
  - split; [by rewrite G1|done|done|by rewrite G1|]. rewrite G1. done.
  - intros a. destruct (B a) as (B1 & B2 & B3). rewrite G4, G5, !(delegated_same _ _ s s') by (by rewrite G1).
    unfold stake_of, stakes in *. by rewrite G1.
Qed.

(** Amounts that pass the checks have one sign. *)
Lemma delegate_one_way net cpu total : int64 (amount net) -> int64 (amount cpu) -> sym cpu = CORE_SYMBOL -> sym net = CORE_SYMBOL ->
  0 <= amount cpu -> 0 <= amount net -> (Lib.iadd net cpu = Ok total \/ Lib.iadd cpu net = Ok total) -> 0 < amount total ->
  one_way net cpu /\ one_way (asset_neg net) (asset_neg cpu).
Proof.
  intros Hn Hc Sc Sn Pc Pn Ht Pt.
  assert (amount total = i64 (amount net + amount cpu) /\ amount total <= max_amount) as [Et Rt].
  { destruct Ht as [Ht|Ht]; unfold Lib.iadd, besio_assert in Ht; bind_ok Ht as ([] & _ & Ht); bind_ok Ht as ([] & _ & Ht);
      bind_ok Ht as ([] & T2 & Ht); injection Ht as <-; apply bes_assert_ok in T2; bool_to_prop; cbn; (split; [f_equal|]; lia). }
  rewrite Et in Pt, Rt. destruct (i64_nonneg (amount net + amount cpu)) as [Ex _]; [unfold int64 in *; lia|lia|]. rewrite Ex in *.
  assert (moved net cpu) as Hm by (unfold moved, in_core, max_amount in *; repeat split; (done || lia)).
  destruct (in_core_neg net) as [In En]; [apply Hm|]. destruct (in_core_neg cpu) as [Ic Ec]; [apply Hm|].
  unfold one_way. rewrite En, Ec. split_and!; try done; lia.
Qed.
Lemma delegatebw_spec env from receiver net cpu (transfer : bool) s : sound s -> int64 (amount net) -> int64 (amount cpu) ->
  wp (delegatebw env from receiver net cpu transfer) (fun _ s' => from ∈ ce_auths env /\
    changed from (if transfer then receiver else from) receiver (amount net) (amount cpu) s s') s.
Proof.
  intros Hs Hn Hc. unfold delegatebw, check. do 14 wp_step. wp_step. wp_step.
  match goal with E : asset_le _ cpu = Ok _ |- _ => apply asset_le_ok in E as [Sc ->] end.
  match goal with E : asset_le _ net = Ok _ |- _ => apply asset_le_ok in E as [Sn ->] end.
  match goal with E : asset_lt _ _ = Ok _ |- _ => apply asset_lt_ok in E as [_ ->] end. cbn [amount sym core] in *. bool_to_prop.
  apply changebw_spec; [done|]. by eapply delegate_one_way; eauto.
Qed.
Lemma undelegatebw_spec env from receiver net cpu s : sound s -> int64 (amount net) -> int64 (amount cpu) ->
  wp (undelegatebw env from receiver net cpu) (fun _ s' => from ∈ ce_auths env /\
    changed from from receiver (- amount net) (- amount cpu) s s') s.
Proof.
  intros Hs Hn Hc. unfold undelegatebw, check. do 14 wp_step. wp_step.
  change (wp (gets gstate) ?P ?s) with (P (gstate s) s). cbv beta. do 2 wp_step.
  match goal with E : asset_le _ cpu = Ok _ |- _ => apply asset_le_ok in E as [Sc ->] end.
  match goal with E : asset_le _ net = Ok _ |- _ => apply asset_le_ok in E as [Sn ->] end.
  match goal with E : asset_lt _ _ = Ok _ |- _ => apply asset_lt_ok in E as [_ ->] end. cbn [amount sym core] in *. bool_to_prop.
  assert (one_way net cpu /\ one_way (asset_neg net) (asset_neg cpu)) as [[Hm _] Ho] by (eapply delegate_one_way; eauto).
  eapply wp_mono; [by apply changebw_spec|]. destruct (in_core_neg net (proj1 Hm)) as [_ ->]. by destruct (in_core_neg cpu (proj2 Hm)) as [_ ->].
Qed.
(** The refund leaves [besio.stake] for its owner. *)
Lemma refund_spec env owner s : sound s ->
  wp (refund env owner) (fun _ s' => owner ∈ ce_auths env /\ s' = set_refunds (refunds s') (set_outbox (outbox s') s) /\
    refunds_ok (refunds s') /\
    (owner <> n_stake -> refunded s' - sent n_stake s' = refunded s - sent n_stake s) /\ refunded s' <= refunded s /\
    forall v, v <> n_stake -> v <> owner -> sent v s' = sent v s) s.
Proof.
  intros [_ _ _ Hok _]. unfold refund, require_auth, check. do 3 wp_step. apply wp_get_row. intros r Hr. cbn [rows refunds_table] in Hr.
  destruct (Hok _ _ Hr) as (Ho & Hn & Hc). do 4 wp_step. bool_to_prop.
  match goal with E : Lib.iadd _ _ = Ok ?q |- _ => rename q into q0; apply iadd_exact in E as [[Sq _] Eq] end;
    [|by apply (in_core_weaken 0); [unfold max_amount; lia|]..].
  unfold send_transfer. wp_step. apply wp_send. apply wp_erase. cbn [rows set_rows refunds_table refunds set_refunds set_outbox outbox].
  split_and!; [done|reflexivity|by apply refunds_ok_delete| | |].
  - intros Hne. unfold refunded, sent. cbn [refunds set_refunds set_outbox outbox]. rewrite inlines_app, flow_app, brings_transfer by done.
    rewrite (map_sum_delete _ _ _ _ Hr). rewrite Ho, Z.eqb_refl, (proj2 (Z.eqb_neq owner _)) by done. unfold refund_of at 2. lia.
  - unfold refunded. cbn [refunds set_refunds set_outbox]. rewrite (map_sum_delete _ _ _ _ Hr). unfold refund_of at 2.
    destruct Hn, Hc. lia.
  - intros v Hv1 Hv2. unfold sent. cbn [outbox set_outbox set_refunds]. by rewrite flow_transfer by congruence.
Qed.

Definition typed (k : call) : Prop :=
  match k with
  | Delegatebw _ _ n c _ | Undelegatebw _ _ n c => int64 (amount n) /\ int64 (amount c)
  | Buyram _ _ q | Bidname _ _ q => int64 (amount q)
  | Sellram _ b => int64 b
  | Buyrambytes _ _ b => 0 <= b < 2 ^ 32
  | Setram m => 0 <= m < 2 ^ 64
  | _ => True
  end.
Lemma accounted_run env k s : typed k -> accounted s -> wp (run_action env k) (fun _ s' => accounted s') s.
Proof.
  intros Hk Ha. pose proof Ha as [Hs _]. destruct (touches_accounts k) eqn:Ht.
  2: { apply wp_run. intros s' [] E. apply (accounted_same s); [|done]. pose proof (moves_action env k Ht s) as Hm. by rewrite E in Hm. }
  destruct k; try done; cbn [run_action typed] in *.
  - eapply wp_mono; [apply newaccount_spec; apply Hs|]. intros [] s' (s1 & Hs1 & Hg). eapply accounted_granted; [done|].
    destruct Hs1 as [->|(r & _ & _ & _ & ->)]; [done|]. by apply (accounted_same s).
  - apply wp_buyrambytes. intros q _. eapply wp_mono; [apply buyram_spec; apply Hs|]. intros [] s' (_ & d & p & _ & Htr).
    by eapply accounted_traded.
  - eapply wp_mono; [apply buyram_spec; apply Hs|]. intros [] s' (_ & d & p & _ & Htr). by eapply accounted_traded.
  - eapply wp_mono; [apply sellram_spec; apply Hs|]. intros [] s' (_ & p & _ & Htr). by eapply accounted_traded.
  - destruct Hk. eapply wp_mono; [by apply delegatebw_spec|]. intros [] s' [_ Hc]. by eapply accounted_changed.
  - destruct Hk. eapply wp_mono; [by apply undelegatebw_spec|]. intros [] s' [_ Hc]. by eapply accounted_changed.
  - eapply wp_mono; [by apply refund_spec|]. intros [] s' (_ & Es & Hr & _ & _). destruct Ha as [[S1 S2 S3 S4 S5] B]. split.
    + split; [by rewrite Es|by rewrite Es| |done|by rewrite Es]. apply (limits_ok_same s); [by rewrite Es..|done].
    + intros a. specialize (B a). by rewrite Es.
Qed.

(** ** Reachable states

    From empty tables by any actions; the node takes what the contract sends. *)
Inductive reachable : sys -> Prop :=
| reachable_empty c : reachable (empty c)
| reachable_action env k s s' : reachable s -> typed k -> apply env k s = (s', Ok tt) -> reachable s'
| reachable_sent s l : reachable s -> reachable (set_outbox l s).

Lemma accounted_apply env k s : typed k -> accounted s -> wp (apply env k) (fun _ s' => accounted s') s.
Proof.
  intros Hk Ha. unfold apply. wp_step. apply wp_run. intros s1 [] E1.
  pose proof (moves_construct env s) as H1. rewrite E1 in H1. apply accounted_same in H1; [|done]. 
  wp_step. eapply wp_mono; [by apply accounted_run|]. intros [] s2 H2. apply wp_run. intros s3 [] E3.
  pose proof (moves_destruct env s2) as H3. rewrite E3 in H3. by apply accounted_same in H3.
Qed.
Lemma reachable_accounted s : reachable s -> accounted s.
Proof.
  induction 1 as [c|env k s s' _ IH Hk E|s l _ IH].
  - split; [split|]; try (intros ? ?; cbn; by rewrite ?lookup_empty); intros a; cbn; [by left|done].
  - exact (wp_ok _ _ _ _ _ (accounted_apply env k s Hk IH) E).
  - by apply (accounted_same s).
Qed.

(** C28 In every reachable state, the network and processor weights of an account are exactly
    the sums of what all accounts delegate to it, the stake it votes with is exactly the
    sum of what it delegates, no delegation is negative, and the limits the node enforces for it
    are its weights and RAM, or nothing without a row. *)
Theorem stakes_accounted (s : sys) : reachable s -> forall a,
  net_of s a = delegated (into a) none s /\ cpu_of s a = delegated none (into a) s /\
  stake_of s a = delegated (out_of a) (out_of a) s /\
  (forall to r, delband s !! (a, to) = Some r -> 0 <= amount (db_net_weight (obj r)) /\ 0 <= amount (db_cpu_weight (obj r))) /\
  match userres s !! a with
  | Some r => limits s !! a = Some (ur_ram_bytes (obj r), amount (ur_net_weight (obj r)), amount (ur_cpu_weight (obj r)))
  | None => limits s !! a = None \/ limits s !! a = Some (0, 0, 0)
  end.
Proof.
  intros [[S1 S2 S3 S4 S5] B]%reachable_accounted a. destruct (B a) as (B1 & B2 & B3). split_and!; try done.
  - intros to r Hr. destruct (S1 _ _ Hr) as [[_ Hn] [_ Hc]]. lia.
  - specialize (S3 a). unfold ram_of, net_of, cpu_of in S3. by destruct (userres s !! a).
Qed.
End accounts.

Import SystemSample.
Lemma staked_reachable : reachable staked_for_bob.
Proof. apply (reachable_action (at_time day [alice]) (Delegatebw alice bob (core 30) (core 20) false) (empty params)); [constructor|by split|apply staked_for_bob_run]. Qed.
Lemma stakes_accounted_witness : net_of staked_for_bob bob = delegated (into bob) none staked_for_bob /\ delegated (into bob) none staked_for_bob = 30.
Proof. destruct (stakes_accounted staked_for_bob staked_reachable bob) as (Hn & _). split; [exact Hn|vm_compute; reflexivity]. Defined.
