(* ===== verification/SystemMarket.v ===== *)
(** * The system contract: the RAM market conserves

    The invariant of the market across all actions; the prices play no role in it. *)
From Stdlib Require Import Ascii String SpecFloat.
From S2P Require Import Prelude BlockHeaderState Names Asset TransactionContext Token.
From S2P Require Import SystemState SystemVoting SystemStaking SystemContract SystemFrame SystemBooks SystemTrade SystemAccounts.

Section market.
Context `{SystemLib}.

(** ** Actions that leave the market alone *)
Record same_ram (s s' : sys) : Prop := {
  sr_sum : ram_sum s' = ram_sum s;
  sr_market : rammarket s' = rammarket s;
  sr_state : ram_state (gstate s') = ram_state (gstate s)
}.
#[local] Instance same_ram_preorder : PreOrder same_ram.
Proof. split; [by intros s|]. intros s t u [? ? ?] [? ? ?]. split; congruence. Qed.

Lemma same_ram_books {A} (m : M A) : keeps books m -> moves same_ram m.
Proof.
  intros Hm s. destruct (books_eq _ _ (Hm s)) as [(_ & Eu & _ & _ & Ea & _)%rest_eq _]. unfold aside, totals in Ea. injection Ea as ? ? ? ? ? ? ? ? ? ?.
  split; [unfold ram_sum; by rewrite Eu|done|]. unfold ram_state. congruence.
Qed.
Lemma same_ram_gstate f : (forall g, ram_state (f g) = ram_state g) -> moves same_ram (set_gstate_with f).
Proof. intros Hf s. by split; [..|apply Hf]. Qed.

Hint Extern 1 (moves same_ram (modify _producers _ _ _)) => apply moves_row_modify; [apply _|done] : moves.
Hint Extern 1 (moves same_ram (emplace _producers _ _ _)) => apply moves_emplace; [apply _|done] : moves.
Hint Extern 1 (moves same_ram (emplace _voters _ _ _)) => apply moves_emplace; [apply _|done] : moves.
Hint Extern 1 (moves same_ram (modify _voters _ _ _)) => apply moves_row_modify; [apply _|done] : moves.
Hint Extern 1 (moves same_ram (modify name_bid_table _ _ _)) => apply moves_row_modify; [apply _|done] : moves.
Hint Extern 1 (moves same_ram (emplace name_bid_table _ _ _)) => apply moves_emplace; [apply _|done] : moves.
Hint Extern 1 (moves same_ram (erase refunds_table _)) => apply moves_erase; done : moves.
Hint Extern 1 (moves same_ram (set_gstate_with _)) => apply same_ram_gstate; done : moves.
Hint Extern 1 (moves same_ram (send _)) => apply moves_modify; done : moves.
Hint Extern 2 (moves same_ram _) => apply same_ram_books; solve [eauto with keeps] : moves.

Definition touches_market (k : call) : bool :=
  match k with
  | Newaccount _ _ | Setram _ | Buyrambytes _ _ _ | Buyram _ _ _ | Sellram _ _ | Delegatebw _ _ _ _ _ | Undelegatebw _ _ _ _ => true
  | _ => false
  end.
Lemma same_ram_propagate env v : moves same_ram (propagate env v).
Proof. unfold propagate. moves_step. apply same_ram_books, keeps_propagate. Qed.
Hint Resolve same_ram_propagate : moves.
Lemma same_ram_action env k : touches_market k = false -> moves same_ram (run_action env k).
Proof.
  destruct k; cbn [run_action touches_market]; intros [=];
  unfold setparams, setpriv, rmvproducer, bidname, refund, regproducer, unregprod, voteproducer, regproxy, onblock, close_auction,
    claimrewards, fill_buckets, send_transfer, check, require_auth; moves_step.
Qed.

(** ** The invariant *)
(** [kept s s']: the market is in order, and what the contract itself put in is as before. *)
Definition kept (s s' : sys) : Prop := market_ok s' /\ own_tokens s' = own_tokens s.
Lemma kept_same s s' : same_ram s s' -> market_ok s -> kept s s'.
Proof.
  intros [E1 E2 E3] [M1 M2 M3]. unfold ram_state in E3. injection E3 as E3 E4 E5. split; [split|].
  - by rewrite E4, E1.
  - intros r Hr. apply M2. by rewrite <- E2.
  - intros r Hr. rewrite E1, E3. apply M3. by rewrite <- E2.
  - unfold own_tokens. by rewrite E2, E5.
Qed.
Lemma changed_same source from receiver n c s s' : changed source from receiver n c s s' -> same_ram s s'.
Proof. intros [_ _ _ _ E _ _ _ Ea]. unfold aside, totals in Ea. injection Ea as ? ? ? ? ? ? ? ? ? ?. split; [done|done|unfold ram_state; congruence]. Qed.

Lemma setram_kept env max s : market_ok s -> wp (setram env max) (fun _ s' => kept s s' /\ userres s' = userres s) s.
Proof.
  intros [M1 M2 M3]. unfold setram, require_auth, check. do 3 wp_step.
  change (wp (gets gstate) ?P ?s) with (P (gstate s) s). cbv beta. do 6 wp_step. cbv zeta.
  wp_step. apply wp_modify_market. intros r ex [] Hr Hex. injection Hex as <-. unfold set_gstate_with. do 3 wp_step.
  split; [|done]. split; [split|].
  - exact M1.
  - cbn. intros r' [= <-]. destruct (M2 r Hr) as [S1 S2 S3]. by split.
  - cbn. intros r' [= <-]. unfold base_of in *. cbn. rewrite (M3 r Hr), i64_add_l. rewrite Z.add_comm, i64_add_l. f_equal.
    change (ram_sum _) with (ram_sum s). lia.
  - unfold own_tokens, quote_of. cbn. by rewrite Hr.
Qed.

(** [buyram] does not check the symbol of the payment. Of a symbol that is not traded the market accepts
    nothing; RAM and RAMCORE must not be paid with. *)
Definition not_in_kind (k : call) : Prop := match k with Buyram _ _ q => sym q <> S_RAM /\ sym q <> S_RAMCORE | _ => True end.

Lemma market_run env k s : typed k -> not_in_kind k -> accounted s -> market_ok s ->
  wp (run_action env k) (fun _ s' => kept s s') s.
Proof.
  intros Hk Hp [Hs _] Hm. destruct (touches_market k) eqn:Ht.
  2: { apply wp_run. intros s' [] E. apply kept_same; [|done]. pose proof (same_ram_action env k Ht s) as Hr. by rewrite E in Hr. }
  destruct k; try done; cbn [run_action typed not_in_kind] in *.
  - eapply wp_mono; [apply newaccount_spec; apply Hs|]. intros [] s' (s1 & Hs1 & [G1 _ _ _ _ G2]).
    assert (ram_sum s1 = ram_sum s /\ rammarket s1 = rammarket s /\ gstate s1 = gstate s) as (E1 & E2 & E3)
      by (by destruct Hs1 as [->|(r & _ & _ & _ & ->)]).
    apply kept_same; [|done]. split; [lia|by rewrite G1|by rewrite G1; cbn; rewrite E3].
  - eapply wp_mono; [by apply setram_kept|]. by intros [] s' [? _].
  - apply wp_buyrambytes. intros q Hq. eapply wp_mono; [apply buyram_spec; apply Hs|]. intros [] s' (_ & d & p & _ & Htr).
    assert (Htr' : traded pay d p True s s').
    { destruct Htr as [T1 T2 T3 T4 T5 T6 T7 (r & r' & E1 & E2 & E3) T9]. split; try done. exists r, r'. split_and!; [done..|].
      intros _. apply E3. rewrite Hq by apply Hm. destruct core_fresh. by split. }
    destruct (market_traded _ _ _ _ _ Htr' Hm) as (? & ? & _). by split.
  - eapply wp_mono; [apply buyram_spec; apply Hs|]. intros [] s' (_ & d & p & _ & Htr).
    assert (Htr' : traded pay d p True s s').
    { destruct Htr as [T1 T2 T3 T4 T5 T6 T7 (r & r' & E1 & E2 & E3) T9]. split; try done. exists r, r'. by split_and!; auto. }
    destruct (market_traded _ _ _ _ _ Htr' Hm) as (? & ? & _). by split.
  - eapply wp_mono; [apply sellram_spec; apply Hs|]. intros [] s' (_ & p & _ & Htr).
    destruct (market_traded _ _ _ _ _ Htr Hm) as (? & ? & _). by split.
  - destruct Hk. eapply wp_mono; [by apply delegatebw_spec|]. intros [] s' [_ Hc]. by eapply kept_same, Hm; eapply changed_same.
  - destruct Hk. eapply wp_mono; [by apply undelegatebw_spec|]. intros [] s' [_ Hc]. by eapply kept_same, Hm; eapply changed_same.
Qed.

(** ** Between actions *)
Record at_rest (s : sys) : Prop := {
  ar_accounted : accounted s;
  ar_market : market_ok s;
  ar_global : match global s with Some g => obj g = gstate s | None => rammarket s = None /\ ram_sum s = 0 end
}.
(** What the contract itself put in stays, once there is a market. *)
Definition own_stays (s s' : sys) : Prop := forall q, own_tokens s = Some q -> own_tokens s' = Some q.

Lemma construct_kept env s : at_rest s -> wp (construct env) (fun _ s' => accounted s' /\ market_ok s' /\ own_stays s s') s.
Proof.
  intros [Ha [M1 M2 M3] Hg]. apply wp_run. intros s' [] E.
  assert (accounted s') as Ha'. { pose proof (moves_construct env s) as Hm. rewrite E in Hm. by apply (accounted_same s). }
  revert E. intros E. pose proof E as E0. split; [done|]. revert E. unfold construct. run_st. cbn [rammarket set_gstate].
  set (g := match global s with Some r => obj r | None => get_default_parameters env end).
  assert (Hres : total_ram_bytes_reserved g = u64 (ram_sum s)).
  { unfold g. destruct (global s) as [r|]; [by rewrite Hg|]. destruct Hg as [_ ->]. done. }
  destruct (rammarket s) as [r|] eqn:Er.
  - assert (g = gstate s) as Eg by (unfold g; destruct (global s); [done|by destruct Hg]). clearbody g. subst g. intros [= <-].
    split; [split; cbn; [done|intros r'; rewrite Er; by intros [= <-]; apply M2|intros r'; rewrite Er; by intros [= <-]; apply M3]|].
    intros q. unfold own_tokens. cbn. by rewrite Er.
  - assert (own_tokens s = None) as Ho by (unfold own_tokens; by rewrite Er).
    destruct (get_supply _ _) as [q|e]; [|done]. cbn. destruct (0 <? amount q); intros [= <-]; (split; [split|intros ?; by rewrite Ho]); cbn.
    + done.
    + intros r' [= <-]. by split.
    + intros r' [= <-]. unfold base_of. cbn. unfold free_ram. by rewrite i64_u64, Hres, i64_sub_u64.
    + done.
    + by rewrite Er.
    + by rewrite Er.
Qed.

Lemma apply_kept env k s : typed k -> not_in_kind k -> at_rest s -> wp (apply env k) (fun _ s' => at_rest s' /\ own_stays s s') s.
Proof.
  intros Hk Hp Hr. unfold apply. wp_step. eapply wp_mono; [by apply construct_kept|]. intros [] s1 (A1 & M1 & O1).
  wp_step. apply wp_run. intros s2 [] E2. pose proof (wp_ok _ _ _ _ _ (market_run env k s1 Hk Hp A1 M1) E2) as [M2 O2].
  pose proof (wp_ok _ _ _ _ _ (accounted_run env k s1 Hk A1) E2) as A2. unfold destruct_contract. wp_step. split.
  - split; [by apply (accounted_same s2)|destruct M2 as [? ? ?]; by split|done].
  - intros q Hq. change (own_tokens s2 = Some q). rewrite O2. by apply O1.
Qed.

(** Steps of the chain: an action that succeeds, and the node taking what is sent. *)
Inductive core_step : sys -> sys -> Prop :=
| core_action env k s s' : typed k -> not_in_kind k -> apply env k s = (s', Ok tt) -> core_step s s'
| core_sent s l : core_step s (set_outbox l s).

Lemma core_steps_kept s s' : rtc core_step s s' -> at_rest s -> at_rest s' /\ own_stays s s'.
Proof.
  induction 1 as [s|s s1 s2 Hstep _ IH]; intros Hr; [by split; [|intros q]|].
  assert (at_rest s1 /\ own_stays s s1) as [H1 O1].
  { destruct Hstep as [env k s s1 Hk Hp E|s l]; [exact (wp_ok _ _ _ _ _ (apply_kept env k s Hk Hp Hr) E)|].
    destruct Hr as [A [? ? ?] G]. split; [|by intros q]. split; [by apply (accounted_same s)|by split|done]. }
  destruct (IH H1) as [H2 O2]. split; [done|]. intros q Hq. auto.
Qed.
Lemma empty_at_rest c : at_rest (empty c).
Proof. split; [apply reachable_accounted; constructor|by split|done]. Qed.

(** C31 Whatever RAM is bought and sold at whatever prices, the reserved bytes are the sum of all
    accounts' bytes, the bytes the market offers are the RAM of the chain less that sum, the supply
    of the exchange is the one it was made with, and the tokens of the market exceed those staked for
    RAM by an amount that never changes again, all modulo 64 bits. The one condition is that no
    payment of [buyram] is in RAM or RAMCORE, which [buyram] does not check: it relies on the token
    contract having no such tokens ([paid_in_kind] shows what happens if it has). *)
Theorem ram_market_conserves (c : chain_config) (s : sys) (r : row exchange_state) :
  rtc core_step (empty c) s -> rammarket s = Some r ->
  total_ram_bytes_reserved (gstate s) = u64 (ram_sum s) /\
  base_of r = i64 (max_ram_size (gstate s) - ram_sum s) /\
  ex_supply (obj r) = Asset RAMCORE_supply S_RAMCORE /\
  forall s', rtc core_step s s' -> exists r', rammarket s' = Some r' /\
    i64 (quote_of r' - total_ram_stake (gstate s')) = i64 (quote_of r - total_ram_stake (gstate s)).
Proof.
  intros Hs Hr. destruct (core_steps_kept _ _ Hs (empty_at_rest c)) as [Hrest _]. pose proof Hrest as [_ [M1 M2 M3] _].
  destruct (M2 r Hr) as [S1 S2 S3]. split_and!; [done|by apply M3|done|]. intros s' Hs'.
  destruct (core_steps_kept _ _ Hs' Hrest) as [_ Ho]. specialize (Ho (i64 (quote_of r - total_ram_stake (gstate s)))).
  unfold own_tokens in Ho. rewrite Hr in Ho. specialize (Ho eq_refl). destruct (rammarket s') as [r'|]; [|done]. injection Ho as Ho. by exists r'.
Qed.
End market.

Import SystemSample.
(** A market made at a supply of two million; Alice buys for Bob, who sells a part. *)
Definition market_db : token_db := Eval vm_compute in
  (Token.apply TokenSample.self TokenSample.self [alice] TokenSample.any_account (Issue alice (core 2000000) [])
    (Token.apply TokenSample.self TokenSample.self [TokenSample.self] TokenSample.any_account (Create alice (core 1000000000))
      (TokenDb ∅ ∅ [] [])).1).1.
Definition market_env (a : account_name) : call_env := CallEnv n_besio [a] day (fun _ => true) market_db params true.
Definition bought : sys := Eval vm_compute in (apply (market_env alice) (Buyram alice bob (core 500)) (empty params)).1.
Definition sold : sys := Eval vm_compute in (apply (market_env bob) (Sellram bob 1000000000) bought).1.
Lemma bought_step : core_step (empty params) bought.
Proof. by apply (core_action (market_env alice) (Buyram alice bob (core 500))); [|split|vm_compute]. Qed.
Lemma sold_step : core_step bought sold.
Proof. by apply (core_action (market_env bob) (Sellram bob 1000000000)); vm_compute. Qed.

(** A purchase paid in RAM is accepted, and the market then offers bytes that the chain does not have. *)
Example paid_in_kind : exists s' r, apply (market_env alice) (Buyram alice bob (Asset 500000000 S_RAM)) bought = (s', Ok tt) /\
  rammarket s' = Some r /\ max_ram_size (gstate s') < base_of r + ram_sum s'.
Proof. do 2 eexists. split; [vm_compute; reflexivity|]. split; [reflexivity|by vm_compute]. Qed.

Lemma ram_market_conserves_witness : exists r r', rammarket bought = Some r /\ rammarket sold = Some r' /\
  base_of r = 64 * 1024 * 1024 * 1024 - ram_sum bought /\ 0 < ram_sum sold < ram_sum bought /\
  quote_of r = 2000 + total_ram_stake (gstate bought) /\
  i64 (quote_of r' - total_ram_stake (gstate sold)) = i64 (quote_of r - total_ram_stake (gstate bought)).
Proof.
  destruct (rammarket bought) as [r|] eqn:E; [|vm_compute in E; discriminate E].
  destruct (ram_market_conserves params bought r) as (_ & Hb & _ & Hk).
  - exact (rtc_once _ _ bought_step).
  - exact E.
  - destruct (Hk sold (rtc_once _ _ sold_step)) as (r' & Er' & Hq). exists r, r'.
    split; [reflexivity|]. split; [exact Er'|]. split; [rewrite Hb; vm_compute; reflexivity|]. split; [vm_compute; split; reflexivity|].
    split; [vm_compute in E; injection E as <-; vm_compute; reflexivity|exact Hq].
Defined.
