(* ===== verification/SystemSolvent.v ===== *)
(** * The system contract and the token contract: stakes and bids are backed

    The two contracts together: actions of the system contract, actions of the token contract
    by anyone, and the inline actions the system contract sends, which the node may run in
    any order between them. Between transactions [besio.stake] holds at least what is staked and
    awaiting refund, and [besio.names] at least the highest bids, less what these two accounts
    themselves staked and spent. *)
From Stdlib Require Import Ascii String SpecFloat.
From S2P Require Import Prelude BlockHeaderState Names Asset TransactionContext Token.
From S2P Require Import SystemState SystemVoting SystemStaking SystemContract SystemFrame SystemBooks SystemTrade SystemAccounts.

Section solvent.
Context `{SystemLib}.

(** ** What is owed *)
Definition one (_ : Z * Z) : Z := 1.
Definition owed_stake (s : sys) : Z := delegated one one s + refunded s.
Definition bid_of (r : row name_bid) : Z := Z.max 0 (high_bid (obj r)).
Definition owed_names (s : sys) : Z := map_sum (fun _ => bid_of) (namebids s).
Definition bids_ok (m : gmap Z (row name_bid)) : Prop := forall k r, m !! k = Some r -> newname (obj r) = k /\ int64 (high_bid (obj r)).

(** ** Actions that send no inline actions *)
Definition posted (s : sys) := inlines (outbox s).
Lemma keeps_posted_books {A} (m : M A) : keeps books m -> keeps posted m.
Proof. intros Hm s. destruct (books_eq _ _ (Hm s)) as [Er _]. exact (f_equal snd Er). Qed.
Lemma keeps_posted_send e : inlines [e] = [] -> keeps posted (send e).
Proof. intros He s. unfold posted. cbn. by rewrite inlines_app, He, app_nil_r. Qed.
Lemma keeps_posted_table {K A} `{Countable K} (t : table K A) : (forall m s, posted (set_rows t m s) = posted s) ->
  (forall p k a, keeps posted (emplace t p k a)) /\ (forall p k g, keeps posted (modify t p k g)) /\ (forall k, keeps posted (erase t k)).
Proof. apply keeps_table. Qed.
Lemma keeps_posted_gstate f : keeps posted (set_gstate_with f).
Proof. done. Qed.
Hint Resolve keeps_posted_gstate : keeps.
Hint Extern 1 (keeps posted (modify _ _ _ _)) => apply keeps_posted_table; done : keeps.
Hint Extern 1 (keeps posted (emplace _ _ _ _)) => apply keeps_posted_table; done : keeps.
Hint Extern 1 (keeps posted (erase _ _)) => apply keeps_posted_table; done : keeps.
Hint Extern 1 (keeps posted (send _)) => apply keeps_posted_send; reflexivity : keeps.
Hint Extern 2 (keeps posted _) => apply keeps_posted_books; solve [eauto with keeps] : keeps.

Definition posts (k : call) : bool :=
  match k with
  | Bidname _ _ _ | Buyrambytes _ _ _ | Buyram _ _ _ | Sellram _ _ | Delegatebw _ _ _ _ _ | Undelegatebw _ _ _ _ | Refund _
  | Claimrewards _ => true
  | _ => false
  end.
Lemma keeps_posted_propagate env v : keeps posted (propagate env v).
Proof. unfold propagate. keeps_step. apply keeps_posted_books, keeps_propagate. Qed.
Hint Resolve keeps_posted_propagate : keeps.
Lemma keeps_posted_market {A} (f : exchange_state -> result (exchange_state * A)) : keeps posted (modify_market f).
Proof. unfold modify_market. keeps_step. Qed.
Hint Resolve keeps_posted_market : keeps.
Lemma keeps_posted_action env k : posts k = false -> keeps posted (run_action env k).
Proof.
  destruct k; cbn [run_action posts]; intros [=];
  unfold newaccount, set_resource_limits, setram, setparams, setpriv, rmvproducer, regproducer, unregprod, voteproducer, regproxy, onblock,
    close_auction, check, require_auth; keeps_step.
Qed.

(** ** Actions that leave the bids alone *)
Lemma keeps_bids_books {A} (m : M A) : keeps books m -> keeps namebids m.
Proof. intros Hm s. destruct (books_eq _ _ (Hm s)) as [(_ & _ & _ & _ & Ea & _)%rest_eq _]. unfold aside in Ea. by injection Ea. Qed.
Hint Extern 1 (keeps namebids (set_gstate_with _)) => done : keeps.
Hint Extern 1 (keeps namebids (send _)) => done : keeps.
Hint Extern 1 (keeps namebids (modify _producers _ _ _)) => apply keeps_table; done : keeps.
Hint Extern 1 (keeps namebids (emplace _producers _ _ _)) => apply keeps_table; done : keeps.
Hint Extern 1 (keeps namebids (modify _voters _ _ _)) => apply keeps_table; done : keeps.
Hint Extern 1 (keeps namebids (emplace _voters _ _ _)) => apply keeps_table; done : keeps.
Hint Extern 2 (keeps namebids _) => apply keeps_bids_books; solve [eauto with keeps] : keeps.
Lemma keeps_bids_market {A} (f : exchange_state -> result (exchange_state * A)) : keeps namebids (modify_market f).
Proof. unfold modify_market. keeps_step. Qed.
Lemma keeps_bids_propagate env v : keeps namebids (propagate env v).
Proof. unfold propagate. keeps_step. apply keeps_bids_books, keeps_propagate. Qed.
Hint Resolve keeps_bids_market keeps_bids_propagate : keeps.
Definition touches_bids (k : call) : bool :=
  match k with
  | Newaccount _ _ | Bidname _ _ _ | Onblock _ _ => true
  | _ => touches_accounts k
  end.
Lemma keeps_bids_action env k : touches_bids k = false -> keeps namebids (run_action env k).
Proof.
  destruct k; cbn [run_action touches_bids touches_accounts]; intros [=];
  unfold setram, setparams, setpriv, rmvproducer, regproducer, unregprod, voteproducer, regproxy, claimrewards, fill_buckets, send_transfer,
    check, require_auth; keeps_step.
Qed.

(** ** The transfers of a claim *)
Lemma keeps_sent_posted {A} v (m : M A) : keeps posted m -> keeps (sent v) m.
Proof. intros Hm s. unfold sent. f_equal. apply Hm. Qed.
Lemma keeps_sent_transfer v from to q memo : v <> from -> v <> to -> keeps (sent v) (send_transfer from to q memo).
Proof. intros H1 H2 s. unfold sent, send_transfer, send, modify_st. cbn [fst outbox set_outbox]. by rewrite flow_transfer. Qed.
Lemma keeps_sent_issue v a to q memo : keeps (sent v) (send (Inline a (Issue to q memo))).
Proof. intros s. unfold sent, send, modify_st. cbn [fst outbox set_outbox]. rewrite inlines_app, flow_app. cbn. lia. Qed.
Hint Resolve keeps_sent_issue : keeps.
Hint Extern 3 (keeps (sent _) _) => apply keeps_sent_posted; solve [eauto with keeps] : keeps.
Lemma keeps_sent_claim v env owner : v <> owner -> v = n_stake \/ v = n_names -> keeps (sent v) (claimrewards env owner).
Proof.
  intros Hne Hv. unfold claimrewards, fill_buckets, check, require_auth.
  repeat (keeps_step; try (apply keeps_sent_transfer; [destruct Hv as [-> | ->]; done || done|destruct Hv as [-> | ->]; done || done])).
Qed.

(** ** What the two accounts do themselves

    [actor k]: whose tokens the action moves; it must have signed. *)
Definition actor (k : call) : option account_name :=
  match k with
  | Bidname a _ _ | Buyrambytes a _ _ | Buyram a _ _ | Sellram a _ | Delegatebw a _ _ _ _ | Undelegatebw a _ _ _ | Refund a
  | Claimrewards a => Some a
  | _ => None
  end.
(** What a transfer takes from [v]. *)
Definition takes (v : account_name) (act : token_action) : Z :=
  match act with
  | Transfer t =>
      if Lib.name (sym (t_quantity t)) =? Lib.name CORE_SYMBOL then
        if t_from t =? v then Z.max 0 (amount (t_quantity t))
        else if t_to t =? v then Z.max 0 (- amount (t_quantity t)) else 0
      else 0
  | _ => 0
  end.
Definition taken (v : account_name) (l : list (account_name * token_action)) : Z := foldr (fun c n => takes v c.2 + n) 0 l.
(** For [besio.stake] itself, [changebw] moves no tokens: what it stakes is not backed. *)
Definition staked_by (k : call) : Z :=
  match k with
  | Delegatebw _ _ n c _ => amount n + amount c
  | Undelegatebw _ _ n c => - (amount n + amount c)
  | _ => 0
  end.
(** What [v] draws by an action of its own that sends [l]. *)
Definition draws (k : call) (l : list (account_name * token_action)) (v : account_name) : Z :=
  if decide (actor k = Some v) then taken v l + (if v =? n_stake then staked_by k else 0) else 0.

Lemma brings_takes v c : - takes v c.2 <= brings v c.
Proof. unfold takes, brings. destruct c as [a [?|?|t]]; cbn; repeat case_match; bool_to_prop; try lia; congruence. Qed.
Lemma flow_taken v l : - taken v l <= flow v l.
Proof. induction l as [|c l IH]; cbn; [done|]. fold (taken v l) (flow v l). pose proof (brings_takes v c). lia. Qed.
Lemma taken_app v l l' : taken v (l ++ l') = taken v l + taken v l'.
Proof. unfold taken. induction l as [|c l IH]; cbn [foldr app]; lia. Qed.
Lemma takes_nonneg v act : 0 <= takes v act.
Proof. unfold takes. repeat case_match; lia. Qed.
Lemma taken_nonneg v l : 0 <= taken v l.
Proof. induction l as [|c l IH]; cbn; [done|]. fold (taken v l). pose proof (takes_nonneg v c.2). lia. Qed.

(** ** No action owes more than it sends

    [who] acts, and stakes [d] if it is [besio.stake]. *)
Record gap (who : option account_name) (d : Z) (s s' : sys) : Prop := {
  gp_stake : who <> Some n_stake -> owed_stake s' - sent n_stake s' <= owed_stake s - sent n_stake s;
  gp_names : who <> Some n_names -> owed_names s' - sent n_names s' <= owed_names s - sent n_names s;
  gp_own_stake : who = Some n_stake -> owed_stake s' <= owed_stake s + d;
  gp_own_names : who = Some n_names -> owed_names s' <= owed_names s \/
    owed_names s' - sent n_names s' <= owed_names s - sent n_names s + taken n_names (posted s');
  gp_bids : bids_ok (namebids s) -> bids_ok (namebids s')
}.
Definition quiet (s : sys) := (delband s, refunds s, namebids s, posted s).
Lemma quiet_eq s s' : quiet s' = quiet s -> owed_stake s' = owed_stake s /\ owed_names s' = owed_names s /\
  (forall v, sent v s' = sent v s) /\ posted s' = posted s /\ namebids s' = namebids s.
Proof.
  unfold quiet. intros [= E1 E2 E3 E4]. unfold owed_stake, owed_names, refunded, delegated. rewrite E1, E2, E3.
  split_and!; try done. intros v. unfold sent. fold (posted s') (posted s). by rewrite E4.
Qed.
(** Before and after, other steps may run that touch none of this. *)
Lemma gap_quiet who d s t t' s' : quiet t = quiet s -> quiet s' = quiet t' -> gap who d t t' -> gap who d s s'.
Proof.
  intros (A1 & A2 & A3 & A4 & A5)%quiet_eq (B1 & B2 & B3 & B4 & B5)%quiet_eq [G1 G2 G3 G4 G5].
  by split; rewrite ?B1, ?B2, ?B3, ?B4, ?B5, <- ?A1, <- ?A2, <- ?A3, <- ?A4, <- ?A5.
Qed.
(** Nothing is owed that was not, and the two accounts pay nothing. *)
Lemma gap_views who s s' : delband s' = delband s -> refunds s' = refunds s -> namebids s' = namebids s ->
  (who <> Some n_stake -> sent n_stake s' = sent n_stake s) -> (who <> Some n_names -> sent n_names s' = sent n_names s) -> gap who 0 s s'.
Proof.
  intros E1 E2 E3 E4 E5. split; unfold owed_stake, owed_names, refunded, delegated; rewrite ?E1, ?E2, ?E3.
  - intros Hw. rewrite E4 by done. lia.
  - intros Hw. rewrite E5 by done. lia.
  - lia.
  - by left.
  - done.
Qed.
Lemma gap_same who s s' : quiet s' = quiet s -> gap who 0 s s'.
Proof. intros Hq. pose proof (quiet_eq _ _ Hq) as (_ & _ & Es & _). unfold quiet in Hq. injection Hq as E1 E2 E3 _. by apply gap_views. Qed.

Lemma owed_names_insert (m : gmap Z (row name_bid)) k r : map_sum (fun _ => bid_of) (<[k := r]> m) =
  map_sum (fun _ => bid_of) m + bid_of r - match m !! k with Some r => bid_of r | None => 0 end.
Proof. destruct (m !! k) as [r'|] eqn:E; [rewrite (map_sum_update _ _ _ _ _ E); lia|rewrite map_sum_insert by done; lia]. Qed.
Lemma bids_ok_insert m k p b : bids_ok m -> newname b = k -> int64 (high_bid b) -> bids_ok (<[k := Row p b]> m).
Proof. intros Hok Hn Hb k' r. intros [[<- <-]|[_ Hk]]%lookup_insert_Some; [done|by apply Hok]. Qed.
Lemma core_asset_ok a q : core_asset a = Ok q -> q = core a.
Proof. unfold core_asset. intros E. bind_ok E as ([] & _ & E). by injection E. Qed.

(** A bid pays [besio.names], which pays the bid before back. *)
Definition bid_payments (bidder : account_name) (bid : asset) (old : option (row name_bid)) (m1 m2 : list ascii) : list (account_name * token_action) :=
  (bidder, Transfer (TransferArgs bidder n_names bid m1)) ::
  match old with
  | Some r => [(n_names, Transfer (TransferArgs n_names (high_bidder (obj r)) (core (high_bid (obj r))) m2))]
  | None => []
  end.
Lemma bid_gap bidder name bid b p m1 m2 s s' :
  sym bid = CORE_SYMBOL -> 0 < amount bid -> high_bid b = amount bid -> newname b = name -> int64 (amount bid) ->
  (forall r, namebids s !! name = Some r -> 0 < high_bid (obj r) /\ high_bidder (obj r) <> bidder) ->
  delband s' = delband s -> refunds s' = refunds s -> namebids s' = <[name := Row p b]> (namebids s) ->
  posted s' = posted s ++ bid_payments bidder bid (namebids s !! name) m1 m2 -> gap (Some bidder) 0 s s'.
Proof.
  intros Hsym Hpos Hb Hn H64 Hold E1 E2 E3 E4.
  assert (Es : forall v, sent v s' = sent v s + flow v (bid_payments bidder bid (namebids s !! name) m1 m2)).
  { intros v. unfold sent. fold (posted s') (posted s). by rewrite E4, flow_app. }
  assert (Ef : forall v, flow v (bid_payments bidder bid (namebids s !! name) m1 m2) =
    (if n_names =? v then amount bid else 0) - (if bidder =? v then amount bid else 0) +
    match namebids s !! name with
    | Some r => (if high_bidder (obj r) =? v then high_bid (obj r) else 0) - (if n_names =? v then high_bid (obj r) else 0)
    | None => 0
    end).
  { intros v. unfold bid_payments, flow, brings. destruct (namebids s !! name); cbn; rewrite Hsym, Z.eqb_refl; lia. }
  assert (Eo : owed_names s' = owed_names s + amount bid - match namebids s !! name with Some r => high_bid (obj r) | None => 0 end).
  { unfold owed_names. rewrite E3, owed_names_insert. unfold bid_of at 2 3. cbn [obj]. rewrite Hb.
    destruct (namebids s !! name) as [r|]; [destruct (Hold r eq_refl)|]; lia. }
  assert (owed_stake s' = owed_stake s) as Ek by (unfold owed_stake, delegated, refunded; by rewrite E1, E2).
  split.
  - intros Hw. rewrite Ek, Es, Ef. rewrite (proj2 (Z.eqb_neq bidder n_stake)) by congruence. change (n_names =? n_stake) with false.
    destruct (namebids s !! name) as [r|]; [destruct (Hold r eq_refl); case_match|]; lia.
  - intros Hw. rewrite Eo, Es, Ef. rewrite (proj2 (Z.eqb_neq bidder n_names)) by congruence. rewrite Z.eqb_refl.
    destruct (namebids s !! name) as [r|]; [destruct (Hold r eq_refl); case_match|]; lia.
  - lia.
  - intros [= ->]. right. rewrite Eo, Es, Ef, E4, taken_app, Z.eqb_refl. pose proof (taken_nonneg n_names (posted s)).
    unfold bid_payments. cbn [taken foldr snd]. fold (taken n_names).
    match goal with |- context [takes n_names (Transfer (TransferArgs n_names n_names bid m1)) + ?x] => assert (0 <= x) end.
    { destruct (namebids s !! name) as [r|]; [|done]. cbn [foldr]. pose proof (takes_nonneg n_names (Transfer (TransferArgs n_names (high_bidder (obj r)) (core (high_bid (obj r))) m2))). cbn [snd]. lia. }
    unfold takes at 1. cbn [t_quantity t_from t_to]. rewrite Hsym, !Z.eqb_refl.
    destruct (namebids s !! name) as [r|]; [destruct (Hold r eq_refl); case_match|]; lia.
  - intros Hok. rewrite E3. apply bids_ok_insert; [done|done|]. by rewrite Hb.
Qed.
Lemma bidname_gap env bidder name bid s : int64 (amount bid) -> bids_ok (namebids s) ->
  wp (bidname env bidder name bid) (fun _ s' => gap (Some bidder) 0 s s') s.
Proof.
  intros Hb Hok. unfold bidname, require_auth, check. do 16 wp_step. bool_to_prop. unfold send_transfer. wp_step. apply wp_send.
  wp_step. apply wp_find. cbn [rows name_bid_table namebids set_outbox].
  destruct (namebids s !! name) as [r|] eqn:E; cbn [fmap option_fmap option_map].
  - destruct (Hok _ _ E) as [Enm Hhb]. do 8 wp_step. bool_to_prop.
    match goal with E : core_asset _ = Ok _ |- _ => apply core_asset_ok in E as -> end.
    wp_step. apply wp_send. apply wp_modify_row. cbn [rows set_rows name_bid_table namebids set_namebids set_outbox outbox]. intros r' E'.
    assert (r' = r) as -> by congruence. 
    apply (bid_gap bidder name bid (NameBid (newname (obj r)) bidder (amount bid) (current_time env)) (if bidder =? 0 then payer r else bidder)
      (lit "bid name " ++ to_string name) (lit "refund bid on name " ++ to_string name)); try done.
    { rewrite E. by intros ? [= <-]. }
    rewrite E. unfold posted. cbn [outbox set_outbox set_namebids]. rewrite !inlines_app, <- app_assoc. reflexivity.
  - apply wp_emplace. cbn [rows set_rows name_bid_table namebids set_namebids set_outbox outbox]. intros _.
    apply (bid_gap bidder name bid (NameBid name bidder (amount bid) (current_time env)) bidder (lit "bid name " ++ to_string name) []);
      try done; rewrite E; [done|]. unfold posted. cbn [outbox set_outbox set_namebids]. by rewrite inlines_app.
Qed.

Lemma highbid_in s b l : highbid s = b :: l -> exists k p, namebids s !! k = Some (Row p b).
Proof.
  intros E. assert (b ∈ (fun kr : Z * row name_bid => obj kr.2) <$> map_to_list (namebids s)) as Hb.
  { rewrite <- (merge_sort_Permutation bid_order). fold (highbid s). rewrite E. by left. }
  apply list_elem_of_fmap in Hb as ([k [p b']] & -> & Hk). apply elem_of_map_to_list in Hk. by exists k, p.
Qed.
Lemma close_auction_gap env t s : bids_ok (namebids s) -> wp (close_auction env t) (fun _ s' => gap None 0 s s') s.
Proof.
  intros Hok. unfold close_auction. wp_step. wp_step. destruct (highbid s) as [|b l] eqn:E; [wp_step; by apply gap_same|].
  destruct (highbid_in _ _ _ E) as (k & p & Hk). destruct (Hok _ _ Hk) as [<- Hb]. cbn [obj] in *.
  wp_step; [|wp_step; by apply gap_same]. bool_to_prop. unfold set_gstate_with. wp_step. wp_step. apply wp_modify_row.
  cbn [rows set_rows name_bid_table namebids set_gstate]. intros r Hr. assert (r = Row p b) as -> by congruence. cbn [obj payer].
  split; cbn [namebids set_namebids]; try done.
  - intros _. unfold owed_names. cbn [namebids set_namebids]. rewrite owed_names_insert, Hk. unfold bid_of at 2 3. cbn [high_bid obj].
    match goal with |- _ - sent n_names ?x <= _ => change (sent n_names x) with (sent n_names s) end.
    rewrite i64_small by (unfold int64 in Hb; lia). lia.
  - intros _. apply bids_ok_insert; [done|done|]. cbn. rewrite i64_small by (unfold int64 in Hb; lia). unfold int64 in *. lia.
Qed.

Lemma keeps_quiet_books {A} (m : M A) : keeps books m -> keeps quiet m.
Proof.
  intros Hm s. destruct (books_eq _ _ (Hm s)) as [Er _]. pose proof (rest_eq _ _ Er) as (E1 & _ & E2 & _ & Ea & _).
  unfold quiet, posted. unfold aside in Ea. injection Ea as E3 _ _ _ _ _ _ _ _ _. rewrite E1, E2, E3. f_equal. exact (f_equal snd Er).
Qed.
Hint Extern 1 (keeps quiet (set_gstate_with _)) => done : keeps.
Hint Extern 1 (keeps quiet (modify _producers _ _ _)) => apply keeps_table; done : keeps.
Hint Extern 2 (keeps quiet _) => apply keeps_quiet_books; solve [eauto with keeps] : keeps.

Lemma onblock_gap env t p s : bids_ok (namebids s) -> wp (onblock env t p) (fun _ s' => gap None 0 s s') s.
Proof.
  intros Hok. unfold onblock, require_auth.
  wp_step. eapply (wp_keeps quiet); [keeps_step|]. intros _ s1 E1.
  wp_step. eapply (wp_keeps quiet); [keeps_step|]. intros g s2 E2. wp_step; [wp_step; apply gap_same; congruence|].
  wp_step. eapply (wp_keeps quiet); [keeps_step|]. intros _ s3 E3.
  wp_step. eapply (wp_keeps quiet); [keeps_step|]. intros o s4 E4.
  wp_step. eapply (wp_keeps quiet); [keeps_step|]. intros _ s5 E5.
  wp_step. eapply (wp_keeps quiet); [keeps_step|]. intros g' s6 E6. wp_step; [|wp_step; apply gap_same; congruence].
  wp_step. eapply (wp_keeps quiet); [keeps_step|]. intros _ s7 E7.
  wp_step. eapply (wp_keeps quiet); [keeps_step|]. intros g'' s8 E8.
  assert (Eq : quiet s8 = quiet s) by congruence. wp_step; [|wp_step; by apply gap_same].
  eapply wp_mono; [apply close_auction_gap|].
  - unfold quiet in Eq. injection Eq as _ _ -> _. done.
  - intros [] s9 Hg. by apply (gap_quiet _ _ _ s8 s9).
Qed.

Lemma gap_changed source from receiver n c s s' : changed source from receiver n c s s' -> gap (Some source) (n + c) s s'.
Proof.
  intros [_ C1 _ _ _ _ C2 C3 C4]. unfold aside in C4. injection C4 as E _ _ _ _ _ _ _ _ _. split.
  - intros Hw. rewrite (proj2 (Z.eqb_neq source n_stake)) in C2 by congruence. unfold owed_stake. rewrite C1. unfold one. lia.
  - intros Hw. unfold owed_names. rewrite E, C3 by (done || congruence). done.
  - intros [= ->]. change (n_stake =? n_stake) with true in C2. destruct C2 as [C2 _]. unfold owed_stake. rewrite C1. unfold one. lia.
  - intros _. left. unfold owed_names. by rewrite E.
  - by rewrite E.
Qed.
Lemma gap_traded who d paid P s s' : traded who d paid P s s' -> gap (Some who) 0 s s'.
Proof. intros [_ _ _ _ _ T1 _ _ T2]. injection T1 as E1 E2 E3 _ _ _. apply gap_views; try done; intros Hw; apply T2; done || congruence. Qed.
Lemma gap_refund env owner s : sound s -> wp (refund env owner) (fun _ s' => gap (Some owner) 0 s s') s.
Proof.
  intros Hs. eapply wp_mono; [by apply refund_spec|]. intros [] s' (_ & Es & _ & R1 & R2 & R3).
  assert (owed_names s' = owed_names s) as En by (by rewrite Es).
  assert (delegated one one s' = delegated one one s) as Ed by (apply delegated_same; by rewrite Es). split.
  - intros Hw. specialize (R1 ltac:(congruence)). unfold owed_stake. rewrite Ed. lia.
  - intros Hw. rewrite En, R3 by (done || congruence). done.
  - intros _. unfold owed_stake. rewrite Ed. lia.
  - intros _. left. lia.
  - by rewrite Es.
Qed.
(** Actions that touch no stake and no bid. *)
Lemma gap_other env k s s' : touches_bids k = false -> run_action env k s = (s', Ok tt) -> gap (actor k) 0 s s'.
Proof.
  intros Ht E. assert (touches_accounts k = false) as Hta by (by destruct k).
  pose proof (moves_action env k Hta s) as Hm. pose proof (keeps_bids_action env k Ht s) as Hn. rewrite E in Hm, Hn. cbn in Hm, Hn.
  assert (forall v, v = n_stake \/ v = n_names -> actor k <> Some v -> sent v s' = sent v s) as Hv.
  { intros v Hv Hw. destruct (posts k) eqn:Hp.
    - destruct k; try done. cbn [run_action actor] in *.
      pose proof (keeps_sent_claim v env owner ltac:(congruence) Hv s) as Hc. by rewrite E in Hc.
    - pose proof (keeps_sent_posted v _ (keeps_posted_action env k Hp) s) as Hc. by rewrite E in Hc. }
  destruct Hm as [E1 _ E2 _ _ _]. apply gap_views; try done; intros Hw; apply Hv; auto.
Qed.
Lemma gap_newaccount env creator newact s : userres_ok (userres s) -> limits_ok s -> bids_ok (namebids s) ->
  wp (newaccount env creator newact) (fun _ s' => gap None 0 s s') s.
Proof.
  intros Hu Hl Hb. eapply wp_mono; [by apply newaccount_spec|]. intros [] s' (s1 & Hs1 & [G1 _ _ _ _ _]).
  apply (gap_quiet _ _ s s s1); [done|by rewrite G1|]. destruct Hs1 as [->|(r & Hr & Hneg & _ & ->)]; [by apply gap_same|]. split; cbn [namebids set_namebids]; try done.
  - intros _. unfold owed_names. cbn [namebids set_namebids]. rewrite (map_sum_delete _ _ _ _ Hr). unfold bid_of at 2.
    match goal with |- _ - sent n_names ?x <= _ => change (sent n_names x) with (sent n_names s) end. lia.
  - intros _ k r' [_ Hk']%lookup_delete_Some. by apply Hb.
Qed.

Lemma gap_run env k s : typed k -> accounted s -> bids_ok (namebids s) ->
  wp (run_action env k) (fun _ s' => gap (actor k) (staked_by k) s s') s.
Proof.
  intros Hk [Hs _] Hb. destruct (touches_bids k) eqn:Ht.
  2: { apply wp_run. intros s' [] E. replace (staked_by k) with 0 by (by destruct k). by eapply gap_other. }
  destruct k; try done; cbn [run_action typed actor staked_by] in *.
  - apply gap_newaccount; [apply Hs..|done].
  - by apply bidname_gap.
  - apply wp_buyrambytes. intros q _. eapply wp_mono; [apply buyram_spec; apply Hs|]. intros [] s' (_ & d & p & _ & Htr). by eapply gap_traded.
  - eapply wp_mono; [apply buyram_spec; apply Hs|]. intros [] s' (_ & d & p & _ & Htr). by eapply gap_traded.
  - eapply wp_mono; [apply sellram_spec; apply Hs|]. intros [] s' (_ & p & _ & Htr). by eapply gap_traded.
  - destruct Hk. eapply wp_mono; [by apply delegatebw_spec|]. intros [] s' [_ Hc]. by eapply gap_changed.
  - destruct Hk. eapply wp_mono; [by apply undelegatebw_spec|]. intros [] s' [_ Hc%gap_changed]. by rewrite Z.opp_add_distr.
  - by apply gap_refund.
  - by apply onblock_gap.
Qed.

(** ** The token contract *)
Definition core_balance (db : token_db) (v : account_name) : Z := balance db v (Lib.name CORE_SYMBOL).
(** The inline actions the token contract sends. *)
Definition nested (db : token_db) : list (account_name * token_action) := (fun t => (t_from t, Transfer t)) <$> inline_actions db.

Lemma token_backs self auths is_account act a db v : token_ok db -> inline_actions db = [] ->
  wp (Token.apply self self auths is_account act) (fun _ db' => token_ok db' /\
    core_balance db v + brings v (a, act) <= core_balance db' v + flow v (nested db')) db.
Proof.
  intros HL Hnil. unfold Token.apply. rewrite Z.eqb_refl. cbn [negb]. unfold core_balance, nested. destruct act as [i m|to q memo|[from to q memo]].
  - apply wp_run. intros db' [] E. pose proof (wp_ok _ _ _ _ _ (create_ok self auths is_account db i m HL) E) as Hok. split; [done|].
    assert (accounts db' = accounts db /\ inline_actions db' = []) as [Ea Ei].
    { revert E. unfold create, Token.check, Token.require_auth, set_stats. run_st. repeat case_match; intros [=]; by subst. }
    unfold balance. rewrite Ea, Ei. cbn. lia.
  - eapply wp_mono; [by apply (issue_effect auths is_account)|]. intros [] db' (Hok & i & Hi & Hq & Hb & Hin). split; [done|].
    rewrite Hb, Hin, Hnil. cbn. unfold brings at 1. cbn. destruct (Z.eqb_spec to i) as [->|Hne].
    + cbn. case_bool_decide; lia.
    + cbn. unfold brings. cbn. case_bool_decide as E; [injection E as -> E|].
      * rewrite E, !Z.eqb_refl, (proj2 (Z.eqb_neq to i)) by done. lia.
      * destruct (Z.eqb_spec (Lib.name (sym q)) (Lib.name CORE_SYMBOL)) as [En|]; [|lia]. rewrite En in E.
        rewrite (proj2 (Z.eqb_neq i v)) by congruence. destruct (to =? v); lia.
  - apply wp_run. intros db' [] E. cbn in E.
    pose proof (wp_ok _ _ _ _ _ (transfer_only auths is_account db from to q memo HL) E) as Hal.
    destruct (transfer_run _ _ _ _ _ _ _ HL Hal) as (db1 & E1 & Hok & _ & Hin & _ & Hb). rewrite E in E1. injection E1 as <-.
    destruct Hal as (Hne & Hauth & _ & _ & Hq & _). split; [done|].
    rewrite Hb, Hin, Hnil. unfold brings. cbn. destruct (Z.eqb_spec (Lib.name (sym q)) (Lib.name CORE_SYMBOL)) as [En|En].
    + rewrite En. destruct (Z.eqb_spec to v), (Z.eqb_spec from v); repeat case_bool_decide; simplify_eq; try lia; congruence.
    + repeat case_bool_decide; simplify_eq; try lia; congruence.
Qed.

(** ** Both contracts

    [w_pending] are the inline actions that were sent and not yet run. A transaction that
    fails is undone, which is a return to an earlier state; a state without pending actions is
    one between transactions. [w_drawn] records for [besio.stake] and [besio.names] what they spent
    by transfers and actions of their own, and what [besio.stake] staked. *)
Record world := World {
  w_sys : sys;
  w_token : token_db;
  w_pending : list (account_name * token_action);
  w_drawn : account_name -> Z
}.
Definition settled (db : token_db) : token_db := TokenDb (accounts db) (stats db) [] [].

Inductive world_step (token_account : account_name) (w : world) : world -> Prop :=
| step_system env k s' :
    typed k -> ce_token env = w_token w -> apply env k (w_sys w) = (s', Ok tt) ->
    world_step token_account w (World (set_outbox [] s') (w_token w) (w_pending w ++ inlines (outbox s'))
      (fun v => w_drawn w v + draws k (inlines (outbox s')) v))
| step_token auths is_account act db' :
    Token.apply token_account token_account auths is_account act (w_token w) = (db', Ok tt) ->
    world_step token_account w (World (w_sys w) (settled db') (w_pending w ++ nested db') (fun v => w_drawn w v + takes v act))
| step_inline l1 auth act l2 is_account db' :
    w_pending w = l1 ++ (auth, act) :: l2 ->
    Token.apply token_account token_account [auth] is_account act (w_token w) = (db', Ok tt) ->
    world_step token_account w (World (w_sys w) (settled db') (l1 ++ nested db' ++ l2) (w_drawn w)).

Record backed (w : world) : Prop := {
  bw_token : token_ok (w_token w);
  bw_settled : inline_actions (w_token w) = [];
  bw_accounted : accounted (w_sys w);
  bw_bids : bids_ok (namebids (w_sys w));
  bw_outbox : outbox (w_sys w) = [];
  bw_stake : owed_stake (w_sys w) <= core_balance (w_token w) n_stake + flow n_stake (w_pending w) + w_drawn w n_stake;
  bw_names : owed_names (w_sys w) <= core_balance (w_token w) n_names + flow n_names (w_pending w) + w_drawn w n_names
}.

Lemma gap_apply env k s : typed k -> accounted s -> bids_ok (namebids s) ->
  wp (apply env k) (fun _ s' => gap (actor k) (staked_by k) s s') s.
Proof.
  intros Hk Ha Hb. unfold apply. wp_step. apply wp_run. intros s1 [] E1.
  assert (quiet s1 = quiet s) as Hq.
  { assert (keeps quiet (construct env)) as Hc by (unfold construct; keeps_step). specialize (Hc s). by rewrite E1 in Hc. }
  assert (accounted s1) as Ha1. { pose proof (moves_construct env s) as Hm. rewrite E1 in Hm. by apply (accounted_same s). }
  wp_step. eapply wp_mono; [apply gap_run; try done|].
  - unfold quiet in Hq. by injection Hq as _ _ -> _.
  - intros [] s2 Hg. unfold destruct_contract. wp_step. by apply (gap_quiet _ _ s s1 s2).
Qed.
(** From an empty outbox, what is owed grows at most by what is sent and what is drawn. *)
Lemma gap_draws env k s s' : typed k -> accounted s -> bids_ok (namebids s) -> outbox s = [] -> apply env k s = (s', Ok tt) ->
  bids_ok (namebids s') /\ owed_stake s' <= owed_stake s + sent n_stake s' + draws k (inlines (outbox s')) n_stake /\
  owed_names s' <= owed_names s + sent n_names s' + draws k (inlines (outbox s')) n_names.
Proof.
  intros Hk Ha Hb Ho E. destruct (wp_ok _ _ _ _ _ (gap_apply env k s Hk Ha Hb) E) as [G1 G2 G3 G4 G5].
  assert (forall v, sent v s = 0) as Hz by (intros v; unfold sent; by rewrite Ho). rewrite !Hz in *.
  unfold draws. pose proof (flow_taken n_stake (inlines (outbox s'))). pose proof (flow_taken n_names (inlines (outbox s'))).
  change (n_stake =? n_stake) with true. change (n_names =? n_stake) with false. unfold posted in *. unfold sent in *. split_and!; [by apply G5|..].
  - destruct (decide (actor k = Some n_stake)) as [Ea|Ea]; [specialize (G3 Ea)|specialize (G1 Ea)]; lia.
  - destruct (decide (actor k = Some n_names)) as [Ea|Ea]; [destruct (G4 Ea)|specialize (G2 Ea)]; lia.
Qed.
Lemma settled_ok db : token_ok db -> token_ok (settled db).
Proof. by apply ledger_same. Qed.

Lemma step_backed token_account w w' : world_step token_account w w' -> backed w -> backed w'.
Proof.
  intros Hstep [B1 B2 B3 B4 B5 B6 B7].
  destruct Hstep as [env k s' Hk Ht E|auths is_account act db' E|l1 auth act l2 is_account db' Hp E].
  - destruct (gap_draws env k _ s' Hk B3 B4 B5 E) as (G1 & G2 & G3).
    pose proof (wp_ok _ _ _ _ _ (accounted_apply env k _ Hk B3) E) as Ha.
    split; cbn [w_sys w_token w_pending w_drawn]; try done.
    + by apply (accounted_same s').
    + rewrite flow_app. change (owed_stake (set_outbox [] s')) with (owed_stake s'). fold (sent n_stake s'). lia.
    + rewrite flow_app. change (owed_names (set_outbox [] s')) with (owed_names s'). fold (sent n_names s'). lia.
  - pose proof (wp_ok _ _ _ _ _ (token_backs token_account auths is_account act 0 _ n_stake B1 B2) E) as (Hok & S2).
    pose proof (wp_ok _ _ _ _ _ (token_backs token_account auths is_account act 0 _ n_names B1 B2) E) as (_ & N2).
    pose proof (brings_takes n_stake (0, act)) as S1. pose proof (brings_takes n_names (0, act)) as N1. cbn [snd] in S1, N1.
    split; cbn [w_sys w_token w_pending w_drawn]; try done; [by apply settled_ok|..]; rewrite flow_app;
      [change (core_balance (settled db') n_stake) with (core_balance db' n_stake)|change (core_balance (settled db') n_names) with (core_balance db' n_names)]; lia.
  - pose proof (wp_ok _ _ _ _ _ (token_backs token_account [auth] is_account act auth _ n_stake B1 B2) E) as (Hok & S2).
    pose proof (wp_ok _ _ _ _ _ (token_backs token_account [auth] is_account act auth _ n_names B1 B2) E) as (_ & N2).
    rewrite Hp in B6, B7. rewrite flow_app in B6, B7. cbn [flow foldr] in B6, B7. fold (flow n_stake l2) in B6. fold (flow n_names l2) in B7.
    split; cbn [w_sys w_token w_pending w_drawn]; try done; [by apply settled_ok|..]; rewrite !flow_app;
      [change (core_balance (settled db') n_stake) with (core_balance db' n_stake)|change (core_balance (settled db') n_names) with (core_balance db' n_names)]; lia.
Qed.
Lemma start_backed token_account c db : token_reachable token_account db -> backed (World (empty c) (settled db) [] (fun _ => 0)).
Proof.
  intros Hr. apply token_inv in Hr. split; cbn [w_sys w_token w_pending w_drawn]; try done.
  - by apply settled_ok.
  - apply reachable_accounted. constructor.
  - pose proof (balance_range _ _ _ n_stake (Lib.name CORE_SYMBOL) Hr) as Hb. cbn. unfold core_balance.
    change (balance (settled db)) with (balance db). change (owed_stake (empty c)) with 0. lia.
  - pose proof (balance_range _ _ _ n_names (Lib.name CORE_SYMBOL) Hr) as Hb. cbn. unfold core_balance.
    change (balance (settled db)) with (balance db). change (owed_names (empty c)) with 0. lia.
Qed.
Lemma steps_backed token_account w w' : rtc (world_step token_account) w w' -> backed w -> backed w'.
Proof. induction 1 as [|w w1 w2 Hs _ IH]; [done|]. intros Hb. apply IH. by eapply step_backed. Qed.

Lemma refunds_nonneg s a r : refunds_ok (refunds s) -> refunds s !! a = Some r -> 0 <= refund_of r.
Proof. intros Hok Hr. destruct (Hok _ _ Hr) as (_ & [_ ?] & [_ ?]). unfold refund_of. lia. Qed.
Lemma delegated_nonneg s : delband_ok (delband s) -> 0 <= delegated one one s.
Proof. intros Hok. apply map_sum_nonneg_in. intros k r Hr. destruct (Hok _ _ Hr) as [[_ ?] [_ ?]]. unfold one. lia. Qed.

(** C27 Whatever transactions run on the system and the token contract, in whatever order their
    inline actions are run: between transactions [besio.stake] holds at least all stakes and all
    refunds, and [besio.names] at least all highest bids of open auctions, up to what these two accounts
    drew themselves. That is what they spent by their own transfers and actions, and, for [besio.stake],
    what it staked less what it unstaked, for which [changebw] moves no tokens. While they draw nothing,
    every refund and every bidder that is outbid can be paid. *)
Theorem stakes_and_bids_backed (token_account : account_name) (c : chain_config) (db : token_db) (w : world) :
  token_reachable token_account db ->
  rtc (world_step token_account) (World (empty c) (settled db) [] (fun _ => 0)) w -> w_pending w = [] ->
  delegated one one (w_sys w) + refunded (w_sys w) <= balance (w_token w) n_stake (Lib.name CORE_SYMBOL) + w_drawn w n_stake /\
  owed_names (w_sys w) <= balance (w_token w) n_names (Lib.name CORE_SYMBOL) + w_drawn w n_names /\
  (w_drawn w n_stake <= 0 -> forall a r, refunds (w_sys w) !! a = Some r ->
     amount (rf_net_amount (obj r)) + amount (rf_cpu_amount (obj r)) <= balance (w_token w) n_stake (Lib.name CORE_SYMBOL)) /\
  (w_drawn w n_names <= 0 -> forall n r, namebids (w_sys w) !! n = Some r ->
     high_bid (obj r) <= balance (w_token w) n_names (Lib.name CORE_SYMBOL)).
Proof.
  intros Hdb Hs Hp. destruct (steps_backed _ _ _ Hs (start_backed _ c db Hdb)) as [B1 B2 [[S1 _ _ S4 _] _] B4 B5 B6 B7].
  rewrite Hp in B6, B7. cbn [flow foldr] in B6, B7. unfold owed_stake, core_balance in *. split_and!; [lia|lia| |].
  - intros Hz a r Hr. pose proof (delegated_nonneg _ S1) as Hd.
    pose proof (map_sum_elem_le (fun _ => refund_of) _ _ _ (fun a r => refunds_nonneg _ a r S4) Hr) as He.
    unfold refund_of in He at 1. unfold refunded in B6. lia.
  - intros Hz n r Hr. assert (bid_of r <= owed_names (w_sys w)) as He.
    { apply (map_sum_elem_le (fun _ => bid_of) _ n); [|done]. intros. unfold bid_of. lia. }
    unfold bid_of in He. lia.
Qed.
End solvent.

Import SystemSample.
(** Alice stakes for Bob, the inline transfer runs, and [besio.stake] stakes for Bob itself, without tokens. *)
Definition start_db : token_db := Eval vm_compute in settled TokenSample.issued.
Definition stake_env (a : account_name) (db : token_db) : call_env := CallEnv n_besio [a] day (fun _ => true) db params true.
Definition stake_call (a : account_name) (q : Z) : call := Delegatebw a bob (core q) (core 20) false.
Definition stake_sys : sys := Eval vm_compute in (apply (stake_env alice start_db) (stake_call alice 30) (empty params)).1.
Definition stake_payment : token_action := Transfer (TransferArgs alice n_stake (core 50) (lit "stake bandwidth")).
Definition paid_db : token_db := Eval vm_compute in
  settled (Token.apply TokenSample.self TokenSample.self [alice] TokenSample.any_account stake_payment start_db).1.
Definition own_sys : sys := Eval vm_compute in
  (apply (stake_env n_stake paid_db) (stake_call n_stake 10) (set_outbox [] stake_sys)).1.
Definition world_start : world := World (empty params) start_db [] (fun _ => 0).
Definition world_staked : world :=
  World (set_outbox [] stake_sys) start_db ([] ++ inlines (outbox stake_sys)) (fun v => 0 + draws (stake_call alice 30) (inlines (outbox stake_sys)) v).
Definition world_paid : world := World (set_outbox [] stake_sys) paid_db [] (w_drawn world_staked).
Definition world_own : world :=
  World (set_outbox [] own_sys) paid_db ([] ++ inlines (outbox own_sys))
    (fun v => w_drawn world_paid v + draws (stake_call n_stake 10) (inlines (outbox own_sys)) v).
Lemma staked_step : world_step TokenSample.self world_start world_staked.
Proof. by apply (step_system TokenSample.self world_start (stake_env alice start_db) (stake_call alice 30) stake_sys); [split|..|vm_compute]. Qed.
Lemma paid_step : world_step TokenSample.self world_staked world_paid.
Proof.
  apply (step_inline TokenSample.self world_staked [] alice stake_payment [] TokenSample.any_account
    (Token.apply TokenSample.self TokenSample.self [alice] TokenSample.any_account stake_payment start_db).1); by vm_compute.
Qed.
Lemma own_step : world_step TokenSample.self world_paid world_own.
Proof. by apply (step_system TokenSample.self world_paid (stake_env n_stake paid_db) (stake_call n_stake 10) own_sys); [split|..|vm_compute]. Qed.
Lemma stakes_and_bids_backed_witness :
  delegated one one (w_sys world_own) = 80 /\ balance (w_token world_own) n_stake (Lib.name CORE_SYMBOL) = 50 /\ w_drawn world_own n_stake = 30 /\
  delegated one one (w_sys world_own) + refunded (w_sys world_own) <=
    balance (w_token world_own) n_stake (Lib.name CORE_SYMBOL) + w_drawn world_own n_stake.
Proof.
  split; [vm_compute; reflexivity|]. split; [vm_compute; reflexivity|]. split; [vm_compute; reflexivity|].
  destruct (stakes_and_bids_backed TokenSample.self params TokenSample.issued world_own) as [Hb _]; [| | |exact Hb].
  - exact TokenSample.issued_reachable.
  - exact (rtc_l _ _ _ _ staked_step (rtc_l _ _ _ _ paid_step (rtc_once _ _ own_step))).
  - vm_compute. reflexivity.
Defined.
