(* ===== verification/SystemVotes.v ===== *)
(** * The system contract: ballots and proxies

    Chains of proxies never close into a cycle, so passing a change of weight on along them ends,
    as does every action; ballots are short, sorted and without duplicates. *)
From Stdlib Require Import Ascii String SpecFloat.
From S2P Require Import Prelude BlockHeaderState Names Asset TransactionContext Token.
From S2P Require Import SystemState SystemVoting SystemStaking SystemContract SystemFrame SystemBooks SystemTrade SystemAccounts.

(** ** The graph of proxies *)
(** The proxy, the producers, and whether the voter is itself a proxy. *)
Definition ballot (v : voter_info) : Z * list Z * bool := (vi_proxy v, vi_producers v, is_proxy v).
Definition graph (s : sys) : gmap Z (Z * list Z * bool) := (fun r => ballot (obj r)) <$> voters s.
(** Proxies do not use proxies, ballots are as the contract validates them, and along the
    edges a rank falls. *)
Record forest (g : gmap Z (Z * list Z * bool)) : Prop := {
  fo_root : forall a p ps, g !! a = Some (p, ps, true) -> p = 0;
  fo_ballot : forall a p ps b, g !! a = Some (p, ps, b) ->
    (p <> 0 -> ps = []) /\ (length ps <= 30)%nat /\ sorted_unique ps = true;
  fo_rank : exists rank : Z -> nat, forall a p ps b, g !! a = Some (p, ps, b) -> p <> 0 -> (rank p < rank a)%nat
}.

Definition timely (e : exn) : Prop := e <> deadline_exception.
(** Does not run out of steps, and keeps the proxies a forest. *)
Definition calm {A} (m : M A) : Prop := forall s, forest (graph s) -> wpe timely m (fun _ s' => forest (graph s')) s.
Definition prompt {A} (r : result A) : Prop := r <> Throw deadline_exception.

(** ** Values *)
Section prompt.
Lemma prompt_ok {A} (a : A) : prompt (Ok a).
Proof. done. Qed.
Lemma prompt_assert b e : timely e -> prompt (bes_assert b e).
Proof. intros He. destruct b; [done|]. by intros [= ->]. Qed.
Lemma prompt_bind {A B} (r : result A) (k : A -> result B) : prompt r -> (forall a, prompt (k a)) -> prompt (r ≫= k).
Proof. intros Hr Hk. destruct r as [a|e]; [apply Hk|]. intros [= ->]. by apply Hr. Qed.
Lemma prompt_option {A} e (o : option A) : timely e -> prompt (of_option e o).
Proof. intros He. destruct o; [done|]. by intros [= ->]. Qed.
End prompt.
Create HintDb prompt discriminated.
#[export] Hint Resolve prompt_ok prompt_option : prompt.
#[export] Hint Extern 1 (prompt (mret _)) => done : prompt.
#[export] Hint Extern 1 (prompt (Throw _)) => done : prompt.
#[export] Hint Extern 1 (prompt (bes_assert _ _)) => by apply prompt_assert : prompt.
#[export] Hint Extern 1 (prompt (of_option _ _)) => by apply prompt_option : prompt.
Ltac prompt_step :=
  repeat first [solve [eauto with prompt] | apply prompt_bind; [|intros ?]
               | match goal with
                 | |- prompt (if ?b then _ else _) => destruct b
                 | |- prompt (match ?x with _ => _ end) => destruct x
                 end].

Section values.
Context `{SystemLib}.
Lemma prompt_iadd a b : prompt (Lib.iadd a b).
Proof. unfold Lib.iadd, besio_assert. prompt_step. Qed.
Lemma prompt_isub a b : prompt (Lib.isub a b).
Proof. unfold Lib.isub, besio_assert. prompt_step. Qed.
Lemma prompt_lt a b : prompt (asset_lt a b).
Proof. unfold asset_lt, besio_assert. prompt_step. Qed.
Lemma prompt_le a b : prompt (asset_le a b).
Proof. unfold asset_le, besio_assert. prompt_step. Qed.
Lemma prompt_eq a b : prompt (asset_eq a b).
Proof. unfold asset_eq, besio_assert. prompt_step. Qed.
Hint Resolve prompt_iadd prompt_isub prompt_lt prompt_le prompt_eq : prompt.
Lemma prompt_ne a b : prompt (asset_ne a b).
Proof. unfold asset_ne. prompt_step. Qed.
Lemma prompt_or a b : prompt a -> prompt b -> prompt (or_else a b).
Proof. intros. unfold or_else. prompt_step. Qed.
Lemma prompt_and a b : prompt a -> prompt b -> prompt (and_then a b).
Proof. intros. unfold and_then. prompt_step. Qed.
Hint Resolve prompt_ne prompt_or prompt_and : prompt.
Lemma prompt_take r b : prompt (take_refund r b).
Proof. unfold take_refund. prompt_step. Qed.
Lemma prompt_make b : prompt (make_refund b).
Proof. unfold make_refund. prompt_step. Qed.
Lemma prompt_to_int64 d : prompt (to_int64 d).
Proof. unfold to_int64. prompt_step. Qed.
Lemma prompt_core_asset a : prompt (core_asset a).
Proof. unfold core_asset, besio_assert. prompt_step. Qed.
Lemma prompt_lib_asset a s : prompt (lib_asset a s).
Proof. unfold lib_asset, besio_assert. prompt_step. Qed.
Lemma prompt_get_supply db n : prompt (get_supply db n).
Proof. unfold get_supply. prompt_step. Qed.
Lemma prompt_validate c : prompt (validate_config c).
Proof. unfold validate_config. prompt_step. Qed.
Hint Resolve prompt_to_int64 prompt_lib_asset : prompt.
Lemma prompt_vote_pay g p : prompt (vote_pay g p).
Proof. unfold vote_pay. prompt_step. Qed.
Lemma prompt_convert_step ex q to : prompt (convert_step ex q to).
Proof. unfold convert_step, convert_to_exchange, convert_from_exchange, besio_assert. prompt_step. Qed.

(** A conversion takes two steps at most. *)
Lemma convert_step_sym ex q to ex' r : convert_step ex q to = Ok (ex', r) ->
  sym (ex_supply ex') = sym (ex_supply ex) /\ (sym r = sym (ex_supply ex) \/ sym r = to) /\
  (sym q = sym (ex_supply ex) -> sym r = to).
Proof.
  unfold convert_step. repeat case_match; try done; intros E; bind_ok E as ([[s c] r'] & E1 & E); injection E as <- <-; bool_to_prop;
    (apply to_exchange_ok in E1 as (i & -> & -> & _ & _) || apply from_exchange_ok in E1 as (i & -> & -> & _ & _)); cbn; split_and!; auto; congruence.
Qed.
Lemma prompt_convert ex q to : prompt (convert convert_depth ex q to).
Proof.
  unfold convert_depth. cbn [convert]. destruct (convert_step ex q to) as [[ex1 q1]|e] eqn:E1; [|rewrite <- E1; pose proof (prompt_convert_step ex q to) as Hp; rewrite E1 in *; by intros [= ->]].
  cbn. destruct (negb (to =? sym q1)) eqn:N1; [|done].
  destruct (convert_step ex1 q1 to) as [[ex2 q2]|e] eqn:E2; [|pose proof (prompt_convert_step ex1 q1 to) as Hp; rewrite E2 in Hp; by intros [= ->]].
  cbn. destruct (negb (to =? sym q2)) eqn:N2; [|done]. exfalso. bool_to_prop.
  apply convert_step_sym in E1 as (A1 & A2 & _). apply convert_step_sym in E2 as (_ & _ & B). destruct A2 as [A2|A2]; [|congruence].
  rewrite A2, <- A1 in B. by specialize (B eq_refl).
Qed.
End values.
#[export] Hint Resolve prompt_iadd prompt_isub prompt_lt prompt_le prompt_eq prompt_ne prompt_or prompt_and prompt_take prompt_make prompt_to_int64
  prompt_core_asset prompt_lib_asset prompt_get_supply prompt_validate prompt_vote_pay prompt_convert : prompt.

(** ** Calm steps *)
Section calm.
Lemma calm_ret {A} (a : A) : calm (mret a).
Proof. by intros s. Qed.
Lemma calm_get : calm get.
Proof. by intros s. Qed.
Lemma calm_gets {A} (f : sys -> A) : calm (gets f).
Proof. by intros s. Qed.
Lemma calm_lift {A} (r : result A) : prompt r -> calm (lift r).
Proof. intros Hr s Hf. apply wpe_lift; [done|]. intros e ->. intros ->. by apply Hr. Qed.
Lemma calm_assert b e : timely e -> calm (st_assert b e).
Proof. intros He. apply calm_lift. by apply prompt_assert. Qed.
Lemma calm_modify f : (forall s, graph (f s) = graph s) -> calm (modify_st f).
Proof. intros Hf s Hg. unfold wpe. cbn. by rewrite Hf. Qed.
Lemma calm_bind {A B} (m : M A) (k : A -> M B) : calm m -> (forall a, calm (k a)) -> calm (m ≫= k).
Proof. intros Hm Hk s Hf. wpe_step. eapply wpe_mono; [by apply Hm|]. intros a s' Hf'. by apply Hk. Qed.
Lemma calm_for_each {A} (f : A -> M unit) l : (forall a, calm (f a)) -> calm (for_each f l).
Proof. intros Hf. induction l as [|a l IH]; [apply calm_ret|]. cbn [for_each]. by apply calm_bind. Qed.
Lemma calm_find {K A} `{Countable K} (t : table K A) k : calm (find t k).
Proof. by intros s. Qed.
Lemma calm_get_row {K A} `{Countable K} (t : table K A) k : calm (get_row t k).
Proof. unfold get_row. apply calm_bind; [apply calm_find|]. intros o. apply calm_lift. by apply prompt_option. Qed.
Lemma calm_table {K A} `{Countable K} (t : table K A) : (forall m s, graph (set_rows t m s) = graph s) ->
  (forall p k a, calm (emplace t p k a)) /\ (forall p k g, calm (modify t p k g)) /\ (forall k, calm (erase t k)).
Proof.
  intros Ht. split_and!; intros; unfold emplace, modify, erase.
  - apply calm_bind; [apply calm_get|]. intros s. apply calm_bind; [by apply calm_assert|]. intros _.
    apply calm_bind; [by apply calm_assert|]. intros _. by apply calm_modify.
  - apply calm_bind; [apply calm_get|]. intros s. apply calm_bind; [apply calm_lift; by apply prompt_option|]. intros r.
    apply calm_bind; [by apply calm_assert|]. intros _. by apply calm_modify.
  - by apply calm_modify.
Qed.
Lemma calm_keeps {A} (m : M A) : keeps graph m -> (forall s, forest (graph s) -> (m s).2 <> Throw deadline_exception) -> calm m.
Proof.
  intros Hk Ht s Hf. unfold wpe. specialize (Hk s). specialize (Ht s Hf). destruct (m s) as [s' [a|e]]; cbn in *; [by rewrite Hk|].
  intros ->. by apply Ht.
Qed.
(** A ballot is left as it is. *)
Lemma keeps_graph_voter p k f : (forall v, ballot (f v) = ballot v) -> keeps graph (modify _voters p k f).
Proof.
  intros Hf s. unfold modify. run_st. cbn [rows set_rows storable _voters any].
  destruct (voters s !! k) as [r|] eqn:E; [|done]. unfold graph. cbn [fst voters set_voters]. apply (fmap_insert_id _ _ _ _ _ E). apply Hf.
Qed.
Lemma calm_modify_voter p k f : (forall v, ballot (f v) = ballot v) -> calm (modify _voters p k f).
Proof.
  intros Hf. apply calm_keeps; [by apply keeps_graph_voter|]. intros s _. unfold modify. run_st. cbn [rows set_rows storable _voters any].
  by destruct (voters s !! k).
Qed.
Lemma calm_graph {A} (m : M A) s : keeps graph m -> calm m -> forest (graph s) -> wpe timely m (fun _ s' => graph s' = graph s) s.
Proof. intros Hk Hc Hf. specialize (Hc s Hf). specialize (Hk s). unfold wpe in *. by destruct (m s) as [s' [a|e]]. Qed.
Lemma wpe_row_get {K A} `{Countable K} (t : table K A) k (Q : A -> sys -> Prop) s :
  (forall r, rows t s !! k = Some r -> Q (obj r) s) -> wpe timely (get_row t k) Q s.
Proof. intros HQ. unfold get_row. wpe_step. unfold wpe at 1. cbn. apply wpe_of_option; [|done]. intros a (r & Hr & ->)%fmap_Some. by apply HQ. Qed.
Lemma wpe_find {K A} `{Countable K} (t : table K A) k (Q : option A -> sys -> Prop) s : Q (obj <$> rows t s !! k) s -> wpe timely (find t k) Q s.
Proof. done. Qed.
End calm.

Create HintDb calm discriminated.
#[export] Hint Resolve calm_ret calm_get calm_gets calm_find calm_get_row : calm.
#[export] Hint Extern 1 (calm (lift _)) => apply calm_lift; solve [prompt_step] : calm.
#[export] Hint Extern 1 (calm (st_assert _ _)) => by apply calm_assert : calm.
#[export] Hint Extern 1 (calm (modify_st _)) => by apply calm_modify : calm.
#[export] Hint Extern 1 (calm (send _)) => by apply calm_modify : calm.
#[export] Hint Extern 1 (calm (send_transfer _ _ _ _)) => by apply calm_modify : calm.
#[export] Hint Extern 1 (calm (set_gstate_with _)) => by apply calm_modify : calm.
#[export] Hint Extern 1 (calm (check _)) => by apply calm_assert : calm.
#[export] Hint Extern 1 (calm (require_auth _ _)) => by apply calm_assert : calm.
#[export] Hint Extern 2 (calm (modify _voters _ _ _)) => by apply calm_modify_voter : calm.
#[export] Hint Extern 3 (calm (modify _ _ _ _)) => by apply calm_table : calm.
#[export] Hint Extern 3 (calm (emplace _ _ _ _)) => by apply calm_table : calm.
#[export] Hint Extern 3 (calm (erase _ _)) => by apply calm_table : calm.
Ltac calm_step :=
  repeat first [solve [eauto with calm] | apply calm_bind; [|intros ?] | apply calm_for_each; intros ?
               | match goal with
                 | |- calm (if ?b then _ else _) => destruct b
                 | |- calm (match ?x with _ => _ end) => destruct x
                 end].

Section votes.
Context `{SystemLib} (env : call_env).

(** ** Propagation *)
Hint Extern 1 (keeps graph (modify _voters _ _ _)) => apply keeps_graph_voter; reflexivity : keeps.
Hint Extern 1 (keeps graph (modify _producers _ _ _)) => apply keeps_table; done : keeps.
Hint Extern 1 (keeps graph (set_gstate_with _)) => done : keeps.
Hint Extern 1 (keeps graph (send _)) => done : keeps.
Lemma keeps_graph_propagate fuel v : keeps graph (propagate_weight_change env fuel v).
Proof.
  revert v. induction fuel as [|fuel IH]; intros v; cbn [propagate_weight_change]; [done|]. unfold check. keeps_step.
Qed.
Hint Resolve keeps_graph_propagate : keeps.

(** The rank falls at each step, so that the voters passed are all different: the steps left
    suffice for those not passed yet. *)
Lemma propagate_ends (rank : Z -> nat) fuel v (passed : gset Z) s :
  forest (graph s) -> (forall a p ps b, graph s !! a = Some (p, ps, b) -> p <> 0 -> (rank p < rank a)%nat) ->
  passed ⊆ dom (graph s) -> (forall x, x ∈ passed -> (rank v < rank x)%nat) -> (size (dom (graph s)) < size passed + fuel)%nat ->
  wpe timely (propagate_weight_change env fuel v) (fun _ s' => graph s' = graph s) s.
Proof.
  revert v passed s. induction fuel as [|fuel IH]; intros v passed s Hf Hrank Hsub Hpass Hsize; cbn [propagate_weight_change].
  { pose proof (subseteq_size _ _ Hsub). lia. }
  wpe_step. apply wpe_row_get. intros r Hr. cbn [rows _voters] in Hr.
  assert (Hv : graph s !! v = Some (ballot (obj r))) by (unfold graph; by rewrite lookup_fmap, Hr).
  unfold check. wpe_step. wpe_step. cbv zeta. wpe_step.
  apply (wpe_mono _ _ (fun _ s1 => graph s1 = graph s)).
  2: { intros _ s1 E1. eapply wpe_mono; [apply calm_graph; [keeps_step|calm_step|by rewrite E1]|]. intros a2 s2 E2. congruence. }
  wpe_step; [|by wpe_step]. wpe_step; [|apply calm_graph; [keeps_step|calm_step|done]].
  wpe_step. apply wpe_row_get. intros q Hq. wpe_step.
  eapply wpe_mono; [apply calm_graph; [keeps_step|calm_step|done]|]. intros a1 s1 E1. bool_to_prop.
  rewrite <- E1. apply (IH _ (passed ∪ {[v]})); rewrite ?E1; [done|done| | |].
  - apply elem_of_dom_2 in Hv. set_solver.
  - intros x [Hx| ->%elem_of_singleton]%elem_of_union; [|by eapply (Hrank v)]. specialize (Hpass x Hx).
    pose proof (Hrank v _ _ _ Hv ltac:(done)). lia.
  - rewrite size_union, size_singleton; [lia|]. intros x Hx ->%elem_of_singleton. specialize (Hpass v Hx). lia.
Qed.
Lemma calm_propagate v : calm (propagate env v).
Proof.
  intros s Hf. unfold propagate. wpe_step. wpe_step. destruct (fo_rank _ Hf) as [rank Hrank].
  eapply wpe_mono; [apply (propagate_ends rank _ v ∅ s Hf Hrank); [done|done|]|].
  - unfold graph. rewrite dom_fmap, size_dom, size_empty. lia.
  - intros _ s' ->. done.
Qed.
Hint Resolve calm_propagate : calm.

(** ** Voting *)
Lemma keeps_graph_propagate_all v : keeps graph (propagate env v).
Proof. unfold propagate. keeps_step. Qed.
Hint Resolve keeps_graph_propagate_all : keeps.
Lemma keeps_graph_undo v : keeps graph (undo_vote env v).
Proof. unfold undo_vote. keeps_step. Qed.
Lemma keeps_graph_activate v : keeps graph (activate_stake env v).
Proof. unfold activate_stake. keeps_step. Qed.
Lemma keeps_graph_delta b d : keeps graph (apply_delta b d).
Proof. unfold apply_delta, check. destruct d as [? []]. keeps_step. Qed.
Lemma keeps_graph_cast w p l b d : keeps graph (cast_vote env w p l b d).
Proof. unfold cast_vote, check. keeps_step. Qed.
Hint Resolve keeps_graph_undo keeps_graph_activate keeps_graph_delta keeps_graph_cast : keeps.
Lemma calm_undo v : calm (undo_vote env v).
Proof. unfold undo_vote. calm_step. Qed.
Lemma calm_activate v : calm (activate_stake env v).
Proof. unfold activate_stake. calm_step. Qed.
Lemma calm_delta b d : calm (apply_delta b d).
Proof. unfold apply_delta. destruct d as [? []]. calm_step. Qed.
Lemma calm_cast w p l b d : calm (cast_vote env w p l b d).
Proof. unfold cast_vote. calm_step. Qed.
Hint Resolve calm_undo calm_activate calm_delta calm_cast : calm.

(** What the new vote must be for the proxies to stay a forest. *)
Definition valid_vote (v p : Z) (ps : list Z) : Prop :=
  if negb (p =? 0) then ps = [] /\ v <> p else (length ps <= 30)%nat /\ sorted_unique ps = true.
Lemma validate_vote_spec v p ps s : forest (graph s) ->
  wpe timely (validate_vote v p ps) (fun _ s' => graph s' = graph s /\ valid_vote v p ps) s.
Proof.
  intros Hf. unfold validate_vote, valid_vote, check. wpe_step.
  - do 4 wpe_step. bool_to_prop. unfold wpe, send. cbn. split_and!; [done| |done]. destruct ps; [done|cbn in *; lia].
  - do 3 wpe_step. bool_to_prop. split_and!; (done || lia).
Qed.
Lemma cast_vote_spec w p ps (voting : bool) l s : forest (graph s) ->
  wpe timely (cast_vote env w p ps voting l)
    (fun _ s' => graph s' = graph s /\ (p <> 0 -> voting = true -> exists q qs, graph s !! p = Some (q, qs, true))) s.
Proof.
  intros Hf. pose proof (calm_graph _ s (keeps_graph_cast w p ps voting l) (calm_cast w p ps voting l) Hf) as Hg. revert Hg.
  unfold cast_vote, wpe, check. destruct (negb (p =? 0)) eqn:Ep; [|bool_to_prop; destruct (dle _ _); by cbn].
  unfold mbind, St_bind, get_row, find. run_st. cbn [rows _voters]. destruct (voters s !! p) as [r|] eqn:Er; [|done].
  assert (Hp : graph s !! p = Some (ballot (obj r))) by (unfold graph; by rewrite lookup_fmap, Er). cbn [fmap option_fmap option_map].
  destruct (negb voting || is_proxy (obj r)) eqn:Ev; [|done].
  destruct (if dle zero w then _ else _) as [s' [a|e]]; [|done]. intros Hg. split; [done|]. intros _ ->. cbn in Ev.
  exists (vi_proxy (obj r)), (vi_producers (obj r)). rewrite Hp. unfold ballot. by rewrite Ev.
Qed.

Lemma forest_vote g v b p ps p0 ps0 : forest g -> g !! v = Some (p0, ps0, b) -> valid_vote v p ps -> (p <> 0 -> b = false) ->
  (p <> 0 -> exists q qs, g !! p = Some (q, qs, true)) -> forest (<[v := (p, ps, b)]> g).
Proof.
  intros [F1 F2 [rank F3]] Hv Hval Hb Hroot. split.
  - intros a q qs [[<- [= <- <- ->]]|[_ Ha]]%lookup_insert_Some; [|by eapply F1]. destruct (decide (p = 0)); [done|]. by specialize (Hb n).
  - intros a q qs c [[<- [= <- <- <-]]|[_ Ha]]%lookup_insert_Some; [|by eapply F2]. unfold valid_vote in Hval.
    destruct (Z.eqb_spec p 0) as [->|Hne]; cbn in Hval; [by split|]. destruct Hval as [-> _]. by split_and!; [|cbn; lia|].
  - destruct (decide (p = 0)) as [->|Hne].
    + exists rank. intros a q qs c [[<- [= <- <- <-]]|[_ Ha]]%lookup_insert_Some; [done|by eapply F3].
    + destruct (Hroot Hne) as (q0 & qs0 & Hp). pose proof (F1 _ _ _ Hp) as ->. unfold valid_vote in Hval.
      rewrite (proj2 (Z.eqb_neq _ _) Hne) in Hval. destruct Hval as [_ Hvp].
      exists (fun x => if x =? p then O else S (rank x)). intros a q qs c [[<- [= <- <- <-]]|[Hav Ha]]%lookup_insert_Some Hq.
      * rewrite Z.eqb_refl, (proj2 (Z.eqb_neq v p)) by done. lia.
      * destruct (Z.eqb_spec a p) as [->|]; [congruence|]. destruct (q =? p); [lia|]. pose proof (F3 _ _ _ _ Ha Hq). lia.
Qed.

Lemma update_votes_calm v p ps (voting : bool) s : forest (graph s) ->
  (voting = true \/ exists b, graph s !! v = Some (p, ps, b)) ->
  wpe timely (update_votes env v p ps voting) (fun _ s' => forest (graph s')) s.
Proof.
  intros Hf Hmode. unfold update_votes. wpe_step. eapply wpe_mono; [by apply validate_vote_spec|]. intros [] s1 [E1 Hval].
  wpe_step. apply wpe_row_get. intros r Hr. cbn [rows _voters] in Hr.
  assert (Hv : graph s !! v = Some (ballot (obj r))) by (rewrite <- E1; unfold graph; by rewrite lookup_fmap, Hr).
  unfold check. wpe_step. wpe_step. wpe_step.
  eapply wpe_mono; [apply calm_graph; [apply keeps_graph_activate|apply calm_activate|by rewrite E1]|]. intros [] s2 E2. cbv zeta. wpe_step.
  eapply wpe_mono; [apply calm_graph; [apply keeps_graph_undo|apply calm_undo|by rewrite E2, E1]|]. intros l s3 E3. wpe_step.
  eapply wpe_mono; [apply cast_vote_spec; by rewrite E3, E2, E1|]. intros l' s4 [E4 Hroot]. wpe_step.
  eapply wpe_mono; [apply calm_graph; [keeps_step|calm_step|by rewrite E4, E3, E2, E1]|]. intros [] s5 E5.
  assert (E : graph s5 = graph s) by congruence. assert (E3s : graph s3 = graph s) by congruence.
  unfold wpe, modify. run_st. cbn [rows set_rows storable _voters any]. destruct (voters s5 !! v) as [r5|] eqn:Hr5; [|done].
  assert (Hv5 : ballot (obj r5) = ballot (obj r)).
  { assert (graph s5 !! v = Some (ballot (obj r5))) as H5 by (unfold graph; by rewrite lookup_fmap, Hr5). rewrite E, Hv in H5. congruence. }
  match goal with |- forest (graph ?x) => assert (graph x = <[v := (p, ps, is_proxy (obj r))]> (graph s)) as -> end.
  { rewrite <- E. unfold graph. cbn [voters set_voters]. rewrite fmap_insert. cbn. unfold ballot in *. by injection Hv5 as _ _ <-. }
  bool_to_prop. destruct Hmode as [->|[b Hb]].
  - eapply forest_vote; [done|exact Hv|done| |].
    + intros Hp. destruct (Z.eqb_spec p 0); [done|]. cbn in *. by bool_to_prop.
    + intros Hp. rewrite <- E3s. by apply Hroot.
  - rewrite insert_id; [done|]. rewrite Hb. rewrite Hv in Hb. unfold ballot in Hb. by injection Hb as _ _ ->.
Qed.
Lemma calm_voteproducer v p ps : calm (voteproducer env v p ps).
Proof. unfold voteproducer. apply calm_bind; [calm_step|]. intros _ s Hf. apply update_votes_calm; [done|by left]. Qed.

(** A ballot that names no proxy can be put anywhere. *)
Lemma forest_free g v ps b : forest g -> (length ps <= 30)%nat -> sorted_unique ps = true -> forest (<[v := (0, ps, b)]> g).
Proof.
  intros [F1 F2 [rank F3]] Hl Hs. split.
  - intros a q qs [[<- [= <- <- ->]]|[_ Ha]]%lookup_insert_Some; [done|by eapply F1].
  - intros a q qs c [[<- [= <- <- <-]]|[_ Ha]]%lookup_insert_Some; [done|by eapply F2].
  - exists rank. intros a q qs c [[<- [= <- <- <-]]|[_ Ha]]%lookup_insert_Some; [done|by eapply F3].
Qed.
(** Whoever stops being a proxy keeps the ballot. *)
Lemma forest_retire g v p ps b : forest g -> g !! v = Some (p, ps, b) -> forest (<[v := (p, ps, false)]> g).
Proof.
  intros [F1 F2 [rank F3]] Hv. split.
  - intros a q qs [[_ [=]]|[_ Ha]]%lookup_insert_Some. by eapply F1.
  - intros a q qs c [[<- [= <- <- <-]]|[_ Ha]]%lookup_insert_Some; by eapply F2.
  - exists rank. intros a q qs c [[<- [= <- <- <-]]|[_ Ha]]%lookup_insert_Some; by eapply F3.
Qed.
Lemma calm_new_voter p k v : vi_proxy v = 0 -> vi_producers v = [] -> calm (emplace _voters p k v).
Proof.
  intros Hp Hps s Hf. unfold wpe, emplace. run_st. cbn [rows set_rows storable _voters any]. destruct (bool_decide _); [|done].
  unfold graph. cbn [voters set_voters]. rewrite fmap_insert. cbn. unfold ballot at 1. rewrite Hp, Hps. apply forest_free; [done|cbn; lia|done].
Qed.
Hint Extern 1 (calm (emplace _voters _ _ _)) => by apply calm_new_voter : calm.
Lemma calm_regproxy a b : calm (regproxy env a b).
Proof.
  unfold regproxy. apply calm_bind; [calm_step|]. intros _ s Hf. wpe_step. apply wpe_find. cbn [rows _voters].
  destruct (voters s !! a) as [r|] eqn:Hr; cbn [fmap option_fmap option_map]; [|by apply calm_new_voter].
  assert (Hv : graph s !! a = Some (ballot (obj r))) by (unfold graph; by rewrite lookup_fmap, Hr).
  unfold check. do 4 wpe_step. bool_to_prop. wpe_step.
  apply (wpe_mono _ _ (fun _ s' => forest (graph s'))); [|intros [] s' Hf'; by apply calm_propagate].
  unfold wpe, modify. run_st. cbn [rows set_rows storable _voters any]. rewrite Hr.
  match goal with |- forest (graph ?x) => assert (graph x = <[a := (vi_proxy (obj r), vi_producers (obj r), b)]> (graph s)) as -> end.
  { unfold graph. cbn [voters set_voters]. by rewrite fmap_insert. }
  destruct (fo_ballot _ Hf _ _ _ _ Hv) as (B1 & B2 & B3). destruct b; [|by eapply forest_retire].
  destruct (Z.eqb_spec (vi_proxy (obj r)) 0) as [->|]; [by apply forest_free|done].
Qed.

Lemma calm_write_stake a d : calm (write_stake a d).
Proof. unfold write_stake. calm_step. Qed.
Hint Resolve calm_write_stake : calm.
Lemma calm_b1 z : calm (validate_b1_vesting env z).
Proof. unfold validate_b1_vesting. calm_step. Qed.
Lemma keeps_graph_b1 z : keeps graph (validate_b1_vesting env z).
Proof. unfold validate_b1_vesting, check. keeps_step. Qed.
Lemma calm_update_voter a n c : calm (update_voter env a n c).
Proof.
  unfold update_voter. apply calm_bind; [calm_step|]. intros total. apply calm_bind; [calm_step|]. intros _ s Hf. wpe_step. apply wpe_row_get. intros r Hr. cbn [rows _voters] in Hr.
  assert (Hv : graph s !! a = Some (ballot (obj r))) by (unfold graph; by rewrite lookup_fmap, Hr).
  unfold check. wpe_step. wpe_step. wpe_step.
  eapply wpe_mono; [apply calm_graph; [keeps_step; apply keeps_graph_b1|calm_step; apply calm_b1|done]|]. intros [] s1 E1.
  wpe_step; [|wpe_step; by rewrite E1]. apply update_votes_calm; [by rewrite E1|]. right. exists (is_proxy (obj r)). by rewrite E1.
Qed.
Hint Resolve calm_voteproducer calm_regproxy calm_update_voter : calm.
Lemma calm_limits a r n c : calm (set_resource_limits env a r n c).
Proof. unfold set_resource_limits. calm_step. Qed.
Hint Resolve calm_limits : calm.
Lemma calm_changebw f r n c t : calm (changebw env f r n c t).
Proof.
  unfold changebw, update_delegation, write_delegation, update_totals, write_totals, update_refund, change_refund. calm_step.
Qed.
Hint Resolve calm_changebw : calm.
Lemma calm_market {A} (f : exchange_state -> result (exchange_state * A)) : (forall ex, prompt (f ex)) -> calm (modify_market f).
Proof. intros Hf. unfold modify_market. apply calm_bind; [calm_step|]. intros m. apply calm_bind; [calm_step|]. intros r.
  apply calm_bind; [by apply calm_lift|]. intros [ex a]. calm_step.
Qed.
Hint Extern 1 (calm (modify_market _)) => apply calm_market; intros; solve [prompt_step] : calm.
Lemma calm_reserve a b : calm (reserve_ram env a b).
Proof. unfold reserve_ram. calm_step. Qed.
Lemma calm_release a b : calm (release_ram env a b).
Proof. unfold release_ram. calm_step. Qed.
Hint Resolve calm_reserve calm_release : calm.
Lemma calm_buyram p r q : calm (buyram env p r q).
Proof. unfold buyram. calm_step. Qed.
Lemma calm_elected t : calm (update_elected_producers env t).
Proof. unfold update_elected_producers. calm_step. Qed.
Hint Resolve calm_buyram calm_elected : calm.
Lemma calm_action k : calm (run_action env k).
Proof.
  destruct k; cbn [run_action];
  unfold newaccount, setram, setparams, setpriv, rmvproducer, bidname, buyrambytes, sellram, delegatebw, undelegatebw, refund, regproducer,
    unregprod, onblock, close_auction, claimrewards, fill_buckets; calm_step.
Qed.
Lemma calm_apply k : calm (apply env k).
Proof. unfold apply, construct, destruct_contract. calm_step. apply calm_action. Qed.
End votes.

Section theorem.
Context `{SystemLib}.
Lemma reachable_forest s : reachable s -> forest (graph s).
Proof.
  induction 1 as [c|env k s s' _ IH _ E|s l _ IH]; [|exact (wpe_ok _ _ _ _ _ _ (calm_apply env k s IH) E)|done].
  split; [by intros ? ? ? ?..|]. exists (fun _ => O). by intros ? ? ? ? ?.
Qed.

(** C29 In every reachable state an account that is a proxy uses none, a voter with a proxy names no
    producers, ballots name at most thirty producers in strictly increasing order, and the proxies form no
    cycle: a rank falls along them. So every action, and the recursion that passes weights on from
    proxy to proxy, ends: one step for each voter is always enough. *)
Theorem proxies_acyclic (s : sys) : reachable s ->
  (forall a r, voters s !! a = Some r ->
     (is_proxy (obj r) = true -> vi_proxy (obj r) = 0) /\ (vi_proxy (obj r) <> 0 -> vi_producers (obj r) = []) /\
     (length (vi_producers (obj r)) <= 30)%nat /\ sorted_unique (vi_producers (obj r)) = true) /\
  (exists rank : Z -> nat, forall a r, voters s !! a = Some r -> vi_proxy (obj r) <> 0 -> (rank (vi_proxy (obj r)) < rank a)%nat) /\
  (forall env v, (propagate_weight_change env (S (size (voters s))) v s).2 <> Throw deadline_exception) /\
  (forall env k, (apply env k s).2 <> Throw deadline_exception).
Proof.
  intros Hr%reachable_forest. pose proof Hr as [F1 F2 [rank F3]].
  assert (Hg : forall a r, voters s !! a = Some r -> graph s !! a = Some (ballot (obj r)))
    by (intros a r Hr'; unfold graph; by rewrite lookup_fmap, Hr'). split_and!.
  - intros a r Hv%Hg. destruct (F2 _ _ _ _ Hv) as (B1 & B2 & B3). split_and!; try done. intros Hp. unfold ballot in Hv. rewrite Hp in Hv. by eapply F1.
  - exists rank. intros a r Hv%Hg. by eapply F3.
  - intros env v He. pose proof (calm_propagate env v s Hr) as Hc. unfold propagate, wpe in Hc. run_st in Hc. 
    destruct (propagate_weight_change env _ v s) as [s' [a|e]]; [done|]. cbn in He. injection He as ->. by apply Hc.
  - intros env k He. pose proof (calm_apply env k s Hr) as Hc. unfold wpe in Hc. destruct (apply env k s) as [s' [a|e]]; [done|].
    cbn in He. injection He as ->. by apply Hc.
Qed.
End theorem.

Import SystemSample.
Lemma proxies_acyclic_witness :
  (apply (at_time day [alice]) (Voteproducer alice bob []) staked_for_bob).2 <> Throw deadline_exception.
Proof. destruct (proxies_acyclic staked_for_bob staked_reachable) as (_ & _ & _ & Ha). exact (Ha (at_time day [alice]) (Voteproducer alice bob [])). Defined.
