(* ===== verification/SystemElection.v ===== *)
(** * The system contract: the elected schedule and the auction of names

    The schedule that is proposed consists of the producers with the most votes, and the auction that
    a block closes is the one with the highest bid. *)
From Stdlib Require Import Ascii String SpecFloat.
From S2P Require Import Prelude BlockHeaderState Names Asset TransactionContext Token.
From S2P Require Import SystemState SystemVoting SystemStaking SystemContract SystemFrame SystemBooks SystemTrade SystemAccounts SystemSolvent.

(** ** The order of doubles

    A double that is a number is ordered like the triple of its class, exponent and mantissa. *)
Definition order_key (d : double) : Z * Z * Z :=
  match d with
  | S754_zero _ | S754_nan => (0, 0, 0)
  | S754_infinity s => (if s then -2 else 2, 0, 0)
  | S754_finite s m e => if s then (-1, - e, - Z.pos m) else (1, e, Z.pos m)
  end.
Definition key_lt (a b : Z * Z * Z) : Prop :=
  a.1.1 < b.1.1 \/ (a.1.1 = b.1.1 /\ (a.1.2 < b.1.2 \/ (a.1.2 = b.1.2 /\ a.2 < b.2))).
Definition key_neg (a : Z * Z * Z) : Z * Z * Z := (- a.1.1, - a.1.2, - a.2).

Lemma dlt_key a b : is_nan a = false -> is_nan b = false -> dlt a b = true <-> key_lt (order_key a) (order_key b).
Proof.
  intros Ha Hb. unfold dlt, SFltb, SFcompare, key_lt.
  destruct a as [sa|sa| |sa ma ea]; [| |done|]; destruct b as [sb|sb| |sb mb eb]; try done; cbn [order_key];
    repeat match goal with s : bool |- _ => destruct s end; cbn [fst snd]; try (split; [done|lia]); try (split; [intros _; lia|done]).
  - change (Pos.compare_cont Eq ma mb) with (Pos.compare ma mb). destruct (Z.compare_spec ea eb); [|split; [done|lia]|split; [intros _; lia|done]].
    rewrite <- Pos.compare_antisym. destruct (Pos.compare_spec mb ma); split; (done || lia).
  - change (Pos.compare_cont Eq ma mb) with (Pos.compare ma mb). destruct (Z.compare_spec ea eb); [|split; [intros _; lia|done]|split; [done|lia]].
    destruct (Pos.compare_spec ma mb); split; (done || lia).
Qed.
Lemma dlt_key_false a b : is_nan a = false -> is_nan b = false -> dlt a b = false <-> ~ key_lt (order_key a) (order_key b).
Proof. intros Ha Hb. rewrite <- (dlt_key a b Ha Hb). by destruct (dlt a b). Qed.
Lemma dneg_key a : order_key (dneg a) = key_neg (order_key a).
Proof. by destruct a as [[]|[]| |[] m e]; unfold key_neg; cbn; rewrite ?Z.opp_involutive. Qed.
Lemma dneg_nan a : is_nan (dneg a) = is_nan a.
Proof. by destruct a. Qed.

(** ** Sorting a table *)
Lemma StronglySorted_on {A} (P : A -> Prop) (R : relation A) l :
  (forall x y z, P x -> P y -> P z -> R x y -> R y z -> R x z) -> Forall P l -> Sorted R l -> StronglySorted R l.
Proof.
  intros HR. induction l as [|x l IH]; intros Hl Hs; [constructor|]. apply Forall_cons in Hl as [Hx Hl].
  apply Sorted_inv in Hs as [Hs Hh]. specialize (IH Hl Hs). constructor; [done|].
  destruct l as [|y l]; [constructor|]. apply HdRel_inv in Hh. apply Forall_cons in Hl as [Hy Hl]. apply StronglySorted_inv in IH as [_ IH].
  constructor; [done|]. rewrite Forall_forall in IH, Hl |- *. intros z Hz. eapply HR; [exact Hx|exact Hy| |exact Hh|]; auto.
Qed.
Lemma index_elem {A} (R : relation A) `{!RelDecision R} (m : gmap Z (row A)) x :
  x ∈ merge_sort R ((fun kr : Z * row A => obj kr.2) <$> map_to_list m) <-> exists k p, m !! k = Some (Row p x).
Proof.
  rewrite (merge_sort_Permutation R), list_elem_of_fmap. split.
  - intros ([k [p y]] & -> & Hk%elem_of_map_to_list). by exists k, p.
  - intros (k & p & Hk%elem_of_map_to_list). by exists (k, Row p x).
Qed.

(** ** The rows behind the indices

    Rows carry their keys, the votes of producers are numbers, and bids fit their width. *)
Definition roster (s : sys) : Prop :=
  forall k r, producers s !! k = Some r -> pi_owner (obj r) = k /\ is_nan (by_votes (obj r)) = false.
Definition holds_indices (s s' : sys) : Prop := (roster s -> roster s') /\ (bids_ok (namebids s) -> bids_ok (namebids s')).
#[local] Instance holds_indices_preorder : PreOrder holds_indices.
Proof. split; [by intros s; split; intros h|]. intros s t u [A1 A2] [B1 B2]. split; auto. Qed.
#[local] Hint Resolve holds_indices_preorder : moves.
Lemma indices_same s s' : producers s' = producers s -> namebids s' = namebids s -> holds_indices s s'.
Proof. unfold holds_indices, roster. by intros -> ->. Qed.
Lemma roster_insert s m k p a : roster s -> m = <[k := Row p a]> (producers s) -> pi_owner a = k -> is_nan (by_votes a) = false ->
  roster (set_producers m s).
Proof. intros Hr -> Hk Hn k' r. cbn. intros [[<- <-]|[_ Hl]]%lookup_insert_Some; [done|by apply Hr]. Qed.
Lemma roster_modify p k g : (forall v, pi_owner (g v) = pi_owner v) -> moves holds_indices (modify _producers p k g).
Proof.
  intros Hg s. unfold modify. run_st. cbn [rows set_rows storable _producers]. destruct (producers s !! k) as [r|] eqn:E; [|done].
  destruct (negb _) eqn:En; [|done]. split; [|done]. intros Hr. eapply roster_insert; [done..| |by apply negb_true_iff]. rewrite Hg. by apply Hr.
Qed.
Lemma roster_emplace p k a : pi_owner a = k -> moves holds_indices (emplace _producers p k a).
Proof.
  intros Hk s. unfold emplace. run_st. cbn [rows set_rows storable _producers]. destruct (bool_decide _); [|done].
  destruct (negb _) eqn:En; [|done]. split; [|done]. intros Hr. eapply roster_insert; [done..|by apply negb_true_iff].
Qed.
Lemma bids_modify p k g : (forall b, newname (g b) = newname b) -> (forall b, int64 (high_bid (g b))) ->
  moves holds_indices (modify name_bid_table p k g).
Proof.
  intros Hg Hi s. unfold modify. run_st. cbn [rows set_rows storable name_bid_table any]. destruct (namebids s !! k) as [r|] eqn:E; [|done].
  split; [done|]. intros Hb. apply bids_ok_insert; [done| |apply Hi]. rewrite Hg. by apply Hb.
Qed.
Lemma bids_emplace p k b : newname b = k -> int64 (high_bid b) -> moves holds_indices (emplace name_bid_table p k b).
Proof.
  intros Hk Hi s. unfold emplace. run_st. cbn [rows set_rows storable name_bid_table any]. destruct (bool_decide _); [|done].
  split; [done|]. intros Hb. by apply bids_ok_insert.
Qed.
Lemma bids_erase k : moves holds_indices (erase name_bid_table k).
Proof. intros s. split; [done|]. intros Hb k' r. cbn. intros [_ Hk]%lookup_delete_Some. by apply Hb. Qed.
#[local] Hint Resolve bids_erase : moves.
#[local] Hint Extern 1 (moves holds_indices (modify _producers _ _ _)) => apply roster_modify; reflexivity : moves.
#[local] Hint Extern 1 (moves holds_indices (emplace _producers _ _ _)) => apply roster_emplace; reflexivity : moves.
#[local] Hint Extern 1 (moves holds_indices (modify name_bid_table _ _ _)) => apply bids_modify; [done|intros; first [done|apply i64_range]] : moves.
#[local] Hint Extern 1 (moves holds_indices (emplace name_bid_table _ _ _)) => apply bids_emplace; done : moves.
#[local] Hint Extern 2 (moves holds_indices (modify _ _ _ _)) => apply moves_row_modify; [apply _|intros; by apply indices_same] : moves.
#[local] Hint Extern 2 (moves holds_indices (emplace _ _ _ _)) => apply moves_emplace; [apply _|intros; by apply indices_same] : moves.
#[local] Hint Extern 2 (moves holds_indices (erase _ _)) => apply moves_erase; intros; by apply indices_same : moves.
#[local] Hint Extern 1 (moves holds_indices (set_gstate_with _)) => apply moves_modify; intros; by apply indices_same : moves.
#[local] Hint Extern 1 (moves holds_indices (send _)) => apply moves_modify; intros; by apply indices_same : moves.
#[local] Hint Extern 1 (moves holds_indices (modify_st _)) => apply moves_modify; intros; by apply indices_same : moves.

Section election.
Context `{SystemLib}.

Lemma indices_propagate env fuel v : moves holds_indices (propagate_weight_change env fuel v).
Proof. revert v. induction fuel as [|fuel IH]; intros v; cbn [propagate_weight_change]; [moves_step|]. unfold check. moves_step. Qed.
Hint Resolve indices_propagate : moves.
Lemma indices_update_votes env v p l b : moves holds_indices (update_votes env v p l b).
Proof.
  unfold update_votes, validate_vote, activate_stake, undo_vote, cast_vote, apply_delta, propagate, check.
  moves_step.
Qed.
Hint Resolve indices_update_votes : moves.
Lemma indices_market {A} (f : exchange_state -> result (exchange_state * A)) : moves holds_indices (modify_market f).
Proof. unfold modify_market. moves_step. Qed.
Hint Resolve indices_market : moves.
Lemma indices_buyram env payer receiver q : moves holds_indices (buyram env payer receiver q).
Proof. unfold buyram, reserve_ram, send_transfer, set_resource_limits, check, require_auth. moves_step. Qed.
Hint Resolve indices_buyram : moves.
Lemma indices_changebw env f r n c t : moves holds_indices (changebw env f r n c t).
Proof.
  unfold changebw, update_delegation, write_delegation, update_totals, write_totals, update_refund, change_refund, update_voter, write_stake,
    validate_b1_vesting, set_resource_limits, send_transfer, check, require_auth. moves_step.
Qed.
Hint Resolve indices_changebw : moves.
Lemma indices_action env k : typed k -> moves holds_indices (apply env k).
Proof.
  intros Hk. unfold apply, construct, destruct_contract. destruct k; cbn [run_action typed] in *;
  unfold newaccount, setram, setparams, setpriv, rmvproducer, regproducer, unregprod, voteproducer, regproxy, onblock, update_elected_producers,
    close_auction, claimrewards, fill_buckets, bidname, buyrambytes, sellram, release_ram, delegatebw, undelegatebw, refund, send_transfer,
    set_resource_limits, propagate, check, require_auth; moves_step.
Qed.
Lemma reachable_indices s : reachable s -> roster s /\ bids_ok (namebids s).
Proof.
  induction 1 as [c|env k s s' _ [IH1 IH2] Hk E|s l _ IH]; [by split; intros k r; cbn; rewrite lookup_empty| |done].
  destruct (indices_action env k Hk s) as [H1 H2]. rewrite E in H1, H2. split; [by apply H1|by apply H2].
Qed.

(** ** The elected *)
Definition electable (p : producer_info) : bool := dlt zero (total_votes p) && is_active p.
Lemma elect_prefix n l : exists l', l = elect n l ++ l' /\ (length (elect n l) <= n)%nat /\ Forall (fun p => electable p = true) (elect n l) /\
  (length (elect n l) = n \/ match l' with [] => True | p :: _ => electable p = false end).
Proof.
  revert l. induction n as [|n IH]; intros [|p l]; cbn.
  { by exists []; auto. }
  { exists (p :: l). split_and!; auto. }
  { exists []. split_and!; auto. lia. }
  fold (electable p). destruct (electable p) eqn:Ep; [|exists (p :: l); cbn; split_and!; auto; lia].
  destruct (IH l) as (l' & E & Hlen & Hall & Hstop). exists l'. cbn. split_and!; [by f_equal|lia|by constructor|]. destruct Hstop; [left; lia|by right].
Qed.

Lemma vote_order_key a b : is_nan (by_votes a) = false -> is_nan (by_votes b) = false -> vote_order a b <->
  key_lt (order_key (by_votes a)) (order_key (by_votes b)) \/
  (~ key_lt (order_key (by_votes b)) (order_key (by_votes a)) /\ pi_owner a <= pi_owner b).
Proof. intros Ha Hb. unfold vote_order. by rewrite dlt_key, dlt_key_false. Qed.
Lemma prototalvote_sorted s : roster s -> StronglySorted vote_order (prototalvote s).
Proof.
  intros Hr. apply (StronglySorted_on (fun p => is_nan (by_votes p) = false)).
  - intros x y z Hx Hy Hz. rewrite !vote_order_key by done. unfold key_lt. lia.
  - apply Forall_forall. intros p (k & q & Hk)%index_elem. by apply (Hr k (Row q p)).
  - apply Sorted_merge_sort. intros x y. unfold vote_order. destruct (dlt (by_votes x) (by_votes y)), (dlt (by_votes y) (by_votes x)); auto.
    destruct (Z.le_ge_cases (pi_owner x) (pi_owner y)); auto.
Qed.
Lemma prototalvote_elem s p : roster s -> p ∈ prototalvote s <-> exists q, producers s !! pi_owner p = Some (Row q p).
Proof.
  intros Hr. etransitivity; [apply index_elem|]. split; [|by intros [q Hq]; exists (pi_owner p), q].
  intros (k & q & Hk). destruct (Hr _ _ Hk) as [Ek _]. cbn in Ek. subst k. by exists q.
Qed.
Lemma prototalvote_nodup s : roster s -> NoDup (pi_owner <$> prototalvote s).
Proof.
  intros Hr. unfold prototalvote. rewrite (merge_sort_Permutation vote_order), <- list_fmap_compose.
  rewrite (list_fmap_ext _ fst); [apply NoDup_fst_map_to_list|]. intros i [k r] Hk%list_elem_of_lookup_2%elem_of_map_to_list. by apply Hr.
Qed.
Lemma vote_order_not_after s p q : roster s -> p ∈ prototalvote s -> q ∈ prototalvote s -> vote_order p q ->
  ~ key_lt (order_key (by_votes q)) (order_key (by_votes p)) /\ is_nan (total_votes p) = false /\ is_nan (total_votes q) = false.
Proof.
  intros Hr (x & Hx)%prototalvote_elem (y & Hy)%prototalvote_elem; [|done..]. apply Hr in Hx as [_ Hx]. apply Hr in Hy as [_ Hy]. cbn [obj] in *.
  rewrite vote_order_key by done. intros Ho. split; [unfold key_lt in *; lia|].
  unfold by_votes in *. destruct (is_active p), (is_active q); by rewrite ?dneg_nan in *.
Qed.
(** A producer that is left out has fewer votes than each of the twenty-one, or the index stops at a
    deactivated producer with negative votes. *)
Lemma elect_best s q : roster s -> q ∈ prototalvote s -> electable q = true -> q ∉ elect 21 (prototalvote s) ->
  (forall p, p ∈ prototalvote s -> is_active p = false -> dlt (total_votes p) zero = false) ->
  length (elect 21 (prototalvote s)) = 21%nat /\
  forall p, p ∈ elect 21 (prototalvote s) -> dlt (total_votes p) (total_votes q) = false.
Proof.
  intros Hr Hq Eq Nq Hneg. pose proof (prototalvote_sorted s Hr) as Hs. destruct (elect_prefix 21 (prototalvote s)) as (l' & E & _ & Hall & Hstop).
  assert (q ∈ l') as Hq' by (rewrite E in Hq; apply elem_of_app in Hq as [?|?]; done).
  unfold electable in Eq. apply andb_true_iff in Eq as [Pq Aq]. split.
  - destruct Hstop as [?|Hstop]; [done|exfalso]. destruct l' as [|x l']; [by apply elem_of_nil in Hq'|].
    assert (x ∈ prototalvote s) as Hx by (rewrite E; apply elem_of_app; right; by left).
    assert (vote_order x q) as Hxq.
    { apply elem_of_cons in Hq' as [->|Hq']; [unfold electable in Hstop; by rewrite Pq, Aq in Hstop|].
      rewrite E in Hs. apply StronglySorted_app_1_r in Hs. apply StronglySorted_inv in Hs as [_ Hs]. rewrite Forall_forall in Hs. by apply Hs. }
    destruct (vote_order_not_after s x q) as (Ho & Nx & Nq'); [done..|]. apply dlt_key in Pq; [|done..]. specialize (Hneg x Hx).
    unfold electable, by_votes in *. rewrite Aq, dneg_key in Ho. destruct (is_active x).
    + rewrite andb_true_r in Hstop. apply dlt_key_false in Hstop; [|done..]. rewrite dneg_key in Ho. unfold key_lt, key_neg in *. cbn in *. lia.
    + specialize (Hneg eq_refl). apply dlt_key_false in Hneg; [|done..]. unfold key_lt, key_neg in *. cbn in *. lia.
  - intros p Hp. assert (p ∈ prototalvote s) as Hp' by (rewrite E; apply elem_of_app; by left).
    rewrite E in Hs. apply StronglySorted_app_1_elem_of with (x1 := p) (x2 := q) in Hs; [|done..].
    destruct (vote_order_not_after s p q) as (Ho & Np & Nq'); [done..|]. apply dlt_key_false; [done..|].
    rewrite Forall_forall in Hall. apply Hall in Hp. unfold electable in Hp. apply andb_true_iff in Hp as [_ Ap].
    unfold by_votes in Ho. rewrite Ap, Aq, !dneg_key in Ho. unfold key_lt, key_neg in *. cbn in *. lia.
Qed.

Definition schedule (s : sys) : list producer_key := schedule_key <$> merge_sort name_order (elect 21 (prototalvote s)).
Lemma schedule_elem s k : k ∈ schedule s <-> exists p, k = schedule_key p /\ p ∈ elect 21 (prototalvote s).
Proof. unfold schedule. rewrite list_elem_of_fmap. by setoid_rewrite (merge_sort_Permutation name_order). Qed.
Lemma schedule_length s : length (schedule s) = length (elect 21 (prototalvote s)).
Proof. unfold schedule. by rewrite length_fmap, (merge_sort_Permutation name_order). Qed.
Lemma sorted_names l : NoDup (pi_owner <$> l) -> StronglySorted name_order l -> StronglySorted Z.lt (pi_owner <$> l).
Proof.
  induction l as [|p l IH]; cbn; [constructor|]. intros [Hp Hn]%NoDup_cons [Hs Hf]%StronglySorted_inv. constructor; [auto|].
  apply Forall_fmap, Forall_forall. intros q Hq. rewrite Forall_forall in Hf. specialize (Hf q Hq). cbn.
  assert (pi_owner p <> pi_owner q) by (intros Eq; apply Hp; rewrite Eq; by apply list_elem_of_fmap_2). unfold name_order in Hf. lia.
Qed.
Lemma schedule_sorted s : roster s -> StronglySorted Z.lt (producer_name <$> schedule s).
Proof.
  intros Hr. unfold schedule. rewrite <- list_fmap_compose. change (producer_name ∘ schedule_key) with pi_owner. apply sorted_names.
  - rewrite (merge_sort_Permutation name_order). destruct (elect_prefix 21 (prototalvote s)) as (l' & E & _).
    pose proof (prototalvote_nodup s Hr) as Hn. rewrite E, fmap_app in Hn. apply NoDup_app in Hn as [Hn _]. exact Hn.
  - apply StronglySorted_merge_sort.
    + intros x y z. unfold name_order. lia.
    + intros x y. unfold name_order. lia.
Qed.

(** ** The auction *)
Lemma highbid_sorted s : StronglySorted bid_order (highbid s).
Proof.
  apply StronglySorted_merge_sort.
  - intros x y z. unfold bid_order. lia.
  - intros x y. unfold bid_order. lia.
Qed.
(** An open auction comes first only if all are open and none has a higher bid. *)
Lemma highbid_first s b l : bids_ok (namebids s) -> highbid s = b :: l -> 0 < high_bid b ->
  forall k r, namebids s !! k = Some r -> 0 < high_bid (obj r) <= high_bid b.
Proof.
  intros Hok E Hb k [p b'] Hk. cbn [obj]. pose proof (highbid_sorted s) as Hs. rewrite E in Hs. apply StronglySorted_inv in Hs as [_ Hs].
  destruct (Hok _ _ Hk) as [_ Hi]. destruct (highbid_in _ _ _ E) as (kb & q & Hkb). destruct (Hok _ _ Hkb) as [_ Hi']. cbn [obj] in *.
  assert (b' ∈ highbid s) as [->|Hin]%(eq_ind _ (fun l => b' ∈ l -> _) (proj1 (elem_of_cons l b' b)) _ (eq_sym E)).
  { apply index_elem. by exists k, p. }
  { lia. }
  rewrite Forall_forall in Hs. specialize (Hs b' Hin). unfold bid_order, by_high_bid, u64, int64 in *.
  assert ((- high_bid b) mod 2 ^ 64 = 2 ^ 64 - high_bid b) as E1 by (rewrite <- (Z_mod_plus_full _ 1), Z.mod_small; lia).
  rewrite E1 in Hs. destruct (Z.lt_ge_cases 0 (high_bid b')) as [Hp|Hn].
  - assert ((- high_bid b') mod 2 ^ 64 = 2 ^ 64 - high_bid b') as E2 by (rewrite <- (Z_mod_plus_full _ 1), Z.mod_small; lia). lia.
  - rewrite (Z.mod_small (- high_bid b')) in Hs by lia. lia.
Qed.

Definition close_bid (r : row name_bid) : row name_bid :=
  Row (payer r) (NameBid (newname (obj r)) (high_bidder (obj r)) (- high_bid (obj r)) (last_bid_time (obj r))).
Definition closes (env : call_env) (m m' : gmap Z (row name_bid)) : Prop :=
  m' = m \/ exists k r, m !! k = Some r /\ m' = <[k := close_bid r]> m /\ last_bid_time (obj r) < u64 (current_time env - useconds_per_day) /\
    forall k' r', m !! k' = Some r' -> 0 < high_bid (obj r') <= high_bid (obj r).
Definition shown (s : sys) := (outbox s, producers s).
Lemma close_auction_spec env t s : bids_ok (namebids s) ->
  wp (close_auction env t) (fun _ s' => shown s' = shown s /\ closes env (namebids s) (namebids s')) s.
Proof.
  intros Hok. unfold close_auction. wp_step. wp_step. destruct (highbid s) as [|b l] eqn:E; [wp_step; split; [done|by left]|].
  wp_step; [|wp_step; split; [done|by left]]. bool_to_prop. pose proof (highbid_first s b l Hok E ltac:(done)) as Hfirst.
  destruct (highbid_in _ _ _ E) as (k & p & Hk). destruct (Hok _ _ Hk) as [<- Hi]. cbn [obj] in *.
  unfold set_gstate_with. wp_step. wp_step. apply wp_modify_row.
  cbn [rows set_rows name_bid_table namebids set_gstate set_namebids]. intros r Hr. assert (r = Row p b) as -> by congruence. cbn [obj payer].
  split; [done|]. right. exists (newname b), (Row p b). split_and!; try done. unfold close_bid. cbn. by rewrite i64_small by (unfold int64 in Hi; lia).
Qed.

(** ** A block *)
Definition stage (s : sys) := (outbox s, namebids s).
Definition proposed (s s' : sys) : Prop := outbox s' = outbox s \/ outbox s' = outbox s ++ [Set_proposed_producers (schedule s')].
Lemma update_elected_spec env t s : wp (update_elected_producers env t) (fun _ s' => proposed s s' /\ producers s' = producers s /\ namebids s' = namebids s) s.
Proof.
  unfold update_elected_producers, set_gstate_with. wp_step. wp_step. wp_step. wp_step. wp_step; [wp_step; split_and!; [by left|done..]|].
  wp_step. apply wp_send. wp_step; wp_step; (split_and!; [by right|done..]).
Qed.
Hint Extern 1 (keeps stage (set_gstate_with _)) => done : keeps.
Hint Extern 1 (keeps stage (modify _ _ _ _)) => apply keeps_table; done : keeps.
Hint Extern 1 (keeps stage (emplace _ _ _ _)) => apply keeps_table; done : keeps.
Lemma onblock_spec env t p s : bids_ok (namebids s) ->
  wp (onblock env t p) (fun _ s' => proposed s s' /\ closes env (namebids s) (namebids s')) s.
Proof.
  intros Hok. unfold onblock, require_auth.
  assert (Hidle : forall s', stage s' = stage s -> proposed s s' /\ closes env (namebids s) (namebids s')).
  { intros s' [= E1 E2]. split; [by left|by left; rewrite E2]. }
  wp_step. eapply (wp_keeps stage); [keeps_step|]. intros _ s1 E1.
  wp_step. eapply (wp_keeps stage); [keeps_step|]. intros g s2 E2. wp_step; [wp_step; apply Hidle; congruence|].
  wp_step. eapply (wp_keeps stage); [keeps_step|]. intros _ s3 E3.
  wp_step. eapply (wp_keeps stage); [keeps_step|]. intros o s4 E4.
  wp_step. eapply (wp_keeps stage); [keeps_step|]. intros _ s5 E5.
  wp_step. eapply (wp_keeps stage); [keeps_step|]. intros g' s6 E6.
  assert (Eq : stage s6 = stage s) by congruence. wp_step; [|wp_step; by apply Hidle]. clear E1 E2 E3 E4 E5 E6.
  wp_step. eapply wp_mono; [apply update_elected_spec|]. intros [] s7 (Hp & Ep & En). injection Eq as Eo Eb.
  unfold proposed in Hp. rewrite Eo in Hp. rewrite Eb in En.
  wp_step. change (wp (gets gstate) ?P ?s) with (P (gstate s) s). cbv beta. wp_step; [|wp_step; split; [done|by left]].
  eapply wp_mono; [apply close_auction_spec; by rewrite En|]. intros [] s8 ([= Eo' Ep'] & Hc). rewrite En in Hc. split; [|done].
  unfold proposed, schedule, prototalvote in *. by rewrite Eo', Ep'.
Qed.
Lemma onblock_apply env t p s : bids_ok (namebids s) ->
  wp (apply env (Onblock t p)) (fun _ s' => proposed s s' /\ closes env (namebids s) (namebids s')) s.
Proof.
  intros Hok. unfold apply. wp_step. eapply (wp_keeps stage); [unfold construct; keeps_step|]. intros [] s1 [= Eo Eb].
  wp_step. eapply wp_mono; [apply onblock_spec; by rewrite Eb|]. intros [] s2 [Hp Hc]. rewrite Eb in Hc. unfold proposed in *. rewrite Eo in Hp.
  unfold destruct_contract. wp_step. split; done.
Qed.

(** C30 The schedule that a block proposes has at most twenty-one producers, each once and in the order of
    names, every one of them registered with the proposed key, active and with positive votes. Unless a
    deactivated producer has negative votes, an active producer with positive votes is left out only when all
    twenty-one places are taken by producers that do not have fewer votes. The exception is real:
    [propagate_weight_change] can leave negative votes, and the loop stops at such a producer. *)
Theorem elected_have_most_votes (env : call_env) (t : Z) (p : account_name) (s s' : sys) (l : list producer_key) :
  reachable s -> outbox s = [] -> apply env (Onblock t p) s = (s', Ok tt) -> Set_proposed_producers l ∈ outbox s' ->
  (length l <= 21)%nat /\ StronglySorted Z.lt (producer_name <$> l) /\
  (forall k, k ∈ l -> exists r, producers s' !! producer_name k = Some r /\ block_signing_key k = pi_key (obj r) /\
     is_active (obj r) = true /\ dlt zero (total_votes (obj r)) = true) /\
  ((forall a r, producers s' !! a = Some r -> is_active (obj r) = false -> dlt (total_votes (obj r)) zero = false) ->
   forall a r, producers s' !! a = Some r -> is_active (obj r) = true -> dlt zero (total_votes (obj r)) = true ->
     a ∉ producer_name <$> l ->
     length l = 21%nat /\
     forall k rk, k ∈ l -> producers s' !! producer_name k = Some rk -> dlt (total_votes (obj rk)) (total_votes (obj r)) = false).
Proof.
  intros Hr Ho E Hl. assert (reachable s') as [Hr' _]%reachable_indices by (by eapply (reachable_action env (Onblock t p))).
  destruct (wp_ok _ _ _ _ _ (onblock_apply env t p s (proj2 (reachable_indices s Hr))) E) as [Hp _].
  assert (l = schedule s') as ->.
  { destruct Hp as [Hp|Hp]; rewrite Hp, Ho in Hl; [by apply elem_of_nil in Hl|]. apply list_elem_of_singleton in Hl. by injection Hl. }
  clear E Hl Hp Ho Hr. destruct (elect_prefix 21 (prototalvote s')) as (l' & E & Hlen & Hall & _). rewrite Forall_forall in Hall.
  assert (Hin : forall x, x ∈ elect 21 (prototalvote s') -> x ∈ prototalvote s') by (intros x Hx; rewrite E; apply elem_of_app; by left).
  split_and!; [by rewrite schedule_length|by apply schedule_sorted| |].
  - intros k (x & -> & Hx)%schedule_elem. destruct (proj1 (prototalvote_elem s' x Hr') (Hin x Hx)) as [q Hq].
    apply Hall in Hx. unfold electable in Hx. apply andb_true_iff in Hx as [? ?]. by exists (Row q x).
  - intros Hneg a [pr x] Ha Hact Hpos Hnot. destruct (Hr' _ _ Ha) as [Ea _]. cbn [obj] in *. subst a.
    destruct (elect_best s' x Hr') as [Hfull Hbest].
    + apply prototalvote_elem; [done|by exists pr].
    + unfold electable. by rewrite Hact, Hpos.
    + intros Hx. apply Hnot, list_elem_of_fmap. exists (schedule_key x). split; [done|]. apply schedule_elem. by exists x.
    + intros y (q & Hq)%prototalvote_elem; [|done]. by apply (Hneg _ _ Hq).
    + split; [by rewrite schedule_length|]. intros k rk (y & -> & Hy)%schedule_elem Hk.
      destruct (proj1 (prototalvote_elem s' y Hr') (Hin y Hy)) as [q Hq]. cbn in Hk. rewrite Hk in Hq. injection Hq as ->. by apply Hbest.
Qed.

(** C37 A block closes at most one auction, the one with the highest bid, with no bid for a day, and only
    when every auction in the table is still open: an auction that was closed stays until its name is
    created, and until then no other auction is ever closed. *)
Theorem highest_bid_closed (env : call_env) (t : Z) (p : account_name) (s s' : sys) :
  reachable s -> apply env (Onblock t p) s = (s', Ok tt) ->
  closes env (namebids s) (namebids s') /\
  ((exists k r, namebids s !! k = Some r /\ high_bid (obj r) <= 0) -> namebids s' = namebids s).
Proof.
  intros [_ Hb]%reachable_indices E. destruct (wp_ok _ _ _ _ _ (onblock_apply env t p s Hb) E) as [_ Hc]. split; [done|].
  intros (k & r & Hk & Hneg). destruct Hc as [?|(k' & r' & Hk' & _ & _ & Hall)]; [done|]. specialize (Hall k r Hk). lia.
Qed.
End election.

(** ** Bob is elected, and a name is sold *)
Module ElectionSample.
Import SystemSample.
Definition then_run (env : call_env) (k : call) (s : sys) : sys := set_outbox [] (apply env k s).1.
Definition carol : Z := Eval vm_compute in string_to_name (lit "carol").
Definition dave : Z := Eval vm_compute in string_to_name (lit "dave").
Definition free_at (t : Z) (auths : list account_name) : call_env :=
  CallEnv n_besio auths t (fun _ => false) TokenSample.issued params true.
Definition stake : asset := core 1500000000001.
(** The votes of one block, the bids of the next days, and the block at their end. *)
Definition history : list (call_env * call) :=
  [(at_time day [alice], Delegatebw alice alice (core 1500000000000) stake false);
   (at_time day [bob], Regproducer bob 7 [] 0);
   (at_time day [alice], Voteproducer alice 0 [bob]);
   (free_at day [alice], Bidname alice carol (core 10));
   (free_at day [bob], Bidname bob dave (core 20))].
Definition replay (l : list (call_env * call)) : sys := foldl (fun s '(env, k) => then_run env k s) (empty params) l.
Definition voted : sys := Eval vm_compute in replay history.
Definition later : call_env := at_time (day + 15 * useconds_per_day) [n_besio].
Definition elected : sys := Eval vm_compute in (apply later (Onblock 3000000 bob) voted).1.
Lemma elected_run : apply later (Onblock 3000000 bob) voted = (elected, Ok tt).
Proof. by vm_compute. Qed.
Lemma voted_reachable : reachable voted.
Proof.
  assert (Hr : forall l s, reachable s -> Forall (fun '(env, k) => typed k) l ->
    (forall l1 env k l2, l = l1 ++ (env, k) :: l2 -> (apply env k (foldl (fun s '(env, k) => then_run env k s) s l1)).2 = Ok tt) ->
    reachable (foldl (fun s '(env, k) => then_run env k s) s l)).
  { induction l as [|[env k] l IH]; intros s Hs Hl Hok; [done|]. apply Forall_cons in Hl as [Hk Hl]. cbn [foldl]. apply IH; [|done|].
    - unfold then_run. apply reachable_sent. eapply (reachable_action env k s); [done..|]. specialize (Hok [] env k l eq_refl). cbn in Hok.
      destruct (apply env k s) as [s' r]. cbn in *. by subst.
    - intros l1 env' k' l2 ->. exact (Hok ((env, k) :: l1) env' k' l2 eq_refl). }
  change voted with (replay history). apply Hr; [constructor|repeat constructor; done|].
  intros l1 env k l2 E. do 5 (destruct l1 as [|? l1]; [injection E as <- <- _; by vm_compute|injection E as <- E]). by destruct l1.
Qed.
End ElectionSample.
Import SystemSample ElectionSample.
Lemma elected_have_most_votes_witness : StronglySorted Z.lt [bob] /\ exists r, producers elected !! bob = Some r /\ is_active (obj r) = true.
Proof.
  destruct (elected_have_most_votes later 3000000 bob voted elected [ProducerKey bob 7]) as (_ & Hs & Hin & _).
  - apply voted_reachable.
  - vm_compute. reflexivity.
  - apply elected_run.
  - vm_compute. left.
  - split; [exact Hs|]. destruct (Hin (ProducerKey bob 7)) as (r & Hr & _ & Ha & _); [left|]. exists r. split; [exact Hr|exact Ha].
Defined.
(** Dave's name, with the higher bid, is sold; until it is created Carol's is not. *)
Lemma highest_bid_closed_witness :
  closes later (namebids voted) (namebids elected) /\ (high_bid ∘ obj) <$> namebids elected !! dave = Some (-20) /\
  (high_bid ∘ obj) <$> namebids elected !! carol = Some 10.
Proof.
  destruct (highest_bid_closed later 3000000 bob voted elected) as [Hc _]; [apply voted_reachable|apply elected_run|].
  split; [exact Hc|split; vm_compute; reflexivity].
Defined.
