(* ===== verification/SystemPay.v ===== *)
(** * The system contract: pay for blocks

    The count of unpaid blocks, and that a claim takes a fair share of the bucket. *)
From Stdlib Require Import Ascii String SpecFloat.
From S2P Require Import Prelude BlockHeaderState Names Asset TransactionContext Token.
From S2P Require Import SystemState SystemVoting SystemStaking SystemContract SystemFrame SystemBooks SystemTrade SystemAccounts SystemElection.

(** ** The count *)
Definition unpaid_sum (s : sys) : Z := map_sum (fun _ u => u) (unpaid s).
Record counted (s : sys) : Prop := {
  co_total : total_unpaid_blocks (gstate s) = u32 (unpaid_sum s);
  co_rows : forall k u, unpaid s !! k = Some u -> 0 <= u < 2 ^ 32
}.
Definition count (s : sys) := (total_unpaid_blocks (gstate s), unpaid s).
Lemma counted_same s s' : count s' = count s -> counted s -> counted s'.
Proof. intros [= E1 E2] [C1 C2]. split; unfold unpaid_sum in *; by rewrite ?E1, E2. Qed.

Lemma keeps_count_books {A} (m : M A) : keeps books m -> keeps count m.
Proof.
  intros Hm s. destruct (books_eq _ _ (Hm s)) as [Er _]. unfold rest, totals in Er. unfold count. injection Er as _ _ _ _ _ _ _ _ _ _ E1 _ _ E2 _.
  by rewrite E1, E2.
Qed.
#[local] Hint Extern 1 (keeps count (set_gstate_with _)) => done : keeps.
#[local] Hint Extern 1 (keeps count (modify_st _)) => done : keeps.
#[local] Hint Extern 1 (keeps count (send _)) => done : keeps.
#[local] Hint Extern 1 (keeps count (modify _producers _ _ _)) => apply keeps_count_books; solve [eauto with keeps] : keeps.
#[local] Hint Extern 2 (keeps count (modify _ _ _ _)) => apply keeps_table; done : keeps.
#[local] Hint Extern 2 (keeps count (emplace _ _ _ _)) => apply keeps_table; done : keeps.
#[local] Hint Extern 2 (keeps count (erase _ _)) => apply keeps_table; done : keeps.
#[local] Hint Extern 3 (keeps count _) => apply keeps_count_books; solve [eauto with keeps] : keeps.

Section pay.
Context `{SystemLib}.

Lemma keeps_count_propagate env v : keeps count (propagate env v).
Proof. unfold propagate. keeps_step. apply keeps_count_books, keeps_propagate. Qed.
Lemma keeps_count_market {A} (f : exchange_state -> result (exchange_state * A)) : keeps count (modify_market f).
Proof. unfold modify_market. keeps_step. Qed.
Hint Resolve keeps_count_propagate keeps_count_market : keeps.
Lemma keeps_count_buyram env payer receiver q : keeps count (buyram env payer receiver q).
Proof. unfold buyram, reserve_ram, send_transfer, set_resource_limits, check, require_auth. keeps_step. Qed.
Lemma keeps_count_changebw env f r n c t : keeps count (changebw env f r n c t).
Proof.
  unfold changebw, update_delegation, write_delegation, update_totals, write_totals, update_refund, change_refund, update_voter, write_stake,
    validate_b1_vesting, set_resource_limits, send_transfer, check, require_auth. keeps_step.
Qed.
Lemma keeps_count_fill env ct : keeps count (fill_buckets env ct).
Proof. unfold fill_buckets, send_transfer. keeps_step. Qed.
Hint Resolve keeps_count_buyram keeps_count_changebw keeps_count_fill : keeps.
Definition counts (k : call) : bool := match k with Regproducer _ _ _ _ | Onblock _ _ | Claimrewards _ => true | _ => false end.
Lemma keeps_count_action env k : counts k = false -> keeps count (run_action env k).
Proof.
  destruct k; cbn [run_action counts]; intros [=];
  unfold newaccount, setram, setparams, setpriv, rmvproducer, unregprod, voteproducer, regproxy, 
    bidname, buyrambytes, sellram, release_ram, delegatebw, undelegatebw, refund, send_transfer, set_resource_limits, check, require_auth; keeps_step.
Qed.

Lemma u32_cong a b k : a = b + k * 2 ^ 32 -> u32 a = u32 b.
Proof. intros ->. unfold u32. apply Z_mod_plus_full. Qed.
Lemma u32_off z : exists k, u32 z = z + k * 2 ^ 32.
Proof. exists (- (z / 2 ^ 32)). unfold u32. rewrite Z.mod_eq by lia. lia. Qed.
(** A row of [old] blocks becomes one of [u], and the total changes by as much. *)
Lemma counted_change s s' k u old j : counted s -> unpaid s' = <[k := u]> (unpaid s) -> default 0 (unpaid s !! k) = old -> 0 <= u < 2 ^ 32 ->
  total_unpaid_blocks (gstate s') = u32 (total_unpaid_blocks (gstate s) + u - old + j * 2 ^ 32) -> counted s'.
Proof.
  intros [C1 C2] Eu Eo Hu Et. split.
  - destruct (u32_off (unpaid_sum s)) as [i Hi]. rewrite Et, C1, Hi. apply u32_cong with (k := i + j). unfold unpaid_sum in *. rewrite Eu.
    destruct (unpaid s !! k) as [u0|] eqn:E; cbn in Eo; subst old; [rewrite (map_sum_update _ _ _ _ _ E)|rewrite map_sum_insert by done]; lia.
  - intros k' u'. rewrite Eu. intros [[_ <-]|[_ Hk]]%lookup_insert_Some; [done|by eapply C2].
Qed.
Lemma unpaid_insert s k p a : unpaid (set_producers (<[k := Row p a]> (producers s)) s) = <[k := unpaid_blocks a]> (unpaid s).
Proof. unfold unpaid. cbn. by rewrite fmap_insert. Qed.
Lemma unpaid_lookup s k r : producers s !! k = Some r -> unpaid s !! k = Some (unpaid_blocks (obj r)).
Proof. intros Hk. unfold unpaid. by rewrite lookup_fmap, Hk. Qed.

Lemma regproducer_counted env p k url loc s : counted s -> wp (regproducer env p k url loc) (fun _ s' => counted s') s.
Proof.
  intros Hc. unfold regproducer, check, require_auth. do 6 wp_step. wp_step. apply wp_find. cbn [rows _producers].
  destruct (producers s !! p) as [r|] eqn:E; cbn [fmap option_fmap option_map].
  - eapply (wp_keeps count); [keeps_step|]. intros [] s' E'. by eapply counted_same.
  - apply wp_emplace. intros _. cbn [rows set_rows _producers]. eapply (counted_change s _ p 0 0 0); [done|apply unpaid_insert| |lia|].
    + unfold unpaid. by rewrite lookup_fmap, E.
    + cbn. rewrite u32_small; [lia|]. rewrite (co_total s Hc). pose proof (u32_range (unpaid_sum s)). lia.
Qed.
Lemma onblock_counted env t p s : counted s -> wp (onblock env t p) (fun _ s' => counted s') s.
Proof.
  intros Hc. unfold onblock, require_auth.
  wp_step. eapply (wp_keeps count); [keeps_step|]. intros _ s1 E1.
  wp_step. eapply (wp_keeps count); [keeps_step|]. intros g s2 E2. wp_step; [wp_step; by apply (counted_same s); [congruence|]|].
  wp_step. eapply (wp_keeps count); [keeps_step|]. intros _ s3 E3.
  assert (counted s3) as H3 by (by apply (counted_same s); [congruence|]). clear Hc E1 E2 E3. wp_step. apply wp_find. cbn [rows _producers].
  wp_step. eapply (wp_mono _ (fun _ s' => counted s')).
  - destruct (producers s3 !! p) as [r|] eqn:Er; cbn [fmap option_fmap option_map]; [|by wp_step]. unfold set_gstate_with. wp_step. wp_step.
    apply wp_modify_row. cbn [rows set_rows _producers producers set_gstate]. intros r' Hr'. assert (r' = r) as -> by congruence.
    destruct (u32_off (unpaid_blocks (obj r) + 1)) as [j Hj].
    eapply (counted_change s3 _ p (u32 (unpaid_blocks (obj r) + 1)) (unpaid_blocks (obj r)) (- j)); [done| |by rewrite (unpaid_lookup _ _ _ Er)|apply u32_range|].
    + match goal with |- unpaid (set_producers _ ?x) = _ => exact (unpaid_insert x _ _ _) end.
    + cbn. rewrite Hj. f_equal. lia.
  - intros [] s4 H4. wp_step. eapply (wp_keeps count); [keeps_step|]. intros g' s5 E5. wp_step; [|wp_step; by eapply counted_same].
    wp_step. eapply (wp_keeps count); [keeps_step|]. intros _ s6 E6. wp_step. eapply (wp_keeps count); [keeps_step|]. intros g'' s7 E7.
    assert (counted s7) as H7 by (apply (counted_same s4); [congruence|done]). wp_step; [|by wp_step].
    eapply (wp_keeps count); [unfold close_auction; keeps_step|]. intros [] s8 E8. by eapply counted_same.
Qed.

(** ** A claim *)
Definition pays (vault owner : account_name) (pay : Z) (memo : list ascii) : list effect :=
  if 0 <? pay then [Inline vault (Transfer (TransferArgs vault owner (core pay) memo))] else [].
Lemma pay_spec vault owner pay memo s :
  wp (if 0 <? pay then q ← lift (core_asset pay); send_transfer vault owner q memo else mret tt)
    (fun _ s' => s' = set_outbox (outbox s ++ pays vault owner pay memo) s) s.
Proof.
  unfold pays. destruct (0 <? pay); wp_step; [|by rewrite app_nil_r; destruct s]. unfold core_asset. wp_step. 
  match goal with E : _ = Ok _ |- _ => bind_ok E as ([] & _ & E); injection E as <- end. apply wp_send. done.
Qed.
(** The state in which the shares are computed, and what a claim does to it. *)
Record claimed (env : call_env) (owner : account_name) (r : row producer_info) (f s' : sys) : Prop := {
  cl_unpaid : unpaid s' = <[owner := 0]> (unpaid f);
  cl_total : total_unpaid_blocks (gstate s') = u32 (total_unpaid_blocks (gstate f) - unpaid_blocks (obj r));
  cl_bucket : perblock_bucket (gstate s') = i64 (perblock_bucket (gstate f) - block_pay (gstate f) (obj r));
  cl_paid : exists v, vote_pay (gstate f) (obj r) = Ok v /\
    pervote_bucket (gstate s') = i64 (pervote_bucket (gstate f) - v) /\
    outbox s' = outbox f ++ pays n_bpay owner (block_pay (gstate f) (obj r)) (lit "producer block pay") ++
                pays n_vpay owner v (lit "producer vote pay")
}.
Lemma claim_spec env owner s : wp (claimrewards env owner) (fun _ s' => exists r, producers s !! owner = Some r /\
  producers (fill_buckets env (current_time env) s).1 = producers s /\
  claimed env owner r (fill_buckets env (current_time env) s).1 s') s.
Proof.
  unfold claimrewards, require_auth, check. do 2 wp_step. wp_step. apply wp_get_row. cbn [rows _producers]. intros r Hr.
  do 2 wp_step. wp_step. change (wp (gets gstate) ?P ?s) with (P (gstate s) s). cbv beta. do 4 wp_step. wp_step. apply wp_run. intros f [] Ef.
  assert (producers f = producers s) as Ep.
  { assert (keeps producers (fill_buckets env (current_time env))) as Hk.
    { unfold fill_buckets, send_transfer. keeps_step; done. }
    specialize (Hk s). by rewrite Ef in Hk. }
  wp_step. change (wp (gets gstate) ?P ?s) with (P (gstate s) s). cbv beta. wp_step. wp_step. unfold set_gstate_with. do 6 wp_step.
  wp_step. apply wp_modify_row. cbn [rows set_rows _producers producers set_gstate]. intros r' Hr'. assert (r' = r) as -> by congruence.
  wp_step. eapply wp_mono; [apply pay_spec|]. intros [] s1 ->. eapply wp_mono; [apply pay_spec|]. intros [] s2 ->.
  exists r. rewrite Ef. cbn [fst]. split_and!; [done|done|]. split; cbn; [|done|done|].
  - unfold unpaid. cbn. by rewrite fmap_insert.
  - eexists. split_and!; [eassumption|done|by rewrite <- app_assoc].
Qed.
Lemma fill_count env ct s : count (fill_buckets env ct s).1 = count s.
Proof. apply keeps_count_fill. Qed.
Lemma claim_counted env owner s : counted s -> wp (claimrewards env owner) (fun _ s' => counted s') s.
Proof.
  intros Hc. eapply wp_mono; [apply claim_spec|]. intros [] s' (r & Hr & Ep & [C1 C2 _ _]).
  assert (counted (fill_buckets env (current_time env) s).1) as Hf by (by eapply counted_same; [apply fill_count|]).
  eapply (counted_change _ _ owner 0 (unpaid_blocks (obj r)) 0); [exact Hf|done| |lia|].
  - by rewrite (unpaid_lookup _ _ r) by (by rewrite Ep).
  - rewrite C2. f_equal. lia.
Qed.
Lemma counted_run env k s : counted s -> wp (run_action env k) (fun _ s' => counted s') s.
Proof.
  intros Hc. destruct (counts k) eqn:Hk.
  - destruct k; try done; cbn [run_action]; [by apply regproducer_counted|by apply onblock_counted|by apply claim_counted].
  - eapply (wp_keeps count); [by apply keeps_count_action|]. intros [] s' E. by eapply counted_same.
Qed.

(** Between actions the singleton holds what the contract holds. *)
Definition stored (s : sys) : Prop :=
  counted s /\ match global s with Some g => obj g = gstate s | None => unpaid s = ∅ end.
Lemma construct_counted env s : stored s -> counted (construct env s).1 /\ unpaid (construct env s).1 = unpaid s.
Proof.
  intros [Hc Hg]. assert (unpaid (construct env s).1 = unpaid s) as Eu.
  { assert (keeps unpaid (construct env)) as Hk by (unfold construct; keeps_step; done). apply Hk. }
  split; [|done]. set (g := match global s with Some r => obj r | None => get_default_parameters env end).
  assert (gstate (construct env s).1 = g) as Eg.
  { unfold construct. run_st. fold g. cbn [rammarket set_gstate]. destruct (rammarket s); [done|].
    destruct (get_supply _ _); [|done]. cbn. by destruct (0 <? amount _). }
  apply (counted_same (set_gstate g s)); [unfold count; by rewrite Eg, Eu|]. unfold g. destruct (global s) as [r|].
  - rewrite Hg. by apply (counted_same s).
  - split; unfold unpaid_sum; cbn; unfold unpaid in *; cbn; rewrite Hg; [done|]. intros k u. by rewrite lookup_empty.
Qed.
Lemma reachable_stored s : reachable s -> stored s.
Proof.
  induction 1 as [c|env k s s' _ IH Hk E|s l _ [IH1 IH2]].
  - split; [|done]. split; [done|]. intros k u. unfold unpaid. cbn. by rewrite fmap_empty, lookup_empty.
  - destruct (construct_counted env s IH) as [H1 _]. revert E. unfold apply. intros E.
    apply St_bind_ok in E as ([] & s1 & E1 & E). rewrite E1 in H1. apply St_bind_ok in E as ([] & s2 & E2 & E).
    pose proof (wp_ok _ _ _ _ _ (counted_run env k s1 H1) E2) as H2. injection E as <-. split; [by apply (counted_same s2)|done].
  - split; [by apply (counted_same s)|done].
Qed.

(** ** Shares *)
Lemma quot_share b u t : 0 <= b -> 0 <= u <= t -> 0 < t -> 0 <= Z.quot (b * u) t <= b /\ Z.quot (b * u) t * t <= b * u.
Proof.
  intros Hb Hu Ht. rewrite Z.quot_div_nonneg by nia. split; [split|].
  - apply Z.div_pos; nia.
  - apply Z.div_le_upper_bound; nia.
  - pose proof (Z.mul_div_le (b * u) t Ht). lia.
Qed.
(** Once a share is taken, the others' are no smaller. *)
Lemma quot_left b u t v : 0 <= b -> 0 <= u -> 0 <= v -> u + v <= t -> 0 < v ->
  Z.quot (b * v) t <= Z.quot ((b - Z.quot (b * u) t) * v) (t - u).
Proof.
  intros Hb Hu Hv Ht Hpos. destruct (quot_share b u t) as [[H1 H2] H3]; [lia..|]. rewrite !Z.quot_div_nonneg by nia.
  rewrite Z.quot_div_nonneg in * by nia. apply Z.div_le_lower_bound; [lia|]. set (p := b * u / t) in *.
  pose proof (Z.mul_div_le (b * v) t ltac:(lia)) as Hd. set (d := b * v / t) in *.
  assert ((t - u) * d * t <= (b - p) * v * t) by nia. nia.
Qed.

Lemma unpaid_one s k u : counted s -> unpaid s !! k = Some u -> 0 <= u <= unpaid_sum s.
Proof.
  intros [_ C2] Hk. pose proof (C2 _ _ Hk). split; [lia|]. apply (map_sum_elem_le (fun _ u => u) _ k); [|done]. intros k' u' Hu. apply C2 in Hu. lia.
Qed.
Lemma unpaid_pair s k u k' u' : counted s -> unpaid s !! k = Some u -> unpaid s !! k' = Some u' -> k <> k' ->
  0 <= u' /\ u + u' <= unpaid_sum s.
Proof.
  intros [_ C2] Hk Hk' Hne. unfold unpaid_sum. rewrite (map_sum_delete _ _ _ _ Hk). pose proof (C2 _ _ Hk').
  assert (u' <= map_sum (fun _ u => u) (delete k (unpaid s))); [|lia].
  apply (map_sum_elem_le (fun _ u => u) _ k'); [|by rewrite lookup_delete_ne]. intros i x [_ Hx]%lookup_delete_Some. apply C2 in Hx. lia.
Qed.
Lemma block_pay_exact g p t : total_unpaid_blocks g = t -> 0 <= perblock_bucket g -> perblock_bucket g * t < 2 ^ 63 ->
  0 <= unpaid_blocks p <= t -> block_pay g p = if 0 <? t then Z.quot (perblock_bucket g * unpaid_blocks p) t else 0.
Proof. intros <- Hb Ht Hu. unfold block_pay. destruct (0 <? _); [|done]. by rewrite i64_small by nia. Qed.
Lemma block_pay_left g g' p q t : total_unpaid_blocks g = t -> 0 <= perblock_bucket g -> perblock_bucket g * t < 2 ^ 63 -> t < 2 ^ 32 ->
  0 <= unpaid_blocks p -> 0 <= unpaid_blocks q -> unpaid_blocks p + unpaid_blocks q <= t ->
  total_unpaid_blocks g' = u32 (t - unpaid_blocks p) -> perblock_bucket g' = i64 (perblock_bucket g - block_pay g p) ->
  0 <= block_pay g p <= perblock_bucket g -> block_pay g q <= block_pay g' q.
Proof.
  intros Ht Hb Ho H32 Hp Hq Hpq Ht' Hb' Hpay. rewrite u32_small in Ht' by lia.
  destruct (Z.ltb_spec 0 t) as [Hpos|]; [|unfold block_pay; rewrite Ht, Ht'; rewrite !(proj2 (Z.ltb_ge _ _)) by lia; done].
  assert (perblock_bucket g < 2 ^ 63) by nia. rewrite i64_small in Hb' by lia.
  rewrite (block_pay_exact g q t), (block_pay_exact g' q (t - unpaid_blocks p)) by (done || nia).
  rewrite (proj2 (Z.ltb_lt 0 t) Hpos). destruct (Z.eq_dec (unpaid_blocks q) 0) as [->|Hnz].
  - rewrite !Z.mul_0_r, Z.quot_0_l by lia. destruct (Z.ltb_spec 0 (t - unpaid_blocks p)); [by rewrite Z.quot_0_l by lia|done].
  - rewrite (proj2 (Z.ltb_lt 0 (t - _))) by lia. rewrite Hb', (block_pay_exact g p t), (proj2 (Z.ltb_lt 0 t) Hpos) by (done || lia).
    apply quot_left; lia.
Qed.

Definition claim_state (env : call_env) (s : sys) : sys := (fill_buckets env (current_time env) (construct env s).1).1.

(** C32 The count of unpaid blocks is the sum over the producers. A claim resets that of the claiming
    producer, moves the two payments out of their vaults and takes exactly them from the buckets.
    When moreover the bucket for blocks is not negative, its product with the number of unpaid blocks fits
    into 63 bits and that number into 32 bits, the payment for blocks is at most the bucket, and no other
    producer would be paid less for theirs than before the claim. (The code adds to the bucket and
    multiplies unchecked.) *)
Theorem block_pay_fair (env : call_env) (owner : account_name) (s s' : sys) :
  reachable s -> apply env (Claimrewards owner) s = (s', Ok tt) ->
  exists r, producers s !! owner = Some r /\ claimed env owner r (claim_state env s) s' /\
  total_unpaid_blocks (gstate (claim_state env s)) = u32 (unpaid_sum s) /\ total_unpaid_blocks (gstate s') = u32 (unpaid_sum s') /\
  (0 <= perblock_bucket (gstate (claim_state env s)) -> perblock_bucket (gstate (claim_state env s)) * unpaid_sum s < 2 ^ 63 ->
   unpaid_sum s < 2 ^ 32 ->
   0 <= block_pay (gstate (claim_state env s)) (obj r) <= perblock_bucket (gstate (claim_state env s)) /\
   forall a q, a <> owner -> producers s !! a = Some q ->
     block_pay (gstate (claim_state env s)) (obj q) <= block_pay (gstate s') (obj q)).
Proof.
  intros Hr E. assert (stored s') as [[Hs' _] _] by (by eapply reachable_stored, (reachable_action env (Claimrewards owner))).
  pose proof (reachable_stored s Hr) as Hs. destruct (construct_counted env s Hs) as [Hc Eu]. unfold claim_state.
  assert (producers (construct env s).1 = producers s) as Epr.
  { assert (keeps producers (construct env)) as Hk by (unfold construct; keeps_step; done). apply Hk. }
  unfold apply in E. apply St_bind_ok in E as ([] & s1 & E1 & E). rewrite E1 in *. cbn [fst] in *.
  apply St_bind_ok in E as ([] & s2 & E2 & E). injection E as <-. cbn [run_action] in E2.
  destruct (wp_ok _ _ _ _ _ (claim_spec env owner s1) E2) as (r & Hp & _ & Hcl). rewrite Epr in Hp. exists r.
  set (f := (fill_buckets env (current_time env) s1).1) in *. pose proof (fill_count env (current_time env) s1) as [= Et _]. fold f in Et.
  assert (total_unpaid_blocks (gstate f) = u32 (unpaid_sum s)) as Ht by (rewrite Et, (co_total s1 Hc); unfold unpaid_sum; by rewrite Eu).
  split_and!; [done|destruct Hcl as [? ? ? ?]; by split|done|done|]. intros Hb Ho H32.
  destruct (unpaid_one s owner _ (proj1 Hs) (unpaid_lookup _ _ _ Hp)) as [U0 U1]. rewrite u32_small in Ht by lia.
  assert (0 <= block_pay (gstate f) (obj r) <= perblock_bucket (gstate f)) as Hpay.
  { rewrite (block_pay_exact (gstate f) (obj r) _ Ht Hb Ho (conj U0 U1)). destruct (Z.ltb_spec 0 (unpaid_sum s)); [by apply quot_share|lia]. }
  split; [done|].
  intros a q Hne Hq. cbn [gstate set_global]. destruct Hcl as [_ C2 C3 _].
    destruct (unpaid_pair s _ _ _ _ (proj1 Hs) (unpaid_lookup _ _ _ Hp) (unpaid_lookup _ _ _ Hq) ltac:(done)) as (V0 & V1).
    rewrite Ht in C2. eapply (block_pay_left (gstate f) _ (obj r) (obj q) _ Ht); (done || lia).
Qed.
End pay.

(** ** Bob claims for one block *)
Module PaySample.
Import SystemSample ElectionSample.
Definition next_day : call_env := at_time (day + 16 * useconds_per_day) [bob].
Definition due : sys := Eval vm_compute in set_outbox [] elected.
Definition rewarded : sys := Eval vm_compute in (apply next_day (Claimrewards bob) due).1.
Lemma rewarded_run : apply next_day (Claimrewards bob) due = (rewarded, Ok tt).
Proof. by vm_compute. Qed.
Lemma due_reachable : reachable due.
Proof. change due with (set_outbox [] elected). apply reachable_sent. apply (reachable_action later (Onblock 3000000 bob) voted); [apply voted_reachable|done|apply elected_run]. Qed.
End PaySample.
Import SystemSample PaySample.
Lemma block_pay_fair_witness :
  total_unpaid_blocks (gstate (claim_state next_day due)) = 1 /\ total_unpaid_blocks (gstate rewarded) = 0 /\
  exists r, producers due !! bob = Some r /\
  0 <= block_pay (gstate (claim_state next_day due)) (obj r) <= perblock_bucket (gstate (claim_state next_day due)).
Proof.
  destruct (block_pay_fair next_day bob due rewarded) as (r & Hr & _ & H1 & H2 & Hpay); [apply due_reachable|apply rewarded_run|].
  split; [rewrite H1; vm_compute; reflexivity|]. split; [rewrite H2; vm_compute; reflexivity|].
  exists r. split; [exact Hr|]. apply Hpay; [apply Z.leb_le|apply Z.ltb_lt|apply Z.ltb_lt]; vm_compute; reflexivity.
Defined.
